(* ===== verification/_CoqProject ===== *)
-Q . S2P
Prelude.v
Collections.v
Event.v
Reference.v
EventProps.v
Deletion.v
Tombstones.v
Index.v
IndexInv.v
IndexSpec.v
IndexQuery.v
Threads.v
ThreadsInv.v
ThreadsProps.v
ThreadsQuery.v
Wal.v
Store.v
Recovery.v
Journal.v
Durability.v
Writers.v
WritersProps.v
Text.v
Subscription.v
QueryMeanwhile.v
Fanout.v
Router.v
RouterProps.v
RouterCalls.v
RouterDelivery.v
RouterOpen.v
RouterSignals.v
Message.v
Relay.v
Node.v
NodeProps.v
Config.v
Proxy.v
Socket.v
SocketInv.v
SocketProps.v
Delivery.v
Float.v
Startup.v
Http.v
Metrics.v
Metered.v
MeteredProps.v
MeteredTruth.v
Main.v
Json.v
UnitEvent.v
UnitIndex.v
UnitStore.v
UnitLive.v
Conformance.v
