(* ===== verification/Prelude.v ===== *)
(** * A verification development for memlay

    memlay is an in-memory Nostr relay. Clients connect over WebSockets, publish
    signed events (EVENT), open subscriptions (REQ) and close them (CLOSE); the
    relay verifies and stores events in memory under a byte budget, answers
    subscriptions from its indexes, delivers new events live, honours NIP-09
    deletion requests, and persists what it holds in a write-ahead log and a
    snapshot. This library models the Rust code under [src/src/] as executable
    definitions and proves the properties that make it correct.

    ** The parts and how they interact

    A frame from a client reaches the connection loop ([relay.rs],
    [handle_socket]). An EVENT frame is parsed and verified ([message.rs],
    [event.rs]), inserted into the store ([store/mod.rs]), which updates the index
    ([store/index.rs]) and appends to the log ([store/wal.rs]), and is then
    published through the live router ([fanout.rs]). A kind-5 event is parsed as a
    deletion request ([deletion.rs]) and applied to the store first. A REQ
    registers its filters ([subscription.rs]) with the router and is answered from
    the store's indexes. Background tasks evict the oldest events, sync the log and
    take checkpoints; a restart loads the snapshot and replays the log.

    ** Files

    - [Prelude]: machine integers, bytes, strings and UTF-8, [result] and panics,
      orders, shared lemmas, tactics and the hint database [memlay].
    - [Collections]: sorted sets and maps of buckets, the standard collections the
      index is made of, behind the class [BucketMap].
    - [Event], [EventProps] ([event.rs]): the event, its two parsers, kinds, tags
      and replacement keys. The crates hex, serde_json, sha2 and secp256k1 are the
      classes [HexCrate] and [EventCrates], with their documented behaviour in
      [HexLaws] and [SerdeLaws]. [Reference] has concrete instances for closed
      examples.
    - [Deletion] ([deletion.rs]): parsing of deletion requests.
    - [Tombstones], [Index], [IndexInv], [IndexSpec], [IndexQuery]
      ([store/index.rs]): the bounded set of deleted ids; the index with its six
      secondary indexes and replacement slots; its invariant; the abstract machine
      it refines; its queries. In these files an operation is one atomic step.
    - [Threads], [ThreadsInv], [ThreadsProps], [ThreadsQuery] ([store/index.rs]): the same [insert],
      [remove] and [delete_by_id] cut into their accesses to shared memory, run by
      any number of threads in any interleaving; the invariant of every reachable
      state; what concurrent calls guarantee, and the schedules that break it; what
      a query or an eviction scan sees beside writers.
    - [Wal] ([store/wal.rs]): record format, append, sync, rotation, replay and
      compaction, over files that may lose what was not synced.
    - [Store], [Recovery] ([store/mod.rs]): insertion, deletion, memory budget and
      eviction; snapshot, checkpoint, load and restart. [Journal] relates a log to
      the index that replaying it gives; [Durability] proves what survives a crash.
    - [Writers], [WritersProps] ([store/mod.rs]): insertion, deletion and checkpoint
      cut into their accesses to the index, the log and the disk, run by any number
      of threads beside each other; what a crash after any access recovers, and the
      schedules that lose or resurrect events.
    - [Subscription] ([subscription.rs]): filters, their JSON form, live matching
      and the execution of queries.
    - [QueryMeanwhile] ([subscription.rs]): a query beside writers, each of its index
      reads in another state.
    - [Text]: lossy UTF-8 decoding and the string functions of the message loop.
    - [Fanout] ([fanout.rs]): connection states, the kind index, delivery.
    - [Router], [RouterProps], [RouterCalls], [RouterDelivery], [RouterSignals]
      ([fanout.rs]): the same methods cut at their locks, run by the tasks of the
      connections and any number of publishing threads in any interleaving; the
      invariant; no thread waits for ever; what is delivered, counted and signalled.
    - [RouterOpen]: what reaches a subscription while its connection goes on working.
    - [Message] ([message.rs]): protocol messages as text, with serde_json as the
      classes [MessageJson] and [MessageJsonLaws].
    - [Relay] ([relay.rs]): processing of EVENT frames and preparation of filters.
    - [Node], [NodeProps] ([relay.rs], [store/mod.rs], with [Threads] and [Router]):
      the processing of events from the call of [EventStore::insert] to the reply, any
      number of them beside evictions, deletions and clients, each access to the
      index, each log record and each critical section of the router its own step;
      that the composition misses no event, what a reply stands for, and that every
      task returns.
    - [Config] ([config.rs]): the configuration and its defaults ([Main] loads it).
    - [Proxy] ([proxy.rs]): which address a connection is attributed to.
    - [Socket], [SocketInv], [SocketProps] ([relay.rs]): the connection loop with
      its tasks as a step relation on the state of the server, its invariant, and
      properties of its runs. [Delivery]: stored answers and live delivery together.
    - [Float]: [f64] as [spec_float], for sizes and durations.
    - [Startup] ([relay.rs], [store/mod.rs], [main.rs]): sizing of the store from
      the host's memory, [Relay::new], the turns of the background tasks between the
      steps of the connections, and shutdown.
    - [Http] ([relay.rs]): the router, the information document, "/stats",
      "/metrics" and the landing page.
    - [Metrics] ([metrics.rs]): the process's metrics, over the prometheus crate's
      registry as the class [Prometheus]. [Metered]: every function of the store, the
      router and the relay that updates a metric, with the calls it makes, up to
      whole runs of the process, in which each access to the connection gauge is a step
      of its own; [MeteredProps]: that these are the functions of the
      other files, and what each operation's calls count; [MeteredTruth]: the
      metrics against the states and the history of a run.
    - [Main] ([config.rs], [main.rs]): loading of the configuration, logging, limits
      and start of the process.
    - [Json], [UnitEvent], [UnitIndex], [UnitStore], [UnitLive], [Conformance]: a
      JSON reader and writer, and the repository's unit tests as scenarios that the
      model runs.

    ** Correspondence

    Data keep the source's constructors and fields. [u8] to [u64] and [usize] are
    [Z], with wrap-around written out where the source uses atomics; byte buffers
    are [list Z]; a [char] is a scalar value in [N] and a string the list of its
    characters, [str_len] counting UTF-8 bytes as the source does. [HashMap] and
    [DashMap] are [gmap]; where the source iterates over one, the order is a
    parameter or does not matter by a theorem. Fallible code returns [result] with
    the source's errors, and code that could panic returns [panicky]. Shared
    connection states are a heap indexed by connection id. System calls that can
    fail take a [Faults] argument, and what a load can read of each file is a
    [Reading]: all of it, nothing, or so many bytes (the source warns and goes on in
    the last two cases, and so does the model); clock readings are arguments. Each operation of
    the index, store and router is one atomic step, except in [Threads], whose grain
    is one access: a [DashMap] operation, a bucket updated under its lock, an atomic
    add, or the critical section of the tombstones. There memory is sequentially
    consistent and the [by_replaceable] entry that [insert] holds locks its key, where
    [DashMap] locks the shard of the key; this admits every interleaving of the
    source. In [Router] one step is a critical section of the source, or an atomic
    access; the guards that are held from one to another are the locks of the model.
    In [Node] a step is one of these, one append to the log, or the start of a
    publication; its index, log and router are those of [Threads], [Wal] and [Router].

    ** What the theorems show

    - Durability: without a memory limit, for events on one line of at most 16 MiB,
      and as long as no file operation fails: after any run of inserts, deletions,
      maintenance, checkpoints and restarts, a crash at any point recovers the events
      held in memory; with inserts, deletions and one checkpoint at a time interleaved
      access by access, a crash anywhere still recovers every event whose record was
      written, save in the slots a deletion touched. Log
      records read back; a committed record survives a power loss; compaction and
      loading do what they should and stay within memory limits.
    - Index: every run refines an abstract machine of one map and one list; the
      secondary indexes, the event counter and slots are consistent; the newest version of a
      replaceable event wins in any arrival order; queries return exactly the events
      of their key.
    - Concurrency: under every schedule all calls return; when they have, and the
      inserts were of distinct events not stored before, the secondary indexes agree with the stored events, one version of a replaceable
      event is left and the counter is off by at most the lost races; a call that
      runs alone is the sequential function; a query beside writers, over one bucket
      or many, is exact up to the events that a call is working on at that moment.
    - Lifetime: from a start on files of genuine records on, through any steps of
      clients and background tasks, the invariant of the relay holds; under the
      conditions of durability, a graceful shutdown, whatever fails in it, followed
      by a restart has the same events.
    - Store: deletion requests remove exactly the events of their author that they
      name; eviction removes
      only the oldest; the memory budget estimate is bounded and converges.
    - Events: exactly authentic events are accepted, with the fields of their text,
      and reparse to themselves; each refusal is the first check that fails.
    - Subscriptions: what a stored query returns and when it agrees with live
      matching; filters survive their JSON form.
    - Live delivery: routing by kind is equivalent to offering every event to every
      connection; every match is queued or accounted for as dropped; no event falls
      between the answer to a request and the live events that follow it, if the limit
      of the filter is not below what is stored. With the
      critical sections of connections and publishers interleaved: every call returns,
      a publication reaches the subscriptions that were there before it exactly once,
      a closed subscription gets nothing more, and no drop goes uncounted or
      unsignalled.
    - The parts together, at the grain of their accesses: an event accepted while a
      client's stored query is being answered is in the answer or offered live; a
      reply is given when the record is in the log and the publication has returned,
      which offered the event once to every matching subscription that was open
      throughout; every task returns; a task that nothing disturbs computes what
      [process_event_message] does.
    - HTTP: the limits the information document advertises are those the connection
      loop enforces, "/stats" tells the truth, and forwarding headers are believed
      only from a configured proxy.
    - Relay: processing an EVENT frame refines a specification of index, deliveries
      and reply, end to end; every EVENT frame is answered; deletions are final.
    - Server: an invariant of every reachable state under any interleaving of
      clients and tasks, and the complete answer to a request.
    - Metrics: no metrics call panics, and at every moment the counters are exactly
      the events that have entered the store, were removed by deletion requests, sent
      and dropped; the connection gauge is exact but for the connections, and the
      collector's turn, that are between two accesses.
    - Configuration: each field is the environment's, else the file's, else its
      default.
    - Where the code falls short of what it documents, a closed theorem shows the
      behaviour (queries that miss or add events, tombstones forgotten by a
      checkpoint, a deletion undone by a concurrent checkpoint, a rotated log removed
      unread, permits held by a client that does not read).

    ** Bounds and fuel

    Recursion is structural except in a few loops that take fuel: UTF-8 decoding
    and validation (each turn consumes a byte, the fuel is the length),
    [chunks] (the length), and the replay and compaction loops of the log (each
    record consumes at least its header, the fuel is the length of the file), the
    eviction loop of a load (each turn removes a stored event), the groups of an
    IPv6 address (eight) and the JSON reader (the length).
    Lemmas show the fuel of decoding, replay, compaction and eviction is enough, so
    results do not depend on it.

    ** Assumptions

    Ids determine contents ([genuine], the collision resistance of SHA-256) is a
    hypothesis of the theorems on the index and what builds on it. The laws of the
    crates are those of their documentation, and each is satisfied by an instance.

    ** Not modelled

    Memory ordering weaker than sequential consistency. In [Socket] a query and the
    processing of a frame are single steps of the server; [Node] has the processing
    of frames at the grain of accesses and [QueryMeanwhile] the query, without the
    rest of the connection loop (permits, queues, subscription limits). In [Node] the
    deletions that a NIP-09 request makes are not ordered with respect to the
    request's own insertion, and checkpoints, group commit and failing system calls
    do not occur: in [Writers] they run beside the writers with each index operation
    a single access, and [Durability] has failing calls.
    The text of log lines, the encoding of the metrics, [axum::serve], sockets and
    TLS are I/O. An aborted task is taken to stop at once; in [Metered] the
    calls of the metrics belong to the step in which they are made, those of the
    connection gauge apart, and the time to EOSE is observed with the EOSE. The unit test that reads the machine's memory
    takes the host as an argument. The lines that the map leaves out are imports,
    module declarations, comments, tracing, [Debug], identity hashers and accessors.

    ** Plan

    Next: the checkpoint of [Writers] as a task of [Node], and the reads of a query as
    steps of the connection loop of [Socket]. *)
From stdpp Require Export base tactics option list gmap fin_maps sorting strings.
From Stdlib Require Export ZArith Lia.

(** * Machine data

    Rust's fixed-width data as it is used by the relay: [u8], [u32], [u64] and
    [usize] (64 bits) are [Z] with the wrap-around written out; a byte buffer
    ([&[u8]], [Bytes], [[u8; 32]]) is a [list Z]; a [char] is a Unicode scalar
    value in [N]; a [String]/[&str] is the list of its scalar values, with its
    UTF-8 encoding as a function ([str::len] counts encoded bytes). Keeping
    bytes in [Z] and characters in [N] lets the type checker keep the two
    apart. *)

Declare Scope memlay_scope.
Delimit Scope memlay_scope with memlay.

Abbreviation bytes := (list Z).
Abbreviation str := (list N).

Definition u8_ok (b : Z) : Prop := (0 <= b < 256)%Z.
Definition u32_ok (n : Z) : Prop := (0 <= n < 2 ^ 32)%Z.
Definition u64_ok (n : Z) : Prop := (0 <= n < 2 ^ 64)%Z.

(** Wrapping arithmetic of an atomic [usize] ([fetch_add]/[fetch_sub]). *)
Definition wrap64 (n : Z) : Z := (n mod 2 ^ 64)%Z.
Definition fetch_add (x d : Z) : Z := wrap64 (x + d).
Definition fetch_sub (x d : Z) : Z := wrap64 (x - d).
Definition usize_max : Z := (2 ^ 64 - 1)%Z.

(** [saturating_mul] on [u64]. *)
Definition sat_mul64 (a b : Z) : Z := Z.min (a * b) (2 ^ 64 - 1).

(** [Ord::clamp]. *)
Definition clamp (lo hi x : Z) : Z :=
  if (x <? lo)%Z then lo else if (x >? hi)%Z then hi else x.

(** A string literal of the source (all of them are ASCII). *)
Definition lit (s : string) : str :=
  (fun c => Ascii.N_of_ascii c) <$> String.list_ascii_of_string s.

(** UTF-8 encoding of one scalar value. *)
Definition utf8 (c : N) : bytes :=
  let z := Z.of_N c in
  if (z <? 0x80)%Z then [z]
  else if (z <? 0x800)%Z then
    [(0xC0 + z / 64)%Z; (0x80 + z mod 64)%Z]
  else if (z <? 0x10000)%Z then
    [(0xE0 + z / 4096)%Z; (0x80 + (z / 64) mod 64)%Z; (0x80 + z mod 64)%Z]
  else
    [(0xF0 + z / 262144)%Z; (0x80 + (z / 4096) mod 64)%Z;
     (0x80 + (z / 64) mod 64)%Z; (0x80 + z mod 64)%Z].

(** [str::as_bytes] and [str::len]. *)
Definition as_bytes (s : str) : bytes := s ≫= utf8.
Definition str_len (s : str) : nat := length (as_bytes s).

(** [u128::from_be_bytes] and [u64]/[u32::to_le_bytes], [from_le_bytes]. *)
Definition from_be_bytes (bs : bytes) : Z :=
  foldl (fun acc b => Z.lor (Z.shiftl acc 8) b) 0%Z bs.

Fixpoint to_le_bytes (n : nat) (w : Z) : bytes :=
  match n with
  | O => []
  | S n => (w mod 256)%Z :: to_le_bytes n (w / 256)%Z
  end.

Fixpoint from_le_bytes (bs : bytes) : Z :=
  match bs with
  | [] => 0%Z
  | b :: bs => (b + 256 * from_le_bytes bs)%Z
  end.

(** [Iterator::take] with a [usize] bound (callers pass [usize::MAX] for "no
    limit", so the bound stays binary). *)
Fixpoint ztake {A} (n : Z) (l : list A) : list A :=
  match l with
  | [] => []
  | x :: l => if (n <=? 0)%Z then [] else x :: ztake (n - 1) l
  end.

(** [Iterator::take_while]. *)
Fixpoint take_while {A} (p : A -> bool) (l : list A) : list A :=
  match l with
  | [] => []
  | x :: l => if p x then x :: take_while p l else []
  end.

(** * Errors and panics *)

(** [Result<A, E>]. *)
Inductive result (A E : Type) : Type :=
| Ok (a : A)
| Err (e : E).
Arguments Ok {A E} a.
Arguments Err {A E} e.

Definition result_bind {A B E} (r : result A E) (k : A -> result B E)
    : result B E :=
  match r with Ok a => k a | Err e => Err e end.

(** [Option::ok_or]. *)
Definition ok_or {A E} (o : option A) (e : E) : result A E :=
  match o with Some a => Ok a | None => Err e end.

(** A computation that may panic ([unwrap], [copy_from_slice], ...). *)
Inductive panicky (A : Type) : Type :=
| Ret (a : A)
| Panic.
Arguments Ret {A} a.
Arguments Panic {A}.

Definition panicky_bind {A B} (m : panicky A) (k : A -> panicky B)
    : panicky B :=
  match m with Ret a => k a | Panic => Panic end.

Notation "'let?' x ':=' r 'in' k" := (result_bind r (fun x => k))
  (at level 10, x name, r at level 100, k at level 200,
   format "'let?'  x  ':='  r  'in' '//' k") : memlay_scope.
Notation "'let!' x ':=' m 'in' k" := (panicky_bind m (fun x => k))
  (at level 10, x name, m at level 100, k at level 200,
   format "'let!'  x  ':='  m  'in' '//' k") : memlay_scope.

(** * Orders: [std::cmp::Ord] *)

(** [Ord::cmp], and what the collections of the standard library require of
    it: a strict weak order. [Equal] need not be Leibniz equality. *)
Class Ord (A : Type) := cmp : A -> A -> comparison.

Class OrdLaws (A : Type) `{Ord A} : Prop := {
  cmp_opp : forall a b : A, cmp b a = CompOpp (cmp a b);
  cmp_lt_trans : forall a b c : A, cmp a b = Lt -> cmp b c = Lt -> cmp a c = Lt;
  cmp_eq_l : forall a b c : A, cmp a b = Eq -> cmp a c = cmp b c;
}.

(** [[u8]]'s lexicographic order. *)
Fixpoint bytes_cmp (a b : bytes) : comparison :=
  match a, b with
  | [], [] => Eq
  | [], _ :: _ => Lt
  | _ :: _, [] => Gt
  | x :: a, y :: b =>
      match (x ?= y)%Z with Eq => bytes_cmp a b | c => c end
  end.

Definition bytes_ltb (a b : bytes) : bool :=
  match bytes_cmp a b with Lt => true | _ => false end.

(** [std::cmp::Reverse]. *)
Record Reverse (A : Type) := mkReverse { unreverse : A }.
Arguments mkReverse {A} unreverse.
Arguments unreverse {A} _.

#[export] Instance Ord_Reverse {A} `{Ord A} : Ord (Reverse A) :=
  fun a b => cmp (unreverse b) (unreverse a).

(** * Automation *)

Create HintDb memlay.
Create Rewrite HintDb memlay.

(** Case analysis on every boolean/option test in sight. *)
Ltac split_tests :=
  repeat match goal with
  | |- context [match ?x with _ => _ end] => destruct x eqn:?
  | |- context [if ?x then _ else _] => destruct x eqn:?
  end.

(** Booleans to propositions, over [Z] and [nat]. *)
Ltac bool_to_prop :=
  rewrite ?andb_true_iff, ?andb_false_iff, ?orb_true_iff, ?orb_false_iff,
    ?negb_true_iff, ?negb_false_iff, ?Z.ltb_lt, ?Z.ltb_ge, ?Z.leb_le,
    ?Z.leb_gt, ?Z.eqb_eq, ?Z.eqb_neq, ?Z.gtb_lt, ?Z.geb_le, ?bool_decide_eq_true,
    ?bool_decide_eq_false in *.

(** * Shared lemmas *)

Lemma wrap64_range n : u64_ok (wrap64 n).
Proof. unfold u64_ok, wrap64. apply Z.mod_pos_bound. lia. Qed.

Lemma wrap64_small n : u64_ok n -> wrap64 n = n.
Proof. unfold u64_ok, wrap64. intros. by apply Z.mod_small. Qed.

Lemma fetch_add_wrap a d : fetch_add (wrap64 a) d = wrap64 (a + d).
Proof. unfold fetch_add, wrap64. by rewrite Zplus_mod_idemp_l. Qed.

Lemma fetch_sub_wrap a d : fetch_sub (wrap64 a) d = wrap64 (a - d).
Proof. unfold fetch_sub, wrap64. by rewrite Zminus_mod_idemp_l. Qed.

Lemma clamp_range lo hi x : (lo <= hi)%Z -> (lo <= clamp lo hi x <= hi)%Z.
Proof. unfold clamp. intros. repeat case_match; bool_to_prop; lia. Qed.

Lemma clamp_id lo hi x : (lo <= x <= hi)%Z -> clamp lo hi x = x.
Proof.
  intros Hx. unfold clamp. destruct (Z.ltb_spec x lo); [lia|].
  destruct (Z.gtb_spec x hi); lia.
Qed.

#[export] Hint Resolve wrap64_range clamp_range : memlay.
#[export] Hint Rewrite fetch_add_wrap fetch_sub_wrap : memlay.

(** ** Orders *)

Lemma bytes_cmp_opp a b : bytes_cmp b a = CompOpp (bytes_cmp a b).
Proof.
  revert b; induction a as [|x a IH]; intros [|y b]; simpl; try done.
  rewrite (Z.compare_antisym x y), IH. by destruct (x ?= y)%Z.
Qed.

Lemma bytes_cmp_eq a b : bytes_cmp a b = Eq <-> a = b.
Proof.
  revert b; induction a as [|x a IH]; intros [|y b]; simpl; try done.
  destruct (Z.compare_spec x y) as [->|?|?]; rewrite ?IH; split; intros Heq;
    try done; try congruence; injection Heq; intros; subst; lia.
Qed.

Lemma bytes_cmp_lt_trans a b c :
  bytes_cmp a b = Lt -> bytes_cmp b c = Lt -> bytes_cmp a c = Lt.
Proof.
  revert b c; induction a as [|x a IH]; intros [|y b] [|z c]; simpl; try done.
  destruct (Z.compare_spec x y), (Z.compare_spec y z), (Z.compare_spec x z);
    subst; intros; try done; try lia; eauto.
Qed.

Lemma bytes_ltb_irrefl a : bytes_ltb a a = false.
Proof. unfold bytes_ltb. by rewrite (proj2 (bytes_cmp_eq a a) eq_refl). Qed.

Section OrdLemmas.
Context {A : Type} `{OrdLaws A}.
Implicit Types a b c : A.

Lemma cmp_refl a : cmp a a = Eq.
Proof. pose proof (cmp_opp a a) as E. by destruct (cmp a a). Qed.

Lemma cmp_eq_sym a b : cmp a b = Eq -> cmp b a = Eq.
Proof. intros E. by rewrite cmp_opp, E. Qed.

Lemma cmp_gt_lt a b : cmp a b = Gt <-> cmp b a = Lt.
Proof. rewrite (cmp_opp a b). by destruct (cmp a b). Qed.

Lemma cmp_eq_r a b c : cmp b c = Eq -> cmp a b = cmp a c.
Proof.
  intros E. rewrite (cmp_opp b a), (cmp_opp c a). f_equal. by apply cmp_eq_l.
Qed.

#[export] Instance OrdLaws_Reverse : OrdLaws (Reverse A).
Proof.
  split; intros [a] [b]; unfold cmp, Ord_Reverse; simpl.
  - apply cmp_opp.
  - intros [c]; simpl. eauto using cmp_lt_trans.
  - intros [c]; simpl. intros E. symmetry. by apply cmp_eq_r.
Qed.
End OrdLemmas.

(** ** Lists *)

Lemma elem_of_omap_iff {A B} (f : A -> option B) (l : list A) y :
  y ∈ omap f l <-> exists x, x ∈ l /\ f x = Some y.
Proof. apply list_elem_of_omap. Qed.

Lemma foldl_ind {A S} (P : S -> Prop) (f : S -> A -> S) (l : list A) s :
  P s -> (forall s x, x ∈ l -> P s -> P (f s x)) -> P (foldl f s l).
Proof.
  revert s; induction l as [|x l IH]; intros s Hs Hf; simpl; [done|].
  apply IH; [apply Hf; [by left|done] | intros; apply Hf; [by right|done]].
Qed.

Lemma ztake_take {A} n (l : list A) : ztake n l = take (Z.to_nat n) l.
Proof.
  revert n; induction l as [|x l IH]; intros n; simpl; [by rewrite take_nil|].
  destruct (Z.leb_spec n 0).
  - by replace (Z.to_nat n) with 0 by lia.
  - replace (Z.to_nat n) with (S (Z.to_nat (n - 1))) by lia. simpl. by rewrite IH.
Qed.

Lemma ztake_all {A} n (l : list A) : (Z.of_nat (length l) <= n)%Z -> ztake n l = l.
Proof. intros. rewrite ztake_take. apply take_ge. lia. Qed.

Lemma elem_of_ztake {A} n (l : list A) x : x ∈ ztake n l -> x ∈ l.
Proof.
  rewrite ztake_take, elem_of_take. intros (i & Hi & _). by eapply list_elem_of_lookup_2.
Qed.

(** On a list where [p] can only switch off, [take_while] is [filter]. *)
Lemma take_while_filter {A} (p : A -> bool) (l : list A) :
  StronglySorted (fun a b => p b = true -> p a = true) l ->
  take_while p l = List.filter p l.
Proof.
  induction l as [|x l IH]; intros Hs; simpl; [done|].
  apply StronglySorted_cons in Hs as [Hx Hs]. destruct (p x) eqn:E; [by rewrite IH|].
  clear IH Hs. induction Hx as [|y l Hy _ IHl]; simpl; [done|].
  destruct (p y); [by specialize (Hy eq_refl)|done].
Qed.

Lemma NoDup_concat_disjoint {A} (ls : list (list A)) :
  (forall i l, ls !! i = Some l -> NoDup l) ->
  (forall i j l l' x, ls !! i = Some l -> ls !! j = Some l' -> x ∈ l -> x ∈ l' -> i = j) ->
  NoDup (concat ls).
Proof.
  induction ls as [|l ls IH]; intros Hnd Hdis; simpl; [constructor|].
  apply NoDup_app. split_and!.
  - by apply (Hnd 0).
  - intros x Hx Hc. apply list_elem_of_In, in_concat in Hc as (l' & Hl' & Hx').
    apply list_elem_of_In, list_elem_of_lookup in Hl' as [j Hj].
    by specialize (Hdis 0 (S j) l l' x eq_refl Hj Hx (proj2 (list_elem_of_In _ _) Hx')).
  - apply IH; [intros i; apply (Hnd (S i))|].
    intros i j l1 l2 x H1 H2 Hx1 Hx2. by injection (Hdis (S i) (S j) l1 l2 x H1 H2 Hx1 Hx2).
Qed.

(** Lists of which one entry has become less. *)
Section OneLess.
Context {A : Type} (R : A -> A -> Prop).

Definition one_less (l' l : list A) : Prop :=
  exists n x x', l !! n = Some x /\ l' = <[n := x']> l /\ R x' x.

Lemma one_less_cons x l : Acc R x -> Acc one_less l -> Acc one_less (x :: l).
Proof.
  intros Hx. revert l. induction Hx as [x _ IHx]. intros l Hl.
  induction Hl as [l Hl IHl]. constructor.
  intros l' ([|n] & y & y' & Hy & -> & Hr); simpl in *.
  - injection Hy as ->. apply IHx; [done|by constructor].
  - apply IHl. by exists n, y, y'.
Qed.

Lemma one_less_wf : well_founded R -> well_founded one_less.
Proof.
  intros HR l. induction l as [|x l IH]; [|by apply one_less_cons].
  constructor. by intros l' (n & x & x' & Hx & _).
Qed.
End OneLess.
