(* ===== verification/Collections.v ===== *)
(** The ordered collections of the Rust standard library that the index is
    built on, by their documented behaviour and over any [Ord]:
    [BTreeSet] is the list of its elements in ascending order, [BinaryHeap]
    the list of its elements in descending order (so [peek] is the head).
    Both are generic in the element type; [Index.v] uses them at [EventRef] and
    [Reverse<EventRef>]. *)
From S2P Require Import Prelude.

(** * [std::collections::BTreeSet] *)

Section BTreeSet.
Context {A : Type} `{Ord A}.

(** [BTreeSet::insert]: an element that compares [Equal] to a stored one leaves
    the set unchanged. *)
Fixpoint bt_insert (x : A) (s : list A) : list A :=
  match s with
  | [] => [x]
  | y :: s' =>
      match cmp x y with
      | Lt => x :: s
      | Eq => s
      | Gt => y :: bt_insert x s'
      end
  end.

(** [BTreeSet::remove]: removes the element that compares [Equal]. *)
Fixpoint bt_remove (x : A) (s : list A) : list A :=
  match s with
  | [] => []
  | y :: s' =>
      match cmp x y with
      | Lt => s
      | Eq => s'
      | Gt => y :: bt_remove x s'
      end
  end.

(** The representation invariant: strictly ascending. *)
Definition bt_sorted (s : list A) : Prop :=
  StronglySorted (fun a b => cmp a b = Lt) s.
End BTreeSet.

(** * [std::collections::BinaryHeap] *)

Section BinaryHeap.
Context {A : Type} `{Ord A}.

(** [BinaryHeap::push]. *)
Fixpoint heap_push (x : A) (h : list A) : list A :=
  match h with
  | [] => [x]
  | y :: h' =>
      match cmp x y with
      | Lt => y :: heap_push x h'
      | _ => x :: h
      end
  end.

(** [BinaryHeap::peek]: the greatest element. *)
Definition heap_peek (h : list A) : option A := head h.

(** [BinaryHeap::pop]: removes the greatest element. *)
Definition heap_pop (h : list A) : list A := tail h.

(** The representation invariant: descending. *)
Definition heap_sorted (h : list A) : Prop :=
  StronglySorted (fun a b => cmp a b <> Lt) h.
End BinaryHeap.

(** * Lemmas *)

Section BTreeSetLemmas.
Context {A : Type} `{OrdLaws A}.
Implicit Types (x y : A) (s : list A).

Lemma bt_sorted_cons x s :
  bt_sorted (x :: s) <-> Forall (fun y => cmp x y = Lt) s /\ bt_sorted s.
Proof. apply StronglySorted_cons. Qed.

(** An element below the head of a sorted set is below all of it. *)
Lemma bt_sorted_below x y s :
  bt_sorted (y :: s) -> cmp x y = Lt -> Forall (fun z => cmp x z = Lt) (y :: s).
Proof.
  intros [Hs _]%bt_sorted_cons Hxy. constructor; [done|].
  eapply Forall_impl; [exact Hs|]. intros z Hz. by eapply cmp_lt_trans.
Qed.

Lemma elem_of_bt_insert_1 x y s : y ∈ bt_insert x s -> y = x \/ y ∈ s.
Proof.
  induction s as [|z s IH]; simpl; [set_solver|].
  destruct (cmp x z); set_solver.
Qed.

Lemma elem_of_bt_insert_2 x y s : y ∈ s -> y ∈ bt_insert x s.
Proof.
  induction s as [|z s IH]; simpl; [set_solver|].
  destruct (cmp x z); set_solver.
Qed.

(** After an insert, some element compares [Equal] to the inserted one. *)
Lemma elem_of_bt_insert_eq x s : exists y, y ∈ bt_insert x s /\ cmp x y = Eq.
Proof.
  induction s as [|z s (y & Hy & E)]; simpl.
  - exists x. split; [set_solver|apply cmp_refl].
  - destruct (cmp x z) eqn:Exz.
    + exists z. set_solver.
    + exists x. split; [set_solver|apply cmp_refl].
    + exists y. set_solver.
Qed.

(** A fresh element really enters the set. *)
Lemma elem_of_bt_insert x y s :
  (forall z, z ∈ s -> cmp x z <> Eq) -> y ∈ bt_insert x s <-> y = x \/ y ∈ s.
Proof.
  induction s as [|z s IH]; simpl; intros Hne; [set_solver|].
  specialize (Hne z) as Hz.
  destruct (cmp x z); [exfalso; apply Hz; set_solver | set_solver |].
  rewrite !elem_of_cons, IH by set_solver. naive_solver.
Qed.

Lemma bt_insert_sorted x s : bt_sorted s -> bt_sorted (bt_insert x s).
Proof.
  induction s as [|y s IH]; simpl; intros Hs.
  { apply bt_sorted_cons. split; constructor. }
  destruct (cmp x y) eqn:E; [done| |].
  - apply bt_sorted_cons. split; [by apply bt_sorted_below|done].
  - apply bt_sorted_cons in Hs as [Hy Hs]. apply bt_sorted_cons.
    split; [|by apply IH]. apply Forall_forall. intros z.
    intros [->|Hz]%elem_of_bt_insert_1; [by apply cmp_gt_lt|].
    by rewrite Forall_forall in Hy; apply Hy.
Qed.

Lemma elem_of_bt_remove x y s :
  bt_sorted s -> y ∈ bt_remove x s <-> y ∈ s /\ cmp x y <> Eq.
Proof.
  induction s as [|z s IH]; simpl; intros Hs; [set_solver|].
  pose proof Hs as [Hz Hs']%bt_sorted_cons. rewrite Forall_forall in Hz.
  destruct (cmp x z) eqn:E.
  - rewrite elem_of_cons. split.
    + intros Hy. split; [by right|]. rewrite (cmp_eq_l _ _ _ E).
      rewrite (Hz _ Hy). done.
    + intros [[->|Hy] Hne]; done.
  - pose proof (bt_sorted_below _ _ _ Hs E) as Hb. rewrite Forall_forall in Hb.
    split; [|naive_solver]. intros Hy. split; [done|]. by rewrite (Hb _ Hy).
  - rewrite !elem_of_cons, IH by done. split; [|naive_solver].
    intros [->|[Hy Hne]]; [|by auto]. split; [by left|by rewrite E].
Qed.

Lemma bt_remove_sorted x s : bt_sorted s -> bt_sorted (bt_remove x s).
Proof.
  induction s as [|y s IH]; simpl; intros Hs; [done|].
  pose proof Hs as [Hy Hs']%bt_sorted_cons.
  destruct (cmp x y); [done|done|]. apply bt_sorted_cons. split; [|by apply IH].
  apply Forall_forall. intros z [Hz _]%elem_of_bt_remove; [|done].
  by rewrite Forall_forall in Hy; apply Hy.
Qed.

Lemma bt_sorted_NoDup s : bt_sorted s -> NoDup s.
Proof.
  induction s as [|x s IH]; [constructor|]. intros [Hx Hs]%bt_sorted_cons.
  constructor; [|by apply IH]. intros Hin. rewrite Forall_forall in Hx.
  specialize (Hx _ Hin). by rewrite cmp_refl in Hx.
Qed.
End BTreeSetLemmas.

Section BinaryHeapLemmas.
Context {A : Type} `{OrdLaws A}.
Implicit Types (x y : A) (h : list A).

Lemma heap_push_perm x h : heap_push x h ≡ₚ x :: h.
Proof.
  induction h as [|y h IH]; simpl; [done|].
  destruct (cmp x y); [done| |done]. rewrite IH. by constructor.
Qed.

Lemma heap_push_length x h : length (heap_push x h) = S (length h).
Proof. by rewrite heap_push_perm. Qed.

Lemma heap_push_sorted x h : heap_sorted h -> heap_sorted (heap_push x h).
Proof.
  unfold heap_sorted. induction h as [|y h IH]; simpl; intros Hh.
  { repeat constructor. }
  pose proof Hh as [Hy Hh']%StronglySorted_cons.
  assert (cmp x y <> Lt -> StronglySorted (fun a b => cmp a b <> Lt) (x :: y :: h))
    as Hge.
  { intros Hxy. apply StronglySorted_cons. split; [|done].
    constructor; [done|]. eapply Forall_impl; [exact Hy|]. intros z Hyz Hxz.
    destruct (cmp x y) eqn:E; [|done|].
    - by rewrite (cmp_eq_l _ _ z E) in Hxz.
    - apply Hyz. apply cmp_gt_lt in E. by eapply cmp_lt_trans. }
  destruct (cmp x y) eqn:E; [by apply Hge| |by apply Hge].
  apply StronglySorted_cons. split; [|by apply IH].
  rewrite heap_push_perm. constructor; [|done]. rewrite cmp_opp, E. done.
Qed.

Lemma heap_pop_sorted h : heap_sorted h -> heap_sorted (heap_pop h).
Proof. destruct h; [done|]. by intros [_ ?]%StronglySorted_cons. Qed.
End BinaryHeapLemmas.

#[export] Hint Resolve bt_insert_sorted bt_remove_sorted heap_push_sorted
  heap_pop_sorted : memlay.
