(* ===== verification/Event.v ===== *)
(** [src/src/event.rs]: the Nostr event, its two parsers, its kind
    classification and its replacement key.

    The crates the parser calls ([hex], [serde_json], [sha2], [secp256k1]) are
    not part of the repository; they enter as the operations of the classes
    [HexCrate] and [EventCrates], with what is documented of them in
    [HexLaws] and [SerdeLaws]. *)
From S2P Require Import Prelude.
Open Scope memlay_scope.

(** * Data *)

(** [struct Tag]. *)
Record Tag := mkTag {
  tag_name : str;
  tag_values : list str;
}.

(** [struct Event]. *)
Record Event := mkEvent {
  ev_id : bytes;
  ev_pubkey : bytes;
  ev_created_at : Z;
  ev_kind : Z;
  ev_tags : list Tag;
  ev_content : str;
  ev_sig : bytes;
  ev_raw : bytes;
}.

(** [struct RawEvent], the shape [serde_json] deserialises into. *)
Record RawEvent := mkRawEvent {
  re_id : str;
  re_pubkey : str;
  re_created_at : Z;
  re_kind : Z;
  re_tags : list (list str);
  re_content : str;
  re_sig : str;
}.

(** [enum ReplacementKey]. *)
Inductive ReplacementKey :=
| RKNone
| RKReplaceable (pubkey : bytes) (kind : Z)
| RKAddressable (pubkey : bytes) (kind : Z) (d_tag : str).

#[export] Instance Tag_eq_dec : EqDecision Tag.
Proof. solve_decision. Defined.

#[export] Instance Event_eq_dec : EqDecision Event.
Proof. solve_decision. Defined.

#[export] Instance ReplacementKey_eq_dec : EqDecision ReplacementKey.
Proof. solve_decision. Defined.

(** [#[derive(Hash)]]: keys can index a map. *)
Definition rk_encode (k : ReplacementKey)
    : option (bytes * Z * option str) :=
  match k with
  | RKNone => None
  | RKReplaceable p n => Some (p, n, None)
  | RKAddressable p n d => Some (p, n, Some d)
  end.

Definition rk_decode (x : option (bytes * Z * option str)) : ReplacementKey :=
  match x with
  | None => RKNone
  | Some (p, n, None) => RKReplaceable p n
  | Some (p, n, Some d) => RKAddressable p n d
  end.

#[export] Instance ReplacementKey_countable : Countable ReplacementKey.
Proof. by refine (inj_countable' rk_encode rk_decode _); intros []. Defined.

(** * The crates *)

(** The [hex] crate: [hex::decode], [hex::encode] and
    [<[u8; n] as FromHex>::from_hex]. *)
Class HexCrate := {
  hex_decode : str -> option bytes;
  hex_encode : bytes -> str;
  from_hex : nat -> str -> option bytes;
}.

(** Documented behaviour: two hex digits per byte, and the array form only
    succeeds on the exact length. *)
Class HexLaws `{HexCrate} : Prop := {
  hex_decode_len : forall s bs, hex_decode s = Some bs -> str_len s = 2 * length bs;
  hex_decode_u8 : forall s bs, hex_decode s = Some bs -> Forall u8_ok bs;
  hex_decode_encode : forall bs, Forall u8_ok bs -> hex_decode (hex_encode bs) = Some bs;
  from_hex_decode : forall n s bs,
    from_hex n s = Some bs <-> hex_decode s = Some bs /\ length bs = n;
}.

(** [serde_json], [sha2] and [secp256k1], as far as the parser uses them. *)
Class EventCrates := {
  serde_error : Type;
  serde_from_slice : bytes -> result RawEvent serde_error;
  serde_to_vec : Z -> str -> Z -> Z -> list (list str) -> str
    -> result bytes serde_error;
  sha256_digest : bytes -> bytes;
  XOnlyPublicKey : Type;
  xonly_from_byte_array : bytes -> option XOnlyPublicKey;
  verify_schnorr : bytes -> bytes -> XOnlyPublicKey -> bool;
}.

(** [serde_json] fills [created_at: u64] and [kind: u32] with values of these
    types. *)
Class SerdeLaws `{EventCrates} : Prop := {
  serde_typed : forall json r, serde_from_slice json = Ok r ->
    u64_ok (re_created_at r) /\ u32_ok (re_kind r);
}.

(** [enum EventParseError]. *)
Inductive EventParseError `{EventCrates} :=
| EPJson (e : serde_error)
| EPInvalidId
| EPInvalidPubkey
| EPInvalidSignature
| EPIdMismatch
| EPBadSignature.

(** * Operations *)

(** [Tag::value]. *)
Definition tag_value (t : Tag) : option str := head (tag_values t).

(** [Iterator::find_map]. *)
Fixpoint find_map {A B} (f : A -> option B) (l : list A) : option B :=
  match l with
  | [] => None
  | x :: l => match f x with Some y => Some y | None => find_map f l end
  end.

Section Operations.
Context `{HexCrate}.

(** [parse_hex_32], [parse_hex_64]. *)
Definition parse_hex_32 (s : str) : option bytes :=
  if Nat.eqb (str_len s) 64 then from_hex 32 s else None.

Definition parse_hex_64 (s : str) : option bytes :=
  if Nat.eqb (str_len s) 128 then from_hex 64 s else None.

(** The [filter_map] closure shared by both parsers: an empty array is not a
    tag. *)
Definition parse_tag (tag_arr : list str) : option Tag :=
  match tag_arr with
  | [] => None
  | name :: values => Some (mkTag name values)
  end.

(** [Event::e_tags], [Event::p_tags]. *)
Definition e_tags_of (tags : list Tag) : list bytes :=
  omap (fun tag =>
    if bool_decide (tag_name tag = lit "e") then tag_value tag ≫= parse_hex_32
    else None) tags.

Definition p_tags_of (tags : list Tag) : list bytes :=
  omap (fun tag =>
    if bool_decide (tag_name tag = lit "p") then tag_value tag ≫= parse_hex_32
    else None) tags.

Definition e_tags (e : Event) : list bytes := e_tags_of (ev_tags e).
Definition p_tags (e : Event) : list bytes := p_tags_of (ev_tags e).

(** [Event::from_json_unchecked]. *)
Definition from_json_unchecked `{EventCrates} (json : bytes)
    : result Event EventParseError :=
  let? raw_event := match serde_from_slice json with
                    | Ok r => Ok r | Err e => Err (EPJson e) end in
  let? id := ok_or (parse_hex_32 (re_id raw_event)) EPInvalidId in
  let? pubkey := ok_or (parse_hex_32 (re_pubkey raw_event)) EPInvalidPubkey in
  let? sig := ok_or (parse_hex_64 (re_sig raw_event)) EPInvalidSignature in
  let tags := omap parse_tag (re_tags raw_event) in
  Ok {| ev_id := id; ev_pubkey := pubkey;
        ev_created_at := re_created_at raw_event; ev_kind := re_kind raw_event;
        ev_tags := tags; ev_content := re_content raw_event;
        ev_sig := sig; ev_raw := json |}.

(** [Event::from_json]: parse, check the id against the hash of the canonical
    serialisation, verify the Schnorr signature. *)
Definition from_json `{EventCrates} (json : bytes)
    : result Event EventParseError :=
  let? raw_event := match serde_from_slice json with
                    | Ok r => Ok r | Err e => Err (EPJson e) end in
  let? id := ok_or (parse_hex_32 (re_id raw_event)) EPInvalidId in
  let? pubkey := ok_or (parse_hex_32 (re_pubkey raw_event)) EPInvalidPubkey in
  let? sig := ok_or (parse_hex_64 (re_sig raw_event)) EPInvalidSignature in
  let tags := omap parse_tag (re_tags raw_event) in
  let? serialised :=
    match serde_to_vec 0 (re_pubkey raw_event) (re_created_at raw_event)
            (re_kind raw_event) (re_tags raw_event) (re_content raw_event) with
    | Ok v => Ok v | Err e => Err (EPJson e) end in
  let computed := sha256_digest serialised in
  if negb (bool_decide (computed = id)) then Err EPIdMismatch else
  let? xonly := ok_or (xonly_from_byte_array pubkey) EPInvalidPubkey in
  if negb (verify_schnorr sig id xonly) then Err EPBadSignature else
  Ok {| ev_id := id; ev_pubkey := pubkey;
        ev_created_at := re_created_at raw_event; ev_kind := re_kind raw_event;
        ev_tags := tags; ev_content := re_content raw_event;
        ev_sig := sig; ev_raw := json |}.
End Operations.

(** [Event::is_ephemeral], [is_replaceable], [is_addressable]. *)
Definition kind_ephemeral (kind : Z) : bool :=
  (20000 <=? kind)%Z && (kind <? 30000)%Z.
Definition kind_replaceable (kind : Z) : bool :=
  ((10000 <=? kind)%Z && (kind <? 20000)%Z)
  || ((30000 <=? kind)%Z && (kind <? 40000)%Z).
Definition kind_addressable (kind : Z) : bool :=
  (30000 <=? kind)%Z && (kind <? 40000)%Z.

Definition is_ephemeral (e : Event) : bool := kind_ephemeral (ev_kind e).
Definition is_replaceable (e : Event) : bool := kind_replaceable (ev_kind e).
Definition is_addressable (e : Event) : bool := kind_addressable (ev_kind e).

(** [Event::d_tag]. *)
Definition d_tag_of (kind : Z) (tags : list Tag) : option str :=
  if negb (kind_addressable kind) then None
  else find_map (fun tag =>
         if bool_decide (tag_name tag = lit "d") then tag_value tag else None)
       tags.

Definition d_tag (e : Event) : option str := d_tag_of (ev_kind e) (ev_tags e).

(** [Event::replacement_key]. *)
Definition replacement_key_of (pubkey : bytes) (kind : Z) (tags : list Tag)
    : ReplacementKey :=
  if kind_addressable kind then
    match d_tag_of kind tags with
    | Some d => RKAddressable pubkey kind d
    | None => RKReplaceable pubkey kind
    end
  else if kind_replaceable kind then RKReplaceable pubkey kind
  else RKNone.

Definition replacement_key (e : Event) : ReplacementKey :=
  replacement_key_of (ev_pubkey e) (ev_kind e) (ev_tags e).

(** The ranges and lengths Rust's types give an [Event]. *)
Definition wf_event (e : Event) : Prop :=
  length (ev_id e) = 32 /\ Forall u8_ok (ev_id e) /\
  length (ev_pubkey e) = 32 /\ Forall u8_ok (ev_pubkey e) /\
  length (ev_sig e) = 64 /\ Forall u8_ok (ev_sig e) /\
  u64_ok (ev_created_at e) /\ u32_ok (ev_kind e).

(** What makes an event authentic: its id is the hash of the serialised fields
    and its signature verifies. *)
Definition authentic `{HexCrate} `{EventCrates} (r : RawEvent) (e : Event)
    : Prop :=
  (exists ser, serde_to_vec 0 (re_pubkey r) (re_created_at r) (re_kind r)
                 (re_tags r) (re_content r) = Ok ser
               /\ sha256_digest ser = ev_id e) /\
  exists pk, xonly_from_byte_array (ev_pubkey e) = Some pk
             /\ verify_schnorr (ev_sig e) (ev_id e) pk = true.

(** * Lemmas *)

Section Lemmas.
Context `{HexCrate} `{EventCrates}.

Lemma from_json_unchecked_inv json e :
  from_json_unchecked json = Ok e <->
  exists r, serde_from_slice json = Ok r /\
    parse_hex_32 (re_id r) = Some (ev_id e) /\
    parse_hex_32 (re_pubkey r) = Some (ev_pubkey e) /\
    parse_hex_64 (re_sig r) = Some (ev_sig e) /\
    e = mkEvent (ev_id e) (ev_pubkey e) (re_created_at r) (re_kind r)
          (omap parse_tag (re_tags r)) (re_content r) (ev_sig e) json.
Proof.
  unfold from_json_unchecked. split.
  - intros E. destruct (serde_from_slice json) as [r|]; simplify_eq/=.
    exists r. repeat (case_match; simplify_eq/=).
    destruct (parse_hex_32 (re_id r)), (parse_hex_32 (re_pubkey r)),
      (parse_hex_64 (re_sig r)); simplify_eq/=; done.
  - intros (r & -> & E1 & E2 & E3 & Ee). simpl. rewrite E1; simpl.
    rewrite E2; simpl. rewrite E3; simpl. by rewrite Ee.
Qed.

Lemma from_json_inv json e :
  from_json json = Ok e <->
  exists r, serde_from_slice json = Ok r /\ from_json_unchecked json = Ok e
    /\ authentic r e.
Proof.
  unfold from_json, from_json_unchecked, authentic. split.
  - destruct (serde_from_slice json) as [r|]; [|done]; simpl.
    destruct (parse_hex_32 (re_id r)) as [i|]; [|done]; simpl.
    destruct (parse_hex_32 (re_pubkey r)) as [p|]; [|done]; simpl.
    destruct (parse_hex_64 (re_sig r)) as [s|]; [|done]; simpl.
    destruct (serde_to_vec _ _ _ _ _ _) as [v|] eqn:Ev; [|done]; simpl.
    destruct (bool_decide _) eqn:Eid; [|done]; simpl.
    apply bool_decide_eq_true in Eid.
    destruct (xonly_from_byte_array p) as [x|] eqn:Ex; [|done]; simpl.
    destruct (verify_schnorr s i x) eqn:Es; [|done]; simpl.
    intros [= <-]. exists r. naive_solver.
  - intros (r & -> & E & (ser & Ev & Eid) & (pk & Ex & Es)). simpl in *.
    destruct (parse_hex_32 (re_id r)) as [i|]; [|done]; simpl in *.
    destruct (parse_hex_32 (re_pubkey r)) as [p|]; [|done]; simpl in *.
    destruct (parse_hex_64 (re_sig r)) as [s|]; [|done]; simpl in *.
    injection E as <-. simpl in *. rewrite Ev; simpl.
    rewrite bool_decide_true by done. simpl. rewrite Ex; simpl. by rewrite Es.
Qed.

Lemma from_json_unchecked_raw json e :
  from_json_unchecked json = Ok e -> ev_raw e = json.
Proof. intros (r & _ & _ & _ & _ & ->)%from_json_unchecked_inv. done. Qed.
End Lemmas.

Section TypeLemmas.
Context `{HexLaws} `{SerdeLaws}.

Lemma parse_hex_32_wf s bs :
  parse_hex_32 s = Some bs -> length bs = 32 /\ Forall u8_ok bs.
Proof.
  unfold parse_hex_32. case_match; [|done].
  intros [E Hl]%from_hex_decode. eauto using hex_decode_u8.
Qed.

Lemma parse_hex_64_wf s bs :
  parse_hex_64 s = Some bs -> length bs = 64 /\ Forall u8_ok bs.
Proof.
  unfold parse_hex_64. case_match; [|done].
  intros [E Hl]%from_hex_decode. eauto using hex_decode_u8.
Qed.

(** On 64-byte strings the array parser and [hex::decode] agree. *)
Lemma parse_hex_32_decode s :
  parse_hex_32 s = if Nat.eqb (str_len s) 64 then hex_decode s else None.
Proof.
  unfold parse_hex_32. case_match eqn:El; [|done]. apply Nat.eqb_eq in El.
  destruct (hex_decode s) as [bs|] eqn:E.
  - apply from_hex_decode. split; [done|]. pose proof (hex_decode_len _ _ E). lia.
  - destruct (from_hex 32 s) eqn:E'; [|done].
    apply from_hex_decode in E' as [? _]. congruence.
Qed.

End TypeLemmas.

(** ** Kinds and replacement keys *)

Lemma kind_addressable_replaceable k :
  kind_addressable k = true -> kind_replaceable k = true.
Proof. unfold kind_addressable, kind_replaceable. intros ->. by rewrite orb_true_r. Qed.

Lemma kind_ephemeral_not_replaceable k :
  kind_ephemeral k = true -> kind_replaceable k = false.
Proof. unfold kind_ephemeral, kind_replaceable. intros. bool_to_prop. lia. Qed.

Lemma replacement_key_none e :
  replacement_key e = RKNone <-> is_replaceable e = false.
Proof.
  unfold replacement_key, replacement_key_of, is_replaceable.
  destruct (kind_addressable _) eqn:Ea.
  - rewrite (kind_addressable_replaceable _ Ea). by destruct (d_tag_of _ _).
  - by destruct (kind_replaceable _).
Qed.
