(* ===== verification/Reference.v ===== *)
(** Concrete instances of the crate interfaces of [Event.v], and sample data.
    They show that the documented laws can hold and give the closed examples of
    the development something to run on; no general theorem mentions them. *)
From S2P Require Import Prelude Event.

(** * A hex codec *)

Definition hex_digit (c : N) : option Z :=
  let z := Z.of_N c in
  if (48 <=? z)%Z && (z <=? 57)%Z then Some (z - 48)%Z
  else if (97 <=? z)%Z && (z <=? 102)%Z then Some (z - 87)%Z
  else if (65 <=? z)%Z && (z <=? 70)%Z then Some (z - 55)%Z
  else None.

Definition hex_char (d : Z) : N :=
  Z.to_N (if (d <? 10)%Z then d + 48 else d + 87).

Fixpoint ref_decode (s : str) : option bytes :=
  match s with
  | [] => Some []
  | [_] => None
  | a :: b :: s =>
      match hex_digit a, hex_digit b, ref_decode s with
      | Some x, Some y, Some bs => Some ((16 * x + y)%Z :: bs)
      | _, _, _ => None
      end
  end.

Definition ref_encode (bs : bytes) : str :=
  bs ≫= fun b => [hex_char (b / 16); hex_char (b mod 16)].

#[export] Instance ref_hex : HexCrate := {|
  hex_decode := ref_decode;
  hex_encode := ref_encode;
  from_hex n s :=
    match ref_decode s with
    | Some bs => if Nat.eqb (length bs) n then Some bs else None
    | None => None
    end;
|}.

Lemma hex_digit_range c d :
  hex_digit c = Some d -> (0 <= d < 16)%Z /\ length (utf8 c) = 1.
Proof.
  unfold hex_digit, utf8. repeat case_match; intros; simplify_eq; bool_to_prop;
    (split; [lia|]); simpl; try done; lia.
Qed.

Lemma hex_digit_char d : (0 <= d < 16)%Z -> hex_digit (hex_char d) = Some d.
Proof.
  intros Hd. unfold hex_digit, hex_char. destruct (Z.ltb_spec d 10);
    rewrite Z2N.id by lia; repeat case_match; bool_to_prop; try f_equal; lia.
Qed.

Lemma ref_decode_wf s bs :
  ref_decode s = Some bs -> str_len s = 2 * length bs /\ Forall u8_ok bs.
Proof.
  revert bs. induction s as [[|a [|b s]] IH] using (induction_ltof1 _ (@length N));
    intros bs; simpl; [by intros [= <-] | done |].
  destruct (hex_digit a) as [x|] eqn:Ea, (hex_digit b) as [y|] eqn:Eb; try done.
  destruct (ref_decode s) as [r|] eqn:Er; [|done]. intros [= <-].
  apply hex_digit_range in Ea as [? Ha], Eb as [? Hb].
  destruct (IH s) with r as [Hl Hr]; [unfold ltof; simpl; lia|done|].
  unfold str_len, as_bytes in *. split.
  - cbn [mbind list_bind]. rewrite !length_app, Ha, Hb, Hl. simpl. lia.
  - constructor; [unfold u8_ok; lia|done].
Qed.

Lemma ref_decode_encode bs : Forall u8_ok bs -> ref_decode (ref_encode bs) = Some bs.
Proof.
  induction 1 as [|b bs Hb _ IH]; [done|].
  unfold u8_ok in Hb. simpl. rewrite !hex_digit_char; cycle 1.
  - apply Z.mod_pos_bound. lia.
  - split; [apply Z.div_pos; lia|apply Z.div_lt_upper_bound; lia].
  - rewrite IH. do 2 f_equal. symmetry. apply Z.div_mod. lia.
Qed.

#[export] Instance ref_hex_laws : HexLaws.
Proof.
  split; simpl.
  - intros s bs E. by apply ref_decode_wf.
  - intros s bs E. by eapply ref_decode_wf.
  - apply ref_decode_encode.
  - intros n s bs. destruct (ref_decode s) as [r|]; [|naive_solver].
    destruct (Nat.eqb_spec (length r) n); naive_solver.
Qed.

(** * Sample events *)

(** A 32-byte id/pubkey whose last byte is [n], as in the repository's tests. *)
Definition key32 (n : Z) : bytes := replicate 31 0%Z ++ [n].

Definition sample (id pubkey kind created_at : Z) (tags : list Tag) : Event :=
  mkEvent (key32 id) (key32 pubkey) created_at kind tags [] (replicate 64 0%Z)
    (replicate 3 0%Z).

(** * JSON and signatures

    Two documents are known: [sample_json] with the fields of [sample_raw], and
    its author's deletion request [deletion_json] with those of [deletion_raw]. *)
Definition sample_json : bytes := as_bytes (lit "{sample}").

Definition sample_raw : RawEvent :=
  mkRawEvent (ref_encode (key32 1)) (ref_encode (key32 2)) 1000 1
    [[lit "e"; ref_encode (key32 3)]; []; [lit "t"; lit "nostr"]] (lit "hi")
    (ref_encode (replicate 64 5%Z)).

Definition deletion_json : bytes := as_bytes (lit "{delete}").

Definition deletion_raw : RawEvent :=
  mkRawEvent (ref_encode (key32 6)) (ref_encode (key32 2)) 2000 5
    [[lit "e"; ref_encode (key32 1)]] [] (ref_encode (replicate 64 5%Z)).

#[export] Instance ref_crates : EventCrates := {|
  serde_error := unit;
  serde_from_slice json :=
    if bool_decide (json = sample_json) then Ok sample_raw
    else if bool_decide (json = deletion_json) then Ok deletion_raw else Err tt;
  serde_to_vec zero pk at_ kind tags content := Ok [zero; at_; kind];
  sha256_digest v := if bool_decide (v !! 2 = Some 5%Z) then key32 6 else key32 1;
  XOnlyPublicKey := bytes;
  xonly_from_byte_array pk := Some pk;
  verify_schnorr sig id pk := bool_decide (length sig = 64);
|}.

#[export] Instance ref_serde_laws : SerdeLaws.
Proof.
  split. intros json r. simpl. case_bool_decide; [|case_bool_decide]; intros [= <-];
    unfold u64_ok, u32_ok; simpl; lia.
Qed.

Definition sample_event : Event :=
  mkEvent (key32 1) (key32 2) 1000 1
    [mkTag (lit "e") [ref_encode (key32 3)]; mkTag (lit "t") [lit "nostr"]]
    (lit "hi") (replicate 64 5%Z) sample_json.

Example sample_parses : from_json sample_json = Ok sample_event.
Proof. vm_compute. reflexivity. Qed.

Definition deletion_event : Event :=
  mkEvent (key32 6) (key32 2) 2000 5 [mkTag (lit "e") [ref_encode (key32 1)]] []
    (replicate 64 5%Z) deletion_json.

Example deletion_parses : from_json deletion_json = Ok deletion_event.
Proof. vm_compute. reflexivity. Qed.
