(* ===== verification/EventProps.v ===== *)
(** What the event parser and the kind classification of [Event.v] guarantee. *)
From S2P Require Import Prelude Event Reference.

(** C32: an event is accepted from the network exactly when the unchecked parser
    accepts it and it is authentic: its id is the SHA-256 of the canonical
    serialisation of its own fields and its Schnorr signature over that id
    verifies under its own key. *)
Theorem from_json_accepts_authentic `{HexCrate} `{EventCrates} json e :
  from_json json = Ok e <->
  exists r, serde_from_slice json = Ok r /\ from_json_unchecked json = Ok e
    /\ authentic r e.
Proof. apply from_json_inv. Qed.

(** An accepted event can be re-read from the text kept with it: parsing
    [raw] with the unchecked parser (as WAL replay and snapshot loading do)
    gives back the same event, raw text included. *)
Theorem from_json_reparses `{HexCrate} `{EventCrates} json e :
  from_json json = Ok e -> from_json_unchecked (ev_raw e) = Ok e.
Proof.
  intros (r & _ & Hu & _)%from_json_inv.
  by rewrite (from_json_unchecked_raw _ _ Hu).
Qed.

Lemma from_json_reparses_witness :
  from_json sample_json = Ok sample_event
  /\ from_json_unchecked (ev_raw sample_event) = Ok sample_event.
Proof.
  assert (from_json sample_json = Ok sample_event) as E by (vm_compute; reflexivity).
  split; [exact E|exact (from_json_reparses sample_json sample_event E)].
Defined.

(** * The outcome of parsing *)

Section Outcome.
Context `{HexCrate} `{EventCrates}.

(** [s] is [n] bytes in hexadecimal. *)
Definition hex_field (n : nat) (s : str) (bs : bytes) : Prop :=
  hex_decode s = Some bs /\ length bs = n.

(** The fields of the text [json], which deserialises to [r], in an event: the tags
    are its non-empty arrays, in order. *)
Record fields_of (json : bytes) (r : RawEvent) (e : Event) : Prop := {
  fo_id : hex_field 32 (re_id r) (ev_id e);
  fo_pubkey : hex_field 32 (re_pubkey r) (ev_pubkey e);
  fo_sig : hex_field 64 (re_sig r) (ev_sig e);
  fo_created_at : ev_created_at e = re_created_at r;
  fo_kind : ev_kind e = re_kind r;
  fo_tags : (fun t => tag_name t :: tag_values t) <$> ev_tags e
    = filter (fun arr => arr <> []) (re_tags r);
  fo_content : ev_content e = re_content r;
  fo_raw : ev_raw e = json;
}.

(** Why an object with the fields of an event is refused: the first check that
    fails. *)
Definition refused (r : RawEvent) (err : EventParseError) : Prop :=
  let hex n s := exists bs, hex_field n s bs in
  let all_hex := hex 32 (re_id r) /\ hex 32 (re_pubkey r) /\ hex 64 (re_sig r) in
  let serialised := serde_to_vec 0 (re_pubkey r) (re_created_at r) (re_kind r)
    (re_tags r) (re_content r) in
  let hashed := exists ser, serialised = Ok ser /\ hex_field 32 (re_id r) (sha256_digest ser) in
  match err with
  | EPInvalidId => ~ hex 32 (re_id r)
  | EPInvalidPubkey => hex 32 (re_id r) /\ (~ hex 32 (re_pubkey r)
      \/ all_hex /\ hashed /\ forall pk, hex_field 32 (re_pubkey r) pk -> xonly_from_byte_array pk = None)
  | EPInvalidSignature => hex 32 (re_id r) /\ hex 32 (re_pubkey r) /\ ~ hex 64 (re_sig r)
  | EPJson x => all_hex /\ serialised = Err x
  | EPIdMismatch => all_hex /\ exists ser, serialised = Ok ser /\ ~ hex_field 32 (re_id r) (sha256_digest ser)
  | EPBadSignature => all_hex /\ hashed /\ exists id pk sig key, hex_field 32 (re_id r) id
      /\ hex_field 32 (re_pubkey r) pk /\ hex_field 64 (re_sig r) sig
      /\ xonly_from_byte_array pk = Some key /\ verify_schnorr sig id key = false
  end.
End Outcome.

Section Branches.
Context `{HexLaws} `{SerdeLaws}.

Lemma parse_hex_32_field s bs : parse_hex_32 s = Some bs <-> hex_field 32 s bs.
Proof.
  unfold hex_field. rewrite parse_hex_32_decode. destruct (Nat.eqb_spec (str_len s) 64) as [E|E].
  - split; [|tauto]. intros Hd. pose proof (hex_decode_len _ _ Hd). split; [done|lia].
  - split; [done|]. intros [Hd Hl]. pose proof (hex_decode_len _ _ Hd). lia.
Qed.

Lemma parse_hex_64_field s bs : parse_hex_64 s = Some bs <-> hex_field 64 s bs.
Proof.
  unfold parse_hex_64, hex_field. rewrite <- (from_hex_decode 64 s bs).
  destruct (Nat.eqb_spec (str_len s) 128) as [E|E]; [done|]. split; [done|].
  intros [Hd Hl]%from_hex_decode. pose proof (hex_decode_len _ _ Hd). lia.
Qed.

Lemma parse_tags_arrays (arrs : list (list str)) :
  (fun t => tag_name t :: tag_values t) <$> omap parse_tag arrs = filter (fun arr => arr <> []) arrs.
Proof.
  induction arrs as [|[|name values] arrs IH]; [done| |].
  - cbn [omap list_omap parse_tag]. by rewrite filter_cons_False by (intros Hn; by apply Hn).
  - cbn [omap list_omap parse_tag]. rewrite filter_cons_True by done. cbn. by f_equal.
Qed.

(** A field that does not parse, and one that does. *)
Lemma field_none {P : bytes -> Prop} (o : option bytes) :
  (forall bs, o = Some bs <-> P bs) -> o = None -> ~ exists bs, P bs.
Proof. intros Ho -> [bs Hb]. by apply Ho in Hb. Qed.

(** C33: every outcome of the network parser. An accepted event has exactly the
    fields of its text: id, key and signature are the 32, 32 and 64 bytes that the
    text gives in hexadecimal, time and kind are numbers of 64 and 32 bits, the tags
    are the non-empty arrays in order, and the text itself is kept; and it is
    authentic. A refused text does not deserialise, or is refused with the error of
    the first of these checks that fails: id, key and signature in hexadecimal of
    the right length, serialisation, id equal to the hash, key valid, signature
    valid. *)
Theorem from_json_branches json :
  match from_json json with
  | Ok e => exists r, serde_from_slice json = Ok r /\ fields_of json r e
      /\ authentic r e /\ wf_event e
  | Err err => (exists x, serde_from_slice json = Err x /\ err = EPJson x)
      \/ exists r, serde_from_slice json = Ok r /\ refused r err
  end.
Proof.
  unfold from_json. destruct (serde_from_slice json) as [r|x] eqn:Er; [|left; by exists x].
  cbn [result_bind]. pose proof (parse_hex_32_field (re_id r)) as Hi.
  pose proof (parse_hex_32_field (re_pubkey r)) as Hp. pose proof (parse_hex_64_field (re_sig r)) as Hg.
  destruct (parse_hex_32 (re_id r)) as [id|] eqn:Ei.
  2: { right. exists r. split; [done|]. by apply (field_none _ Hi). }
  pose proof (proj1 (Hi id) eq_refl) as Fi. cbn [ok_or result_bind].
  destruct (parse_hex_32 (re_pubkey r)) as [pk|] eqn:Ep.
  2: { right. exists r. split; [done|]. split; [by exists id|]. left. by apply (field_none _ Hp). }
  pose proof (proj1 (Hp pk) eq_refl) as Fp. cbn [ok_or result_bind].
  destruct (parse_hex_64 (re_sig r)) as [sig|] eqn:Eg.
  2: { right. exists r. split; [done|]. split_and!; [by exists id|by exists pk|]. by apply (field_none _ Hg). }
  pose proof (proj1 (Hg sig) eq_refl) as Fg. cbn [ok_or result_bind].
  assert ((exists bs, hex_field 32 (re_id r) bs) /\ (exists bs, hex_field 32 (re_pubkey r) bs)
    /\ exists bs, hex_field 64 (re_sig r) bs) as Hall
    by (split_and!; [by exists id|by exists pk|by exists sig]).
  destruct (serde_to_vec _ _ _ _ _ _) as [ser|x] eqn:Es; cbn [result_bind].
  2: { right. exists r. split; [done|]. by split. }
  case_bool_decide as Hd; cbn [negb].
  2: { right. exists r. split; [done|]. split; [done|]. exists ser. split; [done|].
       intros [Hx _]. destruct Fi as [Fi _]. congruence. }
  assert (exists ser, serde_to_vec 0 (re_pubkey r) (re_created_at r) (re_kind r) (re_tags r) (re_content r)
    = Ok ser /\ hex_field 32 (re_id r) (sha256_digest ser)) as Hh.
  { exists ser. split; [exact Es|]. rewrite Hd. exact Fi. }
  destruct (xonly_from_byte_array pk) as [key|] eqn:Ex; cbn [ok_or result_bind].
  2: { right. exists r. split; [done|]. split; [by exists id|]. right. split; [done|]. split; [done|].
       intros pk' [Hx _]. destruct Fp as [Fp _]. congruence. }
  destruct (verify_schnorr sig id key) eqn:Ev; cbn [negb].
  2: { right. exists r. split; [done|]. split; [done|]. split; [done|]. by exists id, pk, sig, key. }
  exists r. destruct (serde_typed _ _ Er) as [Hu Hk]. split; [done|]. split.
  { split; cbn; try done. apply parse_tags_arrays. }
  split; [split; [by exists ser|by exists key]|].
  apply parse_hex_32_wf in Ei as [? ?], Ep as [? ?]. apply parse_hex_64_wf in Eg as [? ?].
  by split_and!.
Qed.
End Branches.

Lemma from_json_branches_witness :
  from_json sample_json = Ok sample_event
  /\ exists r, serde_from_slice sample_json = Ok r /\ fields_of sample_json r sample_event.
Proof.
  assert (from_json sample_json = Ok sample_event) as E by (vm_compute; reflexivity).
  pose proof (from_json_branches sample_json) as Hb. rewrite E in Hb.
  destruct Hb as (r & Hr & Hf & _). exact (conj E (ex_intro _ r (conj Hr Hf))).
Defined.

(** Replacement slots: an event has a slot exactly when its kind is
    replaceable, ephemeral events never do, and two replaceable events compete
    for one slot exactly when they agree on author, kind and [d] tag (a missing
    [d] tag being different from an empty one). *)
Theorem replacement_slots e1 e2 :
  (replacement_key e1 = RKNone <-> is_replaceable e1 = false)
  /\ (is_ephemeral e1 = true -> replacement_key e1 = RKNone)
  /\ (is_replaceable e1 = true ->
      replacement_key e1 = replacement_key e2 <->
      ev_pubkey e1 = ev_pubkey e2 /\ ev_kind e1 = ev_kind e2 /\ d_tag e1 = d_tag e2).
Proof.
  split_and!; [apply replacement_key_none| |].
  - intros He. apply replacement_key_none. by apply kind_ephemeral_not_replaceable.
  - unfold is_replaceable, replacement_key, replacement_key_of, d_tag. intros Hr.
    rewrite Hr. destruct (kind_addressable (ev_kind e1)) eqn:E1,
      (kind_addressable (ev_kind e2)) eqn:E2.
    + destruct (d_tag_of (ev_kind e1) _), (d_tag_of (ev_kind e2) _);
        (split; [intros [=]; split_and!|intros (? & ? & ?)]; congruence).
    + split; [|intros (? & ? & ?); congruence].
      destruct (d_tag_of (ev_kind e1) _), (kind_replaceable (ev_kind e2));
        intros [=]; congruence.
    + split; [|intros (? & ? & ?); congruence].
      destruct (d_tag_of (ev_kind e2) _); intros [=]; congruence.
    + unfold d_tag_of. rewrite E1, E2. simpl.
      destruct (kind_replaceable (ev_kind e2)) eqn:E;
        (split; [intros [=]; by split_and!|intros (? & ? & _); congruence]).
Qed.
