(* ===== verification/Deletion.v ===== *)
(** [src/src/deletion.rs]: NIP-09 deletion requests, that is the parsing of a
    kind-5 event's [e] and [a] tags. Applying a request is the store's job
    ([Store.v]). *)
From S2P Require Import Prelude Event Reference.
Open Scope memlay_scope.

(** * Data *)

(** [struct Coordinate]. *)
Record Coordinate := mkCoordinate {
  co_kind : Z;
  co_pubkey : bytes;
  co_d_tag : str;
}.

(** [struct DeletionRequest]. *)
Record DeletionRequest := mkDeletionRequest {
  dr_ids : gset bytes;
  dr_coordinates : list Coordinate;
}.

(** [struct DeletionOutcome]. *)
Record DeletionOutcome := mkDeletionOutcome {
  do_deleted_ids : list bytes;
  do_skipped_foreign : nat;
  do_unknown_coordinates : nat;
}.

Definition KIND_DELETION : Z := 5.

(** [Event::is_deletion_request]. *)
Definition is_deletion_request (e : Event) : bool := (ev_kind e =? KIND_DELETION)%Z.

(** * The standard library's string functions used here *)

(** The character [':']. *)
Definition colon : N := 58.

(** Split at the first occurrence of [sep]. *)
Fixpoint split_once (sep : N) (s : str) : option (str * str) :=
  match s with
  | [] => None
  | c :: s =>
      if bool_decide (c = sep) then Some ([], s)
      else match split_once sep s with
           | Some (a, b) => Some (c :: a, b)
           | None => None
           end
  end.

(** [str::splitn]. *)
Fixpoint splitn (n : nat) (sep : N) (s : str) : list str :=
  match n with
  | O => []
  | S O => [s]
  | S n =>
      match split_once sep s with
      | Some (a, b) => a :: splitn n sep b
      | None => [s]
      end
  end.

(** [str::parse::<u32>]: an optional ['+'], at least one digit, no overflow. *)
Fixpoint parse_digits (acc : Z) (s : str) : option Z :=
  match s with
  | [] => Some acc
  | c :: s =>
      let d := (Z.of_N c - 48)%Z in
      if (0 <=? d)%Z && (d <=? 9)%Z then
        let acc' := (acc * 10 + d)%Z in
        if (acc' <? 2 ^ 32)%Z then parse_digits acc' s else None
      else None
  end.

Definition parse_u32 (s : str) : option Z :=
  match s with
  | [] => None
  | c :: s' =>
      if bool_decide (c = 43%N)
      then match s' with [] => None | _ => parse_digits 0 s' end
      else parse_digits 0 s
  end.

(** [arr.copy_from_slice(&bytes)] into a [[u8; 32]]. *)
Definition copy_from_slice_32 (bs : bytes) : panicky bytes :=
  if Nat.eqb (length bs) 32 then Ret bs else Panic.

(** * Operations *)

Section Operations.
Context `{HexCrate}.

(** [parse_hex_32_pub]. *)
Definition parse_hex_32_pub (s : str) : panicky (option bytes) :=
  if negb (Nat.eqb (str_len s) 64) then Ret None else
  match hex_decode s with
  | None => Ret None
  | Some bs => let! arr := copy_from_slice_32 bs in Ret (Some arr)
  end.

(** [parse_coordinate]. *)
Definition parse_coordinate (value : str) : panicky (option Coordinate) :=
  let parts := splitn 3 colon value in
  match parts !! 0 ≫= parse_u32 with
  | None => Ret None
  | Some kind =>
      match parts !! 1 with
      | None => Ret None
      | Some pubkey_hex =>
          if negb (Nat.eqb (str_len pubkey_hex) 64) then Ret None else
          match hex_decode pubkey_hex with
          | None => Ret None
          | Some pubkey_bytes =>
              let! pubkey := copy_from_slice_32 pubkey_bytes in
              match parts !! 2 with
              | None => Ret None
              | Some d_tag => Ret (Some (mkCoordinate kind pubkey d_tag))
              end
          end
      end
  end.

(** One iteration of the loop of [Event::deletion_request]. *)
Definition deletion_request_tag (req : DeletionRequest) (tag : Tag)
    : panicky DeletionRequest :=
  match tag_value tag with
  | None => Ret req
  | Some value =>
      if bool_decide (tag_name tag = lit "e") then
        let! o := parse_hex_32_pub value in
        match o with
        | Some id =>
            Ret (mkDeletionRequest ({[id]} ∪ dr_ids req) (dr_coordinates req))
        | None => Ret req
        end
      else if bool_decide (tag_name tag = lit "a") then
        let! o := parse_coordinate value in
        match o with
        | Some coord =>
            Ret (mkDeletionRequest (dr_ids req) (dr_coordinates req ++ [coord]))
        | None => Ret req
        end
      else Ret req
  end.

Fixpoint deletion_request_loop (req : DeletionRequest) (tags : list Tag)
    : panicky DeletionRequest :=
  match tags with
  | [] => Ret req
  | tag :: tags =>
      let! req' := deletion_request_tag req tag in
      deletion_request_loop req' tags
  end.

(** [Event::deletion_request]. *)
Definition deletion_request (e : Event) : panicky DeletionRequest :=
  deletion_request_loop (mkDeletionRequest ∅ []) (ev_tags e).
End Operations.

(** * Reference reading of a request *)

(** The coordinate text [<kind>:<pubkey>:<d>], as a relation independent of the
    splitting code. *)
Definition coordinate_text `{HexCrate} (c : Coordinate) (value : str) : Prop :=
  exists kind_s pubkey_s,
    value = kind_s ++ colon :: pubkey_s ++ colon :: co_d_tag c
    /\ (colon ∉ kind_s) /\ (colon ∉ pubkey_s)
    /\ parse_u32 kind_s = Some (co_kind c)
    /\ str_len pubkey_s = 64 /\ hex_decode pubkey_s = Some (co_pubkey c).

(** * Lemmas *)

Lemma split_once_spec sep s a b :
  split_once sep s = Some (a, b) <-> s = a ++ sep :: b /\ sep ∉ a.
Proof.
  revert a b; induction s as [|c s IH]; intros a b; simpl.
  { split; [done|]. intros [Hs _]. by destruct a. }
  case_bool_decide as Hc; subst.
  - split; [intros [= <- <-]; split; [done|set_solver]|].
    intros [Hs Ha]. destruct a as [|x a]; simplify_eq/=; [done|]. set_solver.
  - destruct (split_once sep s) as [[a' b']|] eqn:E.
    + pose proof (proj1 (IH a' b') eq_refl) as [-> Ha']. split.
      * intros [= <- <-]. split; [done|]. set_solver.
      * intros [Hs Ha]. destruct a as [|x a]; simplify_eq/=.
        assert (Some (a', b') = Some (a, b)) as [= -> ->]; [|done].
        apply IH. set_solver.
    + split; [done|]. intros [Hs Ha]. destruct a as [|x a]; simplify_eq/=.
      assert (None = Some (a, b)); [|done]. apply IH. set_solver.
Qed.

Lemma splitn3_eq k p d :
  colon ∉ k -> colon ∉ p -> splitn 3 colon (k ++ colon :: p ++ colon :: d) = [k; p; d].
Proof.
  intros Hk Hp. cbn [splitn].
  rewrite (proj2 (split_once_spec _ _ k (p ++ colon :: d)) (conj eq_refl Hk)).
  by rewrite (proj2 (split_once_spec _ _ p d) (conj eq_refl Hp)).
Qed.

Lemma splitn3_cases s :
  (exists k p d, s = k ++ colon :: p ++ colon :: d /\ (colon ∉ k) /\ (colon ∉ p))
  \/ (splitn 3 colon s !! 2 = None
      /\ forall k p d, colon ∉ k -> colon ∉ p -> s <> k ++ colon :: p ++ colon :: d).
Proof.
  cbn [splitn]. destruct (split_once colon s) as [[k r]|] eqn:E1; cycle 1.
  { right. split; [done|]. intros k p d Hk Hp ->.
    by rewrite (proj2 (split_once_spec _ _ k (p ++ colon :: d)) (conj eq_refl Hk)) in E1. }
  destruct (split_once colon r) as [[p d]|] eqn:E2.
  - apply split_once_spec in E1 as [-> ?]. apply split_once_spec in E2 as [-> ?].
    left. by exists k, p, d.
  - right. split; [done|]. intros k' p d Hk Hp ->.
    rewrite (proj2 (split_once_spec _ _ k' (p ++ colon :: d)) (conj eq_refl Hk)) in E1.
    injection E1 as <- <-.
    by rewrite (proj2 (split_once_spec _ _ p d) (conj eq_refl Hp)) in E2.
Qed.

Lemma parse_digits_range s acc n :
  (0 <= acc < 2 ^ 32)%Z -> parse_digits acc s = Some n -> u32_ok n.
Proof.
  revert acc; induction s as [|c s IH]; intros acc Hacc; simpl.
  { by intros [= <-]. }
  destruct (_ && _) eqn:Ed; [|done]. destruct (_ <? _)%Z eqn:El; [|done].
  bool_to_prop. apply IH. lia.
Qed.

Lemma parse_u32_range s n : parse_u32 s = Some n -> u32_ok n.
Proof.
  unfold parse_u32. intros. repeat case_match; simplify_eq; try done;
    eapply parse_digits_range; try done; lia.
Qed.

Section Lemmas.
Context `{HexLaws}.

(** [copy_from_slice] is only reached with 32 bytes. *)
Lemma copy_from_slice_ok s bs :
  str_len s = 64 -> hex_decode s = Some bs -> copy_from_slice_32 bs = Ret bs.
Proof.
  intros Hl Hd. apply hex_decode_len in Hd. unfold copy_from_slice_32.
  by rewrite (proj2 (Nat.eqb_eq _ _)) by lia.
Qed.

(** The deletion parser's hex routine is the event parser's. *)
Lemma parse_hex_32_pub_spec s : parse_hex_32_pub s = Ret (parse_hex_32 s).
Proof.
  rewrite parse_hex_32_decode. unfold parse_hex_32_pub.
  destruct (Nat.eqb_spec (str_len s) 64); simpl; [|done].
  destruct (hex_decode s) as [bs|] eqn:E; [|done].
  by rewrite (copy_from_slice_ok s).
Qed.

Lemma parse_coordinate_spec value :
  exists o, parse_coordinate value = Ret o
    /\ forall c, o = Some c <-> coordinate_text c value.
Proof.
  unfold parse_coordinate, coordinate_text.
  destruct (splitn3_cases value) as [(k & p & d & -> & Hk & Hp)|[E2 Hno]].
  - rewrite splitn3_eq by done. simpl.
    assert (forall c ks ps,
      k ++ colon :: p ++ colon :: d = ks ++ colon :: ps ++ colon :: co_d_tag c ->
      colon ∉ ks -> colon ∉ ps -> ks = k /\ ps = p /\ co_d_tag c = d) as Huniq.
    { intros c ks ps Hv Hks Hps. apply (f_equal (splitn 3 colon)) in Hv.
      rewrite !splitn3_eq in Hv by done. by simplify_eq. }
    destruct (parse_u32 k) as [kind|] eqn:Ek; simpl; [|exists None; naive_solver].
    destruct (Nat.eqb_spec (str_len p) 64) as [El|El]; simpl; [|exists None; naive_solver].
    destruct (hex_decode p) as [pk|] eqn:Eh; [|exists None; naive_solver].
    rewrite (copy_from_slice_ok p) by done. simpl. eexists. split; [done|].
    intros c. split; [intros [= <-]; exists k, p; by split_and!|].
    intros (ks & ps & Hv & H1 & H2 & H3 & H4 & H5).
    destruct (Huniq c ks ps Hv H1 H2) as (-> & -> & <-).
    destruct c; simpl in *; congruence.
  - exists None. split; cycle 1.
    { intros c. split; [done|]. intros (ks & ps & Hv & Hk & Hp & _).
      by destruct (Hno ks ps (co_d_tag c)). }
    rewrite E2. destruct (_ ≫= parse_u32); [|done].
    destruct (_ !! 1) as [p|]; [|done].
    destruct (Nat.eqb_spec (str_len p) 64); simpl; [|done].
    destruct (hex_decode p) eqn:Eh; [|done]. by rewrite (copy_from_slice_ok p).
Qed.
End Lemmas.

(** * The request as a whole *)

Section RequestLemmas.
Context `{HexLaws}.

(** What one tag contributes. *)
Definition tag_coordinate (c : Coordinate) (tag : Tag) : Prop :=
  tag_name tag = lit "a"
  /\ exists v, tag_value tag = Some v /\ coordinate_text c v.

Lemma deletion_request_tag_spec req tag :
  exists req', deletion_request_tag req tag = Ret req'
    /\ (forall id, id ∈ dr_ids req' <-> id ∈ dr_ids req \/ id ∈ e_tags_of [tag])
    /\ (forall c, c ∈ dr_coordinates req' <->
          c ∈ dr_coordinates req \/ tag_coordinate c tag).
Proof.
  unfold deletion_request_tag, e_tags_of, tag_coordinate. cbn [omap list_omap].
  destruct (tag_value tag) as [v|] eqn:Ev.
  2: { exists req. repeat case_match; naive_solver set_solver. }
  case_bool_decide as He; [|case_bool_decide as Ha].
  - rewrite parse_hex_32_pub_spec. simpl. rewrite He.
    assert (lit "e" <> lit "a") as Hne by done.
    destruct (parse_hex_32 v) as [id|]; eexists; (split; [done|]); simpl; split;
      intros x; (set_solver || naive_solver).
  - destruct (parse_coordinate_spec v) as (o & -> & Ho). simpl.
    assert (forall c, o = Some c <-> tag_name tag = lit "a" /\
      exists w, Some v = Some w /\ coordinate_text c w) as Ho'.
    { intros c. rewrite Ho. naive_solver. }
    destruct o as [c0|]; eexists; (split; [done|]); simpl; split; intros x;
      (set_solver || (rewrite <- Ho'; set_solver)).
  - exists req. naive_solver set_solver.
Qed.

Lemma deletion_request_loop_spec tags req :
  exists req', deletion_request_loop req tags = Ret req'
    /\ (forall id, id ∈ dr_ids req' <-> id ∈ dr_ids req \/ id ∈ e_tags_of tags)
    /\ (forall c, c ∈ dr_coordinates req' <->
          c ∈ dr_coordinates req \/ exists tag, tag ∈ tags /\ tag_coordinate c tag).
Proof.
  revert req; induction tags as [|tag tags IH]; intros req; simpl.
  { exists req. unfold e_tags_of; simpl. set_solver. }
  destruct (deletion_request_tag_spec req tag) as (r1 & -> & Hi1 & Hc1). simpl.
  destruct (IH r1) as (r2 & -> & Hi2 & Hc2). exists r2. split; [done|]. split.
  - intros id. rewrite Hi2, Hi1. unfold e_tags_of. cbn [omap list_omap].
    case_match; set_solver.
  - intros c. rewrite Hc2, Hc1. set_solver.
Qed.
End RequestLemmas.

(** * Properties *)

(** Parsing a deletion request never panics; the ids it names are exactly
    the event's well-formed [e] tags, and the coordinates exactly the [a] tags
    that read [<kind>:<64 hex digits>:<d>], with every colon after the second
    belonging to [d]. *)
Theorem deletion_request_sound `{HexLaws} (e : Event) :
  exists req, deletion_request e = Ret req
    /\ (forall id, id ∈ dr_ids req <-> id ∈ e_tags e)
    /\ (forall c, c ∈ dr_coordinates req <->
          exists tag, tag ∈ ev_tags e /\ tag_coordinate c tag).
Proof.
  destruct (deletion_request_loop_spec (ev_tags e) (mkDeletionRequest ∅ []))
    as (req & Hr & Hi & Hc).
  exists req. split; [done|]. simpl in *. split; intros x;
    [rewrite Hi | rewrite Hc]; set_solver.
Qed.

Lemma deletion_request_sound_witness :
  exists req, deletion_request sample_event = Ret req
    /\ (forall id, id ∈ dr_ids req <-> id ∈ e_tags sample_event)
    /\ (forall c, c ∈ dr_coordinates req <->
          exists tag, tag ∈ ev_tags sample_event /\ tag_coordinate c tag).
Proof. exact (deletion_request_sound sample_event). Defined.
