(* ===== verification/Tombstones.v ===== *)
(** [struct Tombstones] of [src/src/store/index.rs]: the bounded FIFO set of
    deleted event ids. The implementation keeps a concurrent hash set, a queue
    of insertion order and a cached count; [Spec] is the one list it stands
    for. *)
From S2P Require Import Prelude.

(** * Implementation *)

Definition MAX_TOMBSTONES : Z := 262144.

Record Tombstones := mkTombstones {
  t_count : Z;
  t_ids : gset bytes;
  t_order : list bytes;
}.

(** [Tombstones::new]. *)
Definition tombstones_new : Tombstones := mkTombstones 0 ∅ [].

(** [Tombstones::contains]: a relaxed load of the count guards the lookup. *)
Definition tombstones_contains (t : Tombstones) (id : bytes) : bool :=
  negb (t_count t =? 0)%Z && bool_decide (id ∈ t_ids t).

(** The [while order.len() > MAX_TOMBSTONES] loop of [Tombstones::insert]:
    [pop_front] the oldest id and forget it. *)
Fixpoint evict_oldest (order : list bytes) (ids : gset bytes)
    : list bytes * gset bytes :=
  match order with
  | [] => ([], ids)
  | evicted :: order' =>
      if (Z.of_nat (length order) >? MAX_TOMBSTONES)%Z
      then evict_oldest order' (ids ∖ {[evicted]})
      else (order, ids)
  end.

(** [Tombstones::insert]. *)
Definition tombstones_insert (t : Tombstones) (id : bytes) : Tombstones :=
  if bool_decide (id ∈ t_ids t) then t
  else
    let '(order, ids) := evict_oldest (t_order t ++ [id]) ({[id]} ∪ t_ids t) in
    mkTombstones (Z.of_nat (size ids)) ids order.

(** [Tombstones::len]. *)
Definition tombstones_len (t : Tombstones) : Z := Z.of_nat (size (t_ids t)).

(** * Specification: the most recent [MAX_TOMBSTONES] distinct ids *)

Module Spec.
Definition contains (l : list bytes) (id : bytes) : bool := bool_decide (id ∈ l).

Definition insert (l : list bytes) (id : bytes) : list bytes :=
  if bool_decide (id ∈ l) then l
  else drop (S (length l) - Z.to_nat MAX_TOMBSTONES) (l ++ [id]).
End Spec.

(** The abstraction function and the representation invariant. *)
Definition tombs_abs (t : Tombstones) : list bytes := t_order t.

Record tombs_ok (t : Tombstones) : Prop := {
  to_nodup : NoDup (t_order t);
  to_ids : t_ids t = list_to_set (t_order t);
  to_count : t_count t = Z.of_nat (length (t_order t));
  to_cap : (Z.of_nat (length (t_order t)) <= MAX_TOMBSTONES)%Z;
}.

(** * Lemmas *)

#[local] Opaque MAX_TOMBSTONES.

Lemma max_tombstones_pos : (0 < MAX_TOMBSTONES)%Z.
Proof. done. Qed.

Lemma size_list_to_set (l : list bytes) :
  NoDup l -> size (list_to_set l : gset bytes) = length l.
Proof.
  induction 1 as [|x l Hx _ IH]; simpl; [done|].
  rewrite size_union, size_singleton, IH by set_solver. done.
Qed.

Lemma tombs_ok_new : tombs_ok tombstones_new.
Proof. split; simpl; [constructor|done|done|]. pose proof max_tombstones_pos. lia. Qed.

Lemma tombs_contains_spec t id :
  tombs_ok t -> tombstones_contains t id = Spec.contains (tombs_abs t) id.
Proof.
  intros [_ Hids Hcount _]. unfold tombstones_contains, Spec.contains, tombs_abs.
  rewrite Hids, Hcount. rewrite (bool_decide_ext _ _ (elem_of_list_to_set _ _)).
  destruct (t_order t); [done|]. by rewrite (proj2 (Z.eqb_neq _ _)).
Qed.

(** The eviction loop drops exactly the surplus at the front. *)
Lemma evict_oldest_spec order :
  NoDup order ->
  evict_oldest order (list_to_set order) =
  (drop (length order - Z.to_nat MAX_TOMBSTONES) order,
   list_to_set (drop (length order - Z.to_nat MAX_TOMBSTONES) order)).
Proof.
  pose proof max_tombstones_pos as Hpos.
  induction 1 as [|x l Hx Hl IH]; simpl; [done|].
  destruct (Z.gtb_spec (Z.of_nat (S (length l))) MAX_TOMBSTONES) as [Hg|Hg].
  - replace (({[x]} ∪ list_to_set l) ∖ {[x]} : gset bytes) with
      (list_to_set l : gset bytes)
      by (apply set_eq; intros y; rewrite elem_of_difference, elem_of_union,
            elem_of_singleton, elem_of_list_to_set; naive_solver).
    rewrite IH. destruct (Z.to_nat MAX_TOMBSTONES) as [|m] eqn:Em; [lia|].
    by replace (S (length l) - S m) with (S (length l - S m)) by lia.
  - destruct (Z.to_nat MAX_TOMBSTONES) as [|m] eqn:Em; [lia|].
    by replace (S (length l) - S m) with 0 by lia.
Qed.

Lemma tombs_insert_spec t id :
  tombs_ok t -> tombs_ok (tombstones_insert t id)
    /\ tombs_abs (tombstones_insert t id) = Spec.insert (tombs_abs t) id.
Proof.
  intros Hok. pose proof Hok as [Hnd Hids Hcount Hcap].
  unfold tombstones_insert, Spec.insert, tombs_abs. rewrite Hids.
  rewrite (bool_decide_ext _ _ (elem_of_list_to_set _ _)).
  case_bool_decide as Hin; [done|].
  assert (NoDup (t_order t ++ [id])) as Hnd'.
  { apply NoDup_app. split_and!; [done|set_solver|apply NoDup_singleton]. }
  replace ({[id]} ∪ list_to_set (t_order t)) with
    (list_to_set (t_order t ++ [id]) : gset bytes)
    by (rewrite list_to_set_app_L; set_solver).
  rewrite evict_oldest_spec by done. rewrite length_app, Nat.add_1_r.
  split; [|done]. split; simpl; [| done | |].
  - rewrite <- (take_drop (S (length (t_order t)) - Z.to_nat MAX_TOMBSTONES)) in Hnd'.
    by apply NoDup_app in Hnd' as (_ & _ & ?).
  - rewrite size_list_to_set; [done|].
    rewrite <- (take_drop (S (length (t_order t)) - Z.to_nat MAX_TOMBSTONES)) in Hnd'.
    by apply NoDup_app in Hnd' as (_ & _ & ?).
  - rewrite length_drop, length_app. simpl. lia.
Qed.

Lemma tombs_ok_insert t id : tombs_ok t -> tombs_ok (tombstones_insert t id).
Proof. intros. by apply tombs_insert_spec. Qed.

(** A tombstone just recorded is effective. *)
Lemma tombs_insert_contains t id :
  tombs_ok t -> tombstones_contains (tombstones_insert t id) id = true.
Proof.
  intros Hok. rewrite tombs_contains_spec by by apply tombs_ok_insert.
  destruct (tombs_insert_spec t id Hok) as [_ ->].
  apply bool_decide_eq_true. unfold Spec.insert. pose proof max_tombstones_pos.
  case_bool_decide; [done|].
  rewrite drop_app_le by lia. set_solver.
Qed.

(** Recording [id] makes no other id appear. *)
Lemma tombs_insert_only t id id' :
  tombs_ok t -> tombstones_contains (tombstones_insert t id) id' = true ->
  id' = id \/ tombstones_contains t id' = true.
Proof.
  intros Hok. rewrite !tombs_contains_spec by auto using tombs_ok_insert.
  destruct (tombs_insert_spec t id Hok) as [_ ->].
  unfold Spec.contains, Spec.insert. rewrite !bool_decide_eq_true.
  case_bool_decide; [by auto|]. intros (i & Hi)%list_elem_of_lookup.
  rewrite lookup_drop in Hi. apply list_elem_of_lookup_2 in Hi. set_solver.
Qed.

#[export] Hint Resolve tombs_ok_new tombs_ok_insert : memlay.

(** Distinct ids, each recorded twice: the last [MAX_TOMBSTONES] of them stay. *)
Lemma tombs_insert_twice ids t :
  tombs_ok t -> NoDup (tombs_abs t ++ ids) ->
  let t' := foldl (fun t id => tombstones_insert (tombstones_insert t id) id) t ids in
  tombs_ok t' /\ tombs_abs t' =
    drop (length (tombs_abs t ++ ids) - Z.to_nat MAX_TOMBSTONES) (tombs_abs t ++ ids).
Proof.
  pose proof max_tombstones_pos as Hpos.
  revert t. induction ids as [|x ids IH]; intros t Hok Hnd; cbn [foldl].
  { rewrite app_nil_r. pose proof (to_cap _ Hok). unfold tombs_abs.
    replace (_ - _) with 0 by lia. done. }
  destruct (tombs_insert_spec t x Hok) as [Hok1 E1].
  assert (x ∈ tombs_abs (tombstones_insert t x)) as Hx.
  { pose proof (tombs_insert_contains t x Hok) as Hc.
    rewrite tombs_contains_spec in Hc by done. by apply bool_decide_eq_true in Hc. }
  destruct (tombs_insert_spec _ x Hok1) as [Hok2 E2].
  set (u := tombstones_insert (tombstones_insert t x) x) in *.
  unfold Spec.insert in E2. rewrite bool_decide_true, E1 in E2 by done.
  unfold Spec.insert in E2. rewrite bool_decide_false in E2
    by (apply NoDup_app in Hnd as (_ & Hd & _); intros Hin; apply (Hd _ Hin); left).
  set (k := S (length (tombs_abs t)) - Z.to_nat MAX_TOMBSTONES) in *.
  assert (tombs_abs u ++ ids = drop k (tombs_abs t ++ x :: ids)) as Eu.
  { rewrite E2, (cons_middle x (tombs_abs t) ids), app_assoc, (drop_app_le (_ ++ [x])); [done|].
    rewrite length_app. cbn [length]. subst k. lia. }
  destruct (IH u Hok2) as [? E].
  { rewrite Eu. rewrite <- (take_drop k (tombs_abs t ++ x :: ids)) in Hnd.
    by apply NoDup_app in Hnd as (_ & _ & ?). }
  split; [done|]. rewrite E, Eu, drop_drop, length_drop, length_app. cbn [length].
  f_equal. subst k. lia.
Qed.

(** One id more than fits: the first is forgotten, the others stay. *)
Lemma tombs_insert_past_cap first ids :
  NoDup (first :: ids) -> length ids = Z.to_nat MAX_TOMBSTONES ->
  let t := foldl (fun t id => tombstones_insert (tombstones_insert t id) id)
             (tombstones_insert tombstones_new first) ids in
  tombstones_len t = MAX_TOMBSTONES /\ tombstones_contains t first = false.
Proof.
  intros Hnd Hlen t. pose proof max_tombstones_pos as Hpos.
  destruct (tombs_insert_spec _ first tombs_ok_new) as [Hok1 E1].
  change (tombs_abs tombstones_new) with (@nil bytes) in E1. unfold Spec.insert in E1.
  rewrite bool_decide_false in E1 by apply not_elem_of_nil. cbn [app] in E1.
  replace (S (length []) - Z.to_nat MAX_TOMBSTONES) with 0 in E1 by (cbn [length]; lia).
  destruct (tombs_insert_twice ids _ Hok1) as [Hok E]; [by rewrite E1|]. fold t in Hok, E.
  rewrite E1 in E. cbn [drop app] in E.
  replace (length (first :: ids) - Z.to_nat MAX_TOMBSTONES) with 1 in E by (cbn [length]; lia).
  split.
  - unfold tombstones_len. rewrite (to_ids _ Hok), size_list_to_set by apply Hok.
    change (t_order t) with (tombs_abs t). rewrite E. cbn [drop]. rewrite drop_0, Hlen. lia.
  - rewrite tombs_contains_spec, E by done. cbn [drop]. rewrite drop_0.
    apply bool_decide_eq_false. by apply NoDup_cons in Hnd as [? _].
Qed.

(** * Properties *)

(** C31: the tombstone set refines a bounded FIFO set: starting from the empty
    set and after any sequence of insertions, membership, length and order are
    those of the list specification, and never more than [MAX_TOMBSTONES]
    entries are held. *)
Theorem tombstones_refine_fifo (inserted : list bytes) :
  let t := foldl tombstones_insert tombstones_new inserted in
  let l := foldl Spec.insert [] inserted in
  tombs_abs t = l
  /\ (forall id, tombstones_contains t id = Spec.contains l id)
  /\ tombstones_len t = Z.of_nat (length l)
  /\ (tombstones_len t <= MAX_TOMBSTONES)%Z.
Proof.
  assert (forall t, tombs_ok t ->
    tombs_ok (foldl tombstones_insert t inserted) /\
    tombs_abs (foldl tombstones_insert t inserted)
      = foldl Spec.insert (tombs_abs t) inserted) as Hsim.
  { induction inserted as [|x l IH]; intros t Ht; simpl; [done|].
    destruct (tombs_insert_spec t x Ht) as [Ht' <-]. by apply IH. }
  destruct (Hsim _ tombs_ok_new) as [Hok Habs].
  change (tombs_abs tombstones_new) with (@nil bytes) in Habs.
  split_and!; [done| | |].
  - intros id. rewrite tombs_contains_spec by done. by rewrite Habs.
  - unfold tombstones_len. rewrite (to_ids _ Hok).
    rewrite size_list_to_set by apply Hok. by rewrite <- Habs.
  - unfold tombstones_len. rewrite (to_ids _ Hok).
    rewrite size_list_to_set by apply Hok. apply Hok.
Qed.
