(* ===== verification/Index.v ===== *)
(** [src/src/store/index.rs]: the in-memory event index.

    [EventIndex] has the fields of the source. A [DashMap] is a [gmap], a
    [RwLock<BTreeSet<EventRef>>] is the sorted list of [Collections.v], an
    [Arc<Event>] the event it points to, an atomic counter a [Z] that wraps.
    Every operation is one function from index to index, written in the order
    of the source; an operation is one atomic step here ([Threads.v] has
    the interleavings of the lock-free code).

    The six secondary indexes are maps from keys to buckets of references; the
    class [BucketMap] is the interface the lemmas of [IndexInv.v] are proved
    against, with instances for the flat, the nested and the sharded layout. *)
From S2P Require Import Prelude Collections Event Deletion Tombstones.

(** * Keys and references *)

Definition OLDEST_SHARDS : Z := 64.

(** [TagIdHash::from_id]: XOR of the two 16-byte halves as a [u128]. *)
Definition tag_id_hash (id : bytes) : Z :=
  Z.lxor (from_be_bytes (take 16 id)) (from_be_bytes (take 16 (drop 16 id))).

(** [struct EventRef] and [EventRef::new]. *)
Record EventRef := mkEventRef {
  er_created_at : Z;
  er_id : bytes;
  er_event : Event;
}.

Definition event_ref (e : Event) : EventRef :=
  mkEventRef (ev_created_at e) (ev_id e) e.

(** [impl Ord for EventRef]: newest first, then by id. *)
#[export] Instance Ord_EventRef : Ord EventRef := fun a b =>
  match (er_created_at b ?= er_created_at a)%Z with
  | Eq => bytes_cmp (er_id a) (er_id b)
  | c => c
  end.

(** [enum InsertOutcome]. *)
Inductive InsertOutcome :=
| Inserted (replaced : option Event)
| Duplicate
| Deleted
| LostRace.

(** [EventIndex::oldest_shard] on 64-bit [usize]. *)
Definition oldest_shard (id : bytes) : nat :=
  Z.to_nat (foldl (fun hash b => wrap64 (wrap64 (hash * 31) + b)) 0%Z (take 8 id)
            mod OLDEST_SHARDS).

(** The single-letter tags other than ["e"] and ["p"], as the source's
    [let (Some(letter), None) = (chars.next(), chars.next())] chain selects
    them. *)
Definition generic_tag (tag : Tag) : option (N * str) :=
  match tag_name tag with
  | [letter] =>
      if bool_decide (letter <> 101%N) && bool_decide (letter <> 112%N)
      then (fun value => (letter, value)) <$> tag_value tag
      else None
  | _ => None
  end.

(** * Buckets *)

Class BucketMap (M K : Type) := {
  bk_get : M -> K -> list EventRef;
  bk_add : M -> K -> EventRef -> M;
  bk_del : M -> K -> EventRef -> M;
  bk_valid : M -> K -> Prop;
}.

(** [DashMap<K, RwLock<BTreeSet<EventRef>>>]: insertion creates the bucket,
    removal keeps an emptied one. *)
#[export] Instance flat_buckets `{Countable K} :
    BucketMap (gmap K (list EventRef)) K := {|
  bk_get m k := default [] (m !! k);
  bk_add m k er := <[k := bt_insert er (default [] (m !! k))]> m;
  bk_del m k er :=
    match m !! k with
    | Some set => <[k := bt_remove er set]> m
    | None => m
    end;
  bk_valid _ _ := True;
|}.

(** [DashMap<TagLetter, DashMap<String, RwLock<BTreeSet<EventRef>>>>]. *)
#[export] Instance nested_buckets :
    BucketMap (gmap N (gmap str (list EventRef))) (N * str) := {|
  bk_get m k := default [] (default ∅ (m !! k.1) !! k.2);
  bk_add m k er :=
    let inner := default ∅ (m !! k.1) in
    <[k.1 := <[k.2 := bt_insert er (default [] (inner !! k.2))]> inner]> m;
  bk_del m k er :=
    match m !! k.1 with
    | Some inner =>
        match inner !! k.2 with
        | Some set => <[k.1 := <[k.2 := bt_remove er set]> inner]> m
        | None => m
        end
    | None => m
    end;
  bk_valid _ _ := True;
|}.

(** [[RwLock<BTreeSet<EventRef>>; OLDEST_SHARDS]]. *)
#[export] Instance shard_buckets : BucketMap (list (list EventRef)) nat := {|
  bk_get m k := default [] (m !! k);
  bk_add m k er := <[k := bt_insert er (default [] (m !! k))]> m;
  bk_del m k er := <[k := bt_remove er (default [] (m !! k))]> m;
  bk_valid m k := k < length m;
|}.

Definition bk_add_all {M K} `{BucketMap M K} (m : M) (ks : list K) (er : EventRef)
    : M := foldl (fun m k => bk_add m k er) m ks.
Definition bk_del_all {M K} `{BucketMap M K} (m : M) (ks : list K) (er : EventRef)
    : M := foldl (fun m k => bk_del m k er) m ks.

(** * The index *)

(** [struct EventIndex]. *)
Record EventIndex := mkIndex {
  by_id : gmap bytes Event;
  by_pubkey : gmap Z (list EventRef);
  by_kind : gmap Z (list EventRef);
  by_tag_e : gmap Z (list EventRef);
  by_tag_p : gmap Z (list EventRef);
  by_tag_other : gmap N (gmap str (list EventRef));
  by_oldest : list (list EventRef);
  by_replaceable : gmap ReplacementKey bytes;
  tombstones : Tombstones;
  memory_bytes : Z;
  event_count : Z;
}.

(** [EventIndex::new]. *)
Definition index_new : EventIndex :=
  mkIndex ∅ ∅ ∅ ∅ ∅ ∅ (replicate (Z.to_nat OLDEST_SHARDS) []) ∅ tombstones_new 0 0.

(** Field updates. *)
Definition with_by_id (m : gmap bytes Event) (ix : EventIndex) : EventIndex :=
  mkIndex m (by_pubkey ix) (by_kind ix) (by_tag_e ix) (by_tag_p ix)
    (by_tag_other ix) (by_oldest ix) (by_replaceable ix) (tombstones ix)
    (memory_bytes ix) (event_count ix).
Definition with_by_replaceable (m : gmap ReplacementKey bytes) (ix : EventIndex)
    : EventIndex :=
  mkIndex (by_id ix) (by_pubkey ix) (by_kind ix) (by_tag_e ix) (by_tag_p ix)
    (by_tag_other ix) (by_oldest ix) m (tombstones ix)
    (memory_bytes ix) (event_count ix).
Definition with_tombstones (t : Tombstones) (ix : EventIndex) : EventIndex :=
  mkIndex (by_id ix) (by_pubkey ix) (by_kind ix) (by_tag_e ix) (by_tag_p ix)
    (by_tag_other ix) (by_oldest ix) (by_replaceable ix) t
    (memory_bytes ix) (event_count ix).
Definition with_counters (mem count : Z) (ix : EventIndex) : EventIndex :=
  mkIndex (by_id ix) (by_pubkey ix) (by_kind ix) (by_tag_e ix) (by_tag_p ix)
    (by_tag_other ix) (by_oldest ix) (by_replaceable ix) (tombstones ix)
    mem count.

(** [event.raw.len()]. *)
Definition raw_len (e : Event) : Z := Z.of_nat (length (ev_raw e)).

Section Operations.
Context `{HexCrate}.

(** The keys an event is filed under in each secondary index. *)
Definition pubkey_keys (e : Event) : list Z := [tag_id_hash (ev_pubkey e)].
Definition kind_keys (e : Event) : list Z := [ev_kind e].
Definition e_keys (e : Event) : list Z := tag_id_hash <$> e_tags e.
Definition p_keys (e : Event) : list Z := tag_id_hash <$> p_tags e.
Definition other_keys (e : Event) : list (N * str) := omap generic_tag (ev_tags e).
Definition shard_keys (e : Event) : list nat := [oldest_shard (ev_id e)].

(** The part of [EventIndex::insert] that files the event in every secondary
    index. *)
Definition add_secondary_indexes (ix : EventIndex) (event : Event) : EventIndex :=
  let er := event_ref event in
  mkIndex (by_id ix)
    (bk_add_all (by_pubkey ix) (pubkey_keys event) er)
    (bk_add_all (by_kind ix) (kind_keys event) er)
    (bk_add_all (by_tag_e ix) (e_keys event) er)
    (bk_add_all (by_tag_p ix) (p_keys event) er)
    (bk_add_all (by_tag_other ix) (other_keys event) er)
    (bk_add_all (by_oldest ix) (shard_keys event) er)
    (by_replaceable ix) (tombstones ix) (memory_bytes ix) (event_count ix).

(** [EventIndex::cleanup_secondary_indexes]. *)
Definition cleanup_secondary_indexes (ix : EventIndex) (event : Event)
    : EventIndex :=
  let er := event_ref event in
  mkIndex (by_id ix)
    (bk_del_all (by_pubkey ix) (pubkey_keys event) er)
    (bk_del_all (by_kind ix) (kind_keys event) er)
    (bk_del_all (by_tag_e ix) (e_keys event) er)
    (bk_del_all (by_tag_p ix) (p_keys event) er)
    (bk_del_all (by_tag_other ix) (other_keys event) er)
    (bk_del_all (by_oldest ix) (shard_keys event) er)
    (by_replaceable ix) (tombstones ix) (memory_bytes ix) (event_count ix).

(** [EventIndex::is_still_winner]. *)
Definition is_still_winner (ix : EventIndex) (event : Event) : bool :=
  match replacement_key event with
  | RKNone => true
  | key =>
      match by_replaceable ix !! key with
      | Some id => bool_decide (id = ev_id event)
      | None => false
      end
  end.

(** [EventIndex::cleanup_event]. *)
Definition cleanup_event (ix : EventIndex) (event : Event) : EventIndex :=
  let ix1 :=
    match by_id ix !! ev_id event with
    | Some _ =>
        with_counters (fetch_sub (memory_bytes ix) (raw_len event))
          (fetch_sub (event_count ix) 1)
          (with_by_id (delete (ev_id event) (by_id ix)) ix)
    | None => ix
    end in
  cleanup_secondary_indexes ix1 event.

(** [EventIndex::internal_remove]. *)
Definition internal_remove (ix : EventIndex) (id : bytes) (skip_replaceable : bool)
    : EventIndex * option Event :=
  match by_id ix !! id with
  | None => (ix, None)
  | Some event =>
      let ix1 := with_by_id (delete id (by_id ix)) ix in
      let ix2 := with_counters (fetch_sub (memory_bytes ix1) (raw_len event))
                   (fetch_sub (event_count ix1) 1) ix1 in
      let ix3 :=
        if negb skip_replaceable && is_replaceable event
        then with_by_replaceable
               (delete (replacement_key event) (by_replaceable ix2)) ix2
        else ix2 in
      (cleanup_secondary_indexes ix3 event, Some event)
  end.

(** [EventIndex::remove]. *)
Definition index_remove (ix : EventIndex) (id : bytes) : EventIndex * option Event :=
  internal_remove ix id true.

(** [EventIndex::tombstone]. *)
Definition index_tombstone (ix : EventIndex) (id : bytes) : EventIndex :=
  with_tombstones (tombstones_insert (tombstones ix) id) ix.

(** [EventIndex::delete_by_id]. *)
Definition delete_by_id (ix : EventIndex) (id : bytes) : EventIndex * option Event :=
  let '(ix1, removed) := internal_remove ix id false in
  (index_tombstone ix1 id, removed).

(** [EventIndex::is_tombstoned]. *)
Definition is_tombstoned (ix : EventIndex) (id : bytes) : bool :=
  tombstones_contains (tombstones ix) id.

(** Does the incoming event supersede the one stored under [old_id]? *)
Definition incoming_wins (ix : EventIndex) (event : Event) (old_id : bytes) : bool :=
  match by_id ix !! old_id with
  | Some old =>
      (ev_created_at event >? ev_created_at old)%Z
      || ((ev_created_at event =? ev_created_at old)%Z
          && bytes_ltb (ev_id event) (ev_id old))
  | None => true
  end.

(** The replaceable-event block of [EventIndex::insert]: claim the replacement
    key and remove the event it replaces, or give up. *)
Definition claim_replaceable (ix : EventIndex) (event : Event)
    : option (EventIndex * option Event) :=
  if is_replaceable event then
    match replacement_key event with
    | RKNone => Some (ix, None)
    | key =>
        match by_replaceable ix !! key with
        | Some old_id =>
            if negb (incoming_wins ix event old_id) then None
            else
              let ix1 := with_by_replaceable
                           (<[key := ev_id event]> (by_replaceable ix)) ix in
              Some (internal_remove ix1 old_id true)
        | None =>
            Some (with_by_replaceable
                    (<[key := ev_id event]> (by_replaceable ix)) ix, None)
        end
    end
  else Some (ix, None).

(** [EventIndex::insert]. *)
Definition index_insert (ix : EventIndex) (event : Event)
    : EventIndex * InsertOutcome :=
  if tombstones_contains (tombstones ix) (ev_id event) then (ix, Deleted) else
  match claim_replaceable ix event with
  | None => (ix, LostRace)
  | Some (ix1, replaced) =>
      let previous := by_id ix1 !! ev_id event in
      let ix2 := with_by_id (<[ev_id event := event]> (by_id ix1)) ix1 in
      if bool_decide (is_Some previous) then (ix2, Duplicate) else
      if is_replaceable event && negb (is_still_winner ix2 event)
      then (with_by_id (delete (ev_id event) (by_id ix2)) ix2, LostRace) else
      let ix3 := with_counters (fetch_add (memory_bytes ix2) (raw_len event))
                   (fetch_add (event_count ix2) 1) ix2 in
      let ix4 := add_secondary_indexes ix3 event in
      if negb (bool_decide (is_Some (by_id ix4 !! ev_id event))) then
        (cleanup_secondary_indexes ix4 event,
         if is_replaceable event then LostRace else Duplicate)
      else if is_replaceable event && negb (is_still_winner ix4 event)
      then (cleanup_event ix4 event, LostRace)
      else (ix4, Inserted replaced)
  end.
End Operations.

(** [EventIndex::coordinate_targets]: the stored version of the coordinate, if it
    is not newer than [until]. *)
Definition coordinate_key (coord : Coordinate) : ReplacementKey :=
  if bool_decide (co_d_tag coord = [])
  then RKReplaceable (co_pubkey coord) (co_kind coord)
  else RKAddressable (co_pubkey coord) (co_kind coord) (co_d_tag coord).

Definition coordinate_targets (ix : EventIndex) (coord : Coordinate) (until : Z)
    : list bytes :=
  let candidate_ids :=
    match by_replaceable ix !! coordinate_key coord with
    | Some id => [id]
    | None => []
    end in
  List.filter (fun id =>
    match by_id ix !! id with
    | Some event => (ev_created_at event <=? until)%Z
    | None => false
    end) candidate_ids.

(** [EventIndex::get], [len], [event_count], [memory_bytes]. *)
Definition index_get (ix : EventIndex) (id : bytes) : option Event := by_id ix !! id.
Definition index_len (ix : EventIndex) : nat := size (by_id ix).

(** [EventIndex::iter_all]. The order is the map's, which the source leaves
    unspecified; no theorem depends on it. *)
Definition iter_all (ix : EventIndex) : list Event := (map_to_list (by_id ix)).*2.
