(* ===== verification/IndexInv.v ===== *)
(** The invariant of the event index ([Index.v]) and its preservation.

    An event's id is the hash of its contents, so two events with one id agree
    on everything that hash covers. That is the one fact about ids the index
    relies on; it enters as a function [core_of] from ids to contents, and an
    event is [genuine] when it has the contents its id names. (The raw JSON is
    not covered by the hash: two genuine events with one id may differ in it.) *)
From S2P Require Import Prelude Collections Event Tombstones Index.

(** * Contents of an event *)

Record Core := mkCore {
  c_pubkey : bytes;
  c_created_at : Z;
  c_kind : Z;
  c_tags : list Tag;
}.

Definition core (e : Event) : Core :=
  mkCore (ev_pubkey e) (ev_created_at e) (ev_kind e) (ev_tags e).

Definition genuine (core_of : bytes -> Core) (e : Event) : Prop :=
  core e = core_of (ev_id e).

(** * The interface of the bucket maps *)

Class BucketLaws (M K : Type) `{BucketMap M K, EqDecision K} : Prop := {
  bk_get_add : forall (m : M) (k k' : K) er, bk_valid m k ->
    bk_get (bk_add m k er) k' =
      if decide (k' = k) then bt_insert er (bk_get m k) else bk_get m k';
  bk_get_del : forall (m : M) (k k' : K) er, bk_valid m k ->
    bk_get (bk_del m k er) k' =
      if decide (k' = k) then bt_remove er (bk_get m k) else bk_get m k';
  bk_valid_add : forall (m : M) (k k' : K) er,
    bk_valid m k' -> bk_valid (bk_add m k er) k';
  bk_valid_del : forall (m : M) (k k' : K) er,
    bk_valid m k' -> bk_valid (bk_del m k er) k';
}.

#[export] Instance flat_buckets_laws `{Countable K} :
  BucketLaws (gmap K (list EventRef)) K.
Proof.
  split; simpl; try done; intros m k k' er _.
  - rewrite lookup_insert. repeat case_decide; by subst.
  - destruct (m !! k) as [s|] eqn:E; simpl.
    + rewrite lookup_insert. repeat case_decide; by subst.
    + case_decide; subst; by rewrite ?E.
Qed.

#[export] Instance nested_buckets_laws :
  BucketLaws (gmap N (gmap str (list EventRef))) (N * str).
Proof.
  split; simpl; try done; intros m [l v] [l' v'] er _; simpl.
  - rewrite lookup_insert. repeat case_decide; simplify_eq; simpl; try done;
      rewrite ?lookup_insert; repeat case_decide; simplify_eq/=; try done; congruence.
  - destruct (m !! l) as [inner|] eqn:E; simpl; [destruct (inner !! v) as [s|] eqn:E'; simpl|].
    + rewrite lookup_insert. repeat case_decide; simplify_eq; simpl; rewrite ?E; simpl;
        rewrite ?lookup_insert, ?E'; repeat case_decide; simplify_eq/=; try done; congruence.
    + case_decide; simplify_eq; rewrite ?E; simpl; by rewrite ?E'.
    + case_decide; simplify_eq; by rewrite ?E.
Qed.

#[export] Instance shard_buckets_laws : BucketLaws (list (list EventRef)) nat.
Proof.
  split; simpl; intros m k k' er; rewrite ?length_insert; try done; intros Hk;
    (case_decide; subst;
      [by rewrite list_lookup_insert_eq|by rewrite list_lookup_insert_ne]).
Qed.

(** * Order on references *)

#[export] Instance EventRef_ord_laws : OrdLaws EventRef.
Proof.
  split; unfold cmp, Ord_EventRef.
  - intros a b. rewrite (Z.compare_antisym (er_created_at b)), bytes_cmp_opp.
    by destruct (_ ?= _)%Z.
  - intros a b c.
    destruct (Z.compare_spec (er_created_at b) (er_created_at a)),
      (Z.compare_spec (er_created_at c) (er_created_at b)),
      (Z.compare_spec (er_created_at c) (er_created_at a));
      try done; try lia; eauto using bytes_cmp_lt_trans.
  - intros a b c. destruct (Z.compare_spec (er_created_at b) (er_created_at a)) as [->|?|?];
      [|done|done]. by intros ->%bytes_cmp_eq.
Qed.

Lemma er_cmp_eq a b :
  cmp a b = Eq <-> er_created_at a = er_created_at b /\ er_id a = er_id b.
Proof.
  unfold cmp, Ord_EventRef.
  destruct (Z.compare_spec (er_created_at b) (er_created_at a));
    rewrite ?bytes_cmp_eq; split; try done; try lia; naive_solver.
Qed.

Lemma er_cmp_lt_time a b :
  cmp a b = Lt -> (er_created_at b <= er_created_at a)%Z.
Proof.
  unfold cmp, Ord_EventRef.
  destruct (Z.compare_spec (er_created_at b) (er_created_at a)); intros; lia || done.
Qed.

(** * Lemmas on buckets *)

Lemma bt_insert_idemp (er : EventRef) s : bt_insert er (bt_insert er s) = bt_insert er s.
Proof.
  induction s as [|y s IH]; simpl; [by rewrite cmp_refl|].
  destruct (cmp er y) eqn:E; simpl; rewrite ?cmp_refl, ?E; by rewrite ?IH.
Qed.

Lemma bt_remove_fresh (er : EventRef) s :
  (forall z, z ∈ s -> cmp er z <> Eq) -> bt_remove er s = s.
Proof.
  induction s as [|y s IH]; simpl; intros Hne; [done|].
  specialize (Hne y) as Hy. destruct (cmp er y); [by destruct Hy; [left|]|done|].
  f_equal. apply IH. set_solver.
Qed.

Section AllKeys.
Context {M K : Type} `{BucketLaws M K}.
Implicit Types (m : M) (k : K).

Lemma bk_valid_add_all m ks er k : bk_valid m k -> bk_valid (bk_add_all m ks er) k.
Proof.
  revert m; induction ks as [|k0 ks IH]; intros m Hv; simpl; [done|].
  by apply IH, bk_valid_add.
Qed.

Lemma bk_valid_del_all m ks er k : bk_valid m k -> bk_valid (bk_del_all m ks er) k.
Proof.
  revert m; induction ks as [|k0 ks IH]; intros m Hv; simpl; [done|].
  by apply IH, bk_valid_del.
Qed.

Lemma bk_get_add_all m ks er k :
  (forall k, k ∈ ks -> bk_valid m k) ->
  bk_get (bk_add_all m ks er) k =
    if decide (k ∈ ks) then bt_insert er (bk_get m k) else bk_get m k.
Proof.
  revert m; induction ks as [|k0 ks IH]; intros m Hv; simpl; [done|].
  rewrite IH by (intros; apply bk_valid_add; set_solver).
  rewrite bk_get_add by set_solver.
  destruct (decide (k ∈ ks)) as [Hk|Hk], (decide (k = k0)) as [->|Hne],
    (decide (_ ∈ _ :: _)) as [Hc|Hc]; try set_solver. by rewrite bt_insert_idemp.
Qed.

Lemma bk_get_del_all m ks er k :
  (forall k, k ∈ ks -> bk_valid m k) -> bt_sorted (bk_get m k) ->
  bk_get (bk_del_all m ks er) k =
    if decide (k ∈ ks) then bt_remove er (bk_get m k) else bk_get m k.
Proof.
  revert m; induction ks as [|k0 ks IH]; intros m Hv Hs; simpl; [done|].
  assert (bk_valid m k0) as Hk0 by set_solver.
  rewrite IH; [ | intros; apply bk_valid_del; set_solver
    | rewrite bk_get_del by done; destruct (decide (k = k0)) as [->|];
      [by apply bt_remove_sorted|done]].
  rewrite bk_get_del by done.
  destruct (decide (k ∈ ks)) as [Hk|Hk], (decide (k = k0)) as [->|Hne],
    (decide (_ ∈ _ :: _)) as [Hc|Hc]; try set_solver.
  apply bt_remove_fresh. intros z. rewrite elem_of_bt_remove by done. by intros [].
Qed.
End AllKeys.

(** * The invariant *)

Section Invariant.
Context `{HexCrate} (core_of : bytes -> Core).

Definition ref_ok (er : EventRef) : Prop :=
  er = event_ref (er_event er) /\ genuine core_of (er_event er).

(** A secondary index filed by [keys] holds, in order, exactly one reference per
    key of each live event. *)
Record bucket_ok {M K} `{BucketMap M K} (live : gset bytes) (m : M)
    (keys : Event -> list K) : Prop := {
  bo_valid : forall e k, k ∈ keys e -> bk_valid m k;
  bo_sorted : forall k, bt_sorted (bk_get m k);
  bo_sound : forall k er, er ∈ bk_get m k ->
    ref_ok er /\ er_id er ∈ live /\ k ∈ keys (er_event er);
  bo_complete : forall e k, genuine core_of e -> ev_id e ∈ live -> k ∈ keys e ->
    exists er, er ∈ bk_get m k /\ er_id er = ev_id e;
}.

(** The replaceable index points every stored replaceable event's key at it, and
    never points a key at an id of another key. *)
Definition replaceable_ok (ix : EventIndex) : Prop :=
  (forall i e, by_id ix !! i = Some e -> is_replaceable e = true ->
     by_replaceable ix !! replacement_key e = Some i) /\
  (forall k i e, by_replaceable ix !! k = Some i -> ev_id e = i ->
     genuine core_of e -> replacement_key e = k).

(** All six secondary indexes agree with the set of live ids. *)
Record secondary_ok (live : gset bytes) (ix : EventIndex) : Prop := {
  so_pubkey : bucket_ok live (by_pubkey ix) pubkey_keys;
  so_kind : bucket_ok live (by_kind ix) kind_keys;
  so_tag_e : bucket_ok live (by_tag_e ix) e_keys;
  so_tag_p : bucket_ok live (by_tag_p ix) p_keys;
  so_tag_other : bucket_ok live (by_tag_other ix) other_keys;
  so_oldest : bucket_ok live (by_oldest ix) shard_keys;
  so_shards : length (by_oldest ix) = Z.to_nat OLDEST_SHARDS;
}.

Record wf_index (ix : EventIndex) : Prop := {
  wf_by_id : forall i e, by_id ix !! i = Some e -> ev_id e = i /\ genuine core_of e;
  wf_secondary : secondary_ok (dom (by_id ix)) ix;
  wf_replaceable : replaceable_ok ix;
  wf_tombs : tombs_ok (tombstones ix);
  wf_count : event_count ix = wrap64 (Z.of_nat (size (by_id ix)));
}.

(** No stored event is tombstoned. *)
Definition no_zombies (ix : EventIndex) : Prop :=
  forall id, is_tombstoned ix id = true -> by_id ix !! id = None.

(** [keys] only looks at what the id determines. *)
Definition stable {K} (keys : Event -> list K) : Prop :=
  forall e e', ev_id e = ev_id e' -> core e = core e' -> keys e = keys e'.

(** ** Buckets *)

Lemma genuine_cmp e e' :
  genuine core_of e -> genuine core_of e' ->
  cmp (event_ref e) (event_ref e') = Eq <-> ev_id e = ev_id e'.
Proof.
  unfold genuine. intros He He'. rewrite er_cmp_eq. simpl. split; [naive_solver|].
  intros E. split; [|done]. rewrite E, <- He' in He. by injection He.
Qed.

Lemma genuine_stable {K} (keys : Event -> list K) e e' :
  stable keys -> genuine core_of e -> genuine core_of e' -> ev_id e = ev_id e' ->
  keys e = keys e'.
Proof. unfold genuine. intros Hs He He' E. apply Hs; [done|]. congruence. Qed.

Lemma stable_keys :
  stable pubkey_keys /\ stable kind_keys /\ stable e_keys /\ stable p_keys
  /\ stable other_keys /\ stable shard_keys.
Proof.
  unfold stable, pubkey_keys, kind_keys, e_keys, p_keys, other_keys, shard_keys,
    e_tags, p_tags.
  split_and!; intros e e' Hid [=]; congruence.
Qed.

Lemma genuine_key e e' :
  genuine core_of e -> genuine core_of e' -> ev_id e = ev_id e' ->
  replacement_key e = replacement_key e' /\ is_replaceable e = is_replaceable e'.
Proof.
  unfold genuine, replacement_key, is_replaceable. intros He He' E.
  rewrite E, <- He' in He. injection He as E1 _ E2 E3.
  rewrite E1, E2, E3. done.
Qed.

Section Bucket.
Context {M K : Type} `{BucketLaws M K} (keys : Event -> list K) (Hst : stable keys).
Implicit Types (m : M) (live : gset bytes).

Lemma bucket_ok_add live m e :
  bucket_ok live m keys -> genuine core_of e -> ev_id e ∉ live ->
  bucket_ok ({[ev_id e]} ∪ live) (bk_add_all m (keys e) (event_ref e)) keys.
Proof.
  intros [Hv Hs Hso Hco] He Hfresh.
  assert (forall k z, z ∈ bk_get m k -> cmp (event_ref e) z <> Eq) as Hne.
  { intros k z Hz. destruct (Hso _ _ Hz) as ([-> Hg] & Hl & _). intros E.
    apply genuine_cmp in E; [|done|done]. simpl in Hl. congruence. }
  split.
  - intros e' k Hk. by apply bk_valid_add_all, (Hv e').
  - intros k. rewrite bk_get_add_all by eauto. case_decide; [|done].
    by apply bt_insert_sorted.
  - intros k er. rewrite bk_get_add_all by eauto. intros Hin.
    assert ((er = event_ref e /\ k ∈ keys e) \/ er ∈ bk_get m k) as [[-> ?]|Hin'].
    { case_decide; [|by auto]. apply elem_of_bt_insert in Hin; naive_solver. }
    + split_and!; [done|set_solver|done].
    + destruct (Hso _ _ Hin') as (? & ? & ?). split_and!; [done|set_solver|done].
  - intros e' k He' Hl Hk. rewrite bk_get_add_all by eauto.
    destruct (decide (ev_id e' = ev_id e)) as [E|E].
    + rewrite (genuine_stable keys e' e) in Hk by done.
      rewrite decide_True by done. exists (event_ref e). split; [|by rewrite E].
      rewrite elem_of_bt_insert by eauto. by left.
    + destruct (Hco e' k He') as (er & Her & Hid); [set_solver|done|].
      exists er. split; [|done]. case_decide; [|done]. by apply elem_of_bt_insert_2.
Qed.

Lemma bucket_ok_del live m e :
  bucket_ok live m keys -> genuine core_of e ->
  bucket_ok (live ∖ {[ev_id e]}) (bk_del_all m (keys e) (event_ref e)) keys.
Proof.
  intros [Hv Hs Hso Hco] He.
  assert (forall k er, er ∈ bk_get m k ->
    cmp (event_ref e) er = Eq <-> er_id er = ev_id e) as Heq.
  { intros k er Hin. destruct (Hso _ _ Hin) as ([-> Hg] & _). simpl.
    rewrite genuine_cmp by done. naive_solver. }
  assert (forall k er, er ∈ bk_get (bk_del_all m (keys e) (event_ref e)) k <->
    er ∈ bk_get m k /\ er_id er <> ev_id e) as Hmem.
  { intros k er. rewrite bk_get_del_all by eauto. case_decide as Hk.
    - rewrite elem_of_bt_remove by done. split; intros [Hin Hne]; (split; [done|]);
        by rewrite Heq in *.
    - split; [|naive_solver]. intros Hin. split; [done|]. intros E.
      destruct (Hso _ _ Hin) as ([Her Hg] & _ & Hk'). rewrite Her in E. simpl in E.
      by rewrite (genuine_stable keys _ e) in Hk'. }
  split.
  - intros e' k Hk. by apply bk_valid_del_all, (Hv e').
  - intros k. rewrite bk_get_del_all by eauto. case_decide; [|done].
    by apply bt_remove_sorted.
  - intros k er [Hin Hne]%Hmem. destruct (Hso _ _ Hin) as (? & ? & ?).
    split_and!; [done| |done]. by apply elem_of_difference, conj, not_elem_of_singleton.
  - intros e' k He' [Hl Hn%not_elem_of_singleton]%elem_of_difference Hk.
    destruct (Hco e' k He' Hl Hk) as (er & Her & Hid).
    exists er. split; [|done]. apply Hmem. by rewrite Hid.
Qed.
End Bucket.

Lemma length_bk_add_all (m : list (list EventRef)) ks er :
  length (bk_add_all m ks er) = length m.
Proof.
  revert m; induction ks as [|k ks IH]; intros m; simpl; [done|].
  by rewrite IH, length_insert.
Qed.

Lemma length_bk_del_all (m : list (list EventRef)) ks er :
  length (bk_del_all m ks er) = length m.
Proof.
  revert m; induction ks as [|k ks IH]; intros m; simpl; [done|].
  by rewrite IH, length_insert.
Qed.

Lemma secondary_ok_add live ix e :
  secondary_ok live ix -> genuine core_of e -> ev_id e ∉ live ->
  secondary_ok ({[ev_id e]} ∪ live) (add_secondary_indexes ix e).
Proof.
  intros [] He Hf. destruct stable_keys as (? & ? & ? & ? & ? & ?).
  split; try (by apply bucket_ok_add). etransitivity; [apply length_bk_add_all|done].
Qed.

Lemma secondary_ok_del live ix e :
  secondary_ok live ix -> genuine core_of e ->
  secondary_ok (live ∖ {[ev_id e]}) (cleanup_secondary_indexes ix e).
Proof.
  intros [] He. destruct stable_keys as (? & ? & ? & ? & ? & ?).
  split; try (by apply bucket_ok_del). etransitivity; [apply length_bk_del_all|done].
Qed.

(** [secondary_ok] only looks at the secondary indexes. *)
Lemma secondary_ok_ext live ix ix' :
  by_pubkey ix = by_pubkey ix' -> by_kind ix = by_kind ix' ->
  by_tag_e ix = by_tag_e ix' -> by_tag_p ix = by_tag_p ix' ->
  by_tag_other ix = by_tag_other ix' -> by_oldest ix = by_oldest ix' ->
  secondary_ok live ix -> secondary_ok live ix'.
Proof. intros E1 E2 E3 E4 E5 E6 []. split; congruence. Qed.

(** ** The operations, field by field *)

Lemma internal_remove_by_id ix id b :
  by_id (internal_remove ix id b).1 = delete id (by_id ix).
Proof.
  unfold internal_remove. destruct (by_id ix !! id) eqn:E; simpl.
  - by destruct (_ && _).
  - by rewrite delete_id.
Qed.

Lemma internal_remove_result ix id b :
  (internal_remove ix id b).2 = by_id ix !! id.
Proof. unfold internal_remove. by destruct (by_id ix !! id). Qed.

Lemma internal_remove_replaceable ix id :
  by_replaceable (internal_remove ix id true).1 = by_replaceable ix.
Proof. unfold internal_remove. by destruct (by_id ix !! id). Qed.

Lemma internal_remove_tombstones ix id b :
  tombstones (internal_remove ix id b).1 = tombstones ix.
Proof. unfold internal_remove. destruct (by_id ix !! id); [|done]. simpl. by destruct (_ && _). Qed.

Lemma size_delete_pred {A} (m : gmap bytes A) i x :
  m !! i = Some x -> Z.of_nat (size (delete i m)) = (Z.of_nat (size m) - 1)%Z.
Proof.
  intros E. rewrite map_size_delete_Some by eauto.
  assert (size m <> 0); [|lia]. intros H0%map_size_empty_inv. by rewrite H0 in E.
Qed.

(** ** Preservation *)

Lemma oldest_shard_lt id : oldest_shard id < Z.to_nat OLDEST_SHARDS.
Proof.
  unfold oldest_shard. apply Z2Nat.inj_lt; try apply Z.mod_pos_bound; done.
Qed.

Lemma bucket_ok_empty {M K} `{BucketMap M K} (m : M) (keys : Event -> list K) :
  (forall e k, k ∈ keys e -> bk_valid m k) -> (forall k, bk_get m k = []) ->
  bucket_ok ∅ m keys.
Proof.
  intros Hv Hg. split; [done| | |].
  - intros k. rewrite Hg. constructor.
  - intros k er. rewrite Hg. set_solver.
  - set_solver.
Qed.

Lemma wf_index_new : wf_index index_new.
Proof.
  split; [done| |by split|apply tombs_ok_new|done].
  change (dom (by_id index_new)) with (∅ : gset bytes).
  split; try (by apply bucket_ok_empty); [|by apply length_replicate].
  apply bucket_ok_empty.
  - unfold shard_keys. intros e k ->%list_elem_of_singleton. apply oldest_shard_lt.
  - intros k. unfold bk_get, shard_buckets, index_new, by_oldest.
    destruct (_ !! k) eqn:E; [|done]. by apply lookup_replicate in E as [-> _].
Qed.

Lemma wf_internal_remove ix id b :
  wf_index ix -> wf_index (internal_remove ix id b).1.
Proof.
  intros Hwf. pose proof Hwf as [Hid Hsec [Hr1 Hr2] Ht Hc].
  pose proof (internal_remove_by_id ix id b) as Hby.
  destruct (by_id ix !! id) as [e|] eqn:E;
    [|unfold internal_remove; by rewrite E].
  destruct (Hid _ _ E) as [<- He]. split; rewrite ?Hby.
  - intros i e' [_ ?]%lookup_delete_Some. eauto.
  - unfold internal_remove. rewrite E. simpl. rewrite dom_delete_L.
    apply secondary_ok_del; [|done]. revert Hsec. apply secondary_ok_ext;
      by destruct (_ && _).
  - unfold replaceable_ok. rewrite Hby. unfold internal_remove. rewrite E. simpl.
    destruct (negb b && is_replaceable e) eqn:Eb; simpl; split.
    + intros i e' [Hne Hi]%lookup_delete_Some Hrep.
      apply andb_true_iff in Eb as [_ Hrep'].
      pose proof (Hr1 _ _ E Hrep') as P. pose proof (Hr1 _ _ Hi Hrep) as P'.
      rewrite lookup_delete_ne by congruence. done.
    + intros k i e' [_ ?]%lookup_delete_Some. eauto.
    + intros i e' [Hne Hi]%lookup_delete_Some. eauto.
    + eauto.
  - by rewrite internal_remove_tombstones.
  - unfold internal_remove. rewrite E. simpl.
    replace (event_count _) with (fetch_sub (event_count ix) 1) by by destruct (_ && _).
    rewrite Hc, fetch_sub_wrap. by erewrite size_delete_pred.
Qed.

Lemma wf_tombstone ix id : wf_index ix -> wf_index (index_tombstone ix id).
Proof.
  intros [? Hsec ? Ht ?]. split; try done; [|by apply tombs_ok_insert].
  revert Hsec. by apply secondary_ok_ext.
Qed.

Lemma wf_delete_by_id ix id : wf_index ix -> wf_index (delete_by_id ix id).1.
Proof.
  intros Hwf. unfold delete_by_id.
  pose proof (wf_internal_remove ix id false Hwf) as Hwf'.
  destruct (internal_remove ix id false) as [ix1 r]. by apply wf_tombstone.
Qed.

(** A stored event with [e]'s replacement key is the one its key points at. *)
Lemma slot_unique ix e i e' :
  wf_index ix -> is_replaceable e = true -> by_id ix !! i = Some e' ->
  replacement_key e' = replacement_key e ->
  by_replaceable ix !! replacement_key e = Some i.
Proof.
  intros Hwf He Hi Hk. rewrite <- Hk. apply (wf_replaceable _ Hwf); [done|].
  destruct (is_replaceable e') eqn:E; [done|].
  apply replacement_key_none in E. rewrite E in Hk. symmetry in Hk.
  apply replacement_key_none in Hk. congruence.
Qed.

(** Pointing [e]'s key at [e] and removing the key's previous owner. *)
Lemma wf_take_slot ix e old_id :
  wf_index ix -> genuine core_of e -> is_replaceable e = true ->
  (forall i e', by_id ix !! i = Some e' -> replacement_key e' = replacement_key e ->
     i = old_id) ->
  wf_index (internal_remove
    (with_by_replaceable (<[replacement_key e := ev_id e]> (by_replaceable ix)) ix)
    old_id true).1.
Proof.
  intros Hwf He Hrep Honly.
  set (ix1 := with_by_replaceable _ _).
  assert (by_id ix1 = by_id ix) as Hby by done.
  pose proof (wf_replaceable _ Hwf) as [Hr1 Hr2].
  pose proof (wf_internal_remove ix old_id true Hwf) as [Hid' Hsec' Hrep' Ht' Hc'].
  rewrite internal_remove_by_id in *. split; rewrite ?internal_remove_by_id, ?Hby; try done.
  - revert Hsec'. unfold internal_remove. rewrite Hby.
    destruct (by_id ix !! old_id); by apply secondary_ok_ext.
  - split; rewrite internal_remove_replaceable; simpl.
    + intros i e'. rewrite internal_remove_by_id, Hby.
      intros [Hne Hi]%lookup_delete_Some Hr. rewrite lookup_insert_ne; [by eauto|].
      intros Hk. apply Hne. symmetry. by eapply Honly.
    + intros k i e'. rewrite lookup_insert. case_decide as Hk; [|by eauto].
      intros [= <-] Hid He'. subst k. by apply genuine_key.
  - by rewrite internal_remove_tombstones in *.
  - revert Hc'. unfold internal_remove. rewrite Hby. by destruct (by_id ix !! old_id).
Qed.

(** [claim_replaceable] without the case split on the key's constructor. *)
Definition take_slot (ix : EventIndex) (e : Event) : EventIndex :=
  with_by_replaceable (<[replacement_key e := ev_id e]> (by_replaceable ix)) ix.

Lemma claim_replaceable_eq ix e :
  claim_replaceable ix e =
  if is_replaceable e then
    match by_replaceable ix !! replacement_key e with
    | Some old_id =>
        if incoming_wins ix e old_id
        then Some (internal_remove (take_slot ix e) old_id true) else None
    | None => Some (take_slot ix e, None)
    end
  else Some (ix, None).
Proof.
  unfold claim_replaceable, take_slot. destruct (is_replaceable e) eqn:Hr; [|done].
  pose proof (replacement_key_none e) as Hn.
  destruct (replacement_key e) eqn:Hk; [naive_solver congruence| |];
    (destruct (_ !! _); [by destruct (incoming_wins _ _ _)|done]).
Qed.

(** Nobody owns a key that points nowhere. *)
Lemma slot_vacant ix e :
  wf_index ix -> genuine core_of e -> is_replaceable e = true ->
  by_replaceable ix !! replacement_key e = None -> by_id ix !! ev_id e = None.
Proof.
  intros Hwf He Hr Hp. destruct (by_id ix !! ev_id e) as [e'|] eqn:E; [|done].
  destruct (wf_by_id _ Hwf _ _ E) as [Hid He'].
  destruct (genuine_key e' e) as [Hk _]; [done..|].
  pose proof (slot_unique ix e _ e' Hwf Hr E Hk). congruence.
Qed.

Lemma wf_claim ix e ix1 r :
  wf_index ix -> genuine core_of e -> claim_replaceable ix e = Some (ix1, r) ->
  wf_index ix1.
Proof.
  intros Hwf He. rewrite claim_replaceable_eq.
  destruct (is_replaceable e) eqn:Hrep; [|by intros [= <- _]].
  destruct (by_replaceable ix !! replacement_key e) as [old_id|] eqn:Eo.
  - destruct (incoming_wins _ _ _); [|done]. intros [= E].
    replace ix1 with (internal_remove (take_slot ix e) old_id true).1 by by rewrite E.
    apply wf_take_slot; try done. intros i e' Hi Hk.
    pose proof (slot_unique _ _ _ _ Hwf Hrep Hi Hk). congruence.
  - intros [= <- <-].
    replace (take_slot ix e) with (internal_remove (take_slot ix e) (ev_id e) true).1
      by (unfold internal_remove; simpl; by rewrite (slot_vacant ix e)).
    apply wf_take_slot; try done. intros i e' Hi Hk.
    pose proof (slot_unique _ _ _ _ Hwf Hrep Hi Hk). congruence.
Qed.

(** What holds between claiming the key and filing the event. *)
Lemma claim_facts ix e ix1 r :
  wf_index ix -> genuine core_of e -> claim_replaceable ix e = Some (ix1, r) ->
  (is_replaceable e = true -> by_replaceable ix1 !! replacement_key e = Some (ev_id e))
  /\ tombstones ix1 = tombstones ix.
Proof.
  intros Hwf He. rewrite claim_replaceable_eq.
  destruct (is_replaceable e) eqn:Hrep; [|by intros [= <- _]].
  destruct (by_replaceable ix !! replacement_key e) as [old_id|].
  - destruct (incoming_wins _ _ _); [|done]. intros [= E].
    replace ix1 with (internal_remove (take_slot ix e) old_id true).1 by by rewrite E.
    rewrite internal_remove_replaceable, internal_remove_tombstones. simpl.
    by rewrite lookup_insert_eq.
  - intros [= <- <-]. simpl. by rewrite lookup_insert_eq.
Qed.

(** ** [insert], without the re-checks

    The two re-checks at the end of [EventIndex::insert] guard against
    concurrent removals; in a run without interference they never fire. *)
Definition file_event (ix : EventIndex) (e : Event) : EventIndex :=
  add_secondary_indexes
    (with_counters (fetch_add (memory_bytes ix) (raw_len e))
       (fetch_add (event_count ix) 1)
       (with_by_id (<[ev_id e := e]> (by_id ix)) ix)) e.

Lemma is_still_winner_true ix e :
  by_replaceable ix !! replacement_key e = Some (ev_id e) ->
  is_still_winner ix e = true.
Proof.
  unfold is_still_winner. intros E. destruct (replacement_key e); [done| |];
    rewrite E; by apply bool_decide_eq_true.
Qed.

Lemma index_insert_eq ix e :
  wf_index ix -> genuine core_of e ->
  index_insert ix e =
  if is_tombstoned ix (ev_id e) then (ix, Deleted) else
  match claim_replaceable ix e with
  | None => (ix, LostRace)
  | Some (ix1, replaced) =>
      match by_id ix1 !! ev_id e with
      | Some _ => (with_by_id (<[ev_id e := e]> (by_id ix1)) ix1, Duplicate)
      | None => (file_event ix1 e, Inserted replaced)
      end
  end.
Proof.
  intros Hwf He. unfold index_insert, is_tombstoned.
  destruct (tombstones_contains _ _); [done|].
  destruct (claim_replaceable ix e) as [[ix1 r]|] eqn:Ec; [|done].
  destruct (claim_facts _ _ _ _ Hwf He Ec) as [Hw _].
  destruct (by_id ix1 !! ev_id e) eqn:Ei; [by rewrite bool_decide_true|].
  rewrite bool_decide_false by (by intros []). simpl by_id. rewrite lookup_insert_eq.
  rewrite (bool_decide_true (is_Some _)) by done. simpl negb. cbn match.
  destruct (is_replaceable e) eqn:Hr; [|done].
  rewrite !is_still_winner_true by (by apply Hw). done.
Qed.

Lemma wf_file_event ix e :
  wf_index ix -> genuine core_of e -> by_id ix !! ev_id e = None ->
  (is_replaceable e = true -> by_replaceable ix !! replacement_key e = Some (ev_id e)) ->
  wf_index (file_event ix e).
Proof.
  intros [Hid Hsec [Hr1 Hr2] Ht Hc] He Hnew Hw. split; simpl.
  - intros i e' [[<- <-]|[_ ?]]%lookup_insert_Some; [done|by eauto].
  - rewrite dom_insert_L. apply secondary_ok_add; [|done|by apply not_elem_of_dom].
    revert Hsec. by apply secondary_ok_ext.
  - split; simpl; [|done].
    intros i e' [[<- <-]|[_ ?]]%lookup_insert_Some; by eauto.
  - done.
  - rewrite Hc, fetch_add_wrap, map_size_insert_None by done. f_equal. lia.
Qed.

Lemma wf_overwrite ix e :
  wf_index ix -> genuine core_of e -> is_Some (by_id ix !! ev_id e) ->
  wf_index (with_by_id (<[ev_id e := e]> (by_id ix)) ix).
Proof.
  intros [Hid Hsec [Hr1 Hr2] Ht Hc] He [old Hold].
  destruct (Hid _ _ Hold) as [Hio Ho].
  destruct (genuine_key e old) as [Hk Hrp]; [done..|]. split; simpl.
  - intros i e' [[<- <-]|[_ ?]]%lookup_insert_Some; [done|by eauto].
  - rewrite dom_insert_lookup_L by eauto. revert Hsec. by apply secondary_ok_ext.
  - split; simpl; [|done]. intros i e' [[<- <-]|[_ ?]]%lookup_insert_Some; [|by eauto].
    rewrite Hk, Hrp. by eauto.
  - done.
  - by rewrite Hc, map_size_insert_Some by eauto.
Qed.

Lemma wf_index_insert ix e :
  wf_index ix -> genuine core_of e -> wf_index (index_insert ix e).1.
Proof.
  intros Hwf He. rewrite index_insert_eq by done.
  destruct (is_tombstoned _ _); [done|].
  destruct (claim_replaceable ix e) as [[ix1 r]|] eqn:Ec; [|done].
  pose proof (wf_claim _ _ _ _ Hwf He Ec) as Hwf1.
  destruct (claim_facts _ _ _ _ Hwf He Ec) as [Hw _].
  destruct (by_id ix1 !! ev_id e) eqn:Ei; simpl;
    [by apply wf_overwrite|by apply wf_file_event].
Qed.
End Invariant.

#[export] Hint Resolve wf_index_new wf_internal_remove wf_tombstone
  wf_delete_by_id wf_index_insert : memlay.
