(* ===== verification/IndexSpec.v ===== *)
(** What the event index promises its callers, as an abstract machine: a finite
    map of stored events and the FIFO of deleted ids, with no secondary
    structure, no pointer index and no counters. The theorems say that every
    run of the index answers as the machine does, that the invariant of
    [IndexInv.v] holds throughout, and when the byte accounting is exact. *)
From S2P Require Import Prelude Collections Event Reference Tombstones Index IndexInv.

(** * Runs of the index *)

(** The operations a client can issue. [OpReplayTombstone] is the pair of calls
    WAL replay makes for a tombstone record. *)
Inductive op :=
| OpInsert (e : Event)
| OpRemove (id : bytes)
| OpDelete (id : bytes)
| OpReplayTombstone (id : bytes).

Inductive answer :=
| AnsInsert (o : InsertOutcome)
| AnsRemoved (e : option Event).

Section Runs.
Context `{HexCrate}.

Definition exec (ix : EventIndex) (o : op) : EventIndex * answer :=
  match o with
  | OpInsert e => let '(ix', r) := index_insert ix e in (ix', AnsInsert r)
  | OpRemove id => let '(ix', r) := index_remove ix id in (ix', AnsRemoved r)
  | OpDelete id => let '(ix', r) := delete_by_id ix id in (ix', AnsRemoved r)
  | OpReplayTombstone id =>
      let '(ix', r) := index_remove (index_tombstone ix id) id in (ix', AnsRemoved r)
  end.

Fixpoint exec_all (ix : EventIndex) (ops : list op) : EventIndex * list answer :=
  match ops with
  | [] => (ix, [])
  | o :: ops =>
      let '(ix1, a) := exec ix o in
      let '(ix2, l) := exec_all ix1 ops in (ix2, a :: l)
  end.

Definition op_genuine (core_of : bytes -> Core) (o : op) : Prop :=
  match o with OpInsert e => genuine core_of e | _ => True end.
End Runs.

(** * The abstract machine *)

Module Abstract.
Record state := mkState {
  events : gmap bytes Event;
  dead : list bytes;
}.

Definition init : state := mkState ∅ [].

(** The stored event that occupies [e]'s replacement slot. *)
Definition slot_of (m : gmap bytes Event) (e : Event) : option Event :=
  if is_replaceable e
  then head (filter (fun old => replacement_key old = replacement_key e)
               (map_to_list m).*2)
  else None.

(** NIP-01: the newer event wins, ties go to the lower id. *)
Definition supersedes (e old : Event) : bool :=
  (ev_created_at e >? ev_created_at old)%Z
  || ((ev_created_at e =? ev_created_at old)%Z && bytes_ltb (ev_id e) (ev_id old)).

Definition insert (s : state) (e : Event) : state * InsertOutcome :=
  if Spec.contains (dead s) (ev_id e) then (s, Deleted) else
  match slot_of (events s) e with
  | Some old =>
      if supersedes e old
      then (mkState (<[ev_id e := e]> (delete (ev_id old) (events s))) (dead s),
            Inserted (Some old))
      else (s, LostRace)
  | None =>
      (mkState (<[ev_id e := e]> (events s)) (dead s),
       match events s !! ev_id e with Some _ => Duplicate | None => Inserted None end)
  end.

Definition remove (s : state) (id : bytes) : state * option Event :=
  (mkState (delete id (events s)) (dead s), events s !! id).

Definition kill (s : state) (id : bytes) : state * option Event :=
  (mkState (delete id (events s)) (Spec.insert (dead s) id), events s !! id).

Definition exec (s : state) (o : op) : state * answer :=
  match o with
  | OpInsert e => let '(s', r) := insert s e in (s', AnsInsert r)
  | OpRemove id => let '(s', r) := remove s id in (s', AnsRemoved r)
  | OpDelete id => let '(s', r) := kill s id in (s', AnsRemoved r)
  | OpReplayTombstone id => let '(s', r) := kill s id in (s', AnsRemoved r)
  end.

Fixpoint exec_all (s : state) (ops : list op) : state * list answer :=
  match ops with
  | [] => (s, [])
  | o :: ops =>
      let '(s1, a) := exec s o in
      let '(s2, l) := exec_all s1 ops in (s2, a :: l)
  end.
End Abstract.

Definition abs (ix : EventIndex) : Abstract.state :=
  Abstract.mkState (by_id ix) (tombs_abs (tombstones ix)).

(** * Accounting *)

(** Bytes of raw JSON actually held. *)
Definition total_raw (m : gmap bytes Event) : Z :=
  map_fold (fun _ e acc => (raw_len e + acc)%Z) 0%Z m.

Definition mem_exact (ix : EventIndex) : Prop :=
  memory_bytes ix = wrap64 (total_raw (by_id ix)).

(** * Lemmas *)

Section Refinement.
Context `{HexCrate} (core_of : bytes -> Core).
Abbreviation wf := (wf_index core_of).

Lemma slot_of_spec ix e :
  wf ix -> is_replaceable e = true ->
  (forall e', by_replaceable ix !! replacement_key e = Some (ev_id e') ->
     by_id ix !! ev_id e' = Some e' -> replacement_key e' = replacement_key e) ->
  Abstract.slot_of (by_id ix) e =
    by_replaceable ix !! replacement_key e ≫= fun old_id => by_id ix !! old_id.
Proof.
  intros Hwf Hr Hkey. unfold Abstract.slot_of. rewrite Hr.
  set (l := filter _ _).
  assert (forall x, x ∈ l <-> by_id ix !! ev_id x = Some x /\
    replacement_key x = replacement_key e) as Hl.
  { intros x. unfold l. rewrite list_elem_of_filter, list_elem_of_fmap. split.
    - intros [Hk ([i y] & -> & Hi%elem_of_map_to_list)]. simpl in *.
      by destruct (wf_by_id _ _ Hwf _ _ Hi) as [-> _].
    - intros [Hi Hk]. split; [done|]. exists (ev_id x, x).
      by rewrite elem_of_map_to_list. }
  destruct l as [|x l'] eqn:El; simpl.
  - destruct (by_replaceable ix !! _) as [i|] eqn:Ep; simpl; [|done].
    destruct (by_id ix !! i) as [e'|] eqn:Ei; [|done].
    destruct (wf_by_id _ _ Hwf _ _ Ei) as [<- _].
    assert (e' ∈ []) as Hin; [|by apply elem_of_nil in Hin]. apply Hl. auto.
  - destruct (proj1 (Hl x)) as [Hx Hk]; [by left|].
    by rewrite (slot_unique core_of ix e (ev_id x) x).
Qed.

Lemma slot_of_wf ix e :
  wf ix -> is_replaceable e = true ->
  Abstract.slot_of (by_id ix) e =
    by_replaceable ix !! replacement_key e ≫= fun old_id => by_id ix !! old_id.
Proof.
  intros Hwf Hr. apply slot_of_spec; [done..|]. intros e' Hp Hi.
  destruct (wf_by_id _ _ Hwf _ _ Hi) as [_ He'].
  by apply (wf_replaceable _ _ Hwf) with (ev_id e').
Qed.

(** The slot's owner leaves; nobody else holds [e]'s id. *)
Lemma slot_owner_only ix e old :
  wf ix -> genuine core_of e -> Abstract.slot_of (by_id ix) e = Some old ->
  by_id ix !! ev_id old = Some old
  /\ (ev_id e <> ev_id old -> by_id ix !! ev_id e = None).
Proof.
  intros Hwf He Hs. assert (is_replaceable e = true) as Hr.
  { unfold Abstract.slot_of in Hs. by destruct (is_replaceable e). }
  rewrite slot_of_wf in Hs by done.
  destruct (by_replaceable ix !! _) as [i|] eqn:Ep; simplify_eq/=.
  destruct (wf_by_id _ _ Hwf _ _ Hs) as [<- Ho]. split; [done|]. intros Hne.
  destruct (by_id ix !! ev_id e) as [e'|] eqn:E; [|done].
  destruct (wf_by_id _ _ Hwf _ _ E) as [Hid He'].
  destruct (genuine_key core_of e' e) as [Hk _]; [done..|].
  pose proof (slot_unique core_of ix e _ e' Hwf Hr E Hk). congruence.
Qed.

Lemma insert_refines ix e :
  wf ix -> genuine core_of e ->
  (abs (index_insert ix e).1, (index_insert ix e).2) = Abstract.insert (abs ix) e.
Proof.
  intros Hwf He. rewrite (index_insert_eq core_of) by done. unfold Abstract.insert.
  unfold is_tombstoned. rewrite tombs_contains_spec by apply Hwf. simpl.
  destruct (Spec.contains _ _); [done|]. rewrite claim_replaceable_eq.
  destruct (is_replaceable e) eqn:Hr; cycle 1.
  { unfold Abstract.slot_of. rewrite Hr. by destruct (by_id ix !! ev_id e). }
  destruct (by_replaceable ix !! replacement_key e) as [old_id|] eqn:Ep; cycle 1.
  { rewrite slot_of_wf, Ep by done. simpl. by rewrite (slot_vacant core_of ix e). }
  unfold incoming_wins. destruct (by_id ix !! old_id) as [old|] eqn:Eo.
  - assert (Abstract.slot_of (by_id ix) e = Some old) as Hs
      by (rewrite slot_of_wf, Ep by done; done).
    rewrite Hs. destruct (slot_owner_only _ _ _ Hwf He Hs) as [Hold Honly].
    destruct (wf_by_id _ _ Hwf _ _ Eo) as [<- _].
    fold (Abstract.supersedes e old).
    destruct (Abstract.supersedes e old) eqn:Esup; [|done].
    pose proof (internal_remove_by_id (take_slot ix e) (ev_id old) true) as Hby.
    pose proof (internal_remove_result (take_slot ix e) (ev_id old) true) as Hres.
    pose proof (internal_remove_tombstones (take_slot ix e) (ev_id old) true) as Ht.
    destruct (internal_remove _ _ _) as [ix1 r]. simpl in *.
    assert (by_id ix1 !! ev_id e = None) as ->.
    { rewrite Hby. destruct (decide (ev_id e = ev_id old)) as [->|Hne];
        [apply lookup_delete_eq|]. rewrite lookup_delete_ne by done. by apply Honly. }
    unfold abs. simpl. rewrite Hby, Ht, Hres. by rewrite Eo.
  - rewrite slot_of_wf, Ep by done. simpl. rewrite Eo.
    unfold internal_remove. change (by_id (take_slot ix e)) with (by_id ix).
    rewrite Eo. change (by_id (take_slot ix e)) with (by_id ix).
    by destruct (by_id ix !! ev_id e).
Qed.

Lemma remove_refines ix id b :
  (abs (internal_remove ix id b).1, (internal_remove ix id b).2)
  = Abstract.remove (abs ix) id.
Proof.
  unfold abs, Abstract.remove. rewrite internal_remove_by_id, internal_remove_tombstones.
  by rewrite internal_remove_result.
Qed.

Lemma exec_refines ix o :
  wf ix -> op_genuine core_of o ->
  (abs (exec ix o).1, (exec ix o).2) = Abstract.exec (abs ix) o.
Proof.
  intros Hwf Ho. destruct o as [e|id|id|id]; simpl.
  - rewrite <- insert_refines by done. by destruct (index_insert ix e).
  - pose proof (remove_refines ix id true) as E. unfold index_remove.
    unfold Abstract.remove in *. destruct (internal_remove ix id true) as [ix1 r].
    simpl in *. injection E as E1 E2 E3. unfold abs. by rewrite E1, E2, E3.
  - pose proof (remove_refines ix id false) as E. unfold delete_by_id, Abstract.kill.
    pose proof (internal_remove_tombstones ix id false) as Ht.
    unfold Abstract.remove in E. destruct (internal_remove ix id false) as [ix1 r].
    simpl in *. injection E as E1 E2 E3. unfold abs. simpl. rewrite E1, E3, Ht.
    by rewrite (proj2 (tombs_insert_spec _ _ (wf_tombs _ _ Hwf))).
  - pose proof (remove_refines (index_tombstone ix id) id true) as E.
    unfold index_remove, Abstract.kill. unfold Abstract.remove in E.
    destruct (internal_remove _ _ _) as [ix1 r]. simpl in *. injection E as E1 E2 E3.
    unfold abs. rewrite E1, E2, E3.
    by rewrite (proj2 (tombs_insert_spec _ _ (wf_tombs _ _ Hwf))).
Qed.

Lemma wf_exec ix o : wf ix -> op_genuine core_of o -> wf (exec ix o).1.
Proof.
  intros Hwf Ho. destruct o as [e|id|id|id]; simpl.
  - pose proof (wf_index_insert core_of ix e Hwf Ho). by destruct (index_insert ix e).
  - pose proof (wf_internal_remove core_of ix id true Hwf).
    unfold index_remove. by destruct (internal_remove ix id true).
  - pose proof (wf_delete_by_id core_of ix id Hwf). by destruct (delete_by_id ix id).
  - pose proof (wf_internal_remove core_of _ id true (wf_tombstone core_of ix id Hwf)).
    unfold index_remove. by destruct (internal_remove _ id true).
Qed.

Lemma exec_all_refines ops ix :
  wf ix -> Forall (op_genuine core_of) ops ->
  wf (exec_all ix ops).1 /\
  (abs (exec_all ix ops).1, (exec_all ix ops).2) = Abstract.exec_all (abs ix) ops.
Proof.
  revert ix; induction ops as [|o ops IH]; intros ix Hwf; [done|].
  intros [Ho Hops]%Forall_cons. simpl.
  pose proof (exec_refines ix o Hwf Ho) as Hr. pose proof (wf_exec ix o Hwf Ho) as Hw.
  destruct (exec ix o) as [ix1 a]. simpl in *. rewrite <- Hr.
  destruct (IH ix1 Hw Hops) as [Hw' Hr'].
  destruct (exec_all ix1 ops) as [ix2 l]. simpl in *. by rewrite <- Hr'.
Qed.
End Refinement.

(** ** Accounting *)

Lemma total_raw_insert m i e :
  m !! i = None -> total_raw (<[i := e]> m) = (raw_len e + total_raw m)%Z.
Proof. intros. unfold total_raw. rewrite map_fold_insert_L; [done|lia|done]. Qed.

Lemma total_raw_delete m i e :
  m !! i = Some e -> total_raw (delete i m) = (total_raw m - raw_len e)%Z.
Proof.
  intros E. rewrite <- (insert_delete_id m i e E) at 2.
  rewrite total_raw_insert by apply lookup_delete_eq. lia.
Qed.

Lemma total_raw_overwrite m i e old :
  m !! i = Some old ->
  total_raw (<[i := e]> m) = (total_raw m - raw_len old + raw_len e)%Z.
Proof.
  intros E. rewrite <- insert_delete_eq, total_raw_insert by apply lookup_delete_eq.
  rewrite (total_raw_delete m i old) by done. lia.
Qed.

Section Accounting.
Context `{HexCrate} (core_of : bytes -> Core).
Abbreviation wf := (wf_index core_of).

Lemma mem_exact_remove ix id b : mem_exact ix -> mem_exact (internal_remove ix id b).1.
Proof.
  unfold mem_exact. intros Hm. rewrite internal_remove_by_id. unfold internal_remove.
  destruct (by_id ix !! id) as [e|] eqn:E; simpl; [|by rewrite delete_id].
  transitivity (fetch_sub (memory_bytes ix) (raw_len e)); [by destruct (_ && _)|].
  by rewrite Hm, fetch_sub_wrap, (total_raw_delete _ _ e).
Qed.

Lemma mem_exact_claim ix e ix1 r :
  claim_replaceable ix e = Some (ix1, r) -> mem_exact ix -> mem_exact ix1.
Proof.
  rewrite claim_replaceable_eq. destruct (is_replaceable e); [|by intros [= <- _]].
  destruct (_ !! _) as [old_id|]; [|by intros [= <- _]].
  destruct (incoming_wins _ _ _); [|done]. intros [= E] Hm.
  replace ix1 with (internal_remove (take_slot ix e) old_id true).1 by by rewrite E.
  by apply mem_exact_remove.
Qed.

(** An insert keeps the accounting exact unless it overwrites a stored event by
    one of another length. *)
Lemma mem_exact_insert ix e :
  wf ix -> genuine core_of e -> mem_exact ix ->
  (forall old, by_id ix !! ev_id e = Some old -> raw_len old = raw_len e) ->
  mem_exact (index_insert ix e).1.
Proof.
  intros Hwf He Hm Hsame. rewrite (index_insert_eq core_of) by done.
  destruct (is_tombstoned _ _); [done|].
  destruct (claim_replaceable ix e) as [[ix1 r]|] eqn:Ec; [|done].
  pose proof (mem_exact_claim _ _ _ _ Ec Hm) as Hm1.
  destruct (by_id ix1 !! ev_id e) as [old|] eqn:Eo; simpl; unfold mem_exact in *; simpl.
  - rewrite (total_raw_overwrite _ _ e old), Hm1 by done. f_equal.
    assert (by_id ix !! ev_id e = Some old) as Ho; [|rewrite (Hsame old Ho); lia].
    revert Ec. rewrite claim_replaceable_eq. destruct (is_replaceable e); [|by intros [= <- _]].
    destruct (by_replaceable ix !! _) as [old_id|]; [|by intros [= <- _]].
    destruct (incoming_wins _ _ _); [|done]. intros [= E].
    pose proof (internal_remove_by_id (take_slot ix e) old_id true) as Hb.
    rewrite E in Hb. simpl in Hb. rewrite Hb in Eo. by apply lookup_delete_Some in Eo as [_ ?].
  - rewrite Hm1, fetch_add_wrap, total_raw_insert by done. f_equal. lia.
Qed.

Definition op_sized (len_of : bytes -> Z) (o : op) : Prop :=
  match o with OpInsert e => raw_len e = len_of (ev_id e) | _ => True end.

Definition stored_sized (len_of : bytes -> Z) (ix : EventIndex) : Prop :=
  map_Forall (fun i e => raw_len e = len_of i) (by_id ix).

Lemma stored_sized_insert len_of ix e :
  wf ix -> genuine core_of e -> raw_len e = len_of (ev_id e) ->
  stored_sized len_of ix -> stored_sized len_of (index_insert ix e).1.
Proof.
  intros Hwf He Hl Hs. pose proof (insert_refines core_of ix e Hwf He) as Hr.
  unfold stored_sized. apply (f_equal (fun p => Abstract.events p.1)) in Hr.
  simpl in Hr. rewrite Hr. unfold Abstract.insert.
  destruct (Spec.contains _ _); [done|]. destruct (Abstract.slot_of _ _).
  - destruct (Abstract.supersedes _ _); [|done]. simpl.
    apply map_Forall_insert_2; [done|]. by apply map_Forall_delete.
  - simpl. by apply map_Forall_insert_2.
Qed.

Lemma accounting_exec len_of ix o :
  wf ix -> op_genuine core_of o -> op_sized len_of o ->
  mem_exact ix -> stored_sized len_of ix ->
  mem_exact (exec ix o).1 /\ stored_sized len_of (exec ix o).1.
Proof.
  intros Hwf Ho Hz Hm Hs.
  assert (forall ix id b, stored_sized len_of ix ->
    stored_sized len_of (internal_remove ix id b).1) as Hdel.
  { intros ix' id b Hs'. unfold stored_sized. rewrite internal_remove_by_id.
    by apply map_Forall_delete. }
  destruct o as [e|id|id|id]; simpl in *.
  - pose proof (mem_exact_insert ix e Hwf Ho Hm) as Hm'.
    pose proof (stored_sized_insert len_of ix e Hwf Ho Hz Hs) as Hs'.
    destruct (index_insert ix e) as [ix' r]. split; [|done]. apply Hm'.
    intros old Hold. rewrite Hz. by apply (Hs _ _ Hold).
  - pose proof (mem_exact_remove ix id true Hm). pose proof (Hdel ix id true Hs).
    unfold index_remove. by destruct (internal_remove ix id true).
  - pose proof (mem_exact_remove ix id false Hm). pose proof (Hdel ix id false Hs).
    unfold delete_by_id. by destruct (internal_remove ix id false).
  - pose proof (mem_exact_remove (index_tombstone ix id) id true Hm).
    pose proof (Hdel (index_tombstone ix id) id true Hs).
    unfold index_remove. by destruct (internal_remove _ id true).
Qed.

Lemma accounting_exec_all len_of ops ix :
  wf ix -> Forall (op_genuine core_of) ops -> Forall (op_sized len_of) ops ->
  mem_exact ix -> stored_sized len_of ix -> mem_exact (exec_all ix ops).1.
Proof.
  revert ix; induction ops as [|o ops IH]; intros ix Hwf; [done|].
  intros [Ho Hops]%Forall_cons [Hz Hzs]%Forall_cons Hm Hs. simpl.
  destruct (accounting_exec len_of ix o) as [Hm' Hs']; [done..|].
  pose proof (wf_exec core_of ix o Hwf Ho) as Hw.
  destruct (exec ix o) as [ix1 a]. simpl in *.
  specialize (IH ix1 Hw Hops Hzs Hm' Hs'). by destruct (exec_all ix1 ops).
Qed.
End Accounting.

(** ** Latest wins *)

Lemma supersedes_irrefl e : Abstract.supersedes e e = false.
Proof.
  unfold Abstract.supersedes. rewrite bytes_ltb_irrefl, andb_false_r, orb_false_r.
  rewrite Z.gtb_ltb. apply Z.ltb_irrefl.
Qed.

Lemma supersedes_trans a b c :
  Abstract.supersedes a b = true -> Abstract.supersedes b c = true ->
  Abstract.supersedes a c = true.
Proof.
  unfold Abstract.supersedes, bytes_ltb. rewrite !orb_true_iff, !andb_true_iff.
  rewrite !Z.gtb_lt, !Z.eqb_eq. intros [?|[? Hab]] [?|[? Hbc]]; [left; lia..|].
  right. split; [lia|].
  destruct (bytes_cmp (ev_id a) (ev_id b)) eqn:E1; try done.
  destruct (bytes_cmp (ev_id b) (ev_id c)) eqn:E2; try done.
  by rewrite (bytes_cmp_lt_trans _ _ _ E1 E2).
Qed.

Section LatestWins.
Context `{HexCrate} (core_of : bytes -> Core).
Abbreviation wf := (wf_index core_of).

(** [w] is stored, occupies [e]'s slot and is not superseded by [e]. *)
Definition beats (ix : EventIndex) (e w : Event) : Prop :=
  by_id ix !! ev_id w = Some w /\ replacement_key w = replacement_key e
  /\ Abstract.supersedes e w = false.

(** A stored winner of another slot survives an insert. *)
Lemma beats_other ix e w x :
  wf ix -> genuine core_of x -> beats ix e w -> is_replaceable e = true ->
  replacement_key x <> replacement_key e -> beats (index_insert ix x).1 e w.
Proof.
  intros Hwf Hx (Hw & Hk & Hs) Hr Hne. split; [|done].
  pose proof (insert_refines core_of ix x Hwf Hx) as Hi.
  apply (f_equal (fun p => Abstract.events p.1)) in Hi. simpl in Hi. rewrite Hi. clear Hi.
  destruct (wf_by_id _ _ Hwf _ _ Hw) as [_ Hgw].
  assert (ev_id x <> ev_id w) as Hid.
  { intros E. destruct (genuine_key core_of x w) as [Hkk _]; [done..|]. congruence. }
  unfold Abstract.insert. destruct (Spec.contains _ _); [done|].
  destruct (Abstract.slot_of _ _) as [old|] eqn:Es; simpl;
    [|by rewrite lookup_insert_ne].
  destruct (Abstract.supersedes x old); [|done]. simpl.
  rewrite lookup_insert_ne, lookup_delete_ne; [done| |done].
  intros E. destruct (slot_owner_only core_of _ _ _ Hwf Hx Es) as [Hold _].
  rewrite E, Hw in Hold. injection Hold as <-.
  unfold Abstract.slot_of in Es. destruct (is_replaceable x); [|done].
  apply head_Some_elem_of, list_elem_of_filter in Es as [Hkx _]. simpl in Hkx. congruence.
Qed.

(** Inserting [x] into its own slot leaves a winner of [x] and of everything the
    previous winner beat. *)
Lemma beats_same ix x :
  wf ix -> genuine core_of x -> is_replaceable x = true ->
  is_tombstoned ix (ev_id x) = false ->
  exists w, beats (index_insert ix x).1 x w
    /\ (w = x \/ beats ix x w)
    /\ (forall e v, beats ix e v -> replacement_key e = replacement_key x ->
          beats (index_insert ix x).1 e w).
Proof.
  intros Hwf Hx Hr Ht.
  pose proof (insert_refines core_of ix x Hwf Hx) as Hi.
  apply (f_equal (fun p => Abstract.events p.1)) in Hi. simpl in Hi.
  unfold Abstract.insert in Hi. unfold is_tombstoned in Ht.
  rewrite tombs_contains_spec in Ht by apply Hwf. simpl in Hi. rewrite Ht in Hi.
  assert (forall e v, beats ix e v -> replacement_key e = replacement_key x ->
    Abstract.slot_of (by_id ix) x = Some v) as Hv.
  { intros e v (Hv & Hk & _) Hkx. rewrite (slot_of_wf core_of) by done.
    rewrite (slot_unique core_of ix x (ev_id v) v); [done..|congruence]. }
  destruct (Abstract.slot_of _ _) as [old|] eqn:Es; cycle 1.
  { exists x. split_and!; [|by left|].
    - split_and!; [|done|apply supersedes_irrefl]. rewrite Hi. apply lookup_insert_eq.
    - intros e v Hb Hk. by specialize (Hv e v Hb Hk). }
  assert (replacement_key old = replacement_key x) as Hko.
  { unfold Abstract.slot_of in Es. rewrite Hr in Es.
    by apply head_Some_elem_of, list_elem_of_filter in Es as [? _]. }
  destruct (slot_owner_only core_of _ _ _ Hwf Hx Es) as [Hold _].
  destruct (Abstract.supersedes x old) eqn:Esup; simpl in Hi.
  - exists x. split_and!; [|by left|].
    + split_and!; [|done|apply supersedes_irrefl]. rewrite Hi. apply lookup_insert_eq.
    + intros e v Hb Hk. pose proof (Hv e v Hb Hk) as [= ->]. destruct Hb as (_ & _ & Hs).
      split_and!; [rewrite Hi; apply lookup_insert_eq|done|].
      destruct (Abstract.supersedes e x) eqn:E; [|done].
      by rewrite (supersedes_trans _ _ _ E Esup) in Hs.
  - exists old. split_and!.
    + split_and!; [by rewrite Hi|done|done].
    + right. by split_and!.
    + intros e v Hb Hk. pose proof (Hv e v Hb Hk) as [= ->].
      destruct Hb as (_ & ? & ?). split_and!; [by rewrite Hi|done|done].
Qed.

Lemma insert_keeps_dead ix x :
  wf ix -> genuine core_of x ->
  tombs_abs (tombstones (index_insert ix x).1) = tombs_abs (tombstones ix).
Proof.
  intros Hwf Hx. pose proof (insert_refines core_of ix x Hwf Hx) as Hi.
  apply (f_equal (fun p => Abstract.dead p.1)) in Hi. simpl in Hi. rewrite Hi.
  unfold Abstract.insert. destruct (Spec.contains _ _); [done|].
  destruct (Abstract.slot_of _ _); [by destruct (Abstract.supersedes _ _)|done].
Qed.

(** An insert stores nothing but the event itself. *)
Lemma insert_stored ix x i e :
  wf ix -> genuine core_of x -> by_id (index_insert ix x).1 !! i = Some e ->
  e = x \/ by_id ix !! i = Some e.
Proof.
  intros Hwf Hx. pose proof (insert_refines core_of ix x Hwf Hx) as Hi.
  apply (f_equal (fun p => Abstract.events p.1)) in Hi. simpl in Hi. rewrite Hi.
  unfold Abstract.insert. destruct (Spec.contains _ _); [by auto|].
  destruct (Abstract.slot_of _ _); [destruct (Abstract.supersedes _ _); [|by auto]|];
    simpl; intros [[_ <-]|[_ He]]%lookup_insert_Some; auto.
  apply lookup_delete_Some in He as [_ He]. auto.
Qed.

(** One insert keeps a winner for everything offered before, and adds one for
    the event itself. *)
Lemma latest_wins_step ix x past :
  wf ix -> genuine core_of x -> is_tombstoned ix (ev_id x) = false ->
  (forall e, e ∈ past -> is_replaceable e = true -> exists w, beats ix e w) ->
  forall e, e ∈ past ++ [x] -> is_replaceable e = true ->
  exists w, beats (index_insert ix x).1 e w.
Proof.
  intros Hwf Hx Hd Hpast e [Hin| ->%list_elem_of_singleton]%elem_of_app Hr.
  - destruct (Hpast e Hin Hr) as (w & Hb).
    destruct (decide (replacement_key x = replacement_key e)) as [Hk|Hk];
      [|exists w; by apply beats_other].
    assert (is_replaceable x = true) as Hrx.
    { destruct (is_replaceable x) eqn:E; [done|]. apply replacement_key_none in E.
      rewrite E in Hk. symmetry in Hk. apply replacement_key_none in Hk. congruence. }
    destruct (beats_same ix x Hwf Hx Hrx Hd) as (v & _ & _ & Hall).
    exists v. by eapply Hall.
  - destruct (beats_same ix x Hwf Hx Hr Hd) as (v & Hb & _). by exists v.
Qed.

Lemma latest_wins_gen es : forall past ix,
  wf ix -> tombs_abs (tombstones ix) = [] -> Forall (genuine core_of) es ->
  (forall i e, by_id ix !! i = Some e -> e ∈ past) ->
  (forall e, e ∈ past -> is_replaceable e = true -> exists w, beats ix e w) ->
  forall e, e ∈ past ++ es -> is_replaceable e = true ->
  exists w, w ∈ past ++ es /\ beats (exec_all ix (OpInsert <$> es)).1 e w.
Proof.
  induction es as [|x es IH]; intros past ix Hwf Ht Hes Hst Hpast e.
  { rewrite app_nil_r. simpl. intros He Hr. destruct (Hpast e He Hr) as (w & Hw & Hb).
    exists w. split; [by eapply Hst|by split]. }
  apply Forall_cons in Hes as [Hx Hes]. simpl.
  pose proof (wf_index_insert core_of ix x Hwf Hx) as Hwf'.
  pose proof (insert_keeps_dead ix x Hwf Hx) as Ht'.
  assert (is_tombstoned ix (ev_id x) = false) as Hd.
  { unfold is_tombstoned. rewrite tombs_contains_spec by apply Hwf. by rewrite Ht. }
  pose proof (latest_wins_step ix x past Hwf Hx Hd Hpast) as Hstep.
  assert (forall i e, by_id (index_insert ix x).1 !! i = Some e -> e ∈ past ++ [x]) as Hst'.
  { intros i e' [->|Hi]%insert_stored; [set_solver| |done|done]. apply Hst in Hi. set_solver. }
  rewrite cons_middle, app_assoc.
  destruct (index_insert ix x) as [ix1 o]. simpl in *. intros Hin Hr.
  destruct (IH (past ++ [x]) ix1 Hwf') with e as (w & Hw & Hb);
    [congruence|done..|]. exists w. split; [done|]. by destruct (exec_all ix1 _).
Qed.
End LatestWins.

(** ** Deleted events stay out *)

Definition abs_no_zombies (s : Abstract.state) : Prop :=
  forall id, id ∈ Abstract.dead s -> Abstract.events s !! id = None.

Lemma spec_insert_only l id x : x ∈ Spec.insert l id -> x = id \/ x ∈ l.
Proof.
  unfold Spec.insert. case_bool_decide; [by auto|].
  intros (i & Hi)%list_elem_of_lookup. rewrite lookup_drop in Hi.
  apply list_elem_of_lookup_2, elem_of_app in Hi as [?|?%list_elem_of_singleton]; auto.
Qed.

Lemma abs_no_zombies_exec s o :
  abs_no_zombies s -> abs_no_zombies (Abstract.exec s o).1.
Proof.
  unfold abs_no_zombies. intros Hz. destruct o as [e|id|id|id]; simpl.
  - unfold Abstract.insert. destruct (Spec.contains _ _) eqn:Ed; [done|].
    apply bool_decide_eq_false in Ed.
    assert (forall m : gmap bytes Event,
      (forall id, id ∈ Abstract.dead s -> m !! id = None) ->
      forall id, id ∈ Abstract.dead s -> <[ev_id e := e]> m !! id = None) as Hins.
    { intros m Hm id Hid. rewrite lookup_insert_ne by congruence. by apply Hm. }
    destruct (Abstract.slot_of _ _); simpl; [|by apply Hins].
    destruct (Abstract.supersedes _ _); simpl; [|done]. apply Hins. intros id Hid.
    apply lookup_delete_None. by auto.
  - intros id' Hid. apply lookup_delete_None. by auto.
  - intros id' [->|Hid]%spec_insert_only; apply lookup_delete_None; by auto.
  - intros id' [->|Hid]%spec_insert_only; apply lookup_delete_None; by auto.
Qed.

Lemma abs_no_zombies_exec_all ops s :
  abs_no_zombies s -> abs_no_zombies (Abstract.exec_all s ops).1.
Proof.
  revert s; induction ops as [|o ops IH]; intros s Hs; simpl; [done|].
  pose proof (abs_no_zombies_exec s o Hs) as Hs'.
  destruct (Abstract.exec s o) as [s1 a]. specialize (IH s1 Hs').
  by destruct (Abstract.exec_all s1 ops).
Qed.

(** * Sample runs *)

(** The content oracle of a finite list of events with distinct ids. *)
Fixpoint core_table (es : list Event) (id : bytes) : Core :=
  match es with
  | [] => mkCore [] 0 0 []
  | e :: es => if bool_decide (ev_id e = id) then core e else core_table es id
  end.

Definition list_v1 : Event := sample 1 7 10002 1000 [].
Definition list_v2 : Event := sample 2 7 10002 2000 [].
Definition note : Event := sample 3 7 1 1500 [mkTag (lit "t") [lit "nostr"]].

Definition sample_run : list op :=
  [OpInsert list_v2; OpInsert note; OpInsert list_v1; OpDelete (key32 3); OpInsert note].

(** [note] with the same id and contents but a longer JSON text. *)
Definition note_padded : Event :=
  mkEvent (ev_id note) (ev_pubkey note) (ev_created_at note) (ev_kind note)
    (ev_tags note) (ev_content note) (ev_sig note) (replicate 5 32%Z).

Lemma sample_run_genuine :
  Forall (op_genuine (core_table [list_v1; list_v2; note])) sample_run.
Proof. repeat constructor. Qed.

(** * Properties *)

(** C10: the index refines the abstract map: after any sequence of inserts,
    removals, NIP-09 deletions and replayed tombstones, every answer given along
    the way (stored, duplicate, deleted, lost race, with the replaced event) and
    the final contents are those of the abstract machine, which has no pointer
    index that could go stale and no secondary indexes. *)
Theorem index_refines_abstract `{HexCrate} core_of ops :
  Forall (op_genuine core_of) ops ->
  let '(ix, answers) := exec_all index_new ops in
  Abstract.exec_all Abstract.init ops = (abs ix, answers).
Proof.
  intros Hops. destruct (exec_all_refines core_of ops index_new) as [_ Hr];
    [apply wf_index_new|done|].
  change (abs index_new) with Abstract.init in Hr.
  destruct (exec_all index_new ops). by symmetry.
Qed.

Lemma index_refines_abstract_witness :
  Forall (op_genuine (core_table [list_v1; list_v2; note])) sample_run /\
  let '(ix, answers) := exec_all index_new sample_run in
  Abstract.exec_all Abstract.init sample_run = (abs ix, answers).
Proof.
  split; [apply sample_run_genuine|].
  apply (index_refines_abstract _ sample_run sample_run_genuine).
Defined.

(** C20: after any such sequence the index is well formed: each of the six
    secondary indexes holds, sorted newest first, exactly one reference per key
    of each stored event; the event counter is the number of stored events; a
    replacement key has at most one stored owner; and no tombstoned id is
    stored. *)
Theorem index_invariant `{HexCrate} core_of ops :
  Forall (op_genuine core_of) ops ->
  let ix := (exec_all index_new ops).1 in
  wf_index core_of ix
  /\ (forall id, is_tombstoned ix id = true -> by_id ix !! id = None)
  /\ (forall i j e e', by_id ix !! i = Some e -> by_id ix !! j = Some e' ->
        is_replaceable e = true -> replacement_key e = replacement_key e' -> i = j).
Proof.
  intros Hops. destruct (exec_all_refines core_of ops index_new) as [Hwf Hr];
    [apply wf_index_new|done|].
  change (abs index_new) with Abstract.init in Hr.
  split_and!; [done| |].
  - intros id. unfold is_tombstoned. rewrite tombs_contains_spec by apply Hwf.
    unfold Spec.contains. rewrite bool_decide_eq_true. intros Hd.
    assert (abs_no_zombies (Abstract.exec_all Abstract.init ops).1) as Hz.
    { apply abs_no_zombies_exec_all. intros ? H0. by apply elem_of_nil in H0. }
    rewrite <- Hr in Hz. by apply Hz.
  - intros i j e e' Hi Hj Hrep Hk.
    pose proof (slot_unique core_of _ e i e Hwf Hrep Hi eq_refl).
    pose proof (slot_unique core_of _ e j e' Hwf Hrep Hj (eq_sym Hk)). congruence.
Qed.

Lemma index_invariant_witness :
  let ix := (exec_all index_new sample_run).1 in
  wf_index (core_table [list_v1; list_v2; note]) ix
  /\ (forall id, is_tombstoned ix id = true -> by_id ix !! id = None)
  /\ (forall i j e e', by_id ix !! i = Some e -> by_id ix !! j = Some e' ->
        is_replaceable e = true -> replacement_key e = replacement_key e' -> i = j).
Proof. exact (index_invariant _ sample_run sample_run_genuine). Defined.

(** C29: latest wins, whatever the arrival order: after any sequence of inserts
    into an empty index, every replaceable event that was offered has a stored
    event in its slot that it does not supersede (newer, or same time and lower
    id), and that event is one of those offered. *)
Theorem latest_version_wins `{HexCrate} core_of es e :
  Forall (genuine core_of) es -> e ∈ es -> is_replaceable e = true ->
  let ix := (exec_all index_new (OpInsert <$> es)).1 in
  exists w, w ∈ es /\ by_id ix !! ev_id w = Some w
    /\ replacement_key w = replacement_key e /\ Abstract.supersedes e w = false.
Proof.
  intros Hes He Hr. cbn zeta.
  destruct (latest_wins_gen core_of es [] index_new) with e as (w & Hw & Hb);
    [apply wf_index_new|done|done|done| |done|done|by exists w].
  intros x Hx. by apply elem_of_nil in Hx.
Qed.

Lemma latest_version_wins_witness :
  Forall (genuine (core_table [list_v1; list_v2])) [list_v2; list_v1]
  /\ list_v1 ∈ [list_v2; list_v1] /\ is_replaceable list_v1 = true /\
  let ix := (exec_all index_new (OpInsert <$> [list_v2; list_v1])).1 in
  exists w, w ∈ [list_v2; list_v1] /\ by_id ix !! ev_id w = Some w
    /\ replacement_key w = replacement_key list_v1
    /\ Abstract.supersedes list_v1 w = false.
Proof.
  assert (Forall (genuine (core_table [list_v1; list_v2])) [list_v2; list_v1]) as Hg
    by repeat constructor.
  assert (list_v1 ∈ [list_v2; list_v1]) as Hin by (right; left).
  split_and!; [exact Hg|exact Hin|reflexivity|].
  exact (latest_version_wins _ [list_v2; list_v1] list_v1 Hg Hin eq_refl).
Defined.

(** C30: byte accounting: when the JSON text of an event is determined by its id
    (no client re-sends an event with other whitespace), after any sequence of
    operations [memory_bytes] is exactly the number of raw bytes held and
    [event_count] the number of events, modulo the width of [usize]. *)
Theorem accounting_exact `{HexCrate} core_of len_of ops :
  Forall (op_genuine core_of) ops -> Forall (op_sized len_of) ops ->
  let ix := (exec_all index_new ops).1 in
  memory_bytes ix = wrap64 (total_raw (by_id ix))
  /\ event_count ix = wrap64 (Z.of_nat (index_len ix)).
Proof.
  intros Hg Hz. split.
  - apply (accounting_exec_all core_of len_of); try done; apply wf_index_new.
  - apply (exec_all_refines core_of ops index_new); [apply wf_index_new|done].
Qed.

Lemma accounting_exact_witness :
  Forall (op_genuine (core_table [list_v1; list_v2; note])) sample_run
  /\ Forall (op_sized (fun _ => 3%Z)) sample_run /\
  let ix := (exec_all index_new sample_run).1 in
  memory_bytes ix = wrap64 (total_raw (by_id ix))
  /\ event_count ix = wrap64 (Z.of_nat (index_len ix)).
Proof.
  assert (Forall (op_sized (fun _ => 3%Z)) sample_run) as Hz by repeat constructor.
  split_and!; [exact sample_run_genuine|exact Hz|..];
    apply (accounting_exact _ (fun _ => 3%Z) sample_run sample_run_genuine Hz).
Defined.

(** Without that proviso the accounting drifts: re-sending a stored event
    with two bytes of extra whitespace in its JSON answers [Duplicate] but
    replaces the stored text, so that removing the event subtracts more than was
    added and the counter of an empty index wraps to [2^64 - 2]. *)
Theorem duplicate_text_corrupts_accounting `{HexCrate} :
  let ops := [OpInsert note; OpInsert note_padded; OpRemove (ev_id note)] in
  let '(ix, answers) := exec_all index_new ops in
  core note = core note_padded /\ ev_id note = ev_id note_padded
  /\ answers = [AnsInsert (Inserted None); AnsInsert Duplicate; AnsRemoved (Some note_padded)]
  /\ by_id ix = ∅ /\ memory_bytes ix = (2 ^ 64 - 2)%Z.
Proof. vm_compute. by split_and!. Qed.
