(* ===== verification/IndexQuery.v ===== *)
(** The read side of [src/src/store/index.rs]: the eviction candidates
    ([get_oldest]), the newest events ([get_newest]) and the point queries on
    the secondary indexes. *)
From S2P Require Import Prelude Collections Event Reference Deletion Tombstones Index IndexInv IndexSpec.
Open Scope memlay_scope.

(** * Operations *)

Abbreviation heap := (list (Reverse EventRef)).

(** The inner loop of [EventIndex::get_oldest] over one shard, oldest first:
    fill the heap, then replace its top by any older event, and stop at the
    first event that is not older. [heap.peek().unwrap()] panics on an empty
    heap. *)
Fixpoint oldest_scan (count : Z) (ers : list EventRef) (h : heap) : panicky heap :=
  match ers with
  | [] => Ret h
  | er :: ers =>
      if (Z.of_nat (length h) <? count)%Z
      then oldest_scan count ers (heap_push (mkReverse er) h)
      else
        match heap_peek h with
        | None => Panic
        | Some top =>
            if (er_created_at er <? er_created_at (unreverse top))%Z
            then oldest_scan count ers (heap_push (mkReverse er) (heap_pop h))
            else Ret h
        end
  end.

Fixpoint oldest_shards (count : Z) (shards : list (list EventRef)) (h : heap)
    : panicky heap :=
  match shards with
  | [] => Ret h
  | set :: shards =>
      let! h' := oldest_scan count (reverse set) h in
      oldest_shards count shards h'
  end.

(** [EventIndex::get_oldest]. Popping the heap yields its elements in heap
    order; the vector is then reversed. *)
Definition get_oldest (ix : EventIndex) (count : Z) : panicky (list EventRef) :=
  let! h := oldest_shards count (by_oldest ix) [] in
  Ret (reverse (unreverse <$> h)).

(** The loops of [EventIndex::get_newest]: each shard newest first, with the
    comparison reversed. *)
Fixpoint newest_scan (count : Z) (ers : list EventRef) (h : heap) : panicky heap :=
  match ers with
  | [] => Ret h
  | er :: ers =>
      if (Z.of_nat (length h) <? count)%Z
      then newest_scan count ers (heap_push (mkReverse er) h)
      else
        match heap_peek h with
        | None => Panic
        | Some top =>
            if (er_created_at er >? er_created_at (unreverse top))%Z
            then newest_scan count ers (heap_push (mkReverse er) (heap_pop h))
            else Ret h
        end
  end.

Fixpoint newest_shards (count : Z) (shards : list (list EventRef)) (h : heap)
    : panicky heap :=
  match shards with
  | [] => Ret h
  | set :: shards =>
      let! h' := newest_scan count set h in
      newest_shards count shards h'
  end.

(** [EventIndex::get_newest]. *)
Definition get_newest (ix : EventIndex) (count : Z) : panicky (list Event) :=
  if (count =? 0)%Z then Ret [] else
  let! h := newest_shards count (by_oldest ix) [] in
  Ret (er_event <$> reverse (unreverse <$> h)).

(** [EventIndex::query_by_pubkey], [query_by_kind], [query_by_e_tag],
    [query_by_p_tag], [query_by_tag]: the first [limit] references of one
    bucket. *)
Definition query_by_pubkey (ix : EventIndex) (pubkey : bytes) (limit : Z) : list Event :=
  match by_pubkey ix !! tag_id_hash pubkey with
  | None => []
  | Some set => er_event <$> ztake limit set
  end.

Definition query_by_kind (ix : EventIndex) (kind : Z) (limit : Z) : list Event :=
  match by_kind ix !! kind with
  | None => []
  | Some set => er_event <$> ztake limit set
  end.

Definition query_by_e_tag (ix : EventIndex) (event_id : bytes) (limit : Z) : list Event :=
  match by_tag_e ix !! tag_id_hash event_id with
  | None => []
  | Some set => er_event <$> ztake limit set
  end.

Definition query_by_p_tag (ix : EventIndex) (pubkey : bytes) (limit : Z) : list Event :=
  match by_tag_p ix !! tag_id_hash pubkey with
  | None => []
  | Some set => er_event <$> ztake limit set
  end.

Definition query_by_tag (ix : EventIndex) (letter : N) (value : str) (limit : Z)
    : list Event :=
  match by_tag_other ix !! letter with
  | None => []
  | Some inner =>
      match inner !! value with
      | None => []
      | Some set => er_event <$> ztake limit set
      end
  end.

(** [EventIndex::query_by_pubkey_since]: [take_while] on the sorted bucket. *)
Definition query_by_pubkey_since (ix : EventIndex) (pubkey : bytes) (since limit : Z)
    : list Event :=
  match by_pubkey ix !! tag_id_hash pubkey with
  | None => []
  | Some set =>
      er_event <$> ztake limit
        (take_while (fun r => (since <=? er_created_at r)%Z) set)
  end.

(** * Lemmas on the scans *)

Abbreviation time := er_created_at.

(** [h] holds the [count] oldest of [seen]. *)
Definition oldest_inv (count : Z) (seen : list EventRef) (h : heap) : Prop :=
  heap_sorted h /\ (Z.of_nat (length h) <= count)%Z /\
  exists rest, seen ≡ₚ (unreverse <$> h) ++ rest
    /\ (forall x y, x ∈ unreverse <$> h -> y ∈ rest -> (time x <= time y)%Z)
    /\ (rest <> [] -> Z.of_nat (length h) = count).

(** The top of the heap is the newest element of it. *)
Lemma heap_top_newest top (h : heap) x :
  heap_sorted (top :: h) -> x ∈ unreverse <$> h -> (time x <= time (unreverse top))%Z.
Proof.
  intros [Ht _]%StronglySorted_cons ([y] & -> & Hy)%list_elem_of_fmap. simpl.
  rewrite Forall_forall in Ht. specialize (Ht _ Hy).
  unfold cmp, Ord_Reverse, cmp, Ord_EventRef in Ht. simpl in Ht.
  destruct (Z.compare_spec (time (unreverse top)) (time y)); [lia|done|lia].
Qed.

Lemma fmap_heap_push er (h : heap) :
  unreverse <$> heap_push (mkReverse er) h ≡ₚ er :: (unreverse <$> h).
Proof. by rewrite heap_push_perm. Qed.

(** Over a shard sorted oldest first, the scan keeps the oldest of everything
    seen; the early exit loses nothing. *)
Lemma oldest_scan_spec count ers seen h :
  (0 < count)%Z -> StronglySorted (fun a b => (time a <= time b)%Z) ers ->
  oldest_inv count seen h ->
  exists h', oldest_scan count ers h = Ret h' /\ oldest_inv count (seen ++ ers) h'.
Proof.
  intros Hc. revert seen h; induction ers as [|er ers IH]; intros seen h Hs Hinv.
  { exists h. by rewrite app_nil_r. }
  apply StronglySorted_cons in Hs as [Her Hs]. rewrite cons_middle, app_assoc. simpl.
  destruct Hinv as (Hh & Hlen & rest & Hp & Hle & Hfull).
  destruct (Z.ltb_spec (Z.of_nat (length h)) count) as [Hl|Hl].
  { apply IH; [done|]. split_and!; [by apply heap_push_sorted|rewrite heap_push_length; lia|].
    assert (rest = []) as -> by (destruct rest; [done|]; rewrite Hfull in Hl by done; lia).
    exists []. split_and!; [|set_solver|done]. rewrite !app_nil_r in *.
    rewrite fmap_heap_push, Hp. by rewrite Permutation_app_comm. }
  destruct h as [|top h]; [simpl in *; lia|]. simpl.
  destruct (Z.ltb_spec (time er) (time (unreverse top))) as [Ht|Ht].
  - apply IH; [done|]. split_and!.
    + apply heap_push_sorted. by apply heap_pop_sorted in Hh.
    + rewrite heap_push_length. simpl in *. lia.
    + exists (unreverse top :: rest). split_and!.
      * rewrite fmap_heap_push, Hp. simpl. solve_Permutation.
      * intros x y Hx Hy. rewrite fmap_heap_push in Hx.
        pose proof (fun z => heap_top_newest top h z Hh) as Htop.
        assert (time (unreverse top) <= time y)%Z.
        { apply elem_of_cons in Hy as [->|Hy]; [lia|]. apply Hle; [left|done]. }
        apply elem_of_cons in Hx as [->|Hx]; [lia|]. specialize (Htop x Hx). lia.
      * intros _. rewrite heap_push_length. simpl in *. lia.
  - exists (top :: h). split; [done|]. split_and!; [done|done|].
    exists (rest ++ er :: ers). split_and!.
    + rewrite Hp. by rewrite <- !app_assoc.
    + intros x y Hx [Hy|Hy]%elem_of_app; [by apply Hle|].
      assert (time x <= time (unreverse top))%Z.
      { apply elem_of_cons in Hx as [->|Hx]; [lia|]. by apply (heap_top_newest top h). }
      rewrite Forall_forall in Her.
      apply elem_of_cons in Hy as [->|Hy]; [lia|]. specialize (Her y Hy). lia.
    + simpl in *. lia.
Qed.

Lemma bt_sorted_time (s : list EventRef) :
  bt_sorted s -> StronglySorted (fun a b => (time b <= time a)%Z) s.
Proof.
  induction 1 as [|x s Hs IH Hx]; constructor; [done|].
  eapply Forall_impl; [exact Hx|]. intros y. apply er_cmp_lt_time.
Qed.

Lemma StronglySorted_impl {A} (R S : relation A) (l : list A) :
  (forall a b, R a b -> S a b) -> StronglySorted R l -> StronglySorted S l.
Proof.
  intros HRS. induction 1 as [|x l Hl IH Hx]; constructor; [done|].
  eapply Forall_impl; [exact Hx|]. auto.
Qed.

Lemma StronglySorted_reverse {A} (R : relation A) (l : list A) :
  StronglySorted R l -> StronglySorted (flip R) (reverse l).
Proof.
  induction 1 as [|x l Hl IH Hx]; [constructor|].
  rewrite reverse_cons. apply StronglySorted_app. split_and!; [|done|repeat constructor].
  intros a b Ha ->%list_elem_of_singleton. rewrite elem_of_reverse in Ha.
  rewrite Forall_forall in Hx. by apply Hx.
Qed.

Lemma oldest_shards_spec count shards seen h :
  (0 < count)%Z -> Forall bt_sorted shards -> oldest_inv count seen h ->
  exists h', oldest_shards count shards h = Ret h'
    /\ oldest_inv count (seen ++ concat shards) h'.
Proof.
  intros Hc. revert seen h; induction shards as [|s shards IH]; intros seen h.
  { intros _ Hi. exists h. simpl. by rewrite app_nil_r. }
  intros [Hs Hss]%Forall_cons Hi. simpl.
  destruct (oldest_scan_spec count (reverse s) seen h Hc) as (h1 & -> & Hi1); [|done|].
  { by apply (StronglySorted_reverse (fun a b => (time b <= time a)%Z)), bt_sorted_time. }
  simpl. destruct (IH _ _ Hss Hi1) as (h2 & -> & Hi2). exists h2. split; [done|].
  destruct Hi2 as (? & ? & rest & Hp & ?). split_and!; [done|done|].
  exists rest. split; [|done]. rewrite <- Hp. rewrite <- app_assoc.
  by rewrite reverse_Permutation.
Qed.

(** The drained and reversed heap is sorted oldest first. *)
Lemma drained_sorted (h : heap) :
  heap_sorted h ->
  StronglySorted (fun a b => (time a <= time b)%Z) (reverse (unreverse <$> h)).
Proof.
  intros Hh. apply (StronglySorted_reverse (fun a b => (time b <= time a)%Z)).
  induction h as [|top h IH]; simpl; [constructor|]. constructor.
  - apply IH. by apply StronglySorted_cons in Hh as [_ ?].
  - apply Forall_forall. intros x. by apply heap_top_newest.
Qed.

(** * What the shards and buckets hold *)

Section Enumeration.
Context `{HexCrate} (core_of : bytes -> Core).
Abbreviation wf := (wf_index core_of).

Lemma fmap_concat (f : EventRef -> bytes) (ls : list (list EventRef)) :
  f <$> concat ls = concat (fmap (M := list) f <$> ls).
Proof. induction ls as [|l ls IH]; [done|]. simpl. by rewrite fmap_app, IH. Qed.

Lemma elem_of_concat {A} (ls : list (list A)) x :
  x ∈ concat ls <-> exists l, x ∈ l /\ l ∈ ls.
Proof.
  rewrite list_elem_of_In, in_concat.
  by setoid_rewrite list_elem_of_In; split; intros (l & ? & ?); exists l.
Qed.

(** A sorted set of genuine references names each id once. *)
Lemma bt_sorted_NoDup_ids s :
  bt_sorted s -> Forall (ref_ok core_of) s -> NoDup (er_id <$> s).
Proof.
  induction 1 as [|x s Hs IH Hx]; simpl; [constructor|].
  intros [Hok Hoks]%Forall_cons. constructor; [|by apply IH].
  intros (y & Heq & Hy)%list_elem_of_fmap.
  rewrite Forall_forall in Hx, Hoks. specialize (Hx y Hy). specialize (Hoks y Hy).
  destruct Hok as [Hx1 Hx2], Hoks as [Hy1 Hy2].
  assert (cmp x y = Eq) as Hc; [|congruence].
  rewrite Hx1, Hy1. apply (genuine_cmp core_of); [done|done|].
  rewrite Hx1, Hy1 in Heq. exact Heq.
Qed.

Lemma shard_lookup ix k s :
  by_oldest ix !! k = Some s -> bk_get (by_oldest ix) k = s.
Proof. intros Hs. simpl. by rewrite Hs. Qed.

Lemma shard_refs ix k s er :
  wf ix -> by_oldest ix !! k = Some s -> er ∈ s ->
  ref_ok core_of er /\ er_id er ∈ dom (by_id ix) /\ k = oldest_shard (er_id er).
Proof.
  intros Hwf Hs Her. pose proof (so_oldest _ _ _ (wf_secondary _ _ Hwf)) as Hb.
  rewrite <- (shard_lookup _ _ _ Hs) in Her.
  destruct (bo_sound _ _ _ _ Hb _ _ Her) as (Hok & Hlive & Hk).
  split_and!; [done|done|]. apply list_elem_of_singleton in Hk.
  destruct Hok as [Heq _]. by rewrite Heq.
Qed.

(** The shards together hold one reference per stored event. *)
Lemma shards_enumerate ix :
  wf ix ->
  Forall bt_sorted (by_oldest ix)
  /\ Forall (ref_ok core_of) (concat (by_oldest ix))
  /\ NoDup (er_id <$> concat (by_oldest ix))
  /\ (forall id, id ∈ er_id <$> concat (by_oldest ix) <-> id ∈ dom (by_id ix)).
Proof.
  intros Hwf. pose proof (so_oldest _ _ _ (wf_secondary _ _ Hwf)) as Hb.
  assert (Forall bt_sorted (by_oldest ix)) as Hsorted.
  { apply Forall_lookup. intros k s Hs. rewrite <- (shard_lookup _ _ _ Hs).
    by apply (bo_sorted _ _ _ _ Hb). }
  assert (forall er, er ∈ concat (by_oldest ix) ->
    exists k s, by_oldest ix !! k = Some s /\ er ∈ s) as Hin.
  { intros er (s & Her & (k & Hk)%list_elem_of_lookup)%elem_of_concat. eauto. }
  split_and!; [done| | |].
  - apply Forall_forall. intros er (k & s & Hs & Her)%Hin. by eapply shard_refs.
  - rewrite fmap_concat. apply NoDup_concat_disjoint.
    + intros k l (s & -> & Hs)%list_lookup_fmap_Some. apply bt_sorted_NoDup_ids.
      * rewrite Forall_lookup in Hsorted. by eapply Hsorted.
      * apply Forall_forall. intros er Her. by eapply shard_refs.
    + intros i j l l' x (s & -> & Hs)%list_lookup_fmap_Some
        (s' & -> & Hs')%list_lookup_fmap_Some
        (er & -> & Her)%list_elem_of_fmap (er' & Heq & Her')%list_elem_of_fmap.
      destruct (shard_refs _ _ _ _ Hwf Hs Her) as (_ & _ & ->).
      destruct (shard_refs _ _ _ _ Hwf Hs' Her') as (_ & _ & ->). by rewrite Heq.
  - intros id. split.
    + intros (er & -> & (k & s & Hs & Her)%Hin)%list_elem_of_fmap.
      by eapply shard_refs.
    + intros [e He]%elem_of_dom. destruct (wf_by_id _ _ Hwf _ _ He) as [Hid Hg].
      destruct (bo_complete _ _ _ _ Hb e (oldest_shard (ev_id e)) Hg) as (er & Her & Heq).
      { rewrite Hid. by apply elem_of_dom. }
      { apply list_elem_of_singleton. done. }
      apply list_elem_of_fmap. exists er. split; [congruence|].
      simpl in Her. destruct (by_oldest ix !! oldest_shard (ev_id e)) as [s|] eqn:Hs;
        [|by apply elem_of_nil in Her].
      apply elem_of_concat. exists s. split; [done|].
      by apply list_elem_of_lookup_2 with (oldest_shard (ev_id e)).
Qed.

Lemma shards_length ix : wf ix -> length (concat (by_oldest ix)) = index_len ix.
Proof.
  intros Hwf. destruct (shards_enumerate ix Hwf) as (_ & _ & Hnd & Hdom).
  rewrite <- (length_fmap er_id).
  pose proof (size_list_to_set _ Hnd : size (list_to_set _ : gset bytes) = _) as <-.
  unfold index_len. rewrite <- size_dom. f_equal. apply set_eq. intros id.
  by rewrite elem_of_list_to_set, Hdom.
Qed.

(** A reference in a shard carries the time of the event stored under its id. *)
Lemma ref_time ix er e :
  wf ix -> ref_ok core_of er -> by_id ix !! er_id er = Some e ->
  time er = ev_created_at e.
Proof.
  intros Hwf [Heq Hg] He. destruct (wf_by_id _ _ Hwf _ _ He) as [Hid Hg'].
  rewrite Heq. simpl. unfold genuine in *. rewrite Hid, Heq in Hg'. simpl in Hg'.
  rewrite <- Hg in Hg'. unfold core in Hg'. by simplify_eq.
Qed.

(** The oldest [count] references, with those left out. *)
Lemma get_oldest_spec ix count :
  wf ix -> (0 < count)%Z ->
  exists l rest, get_oldest ix count = Ret l
    /\ concat (by_oldest ix) ≡ₚ l ++ rest
    /\ StronglySorted (fun a b => (time a <= time b)%Z) l
    /\ (forall x y, x ∈ l -> y ∈ rest -> (time x <= time y)%Z)
    /\ (Z.of_nat (length l) = Z.min count (Z.of_nat (index_len ix))).
Proof.
  intros Hwf Hc. destruct (shards_enumerate ix Hwf) as (Hs & _).
  destruct (oldest_shards_spec count (by_oldest ix) [] [] Hc Hs) as (h & Hrun & Hh & Hlen & rest & Hp & Hle & Hfull).
  { split_and!; [constructor|simpl; lia|]. exists []. split_and!; [done|set_solver|done]. }
  unfold get_oldest. rewrite Hrun. simpl in *. exists (reverse (unreverse <$> h)), rest.
  split_and!; [done|by rewrite reverse_Permutation|by apply drained_sorted| |].
  - intros x y. rewrite elem_of_reverse. apply Hle.
  - rewrite length_reverse, length_fmap, <- (shards_length ix Hwf), Hp, length_app, length_fmap.
    destruct rest; [simpl; lia|]. specialize (Hfull ltac:(done)). simpl. lia.
Qed.

(** ** From references to events *)

Lemma ref_ids l :
  Forall (ref_ok core_of) l -> ev_id <$> (er_event <$> l) = er_id <$> l.
Proof.
  intros Hok. rewrite <- list_fmap_compose. apply list_fmap_ext. intros i er Her.
  rewrite Forall_lookup in Hok. destruct (Hok _ _ Her) as [Heq _]. by rewrite Heq.
Qed.

Lemma ref_sorted (R : relation Z) l :
  Forall (ref_ok core_of) l -> StronglySorted (fun a b => R (time a) (time b)) l ->
  StronglySorted (fun a b => R (ev_created_at a) (ev_created_at b)) (er_event <$> l).
Proof.
  intros Hok Hs. induction Hs as [|x s Hs IH Hx]; [constructor|].
  apply Forall_cons in Hok as [[Heqx _] Hok]. rewrite fmap_cons. constructor; [by apply IH|].
  apply Forall_forall. intros e (y & -> & Hy)%list_elem_of_fmap.
  rewrite Forall_forall in Hx, Hok. destruct (Hok y Hy) as [Heqy _].
  specialize (Hx y Hy). by rewrite Heqx, Heqy in Hx.
Qed.

(** The event a live reference carries agrees with the stored one in all but its
    text and signature. *)
Lemma ref_stored ix er :
  wf ix -> ref_ok core_of er -> er_id er ∈ dom (by_id ix) ->
  exists e', by_id ix !! ev_id (er_event er) = Some e' /\ core (er_event er) = core e'.
Proof.
  intros Hwf [Heq Hg] [e' He']%elem_of_dom. exists e'. rewrite Heq in He'. simpl in He'.
  split; [done|]. destruct (wf_by_id _ _ Hwf _ _ He') as [Hid Hg']. unfold genuine in *.
  by rewrite Hg, Hg', Hid.
Qed.

(** ** The point queries *)

(** What a query on one bucket returns: the first [limit], newest first, of
    exactly the stored events filed under [k]. *)
Definition newest_first (l : list Event) : Prop :=
  StronglySorted (fun a b => (ev_created_at b <= ev_created_at a)%Z) l.

Definition exact_listing (ix : EventIndex) (matching : Event -> Prop)
    (all : list Event) : Prop :=
  newest_first all /\ NoDup (ev_id <$> all)
  /\ (forall id e, by_id ix !! id = Some e -> matching e <-> id ∈ ev_id <$> all)
  /\ (forall e, e ∈ all -> exists e', by_id ix !! ev_id e = Some e' /\ core e = core e').

Definition answers_exactly (ix : EventIndex) (matching : Event -> Prop) (limit : Z)
    (l : list Event) : Prop :=
  exists all, l = ztake limit all /\ exact_listing ix matching all.

Lemma bucket_query {M K} `{BucketMap M K} ix (m : M) (keys : Event -> list K) k :
  wf ix -> stable keys -> bucket_ok core_of (dom (by_id ix)) m keys ->
  exact_listing ix (fun e => k ∈ keys e) (er_event <$> bk_get m k).
Proof.
  intros Hwf Hst Hb. set (all := er_event <$> bk_get m k).
  assert (Forall (ref_ok core_of) (bk_get m k)) as Hok.
  { apply Forall_forall. intros er Her. by apply (bo_sound _ _ _ _ Hb) in Her as [? _]. }
  pose proof (ref_ids _ Hok) as Hids. fold all in Hids.
  split_and!.
  - apply (ref_sorted (fun a b => (b <= a)%Z)); [done|].
    apply bt_sorted_time, (bo_sorted _ _ _ _ Hb).
  - rewrite Hids. apply bt_sorted_NoDup_ids; [apply (bo_sorted _ _ _ _ Hb)|done].
  - intros id e He. destruct (wf_by_id _ _ Hwf _ _ He) as [Hid Hg]. rewrite Hids. split.
    + intros Hk. destruct (bo_complete _ _ _ _ Hb e k) as (er & Her & Heq); [done| |done|].
      { rewrite Hid. by apply elem_of_dom. }
      apply list_elem_of_fmap. exists er. split; [congruence|done].
    + intros (er & -> & Her)%list_elem_of_fmap.
      destruct (bo_sound _ _ _ _ Hb _ _ Her) as ([Heq Hg'] & _ & Hk).
      rewrite (genuine_stable core_of keys e (er_event er)); try done.
      rewrite Hid, Heq. done.
  - intros e (er & -> & Her)%list_elem_of_fmap.
    destruct (bo_sound _ _ _ _ Hb _ _ Her) as (? & ? & _). by apply ref_stored.
Qed.
End Enumeration.

(** ** The scan of [get_newest] *)

(** [h] is made of seen references and its top is the newest seen. *)
Definition newest_inv (count : Z) (seen : list EventRef) (h : heap) : Prop :=
  heap_sorted h
  /\ (Z.of_nat (length h) = Z.min count (Z.of_nat (length seen)))
  /\ (exists rest, seen ≡ₚ (unreverse <$> h) ++ rest)
  /\ (forall x, x ∈ seen -> exists y, y ∈ unreverse <$> h /\ (time x <= time y)%Z).

Lemma newest_inv_push count seen h er :
  newest_inv count seen h -> (Z.of_nat (length h) < count)%Z ->
  newest_inv count (seen ++ [er]) (heap_push (mkReverse er) h).
Proof.
  intros (Hh & Hlen & (rest & Hp) & Hmax) Hl. split_and!.
  - by apply heap_push_sorted.
  - rewrite heap_push_length, length_app. simpl. lia.
  - exists rest. rewrite fmap_heap_push, Hp. solve_Permutation.
  - intros x [Hx| ->%list_elem_of_singleton]%elem_of_app.
    + destruct (Hmax x Hx) as (y & Hy & ?). exists y. rewrite fmap_heap_push.
      split; [by right|done].
    + exists er. rewrite fmap_heap_push. split; [by left|lia].
Qed.

Lemma newest_inv_replace count seen top h er :
  newest_inv count seen (top :: h) -> Z.of_nat (length (top :: h)) = count ->
  (time (unreverse top) < time er)%Z ->
  newest_inv count (seen ++ [er]) (heap_push (mkReverse er) h).
Proof.
  intros (Hh & Hlen & (rest & Hp) & Hmax) Hl Ht. split_and!.
  - apply heap_push_sorted. by apply heap_pop_sorted in Hh.
  - rewrite heap_push_length, length_app. simpl in *. lia.
  - exists (unreverse top :: rest). rewrite fmap_heap_push, Hp. simpl. solve_Permutation.
  - intros x Hx. exists er. rewrite fmap_heap_push. split; [by left|].
    apply elem_of_app in Hx as [Hx| ->%list_elem_of_singleton]; [|lia].
    destruct (Hmax x Hx) as (y & Hy & ?).
    apply elem_of_cons in Hy as [->|Hy]; [lia|].
    pose proof (heap_top_newest _ _ _ Hh Hy). lia.
Qed.

Lemma newest_inv_skip count seen h more top :
  newest_inv count seen h -> (count <= Z.of_nat (length h))%Z ->
  top ∈ unreverse <$> h -> (forall x, x ∈ more -> (time x <= time top)%Z) ->
  newest_inv count (seen ++ more) h.
Proof.
  intros (Hh & Hlen & (rest & Hp) & Hmax) Hl Htop Hle. split_and!; [done| | |].
  - rewrite length_app. lia.
  - exists (rest ++ more). rewrite Hp. by rewrite app_assoc.
  - intros x [Hx|Hx]%elem_of_app; [by apply Hmax|]. exists top. auto.
Qed.

Lemma newest_scan_spec count ers seen h :
  (0 < count)%Z -> StronglySorted (fun a b => (time b <= time a)%Z) ers ->
  newest_inv count seen h ->
  exists h', newest_scan count ers h = Ret h' /\ newest_inv count (seen ++ ers) h'.
Proof.
  intros Hc. revert seen h; induction ers as [|er ers IH]; intros seen h Hs Hinv.
  { exists h. by rewrite app_nil_r. }
  apply StronglySorted_cons in Hs as [Her Hs]. simpl.
  destruct (Z.ltb_spec (Z.of_nat (length h)) count) as [Hl|Hl].
  { rewrite cons_middle, app_assoc. apply IH; [done|]. by apply newest_inv_push. }
  destruct h as [|top h]; [simpl in *; lia|]. simpl.
  destruct (Z.gtb_spec (time er) (time (unreverse top))) as [Ht|Ht].
  - rewrite cons_middle, app_assoc. apply IH; [done|].
    eapply newest_inv_replace; [done| |lia]. destruct Hinv as (_ & Hlen & _). lia.
  - exists (top :: h). split; [done|].
    apply (newest_inv_skip _ _ _ _ (unreverse top)); [done|done|left|].
    intros x [->|Hx]%elem_of_cons; [lia|]. rewrite Forall_forall in Her.
    specialize (Her x Hx). lia.
Qed.

Lemma newest_shards_spec count shards seen h :
  (0 < count)%Z -> Forall bt_sorted shards -> newest_inv count seen h ->
  exists h', newest_shards count shards h = Ret h'
    /\ newest_inv count (seen ++ concat shards) h'.
Proof.
  intros Hc. revert seen h; induction shards as [|s shards IH]; intros seen h.
  { intros _ Hi. exists h. simpl. by rewrite app_nil_r. }
  intros [Hs Hss]%Forall_cons Hi. simpl.
  destruct (newest_scan_spec count s seen h Hc) as (h1 & -> & Hi1);
    [by apply bt_sorted_time|done|].
  simpl. rewrite app_assoc. by apply IH.
Qed.

Lemma fmap_ztake {A B} (f : A -> B) n (l : list A) : f <$> ztake n l = ztake n (f <$> l).
Proof. by rewrite !ztake_take, <- fmap_take. Qed.

Lemma fmap_filter_compat {A B} (f : A -> B) (p : A -> bool) (q : B -> bool) (l : list A) :
  (forall x, x ∈ l -> q (f x) = p x) ->
  f <$> List.filter p l = List.filter q (f <$> l).
Proof.
  induction l as [|x l IH]; intros Hq; [done|].
  rewrite fmap_cons. cbn [List.filter]. rewrite (Hq x) by left.
  rewrite <- IH by (intros y Hy; apply Hq; by right). by destruct (p x).
Qed.

Lemma elem_of_List_filter {A} (p : A -> bool) (l : list A) x :
  x ∈ List.filter p l <-> x ∈ l /\ p x = true.
Proof. rewrite !list_elem_of_In. apply filter_In. Qed.

Lemma StronglySorted_List_filter {A} (R : relation A) (p : A -> bool) (l : list A) :
  StronglySorted R l -> StronglySorted R (List.filter p l).
Proof.
  induction 1 as [|x l Hl IH Hx]; simpl; [constructor|]. destruct (p x); [|done].
  constructor; [done|]. rewrite Forall_forall in *.
  intros y [Hy _]%elem_of_List_filter. by apply Hx.
Qed.

Lemma NoDup_fmap_List_filter {A B} (f : A -> B) (p : A -> bool) (l : list A) :
  NoDup (f <$> l) -> NoDup (f <$> List.filter p l).
Proof.
  induction l as [|x l IH]; simpl; [done|]. intros [Hx Hl]%NoDup_cons.
  destruct (p x); simpl; [|by apply IH]. constructor; [|by apply IH].
  intros (y & Heq & [Hy _]%elem_of_List_filter)%list_elem_of_fmap.
  apply Hx. rewrite Heq. by apply list_elem_of_fmap_2.
Qed.

Section PointQueries.
Context `{HexCrate} (core_of : bytes -> Core).
Abbreviation wf := (wf_index core_of).

Lemma listing_ext ix (P Q : Event -> Prop) all :
  (forall e, P e <-> Q e) -> exact_listing ix P all -> exact_listing ix Q all.
Proof.
  intros HPQ (Hs & Hnd & Hc & Hin). split_and!; [done|done| |done].
  intros id e He. rewrite <- HPQ. by apply Hc.
Qed.

Lemma bucket_answers {M K} `{BucketMap M K} ix (m : M) (keys : Event -> list K) k
    (matching : Event -> Prop) limit :
  wf ix -> stable keys -> bucket_ok core_of (dom (by_id ix)) m keys ->
  (forall e, matching e <-> k ∈ keys e) ->
  answers_exactly ix matching limit (er_event <$> ztake limit (bk_get m k)).
Proof.
  intros Hwf Hst Hb Hm. exists (er_event <$> bk_get m k). split; [apply fmap_ztake|].
  eapply listing_ext; [intros e; symmetry; apply Hm|].
  by apply (bucket_query core_of).
Qed.

(** A listing narrowed to the events that pass [p]. *)
Lemma listing_filter ix (matching : Event -> Prop) all p :
  exact_listing ix matching all -> (forall e e', core e = core e' -> p e = p e') ->
  exact_listing ix (fun e => matching e /\ p e = true) (List.filter p all).
Proof.
  intros (Hs & Hnd & Hm & Hin) Hp.
  split_and!; [by apply StronglySorted_List_filter|by apply NoDup_fmap_List_filter| |].
  - intros id e He. rewrite (Hm id e He). split.
    + intros [(e2 & -> & He2)%list_elem_of_fmap Hpe]. apply list_elem_of_fmap.
      exists e2. split; [done|]. apply elem_of_List_filter. split; [done|].
      destruct (Hin e2 He2) as (e3 & He3 & Hcore). rewrite He in He3. injection He3 as <-.
      by rewrite (Hp _ _ Hcore).
    + intros (e2 & -> & [He2 Hpe]%elem_of_List_filter)%list_elem_of_fmap.
      split; [by apply list_elem_of_fmap_2|].
      destruct (Hin e2 He2) as (e3 & He3 & Hcore). rewrite He in He3. injection He3 as <-.
      by rewrite <- (Hp _ _ Hcore).
  - intros e [He _]%elem_of_List_filter. by apply Hin.
Qed.
End PointQueries.

(** [get_newest] on a well-formed index. *)
Lemma get_newest_spec `{HexCrate} core_of ix count :
  wf_index core_of ix -> (0 < count)%Z ->
  exists l, get_newest ix count = Ret l
  /\ Z.of_nat (length l) = Z.min count (Z.of_nat (index_len ix))
  /\ NoDup (ev_id <$> l)
  /\ (forall e, e ∈ l -> exists e', by_id ix !! ev_id e = Some e' /\ core e = core e')
  /\ StronglySorted (fun a b => (ev_created_at a <= ev_created_at b)%Z) l
  /\ (forall id e, by_id ix !! id = Some e ->
        exists x, x ∈ l /\ (ev_created_at e <= ev_created_at x)%Z).
Proof.
  intros Hwf Hc. destruct (shards_enumerate core_of ix Hwf) as (Hss & Hok & Hnd & Hdom).
  pose proof (fun er Her => proj1 (Forall_forall _ _) Hok er Her) as Hoks.
  destruct (newest_shards_spec count (by_oldest ix) [] [] Hc Hss)
    as (h & Hrun & Hh & Hlen & (rest & Hp) & Hmax).
  { split_and!; [constructor|simpl; lia|by exists []|set_solver]. }
  unfold get_newest. destruct (Z.eqb_spec count 0); [lia|]. rewrite Hrun. simpl in *.
  set (l := reverse (unreverse <$> h)).
  assert (concat (by_oldest ix) ≡ₚ l ++ rest) as Hpl.
  { unfold l. by rewrite reverse_Permutation. }
  rewrite Hpl in Hok, Hnd. apply Forall_app in Hok as [Hokl _].
  rewrite fmap_app in Hnd. apply NoDup_app in Hnd as (Hnd & _ & _).
  exists (er_event <$> l). split_and!.
  - done.
  - rewrite <- (shards_length core_of ix Hwf), <- Hlen. unfold l.
    by rewrite length_fmap, length_reverse, length_fmap.
  - by rewrite (ref_ids core_of).
  - intros e (er & -> & Her)%list_elem_of_fmap. apply (ref_stored core_of); [done| |].
    + rewrite Forall_forall in Hokl. by apply Hokl.
    + apply Hdom. rewrite Hpl. apply list_elem_of_fmap_2, elem_of_app. by left.
  - apply (ref_sorted core_of Z.le); [done|]. by apply drained_sorted.
  - intros id e He. assert (id ∈ er_id <$> concat (by_oldest ix)) as Hin.
    { apply Hdom, elem_of_dom. eauto. }
    apply list_elem_of_fmap in Hin as (y & -> & Hy).
    rewrite <- (ref_time core_of ix y e Hwf (Hoks _ Hy) He).
    destruct (Hmax y Hy) as (x & Hx & Hle). exists (er_event x).
    rewrite <- elem_of_reverse in Hx. fold l in Hx.
    split; [by apply list_elem_of_fmap_2|]. rewrite Forall_forall in Hokl.
    destruct (Hokl x Hx) as [Heq _]. by rewrite Heq in Hle.
Qed.

(** The queries as reads of a bucket. *)
Lemma query_flat_eq `{Countable K} (m : gmap K (list EventRef)) k limit :
  match m !! k with None => [] | Some set => er_event <$> ztake limit set end
  = er_event <$> ztake limit (bk_get m k).
Proof. simpl. by destruct (m !! k). Qed.

Lemma query_by_tag_eq ix letter value limit :
  query_by_tag ix letter value limit
  = er_event <$> ztake limit (bk_get (by_tag_other ix) (letter, value)).
Proof.
  unfold query_by_tag. simpl. destruct (by_tag_other ix !! letter) as [inner|]; simpl.
  - by destruct (inner !! value).
  - by rewrite lookup_empty.
Qed.

Lemma query_since_eq ix pubkey since limit :
  query_by_pubkey_since ix pubkey since limit
  = er_event <$> ztake limit (take_while (fun r => (since <=? er_created_at r)%Z)
                                (bk_get (by_pubkey ix) (tag_id_hash pubkey))).
Proof. unfold query_by_pubkey_since. simpl. by destruct (_ !! _). Qed.

(** [take_while] stops at the first older event; the bucket is sorted, so nothing
    newer follows. *)
Lemma query_since_exact `{HexCrate} core_of ix pubkey since limit :
  wf_index core_of ix ->
  answers_exactly ix
    (fun e => tag_id_hash (ev_pubkey e) = tag_id_hash pubkey
       /\ (since <=? ev_created_at e)%Z = true) limit
    (query_by_pubkey_since ix pubkey since limit).
Proof.
  intros Hwf. destruct stable_keys as (Hst & _).
  pose proof (so_pubkey _ _ _ (wf_secondary _ _ Hwf)) as Hb.
  pose proof (bucket_query core_of ix _ _ (tag_id_hash pubkey) Hwf Hst Hb) as Hl.
  apply (listing_filter _ _ _ (fun e => (since <=? ev_created_at e)%Z)) in Hl;
    [|by intros e e' [= _ -> _ _]].
  eexists. split; [|eapply listing_ext; [|exact Hl]].
  - rewrite query_since_eq, fmap_ztake. f_equal. rewrite take_while_filter.
    + apply fmap_filter_compat. intros er Her.
      destruct (bo_sound _ _ _ _ Hb _ _ Her) as ([Heq _] & _). by rewrite Heq.
    + pose proof (bt_sorted_time _ (bo_sorted _ _ _ _ Hb (tag_id_hash pubkey))) as Hs.
      eapply StronglySorted_impl; [|exact Hs]. intros a b Hab. simpl. rewrite !Z.leb_le. simpl in Hab. lia.
  - intros e. unfold pubkey_keys. rewrite list_elem_of_singleton. naive_solver.
Qed.

Section Answers.
Context `{HexCrate} (core_of : bytes -> Core) (ix : EventIndex) (limit : Z).
Context (Hwf : wf_index core_of ix).

Lemma query_by_pubkey_answers pubkey :
  answers_exactly ix (fun e => tag_id_hash (ev_pubkey e) = tag_id_hash pubkey) limit
    (query_by_pubkey ix pubkey limit).
Proof.
  destruct stable_keys as (S1 & S2 & S3 & S4 & S5 & _).
  unfold query_by_pubkey. rewrite query_flat_eq.
  eapply bucket_answers; [done|exact S1|exact (so_pubkey _ _ _ (wf_secondary _ _ Hwf))|].
  intros e. unfold pubkey_keys. rewrite list_elem_of_singleton. naive_solver.
Qed.

Lemma query_by_kind_answers kind :
  answers_exactly ix (fun e => ev_kind e = kind) limit (query_by_kind ix kind limit).
Proof.
  destruct stable_keys as (S1 & S2 & S3 & S4 & S5 & _).
  unfold query_by_kind. rewrite query_flat_eq.
  eapply bucket_answers; [done|exact S2|exact (so_kind _ _ _ (wf_secondary _ _ Hwf))|].
  intros e. unfold kind_keys. rewrite list_elem_of_singleton. naive_solver.
Qed.

Lemma query_by_e_tag_answers id :
  answers_exactly ix (fun e => tag_id_hash id ∈ tag_id_hash <$> e_tags e) limit
    (query_by_e_tag ix id limit).
Proof.
  destruct stable_keys as (S1 & S2 & S3 & S4 & S5 & _).
  unfold query_by_e_tag. rewrite query_flat_eq.
  eapply bucket_answers; [done|exact S3|exact (so_tag_e _ _ _ (wf_secondary _ _ Hwf))|done].
Qed.

Lemma query_by_p_tag_answers pubkey :
  answers_exactly ix (fun e => tag_id_hash pubkey ∈ tag_id_hash <$> p_tags e) limit
    (query_by_p_tag ix pubkey limit).
Proof.
  destruct stable_keys as (S1 & S2 & S3 & S4 & S5 & _).
  unfold query_by_p_tag. rewrite query_flat_eq.
  eapply bucket_answers;
    [done|exact S4|exact (so_tag_p _ _ _ (wf_secondary _ _ Hwf))|done].
Qed.

Lemma query_by_tag_answers letter value :
  answers_exactly ix (fun e => (letter, value) ∈ omap generic_tag (ev_tags e)) limit
    (query_by_tag ix letter value limit).
Proof.
  destruct stable_keys as (S1 & S2 & S3 & S4 & S5 & _).
  rewrite query_by_tag_eq. eapply bucket_answers;
    [done|exact S5|exact (so_tag_other _ _ _ (wf_secondary _ _ Hwf))|done].
Qed.
End Answers.

Lemma wf_run `{HexCrate} core_of ops :
  Forall (op_genuine core_of) ops -> wf_index core_of (exec_all index_new ops).1.
Proof. intros Hg. apply exec_all_refines; [apply wf_index_new|done]. Qed.

(** * Samples *)

(** Notes whose ids differ in the first byte, so that they fall into different
    shards. *)
Definition note_at (first created_at : Z) : Event :=
  mkEvent (first :: replicate 31 0%Z) (key32 7) created_at 1 [] []
    (replicate 64 0%Z) (replicate 3 0%Z).

Definition three_notes : list Event := [note_at 1 10; note_at 2 20; note_at 3 30].

Definition three_ix : EventIndex := (exec_all index_new (OpInsert <$> three_notes)).1.

Lemma three_ix_wf : wf_index (core_table three_notes) three_ix.
Proof. apply wf_run. repeat constructor. Qed.

(** * Properties *)

(** Eviction candidates: on a well-formed index and a positive count,
    [get_oldest] does not panic and returns [min count len] distinct stored
    events, oldest first, such that no stored event left out is older than one
    returned. *)
Theorem get_oldest_correct `{HexCrate} core_of ix count :
  wf_index core_of ix -> (0 < count)%Z ->
  exists l, get_oldest ix count = Ret l
  /\ Z.of_nat (length l) = Z.min count (Z.of_nat (index_len ix))
  /\ NoDup (er_id <$> l)
  /\ (forall er, er ∈ l -> exists e, by_id ix !! er_id er = Some e
        /\ ev_created_at e = er_created_at er)
  /\ StronglySorted (fun a b => (er_created_at a <= er_created_at b)%Z) l
  /\ (forall er id e, er ∈ l -> by_id ix !! id = Some e -> id ∉ er_id <$> l ->
        (er_created_at er <= ev_created_at e)%Z).
Proof.
  intros Hwf Hc. destruct (shards_enumerate core_of ix Hwf) as (_ & Hok & Hnd & Hdom).
  destruct (get_oldest_spec core_of ix count Hwf Hc) as (l & rest & Hrun & Hp & Hs & Hle & Hlen).
  exists l. rewrite Hp in Hok, Hnd. apply Forall_app in Hok as [Hokl Hokr].
  rewrite fmap_app in Hnd. apply NoDup_app in Hnd as (Hnd & _ & _).
  rewrite Forall_forall in Hokl, Hokr. split_and!; try done.
  - intros er Her. assert (er_id er ∈ dom (by_id ix)) as [e He]%elem_of_dom.
    { apply Hdom. rewrite Hp. apply list_elem_of_fmap_2, elem_of_app. by left. }
    exists e. split; [done|]. symmetry. eapply ref_time; eauto.
  - intros er id e Her He Hid.
    assert (id ∈ er_id <$> concat (by_oldest ix)) as Hin by (apply Hdom, elem_of_dom; eauto).
    rewrite Hp, fmap_app, elem_of_app in Hin. destruct Hin as [?|Hin]; [done|].
    apply list_elem_of_fmap in Hin as (y & -> & Hy).
    rewrite <- (ref_time core_of ix y e Hwf (Hokr _ Hy) He). by apply Hle.
Qed.

Lemma get_oldest_correct_witness :
  exists l, get_oldest three_ix 2 = Ret l
  /\ Z.of_nat (length l) = Z.min 2 (Z.of_nat (index_len three_ix)).
Proof.
  destruct (get_oldest_correct _ three_ix 2 three_ix_wf ltac:(lia)) as (l & Hl & Hn & _).
  exact (ex_intro _ l (conj Hl Hn)).
Defined.

(** What a scrape of all data is guaranteed: [get_newest] with a positive
    count does not panic and returns [min count len] distinct stored events; every
    stored event is no newer than some returned one, so a newest event is among
    them; and they come {e oldest} first. *)
Theorem get_newest_bounds `{HexCrate} core_of ix count :
  wf_index core_of ix -> (0 < count)%Z ->
  exists l, get_newest ix count = Ret l
  /\ Z.of_nat (length l) = Z.min count (Z.of_nat (index_len ix))
  /\ NoDup (ev_id <$> l)
  /\ (forall e, e ∈ l -> exists e', by_id ix !! ev_id e = Some e' /\ core e = core e')
  /\ StronglySorted (fun a b => (ev_created_at a <= ev_created_at b)%Z) l
  /\ (forall id e, by_id ix !! id = Some e ->
        exists x, x ∈ l /\ (ev_created_at e <= ev_created_at x)%Z).
Proof.
  apply get_newest_spec.
Qed.

Lemma get_newest_bounds_witness :
  exists l, get_newest three_ix 2 = Ret l
  /\ Z.of_nat (length l) = Z.min 2 (Z.of_nat (index_len three_ix)).
Proof.
  destruct (get_newest_bounds _ three_ix 2 three_ix_wf ltac:(lia)) as (l & Hl & Hn & _).
  exact (ex_intro _ l (conj Hl Hn)).
Defined.

(** [get_newest] does not return the newest events: with three notes of
    times 10, 20 and 30 in different shards, asking for two returns those of 10
    and 30, in this order, and leaves out the one of 20. The heap's [peek] is the
    newest kept event, not the oldest as the comment in the source says. *)
Theorem get_newest_misses_newer :
  ev_created_at <$> iter_all three_ix ≡ₚ [10; 20; 30]%Z
  /\ match get_newest three_ix 2 with
     | Ret l => ev_created_at <$> l = [10; 30]%Z
     | Panic => False
     end.
Proof. vm_compute. split; [solve_Permutation|done]. Qed.

(** The point queries: each of [query_by_pubkey], [query_by_kind],
    [query_by_e_tag], [query_by_p_tag], [query_by_tag] and
    [query_by_pubkey_since] returns, newest first and without repetition, the
    first [limit] of exactly the stored events filed under the requested key
    (under the 128-bit folded hash for ids and public keys). *)
Theorem point_queries_exact `{HexCrate} core_of ix limit :
  wf_index core_of ix ->
  (forall pubkey, answers_exactly ix
     (fun e => tag_id_hash (ev_pubkey e) = tag_id_hash pubkey) limit
     (query_by_pubkey ix pubkey limit))
  /\ (forall kind, answers_exactly ix (fun e => ev_kind e = kind) limit
        (query_by_kind ix kind limit))
  /\ (forall id, answers_exactly ix
        (fun e => tag_id_hash id ∈ tag_id_hash <$> e_tags e) limit
        (query_by_e_tag ix id limit))
  /\ (forall pk, answers_exactly ix
        (fun e => tag_id_hash pk ∈ tag_id_hash <$> p_tags e) limit
        (query_by_p_tag ix pk limit))
  /\ (forall letter value, answers_exactly ix
        (fun e => (letter, value) ∈ omap generic_tag (ev_tags e)) limit
        (query_by_tag ix letter value limit))
  /\ (forall pubkey since, answers_exactly ix
        (fun e => tag_id_hash (ev_pubkey e) = tag_id_hash pubkey
           /\ (since <=? ev_created_at e)%Z = true) limit
        (query_by_pubkey_since ix pubkey since limit)).
Proof.
  intros Hwf. split_and!; intros.
  - by eapply query_by_pubkey_answers.
  - by eapply query_by_kind_answers.
  - by eapply query_by_e_tag_answers.
  - by eapply query_by_p_tag_answers.
  - by eapply query_by_tag_answers.
  - by eapply query_since_exact.
Qed.

Lemma point_queries_exact_witness :
  answers_exactly three_ix (fun e => ev_kind e = 1%Z) 2 (query_by_kind three_ix 1 2).
Proof.
  destruct (point_queries_exact _ three_ix 2 three_ix_wf) as (_ & Hk & _). exact (Hk 1%Z).
Defined.
