(* ===== verification/Threads.v ===== *)
(** [src/src/store/index.rs] under concurrency: the interleavings of
    [EventIndex::insert], [remove] and [delete_by_id].

    Every public method of [EventIndex] takes [&self]; connections, the eviction
    task and NIP-09 handling call them from several threads at once. [Index.v]
    gives each method as one function; here each is a little machine whose
    program counter ([pc], and [removal] for [internal_remove]) advances by one
    atomic access to the shared index: one [DashMap] operation, one bucket
    updated under its lock, one [fetch_add] or [fetch_sub]. The one lock held
    across accesses is the [by_replaceable] entry that [insert] keeps from the
    comparison to the end of the removal of the replaced event; a thread that
    needs that key waits. (A [DashMap] locks a whole shard; locking the key
    alone admits every interleaving of the source.) *)
From S2P Require Import Prelude Collections Event Tombstones Index.

(** * Slots: one bucket of one secondary index *)

Inductive slot :=
| SPubkey (k : Z)
| SKind (k : Z)
| STagE (k : Z)
| STagP (k : Z)
| SOther (k : N * str)
| SOldest (k : nat).

#[export] Instance slot_eq_dec : EqDecision slot.
Proof. solve_decision. Defined.

Definition with_by_pubkey m (ix : EventIndex) : EventIndex :=
  mkIndex (by_id ix) m (by_kind ix) (by_tag_e ix) (by_tag_p ix) (by_tag_other ix)
    (by_oldest ix) (by_replaceable ix) (tombstones ix) (memory_bytes ix) (event_count ix).
Definition with_by_kind m (ix : EventIndex) : EventIndex :=
  mkIndex (by_id ix) (by_pubkey ix) m (by_tag_e ix) (by_tag_p ix) (by_tag_other ix)
    (by_oldest ix) (by_replaceable ix) (tombstones ix) (memory_bytes ix) (event_count ix).
Definition with_by_tag_e m (ix : EventIndex) : EventIndex :=
  mkIndex (by_id ix) (by_pubkey ix) (by_kind ix) m (by_tag_p ix) (by_tag_other ix)
    (by_oldest ix) (by_replaceable ix) (tombstones ix) (memory_bytes ix) (event_count ix).
Definition with_by_tag_p m (ix : EventIndex) : EventIndex :=
  mkIndex (by_id ix) (by_pubkey ix) (by_kind ix) (by_tag_e ix) m (by_tag_other ix)
    (by_oldest ix) (by_replaceable ix) (tombstones ix) (memory_bytes ix) (event_count ix).
Definition with_by_tag_other m (ix : EventIndex) : EventIndex :=
  mkIndex (by_id ix) (by_pubkey ix) (by_kind ix) (by_tag_e ix) (by_tag_p ix) m
    (by_oldest ix) (by_replaceable ix) (tombstones ix) (memory_bytes ix) (event_count ix).
Definition with_by_oldest m (ix : EventIndex) : EventIndex :=
  mkIndex (by_id ix) (by_pubkey ix) (by_kind ix) (by_tag_e ix) (by_tag_p ix)
    (by_tag_other ix) m (by_replaceable ix) (tombstones ix) (memory_bytes ix)
    (event_count ix).

(** The whole index as one map from slots to buckets. *)
#[export] Instance slot_buckets : BucketMap EventIndex slot := {|
  bk_get ix s :=
    match s with
    | SPubkey k => bk_get (by_pubkey ix) k
    | SKind k => bk_get (by_kind ix) k
    | STagE k => bk_get (by_tag_e ix) k
    | STagP k => bk_get (by_tag_p ix) k
    | SOther k => bk_get (by_tag_other ix) k
    | SOldest k => bk_get (by_oldest ix) k
    end;
  bk_add ix s er :=
    match s with
    | SPubkey k => with_by_pubkey (bk_add (by_pubkey ix) k er) ix
    | SKind k => with_by_kind (bk_add (by_kind ix) k er) ix
    | STagE k => with_by_tag_e (bk_add (by_tag_e ix) k er) ix
    | STagP k => with_by_tag_p (bk_add (by_tag_p ix) k er) ix
    | SOther k => with_by_tag_other (bk_add (by_tag_other ix) k er) ix
    | SOldest k => with_by_oldest (bk_add (by_oldest ix) k er) ix
    end;
  bk_del ix s er :=
    match s with
    | SPubkey k => with_by_pubkey (bk_del (by_pubkey ix) k er) ix
    | SKind k => with_by_kind (bk_del (by_kind ix) k er) ix
    | STagE k => with_by_tag_e (bk_del (by_tag_e ix) k er) ix
    | STagP k => with_by_tag_p (bk_del (by_tag_p ix) k er) ix
    | SOther k => with_by_tag_other (bk_del (by_tag_other ix) k er) ix
    | SOldest k => with_by_oldest (bk_del (by_oldest ix) k er) ix
    end;
  bk_valid ix s :=
    match s with SOldest k => k < length (by_oldest ix) | _ => True end;
|}.

(** * Program counters *)

(** Where a thread is inside [internal_remove]. *)
Inductive removal :=
| RmTake (id : bytes) (skip_replaceable : bool)
| RmMemory (event : Event) (skip_replaceable : bool)
| RmCount (event : Event) (skip_replaceable : bool)
| RmKey (event : Event)
| RmSlots (event : Event) (todo : list slot)
| RmDone (removed : option Event).

Inductive answer :=
| AInsert (outcome : InsertOutcome)
| ARemove (removed : option Event).

(** Where a thread is inside [insert] ([In..]), [remove] or [delete_by_id]. *)
Inductive pc :=
| InTombstone (e : Event)
| InClaim (e : Event)
| InCompare (e : Event) (old_id : bytes)
| InReplace (e : Event) (r : removal)
| InPrimary (e : Event) (replaced : option Event)
| InEarly (e : Event) (replaced : option Event)
| InUndo (e : Event)
| InMemory (e : Event) (replaced : option Event)
| InCount (e : Event) (replaced : option Event)
| InFile (e : Event) (replaced : option Event) (todo : list slot)
| InCheck (e : Event) (replaced : option Event)
| InWinner (e : Event) (replaced : option Event)
| InCleanTake (e : Event)
| InCleanMemory (e : Event)
| InCleanCount (e : Event)
| InClean (e : Event) (todo : list slot) (outcome : InsertOutcome)
| Removing (r : removal)
| Deleting (id : bytes) (r : removal)
| DelMark (id : bytes) (removed : option Event)
| DelOrder (id : bytes) (removed : option Event)
| Done (a : answer).

(** The [by_replaceable] entry a thread keeps locked. *)
Definition holds (p : pc) : option ReplacementKey :=
  match p with
  | InCompare e _ | InReplace e _ => Some (replacement_key e)
  | _ => None
  end.

(** The [by_replaceable] entry a thread's next access needs. *)
Definition wants (p : pc) : option ReplacementKey :=
  match p with
  | InClaim e => Some (replacement_key e)
  | InEarly e _ | InWinner e _ =>
      if is_replaceable e then Some (replacement_key e) else None
  | InReplace _ (RmKey event) | Removing (RmKey event) | Deleting _ (RmKey event) =>
      Some (replacement_key event)
  | _ => None
  end.

(** * Steps *)

Section Steps.
Context `{HexCrate}.

(** The buckets an event is filed in, in the order of the source. *)
Definition slots_of (e : Event) : list slot :=
  (SPubkey <$> pubkey_keys e) ++ (SKind <$> kind_keys e) ++ (STagE <$> e_keys e)
  ++ (STagP <$> p_keys e) ++ (SOther <$> other_keys e) ++ (SOldest <$> shard_keys e).

(** One access of [internal_remove]. *)
Definition removal_step (ix : EventIndex) (r : removal) : option (EventIndex * removal) :=
  match r with
  | RmTake id skip =>
      Some match by_id ix !! id with
           | None => (ix, RmDone None)
           | Some event => (with_by_id (delete id (by_id ix)) ix, RmMemory event skip)
           end
  | RmMemory event skip =>
      Some (with_counters (fetch_sub (memory_bytes ix) (raw_len event)) (event_count ix) ix,
            RmCount event skip)
  | RmCount event skip =>
      Some (with_counters (memory_bytes ix) (fetch_sub (event_count ix) 1) ix,
            if negb skip && is_replaceable event then RmKey event
            else RmSlots event (slots_of event))
  | RmKey event =>
      Some (with_by_replaceable (delete (replacement_key event) (by_replaceable ix)) ix,
            RmSlots event (slots_of event))
  | RmSlots event (s :: todo) =>
      Some (bk_del ix s (event_ref event), RmSlots event todo)
  | RmSlots event [] => Some (ix, RmDone (Some event))
  | RmDone _ => None
  end.

(** [Tombstones::insert] in two accesses: the id into the set, then the section
    under the queue's mutex. *)
Definition tombstone_mark (t : Tombstones) (id : bytes) : Tombstones :=
  mkTombstones (t_count t) ({[id]} ∪ t_ids t) (t_order t).
Definition tombstone_enqueue (t : Tombstones) (id : bytes) : Tombstones :=
  let '(order, ids) := evict_oldest (t_order t ++ [id]) (t_ids t) in
  mkTombstones (Z.of_nat (size ids)) ids order.

(** One access of a thread. [insert] after the tombstone check goes to the
    replaceable block only for an event with a replacement key. *)
Definition access (ix : EventIndex) (p : pc) : option (EventIndex * pc) :=
  match p with
  | InTombstone e =>
      Some (ix,
        if tombstones_contains (tombstones ix) (ev_id e) then Done (AInsert Deleted)
        else if is_replaceable e then
          match replacement_key e with
          | RKNone => InPrimary e None
          | _ => InClaim e
          end
        else InPrimary e None)
  | InClaim e =>
      Some match by_replaceable ix !! replacement_key e with
           | Some old_id => (ix, InCompare e old_id)
           | None =>
               (with_by_replaceable
                  (<[replacement_key e := ev_id e]> (by_replaceable ix)) ix,
                InPrimary e None)
           end
  | InCompare e old_id =>
      Some (if incoming_wins ix e old_id
            then (with_by_replaceable
                    (<[replacement_key e := ev_id e]> (by_replaceable ix)) ix,
                  InReplace e (RmTake old_id true))
            else (ix, Done (AInsert LostRace)))
  | InReplace e (RmDone replaced) => Some (ix, InPrimary e replaced)
  | InReplace e r => prod_map id (InReplace e) <$> removal_step ix r
  | InPrimary e replaced =>
      Some (with_by_id (<[ev_id e := e]> (by_id ix)) ix,
            if bool_decide (is_Some (by_id ix !! ev_id e))
            then Done (AInsert Duplicate) else InEarly e replaced)
  | InEarly e replaced =>
      Some (ix, if is_replaceable e && negb (is_still_winner ix e)
                then InUndo e else InMemory e replaced)
  | InUndo e =>
      Some (with_by_id (delete (ev_id e) (by_id ix)) ix, Done (AInsert LostRace))
  | InMemory e replaced =>
      Some (with_counters (fetch_add (memory_bytes ix) (raw_len e)) (event_count ix) ix,
            InCount e replaced)
  | InCount e replaced =>
      Some (with_counters (memory_bytes ix) (fetch_add (event_count ix) 1) ix,
            InFile e replaced (slots_of e))
  | InFile e replaced (s :: todo) =>
      Some (bk_add ix s (event_ref e), InFile e replaced todo)
  | InFile e replaced [] => Some (ix, InCheck e replaced)
  | InCheck e replaced =>
      Some (ix,
        if bool_decide (is_Some (by_id ix !! ev_id e)) then InWinner e replaced
        else InClean e (slots_of e) (if is_replaceable e then LostRace else Duplicate))
  | InWinner e replaced =>
      Some (ix, if is_replaceable e && negb (is_still_winner ix e)
                then InCleanTake e else Done (AInsert (Inserted replaced)))
  | InCleanTake e =>
      Some match by_id ix !! ev_id e with
           | Some _ => (with_by_id (delete (ev_id e) (by_id ix)) ix, InCleanMemory e)
           | None => (ix, InClean e (slots_of e) LostRace)
           end
  | InCleanMemory e =>
      Some (with_counters (fetch_sub (memory_bytes ix) (raw_len e)) (event_count ix) ix,
            InCleanCount e)
  | InCleanCount e =>
      Some (with_counters (memory_bytes ix) (fetch_sub (event_count ix) 1) ix,
            InClean e (slots_of e) LostRace)
  | InClean e (s :: todo) outcome =>
      Some (bk_del ix s (event_ref e), InClean e todo outcome)
  | InClean e [] outcome => Some (ix, Done (AInsert outcome))
  | Removing (RmDone removed) => Some (ix, Done (ARemove removed))
  | Removing r => prod_map id Removing <$> removal_step ix r
  | Deleting id (RmDone removed) => Some (ix, DelMark id removed)
  | Deleting id r => prod_map Datatypes.id (Deleting id) <$> removal_step ix r
  | DelMark id removed =>
      Some (if bool_decide (id ∈ t_ids (tombstones ix))
            then (ix, Done (ARemove removed))
            else (with_tombstones (tombstone_mark (tombstones ix) id) ix,
                  DelOrder id removed))
  | DelOrder id removed =>
      Some (with_tombstones (tombstone_enqueue (tombstones ix) id) ix,
            Done (ARemove removed))
  | Done _ => None
  end.

(** A thread waits while the entry it needs is locked. *)
Definition thread_step (locked : list ReplacementKey) (ix : EventIndex) (p : pc)
    : option (EventIndex * pc) :=
  match wants p with
  | Some key => if bool_decide (key ∈ locked) then None else access ix p
  | None => access ix p
  end.

(** The shared index and the threads working on it. *)
Record World := mkWorld {
  w_index : EventIndex;
  w_threads : list pc;
}.

(** Thread [i] takes a step. *)
Definition run_thread (w : World) (i : nat) : option World :=
  p ← w_threads w !! i;
  r ← thread_step (omap holds (w_threads w)) (w_index w) p;
  Some (mkWorld r.1 (<[i := r.2]> (w_threads w))).

Definition cstep (w w' : World) : Prop := exists i, run_thread w i = Some w'.

(** A schedule names the thread of each step. *)
Definition run_schedule (w : World) (sched : list nat) : option World :=
  foldl (fun w i => w ← w; run_thread w i) (Some w) sched.

(** ** Calls *)

Inductive call :=
| CInsert (e : Event)
| CRemove (id : bytes)
| CDelete (id : bytes).

Definition start (c : call) : pc :=
  match c with
  | CInsert e => InTombstone e
  | CRemove id => Removing (RmTake id true)
  | CDelete id => Deleting id (RmTake id false)
  end.

(** The method of [Index.v] a call runs. *)
Definition sequential (ix : EventIndex) (c : call) : EventIndex * answer :=
  match c with
  | CInsert e => prod_map id AInsert (index_insert ix e)
  | CRemove id => prod_map Datatypes.id ARemove (index_remove ix id)
  | CDelete id => prod_map Datatypes.id ARemove (delete_by_id ix id)
  end.

Definition finished (p : pc) : bool := match p with Done _ => true | _ => false end.
Definition quiet (w : World) : Prop := forallb finished (w_threads w) = true.
End Steps.

(** * A thread that runs alone is the sequential method *)

(** Updating one field key by key is updating the field once. *)
Lemma foldl_field {I M K S} (f : K -> S) (get : I -> M) (upd : M -> I -> I)
    (OP : I -> S -> I) (op : M -> K -> M) ks ix :
  (forall ix, upd (get ix) ix = ix) -> (forall m ix, get (upd m ix) = m) ->
  (forall m m' ix, upd m' (upd m ix) = upd m' ix) ->
  (forall ix k, OP ix (f k) = upd (op (get ix) k) ix) ->
  foldl OP ix (f <$> ks) = upd (foldl op (get ix) ks) ix.
Proof.
  intros H0 H1 H2 H3. revert ix.
  induction ks as [|k ks IH]; intros ix; simpl; [by rewrite H0|].
  by rewrite IH, H3, H1, H2.
Qed.

Section Alone.
Context `{HexCrate}.

(** An access that is not refused by the thread's own lock. *)
Definition lone_step (a b : EventIndex * pc) : Prop :=
  (wants a.2 = None \/ holds a.2 = None) /\ access a.1 a.2 = Some b.

Lemma lone_more ix p b c :
  (wants p = None \/ holds p = None) -> access ix p = Some b ->
  rtc lone_step b c -> rtc lone_step (ix, p) c.
Proof. intros Hw Ha. by apply rtc_l. Qed.

Tactic Notation "fold_field" uconstr(t) :=
  rewrite t; [|by intros []|done|done|done].
Tactic Notation "fold_fields" uconstr(op) constr(er) :=
  unfold slots_of; rewrite !foldl_app;
  fold_field (foldl_field SPubkey by_pubkey with_by_pubkey _ (fun m k => op m k er));
  fold_field (foldl_field SKind by_kind with_by_kind _ (fun m k => op m k er));
  fold_field (foldl_field STagE by_tag_e with_by_tag_e _ (fun m k => op m k er));
  fold_field (foldl_field STagP by_tag_p with_by_tag_p _ (fun m k => op m k er));
  fold_field (foldl_field SOther by_tag_other with_by_tag_other _ (fun m k => op m k er));
  fold_field (foldl_field SOldest by_oldest with_by_oldest _ (fun m k => op m k er)).

Lemma bk_add_all_slots ix e :
  bk_add_all ix (slots_of e) (event_ref e) = add_secondary_indexes ix e.
Proof. unfold bk_add_all. fold_fields bk_add (event_ref e). done. Qed.

Lemma bk_del_all_slots ix e :
  bk_del_all ix (slots_of e) (event_ref e) = cleanup_secondary_indexes ix e.
Proof. unfold bk_del_all. fold_fields bk_del (event_ref e). done. Qed.

(** ** [internal_remove] *)

(** The three places [internal_remove] is called from. *)
Inductive remove_ctx : (removal -> pc) -> Prop :=
| ctx_replace e : remove_ctx (InReplace e)
| ctx_remove : remove_ctx Removing
| ctx_delete id : remove_ctx (Deleting id).

Lemma access_ctx K ix r b :
  remove_ctx K -> removal_step ix r = Some b ->
  access ix (K r) = Some (b.1, K b.2).
Proof.
  intros HK Hs. destruct HK; destruct r; cbn [access]; rewrite ?Hs; try done; by destruct b.
Qed.

Lemma wants_ctx K r : remove_ctx K -> (forall e, r <> RmKey e) -> wants (K r) = None.
Proof. destruct 1; destruct r; naive_solver. Qed.

Lemma lone_remove K ix r b c :
  remove_ctx K -> (forall e, r = RmKey e -> holds (K r) = None) ->
  removal_step ix r = Some b ->
  rtc lone_step (b.1, K b.2) c -> rtc lone_step (ix, K r) c.
Proof.
  intros HK Hr Hs. eapply lone_more; [|by apply access_ctx].
  destruct r; try (left; by apply wants_ctx). right. by eapply Hr.
Qed.

Lemma lone_unfile K ix event todo :
  remove_ctx K ->
  rtc lone_step (ix, K (RmSlots event todo))
    (bk_del_all ix todo (event_ref event), K (RmDone (Some event))).
Proof.
  intros HK. revert ix; induction todo as [|s todo IH]; intros ix;
    (eapply lone_remove; [done|done|reflexivity|]); [done|apply IH].
Qed.

Lemma lone_internal_remove K ix id skip :
  remove_ctx K -> (skip = false -> forall r, holds (K r) = None) ->
  rtc lone_step (ix, K (RmTake id skip))
    ((internal_remove ix id skip).1, K (RmDone (internal_remove ix id skip).2)).
Proof.
  intros HK Hh. unfold internal_remove.
  eapply lone_remove; [done|done|reflexivity|].
  destruct (by_id ix !! id) as [event|]; [|done].
  do 2 (eapply lone_remove; [done|done|reflexivity|]).
  simpl. destruct (negb skip && is_replaceable event) eqn:E.
  - eapply lone_remove; [done| |reflexivity|].
    { intros e _. apply Hh. by destruct skip. }
    rewrite <- bk_del_all_slots. by apply lone_unfile.
  - rewrite <- bk_del_all_slots. by apply lone_unfile.
Qed.

(** ** [insert] *)

Lemma lone_file ix e replaced todo :
  rtc lone_step (ix, InFile e replaced todo)
    (bk_add_all ix todo (event_ref e), InCheck e replaced).
Proof.
  revert ix; induction todo as [|s todo IH]; intros ix;
    (eapply lone_more; [by left|reflexivity|]); [done|apply IH].
Qed.

Lemma lone_clean ix e todo o :
  rtc lone_step (ix, InClean e todo o)
    (bk_del_all ix todo (event_ref e), Done (AInsert o)).
Proof.
  revert ix; induction todo as [|s todo IH]; intros ix;
    (eapply lone_more; [by left|reflexivity|]); [done|apply IH].
Qed.

(** From the primary index on. *)
Definition insert_tail (ix1 : EventIndex) (event : Event) (replaced : option Event)
    : EventIndex * InsertOutcome :=
  let previous := by_id ix1 !! ev_id event in
  let ix2 := with_by_id (<[ev_id event := event]> (by_id ix1)) ix1 in
  if bool_decide (is_Some previous) then (ix2, Duplicate) else
  if is_replaceable event && negb (is_still_winner ix2 event)
  then (with_by_id (delete (ev_id event) (by_id ix2)) ix2, LostRace) else
  let ix3 := with_counters (fetch_add (memory_bytes ix2) (raw_len event))
               (fetch_add (event_count ix2) 1) ix2 in
  let ix4 := add_secondary_indexes ix3 event in
  if negb (bool_decide (is_Some (by_id ix4 !! ev_id event))) then
    (cleanup_secondary_indexes ix4 event,
     if is_replaceable event then LostRace else Duplicate)
  else if is_replaceable event && negb (is_still_winner ix4 event)
  then (cleanup_event ix4 event, LostRace)
  else (ix4, Inserted replaced).

Lemma index_insert_tail ix e :
  index_insert ix e =
  if tombstones_contains (tombstones ix) (ev_id e) then (ix, Deleted) else
  match claim_replaceable ix e with
  | None => (ix, LostRace)
  | Some (ix1, replaced) => insert_tail ix1 e replaced
  end.
Proof. reflexivity. Qed.

Ltac lone := eapply lone_more; [first [by left|by right]|reflexivity|].

Lemma lone_cleanup_event ix e :
  rtc lone_step (ix, InCleanTake e) (cleanup_event ix e, Done (AInsert LostRace)).
Proof.
  unfold cleanup_event. lone.
  destruct (by_id ix !! ev_id e); [do 2 lone|]; rewrite <- bk_del_all_slots;
    apply lone_clean.
Qed.

Lemma lone_recheck ix4 e replaced :
  rtc lone_step (ix4, InCheck e replaced)
    (prod_map id (fun o => Done (AInsert o))
       (if negb (bool_decide (is_Some (by_id ix4 !! ev_id e))) then
          (cleanup_secondary_indexes ix4 e,
           if is_replaceable e then LostRace else Duplicate)
        else if is_replaceable e && negb (is_still_winner ix4 e)
        then (cleanup_event ix4 e, LostRace)
        else (ix4, Inserted replaced))).
Proof.
  lone. simpl. case_bool_decide; simpl.
  - lone. simpl. destruct (is_replaceable e && negb (is_still_winner _ e)); [|done].
    apply lone_cleanup_event.
  - etransitivity; [apply lone_clean|]. by rewrite bk_del_all_slots.
Qed.

Lemma lone_insert_tail ix e replaced :
  rtc lone_step (ix, InPrimary e replaced)
    (prod_map id (fun o => Done (AInsert o)) (insert_tail ix e replaced)).
Proof.
  unfold insert_tail. lone. case_bool_decide; [done|]. lone.
  generalize (with_by_id (<[ev_id e := e]> (by_id ix)) ix). intros ix2.
  destruct (is_replaceable e && negb (is_still_winner ix2 e)); [by lone|].
  do 2 lone. etransitivity; [apply lone_file|]. rewrite bk_add_all_slots.
  exact (lone_recheck (add_secondary_indexes
    (with_counters (fetch_add (memory_bytes ix2) (raw_len e))
       (fetch_add (event_count ix2) 1) ix2) e) e replaced).
Qed.

Lemma lone_insert ix e :
  rtc lone_step (ix, InTombstone e)
    (prod_map id (fun o => Done (AInsert o)) (index_insert ix e)).
Proof.
  rewrite index_insert_tail. unfold claim_replaceable. lone.
  destruct (tombstones_contains _ _); [done|].
  destruct (is_replaceable e) eqn:Hr; [|apply lone_insert_tail].
  destruct (replacement_key e) as [| |] eqn:Hk; [apply lone_insert_tail| |];
    (lone; rewrite Hk; destruct (by_replaceable ix !! _) as [old_id|];
      [|apply lone_insert_tail]; lone; rewrite Hk;
      destruct (incoming_wins ix e old_id); simpl; [|done];
      etransitivity; [by apply (lone_internal_remove (InReplace e)); [constructor|]|];
      destruct (internal_remove _ old_id true) as [ix1 replaced]; simpl;
      lone; apply lone_insert_tail).
Qed.

Lemma tombstones_insert_two t i :
  tombstones_insert t i =
  if bool_decide (i ∈ t_ids t) then t else tombstone_enqueue (tombstone_mark t i) i.
Proof. reflexivity. Qed.

Lemma lone_run ix c :
  rtc lone_step (ix, start c) (prod_map id Done (sequential ix c)).
Proof.
  destruct c as [e|id|id]; simpl.
  - pose proof (lone_insert ix e) as Hi. by destruct (index_insert ix e).
  - etransitivity; [by apply (lone_internal_remove Removing); [constructor|]|].
    unfold index_remove. destruct (internal_remove ix id true). by lone.
  - etransitivity; [by apply (lone_internal_remove (Deleting id)); [constructor|]|].
    unfold delete_by_id. destruct (internal_remove ix id false) as [ix1 r].
    unfold index_tombstone. rewrite tombstones_insert_two. do 2 lone. simpl.
    case_bool_decide; [by destruct ix1|by lone].
Qed.
End Alone.
