(* ===== verification/ThreadsInv.v ===== *)
(** The invariant of the concurrent index ([Threads.v]): what every reachable
    state of any number of threads inside [insert], [remove] and [delete_by_id]
    satisfies.

    An id goes through stages: not yet stored; stored while its inserter files
    it bucket by bucket; fully filed; taken out of [by_id] by one thread that
    then empties the buckets. The invariant says which thread answers for every
    reference without a stored event ([wo_sound]) and for every stored event
    with a missing reference ([wo_complete]). The proof treats the thread that
    moves as the head of the list, and has one lemma per kind of access. *)
From S2P Require Import Prelude Collections Event Tombstones Index IndexInv Threads.

(** * What a program counter says *)

Section Views.
Context `{HexCrate}.

(** The event whose [insert] is under way. *)
Definition inserting (p : pc) : option Event :=
  match p with
  | InTombstone e | InClaim e | InCompare e _ | InReplace e _ | InPrimary e _
  | InEarly e _ | InUndo e | InMemory e _ | InCount e _ | InFile e _ _
  | InCheck e _ | InWinner e _ | InCleanTake e | InCleanMemory e | InCleanCount e
  | InClean e _ _ => Some e
  | _ => None
  end.
Definition inserting_id (p : pc) : option bytes := ev_id <$> inserting p.

(** [insert] has not reached [by_id.insert]. *)
Definition before_primary (p : pc) : bool :=
  match p with
  | InTombstone _ | InClaim _ | InCompare _ _ | InReplace _ _ | InPrimary _ _ => true
  | _ => false
  end.

(** [insert] has not filed the event anywhere. *)
Definition unfiled (p : pc) : bool :=
  match p with
  | InEarly _ _ | InUndo _ | InMemory _ _ | InCount _ _ => true
  | _ => before_primary p
  end.

(** The buckets [insert] has yet to fill. *)
Definition to_file (p : pc) : option (Event * list slot) :=
  match p with
  | InEarly e _ | InUndo e | InMemory e _ | InCount e _ => Some (e, slots_of e)
  | InFile e _ todo => Some (e, todo)
  | InCheck e _ => Some (e, [])
  | _ => None
  end.

(** The event [insert] is filing, up to the re-check that follows. *)
Definition filing (p : pc) : option Event :=
  match p with InFile e _ _ | InCheck e _ => Some e | _ => None end.

(** The event a thread took out of [by_id] (or found gone), with the buckets it
    has yet to empty. *)
Definition rm_cleaning (r : removal) : option (Event * list slot) :=
  match r with
  | RmMemory event _ | RmCount event _ | RmKey event => Some (event, slots_of event)
  | RmSlots event todo => Some (event, todo)
  | _ => None
  end.
Definition cleaning (p : pc) : option (Event * list slot) :=
  match p with
  | InReplace _ r | Removing r | Deleting _ r => rm_cleaning r
  | InCleanMemory e | InCleanCount e => Some (e, slots_of e)
  | InClean e todo _ => Some (e, todo)
  | _ => None
  end.
End Views.

Definition live (ix : EventIndex) (i : bytes) : Prop := is_Some (by_id ix !! i).

(** * The index as a bucket map *)

Ltac unfold_fields :=
  cbn [with_by_pubkey with_by_kind with_by_tag_e with_by_tag_p with_by_tag_other
       with_by_oldest by_pubkey by_kind by_tag_e by_tag_p by_tag_other by_oldest].

#[export] Instance slot_buckets_laws : BucketLaws EventIndex slot.
Proof.
  split; intros ix s s' er Hv.
  - destruct s, s'; cbn [bk_get bk_add slot_buckets]; unfold_fields;
      rewrite ?bk_get_add by done; repeat case_decide; congruence.
  - destruct s, s'; cbn [bk_get bk_del slot_buckets]; unfold_fields;
      rewrite ?bk_get_del by done; repeat case_decide; congruence.
  - destruct s, s'; try done. revert Hv. simpl. by rewrite length_insert.
  - destruct s, s'; try done. revert Hv. simpl. by rewrite length_insert.
Qed.

Section Slots.
Context `{HexCrate}.

Lemma elem_slots_of s e :
  s ∈ slots_of e <->
  match s with
  | SPubkey k => k ∈ pubkey_keys e
  | SKind k => k ∈ kind_keys e
  | STagE k => k ∈ e_keys e
  | STagP k => k ∈ p_keys e
  | SOther k => k ∈ other_keys e
  | SOldest k => k ∈ shard_keys e
  end.
Proof.
  unfold slots_of. rewrite !elem_of_app, !list_elem_of_fmap.
  split; [|destruct s; eauto 10].
  intros [(k & -> & ?)|[(k & -> & ?)|[(k & -> & ?)|[(k & -> & ?)|
    [(k & -> & ?)|(k & -> & ?)]]]]]; done.
Qed.

Lemma stable_slots : stable slots_of.
Proof.
  destruct stable_keys as (? & ? & ? & ? & ? & ?). intros e e' Hid Hc.
  unfold slots_of. repeat (f_equal; [f_equal; by auto|]). f_equal. by auto.
Qed.

(** The slots of one family form a bucket map of their own. *)
Lemma bucket_ok_family {M K} `{BucketMap M K} (f : K -> slot) (get : EventIndex -> M)
    keys core_of lv ix :
  (forall ix k, bk_get (get ix) k = bk_get ix (f k)) ->
  (forall e k, f k ∈ slots_of e <-> k ∈ keys e) ->
  (forall k, bk_valid ix (f k) -> bk_valid (get ix) k) ->
  bucket_ok core_of lv ix slots_of -> bucket_ok core_of lv (get ix) keys.
Proof.
  intros Hget Hkeys Hval [Hv Hs Hso Hco]. split.
  - intros e k Hk. apply Hval. eapply Hv. by apply Hkeys.
  - intros k. rewrite Hget. apply Hs.
  - intros k er. rewrite Hget, <- Hkeys. apply Hso.
  - intros e k. rewrite Hget, <- Hkeys. apply Hco.
Qed.

(** The six secondary indexes agree with the live ids iff the index does as one
    bucket map. *)
Lemma slots_secondary core_of lv ix :
  secondary_ok core_of lv ix <->
  bucket_ok core_of lv ix slots_of /\ length (by_oldest ix) = Z.to_nat OLDEST_SHARDS.
Proof.
  split.
  - intros [H1 H2 H3 H4 H5 H6 Hl]. split; [|done]. split.
    + intros e s Hs%elem_slots_of. destruct s; try done. by apply (bo_valid _ _ _ _ H6 e).
    + intros []; [apply (bo_sorted _ _ _ _ H1)|apply (bo_sorted _ _ _ _ H2)|apply (bo_sorted _ _ _ _ H3)|apply (bo_sorted _ _ _ _ H4)|apply (bo_sorted _ _ _ _ H5)|apply (bo_sorted _ _ _ _ H6)].
    + intros [] er; rewrite elem_slots_of; [apply (bo_sound _ _ _ _ H1)|apply (bo_sound _ _ _ _ H2)|apply (bo_sound _ _ _ _ H3)|apply (bo_sound _ _ _ _ H4)|apply (bo_sound _ _ _ _ H5)|apply (bo_sound _ _ _ _ H6)].
    + intros e [] He Hlv Hs%elem_slots_of; revert e He Hlv Hs; intros e; [apply (bo_complete _ _ _ _ H1)|apply (bo_complete _ _ _ _ H2)|apply (bo_complete _ _ _ _ H3)|apply (bo_complete _ _ _ _ H4)|apply (bo_complete _ _ _ _ H5)|apply (bo_complete _ _ _ _ H6)].
  - intros [Hb Hl]. split; [..|done];
      [eapply (bucket_ok_family SPubkey)|eapply (bucket_ok_family SKind)
      |eapply (bucket_ok_family STagE)|eapply (bucket_ok_family STagP)
      |eapply (bucket_ok_family SOther)|eapply (bucket_ok_family SOldest)];
      try done; intros e k; by rewrite elem_slots_of.
Qed.
End Slots.

(** * The invariant *)

Section Invariant.
Context `{HexCrate} (core_of : bytes -> Core).
Implicit Types (ix : EventIndex) (ts : list pc) (i : bytes) (s : slot).

Definition refs ix s i : Prop := exists er, er ∈ bk_get ix s /\ er_id er = i.

(** [p] will remove a reference to [i] in [s], or is about to notice that it
    must. *)
Definition answers_for (p : pc) i s : Prop :=
  (exists e, filing p = Some e /\ ev_id e = i) \/
  (exists e todo, cleaning p = Some (e, todo) /\ ev_id e = i /\ s ∈ todo).

(** [p] will file [i] in [s]. *)
Definition will_file (p : pc) i s : Prop :=
  exists e todo, to_file p = Some (e, todo) /\ ev_id e = i /\ s ∈ todo.

(** [p] is emptying the buckets of [i]. *)
Definition cleans (p : pc) i : Prop :=
  exists e todo, cleaning p = Some (e, todo) /\ ev_id e = i.

Record pc_ok (p : pc) : Prop := {
  po_inserting : forall e, inserting p = Some e -> genuine core_of e;
  po_cleaning : forall e todo, cleaning p = Some (e, todo) ->
    genuine core_of e /\ todo ⊆ slots_of e;
  po_to_file : forall e todo, to_file p = Some (e, todo) -> todo ⊆ slots_of e;
}.

Record threads_ok ix ts : Prop := {
  to_by_id : forall i e, by_id ix !! i = Some e -> ev_id e = i /\ genuine core_of e;
  to_pcs : Forall pc_ok ts;
  to_unique : NoDup (omap inserting_id ts);
  to_valid : forall e s, s ∈ slots_of e -> bk_valid ix s;
  to_sorted : forall s, bt_sorted (bk_get ix s);
  to_genuine : forall s er, er ∈ bk_get ix s ->
    ref_ok core_of er /\ s ∈ slots_of (er_event er);
  to_sound : forall s i, refs ix s i ->
    live ix i \/ Exists (fun p => answers_for p i s) ts;
  to_complete : forall e s, genuine core_of e -> live ix (ev_id e) -> s ∈ slots_of e ->
    refs ix s (ev_id e) \/ Exists (fun p => will_file p (ev_id e) s) ts;
  to_gone : forall p i, p ∈ ts -> cleans p i -> ~ live ix i;
  to_fresh : forall p i, p ∈ ts -> inserting_id p = Some i -> before_primary p = true ->
    ~ live ix i /\ forall q, q ∈ ts -> ~ cleans q i;
  to_unfiled : forall p i, p ∈ ts -> inserting_id p = Some i -> unfiled p = true ->
    forall s, ~ refs ix s i;
}.

(** ** Generalities *)

(** Only the events, the buckets and the set of threads matter. *)
Lemma threads_ok_ext ix ix' ts :
  by_id ix = by_id ix' -> (forall s, bk_get ix s = bk_get ix' s) ->
  (forall s, bk_valid ix s -> bk_valid ix' s) ->
  threads_ok ix ts -> threads_ok ix' ts.
Proof.
  intros E1 E2 E3 []. split; unfold refs, live in *; try setoid_rewrite <- E2;
    rewrite <- ?E1; try done; eauto.
Qed.

#[export] Instance threads_ok_perm ix : Proper ((≡ₚ) ==> iff) (threads_ok ix).
Proof.
  assert (forall ts ts', ts ≡ₚ ts' -> threads_ok ix ts -> threads_ok ix ts') as Himp.
  { intros ts ts' Hp []. split; try done; try (by rewrite <- Hp);
      try (setoid_rewrite <- Hp; done). }
  intros ts ts' Hp. split; by apply Himp.
Qed.

(** No other thread inserts the id the head inserts. *)
Lemma unique_head ix p ts q i :
  threads_ok ix (p :: ts) -> inserting_id p = Some i -> q ∈ ts ->
  inserting_id q <> Some i.
Proof.
  intros Hok Hp Hq Hi. pose proof (to_unique _ _ Hok) as Hn. simpl in Hn. rewrite Hp in Hn.
  apply NoDup_cons in Hn as [Hn _]. apply Hn. apply list_elem_of_omap. eauto.
Qed.

Lemma refs_slot ix ts s e :
  threads_ok ix ts -> genuine core_of e -> refs ix s (ev_id e) -> s ∈ slots_of e.
Proof.
  intros Hok He (er & Hin & Hid). destruct (to_genuine _ _ Hok _ _ Hin) as [[Her Hg] Hs].
  rewrite Her in Hid. by rewrite (genuine_stable core_of slots_of e (er_event er) stable_slots).
Qed.

(** ** The kinds of access *)

Ltac head_case H := apply elem_of_cons in H as [->|H].

(** The index stays as it is; the head moves to a counter that promises no less
    where it matters. *)
Lemma ok_view ix p p' ts :
  threads_ok ix (p :: ts) -> pc_ok p' ->
  (inserting_id p' = inserting_id p \/ inserting_id p' = None) ->
  (before_primary p' = true -> before_primary p = true) ->
  (unfiled p' = true -> unfiled p = true) ->
  (forall i, cleans p' i -> cleans p i \/
     (~ live ix i /\ inserting_id p = Some i /\ before_primary p = false)) ->
  (forall s i, refs ix s i -> answers_for p i s -> answers_for p' i s \/ live ix i) ->
  (forall s i, live ix i -> will_file p i s -> will_file p' i s) ->
  threads_ok ix (p' :: ts).
Proof.
  intros Hok Hp Hins Hbef Hunf Hcl Hans Hfile.
  pose proof (fun q i => unique_head ix p ts q i Hok) as Huq.
  destruct Hok. split; try done.
  - constructor; [done|]. by apply Forall_cons_1 in to_pcs0 as [_ ?].
  - simpl in *. destruct Hins as [-> | ->]; [done|].
    destruct (inserting_id p); [by apply NoDup_cons in to_unique0 as []|done].
  - intros s i Hr. rewrite Exists_cons. destruct (to_sound0 s i Hr) as [?|Hex]; [by left|].
    apply Exists_cons in Hex as [Ha|?]; [destruct (Hans s i Hr Ha)|]; by auto.
  - intros e s He Hl Hs. rewrite Exists_cons.
    destruct (to_complete0 e s He Hl Hs) as [?|Hex]; [by left|].
    apply Exists_cons in Hex as [Hw|?]; [|by auto]. right. left. by apply Hfile.
  - intros q i Hq Hi. head_case Hq; [|eapply to_gone0; [by right|done]].
    destruct (Hcl _ Hi) as [?|[? _]]; [eapply to_gone0; [by left|done]|done].
  - intros q i Hq Hi Hb. assert (~ live ix i /\ forall q, q ∈ p :: ts -> ~ cleans q i) as [Hl Hc].
    { head_case Hq; [|eapply to_fresh0; [by right|done..]].
      apply to_fresh0 with p; [by left| |by auto]. destruct Hins; congruence. }
    split; [done|]. intros q' Hq'. head_case Hq'; [|apply Hc; by right].
    intros Hq''. destruct (Hcl _ Hq'') as [?|(_ & Hi' & Hbp)]; [eapply Hc; [by left|done]|].
    head_case Hq; [|by eapply Huq]. by rewrite Hbef in Hbp.
  - intros q i Hq Hi Hu. head_case Hq; [|eapply to_unfiled0; [by right|done..]].
    apply to_unfiled0 with p; [by left| |by auto]. destruct Hins; congruence.
Qed.

Lemma live_insert ix e i :
  live (with_by_id (<[ev_id e := e]> (by_id ix)) ix) i <-> i = ev_id e \/ live ix i.
Proof. unfold live. simpl. rewrite lookup_insert_is_Some'. split; (intros [<-|?]; [by left|by right]). Qed.

Lemma live_delete ix j i :
  live (with_by_id (delete j (by_id ix)) ix) i <-> i <> j /\ live ix i.
Proof. unfold live. simpl. rewrite lookup_delete_is_Some. split; (intros [? ?]; by split; [congruence|]). Qed.

(** [by_id.insert] of a fresh event. *)
Lemma ok_primary ix e replaced ts :
  threads_ok ix (InPrimary e replaced :: ts) ->
  threads_ok (with_by_id (<[ev_id e := e]> (by_id ix)) ix) (InEarly e replaced :: ts).
Proof.
  intros Hok. pose proof (fun q => unique_head _ _ _ q _ Hok eq_refl) as Huq.
  destruct Hok. apply Forall_cons_1 in to_pcs0 as [Hp Hps].
  pose proof (po_inserting _ Hp e eq_refl) as He.
  destruct (to_fresh0 (InPrimary e replaced) (ev_id e)) as [Hl Hc]; [by left|done|done|].
  split; try done.
  - simpl. intros i e' [[<- <-]|[_ ?]]%lookup_insert_Some; [done|by auto].
  - constructor; [|done]. split; simpl; intros; simplify_eq; done.
  - intros s i Hr. rewrite live_insert, Exists_cons.
    specialize (to_sound0 s i Hr). rewrite Exists_cons in to_sound0.
    destruct to_sound0 as [?|[[(?&?&?)|(?&?&?&?)]|?]]; [by auto|done|done|by auto].
  - intros e' s He' Hl' Hs. apply live_insert in Hl'. rewrite Exists_cons.
    destruct Hl' as [E|Hl'].
    + right. left. exists e, (slots_of e). split_and!; [done|done|].
      by rewrite (genuine_stable core_of slots_of e e' stable_slots).
    + specialize (to_complete0 e' s He' Hl' Hs). rewrite Exists_cons in to_complete0.
      destruct to_complete0 as [?|[(?&?&?&?)|?]]; [by left|done|by auto].
  - intros q i Hq Hi. rewrite live_insert. head_case Hq; [by destruct Hi as (?&?&?&?)|].
    intros [->|?]; [by eapply Hc; [right|]|]. eapply to_gone0; [by right|done|done].
  - intros q i Hq Hi Hb. head_case Hq; [done|]. rewrite live_insert.
    destruct (to_fresh0 q i) as [Hl' Hc']; [by right|done|done|]. split.
    + intros [->|?]; [|done]. by eapply Huq.
    + intros q' Hq'. head_case Hq'; [by intros (?&?&?&?)|]. apply Hc'. by right.
  - intros q i Hq Hi Hu. head_case Hq; [|eapply to_unfiled0; [by right|done..]].
    apply to_unfiled0 with (InPrimary e replaced); [by left|done|done].
Qed.

(** [by_id.remove] of a stored event by a thread that will empty its buckets. *)
Lemma ok_take ix p p' ts j e :
  threads_ok ix (p :: ts) -> pc_ok p' -> live ix j -> ev_id e = j ->
  cleaning p' = Some (e, slots_of e) ->
  inserting_id p' = inserting_id p -> before_primary p' = before_primary p ->
  (unfiled p' = true -> unfiled p = true) ->
  cleaning p = None -> filing p = None -> to_file p = None ->
  threads_ok (with_by_id (delete j (by_id ix)) ix) (p' :: ts).
Proof.
  intros Hok Hp Hlj <- Hcl' Hins Hbef Hunf Hcl Hfil Hto.
  pose proof (fun s => refs_slot ix _ s e Hok) as Hrs.
  destruct (po_cleaning _ Hp _ _ Hcl') as [He _].
  assert (forall i, cleans p' i <-> i = ev_id e) as Hcp.
  { unfold cleans. rewrite Hcl'. naive_solver. }
  destruct Hok. apply Forall_cons_1 in to_pcs0 as [_ Hps]. split; try done.
  - simpl. intros i e' [_ ?]%lookup_delete_Some. by auto.
  - by constructor.
  - simpl. by rewrite Hins.
  - intros s i Hr. rewrite live_delete, Exists_cons. destruct (decide (i = ev_id e)) as [->|Hne].
    + right. left. right. exists e, (slots_of e). auto.
    + destruct (to_sound0 s i Hr) as [?|Hex]; [by auto|].
      apply Exists_cons in Hex as [[(?&?&?)|(?&?&?&?)]|?]; [congruence|congruence|by auto].
  - intros e' s He' [Hne Hl]%live_delete Hs. rewrite Exists_cons.
    destruct (to_complete0 e' s He' Hl Hs) as [?|Hex]; [by left|].
    apply Exists_cons in Hex as [(?&?&?&?)|?]; [congruence|by auto].
  - intros q i Hq Hi. rewrite live_delete. head_case Hq.
    + apply Hcp in Hi. naive_solver.
    + intros [_ ?]. by eapply to_gone0; [right| |].
  - intros q i Hq Hi Hb. rewrite live_delete.
    assert (~ live ix i /\ forall q, q ∈ p :: ts -> ~ cleans q i) as [Hl Hc].
    { head_case Hq; [|eapply to_fresh0; [by right|done..]].
      apply to_fresh0 with p; [by left|congruence|congruence]. }
    split; [naive_solver|]. intros q' Hq'. head_case Hq'; [|apply Hc; by right].
    intros ->%Hcp. done.
  - intros q i Hq Hi Hu. head_case Hq; [|eapply to_unfiled0; [by right|done..]].
    apply to_unfiled0 with p; [by left|congruence|by auto].
Qed.

(** The undone [by_id.insert]. *)
Lemma ok_undo ix e o ts :
  threads_ok ix (InUndo e :: ts) ->
  threads_ok (with_by_id (delete (ev_id e) (by_id ix)) ix) (Done (AInsert o) :: ts).
Proof.
  intros Hok. destruct Hok. apply Forall_cons_1 in to_pcs0 as [Hp Hps].
  pose proof (to_unfiled0 (InUndo e) (ev_id e)) as Hno. split; try done.
  - simpl. intros i e' [_ ?]%lookup_delete_Some. by auto.
  - constructor; [|done]. by split.
  - simpl in *. by apply NoDup_cons in to_unique0 as [].
  - intros s i Hr. rewrite live_delete, Exists_cons.
    destruct (decide (i = ev_id e)) as [->|Hne]; [by destruct (Hno ltac:(by left) eq_refl eq_refl s)|].
    destruct (to_sound0 s i Hr) as [?|Hex]; [by auto|].
    apply Exists_cons in Hex as [[(?&?&?)|(?&?&?&?)]|?]; [done|done|by auto].
  - intros e' s He' [Hne Hl]%live_delete Hs. rewrite Exists_cons.
    destruct (to_complete0 e' s He' Hl Hs) as [?|Hex]; [by left|].
    apply Exists_cons in Hex as [(?&?&?&?&?)|?]; [naive_solver|by auto].
  - intros q i Hq Hi. rewrite live_delete. head_case Hq; [by destruct Hi as (?&?&?&?)|].
    intros [_ ?]. by eapply to_gone0; [right| |].
  - intros q i Hq Hi Hb. head_case Hq; [done|]. rewrite live_delete.
    destruct (to_fresh0 q i) as [Hl' Hc']; [by right|done|done|]. split; [naive_solver|].
    intros q' Hq'. head_case Hq'; [by intros (?&?&?&?)|]. apply Hc'. by right.
  - intros q i Hq Hi Hu. head_case Hq; [done|]. eapply to_unfiled0; [by right|done..].
Qed.

(** References after a bucket update. *)
Lemma refs_add ix s e s' i :
  bk_valid ix s ->
  refs (bk_add ix s (event_ref e)) s' i <-> refs ix s' i \/ (s' = s /\ i = ev_id e).
Proof.
  intros Hv. unfold refs. rewrite bk_get_add by done. case_decide as Hs; [subst s'|].
  - split.
    + intros (er & [->|Hin]%elem_of_bt_insert_1 & <-); eauto.
    + intros [(er & Hin & <-)|[_ ->]].
      * exists er. split; [by apply elem_of_bt_insert_2|done].
      * destruct (elem_of_bt_insert_eq (event_ref e) (bk_get ix s)) as (er & Hin & Hc).
        exists er. split; [done|]. by apply er_cmp_eq in Hc as [_ <-].
  - split; [by left|]. by intros [?|[? _]].
Qed.

Lemma elem_bk_del ix ts s e s' er :
  threads_ok ix ts -> genuine core_of e -> bk_valid ix s ->
  er ∈ bk_get (bk_del ix s (event_ref e)) s' <->
  er ∈ bk_get ix s' /\ ~ (s' = s /\ er_id er = ev_id e).
Proof.
  intros Hok He Hv. rewrite bk_get_del by done.
  case_decide as Hs; [subst s'|naive_solver].
  rewrite elem_of_bt_remove by (apply (to_sorted _ _ Hok)).
  split; intros [Hin Hne]; (split; [done|]);
    destruct (to_genuine _ _ Hok _ _ Hin) as [[Her Hg] _];
    rewrite Her in Hne |- *; simpl in *; rewrite genuine_cmp in * by done; naive_solver.
Qed.

(** A bucket emptied of an event that is gone. *)
Lemma ok_unfile ix p p' ts s todo e :
  threads_ok ix (p :: ts) ->
  cleaning p = Some (e, s :: todo) -> cleaning p' = Some (e, todo) ->
  inserting p' = inserting p -> before_primary p' = before_primary p ->
  (unfiled p' = true -> unfiled p = true) ->
  filing p = None -> to_file p = None -> to_file p' = None ->
  threads_ok (bk_del ix s (event_ref e)) (p' :: ts).
Proof.
  intros Hok Hcl Hcl' Hins Hbef Hunf Hfil Hto Hto'.
  destruct (Forall_cons_1 _ _ _ (to_pcs _ _ Hok)) as [Hp Hps].
  destruct (po_cleaning _ Hp _ _ Hcl) as [He Hsub].
  assert (Hin : s ∈ slots_of e) by (apply Hsub; by left).
  pose proof (to_valid _ _ Hok _ _ Hin) as Hv.
  pose proof (fun s' er => elem_bk_del ix _ s e s' er Hok He Hv) as Hel.
  assert (forall s' i, refs (bk_del ix s (event_ref e)) s' i <->
    refs ix s' i /\ ~ (s' = s /\ i = ev_id e)) as Hrefs.
  { intros s' i. unfold refs. setoid_rewrite Hel. split; [|naive_solver].
    intros (er & [? ?] & <-). eauto. }
  assert (by_id (bk_del ix s (event_ref e)) = by_id ix) as Hby by by destruct s.
  assert (forall i, live (bk_del ix s (event_ref e)) i <-> live ix i) as Hlive.
  { intros i. unfold live. by rewrite Hby. }
  assert (forall i, cleans p' i <-> cleans p i) as Hcc.
  { intros i. unfold cleans. rewrite Hcl, Hcl'. naive_solver. }
  destruct Hok. split.
  - by rewrite Hby.
  - constructor; [|done]. split; [rewrite Hins; apply Hp| |by rewrite Hto'].
    rewrite Hcl'. intros ? ? [= <- <-]. split; [done|].
    intros x Hx. apply Hsub. by right.
  - unfold inserting_id in *. simpl in *. by rewrite Hins.
  - intros e' s' Hs'. apply bk_valid_del. eauto.
  - intros s'. rewrite bk_get_del by done. case_decide; [by apply bt_remove_sorted|done].
  - intros s' er [? _]%Hel. by apply to_genuine0.
  - intros s' i [Hr Hne]%Hrefs. rewrite Hlive, Exists_cons.
    destruct (to_sound0 s' i Hr) as [?|Hex]; [by left|].
    apply Exists_cons in Hex as [[(?&?&?)|(e'&l&Hc&<-&Hl)]|?]; [congruence| |by auto].
    rewrite Hcl in Hc. injection Hc as <- <-. right. left. right. exists e, todo.
    split_and!; [done..|]. apply elem_of_cons in Hl as [->|?]; [by destruct Hne|done].
  - intros e' s' He' Hl%Hlive Hs'. rewrite Hrefs, Exists_cons.
    destruct (to_complete0 e' s' He' Hl Hs') as [?|Hex].
    + left. split; [done|]. intros [_ E]. eapply to_gone0; [by left| |done].
      exists e, (s :: todo). by rewrite E.
    + apply Exists_cons in Hex as [(?&?&?&?)|?]; [congruence|by auto].
  - intros q i Hq Hi. rewrite Hlive. head_case Hq;
      [apply Hcc in Hi; eapply to_gone0; [by left|done]|eapply to_gone0; [by right|done]].
  - intros q i Hq Hi Hb. rewrite Hlive.
    assert (~ live ix i /\ forall q, q ∈ p :: ts -> ~ cleans q i) as [Hl Hc].
    { head_case Hq; [|eapply to_fresh0; [by right|done..]].
      apply to_fresh0 with p; [by left| |congruence]. unfold inserting_id in *. by rewrite <- Hins. }
    split; [done|]. intros q' Hq'. head_case Hq'; [|apply Hc; by right].
    rewrite Hcc. apply Hc. by left.
  - intros q i Hq Hi Hu s' [Hr _]%Hrefs. revert Hr.
    head_case Hq; [|eapply to_unfiled0; [by right|done..]].
    apply to_unfiled0 with p; [by left| |by auto]. unfold inserting_id in *. by rewrite <- Hins.
Qed.

(** A bucket filled by the inserter. *)
Lemma ok_file ix e replaced s todo ts :
  threads_ok ix (InFile e replaced (s :: todo) :: ts) ->
  threads_ok (bk_add ix s (event_ref e)) (InFile e replaced todo :: ts).
Proof.
  intros Hok. pose proof (fun q => unique_head _ _ _ q _ Hok eq_refl) as Huq.
  destruct (Forall_cons_1 _ _ _ (to_pcs _ _ Hok)) as [Hp Hps].
  pose proof (po_inserting _ Hp e eq_refl) as He.
  pose proof (po_to_file _ Hp _ _ eq_refl) as Hsub.
  assert (Hin : s ∈ slots_of e) by (apply Hsub; by left).
  pose proof (to_valid _ _ Hok _ _ Hin) as Hv.
  pose proof (fun s' i => refs_add ix s e s' i Hv) as Hrefs.
  assert (by_id (bk_add ix s (event_ref e)) = by_id ix) as Hby by by destruct s.
  assert (forall i, live (bk_add ix s (event_ref e)) i <-> live ix i) as Hlive.
  { intros i. unfold live. by rewrite Hby. }
  destruct Hok. split.
  - by rewrite Hby.
  - constructor; [|done]. split; simpl; [by intros ? [= <-]|done|].
    intros ? ? [= <- <-] x Hx. apply Hsub. by right.
  - done.
  - intros e' s' Hs'. apply bk_valid_add. eauto.
  - intros s'. rewrite bk_get_add by done. case_decide; [by apply bt_insert_sorted|done].
  - intros s' er. rewrite bk_get_add by done. case_decide as E; [|apply to_genuine0].
    intros [->|?]%elem_of_bt_insert_1; [by subst s'|subst s'; by apply to_genuine0].
  - intros s' i Hr. rewrite Hlive, Exists_cons. apply Hrefs in Hr as [Hr|[-> ->]].
    + destruct (to_sound0 s' i Hr) as [?|Hex]; [by left|].
      apply Exists_cons in Hex as [[(?&?&?)|(?&?&?&?)]|?]; [|done|by auto].
      right. left. left. simpl in *. simplify_eq. eauto.
    + right. left. left. by exists e.
  - intros e' s' He' Hl%Hlive Hs'. rewrite Hrefs, Exists_cons.
    destruct (to_complete0 e' s' He' Hl Hs') as [?|Hex]; [by auto|].
    apply Exists_cons in Hex as [(e0&l&Hf&E&Hin')|?]; [|by auto].
    simpl in Hf. injection Hf as <- <-. apply elem_of_cons in Hin' as [->|?].
    + left. right. by rewrite E.
    + right. left. by exists e, todo.
  - intros q i Hq Hi. rewrite Hlive. head_case Hq; [by destruct Hi as (?&?&?&?)|].
    eapply to_gone0; [by right|done].
  - intros q i Hq Hi Hb. head_case Hq; [done|]. rewrite Hlive.
    destruct (to_fresh0 q i) as [Hl' Hc']; [by right|done|done|]. split; [done|].
    intros q' Hq'. head_case Hq'; [by intros (?&?&?&?)|]. apply Hc'. by right.
  - intros q i Hq Hi Hu s' Hr. head_case Hq; [done|]. apply Hrefs in Hr as [Hr|[-> ->]].
    + revert Hr. eapply to_unfiled0; [by right|done..].
    + by eapply Huq.
Qed.

(** ** Every access *)

Lemma ctx_views K r r' :
  remove_ctx K ->
  inserting (K r) = inserting (K r') /\ before_primary (K r) = before_primary (K r')
  /\ unfiled (K r) = unfiled (K r') /\ filing (K r) = None /\ to_file (K r) = None
  /\ cleaning (K r) = rm_cleaning r.
Proof. by destruct 1. Qed.

(** A step inside [internal_remove] that leaves the events and buckets alone. *)
Lemma ctx_view K ix ix' r r' ts :
  remove_ctx K -> threads_ok ix (K r :: ts) ->
  by_id ix = by_id ix' -> (forall s, bk_get ix s = bk_get ix' s) ->
  (forall s, bk_valid ix s -> bk_valid ix' s) ->
  (rm_cleaning r' = rm_cleaning r \/
   (rm_cleaning r' = None /\ forall e todo, rm_cleaning r = Some (e, todo) -> todo = [])) ->
  threads_ok ix' (K r' :: ts).
Proof.
  intros HK Hok E1 E2 E3 Hcl. apply (threads_ok_ext ix); [done..|].
  destruct (ctx_views K r r' HK) as (V1 & V2 & V3 & V4 & V5 & V6).
  destruct (ctx_views K r' r HK) as (_ & _ & _ & V4' & V5' & V6').
  destruct (Forall_cons_1 _ _ _ (to_pcs _ _ Hok)) as [Hp _].
  apply (ok_view _ (K r)); [done|..].
  - split; rewrite <- ?V1, ?V5', ?V6'; [apply Hp| |done].
    destruct Hcl as [-> |[-> _]]; [rewrite <- V6; apply Hp|done].
  - unfold inserting_id. left. by rewrite V1.
  - by rewrite V2.
  - by rewrite V3.
  - intros i (e & todo & Hc & <-). left. exists e, todo. rewrite V6, V6' in *.
    destruct Hcl as [<- |[Hn _]]; [done|congruence].
  - intros s i _ [(?&?&?)|(e & todo & Hc & <- & Hin)]; [congruence|].
    left. right. exists e, todo. rewrite V6' in *. rewrite V6 in Hc.
    destruct Hcl as [-> |[_ Hn]]; [done|]. rewrite (Hn _ _ Hc) in Hin. by apply not_elem_of_nil in Hin.
  - intros s i _ (?&?&?&?). congruence.
Qed.

Lemma removal_ok K ix r b ts :
  remove_ctx K -> threads_ok ix (K r :: ts) -> removal_step ix r = Some b ->
  threads_ok b.1 (K b.2 :: ts).
Proof.
  intros HK Hok Hs.
  destruct r as [id skip|event skip|event skip|event|event [|s todo]|removed];
    simpl in Hs; try done; injection Hs as <-; simpl.
  - destruct (by_id ix !! id) as [event|] eqn:E; simpl; [|eapply ctx_view; eauto].
    destruct (ctx_views K (RmTake id skip) (RmMemory event skip) HK)
      as (V1 & V2 & V3 & V4 & V5 & V6).
    destruct (ctx_views K (RmMemory event skip) (RmTake id skip) HK)
      as (_ & _ & _ & V4' & V5' & V6').
    destruct (to_by_id _ _ Hok _ _ E) as [<- He].
    destruct (Forall_cons_1 _ _ _ (to_pcs _ _ Hok)) as [Hp _].
    apply ok_take with (K (RmTake (ev_id event) skip)) event;
      unfold inserting_id; rewrite ?V1, ?V2, ?V3, ?V6'; try done.
    + split; rewrite <- ?V1, ?V5', ?V6'; [apply Hp| |done]. by intros ? ? [= <- <-].
    + by exists event.
  - eapply ctx_view; try done. by left.
  - eapply ctx_view; try done. left. by destruct (_ && _).
  - eapply ctx_view; try done. by left.
  - eapply ctx_view; try done. right. split; [done|]. by intros ? ? [= _ <-].
  - destruct (ctx_views K (RmSlots event (s :: todo)) (RmSlots event todo) HK)
      as (V1 & V2 & V3 & V4 & V5 & V6).
    destruct (ctx_views K (RmSlots event todo) (RmSlots event (s :: todo)) HK)
      as (_ & _ & _ & _ & V5' & V6').
    by apply ok_unfile with (K (RmSlots event (s :: todo))) todo; rewrite ?V3, ?V6, ?V6'.
Qed.

(** Discharges the conditions of [ok_view] for two given program counters. *)
Ltac view :=
  simpl; unfold inserting_id, cleans, answers_for, will_file; simpl;
  try first [by left | by right | done
    | intros; left; assumption | intros; assumption
    | by intros ? (?&?&?&?) | by intros ? ? _ (?&?&?&?)
    | by intros ? ? _ [(?&?&?)|(?&?&?&?)]].

Ltac same_pc Hok :=
  let Hp := fresh "Hp" in
  destruct (Forall_cons_1 _ _ _ (to_pcs _ _ Hok)) as [Hp _];
  split; simpl; try done; try (apply (po_inserting _ Hp)); try (apply (po_cleaning _ Hp));
  try (apply (po_to_file _ Hp)).

Ltac moves Hok :=
  match type of Hok with
  | threads_ok ?ix (?p :: _) =>
      apply (threads_ok_ext ix); [done|done|done|]; apply (ok_view _ p); [exact Hok|..];
      [try by same_pc Hok|view..]
  end.

Lemma access_removing K ix r b :
  remove_ctx K -> access ix (K r) = Some b ->
  (exists removed, r = RmDone removed /\ b.1 = ix /\ inserting b.2 = inserting (K r)
     /\ cleaning b.2 = None /\ to_file b.2 = None /\ filing b.2 = None
     /\ before_primary b.2 = before_primary (K r) /\ unfiled b.2 = unfiled (K r)) \/
  (exists r', b.2 = K r' /\ removal_step ix r = Some (b.1, r')).
Proof.
  destruct 1; destruct r as [id' skip|event skip|event skip|event|event todo|rem];
    cbn [access]; intros E;
    try (left; exists rem; injection E as <-; done);
    right; destruct (removal_step ix _) as [[ix1 r1]|] eqn:Er; try done;
    injection E as <-; by exists r1.
Qed.

Lemma ok_ctx_access K ix r b ts :
  remove_ctx K -> threads_ok ix (K r :: ts) -> access ix (K r) = Some b ->
  threads_ok b.1 (b.2 :: ts).
Proof.
  intros HK Hok Ha.
  destruct (access_removing K ix r b HK Ha)
    as [(rem & -> & -> & E1 & E2 & E3 & E4 & E5 & E6)|(r' & -> & Hs)].
  - destruct (ctx_views K (RmDone rem) (RmDone rem) HK) as (_ & _ & _ & V4 & V5 & V6).
    destruct (Forall_cons_1 _ _ _ (to_pcs _ _ Hok)) as [Hp _].
    apply (ok_view _ (K (RmDone rem))); [done|..].
    + split; rewrite ?E1, ?E2, ?E3; [apply Hp|done|done].
    + unfold inserting_id. left. by rewrite E1.
    + by rewrite E5.
    + by rewrite E6.
    + intros i (?&?&?&?). congruence.
    + intros s i _ [(?&?&?)|(?&?&Hc&?)]; [congruence|]. by rewrite V6 in Hc.
    + intros s i _ (?&?&?&?). congruence.
  - by eapply removal_ok in Hs.
Qed.

(** The re-check that finds the event gone. *)
Lemma ok_orphan ix e replaced o ts :
  threads_ok ix (InCheck e replaced :: ts) -> ~ live ix (ev_id e) ->
  threads_ok ix (InClean e (slots_of e) o :: ts).
Proof.
  intros Hok Hl. destruct (Forall_cons_1 _ _ _ (to_pcs _ _ Hok)) as [Hp _].
  pose proof (po_inserting _ Hp e eq_refl) as He.
  apply (ok_view _ (InCheck e replaced)); [done|..]; view.
  - split; simpl; [apply Hp| |done]. by intros ? ? [= <- <-].
  - intros i (?&?&[= <- <-]&<-). by right.
  - intros s i Hr [(?&[= <-]&<-)|(?&?&?&?)]; [|done]. left. right.
    exists e, (slots_of e). split_and!; [done..|]. by eapply refs_slot.
  - by intros ? ? _ (?&?&[= <- <-]&_&?%not_elem_of_nil).
Qed.

Lemma access_ok ix p b ts :
  threads_ok ix (p :: ts) -> access ix p = Some b -> threads_ok b.1 (b.2 :: ts).
Proof.
  intros Hok Ha. destruct p as [e|e|e old|e r|e rep|e rep|e|e rep|e rep|e rep [|s todo]
    |e rep|e rep|e|e|e|e [|s todo] o|r|id r|id rem|id rem|a]; try done.
  - injection Ha as <-. cbn [fst snd].
    destruct (tombstones_contains _ _); [moves Hok|].
    destruct (is_replaceable e); [|moves Hok]. destruct (replacement_key e); moves Hok.
  - injection Ha as <-. destruct (_ !! _); cbn [fst snd]; moves Hok.
  - injection Ha as <-. destruct (incoming_wins _ _ _); cbn [fst snd]; moves Hok.
  - by apply (ok_ctx_access (InReplace e) ix r); [constructor|..].
  - injection Ha as <-. cbn [fst snd]. case_bool_decide as Hl.
    + destruct (to_fresh _ _ Hok (InPrimary e rep) (ev_id e)) as [? _];
        [by left|done|done|done].
    + by apply ok_primary.
  - injection Ha as <-. cbn [fst snd]. destruct (_ && _); moves Hok.
  - injection Ha as <-. by apply ok_undo.
  - injection Ha as <-. moves Hok.
  - injection Ha as <-. moves Hok.
  - injection Ha as <-. moves Hok.
  - injection Ha as <-. by apply ok_file.
  - injection Ha as <-. cbn [fst snd]. case_bool_decide as Hl.
    + moves Hok; [|by intros ? ? _ (?&?&[= <- <-]&_&?%not_elem_of_nil)].
      intros s i _ [(?&[= <-]&<-)|(?&?&?&?)]; [by right|done].
    + by apply ok_orphan with rep.
  - injection Ha as <-. cbn [fst snd]. destruct (_ && _); moves Hok.
  - injection Ha as <-. destruct (by_id ix !! ev_id e) eqn:E; cbn [fst snd];
    destruct (Forall_cons_1 _ _ _ (to_pcs _ _ Hok)) as [Hp _].
    + apply ok_take with (InCleanTake e) e; try done; [|by eexists].
      split; simpl; [apply Hp| |done]. intros ? ? [= <- <-]. split; [by apply (po_inserting _ Hp)|done].
    + moves Hok.
      * split; simpl; [apply Hp| |done]. intros ? ? [= <- <-]. split; [by apply (po_inserting _ Hp)|done].
      * intros i (?&?&[= <- <-]&<-). right. split; [|done]. unfold live. rewrite E. by intros [].
  - injection Ha as <-. moves Hok.
  - injection Ha as <-. moves Hok.
  - injection Ha as <-. moves Hok.
    by intros ? ? _ [(?&?&?)|(?&?&[= <- <-]&_&?%not_elem_of_nil)].
  - injection Ha as <-. by apply ok_unfile with (InClean e (s :: todo) o) todo.
  - by apply (ok_ctx_access Removing ix r); [constructor|..].
  - by apply (ok_ctx_access (Deleting id) ix r); [constructor|..].
  - injection Ha as <-. case_bool_decide; cbn [fst snd]; moves Hok.
  - injection Ha as <-. moves Hok.
Qed.

(** ** Worlds *)

Definition world_ok (w : World) : Prop := threads_ok (w_index w) (w_threads w).

(** The thread that moves, brought to the front. *)
Lemma run_thread_inv w (n : nat) w' :
  run_thread w n = Some w' ->
  exists p p' ts, access (w_index w) p = Some (w_index w', p')
    /\ w_threads w ≡ₚ p :: ts /\ w_threads w' ≡ₚ p' :: ts
    /\ (forall key, wants p = Some key -> key ∉ omap holds ts).
Proof.
  unfold run_thread. destruct (w_threads w !! n) as [p|] eqn:Ei; [simpl|done].
  destruct (thread_step _ _ p) as [[ix' p']|] eqn:Es; [simpl|done]. intros [= <-]. simpl.
  pose proof (lookup_lt_Some _ _ _ Ei) as Hlt.
  assert (w_threads w ≡ₚ p :: (take n (w_threads w) ++ drop (S n) (w_threads w))) as Hp.
  { rewrite <- (take_drop_middle _ _ _ Ei) at 1. by rewrite Permutation_middle. }
  exists p, p', (take n (w_threads w) ++ drop (S n) (w_threads w)). split_and!; [|done|..].
  - unfold thread_step in Es. destruct (wants p); [|done]. by case_bool_decide.
  - rewrite insert_take_drop by done. by rewrite Permutation_middle.
  - intros key Hw Hin. unfold thread_step in Es. rewrite Hw in Es.
    case_bool_decide as Hk; [done|]. apply Hk. rewrite Hp. simpl.
    destruct (holds p); [by right|done].
Qed.

Lemma world_ok_step w w' : world_ok w -> cstep w w' -> world_ok w'.
Proof.
  unfold world_ok. intros Hok [i (p & p' & ts & Ha & Hp & Hp' & _)%run_thread_inv].
  rewrite Hp in Hok. rewrite Hp'. by apply (access_ok _ _ _ _ Hok) in Ha.
Qed.

Lemma world_ok_steps w w' : world_ok w -> rtc cstep w w' -> world_ok w'.
Proof. induction 2; eauto using world_ok_step. Qed.

(** The calls a run starts with: no event is inserted twice, none is stored
    already, and every event is genuine. *)
Definition inserted (c : call) : option Event :=
  match c with CInsert e => Some e | _ => None end.

Record calls_ok (ix : EventIndex) (calls : list call) : Prop := {
  co_genuine : Forall (genuine core_of) (omap inserted calls);
  co_distinct : NoDup (ev_id <$> omap inserted calls);
  co_fresh : Forall (fun e => by_id ix !! ev_id e = None) (omap inserted calls);
}.

Definition starting (ix : EventIndex) (calls : list call) : World :=
  mkWorld ix (start <$> calls).

Lemma inserting_start c : inserting (start c) = inserted c.
Proof. by destruct c. Qed.

Lemma elem_starting (p : pc) (calls : list call) :
  p ∈ start <$> calls -> exists c, c ∈ calls /\ p = start c /\ cleaning p = None.
Proof. intros ([] & -> & ?)%list_elem_of_fmap; eauto. Qed.

Lemma world_ok_starting ix calls :
  wf_index core_of ix -> calls_ok ix calls -> world_ok (starting ix calls).
Proof.
  intros [Hid Hsec _ _ _] [Hg Hd Hf]. apply slots_secondary in Hsec as [[Hv Hs Hso Hco] _].
  rewrite Forall_forall in Hg, Hf.
  assert (forall i, i ∈ dom (by_id ix) <-> live ix i) as Hdom by (intros; apply elem_of_dom).
  assert (forall p e, p ∈ start <$> calls -> inserting p = Some e ->
    e ∈ omap inserted calls) as Hins.
  { intros p e (c & Hc & -> & _)%elem_starting. rewrite inserting_start. intros E.
    apply list_elem_of_omap. eauto. }
  split; simpl; try done.
  - apply Forall_forall. intros p Hp. pose proof (elem_starting _ _ Hp) as (c & Hc & -> & Hcl).
    split; [intros; by eapply Hg, Hins|by rewrite Hcl|by destruct c].
  - revert Hd. clear. induction calls as [|c calls IH]; simpl; [done|].
    destruct c as [e|id|id]; simpl; [|done|done]. intros [Hn Hd]%NoDup_cons.
    constructor; [|by apply IH]. intros Hin. apply Hn.
    apply list_elem_of_omap in Hin as (p & (c & -> & Hc)%list_elem_of_fmap & E).
    unfold inserting_id in E. rewrite inserting_start in E.
    destruct (inserted c) as [e'|] eqn:Ec; [|done]. injection E as <-.
    apply list_elem_of_fmap_2, list_elem_of_omap. eauto.
  - intros s er Hin. by destruct (Hso _ _ Hin) as (? & _ & ?).
  - intros s i (er & Hin & <-). left. apply Hdom. by destruct (Hso _ _ Hin) as (_ & ? & _).
  - intros e s He Hl Hin. left. apply Hdom in Hl. exact (Hco e s He Hl Hin).
  - intros p i (c & Hc & -> & Hcl)%elem_starting (?&?&?&?). congruence.
  - intros p i Hp Hi _. unfold inserting_id in Hi.
    destruct (inserting p) as [e|] eqn:E; [|done]. injection Hi as <-. split.
    + unfold live. rewrite (Hf e) by eauto. by intros [].
    + intros q (c & Hc & -> & Hcl)%elem_starting (?&?&?&?). congruence.
  - intros p i Hp Hi _ s (er & Hin & Her). unfold inserting_id in Hi.
    destruct (inserting p) as [e|] eqn:E; [|done]. injection Hi as <-.
    destruct (Hso _ _ Hin) as (_ & Hl & _). apply Hdom in Hl. rewrite Her in Hl.
    unfold live in Hl. rewrite (Hf e) in Hl by eauto. by destruct Hl.
Qed.

(** Once every thread is done, nobody is left to answer for a discrepancy. *)
Lemma quiet_done w p : quiet w -> p ∈ w_threads w -> exists a, p = Done a.
Proof.
  unfold quiet. rewrite forallb_forall. intros Hq Hp%list_elem_of_In%Hq.
  destruct p; try done. eauto.
Qed.

Lemma quiet_bucket_ok w :
  world_ok w -> quiet w ->
  bucket_ok core_of (dom (by_id (w_index w))) (w_index w) slots_of.
Proof.
  intros [] Hq.
  assert (forall P : pc -> Prop, (forall a, ~ P (Done a)) -> ~ Exists P (w_threads w)) as Hno.
  { intros P HP (p & Hp & HPp)%Exists_exists.
    destruct (quiet_done _ _ Hq Hp) as [a ->]. by eapply HP. }
  split; [done|done|..].
  - intros s er Hin. destruct (to_genuine0 _ _ Hin) as [Hr Hs]. split_and!; [done| |done].
    apply elem_of_dom. destruct (to_sound0 s (er_id er)) as [?|Hex]; [by exists er|done|].
    exfalso. revert Hex. apply Hno. by intros a [(?&?&?)|(?&?&?&?)].
  - intros e s He Hl Hs. apply elem_of_dom in Hl.
    destruct (to_complete0 e s He Hl Hs) as [?|Hex]; [done|].
    exfalso. revert Hex. apply Hno. by intros a (?&?&?&?).
Qed.
End Invariant.
