(* ===== verification/ThreadsProps.v ===== *)
(** What the concurrent index ([Threads.v]) guarantees, and where it does not.

    A thread that runs without interference is the sequential method; whatever
    the interleaving, every run ends, and once it has ended the secondary
    indexes agree with [by_id], the event counter is off by at most the number
    of inserts that lost a race, and without NIP-09 deletions every stored
    replaceable event is the one its key points at. The closing section runs the
    schedules on which the code breaks what it promises. *)
From S2P Require Import Prelude Collections Event Reference Tombstones Index IndexInv IndexSpec Threads ThreadsInv.

(** * A call that is not interfered with *)

Section Solo.
Context `{HexCrate}.

(** A step of one thread, in a world whose other threads hold no lock, and a run of
    them. *)
Lemma lone_thread ts n a b :
  n < length ts -> (forall j p, j <> n -> ts !! j = Some p -> holds p = None) ->
  lone_step a b ->
  run_thread (mkWorld a.1 (<[n := a.2]> ts)) n = Some (mkWorld b.1 (<[n := b.2]> ts)).
Proof.
  intros Hn Hfree [Hw Ha]. destruct a as [ix p], b as [ix' p']. unfold run_thread. simpl.
  rewrite list_lookup_insert_eq by done. simpl.
  assert (thread_step (omap holds (<[n := p]> ts)) ix p = Some (ix', p')) as ->.
  { unfold thread_step. simpl in *. destruct (wants p) as [key|]; [|done].
    rewrite bool_decide_false; [done|]. intros (q & Hq & Hk)%list_elem_of_omap.
    apply list_elem_of_lookup in Hq as [j Hj].
    destruct (decide (j = n)) as [->|Hne].
    - rewrite list_lookup_insert_eq in Hj by done. destruct Hw; congruence.
    - rewrite list_lookup_insert_ne in Hj by done. rewrite (Hfree j q) in Hk; done. }
  simpl. by rewrite list_insert_insert_eq.
Qed.

Lemma lone_in_world ts n a b :
  n < length ts -> (forall j p, j <> n -> ts !! j = Some p -> holds p = None) ->
  rtc lone_step a b ->
  rtc cstep (mkWorld a.1 (<[n := a.2]> ts)) (mkWorld b.1 (<[n := b.2]> ts)).
Proof.
  intros Hn Hfree. induction 1 as [|a b c Hs _ IH]; [done|].
  eapply rtc_l; [|exact IH]. exists n. by apply lone_thread.
Qed.
End Solo.

(** * The event counter *)

Section Counter.
Context `{HexCrate} (core_of : bytes -> Core).

(** What a thread still owes the event counter, and whether it lost a race. *)
Definition debt (p : pc) : Z :=
  match p with
  | InEarly _ _ | InUndo _ | InMemory _ _ | InCount _ _ => -1
  | InCleanMemory _ | InCleanCount _
  | InReplace _ (RmMemory _ _ | RmCount _ _)
  | Removing (RmMemory _ _ | RmCount _ _)
  | Deleting _ (RmMemory _ _ | RmCount _ _) => 1
  | _ => 0
  end.
Definition lost (p : pc) : Z :=
  match p with Done (AInsert LostRace) => 1 | _ => 0 end.

Definition total (f : pc -> Z) (ts : list pc) : Z :=
  foldr (fun p n => f p + n)%Z 0%Z ts.

#[export] Instance total_perm f : Proper ((≡ₚ) ==> (=)) (total f).
Proof. induction 1; simpl; lia. Qed.

Definition counter_ok (ix : EventIndex) (ts : list pc) : Prop :=
  exists missed,
    (0 <= missed <= total lost ts)%Z /\
    event_count ix = wrap64 (Z.of_nat (size (by_id ix)) + total debt ts - missed).

#[export] Instance counter_ok_perm ix : Proper ((≡ₚ) ==> iff) (counter_ok ix).
Proof. intros ts ts' Hp. unfold counter_ok. by setoid_rewrite Hp. Qed.

(** An access that changes the number of events, its own debt and the counter by
    amounts that balance. *)
Lemma counter_balance d ix ix' p p' ts :
  counter_ok ix (p :: ts) -> (lost p <= lost p')%Z ->
  (forall a, event_count ix = wrap64 a -> event_count ix' = wrap64 (a + d)) ->
  (Z.of_nat (size (by_id ix')) + debt p' = Z.of_nat (size (by_id ix)) + debt p + d)%Z ->
  counter_ok ix' (p' :: ts).
Proof.
  intros (m & Hm & Hc) Hl Hd Hb. exists m. simpl in *. split; [lia|].
  rewrite (Hd _ Hc). f_equal. lia.
Qed.

(** An access that touches neither. *)
Lemma counter_same ix ix' p p' ts :
  counter_ok ix (p :: ts) -> (lost p <= lost p')%Z ->
  event_count ix' = event_count ix -> by_id ix' = by_id ix -> debt p' = debt p ->
  counter_ok ix' (p' :: ts).
Proof.
  intros Hc Hl E1 E2 E3. apply (counter_balance 0 ix _ p); [done|done| |rewrite E2; lia].
  intros a Ha. by rewrite E1, Z.add_0_r.
Qed.

Lemma counter_removal K ix r b ts :
  remove_ctx K -> counter_ok ix (K r :: ts) -> removal_step ix r = Some b ->
  counter_ok b.1 (K b.2 :: ts).
Proof.
  intros HK Hc Hs.
  assert (forall r, lost (K r) = 0%Z) as Hl by by destruct HK.
  assert (forall r, debt (K r) = match r with RmMemory _ _ | RmCount _ _ => 1 | _ => 0 end)%Z
    as Hd by by destruct HK.
  destruct r as [id skip|event skip|event skip|event|event [|s todo]|removed];
    simpl in Hs; try done; injection Hs as <-; simpl.
  - destruct (by_id ix !! id) as [event|] eqn:E; simpl.
    + apply (counter_balance 0 ix _ (K (RmTake id skip))); rewrite ?Hl, ?Hd; [done..| |].
      * intros a Ha. by rewrite Z.add_0_r.
      * simpl. rewrite (size_delete_pred _ _ _ E). lia.
    + apply (counter_same ix _ (K (RmTake id skip))); by rewrite ?Hl, ?Hd.
  - apply (counter_same ix _ (K (RmMemory event skip))); by rewrite ?Hl, ?Hd.
  - apply (counter_balance (-1) ix _ (K (RmCount event skip))); rewrite ?Hl, ?Hd; [done..| |].
    + intros a Ha. simpl. rewrite Ha, fetch_sub_wrap. done.
    + simpl. destruct (_ && _); lia.
  - apply (counter_same ix _ (K (RmKey event))); by rewrite ?Hl, ?Hd.
  - apply (counter_same ix _ (K (RmSlots event []))); by rewrite ?Hl, ?Hd.
  - apply (counter_same ix _ (K (RmSlots event (s :: todo)))); rewrite ?Hl, ?Hd; by destruct s.
Qed.

Ltac same p := by eapply (counter_same _ _ p).

Lemma counter_access ix p b ts :
  threads_ok core_of ix (p :: ts) -> access ix p = Some b ->
  counter_ok ix (p :: ts) -> counter_ok b.1 (b.2 :: ts).
Proof.
  intros Hok Ha Hc. destruct p as [e|e|e old|e r|e rep|e rep|e|e rep|e rep|e rep [|s todo]
    |e rep|e rep|e|e|e|e [|s todo] o|r|id r|id rem|id rem|a]; try done.
  - injection Ha as <-. cbn [fst snd].
    destruct (tombstones_contains _ _); [same (InTombstone e)|].
    destruct (is_replaceable e); [destruct (replacement_key e)|]; same (InTombstone e).
  - injection Ha as <-. destruct (_ !! _); same (InClaim e).
  - injection Ha as <-. destruct (incoming_wins _ _ _); same (InCompare e old).
  - destruct (access_removing (InReplace e) ix r b) as [(rem & -> & ? & _)|(r' & -> & Hs)];
      [constructor|done| |by apply (counter_removal (InReplace e) ix r (b.1, r')); [constructor|..]].
    injection Ha as <-. same (InReplace e (RmDone rem)).
  - injection Ha as <-. cbn [fst snd].
    destruct (to_fresh _ _ _ Hok (InPrimary e rep) (ev_id e)) as [Hl _];
      [by left|done|done|]. rewrite bool_decide_false by done.
    apply eq_None_not_Some in Hl.
    apply (counter_balance 0 ix _ (InPrimary e rep)); [done|done| |].
    + intros a Ha. by rewrite Z.add_0_r.
    + simpl. rewrite map_size_insert_None by done. lia.
  - injection Ha as <-. destruct (_ && _); same (InEarly e rep).
  - injection Ha as <-. cbn [fst snd]. destruct (by_id ix !! ev_id e) eqn:E.
    + apply (counter_balance 0 ix _ (InUndo e)); [done|done| |].
      * intros a Ha. by rewrite Z.add_0_r.
      * simpl. rewrite (size_delete_pred _ _ _ E). lia.
    + destruct Hc as (m & Hm & Hcount). exists (m + 1)%Z. simpl in *. split; [lia|].
      rewrite delete_id, Hcount by done. f_equal. lia.
  - injection Ha as <-. same (InMemory e rep).
  - injection Ha as <-. cbn [fst snd].
    apply (counter_balance 1 ix _ (InCount e rep)); [done|done| |simpl; lia].
    intros a Ha. simpl. by rewrite Ha, fetch_add_wrap.
  - injection Ha as <-. same (InFile e rep []).
  - injection Ha as <-. eapply (counter_same _ _ (InFile e rep (s :: todo))); by destruct s.
  - injection Ha as <-. case_bool_decide; same (InCheck e rep).
  - injection Ha as <-. destruct (_ && _); same (InWinner e rep).
  - injection Ha as <-. destruct (by_id ix !! ev_id e) eqn:E; cbn [fst snd];
      [|same (InCleanTake e)].
    apply (counter_balance 0 ix _ (InCleanTake e)); [done|done| |].
    + intros a Ha. by rewrite Z.add_0_r.
    + simpl. rewrite (size_delete_pred _ _ _ E). lia.
  - injection Ha as <-. same (InCleanMemory e).
  - injection Ha as <-. cbn [fst snd].
    apply (counter_balance (-1) ix _ (InCleanCount e)); [done|done| |simpl; lia].
    intros a Ha. simpl. by rewrite Ha, fetch_sub_wrap.
  - injection Ha as <-. eapply (counter_same _ _ (InClean e [] o)); try done. by destruct o.
  - injection Ha as <-. eapply (counter_same _ _ (InClean e (s :: todo) o)); by destruct s.
  - destruct (access_removing Removing ix r b) as [(rem & -> & ? & _)|(r' & -> & Hs)];
      [constructor|done| |by apply (counter_removal Removing ix r (b.1, r')); [constructor|..]].
    injection Ha as <-. same (Removing (RmDone rem)).
  - destruct (access_removing (Deleting id) ix r b) as [(rem & -> & ? & _)|(r' & -> & Hs)];
      [constructor|done| |by apply (counter_removal (Deleting id) ix r (b.1, r')); [constructor|..]].
    injection Ha as <-. same (Deleting id (RmDone rem)).
  - injection Ha as <-. case_bool_decide; same (DelMark id rem).
  - injection Ha as <-. same (DelOrder id rem).
Qed.

Lemma counter_steps w w' :
  world_ok core_of w -> counter_ok (w_index w) (w_threads w) -> rtc cstep w w' ->
  counter_ok (w_index w') (w_threads w').
Proof.
  intros Hw Hc. induction 1 as [|w w1 w2 Hstep _ IH]; [done|].
  apply IH; [by eapply world_ok_step|].
  destruct Hstep as [n (p & p' & ts & Ha & Hp & Hp' & _)%run_thread_inv].
  unfold world_ok in Hw. rewrite Hp in Hw, Hc. rewrite Hp'.
  by apply (counter_access _ _ _ _ Hw) in Ha.
Qed.

Lemma quiet_debt w : quiet w -> total debt (w_threads w) = 0%Z.
Proof.
  unfold quiet, total. induction (w_threads w) as [|p ts IH]; simpl; [done|].
  intros [Hp Hts]%andb_true_iff. rewrite IH by done. by destruct p.
Qed.

Lemma counter_starting ix calls :
  event_count ix = wrap64 (Z.of_nat (size (by_id ix))) ->
  counter_ok ix (start <$> calls).
Proof.
  intros Hc. exists 0%Z.
  assert (total lost (start <$> calls) = 0 /\ total debt (start <$> calls) = 0)%Z as [-> ->].
  { clear. unfold total.
    induction calls as [|[] calls [IH1 IH2]]; simpl; rewrite ?IH1, ?IH2; done. }
  split; [lia|]. rewrite Hc. f_equal. lia.
Qed.
End Counter.

(** * The replaceable index *)

Section Pointers.
Context `{HexCrate} (core_of : bytes -> Core).
Implicit Types (ix : EventIndex) (ts : list pc) (i : bytes).

(** [p] holds the key's entry and is about to remove [i]. *)
Definition displaces (p : pc) i : Prop :=
  match p with InReplace _ (RmTake j _) => j = i | _ => False end.

(** [p] stored [i] and has yet to re-check that it still owns its key. *)
Definition unsettled (p : pc) i : Prop :=
  match p with
  | InEarly e _ | InUndo e | InMemory e _ | InCount e _ | InFile e _ _
  | InCheck e _ | InWinner e _ | InCleanTake e => ev_id e = i
  | _ => False
  end.

(** [p] is not inside a removal that forgets the key. *)
Definition rm_keeps_key (r : removal) : Prop :=
  match r with
  | RmTake _ skip | RmMemory _ skip | RmCount _ skip => skip = true
  | RmKey _ => False
  | _ => True
  end.
Definition keeps_key (p : pc) : Prop :=
  match p with
  | InReplace _ r | Removing r => rm_keeps_key r
  | Deleting _ _ | DelMark _ _ | DelOrder _ _ => False
  | _ => True
  end.

Definition compare_ok ix (p : pc) : Prop :=
  match p with
  | InCompare e old => by_replaceable ix !! replacement_key e = Some old
  | _ => True
  end.

Record pointers_ok ix ts : Prop := {
  pt_points : forall i e, by_id ix !! i = Some e -> is_replaceable e = true ->
    by_replaceable ix !! replacement_key e = Some i
    \/ Exists (fun p => displaces p i \/ unsettled p i) ts;
  pt_own : forall k i e, by_replaceable ix !! k = Some i -> ev_id e = i ->
    genuine core_of e -> replacement_key e = k;
  pt_locks : NoDup (omap holds ts);
  pt_keeps : Forall keeps_key ts;
  pt_compare : Forall (compare_ok ix) ts;
}.

#[export] Instance pointers_ok_perm ix : Proper ((≡ₚ) ==> iff) (pointers_ok ix).
Proof.
  assert (forall ts ts', ts ≡ₚ ts' -> pointers_ok ix ts -> pointers_ok ix ts') as Himp.
  { intros ts ts' Hp []. split; try done; try (by rewrite <- Hp);
      try (setoid_rewrite <- Hp; done). }
  intros ts ts' Hp. split; by apply Himp.
Qed.

(** The keys' entries stay as they are. *)
Lemma pointers_view p ix ix' p' ts :
  pointers_ok ix (p :: ts) -> by_replaceable ix' = by_replaceable ix ->
  (forall i e, by_id ix' !! i = Some e -> by_id ix !! i = Some e) ->
  keeps_key p' -> compare_ok ix p' ->
  (holds p' = holds p \/ holds p' = None
   \/ exists key, holds p' = Some key /\ key ∉ omap holds ts) ->
  (forall i e, by_id ix' !! i = Some e -> is_replaceable e = true ->
     displaces p i \/ unsettled p i ->
     displaces p' i \/ unsettled p' i \/ by_replaceable ix !! replacement_key e = Some i) ->
  pointers_ok ix' (p' :: ts).
Proof.
  intros [Hpt Hown Hlk Hkp Hcm] Er Ei Hk Hc Hh Hd.
  apply Forall_cons_1 in Hkp as [_ Hkp]. apply Forall_cons_1 in Hcm as [_ Hcm]. split.
  - intros i e Hi Hr. rewrite Er, Exists_cons.
    destruct (Hpt i e (Ei _ _ Hi) Hr) as [?|Hex]; [by left|].
    apply Exists_cons in Hex as [Hex|?]; [|by auto]. destruct (Hd _ _ Hi Hr Hex) as [?|[?|?]]; auto.
  - intros k i e. rewrite Er. apply Hown.
  - simpl in *. assert (NoDup (omap holds ts)) as Hts
      by (destruct (holds p); [by apply NoDup_cons in Hlk as []|done]).
    destruct Hh as [->|[->|(key & -> & Hn)]]; [done|done|by apply NoDup_cons].
  - by constructor.
  - constructor; [destruct p'; try done; simpl in *; by rewrite Er|].
    eapply Forall_impl; [exact Hcm|]. intros q. destruct q; try done. simpl. by rewrite Er.
Qed.

(** The head claims its key for its own event. *)
Lemma pointers_claim p e ix p' ts :
  pointers_ok ix (p :: ts) -> genuine core_of e ->
  replacement_key e ∉ omap holds ts ->
  (forall i, by_replaceable ix !! replacement_key e = Some i -> displaces p' i) ->
  (forall i, ~ displaces p i /\ ~ unsettled p i) ->
  keeps_key p' -> (forall ix, compare_ok ix p') ->
  (holds p' = None \/ holds p' = Some (replacement_key e)) ->
  pointers_ok (with_by_replaceable
    (<[replacement_key e := ev_id e]> (by_replaceable ix)) ix) (p' :: ts).
Proof.
  intros [Hpt Hown Hlk Hkp Hcm] He Hfree Hd Hno Hk Hc Hh.
  apply Forall_cons_1 in Hkp as [_ Hkp]. apply Forall_cons_1 in Hcm as [_ Hcm]. split; simpl.
  - intros i e' Hi Hr. rewrite Exists_cons. destruct (Hpt i e' Hi Hr) as [Hp|Hex].
    + destruct (decide (replacement_key e' = replacement_key e)) as [E|Hne].
      * right. left. left. apply Hd. by rewrite <- E.
      * left. by rewrite lookup_insert_ne.
    + apply Exists_cons in Hex as [[]|?]; [by destruct (Hno i)..|by auto].
  - intros k i e'. rewrite lookup_insert. case_decide as E; [|apply Hown].
    intros [= <-] Hid He'. subst k. by apply (genuine_key core_of).
  - assert (NoDup (omap holds ts)) as Hts
      by (simpl in Hlk; destruct (holds p); [by apply NoDup_cons in Hlk as []|done]).
    destruct Hh as [-> | ->]; [done|by apply NoDup_cons].
  - by constructor.
  - constructor; [done|]. apply Forall_forall. intros q Hq.
    rewrite Forall_forall in Hcm. specialize (Hcm q Hq). destruct q as [| |e' old| | | | | | | | | | | | | | | | | |]; try done.
    simpl in *. rewrite lookup_insert_ne; [done|]. intros E. apply Hfree.
    rewrite E. apply list_elem_of_omap. by exists (InCompare e' old).
Qed.

Lemma pointers_primary e rep ix ts :
  pointers_ok ix (InPrimary e rep :: ts) ->
  pointers_ok (with_by_id (<[ev_id e := e]> (by_id ix)) ix) (InEarly e rep :: ts).
Proof.
  intros [Hpt Hown Hlk Hkp Hcm].
  apply Forall_cons_1 in Hkp as [_ Hkp]. apply Forall_cons_1 in Hcm as [_ Hcm].
  split; simpl; try done; [|by constructor..].
  intros i e' [[<- _]|[_ Hi]]%lookup_insert_Some Hr; rewrite Exists_cons; [by right; left; right|].
  destruct (Hpt i e' Hi Hr) as [?|Hex]; [by left|].
  apply Exists_cons in Hex as [[[]|[]]|?]. by auto.
Qed.

(** [internal_remove] called with [skip_replaceable]. *)
Lemma pointers_removal K ix r b ts :
  remove_ctx K -> keeps_key (K r) -> pointers_ok ix (K r :: ts) ->
  removal_step ix r = Some b -> pointers_ok b.1 (K b.2 :: ts).
Proof.
  intros HK Hk Hok Hs.
  assert (K = Removing \/ exists e, K = InReplace e) as HK'
    by (destruct HK; [right; by eexists|by left|done]).
  assert (forall r', keeps_key (K r') <-> rm_keeps_key r') as Hkk
    by by destruct HK' as [->|[? ->]].
  assert (forall r' i, unsettled (K r') i <-> False) as Hun
    by by destruct HK' as [->|[? ->]].
  assert (forall r', holds (K r') = holds (K r)) as Hho
    by by destruct HK' as [->|[? ->]].
  assert (forall r' i, displaces (K r') i -> exists skip, r' = RmTake i skip) as Hdi.
  { intros r' i. destruct HK' as [->|[? ->]]; [done|].
    destruct r'; try done. simpl. intros ->. by eexists. }
  assert (forall r', compare_ok ix (K r')) as Hcm by by destruct HK' as [->|[? ->]].
  apply Hkk in Hk. apply (pointers_view (K r) ix); rewrite ?Hkk; try done.
  - by destruct r as [id skip|event skip|event skip|event|event [|s todo]|removed];
      simpl in Hs; try done; injection Hs as <-; simpl; try done;
      [destruct (by_id ix !! id)|destruct s].
  - destruct r as [id skip|event skip|event skip|event|event [|s todo]|removed];
      simpl in Hs; try done; injection Hs as <-; simpl; try done; [|by destruct s].
    destruct (by_id ix !! id); simpl; [|done]. by intros ? ? [_ ?]%lookup_delete_Some.
  - destruct r as [id skip|event skip|event skip|event|event [|s todo]|removed];
      simpl in Hs; try done; injection Hs as <-; simpl in *; try done;
      [by destruct (by_id ix !! id)|by subst skip].
  - left. apply Hho.
  - intros i e Hi _ [[skip ->]%Hdi|[]%Hun]. simpl in Hs. injection Hs as <-.
    exfalso. destruct (by_id ix !! i) eqn:E; simpl in Hi; [|congruence].
    by rewrite lookup_delete_eq in Hi.
Qed.

Lemma is_still_winner_owns ix e :
  is_replaceable e = true -> is_still_winner ix e = true ->
  by_replaceable ix !! replacement_key e = Some (ev_id e).
Proof.
  intros Hr. unfold is_still_winner. destruct (replacement_key e) eqn:E.
  - apply replacement_key_none in E. congruence.
  - destruct (_ !! _); [|done]. by intros ->%bool_decide_eq_true.
  - destruct (_ !! _); [|done]. by intros ->%bool_decide_eq_true.
Qed.

Ltac settle :=
  simpl; try done; try (by left); try (by right); try (by right; left);
  try (by intros ?; split; intros []); try (by intros ? ? ? ? [[]|[]]);
  try (by intros ? ? [_ ?]%lookup_delete_Some);
  try (by intros ? ? [? _]%lookup_delete_Some _ [[]|?]);
  try (by intros ? ? ? ? [?|?]; auto).

Lemma pointers_access ix p b ts :
  threads_ok core_of ix (p :: ts) -> access ix p = Some b ->
  (forall key, wants p = Some key -> key ∉ omap holds ts) ->
  pointers_ok ix (p :: ts) -> pointers_ok b.1 (b.2 :: ts).
Proof.
  intros Hth Ha Hfree Hok.
  destruct (Forall_cons_1 _ _ _ (to_pcs _ _ _ Hth)) as [Hp _].
  destruct (Forall_cons_1 _ _ _ (pt_keeps _ _ Hok)) as [Hk _].
  pose proof (Forall_cons_1 _ _ _ (pt_compare _ _ Hok)) as [Hcmp _].
  destruct p as [e|e|e old|e r|e rep|e rep|e|e rep|e rep|e rep [|s todo]
    |e rep|e rep|e|e|e|e [|s todo] o|r|id r|id rem|id rem|a]; try done.
  - injection Ha as <-. apply (pointers_view (InTombstone e) ix); settle;
      destruct (tombstones_contains _ _), (is_replaceable e), (replacement_key e); settle.
  - injection Ha as <-. destruct (by_replaceable ix !! replacement_key e) as [old|] eqn:E;
      cbn [fst snd].
    + apply (pointers_view (InClaim e) ix); settle. right. right. eexists. split; [done|].
      by apply Hfree.
    + apply (pointers_claim (InClaim e)); settle; [by apply (po_inserting _ _ Hp)|by apply Hfree|congruence].
  - injection Ha as <-. destruct (incoming_wins _ _ _); cbn [fst snd].
    + apply (pointers_claim (InCompare e old)); settle; [by apply (po_inserting _ _ Hp)| |].
      * pose proof (pt_locks _ _ Hok) as Hl. simpl in Hl. by apply NoDup_cons in Hl as [].
      * intros i. simpl in Hcmp. rewrite Hcmp. by intros [= ->].
    + apply (pointers_view (InCompare e old) ix); settle.
  - destruct (access_removing (InReplace e) ix r b) as [(rem & -> & ? & _)|(r' & -> & Hs)];
      [constructor|done| |by apply (pointers_removal (InReplace e) ix r (b.1, r')); [constructor|..]].
    injection Ha as <-. apply (pointers_view (InReplace e (RmDone rem)) ix); settle.
  - injection Ha as <-. cbn [fst snd].
    destruct (to_fresh _ _ _ Hth (InPrimary e rep) (ev_id e)) as [Hl _];
      [by left|done|done|]. rewrite bool_decide_false by done. by apply pointers_primary.
  - injection Ha as <-. destruct (_ && _); apply (pointers_view (InEarly e rep) ix); settle.
  - injection Ha as <-. apply (pointers_view (InUndo e) ix); settle.
  - injection Ha as <-. apply (pointers_view (InMemory e rep) ix); settle.
  - injection Ha as <-. apply (pointers_view (InCount e rep) ix); settle.
  - injection Ha as <-. apply (pointers_view (InFile e rep []) ix); settle.
  - injection Ha as <-. apply (pointers_view (InFile e rep (s :: todo)) ix); destruct s; settle.
  - injection Ha as <-. cbn [fst snd]. case_bool_decide as Hl;
      apply (pointers_view (InCheck e rep) ix); settle.
    intros i e' Hi _ [[]|<-]. destruct Hl. by eexists.
  - injection Ha as <-. destruct (is_replaceable e && negb (is_still_winner ix e)) eqn:Ew;
      apply (pointers_view (InWinner e rep) ix); settle.
    intros i e' Hi Hr [[]|<-]. right. right.
    destruct (to_by_id _ _ _ Hth _ _ Hi) as [Hid He'].
    destruct (genuine_key core_of e' e) as [Hkey Hrep]; [done|by apply (po_inserting _ _ Hp)|done|].
    rewrite Hkey. apply is_still_winner_owns; [congruence|].
    rewrite <- Hrep, Hr in Ew. by destruct (is_still_winner ix e).
  - injection Ha as <-. destruct (by_id ix !! ev_id e) eqn:E; cbn [fst snd];
      apply (pointers_view (InCleanTake e) ix); settle.
    intros i e' Hi _ [[]|<-]. congruence.
  - injection Ha as <-. apply (pointers_view (InCleanMemory e) ix); settle.
  - injection Ha as <-. apply (pointers_view (InCleanCount e) ix); settle.
  - injection Ha as <-. apply (pointers_view (InClean e [] o) ix); settle.
  - injection Ha as <-. apply (pointers_view (InClean e (s :: todo) o) ix); destruct s; settle.
  - destruct (access_removing Removing ix r b) as [(rem & -> & ? & _)|(r' & -> & Hs)];
      [constructor|done| |by apply (pointers_removal Removing ix r (b.1, r')); [constructor|..]].
    injection Ha as <-. apply (pointers_view (Removing (RmDone rem)) ix); settle.
Qed.

Lemma pointers_starting ix calls :
  wf_index core_of ix -> Forall (fun c => forall id, c <> CDelete id) calls ->
  pointers_ok ix (start <$> calls).
Proof.
  intros [Hid _ [Hr1 Hr2] _ _] Hno. split.
  - intros i e Hi Hr. left. by apply Hr1.
  - eauto.
  - clear. induction calls as [|[] calls IH]; by try constructor.
  - induction Hno as [|[] calls Hc _ IH]; constructor; try done. by destruct (Hc id).
  - clear. induction calls as [|[] calls IH]; by constructor.
Qed.

Lemma pointers_steps w w' :
  world_ok core_of w -> pointers_ok (w_index w) (w_threads w) -> rtc cstep w w' ->
  pointers_ok (w_index w') (w_threads w').
Proof.
  intros Hw Hc. induction 1 as [|w w1 w2 Hstep _ IH]; [done|].
  apply IH; [by eapply world_ok_step|].
  destruct Hstep as [n (p & p' & ts & Ha & Hp & Hp' & Hf)%run_thread_inv].
  unfold world_ok in Hw. rewrite Hp in Hw, Hc. rewrite Hp'.
  by apply (pointers_access _ _ _ _ Hw Ha Hf) in Hc.
Qed.

Lemma quiet_pointers w :
  pointers_ok (w_index w) (w_threads w) -> quiet w -> replaceable_ok core_of (w_index w).
Proof.
  intros [Hpt Hown _ _ _] Hq. split; [|done]. intros i e Hi Hr.
  destruct (Hpt i e Hi Hr) as [?|(p & Hp & Hd)%Exists_exists]; [done|].
  destruct (quiet_done _ _ Hq Hp) as [a ->]. by destruct Hd.
Qed.
End Pointers.

(** * Fields the threads leave alone *)

Section Frame.
Context `{HexCrate}.

Lemma removal_frame ix r b :
  removal_step ix r = Some b ->
  tombstones b.1 = tombstones ix /\ length (by_oldest b.1) = length (by_oldest ix).
Proof.
  destruct r as [id skip|event skip|event skip|event|event [|s todo]|removed]; simpl;
    try done; intros [= <-]; simpl; try done.
  - by destruct (by_id ix !! id).
  - destruct s; simpl; by rewrite ?length_insert.
Qed.

Lemma access_shards ix p b :
  access ix p = Some b -> length (by_oldest b.1) = length (by_oldest ix).
Proof.
  assert (forall K r, remove_ctx K -> access ix (K r) = Some b ->
    length (by_oldest b.1) = length (by_oldest ix)) as Hctx.
  { intros K r HK Ha. destruct (access_removing K ix r b HK Ha)
      as [(rem & _ & -> & _)|(r' & _ & Hs)]; [done|by apply removal_frame in Hs as []]. }
  destruct p as [e|e|e old|e r|e rep|e rep|e|e rep|e rep|e rep [|s todo]
    |e rep|e rep|e|e|e|e [|s todo] o|r|id r|id rem|id rem|a];
    try (apply Hctx; constructor); try (by intros [= <-]); intros [= <-]; simpl;
    try (destruct (_ !! _)); try (destruct (incoming_wins _ _ _));
    try case_bool_decide; try destruct s; simpl; by rewrite ?length_insert.
Qed.

Lemma access_tombstones ix p b :
  access ix p = Some b -> keeps_key p -> tombstones b.1 = tombstones ix.
Proof.
  assert (forall K r, remove_ctx K -> access ix (K r) = Some b ->
    tombstones b.1 = tombstones ix) as Hctx.
  { intros K r HK Ha. destruct (access_removing K ix r b HK Ha)
      as [(rem & _ & -> & _)|(r' & _ & Hs)]; [done|by apply removal_frame in Hs as []]. }
  intros Ha Hk. destruct p as [e|e|e old|e r|e rep|e rep|e|e rep|e rep|e rep [|s todo]
    |e rep|e rep|e|e|e|e [|s todo] o|r|id r|id rem|id rem|a]; try done;
    try (eapply Hctx; [|exact Ha]; constructor);
    injection Ha as <-; simpl;
    try (destruct (_ !! _)); try (destruct (incoming_wins _ _ _)); simpl; try done; by destruct s.
Qed.

Lemma shards_steps w w' :
  rtc cstep w w' -> length (by_oldest (w_index w')) = length (by_oldest (w_index w)).
Proof.
  induction 1 as [|w w1 w2 [n (p & p' & ts & Ha & _)%run_thread_inv] _ IH]; [done|].
  rewrite IH. exact (access_shards _ _ _ Ha).
Qed.

Lemma tombstones_steps core_of w w' :
  world_ok core_of w -> pointers_ok core_of (w_index w) (w_threads w) -> rtc cstep w w' ->
  tombstones (w_index w') = tombstones (w_index w).
Proof.
  intros Hw Hpt. induction 1 as [|w w1 w2 Hstep _ IH]; [done|].
  rewrite IH; [|by eapply world_ok_step|by eapply pointers_steps; [..|by apply rtc_once]].
  destruct Hstep as [n (p & p' & ts & Ha & Hp & _ & _)%run_thread_inv].
  apply (access_tombstones _ _ (_, _) Ha). rewrite Hp in Hpt.
  by destruct (Forall_cons_1 _ _ _ (pt_keeps _ _ _ Hpt)).
Qed.
End Frame.

(** * Every run ends *)

Section Termination.
Context `{HexCrate}.

(** How far a thread has come, and what is left of the loop it is in. *)
Definition rm_stage (r : removal) : nat :=
  match r with
  | RmTake _ _ => 6 | RmMemory _ _ => 5 | RmCount _ _ => 4 | RmKey _ => 3
  | RmSlots _ _ => 2 | RmDone _ => 1
  end.
Definition stage (p : pc) : nat :=
  match p with
  | InTombstone _ => 30 | InClaim _ => 29 | InCompare _ _ => 28
  | InReplace _ r => 20 + rm_stage r
  | InPrimary _ _ => 19 | InEarly _ _ => 18 | InMemory _ _ => 17 | InCount _ _ => 16
  | InFile _ _ _ => 15 | InCheck _ _ => 14 | InWinner _ _ => 13 | InCleanTake _ => 12
  | InCleanMemory _ => 11 | InCleanCount _ => 10 | InClean _ _ _ => 9
  | Removing r | Deleting _ r => 2 + rm_stage r
  | DelMark _ _ => 2 | DelOrder _ _ | InUndo _ => 1
  | Done _ => 0
  end.
Definition remaining (p : pc) : nat :=
  match p with
  | InFile _ _ todo | InClean _ todo _
  | InReplace _ (RmSlots _ todo) | Removing (RmSlots _ todo)
  | Deleting _ (RmSlots _ todo) => length todo
  | _ => 0
  end.
Definition closer (q p : pc) : Prop :=
  stage q < stage p \/ (stage q = stage p /\ remaining q < remaining p).

Lemma closer_wf : well_founded closer.
Proof.
  intros p. remember (stage p) as n eqn:En. revert p En.
  induction (lt_wf n) as [n _ IHn]. intros p En.
  remember (remaining p) as m eqn:Em. revert p En Em.
  induction (lt_wf m) as [m _ IHm]. intros p -> ->. constructor.
  intros q [Hlt|[Heq Hlt]]; [by eapply IHn|by eapply IHm].
Qed.

Lemma removal_closer ix r b :
  removal_step ix r = Some b ->
  rm_stage b.2 < rm_stage r \/
  exists e s todo, r = RmSlots e (s :: todo) /\ b.2 = RmSlots e todo.
Proof.
  destruct r as [id skip|event skip|event skip|event|event [|s todo]|removed]; simpl;
    try done; intros [= <-]; simpl; try (left; lia); [| |by right; eauto].
  - left. destruct (by_id ix !! id); simpl; lia.
  - left. destruct (_ && _); simpl; lia.
Qed.

Lemma access_closer ix p b : access ix p = Some b -> closer b.2 p.
Proof.
  unfold closer. intros Ha.
  assert (forall K r, remove_ctx K -> p = K r ->
    stage b.2 < stage p \/ stage b.2 = stage p /\ remaining b.2 < remaining p) as Hctx.
  { intros K r HK ->. destruct (access_removing K ix r b HK Ha)
      as [(rem & -> & _)|(r' & -> & [Hc|(e & s & todo & -> & Hr)]%removal_closer)].
    - left. destruct HK; injection Ha as <-; simpl; lia.
    - left. destruct HK; simpl in *; lia.
    - simpl in Hr. subst r'. right. destruct HK; simpl; lia. }
  destruct p as [e|e|e old|e r|e rep|e rep|e|e rep|e rep|e rep [|s todo]
    |e rep|e rep|e|e|e|e [|s todo] o|r|id r|id rem|id rem|a]; try done;
    try (eapply Hctx; [|reflexivity]; constructor); injection Ha as <-; simpl;
    try (left; lia); try (right; lia); left.
  - destruct (tombstones_contains _ _); simpl; [lia|].
    destruct (is_replaceable e); simpl; [destruct (replacement_key e)|]; simpl; lia.
  - destruct (_ !! _); simpl; lia.
  - destruct (incoming_wins _ _ _); simpl; lia.
  - case_bool_decide; simpl; lia.
  - destruct (_ && _); simpl; lia.
  - case_bool_decide; simpl; lia.
  - destruct (_ && _); simpl; lia.
  - destruct (_ !! _); simpl; lia.
  - case_bool_decide; simpl; lia.
Qed.

Lemma cstep_one_closer w w' : cstep w w' -> one_less closer (w_threads w') (w_threads w).
Proof.
  intros [n Hr]. unfold run_thread in Hr.
  destruct (w_threads w !! n) as [p|] eqn:Ep; [simpl in Hr|done].
  destruct (thread_step _ _ p) as [[ix' p']|] eqn:Es; [simpl in Hr|done].
  injection Hr as <-. exists n, p, p'. split_and!; [done|done|].
  unfold thread_step in Es. apply (access_closer (w_index w) p (ix', p')).
  destruct (wants p); [|done]. by case_bool_decide.
Qed.

Lemma cstep_wf w : Acc (fun w' w => cstep w w') w.
Proof.
  remember (w_threads w) as ts eqn:Ets. revert w Ets.
  induction (one_less_wf closer closer_wf ts) as [ts _ IH]. intros w ->. constructor.
  intros w' Hs. eapply IH; [by apply cstep_one_closer|done].
Qed.

(** ** No deadlock *)

(** The thread that holds an entry never waits for one. *)
Definition no_wait (p : pc) : Prop :=
  match p with InReplace _ r => rm_keeps_key r | _ => True end.

Lemma access_no_wait ix p b : access ix p = Some b -> no_wait p -> no_wait b.2.
Proof.
  intros Ha. assert (forall K r, remove_ctx K -> p = K r -> no_wait p -> no_wait b.2) as Hctx.
  { intros K r HK -> Hk. destruct HK.
    - destruct r as [id skip|event skip|event skip|event|event [|s todo]|removed];
        injection Ha as <-; simpl in *; try done; [by destruct (by_id ix !! id)|by subst skip].
    - by destruct (access_removing Removing ix r b (ctx_remove) Ha)
        as [(rem & -> & _)|(r' & -> & _)]; [injection Ha as <-|].
    - by destruct (access_removing (Deleting id) ix r b (ctx_delete id) Ha)
        as [(rem & -> & _)|(r' & -> & _)]; [injection Ha as <-|]. }
  destruct p as [e|e|e old|e r|e rep|e rep|e|e rep|e rep|e rep [|s todo]
    |e rep|e rep|e|e|e|e [|s todo] o|r|id r|id rem|id rem|a]; try done;
    try (eapply Hctx; [|reflexivity]; constructor); injection Ha as <-; intros _; simpl; try done.
  - destruct (tombstones_contains _ _); simpl; [done|].
    destruct (is_replaceable e); simpl; [by destruct (replacement_key e)|done].
  - by destruct (_ !! _).
  - by destruct (incoming_wins _ _ _).
  - by case_bool_decide.
  - by destruct (_ && _).
  - by case_bool_decide.
  - by destruct (_ && _).
  - by destruct (_ !! _).
  - by case_bool_decide.
Qed.

Lemma no_wait_steps w w' :
  Forall no_wait (w_threads w) -> rtc cstep w w' -> Forall no_wait (w_threads w').
Proof.
  intros Hn. induction 1 as [|w w1 w2 [n (p & p' & ts & Ha & Hp & Hp' & _)%run_thread_inv] _ IH];
    [done|].
  apply IH. rewrite Hp in Hn. rewrite Hp'. apply Forall_cons_1 in Hn as [Hn ?].
  constructor; [by apply (access_no_wait _ _ _ Ha)|done].
Qed.

Lemma no_wait_starting calls : Forall no_wait (start <$> calls).
Proof. apply Forall_fmap, Forall_true. by intros []. Qed.

Lemma access_some ix p : finished p = false -> is_Some (access ix p).
Proof.
  intros Hf. destruct p as [e|e|e old|e r|e rep|e rep|e|e rep|e rep|e rep [|s todo]
    |e rep|e rep|e|e|e|e [|s todo] o|r|id r|id rem|id rem|a]; simpl; try done;
    by destruct r as [i skip|event skip|event skip|event|event [|s todo]|removed].
Qed.

(** Beside an unfinished thread, it or one that holds an entry can go on. *)
Lemma thread_progress w n p :
  Forall no_wait (w_threads w) -> w_threads w !! n = Some p -> finished p = false ->
  exists m q w', w_threads w !! m = Some q /\ (m = n \/ holds q <> None)
    /\ run_thread w m = Some w'.
Proof.
  intros Hn Hp Hf. rewrite Forall_forall in Hn.
  assert (forall m q, w_threads w !! m = Some q -> finished q = false ->
    (forall key, wants q = Some key -> key ∉ omap holds (w_threads w)) ->
    exists w', run_thread w m = Some w') as Hgo.
  { intros m q Hq Hfq Hw. destruct (access_some (w_index w) q Hfq) as [b Hb].
    exists (mkWorld b.1 (<[m := b.2]> (w_threads w))). unfold run_thread. rewrite Hq. simpl.
    assert (thread_step (omap holds (w_threads w)) (w_index w) q = Some b) as ->; [|done].
    unfold thread_step. destruct (wants q) as [key|] eqn:Ew; [|done].
    rewrite bool_decide_false; [done|]. by apply Hw. }
  destruct (omap holds (w_threads w)) as [|key l] eqn:El.
  - destruct (Hgo n p Hp Hf) as [w' Hw']; [intros key _; apply not_elem_of_nil|].
    exists n, p, w'. by split_and!; [|left|].
  - assert (exists q, q ∈ w_threads w /\ holds q = Some key) as (q & Hq & Hh).
    { apply list_elem_of_omap. rewrite El. by left. }
    pose proof (Hn q Hq) as Hnq. apply list_elem_of_lookup in Hq as [m Hq].
    destruct (Hgo m q Hq) as [w' Hw']; [by destruct q| |].
    + intros k Hk. destruct q as [| | |e r| | | | | | | | | | | | | | | | |]; try done. by destruct r.
    + exists m, q, w'. split_and!; [done|right; congruence|done].
Qed.

Lemma progress w :
  Forall no_wait (w_threads w) -> quiet w \/ exists w', cstep w w'.
Proof.
  intros Hn. destruct (forallb finished (w_threads w)) eqn:Eq; [by left|right].
  assert (exists p, p ∈ w_threads w /\ finished p = false) as (p & [n Hp]%list_elem_of_lookup & Hf).
  { revert Eq. clear. induction (w_threads w) as [|p ts IH]; simpl; [done|].
    destruct (finished p) eqn:E; [intros (q & ? & ?)%IH|]; eexists; (split; [|done]); set_solver. }
  destruct (thread_progress w n p Hn Hp Hf) as (m & q & w' & _ & _ & Hr). by exists w', m.
Qed.
End Termination.

(** * Sample runs *)

(** A third, oldest version of the list of [IndexSpec.v]. *)
Definition list_v0 : Event := sample 4 7 10002 500 [].

Definition index_of (es : list Event) : EventIndex :=
  foldl (fun ix e => (index_insert ix e).1) index_new es.

(** The first run below: one thread inserts the list's second version, one
    evicts the first version, which is stored. *)
Definition evict_and_insert : list call := [CInsert list_v2; CRemove (ev_id list_v1)].
Definition sample_core : bytes -> Core := core_table [list_v0; list_v1; list_v2; note].

Lemma wf_index_of es :
  Forall (genuine sample_core) es -> wf_index sample_core (index_of es).
Proof.
  unfold index_of. generalize (wf_index_new sample_core). generalize index_new.
  intros ix Hix Hes. revert ix Hix. induction Hes as [|e es He _ IH]; intros ix Hix; [done|].
  apply IH. by apply wf_index_insert.
Qed.

(** [n] steps of thread [i]. *)
Definition steps (i n : nat) : list nat := replicate n i.

Definition settle_run : list nat :=
  steps 0 2 ++ steps 1 2 ++ steps 0 3 ++ steps 1 6 ++ steps 0 10.

Lemma run_schedule_steps w sched w' : run_schedule w sched = Some w' -> rtc cstep w w'.
Proof.
  revert w; induction sched as [|i sched IH]; intros w; unfold run_schedule; simpl.
  - by intros [= ->].
  - destruct (run_thread w i) as [w1|] eqn:E.
    + intros Hr. eapply rtc_l; [by exists i|]. by apply IH.
    + intros Hr. exfalso. revert Hr. clear. by induction sched.
Qed.

(** What the calls of a run answer, and the ids stored when it ends. *)
Definition answers (w : World) : list (option answer) :=
  (fun p => match p with Done a => Some a | _ => None end) <$> w_threads w.
Definition stored_ids (w : World) : list bytes := (map_to_list (by_id (w_index w))).*1.

(** * Properties *)

(** A method of the index that is not interfered with does what its
    sequential definition says: a thread that runs from its first access to its
    last while no other thread holds a replacement key ends with the index and
    the answer of [index_insert], [index_remove] or [delete_by_id], whatever
    state the index is in. *)
Theorem lone_call_is_sequential `{HexCrate} w n c :
  w_threads w !! n = Some (start c) ->
  (forall j p, j <> n -> w_threads w !! j = Some p -> holds p = None) ->
  let '(ix, a) := sequential (w_index w) c in
  rtc cstep w (mkWorld ix (<[n := Done a]> (w_threads w))).
Proof.
  intros Hn Hfree. destruct (sequential (w_index w) c) as [ix a] eqn:E.
  pose proof (lone_in_world (w_threads w) n _ _ (lookup_lt_Some _ _ _ Hn) Hfree
    (lone_run (w_index w) c)) as Hrun. rewrite E in Hrun. simpl in Hrun.
  rewrite list_insert_id in Hrun by done. by destruct w.
Qed.

Lemma lone_call_is_sequential_witness :
  let w := starting (index_of [list_v1]) [CRemove (ev_id list_v1); CInsert list_v2] in
  let '(ix, a) := sequential (w_index w) (CInsert list_v2) in
  rtc cstep w (mkWorld ix (<[1 := Done a]> (w_threads w))).
Proof.
  intros w. apply (lone_call_is_sequential w 1 (CInsert list_v2)); [reflexivity|].
  intros [|[|j]] p Hj; [intros [= <-]; reflexivity|done|done].
Defined.

(** C11: whatever the interleaving of any number of concurrent inserts, evictions
    and deletions, where the inserts are of distinct events that are not stored yet
    (an event sent again while it is removed: [stored_event_unlisted]), once all of
    them have returned every one of the six secondary indexes lists exactly the
    stored events, in order and under exactly the right keys, and the event counter
    differs from the number of stored events by at most the number of inserts that
    answered [LostRace]. *)
Theorem concurrent_calls_consistent `{HexCrate} core_of ix calls w :
  wf_index core_of ix -> calls_ok core_of ix calls ->
  rtc cstep (starting ix calls) w -> quiet w ->
  (forall i e, by_id (w_index w) !! i = Some e -> ev_id e = i /\ genuine core_of e) /\
  secondary_ok core_of (dom (by_id (w_index w))) (w_index w) /\
  exists missed, (0 <= missed <= total lost (w_threads w))%Z /\
    event_count (w_index w) = wrap64 (Z.of_nat (size (by_id (w_index w))) - missed).
Proof.
  intros Hwf Hcalls Hrun Hq.
  pose proof (world_ok_starting _ _ _ Hwf Hcalls) as H0.
  pose proof (world_ok_steps _ _ _ H0 Hrun) as Hok. split_and!.
  - apply (to_by_id _ _ _ Hok).
  - apply slots_secondary. split; [by apply quiet_bucket_ok|].
    rewrite (shards_steps _ _ Hrun). apply (so_shards core_of _ _ (wf_secondary _ _ Hwf)).
  - destruct (counter_steps core_of _ _ H0 (counter_starting _ _ (wf_count _ _ Hwf)) Hrun)
      as (m & Hm & Hc). exists m. split; [done|]. rewrite Hc, quiet_debt by done. f_equal. lia.
Qed.

Lemma sample_calls_ok : calls_ok sample_core (index_of [list_v1]) evict_and_insert.
Proof. split; repeat constructor; vm_compute; set_solver. Qed.

Lemma concurrent_calls_consistent_witness :
  match run_schedule (starting (index_of [list_v1]) evict_and_insert) settle_run with
  | Some w =>
      secondary_ok sample_core (dom (by_id (w_index w))) (w_index w) /\
      stored_ids w = [ev_id list_v2] /\ event_count (w_index w) = 1%Z
  | None => False
  end.
Proof.
  destruct (run_schedule _ _) as [w|] eqn:E; [|by vm_compute in E].
  split_and!; [|revert E; vm_compute; by intros [= <-]..].
  apply (concurrent_calls_consistent sample_core (index_of [list_v1]) evict_and_insert w).
  - apply wf_index_of. by repeat constructor.
  - apply sample_calls_ok.
  - by eapply run_schedule_steps.
  - revert E. vm_compute. by intros [= <-].
Defined.

(** C12: with evictions but no NIP-09 deletions under way, and inserts of distinct
    events that are not stored yet, the re-checks of [insert] do their work: whatever
    the interleaving, once all calls have
    returned every stored replaceable event is the one its key points at, so no
    key has two stored versions; and if no insert lost a race the whole
    sequential invariant holds, counter included. *)
Theorem concurrent_inserts_one_version `{HexCrate} core_of ix calls w :
  wf_index core_of ix -> calls_ok core_of ix calls ->
  Forall (fun c => forall id, c <> CDelete id) calls ->
  rtc cstep (starting ix calls) w -> quiet w ->
  replaceable_ok core_of (w_index w) /\
  (total lost (w_threads w) = 0%Z -> wf_index core_of (w_index w)).
Proof.
  intros Hwf Hcalls Hno Hrun Hq.
  pose proof (world_ok_starting _ _ _ Hwf Hcalls) as H0.
  pose proof (world_ok_steps _ _ _ H0 Hrun) as Hok.
  pose proof (pointers_starting _ _ _ Hwf Hno) as Hp0.
  pose proof (quiet_pointers _ _ (pointers_steps _ _ _ H0 Hp0 Hrun) Hq) as Hrep.
  split; [done|]. intros Hlost. split; [apply (to_by_id _ _ _ Hok)| |done| |].
  - apply slots_secondary. split; [by apply quiet_bucket_ok|].
    rewrite (shards_steps _ _ Hrun). apply (so_shards core_of _ _ (wf_secondary _ _ Hwf)).
  - rewrite (tombstones_steps core_of _ _ H0 Hp0 Hrun). apply (wf_tombs _ _ Hwf).
  - destruct (counter_steps core_of _ _ H0 (counter_starting _ _ (wf_count _ _ Hwf)) Hrun)
      as (m & Hm & Hc). rewrite Hc, quiet_debt by done. f_equal. lia.
Qed.

Lemma concurrent_inserts_one_version_witness :
  match run_schedule (starting (index_of [list_v1]) evict_and_insert) settle_run with
  | Some w => wf_index sample_core (w_index w)
  | None => False
  end.
Proof.
  destruct (run_schedule _ _) as [w|] eqn:E; [|by vm_compute in E].
  apply (concurrent_inserts_one_version sample_core (index_of [list_v1]) evict_and_insert w).
  - apply wf_index_of. by repeat constructor.
  - apply sample_calls_ok.
  - by repeat constructor.
  - by eapply run_schedule_steps.
  - revert E. vm_compute. by intros [= <-].
  - revert E. vm_compute. by intros [= <-].
Defined.

(** No set of concurrent calls can block or loop: from any state they reach,
    every schedule is finite, and as long as a call has not returned some thread
    can take its next step (in particular [insert], which keeps its key's entry
    locked while it removes the event it replaces, never waits for that entry). *)
Theorem concurrent_calls_finish `{HexCrate} ix calls w :
  rtc cstep (starting ix calls) w ->
  Acc (fun w2 w1 => cstep w1 w2) w /\ (quiet w \/ exists w', cstep w w').
Proof.
  intros Hrun. split; [apply cstep_wf|].
  apply progress. exact (no_wait_steps (starting ix calls) w (no_wait_starting calls) Hrun).
Qed.

Lemma concurrent_calls_finish_witness :
  let w := starting (index_of [list_v1]) evict_and_insert in
  Acc (fun w2 w1 => cstep w1 w2) w /\ (quiet w \/ exists w', cstep w w').
Proof. apply (concurrent_calls_finish (index_of [list_v1]) evict_and_insert). done. Defined.

(** * Races the re-checks do not catch

    Each run below is a schedule of a few concurrent calls, evaluated. *)

(** The newer version has claimed the key but is not in [by_id] yet; the older
    one finds no stored event to compare with and takes the key over. *)
Definition newest_lost_run : list nat := steps 0 2 ++ steps 1 15 ++ steps 0 3.

Lemma newest_version_lost :
  let run := run_schedule (starting index_new [CInsert list_v2; CInsert list_v1]) newest_lost_run in
  (answers <$> run) = Some [Some (AInsert LostRace); Some (AInsert (Inserted None))] /\
  (stored_ids <$> run) = Some [ev_id list_v1] /\
  (ev_created_at list_v1 < ev_created_at list_v2)%Z.
Proof. vm_compute. done. Qed.

(** The older version is in [by_id] but not counted yet; the newer one removes
    it, and the older then leaves without adding to the counters. *)
Definition underflow_run : list nat := steps 0 3 ++ steps 1 21 ++ steps 0 2 ++ steps 2 8.

Lemma counters_underflow :
  let run := run_schedule
    (starting index_new [CInsert list_v1; CInsert list_v2; CRemove (ev_id list_v2)])
    underflow_run in
  (stored_ids <$> run) = Some [] /\
  ((fun w => event_count (w_index w)) <$> run) = Some usize_max /\
  ((fun w => memory_bytes (w_index w)) <$> run) = Some (usize_max - 2)%Z.
Proof. vm_compute. done. Qed.

(** A deletion in progress: the event is gone but not tombstoned yet. *)
Definition zombie_run : list nat := steps 0 9 ++ steps 1 12 ++ steps 0 2.

Lemma deleted_event_returns :
  let run := run_schedule
    (starting (index_of [note]) [CDelete (ev_id note); CInsert note]) zombie_run in
  (stored_ids <$> run) = Some [ev_id note] /\
  ((fun w => is_tombstoned (w_index w) (ev_id note)) <$> run) = Some true.
Proof. vm_compute. done. Qed.

(** An eviction in progress: the event is gone, its buckets are not empty yet. *)
Definition unlisted_run : list nat := steps 0 3 ++ steps 1 12 ++ steps 0 6.

Lemma stored_event_unlisted :
  let run := run_schedule
    (starting (index_of [note]) [CRemove (ev_id note); CInsert note]) unlisted_run in
  (answers <$> run) = Some [Some (ARemove (Some note)); Some (AInsert (Inserted None))] /\
  (stored_ids <$> run) = Some [ev_id note] /\
  ((fun w => bk_get (w_index w) <$> slots_of note) <$> run) = Some [[]; []; []; []].
Proof. vm_compute. done. Qed.

(** A deletion in progress: the old version is gone, its key is not forgotten. *)
Definition two_versions_run : list nat :=
  steps 0 3 ++ steps 1 15 ++ steps 0 8 ++ steps 2 12.

Lemma two_versions_stored :
  let run := run_schedule
    (starting (index_of [list_v1])
       [CDelete (ev_id list_v1); CInsert list_v2; CInsert list_v0]) two_versions_run in
  (stored_ids <$> run) = Some [ev_id list_v2; ev_id list_v0] /\
  replacement_key list_v2 = replacement_key list_v0.
Proof. vm_compute. done. Qed.
