(* ===== verification/ThreadsQuery.v ===== *)
(** Readers of [src/src/store/index.rs] beside writers: what a point query or an
    eviction scan may see while inserts, evictions and deletions are under way
    ([Threads.v]).

    A point query holds the read lock of its one bucket from the first reference
    to the last and takes the events from the references themselves, so it is one
    access and sees the bucket of a reachable state. [get_oldest] locks the shards
    one after the other: it sees each in another state, and the calls go on in
    between. *)
From S2P Require Import Prelude Collections Event Reference Tombstones Index IndexInv IndexSpec IndexQuery Threads ThreadsInv ThreadsProps.
Open Scope memlay_scope.

(** * Events a call is working on *)

Section Readers.
Context `{HexCrate} (core_of : bytes -> Core).
Implicit Types (w : World) (i : bytes).

(** A call is inserting [i], or has taken it out and is emptying its buckets. *)
Definition in_flight w i : Prop :=
  Exists (fun p => inserting_id p = Some i \/ cleans p i) (w_threads w).

(** [e] is stored, up to its text and signature. *)
Definition stored_as w (e : Event) : Prop :=
  exists e', by_id (w_index w) !! ev_id e = Some e' /\ core e = core e'.

(** What a reader finds under a key: newest first and without repetition, only
    events of the key, each stored or in flight; and every stored event of the
    key that is not in flight. *)
Definition listing_meanwhile w (matching : Event -> Prop) (all : list Event) : Prop :=
  newest_first all /\ NoDup (ev_id <$> all)
  /\ (forall e, e ∈ all -> matching e /\ (stored_as w e \/ in_flight w (ev_id e)))
  /\ (forall i e, by_id (w_index w) !! i = Some e -> matching e ->
        i ∈ ev_id <$> all \/ in_flight w i).

Definition answers_meanwhile w (matching : Event -> Prop) (limit : Z) (l : list Event) : Prop :=
  exists all, l = ztake limit all /\ listing_meanwhile w matching all.

(** Shard [k] as read in the [k]-th of the states [ws], and the scan of
    [get_oldest] over them. *)
Definition shards_read (ws : list World) : list (list EventRef) :=
  imap (fun k w => bk_get (by_oldest (w_index w)) k) ws.
Definition get_oldest_meanwhile (ws : list World) (count : Z) : panicky (list EventRef) :=
  let! h := oldest_shards count (shards_read ws) [] in Ret (reverse (unreverse <$> h)).

(** * Lemmas *)

(** Without other calls the scan is [get_oldest]. *)
Lemma get_oldest_undisturbed w count :
  get_oldest_meanwhile (replicate (length (by_oldest (w_index w))) w) count
  = get_oldest (w_index w) count.
Proof.
  unfold get_oldest_meanwhile, get_oldest, shards_read.
  replace (imap _ _) with (by_oldest (w_index w)); [done|].
  apply list_eq. intros k. rewrite list_lookup_imap.
  destruct (by_oldest (w_index w) !! k) as [s|] eqn:Hs.
  - rewrite lookup_replicate_2 by (by eapply lookup_lt_Some). simpl. by rewrite Hs.
  - apply lookup_ge_None in Hs. by rewrite lookup_ge_None_2 by (by rewrite length_replicate).
Qed.

Lemma answers_for_in_flight w i s :
  Exists (fun p => answers_for p i s) (w_threads w) -> in_flight w i.
Proof.
  unfold in_flight. rewrite !Exists_exists.
  intros (p & Hp & [(e & Hf & <-)|(e & todo & Hc & <- & _)]); exists p; (split; [done|]).
  - left. unfold inserting_id. by destruct p; simplify_eq/=.
  - right. by exists e, todo.
Qed.

Lemma will_file_in_flight w i s :
  Exists (fun p => will_file p i s) (w_threads w) -> in_flight w i.
Proof.
  unfold in_flight. rewrite !Exists_exists.
  intros (p & Hp & e & todo & Hf & <- & _). exists p. split; [done|]. left.
  unfold inserting_id. by destruct p; simplify_eq/=.
Qed.

Lemma live_stored w e :
  world_ok core_of w -> genuine core_of e -> live (w_index w) (ev_id e) -> stored_as w e.
Proof.
  intros Hok Hg [e' He']. exists e'. split; [done|].
  destruct (to_by_id _ _ _ Hok _ _ He') as [Hid Hg']. unfold genuine in *. congruence.
Qed.

(** One bucket of a reachable state. *)
Lemma bucket_meanwhile w s :
  world_ok core_of w ->
  listing_meanwhile w (fun e => s ∈ slots_of e) (er_event <$> bk_get (w_index w) s).
Proof.
  intros Hok. set (l := bk_get (w_index w) s).
  assert (Forall (ref_ok core_of) l) as Hrefs.
  { apply Forall_forall. intros er Her. by apply (to_genuine _ _ _ Hok) in Her as [? _]. }
  pose proof (ref_ids core_of _ Hrefs) as Hids. pose proof (to_sorted _ _ _ Hok s) as Hs.
  split_and!.
  - apply (ref_sorted core_of (fun a b => (b <= a)%Z)); [done|]. by apply bt_sorted_time.
  - rewrite Hids. by apply (bt_sorted_NoDup_ids core_of).
  - intros e (er & -> & Her)%list_elem_of_fmap.
    destruct (to_genuine _ _ _ Hok _ _ Her) as [[Heq Hg] Hk]. split; [done|].
    assert (er_id er = ev_id (er_event er)) as Hid by by rewrite Heq.
    destruct (to_sound _ _ _ Hok s (er_id er)) as [Hl|Hx]; [by exists er| |].
    + left. apply live_stored; [done..|]. by rewrite <- Hid.
    + right. rewrite <- Hid. by eapply answers_for_in_flight.
  - intros i e He Hk. destruct (to_by_id _ _ _ Hok _ _ He) as [<- Hg].
    destruct (to_complete _ _ _ Hok e s Hg) as [(er & Her & Hid)|Hx]; [by eexists|done| |].
    + left. rewrite Hids. apply list_elem_of_fmap. by exists er.
    + right. by eapply will_file_in_flight.
Qed.

Lemma slot_answers w s (matching : Event -> Prop) limit :
  world_ok core_of w -> (forall e, s ∈ slots_of e <-> matching e) ->
  answers_meanwhile w matching limit (er_event <$> ztake limit (bk_get (w_index w) s)).
Proof.
  intros Hok Hm. exists (er_event <$> bk_get (w_index w) s). split; [apply fmap_ztake|].
  destruct (bucket_meanwhile w s Hok) as (Ho & Hn & Hs & Hc). split_and!; [done|done| |].
  - intros e He. rewrite <- Hm. by apply Hs.
  - intros i e He. rewrite <- Hm. by apply Hc.
Qed.

(** With nothing in flight an answer is exact. *)
Lemma answers_settled w matching limit l :
  (forall i, ~ in_flight w i) ->
  (forall e e', core e = core e' -> matching e -> matching e') ->
  (forall i e, by_id (w_index w) !! i = Some e -> ev_id e = i) ->
  answers_meanwhile w matching limit l -> answers_exactly (w_index w) matching limit l.
Proof.
  intros Hno Hcore Hids (all & -> & Ho & Hn & Hs & Hc). exists all. split; [done|].
  assert (forall e, e ∈ all -> matching e /\ stored_as w e) as Hs'.
  { intros e He. destruct (Hs e He) as [? [?|Hf]]; [done|]. by apply Hno in Hf. }
  split_and!; [done|done| |].
  - intros i e He. split.
    + intros Hm. destruct (Hc i e He Hm) as [?|Hf]; [done|]. by apply Hno in Hf.
    + intros (e2 & -> & He2)%list_elem_of_fmap.
      destruct (Hs' e2 He2) as [Hm (e3 & He3 & Hcr)]. rewrite He in He3. injection He3 as <-.
      by apply (Hcore e2 e).
  - intros e He. by apply Hs'.
Qed.

(** [query_by_pubkey_since] stops at the first older event of the bucket. *)
Lemma since_answers w pubkey since limit :
  world_ok core_of w ->
  answers_meanwhile w
    (fun e => tag_id_hash (ev_pubkey e) = tag_id_hash pubkey
       /\ (since <=? ev_created_at e)%Z = true) limit
    (query_by_pubkey_since (w_index w) pubkey since limit).
Proof.
  intros Hok. set (s := SPubkey (tag_id_hash pubkey)).
  destruct (bucket_meanwhile w s Hok) as (Ho & Hn & Hs & Hc).
  set (p := fun e => (since <=? ev_created_at e)%Z).
  assert (forall e, s ∈ slots_of e <-> tag_id_hash (ev_pubkey e) = tag_id_hash pubkey) as Hm.
  { intros e. rewrite elem_slots_of. simpl. unfold pubkey_keys.
    rewrite list_elem_of_singleton. naive_solver. }
  exists (List.filter p (er_event <$> bk_get (w_index w) s)). split.
  - rewrite query_since_eq, fmap_ztake. f_equal. rewrite take_while_filter.
    + apply fmap_filter_compat. intros er Her.
      destruct (to_genuine _ _ _ Hok s er Her) as [[Heq _] _]. by rewrite Heq.
    + pose proof (bt_sorted_time _ (to_sorted _ _ _ Hok s)) as Hso.
      eapply StronglySorted_impl; [|exact Hso]. intros a b Hab. rewrite !Z.leb_le. simpl in Hab. lia.
  - split_and!; [by apply StronglySorted_List_filter|by apply NoDup_fmap_List_filter| |].
    + intros e [He Hp]%elem_of_List_filter. rewrite <- Hm. destruct (Hs e He). done.
    + intros i e He [Hk%Hm Hp]. destruct (Hc i e He Hk) as [(e2 & -> & He2)%list_elem_of_fmap|]; [|by right].
      destruct (Hs e2 He2) as [_ [(e3 & He3 & Hcr)|Hf]]; [|by right].
      left. apply list_elem_of_fmap. exists e2. split; [done|].
      apply elem_of_List_filter. split; [done|]. rewrite He in He3. injection He3 as <-.
      unfold core in Hcr. unfold p in *. by injection Hcr as _ -> _ _.
Qed.

(** Every query on one bucket. *)
Lemma queries_meanwhile w limit :
  world_ok core_of w ->
  (forall pubkey, answers_meanwhile w
     (fun e => tag_id_hash (ev_pubkey e) = tag_id_hash pubkey) limit
     (query_by_pubkey (w_index w) pubkey limit))
  /\ (forall kind, answers_meanwhile w (fun e => ev_kind e = kind) limit
        (query_by_kind (w_index w) kind limit))
  /\ (forall id, answers_meanwhile w
        (fun e => tag_id_hash id ∈ tag_id_hash <$> e_tags e) limit
        (query_by_e_tag (w_index w) id limit))
  /\ (forall pk, answers_meanwhile w
        (fun e => tag_id_hash pk ∈ tag_id_hash <$> p_tags e) limit
        (query_by_p_tag (w_index w) pk limit))
  /\ (forall letter value, answers_meanwhile w
        (fun e => (letter, value) ∈ omap generic_tag (ev_tags e)) limit
        (query_by_tag (w_index w) letter value limit))
  /\ (forall pubkey since, answers_meanwhile w
        (fun e => tag_id_hash (ev_pubkey e) = tag_id_hash pubkey
           /\ (since <=? ev_created_at e)%Z = true) limit
        (query_by_pubkey_since (w_index w) pubkey since limit)).
Proof.
  intros Hok.
  assert (forall s (matching : Event -> Prop), (forall e, s ∈ slots_of e <-> matching e) ->
    answers_meanwhile w matching limit (er_event <$> ztake limit (bk_get (w_index w) s)))
    as Hslot by (intros; by apply slot_answers).
  split_and!; intros; [| | | | |by apply since_answers].
  - unfold query_by_pubkey. rewrite query_flat_eq. apply (Hslot (SPubkey _)). intros e.
    rewrite elem_slots_of. unfold pubkey_keys. rewrite list_elem_of_singleton. naive_solver.
  - unfold query_by_kind. rewrite query_flat_eq. apply (Hslot (SKind _)). intros e.
    rewrite elem_slots_of. unfold kind_keys. rewrite list_elem_of_singleton. naive_solver.
  - unfold query_by_e_tag. rewrite query_flat_eq. apply (Hslot (STagE _)). intros e.
    by rewrite elem_slots_of.
  - unfold query_by_p_tag. rewrite query_flat_eq. apply (Hslot (STagP _)). intros e.
    by rewrite elem_slots_of.
  - rewrite query_by_tag_eq. apply (Hslot (SOther _)). intros e. by rewrite elem_slots_of.
Qed.

(** ** The scan of the shards *)

Lemma elem_shards_read ws er :
  Forall (world_ok core_of) ws -> er ∈ concat (shards_read ws) ->
  ws !! oldest_shard (er_id er) <> None /\
  forall w, ws !! oldest_shard (er_id er) = Some w ->
    ref_ok core_of er /\ er ∈ bk_get (w_index w) (SOldest (oldest_shard (er_id er))).
Proof.
  intros Hok (s & Her & (k & Hk)%list_elem_of_lookup)%elem_of_concat.
  unfold shards_read in Hk. rewrite list_lookup_imap in Hk.
  destruct (ws !! k) as [w|] eqn:Hw; [|done]. simpl in Hk. injection Hk as <-.
  rewrite Forall_lookup in Hok. pose proof (Hok _ _ Hw) as Hok'.
  assert (er ∈ bk_get (w_index w) (SOldest k)) as Her' by exact Her.
  destruct (to_genuine _ _ _ Hok' _ _ Her') as [Hr Hs]. rewrite elem_slots_of in Hs.
  apply list_elem_of_singleton in Hs. destruct Hr as [Heq Hg].
  assert (er_id er = ev_id (er_event er)) as Hid by by rewrite Heq.
  rewrite Hid, <- Hs, Hw. split; [done|]. intros w' [= <-]. split; [by split|done].
Qed.

Lemma shards_read_sorted ws :
  Forall (world_ok core_of) ws -> Forall bt_sorted (shards_read ws).
Proof.
  intros Hok. apply Forall_lookup. intros k s Hk. unfold shards_read in Hk.
  rewrite list_lookup_imap in Hk. destruct (ws !! k) as [w|] eqn:Hw; [|done].
  simpl in Hk. injection Hk as <-. rewrite Forall_lookup in Hok.
  exact (to_sorted _ _ _ (Hok _ _ Hw) (SOldest k)).
Qed.

Lemma shards_read_NoDup ws :
  Forall (world_ok core_of) ws -> NoDup (er_id <$> concat (shards_read ws)).
Proof.
  intros Hok. pose proof (shards_read_sorted ws Hok) as Hso.
  assert (forall k s er, shards_read ws !! k = Some s -> er ∈ s ->
    ref_ok core_of er /\ k = oldest_shard (er_id er)) as Href.
  { intros k s er Hk Her. unfold shards_read in Hk. rewrite list_lookup_imap in Hk.
    destruct (ws !! k) as [w|] eqn:Hw; [|done]. simpl in Hk. injection Hk as <-.
    rewrite Forall_lookup in Hok.
    destruct (to_genuine _ _ _ (Hok _ _ Hw) (SOldest k) er Her) as [[Heq Hg] Hs].
    rewrite elem_slots_of in Hs. apply list_elem_of_singleton in Hs.
    split; [by split|]. rewrite Hs. by rewrite Heq. }
  rewrite fmap_concat. apply NoDup_concat_disjoint.
  - intros k l (s & -> & Hs)%list_lookup_fmap_Some. rewrite Forall_lookup in Hso.
    apply (bt_sorted_NoDup_ids core_of); [by eapply Hso|].
    apply Forall_forall. intros er Her. by eapply Href.
  - intros i j l l' x (s & -> & Hs)%list_lookup_fmap_Some
      (s' & -> & Hs')%list_lookup_fmap_Some
      (er & -> & Her)%list_elem_of_fmap (er' & Heq & Her')%list_elem_of_fmap.
    destruct (Href _ _ _ Hs Her) as [_ ->]. destruct (Href _ _ _ Hs' Her') as [_ ->].
    by rewrite Heq.
Qed.
Lemma scanned_known ws er :
  Forall (world_ok core_of) ws -> er ∈ concat (shards_read ws) ->
  exists w, ws !! oldest_shard (er_id er) = Some w
    /\ er_id er = ev_id (er_event er)
    /\ (stored_as w (er_event er) \/ in_flight w (er_id er)).
Proof.
  intros Hok Her. destruct (elem_shards_read ws er Hok Her) as [Hw Hr].
  destruct (ws !! oldest_shard (er_id er)) as [w|] eqn:Ew; [|done]. exists w.
  destruct (Hr w eq_refl) as [[Heq Hg] Hin]. rewrite Forall_lookup in Hok.
  assert (er_id er = ev_id (er_event er)) as Hid by by rewrite Heq.
  split_and!; [done|done|]. rewrite Hid.
  destruct (bucket_meanwhile w (SOldest (oldest_shard (er_id er))) (Hok _ _ Ew))
    as (_ & _ & Hs & _).
  apply (Hs (er_event er)). by apply list_elem_of_fmap_2.
Qed.

Lemma scan_complete ws w e :
  Forall (world_ok core_of) ws -> ws !! oldest_shard (ev_id e) = Some w ->
  by_id (w_index w) !! ev_id e = Some e -> ~ in_flight w (ev_id e) ->
  exists er, er ∈ concat (shards_read ws) /\ er_id er = ev_id e
    /\ er_created_at er = ev_created_at e.
Proof.
  intros Hok Hw He Hno. rewrite Forall_lookup in Hok. pose proof (Hok _ _ Hw) as Hokw.
  destruct (to_by_id _ _ _ Hokw _ _ He) as [_ Hg].
  destruct (to_complete _ _ _ Hokw e (SOldest (oldest_shard (ev_id e))) Hg)
    as [(er & Her & Hid)|Hx]; [by eexists|by rewrite elem_slots_of; left| |].
  2: { destruct Hno. by eapply will_file_in_flight. }
  exists er. split_and!; [|done|].
  - apply elem_of_concat. exists (bk_get (by_oldest (w_index w)) (oldest_shard (ev_id e))).
    split; [exact Her|]. apply list_elem_of_lookup. exists (oldest_shard (ev_id e)).
    unfold shards_read. by rewrite list_lookup_imap, Hw.
  - destruct (to_genuine _ _ _ Hokw _ _ Her) as [[Heq Hg'] _].
    rewrite Heq. simpl. rewrite Heq in Hid. simpl in Hid. unfold genuine in *.
    rewrite Hid, <- Hg in Hg'. unfold core in Hg'. by injection Hg'.
Qed.
End Readers.

Lemma reached_ok `{HexCrate} core_of ix calls w :
  wf_index core_of ix -> calls_ok core_of ix calls -> rtc cstep (starting ix calls) w ->
  world_ok core_of w.
Proof. intros Hwf Hcalls. apply world_ok_steps. by apply world_ok_starting. Qed.

(** * Properties *)

(** Queries beside writers: in every state that concurrent inserts, evictions
    and deletions of distinct events can reach, each point query answers with the
    first [limit], newest first and without repetition, of a list that holds only
    events filed under the requested key, each of them stored or being inserted or
    removed by a call that has not returned, and that leaves out a stored event of
    the key only while a call is inserting or removing it. *)
Theorem concurrent_queries_exact `{HexCrate} core_of ix calls w limit :
  wf_index core_of ix -> calls_ok core_of ix calls -> rtc cstep (starting ix calls) w ->
  (forall pubkey, answers_meanwhile w
     (fun e => tag_id_hash (ev_pubkey e) = tag_id_hash pubkey) limit
     (query_by_pubkey (w_index w) pubkey limit))
  /\ (forall kind, answers_meanwhile w (fun e => ev_kind e = kind) limit
        (query_by_kind (w_index w) kind limit))
  /\ (forall id, answers_meanwhile w
        (fun e => tag_id_hash id ∈ tag_id_hash <$> e_tags e) limit
        (query_by_e_tag (w_index w) id limit))
  /\ (forall pk, answers_meanwhile w
        (fun e => tag_id_hash pk ∈ tag_id_hash <$> p_tags e) limit
        (query_by_p_tag (w_index w) pk limit))
  /\ (forall letter value, answers_meanwhile w
        (fun e => (letter, value) ∈ omap generic_tag (ev_tags e)) limit
        (query_by_tag (w_index w) letter value limit))
  /\ (forall pubkey since, answers_meanwhile w
        (fun e => tag_id_hash (ev_pubkey e) = tag_id_hash pubkey
           /\ (since <=? ev_created_at e)%Z = true) limit
        (query_by_pubkey_since (w_index w) pubkey since limit)).
Proof. intros. by eapply queries_meanwhile, reached_ok. Qed.

(** The first version of the list has been taken out by its replacement and the
    buckets still hold it. *)
Definition mid_replacement : list nat := steps 0 4.

Lemma concurrent_queries_exact_witness :
  match run_schedule (starting (index_of [list_v1]) evict_and_insert) mid_replacement with
  | Some w =>
      answers_meanwhile w (fun e => ev_kind e = 10002%Z) 5 (query_by_kind (w_index w) 10002 5)
      /\ stored_ids w = [] /\ query_by_kind (w_index w) 10002 5 = [list_v1]
  | None => False
  end.
Proof.
  destruct (run_schedule _ _) as [w|] eqn:E; [|by vm_compute in E].
  split_and!; [|revert E; vm_compute; by intros [= <-]..].
  refine (proj1 (proj2 (concurrent_queries_exact sample_core (index_of [list_v1])
    evict_and_insert w 5 _ _ _)) 10002%Z).
  - apply wf_index_of. by repeat constructor.
  - apply sample_calls_ok.
  - by eapply run_schedule_steps.
Defined.

(** Eviction candidates beside writers: [get_oldest] locks one shard after the
    other while inserts, evictions and deletions go on, so shard [k] is read in the
    [k]-th of a series of reachable states [ws]. It still does not panic; it returns
    at most [count] distinct references, oldest first, each to an event that was
    stored or in flight when its shard was read; and it leaves out a stored event
    that no call was working on only if it found [count] references at least as
    old. *)
Theorem concurrent_oldest_sound `{HexCrate} core_of ix calls ws count :
  wf_index core_of ix -> calls_ok core_of ix calls -> (0 < count)%Z ->
  Forall (rtc cstep (starting ix calls)) ws ->
  exists l, get_oldest_meanwhile ws count = Ret l
  /\ (Z.of_nat (length l) <= count)%Z /\ NoDup (er_id <$> l)
  /\ StronglySorted (fun a b => (er_created_at a <= er_created_at b)%Z) l
  /\ (forall er, er ∈ l -> exists w, ws !! oldest_shard (er_id er) = Some w
        /\ er_id er = ev_id (er_event er)
        /\ (stored_as w (er_event er) \/ in_flight w (er_id er)))
  /\ (forall w e, ws !! oldest_shard (ev_id e) = Some w ->
        by_id (w_index w) !! ev_id e = Some e -> ~ in_flight w (ev_id e) ->
        ev_id e ∈ er_id <$> l \/
        (Z.of_nat (length l) = count
         /\ forall er, er ∈ l -> (er_created_at er <= ev_created_at e)%Z)).
Proof.
  intros Hwf Hcalls Hc Hrun.
  assert (Forall (world_ok core_of) ws) as Hok.
  { eapply Forall_impl; [exact Hrun|]. intros w. by apply (reached_ok core_of). }
  destruct (oldest_shards_spec count (shards_read ws) [] [] Hc (shards_read_sorted core_of ws Hok))
    as (h & Hh & Hso & Hlen & rest & Hp & Hle & Hfull).
  { split_and!; [constructor|simpl; lia|]. exists []. split_and!; [done|set_solver|done]. }
  unfold get_oldest_meanwhile. rewrite Hh. simpl in *. set (l := reverse (unreverse <$> h)).
  assert (length l = length h) as Hll by (unfold l; by rewrite length_reverse, length_fmap).
  assert (concat (shards_read ws) ≡ₚ l ++ rest) as Hpl
    by (unfold l; by rewrite reverse_Permutation).
  exists l. split_and!; [done|lia| | | |].
  - pose proof (shards_read_NoDup core_of ws Hok) as Hn. rewrite Hpl, fmap_app in Hn.
    by apply NoDup_app in Hn as [? _].
  - by apply drained_sorted.
  - intros er Her. apply (scanned_known core_of ws er Hok). rewrite Hpl. apply elem_of_app. by left.
  - intros w e Hw He Hno.
    destruct (scan_complete core_of ws w e Hok Hw He Hno) as (er & Hin & <- & Ht).
    rewrite Hpl in Hin. apply elem_of_app in Hin as [Hin|Hin].
    { left. by apply list_elem_of_fmap_2. }
    right. split.
    + rewrite Hll. apply Hfull. by intros ->; apply elem_of_nil in Hin.
    + intros x Hx. rewrite <- Ht. apply Hle; [|done]. unfold l in Hx. by rewrite elem_of_reverse in Hx.
Qed.

(** Half of the shards are read before the two calls, half after them. *)
Lemma concurrent_oldest_sound_witness :
  match run_schedule (starting (index_of [list_v1]) evict_and_insert) settle_run with
  | Some w =>
      exists l, get_oldest_meanwhile
        (replicate 32 (starting (index_of [list_v1]) evict_and_insert) ++ replicate 32 w) 10 = Ret l
      /\ NoDup (er_id <$> l)
  | None => False
  end.
Proof.
  destruct (run_schedule _ _) as [w|] eqn:E; [|by vm_compute in E].
  destruct (concurrent_oldest_sound sample_core (index_of [list_v1]) evict_and_insert
    (replicate 32 (starting (index_of [list_v1]) evict_and_insert) ++ replicate 32 w) 10)
    as (l & Hl & _ & Hn & _).
  - apply wf_index_of. by repeat constructor.
  - apply sample_calls_ok.
  - done.
  - apply Forall_app. split; apply Forall_replicate; [done|]. by eapply run_schedule_steps.
  - exact (ex_intro _ l (conj Hl Hn)).
Defined.
