(* ===== verification/Wal.v ===== *)
(** [src/src/store/wal.rs]: the write-ahead log.

    A segment is the bytes of a log file with the length of the prefix that an
    [fsync] has made durable; [Wal] is [struct WriteAheadLog] together with the
    two files it manages, [wal.log] and the rotated-out [wal.log.old]. The open
    handle is recorded by the file it points to, since a rename moves the file
    and not the handle. System calls that can fail are decided by a [Faults]
    argument; writes to an open file are taken to succeed ([append] flushes each
    record to the operating system). A crash of the process can leave any prefix
    of the last record; a power loss any prefix of a segment that contains its
    synced part. *)
From S2P Require Import Prelude Event Reference.

(** * Data *)

Definition MAX_WAL_RECORD_SIZE : Z := (16 * 1024 * 1024)%Z.

(** [enum WalOp]. *)
Inductive WalOp :=
| WInsert (data : bytes)
| WDelete (id : bytes)
| WTombstone (id : bytes).

(** What can go wrong while reading a segment. *)
Inductive WalError :=
| NotFound
| UnexpectedEof
| OversizedRecord
| IoFailure.

(** The system calls that fail in one call of an operation. *)
Record Faults := mkFaults {
  fail_mkdir : bool;
  fail_open : bool;
  fail_sync : bool;
  fail_rename : bool;
  fail_write : bool;
  fail_remove : bool;
}.

Definition no_faults : Faults := mkFaults false false false false false false.

Record Seg := mkSeg {
  seg_data : bytes;
  seg_synced : nat;
}.

Definition seg_empty : Seg := mkSeg [] 0.
Definition seg_append (s : Seg) (bs : bytes) : Seg :=
  mkSeg (seg_data s ++ bs) (seg_synced s).
Definition seg_sync (s : Seg) : Seg := mkSeg (seg_data s) (length (seg_data s)).

(** Where the file behind the open handle is now. *)
Inductive Handle := AtLog | AtOld | Unlinked.

(** [struct WriteAheadLog] and its files. *)
Record Wal := mkWal {
  w_log : option Seg;
  w_old : option Seg;
  w_handle : Handle;
  w_dirty : bool;
  w_bytes : Z;
}.

(** * Writing *)

(** [u32 as usize] of a length: [data.len() as u32] keeps the low 32 bits. *)
Definition op_tag (op : WalOp) : Z :=
  match op with WInsert _ => 0%Z | WDelete _ => 1%Z | WTombstone _ => 2%Z end.

(** The bytes [append] writes for one operation. *)
Definition encode_op (op : WalOp) : bytes :=
  op_tag op ::
  match op with
  | WInsert data => to_le_bytes 4 (Z.of_nat (length data) mod 2 ^ 32) ++ data
  | WDelete id | WTombstone id => id
  end.

(** The byte count [append] adds to [bytes_written]. *)
Definition op_written (op : WalOp) : Z :=
  1 + match op with
      | WInsert data => 4 + Z.of_nat (length data)
      | WDelete _ | WTombstone _ => 32
      end.

(** Apply [f] to the file behind the handle. *)
Definition on_handle (f : Seg -> Seg) (w : Wal) : Wal :=
  match w_handle w with
  | AtLog => mkWal (f <$> w_log w) (w_old w) AtLog (w_dirty w) (w_bytes w)
  | AtOld => mkWal (w_log w) (f <$> w_old w) AtOld (w_dirty w) (w_bytes w)
  | Unlinked => w
  end.

Definition set_dirty (d : bool) (w : Wal) : Wal :=
  mkWal (w_log w) (w_old w) (w_handle w) d (w_bytes w).
Definition set_bytes (b : Z) (w : Wal) : Wal :=
  mkWal (w_log w) (w_old w) (w_handle w) (w_dirty w) b.

(** [WriteAheadLog::open] on a directory that holds the segments [log] and
    [old]. *)
Definition wal_open (fl : Faults) (log old : option Seg) : result Wal WalError :=
  if fail_mkdir fl || fail_open fl then Err IoFailure else
  let s := default seg_empty log in
  Ok (mkWal (Some s) old AtLog false (Z.of_nat (length (seg_data s)))).

(** [WriteAheadLog::append]. *)
Definition append (w : Wal) (op : WalOp) : Wal :=
  let w1 := on_handle (fun s => seg_append s (encode_op op)) w in
  let w2 := set_dirty true w1 in
  set_bytes (fetch_add (w_bytes w2) (op_written op)) w2.

(** [WriteAheadLog::insert], [delete], [tombstone]. *)
Definition wal_insert (w : Wal) (e : Event) : Wal := append w (WInsert (ev_raw e)).
Definition wal_delete (w : Wal) (id : bytes) : Wal := append w (WDelete id).
Definition wal_tombstone (w : Wal) (id : bytes) : Wal := append w (WTombstone id).

(** [WriteAheadLog::pending_bytes]. *)
Definition pending_bytes (w : Wal) : Z := w_bytes w.

(** [WriteAheadLog::group_commit]: the flag is cleared before the sync. *)
Definition group_commit (fl : Faults) (w : Wal) : Wal * result bool WalError :=
  if negb (w_dirty w) then (set_dirty false w, Ok false) else
  let w1 := set_dirty false w in
  if fail_sync fl then (w1, Err IoFailure) else
  (on_handle seg_sync w1, Ok true).

(** [WriteAheadLog::flush]. *)
Definition flush (fl : Faults) (w : Wal) : Wal * result unit WalError :=
  if fail_sync fl then (w, Err IoFailure) else
  (set_dirty false (on_handle seg_sync w), Ok tt).

(** [std::fs::rename(wal.log, wal.log.old)]: the open handle follows its file; a
    handle to the file replaced by the rename is left without a name. *)
Definition rename_log (w : Wal) : Wal :=
  mkWal None (w_log w)
    (match w_handle w with AtLog => AtOld | _ => Unlinked end)
    (w_dirty w) (w_bytes w).

(** [WriteAheadLog::rotate]. *)
Definition rotate (fl : Faults) (w : Wal) : Wal * result unit WalError :=
  if fail_sync fl then (w, Err IoFailure) else
  let w1 := on_handle seg_sync w in
  if fail_rename fl || negb (bool_decide (is_Some (w_log w1))) then (w1, Err IoFailure) else
  let w2 := rename_log w1 in
  if fail_open fl then (w2, Err IoFailure) else
  (mkWal (Some seg_empty) (w_old w2) AtLog false 0, Ok tt).

(** [WriteAheadLog::truncate]. *)
Definition truncate (fl : Faults) (w : Wal) : Wal * result unit WalError :=
  if fail_sync fl then (w, Err IoFailure) else
  let w1 := on_handle seg_sync w in
  if fail_open fl || negb (bool_decide (is_Some (w_log w1))) then (w1, Err IoFailure) else
  (mkWal (Some seg_empty) (w_old w1) (w_handle w1) (w_dirty w1) (w_bytes w1), Ok tt).

(** * Reading *)

(** [Read::read_exact] of [n] bytes. *)
Definition read_exact (n : nat) (bs : bytes) : option (bytes * bytes) :=
  if decide (n <= length bs) then Some (take n bs, drop n bs) else None.

(** The outcome of reading one record. *)
Inductive record :=
| REof
| RUnknown
| RError (e : WalError)
| ROp (op : WalOp) (rest : bytes).

(** One iteration of the loop of [replay_path], up to the call of the closure.
    (The first [read] of one byte returns 0 only at the end of the file.) *)
Definition read_record (bs : bytes) : record :=
  match bs with
  | [] => REof
  | op_type :: bs =>
      if (op_type =? 0)%Z then
        match read_exact 4 bs with
        | None => RError UnexpectedEof
        | Some (len_buf, bs) =>
            let len := from_le_bytes len_buf in
            if (len >? MAX_WAL_RECORD_SIZE)%Z then RError OversizedRecord else
            match read_exact (Z.to_nat len) bs with
            | None => RError UnexpectedEof
            | Some (data, bs) => ROp (WInsert data) bs
            end
        end
      else if (op_type =? 1)%Z then
        match read_exact 32 bs with
        | None => RError UnexpectedEof
        | Some (id, bs) => ROp (WDelete id) bs
        end
      else if (op_type =? 2)%Z then
        match read_exact 32 bs with
        | None => RError UnexpectedEof
        | Some (id, bs) => ROp (WTombstone id) bs
        end
      else RUnknown
  end.

(** The loop of [replay_path] with the closure [f] on a state; every iteration
    consumes a byte, so the length of the file bounds their number. *)
Fixpoint replay_loop {S} (fuel : nat) (f : S -> WalOp -> S) (st : S) (bs : bytes)
    (count : Z) : S * result Z WalError :=
  match fuel with
  | O => (st, Ok count)
  | Datatypes.S fuel =>
      match read_record bs with
      | REof | RUnknown => (st, Ok count)
      | RError e => (st, Err e)
      | ROp op rest => replay_loop fuel f (f st op) rest (count + 1)
      end
  end.

(** [WriteAheadLog::replay_path]. *)
Definition replay_path {S} (f : S -> WalOp -> S) (st : S) (file : option Seg)
    : S * result Z WalError :=
  match file with
  | None => (st, Err NotFound)
  | Some s => replay_loop (Datatypes.S (length (seg_data s))) f st (seg_data s) 0
  end.

(** A file that is there may not open, or fail to be read further at some byte. *)
Inductive Reading :=
| ReadAll
| NotOpened
| ReadUpTo (n : nat).

(** What a replay finds of a segment: an error while reading ends it as the end of
    the file does. *)
Definition read_segment (r : Reading) (file : option Seg) : option Seg :=
  match r with
  | ReadAll => file
  | NotOpened => None
  | ReadUpTo n => (fun s => mkSeg (take n (seg_data s)) (seg_synced s)) <$> file
  end.

(** [WriteAheadLog::replay]. *)
Definition replay {S} (f : S -> WalOp -> S) (st : S) (w : Wal)
    : S * result Z WalError := replay_path f st (w_log w).

(** * Compaction *)

Section Compaction.
Context `{HexCrate, EventCrates}.

(** [compact]'s test of an insert record: parsed, live, and not yet kept. *)
Definition compact_keeps (live_ids seen : gset bytes) (data : bytes) : option bytes :=
  match from_json_unchecked data with
  | Ok event =>
      if bool_decide (ev_id event ∈ live_ids) && bool_decide (ev_id event ∉ seen)
      then Some (ev_id event) else None
  | Err _ => None
  end.

(** The streaming loop of [WriteAheadLog::compact]: the bytes of the new file
    and the number of records dropped. A torn record ends it silently. *)
Fixpoint compact_loop (fuel : nat) (live_ids seen : gset bytes) (bs out : bytes)
    (removed : Z) : result (bytes * Z) WalError :=
  match fuel with
  | O => Ok (out, removed)
  | S fuel =>
      match read_record bs with
      | REof | RUnknown | RError UnexpectedEof => Ok (out, removed)
      | RError e => Err e
      | ROp (WInsert data) rest =>
          match compact_keeps live_ids seen data with
          | Some id =>
              compact_loop fuel live_ids ({[id]} ∪ seen) rest
                (out ++ encode_op (WInsert data)) removed
          | None => compact_loop fuel live_ids seen rest out (removed + 1)
          end
      | ROp _ rest => compact_loop fuel live_ids seen rest out (removed + 1)
      end
  end.

(** [WriteAheadLog::compact]. *)
Definition compact (fl : Faults) (live_ids : gset bytes) (w : Wal)
    : Wal * result Z WalError :=
  match w_log w with
  | None => (w, Err NotFound)
  | Some s =>
      if fail_write fl then (w, Err IoFailure) else
      match compact_loop (S (length (seg_data s))) live_ids ∅ (seg_data s) [] 0 with
      | Err e => (w, Err e)
      | Ok (out, removed) =>
          if fail_sync fl || fail_rename fl then (w, Err IoFailure) else
          let log := Some (mkSeg out (length out)) in
          let orphan := match w_handle w with AtLog => Unlinked | h => h end in
          if fail_open fl
          then (mkWal log (w_old w) orphan (w_dirty w) (w_bytes w), Err IoFailure)
          else (mkWal log (w_old w) AtLog (w_dirty w) (w_bytes w), Ok removed)
      end
  end.
End Compaction.

(** * Lemmas *)

(** The operations whose encoding can be read back. *)
Definition op_ok (op : WalOp) : Prop :=
  match op with
  | WInsert data => (Z.of_nat (length data) <= MAX_WAL_RECORD_SIZE)%Z
  | WDelete id | WTombstone id => length id = 32
  end.

Definition encode_all (ops : list WalOp) : bytes := ops ≫= encode_op.

Lemma length_to_le_bytes n w : length (to_le_bytes n w) = n.
Proof. revert w. induction n as [|n IH]; intros w; simpl; [done|]. by rewrite IH. Qed.

Lemma from_to_le_bytes n w :
  (0 <= w < 256 ^ Z.of_nat n)%Z -> from_le_bytes (to_le_bytes n w) = w.
Proof.
  revert w. induction n as [|n IH]; intros w Hw; [simpl in *; lia|].
  cbn [to_le_bytes from_le_bytes]. rewrite Nat2Z.inj_succ, Z.pow_succ_r in Hw by lia.
  rewrite IH.
  - pose proof (Z.div_mod w 256 ltac:(lia)). lia.
  - split; [apply Z.div_pos; lia|]. apply Z.div_lt_upper_bound; lia.
Qed.

Lemma read_exact_app n l bs : length l = n -> read_exact n (l ++ bs) = Some (l, bs).
Proof.
  intros <-. unfold read_exact. rewrite decide_True by (rewrite length_app; lia).
  by rewrite take_app_length, drop_app_length.
Qed.

Lemma read_exact_Some n bs l rest :
  read_exact n bs = Some (l, rest) -> bs = l ++ rest /\ length l = n.
Proof.
  unfold read_exact. case_decide; [|done]. intros [= <- <-].
  split; [by rewrite take_drop|]. rewrite length_take. lia.
Qed.

(** The data length as written is the data length. *)
Lemma len_field (data : bytes) :
  (Z.of_nat (length data) <= MAX_WAL_RECORD_SIZE)%Z ->
  from_le_bytes (to_le_bytes 4 (Z.of_nat (length data) mod 2 ^ 32)) = Z.of_nat (length data).
Proof.
  unfold MAX_WAL_RECORD_SIZE. intros Hl. rewrite Z.mod_small by lia.
  apply from_to_le_bytes. simpl. lia.
Qed.

Lemma read_record_encode op bs : op_ok op -> read_record (encode_op op ++ bs) = ROp op bs.
Proof.
  destruct op as [data|id|id]; simpl op_ok; intros Hok; unfold encode_op, read_record;
    rewrite <- app_comm_cons; cbn [op_tag Z.eqb Pos.eqb].
  - rewrite <- app_assoc, read_exact_app by apply length_to_le_bytes. cbv zeta.
    rewrite (len_field data Hok).
    destruct (Z.gtb_spec (Z.of_nat (length data)) MAX_WAL_RECORD_SIZE); [lia|].
    by rewrite read_exact_app by lia.
  - by rewrite read_exact_app.
  - by rewrite read_exact_app.
Qed.

Lemma read_record_oversized data bs :
  (MAX_WAL_RECORD_SIZE < Z.of_nat (length data) < 2 ^ 32)%Z ->
  read_record (encode_op (WInsert data) ++ bs) = RError OversizedRecord.
Proof.
  intros Hlen. assert (0 < MAX_WAL_RECORD_SIZE)%Z by done.
  unfold encode_op, read_record. rewrite <- app_comm_cons. cbn [op_tag Z.eqb].
  rewrite <- app_assoc, read_exact_app by apply length_to_le_bytes. cbv zeta.
  rewrite Z.mod_small, from_to_le_bytes by (simpl; lia).
  destruct (Z.gtb_spec (Z.of_nat (length data)) MAX_WAL_RECORD_SIZE); [done|lia].
Qed.

(** Reading a record consumes at least a byte. *)
Lemma read_record_shorter bs op rest :
  read_record bs = ROp op rest -> length rest < length bs.
Proof.
  unfold read_record. destruct bs as [|b bs]; [done|].
  assert (forall n (l r : bytes), read_exact n bs = Some (l, r) -> length r <= length bs) as Hle.
  { intros n l r [-> _]%read_exact_Some. rewrite length_app. lia. }
  repeat case_match; intros [= <- <-]; simpl;
    repeat match goal with
    | H : read_exact _ bs = Some _ |- _ => apply Hle in H
    | H : read_exact _ _ = Some _ |- _ => apply read_exact_Some in H as [-> _]
    end; rewrite ?length_app in *; lia.
Qed.

Section Replay.
Context {S : Type} (f : S -> WalOp -> S).

(** Any fuel beyond the length gives the same run. *)
Lemma replay_loop_fuel fuel1 fuel2 st bs c :
  length bs < fuel1 -> length bs < fuel2 ->
  replay_loop fuel1 f st bs c = replay_loop fuel2 f st bs c.
Proof.
  revert fuel2 st bs c. induction fuel1 as [|fuel1 IH]; intros fuel2 st bs c H1 H2; [lia|].
  destruct fuel2 as [|fuel2]; [lia|]. simpl.
  destruct (read_record bs) as [| | |op rest] eqn:Hr; try done.
  apply read_record_shorter in Hr. apply IH; lia.
Qed.

Lemma replay_loop_encode ops fuel st bs c :
  Forall op_ok ops ->
  replay_loop (length ops + fuel) f st (encode_all ops ++ bs) c
  = replay_loop fuel f (foldl f st ops) bs (c + Z.of_nat (length ops)).
Proof.
  revert st c. induction ops as [|op ops IH]; intros st c Hok.
  { simpl. by rewrite Z.add_0_r. }
  apply Forall_cons in Hok as [Hop Hok]. unfold encode_all in *. cbn [mbind list_bind].
  rewrite <- app_assoc. cbn [length Nat.add replay_loop].
  rewrite (read_record_encode op _ Hop), (IH _ _ Hok).
  simpl. f_equal. lia.
Qed.
End Replay.

Lemma length_encode_op op : 0 < length (encode_op op).
Proof. simpl. lia. Qed.

Lemma encode_all_app l1 l2 : encode_all (l1 ++ l2) = encode_all l1 ++ encode_all l2.
Proof. apply bind_app. Qed.

Lemma length_encode_all ops : length ops <= length (encode_all ops).
Proof.
  induction ops as [|op ops IH]; [done|]. unfold encode_all in *. cbn [mbind list_bind].
  rewrite length_app. pose proof (length_encode_op op). simpl length at 1. lia.
Qed.

Lemma take_short_read n k (l : bytes) : k < n -> read_exact n (take k l) = None.
Proof. intros Hk. unfold read_exact. rewrite decide_False; [done|]. rewrite length_take. lia. Qed.

(** A record cut short reads as a torn one. *)
Lemma read_record_torn op n :
  op_ok op -> 0 < n < length (encode_op op) ->
  read_record (take n (encode_op op)) = RError UnexpectedEof.
Proof.
  intros Hok [Hn1 Hn2]. destruct n as [|n]; [lia|].
  destruct op as [data|id|id]; simpl op_ok in Hok; unfold encode_op, read_record in *;
    rewrite firstn_cons; cbn [op_tag Z.eqb Pos.eqb length] in *.
  - rewrite length_app, length_to_le_bytes in Hn2.
    destruct (decide (n < 4)) as [H4|H4]; [by rewrite take_short_read|].
    replace n with (length (to_le_bytes 4 (Z.of_nat (length data) mod 2 ^ 32)) + (n - 4))
      by (rewrite length_to_le_bytes; lia).
    rewrite take_app_add, read_exact_app by apply length_to_le_bytes. cbv zeta.
    rewrite (len_field data Hok).
    destruct (Z.gtb_spec (Z.of_nat (length data)) MAX_WAL_RECORD_SIZE); [lia|].
    by rewrite take_short_read by lia.
  - by rewrite take_short_read by lia.
  - by rewrite take_short_read by lia.
Qed.

(** The operations whose records lie wholly within the first [n] bytes. *)
Fixpoint whole (n : nat) (ops : list WalOp) : list WalOp :=
  match ops with
  | [] => []
  | op :: ops =>
      if decide (length (encode_op op) <= n)
      then op :: whole (n - length (encode_op op)) ops else []
  end.

Lemma whole_prefix n ops : whole n ops `prefix_of` ops.
Proof.
  revert n. induction ops as [|op ops IH]; intros n; simpl; [done|].
  case_decide; [by apply prefix_cons|apply prefix_nil].
Qed.

Lemma whole_app n l1 l2 :
  length (encode_all l1) <= n ->
  whole n (l1 ++ l2) = l1 ++ whole (n - length (encode_all l1)) l2.
Proof.
  revert n. induction l1 as [|op l1 IH]; intros n Hn.
  { simpl. by rewrite Nat.sub_0_r. }
  unfold encode_all in *. cbn [mbind list_bind] in *. rewrite length_app in *.
  cbn [whole app]. rewrite decide_True by lia. rewrite IH by lia.
  do 3 f_equal. lia.
Qed.

(** Replaying the first [n] bytes of a log applies exactly the whole records. *)
Lemma replay_take {S} (f : S -> WalOp -> S) ops n st c fuel :
  Forall op_ok ops -> length (take n (encode_all ops)) < fuel ->
  exists r, replay_loop fuel f st (take n (encode_all ops)) c = (foldl f st (whole n ops), r)
  /\ (r = Ok (c + Z.of_nat (length (whole n ops)))%Z \/ r = Err UnexpectedEof).
Proof.
  revert n st c fuel. induction ops as [|op ops IH]; intros n st c fuel Hok Hf.
  { change (encode_all []) with (@nil Z) in *. rewrite take_nil in *.
    destruct fuel; [simpl in *; lia|]. simpl.
    eexists; split; [done|]. left. by rewrite Z.add_0_r. }
  apply Forall_cons in Hok as [Hop Hok]. unfold encode_all in *. cbn [mbind list_bind whole] in *.
  destruct fuel as [|fuel]; [lia|]. case_decide as Hn.
  - rewrite take_app_ge in * by lia. rewrite length_app in Hf.
    cbn [replay_loop]. rewrite (read_record_encode op _ Hop).
    destruct (IH (n - length (encode_op op)) (f st op) (c + 1)%Z fuel Hok) as (r & Hr & Hres).
    { pose proof (length_encode_op op). unfold mbind in *. lia. }
    exists r. split; [exact Hr|]. destruct Hres as [->|]; [left|by right].
    f_equal. cbn [length]. lia.
  - rewrite take_app_le by lia. cbn [replay_loop].
    destruct (decide (n = 0)) as [->|Hn0].
    + simpl. eexists. split; [done|]. left. by rewrite Z.add_0_r.
    + rewrite read_record_torn by (done || lia). simpl. eauto.
Qed.

(** ** Logs *)

(** The live segment holds exactly the records of [ops], and the handle is on it. *)
Definition log_holds (w : Wal) (ops : list WalOp) : Prop :=
  w_handle w = AtLog /\ exists s, w_log w = Some s /\ seg_data s = encode_all ops
    /\ seg_synced s <= length (seg_data s).

Definition open_empty : Wal := mkWal (Some seg_empty) None AtLog false 0.

Lemma log_holds_open : log_holds open_empty [].
Proof. split; [done|]. by exists seg_empty. Qed.

Lemma log_holds_append w ops op : log_holds w ops -> log_holds (append w op) (ops ++ [op]).
Proof.
  intros [Hh (s & Hs & Hd & Hle)]. unfold append, on_handle. rewrite Hh, Hs. simpl.
  split; [done|]. eexists. split; [done|]. simpl. split.
  - rewrite encode_all_app, Hd. unfold encode_all. simpl. by rewrite app_nil_r.
  - rewrite length_app. lia.
Qed.

Lemma log_holds_append_all w ops more :
  log_holds w ops -> log_holds (foldl append w more) (ops ++ more).
Proof.
  revert w ops. induction more as [|op more IH]; intros w ops Hw; simpl.
  { by rewrite app_nil_r. }
  rewrite cons_middle, app_assoc. by apply IH, log_holds_append.
Qed.

(** What a sync made durable stays durable. *)
Definition log_synced (w : Wal) : nat :=
  match w_log w with Some s => seg_synced s | None => 0 end.

Lemma log_synced_append_all w more :
  w_handle w = AtLog -> log_synced (foldl append w more) = log_synced w.
Proof.
  revert w. induction more as [|op more IH]; intros w Hh; simpl; [done|].
  assert (w_handle (append w op) = AtLog) as Hh'.
  { unfold append, on_handle. by rewrite Hh. }
  rewrite IH by done. unfold append, on_handle. rewrite Hh.
  unfold log_synced. simpl. by destruct (w_log w).
Qed.

Lemma replay_log {S} (f : S -> WalOp -> S) st w ops :
  log_holds w ops -> Forall op_ok ops ->
  replay f st w = (foldl f st ops, Ok (Z.of_nat (length ops))).
Proof.
  intros [_ (s & Hs & Hd & _)] Hok. unfold replay, replay_path. rewrite Hs, Hd.
  pose proof (length_encode_all ops) as Hle.
  rewrite (replay_loop_fuel f _ (length ops + Datatypes.S (length (encode_all ops)))) by lia.
  rewrite <- (app_nil_r (encode_all ops)), replay_loop_encode by done. done.
Qed.

Lemma length_encode_written op :
  op_ok op -> Z.of_nat (length (encode_op op)) = op_written op.
Proof.
  destruct op as [data|id|id]; cbn [op_ok]; intros Hok; unfold encode_op, op_written;
    cbn [length]; rewrite ?length_app, ?length_to_le_bytes; lia.
Qed.

Lemma log_bytes_append_all w ops more :
  log_holds w ops -> w_bytes w = wrap64 (Z.of_nat (length (encode_all ops))) ->
  Forall op_ok more ->
  w_bytes (foldl append w more) = wrap64 (Z.of_nat (length (encode_all (ops ++ more)))).
Proof.
  revert w ops. induction more as [|op more IH]; intros w ops Hw Hb Hok; simpl.
  { by rewrite app_nil_r. }
  apply Forall_cons in Hok as [Hop Hok].
  rewrite cons_middle, app_assoc. apply IH; [by apply log_holds_append| |done].
  rewrite encode_all_app, length_app, Nat2Z.inj_add.
  assert (encode_all [op] = encode_op op) as -> by apply app_nil_r.
  rewrite (length_encode_written op Hop), <- fetch_add_wrap, <- Hb.
  unfold append, on_handle. destruct (w_handle w); done.
Qed.

(** Appends mark the log dirty, so a commit after them syncs all of it. *)
Definition dirty_or_synced (w : Wal) : Prop :=
  w_dirty w = true \/ log_synced w = length (default [] (seg_data <$> w_log w)).

Lemma dirty_append_all w more : dirty_or_synced w -> dirty_or_synced (foldl append w more).
Proof.
  revert w. induction more as [|op more IH]; intros w Hw; simpl; [done|]. apply IH. by left.
Qed.

Lemma group_commit_synced w ops :
  log_holds w ops -> dirty_or_synced w ->
  exists w' r, group_commit no_faults w = (w', r) /\ log_holds w' ops
    /\ log_synced w' = length (encode_all ops).
Proof.
  intros [Hh (s & Hs & Hd & Hle)] Hdirty. unfold group_commit.
  destruct (w_dirty w) eqn:Hdw; simpl.
  - eexists _, _. split; [done|]. unfold on_handle, log_holds, log_synced. simpl.
    rewrite Hh, Hs. simpl. rewrite <- Hd. split; [|done]. split; [done|].
    eexists. split; [done|]. simpl. auto.
  - destruct Hdirty as [?|Hsy]; [congruence|]. eexists _, _. split; [done|].
    unfold log_holds, log_synced in *. simpl. rewrite Hh, Hs in *. simpl in Hsy.
    rewrite <- Hd. split; [|done]. split; [done|]. eauto.
Qed.

(** ** Compaction *)

Section CompactSpec.
Context `{HexCrate, EventCrates}.

(** The records compaction keeps. *)
Fixpoint kept (live seen : gset bytes) (ops : list WalOp) : list WalOp :=
  match ops with
  | [] => []
  | WInsert data :: ops =>
      match compact_keeps live seen data with
      | Some id => WInsert data :: kept live ({[id]} ∪ seen) ops
      | None => kept live seen ops
      end
  | _ :: ops => kept live seen ops
  end.

(** The id an insert record is about. *)
Definition insert_id (op : WalOp) : option bytes :=
  match op with
  | WInsert data =>
      match from_json_unchecked data with Ok e => Some (ev_id e) | Err _ => None end
  | _ => None
  end.

Lemma compact_loop_spec ops fuel live seen out removed :
  Forall op_ok ops -> length (encode_all ops) < fuel ->
  compact_loop fuel live seen (encode_all ops) out removed
  = Ok (out ++ encode_all (kept live seen ops),
        removed + (Z.of_nat (length ops) - Z.of_nat (length (kept live seen ops))))%Z.
Proof.
  revert fuel seen out removed.
  induction ops as [|op ops IH]; intros fuel seen out removed Hok Hf.
  { destruct fuel; [simpl in *; lia|]. simpl. rewrite app_nil_r. do 2 f_equal. lia. }
  apply Forall_cons in Hok as [Hop Hok]. destruct fuel as [|fuel]; [lia|].
  assert (encode_all (op :: ops) = encode_op op ++ encode_all ops) as Heq by done.
  rewrite Heq, length_app in Hf. pose proof (length_encode_op op).
  rewrite Heq. cbn [compact_loop]. rewrite (read_record_encode op _ Hop).
  destruct op as [data|id|id]; cbn [kept length].
  - destruct (compact_keeps live seen data) as [id|]; rewrite IH by (done || lia).
    + f_equal. f_equal; [|cbn [length]; lia]. by rewrite <- app_assoc.
    + f_equal. f_equal. lia.
  - rewrite IH by (done || lia). f_equal. f_equal. lia.
  - rewrite IH by (done || lia). f_equal. f_equal. lia.
Qed.

Lemma compact_keeps_iff live seen data id :
  compact_keeps live seen data = Some id
  <-> insert_id (WInsert data) = Some id /\ id ∈ live /\ (id ∉ seen).
Proof.
  unfold compact_keeps, insert_id. destruct (from_json_unchecked data) as [e|]; [|naive_solver].
  repeat case_bool_decide; naive_solver.
Qed.

(** One insert per live id that the log has one for, and nothing else. *)
Lemma kept_ids live seen ops :
  let ids := omap insert_id (kept live seen ops) in
  NoDup ids /\ length ids = length (kept live seen ops)
  /\ (forall id, id ∈ ids <-> id ∈ live /\ (id ∉ seen) /\ id ∈ omap insert_id ops)
  /\ (forall op, op ∈ kept live seen ops -> op ∈ ops).
Proof.
  revert seen. induction ops as [|op ops IH]; intros seen.
  { simpl. split_and!; [constructor|done|set_solver|done]. }
  destruct op as [data|i|i]; cbn [kept].
  - destruct (compact_keeps live seen data) as [id|] eqn:Hk.
    + apply compact_keeps_iff in Hk as (Hid & Hlive & Hseen).
      destruct (IH ({[id]} ∪ seen)) as (Hnd & Hlen & Hin & Hsub).
      cbn [omap list_omap]. rewrite Hid. cbv zeta. split_and!.
      * constructor; [|done]. rewrite Hin. set_solver.
      * cbn [length]. by rewrite <- Hlen.
      * intros id'. rewrite !elem_of_cons, Hin.
        destruct (decide (id' = id)); set_solver.
      * intros op. rewrite !elem_of_cons. naive_solver.
    + destruct (IH seen) as (Hnd & Hlen & Hin & Hsub). cbv zeta. split_and!; try done.
      * intros id'. rewrite Hin. cbn [omap list_omap].
        destruct (insert_id (WInsert data)) as [id|] eqn:Hid; [|done].
        rewrite elem_of_cons. split; [naive_solver|]. intros (Hl & Hs & [->|?]); [|done].
        destruct (compact_keeps_iff live seen data id) as [_ Hback].
        rewrite Hback in Hk by done. done.
      * intros op Hop. right. by apply Hsub.
  - destruct (IH seen) as (Hnd & Hlen & Hin & Hsub). cbv zeta. split_and!; try done.
    intros op Hop. right. by apply Hsub.
  - destruct (IH seen) as (Hnd & Hlen & Hin & Hsub). cbv zeta. split_and!; try done.
    intros op Hop. right. by apply Hsub.
Qed.

Lemma kept_length live seen ops : length (kept live seen ops) <= length ops.
Proof.
  revert seen. induction ops as [|[data|i|i] ops IH]; intros seen; cbn [kept length]; [done| | |].
  - destruct (compact_keeps live seen data) as [id|]; [|specialize (IH seen); lia].
    specialize (IH ({[id]} ∪ seen)). cbn [length]. lia.
  - specialize (IH seen). lia.
  - specialize (IH seen). lia.
Qed.

Lemma kept_insert live seen ops op : op ∈ kept live seen ops -> is_Some (insert_id op).
Proof.
  revert seen. induction ops as [|[data|i|i] ops IH]; intros seen; cbn [kept];
    [by intros ?%elem_of_nil| |apply IH|apply IH].
  destruct (compact_keeps live seen data) as [id|] eqn:Hk; [|apply IH].
  intros [->|Hop]%elem_of_cons; [|by eapply IH].
  apply compact_keeps_iff in Hk as [-> _]. eauto.
Qed.

Lemma kept_sublist live seen ops : kept live seen ops `sublist_of` ops.
Proof.
  revert seen. induction ops as [|[data|i|i] ops IH]; intros seen; cbn [kept]; [done| | |].
  - destruct (compact_keeps live seen data); [by apply sublist_skip|by apply sublist_cons].
  - by apply sublist_cons.
  - by apply sublist_cons.
Qed.

(** Of the inserts of an id the first is kept. *)
Lemma kept_first live seen pre op id post :
  insert_id op = Some id -> id ∈ live -> (id ∉ seen) -> (id ∉ omap insert_id pre) ->
  op ∈ kept live seen (pre ++ op :: post).
Proof.
  intros Hid Hl. revert seen. induction pre as [|o pre IH]; intros seen Hs Hp.
  - destruct op as [data|i|i]; [|done|done]. cbn [app kept].
    rewrite (proj2 (compact_keeps_iff live seen data id)) by done. left.
  - cbn [omap list_omap] in Hp.
    assert ((id ∉ omap insert_id pre) /\ insert_id o <> Some id) as [Hp' Ho].
    { destruct (insert_id o); [|done]. rewrite elem_of_cons in Hp. split; [tauto|].
      intros [= ->]. tauto. }
    destruct o as [data|i|i]; cbn [app kept]; [|by apply IH..].
    destruct (compact_keeps live seen data) as [i|] eqn:Hk; [|by apply IH].
    apply compact_keeps_iff in Hk as [Hi _]. right. apply IH; [|done].
    rewrite elem_of_union, elem_of_singleton. intros [->|?]; [congruence|done].
Qed.
End CompactSpec.

(** * Properties *)

(** C25: the log round trip: replaying a log into which any list of operations
    was appended calls the closure on exactly these operations, in order, and
    returns their number; and the byte counter that triggers checkpoints is the
    size of the file. *)
Theorem wal_round_trip {S} (f : S -> WalOp -> S) st ops :
  Forall op_ok ops ->
  let w := foldl append open_empty ops in
  wal_open no_faults None None = Ok open_empty
  /\ replay f st w = (foldl f st ops, Ok (Z.of_nat (length ops)))
  /\ pending_bytes w = wrap64 (Z.of_nat (length (default [] (seg_data <$> w_log w)))).
Proof.
  intros Hok. cbv zeta. pose proof (log_holds_append_all _ _ ops log_holds_open) as Hw.
  split_and!; [done|by apply replay_log|].
  pose proof (log_bytes_append_all _ _ ops log_holds_open eq_refl Hok) as Hb.
  destruct Hw as [_ (s & Hs & Hd & _)]. rewrite Hs. cbn [fmap option_fmap option_map default].
  rewrite Hd. exact Hb.
Qed.

Definition sample_ops : list WalOp :=
  [WInsert [7%Z; 8%Z]; WTombstone (replicate 32 1%Z); WDelete (replicate 32 2%Z)].

Lemma sample_ops_ok : Forall op_ok sample_ops.
Proof. repeat constructor; vm_compute; congruence. Qed.

Lemma wal_round_trip_witness :
  Forall op_ok sample_ops
  /\ replay (fun l op => l ++ [op]) [] (foldl append open_empty sample_ops)
     = (foldl (fun l op => l ++ [op]) [] sample_ops, Ok 3%Z).
Proof.
  split; [exact sample_ops_ok|].
  exact (proj1 (proj2 (wal_round_trip (fun l op => l ++ [op]) [] sample_ops sample_ops_ok))).
Defined.

(** C24: durability of group commit: operations appended before a successful
    [group_commit] survive a power loss. Whatever prefix of the log is left on
    disk beyond its synced part, replay applies all of them, then a prefix of
    those appended later, and nothing else: a torn tail is never taken for a
    record. *)
Theorem group_commit_durable {S} (f : S -> WalOp -> S) st committed later n :
  Forall op_ok committed -> Forall op_ok later ->
  let w1 := foldl append open_empty committed in
  let '(w2, _) := group_commit no_faults w1 in
  let w3 := foldl append w2 later in
  forall s, w_log w3 = Some s -> seg_synced s <= n <= length (seg_data s) ->
  exists survivors, survivors `prefix_of` later
  /\ (replay_path f st (Some (mkSeg (take n (seg_data s)) n))).1
     = foldl f st (committed ++ survivors).
Proof.
  intros Hc Hl. cbv zeta. pose proof (log_holds_append_all _ _ committed log_holds_open) as Hw.
  rewrite app_nil_l in Hw. destruct (group_commit_synced _ _ Hw) as (w2 & r & -> & Hw2 & Hsync).
  { apply dirty_append_all. by right. }
  intros s Hs Hn. pose proof (log_holds_append_all _ _ later Hw2) as Hw3.
  pose proof (log_synced_append_all w2 later (proj1 Hw2)) as Hsy.
  destruct Hw3 as [_ (s' & Hs' & Hd & _)]. rewrite Hs in Hs'. injection Hs' as <-.
  unfold log_synced in Hsy at 1. rewrite Hs, Hsync in Hsy.
  exists (whole (n - length (encode_all committed)) later). split; [apply whole_prefix|].
  unfold replay_path. cbn [seg_data]. rewrite Hd.
  destruct (replay_take f (committed ++ later) n st 0 (Datatypes.S (length (take n (encode_all (committed ++ later)))))) as (r' & -> & _).
  - by apply Forall_app.
  - lia.
  - simpl. by rewrite whole_app by lia.
Qed.

Lemma group_commit_durable_witness :
  exists survivors, survivors `prefix_of` [WInsert [9%Z]]
  /\ (replay_path (fun l op => l ++ [op]) []
        (Some (mkSeg (take 75 (encode_all (sample_ops ++ [WInsert [9%Z]]))) 75))).1
     = foldl (fun l op => l ++ [op]) [] (sample_ops ++ survivors).
Proof.
  apply (group_commit_durable (fun l op => l ++ [op]) [] sample_ops [WInsert [9%Z]] 75)
    with (s := mkSeg (encode_all (sample_ops ++ [WInsert [9%Z]])) 73).
  - exact sample_ops_ok.
  - repeat constructor; vm_compute; congruence.
  - vm_compute. reflexivity.
  - vm_compute. lia.
Defined.

(** The flag of the group commit is cleared before the sync, not after a
    successful one: when the sync fails, the next tick finds the log clean,
    reports that there was nothing to do, and the record stays unsynced. *)
Theorem failed_commit_not_retried op :
  let fl := mkFaults false false true false false false in
  let w1 := append open_empty op in
  let '(w2, r2) := group_commit fl w1 in
  let '(w3, r3) := group_commit no_faults w2 in
  r2 = Err IoFailure /\ r3 = Ok false
  /\ w_log w3 = Some (mkSeg (encode_op op) 0) /\ length (encode_op op) > 0.
Proof. simpl. split_and!; [done|done|done|lia]. Qed.

(** The record size limit is enforced by the reader only: [append] writes an
    insert of more than 16 MiB (and less than 4 GiB), and from then on a replay
    stops with an error at this record; everything appended after it is lost. *)
Theorem oversized_record_blocks_replay {S} (f : S -> WalOp -> S) st before data later :
  Forall op_ok before ->
  (MAX_WAL_RECORD_SIZE < Z.of_nat (length data) < 2 ^ 32)%Z ->
  replay f st (foldl append open_empty (before ++ WInsert data :: later))
  = (foldl f st before, Err OversizedRecord).
Proof.
  intros Hok Hlen.
  pose proof (log_holds_append_all _ _ (before ++ WInsert data :: later) log_holds_open)
    as [_ (s & Hs & Hd & _)].
  unfold replay, replay_path. rewrite Hs, Hd, app_nil_l, encode_all_app.
  assert (encode_all (WInsert data :: later)
          = encode_op (WInsert data) ++ encode_all later) as -> by done.
  set (rest := encode_op (WInsert data) ++ encode_all later).
  pose proof (length_encode_all before).
  rewrite (replay_loop_fuel f _ (length before + Datatypes.S (length (encode_all before ++ rest))))
    by (rewrite ?length_app; lia).
  rewrite replay_loop_encode by done. cbn [replay_loop].
  unfold rest. by rewrite (read_record_oversized _ _ Hlen).
Qed.

Lemma oversized_record_blocks_replay_witness :
  let data := replicate (Z.to_nat (MAX_WAL_RECORD_SIZE + 1)) 0%Z in
  replay (fun l op => l ++ [op]) []
    (foldl append open_empty (sample_ops ++ WInsert data :: sample_ops))
  = (foldl (fun l op => l ++ [op]) [] sample_ops, Err OversizedRecord).
Proof.
  intros data. apply oversized_record_blocks_replay; [exact sample_ops_ok|].
  unfold data. rewrite length_replicate, Z2Nat.id; unfold MAX_WAL_RECORD_SIZE; lia.
Defined.

(** C34: compaction of a log whose records are within the size limit, when no file
    operation fails: the new log is durable and readable, and its records are
    records of the old one in their order, namely of each live id that the log has
    an insert for the first such record, and nothing else; the number of records
    dropped is returned. *)
Theorem compact_keeps_live_inserts `{HexCrate, EventCrates} live w ops :
  log_holds w ops -> Forall op_ok ops ->
  exists w' result, compact no_faults live w = (w', Ok (Z.of_nat (length ops - length result)))
  /\ log_holds w' result /\ log_synced w' = length (encode_all result)
  /\ result `sublist_of` ops
  /\ (forall op, op ∈ result -> op ∈ ops /\ is_Some (insert_id op))
  /\ NoDup (omap insert_id result)
  /\ (forall pre op id post, ops = pre ++ op :: post -> insert_id op = Some id ->
        id ∈ live -> (id ∉ omap insert_id pre) -> op ∈ result)
  /\ (forall id, id ∈ omap insert_id result <-> id ∈ live /\ id ∈ omap insert_id ops).
Proof.
  intros [Hh (s & Hs & Hd & Hle)] Hok. destruct (kept_ids live ∅ ops) as (Hnd & Hlen & Hin & Hsub).
  pose proof (kept_length live ∅ ops) as Hkl. unfold compact. rewrite Hs. simpl orb.
  cbn [fail_write no_faults fail_sync fail_rename fail_open]. rewrite Hd, compact_loop_spec by (done || lia).
  rewrite app_nil_l. eexists _, (kept live ∅ ops). split; [do 2 f_equal; lia|]. split_and!.
  - split; [done|]. eexists. split; [done|]. simpl. auto.
  - done.
  - apply kept_sublist.
  - intros op Hop. split; [by apply Hsub|]. by eapply kept_insert.
  - done.
  - intros pre op id post -> Hid Hl Hp. by eapply kept_first.
  - intros id. rewrite Hin. set_solver.
Qed.

Lemma compact_keeps_live_inserts_witness :
  exists w' result, compact no_faults {[key32 1]} (foldl append open_empty
      [WInsert sample_json; WDelete (key32 2); WInsert sample_json])
    = (w', Ok (Z.of_nat (3 - length result))) /\ log_holds w' result.
Proof.
  destruct (compact_keeps_live_inserts {[key32 1]} (foldl append open_empty
      [WInsert sample_json; WDelete (key32 2); WInsert sample_json])
      [WInsert sample_json; WDelete (key32 2); WInsert sample_json]) as (w' & res & Hc & Hl & _).
  - apply (log_holds_append_all _ [] _ log_holds_open).
  - repeat constructor; vm_compute; congruence.
  - exact (ex_intro _ w' (ex_intro _ res (conj Hc Hl))).
Defined.
