(* ===== verification/Store.v ===== *)
(** [src/src/store/mod.rs], in-memory side: [EventStore] over the index and the
    write-ahead log, with insertion, NIP-09 deletion, the payload budget and
    eviction. Persistence (snapshot, checkpoint, load) is in [Recovery.v].

    Readings of the process's memory by the [sysinfo] crate are arguments. The
    iteration order of a [HashSet] is an argument too: [apply_deletion] takes
    the requested ids as a list, and its theorems hold for every order. *)
From S2P Require Import Prelude Collections Event Reference Deletion Tombstones Index IndexInv IndexSpec IndexQuery Wal.
Open Scope memlay_scope.

(** * Data *)

(** [struct StoreConfig]. *)
Record StoreConfig := mkConfig {
  max_bytes : Z;
  persistence_path : option str;
  use_wal : bool;
}.

(** [impl Default for StoreConfig]. *)
Definition default_config : StoreConfig := mkConfig 0 None true.

Definition DEFAULT_AMPLIFICATION_MILLI : Z := 4000.
Definition MIN_AMPLIFICATION_SAMPLE_BYTES : Z := (64 * 1024 * 1024)%Z.

(** [struct EvictionState]. *)
Record EvictionState := mkEviction {
  interval_seconds : Z;
  consecutive_evictions : Z;
}.

(** [enum InsertResult]. *)
Inductive InsertResult :=
| IREphemeral
| IRDuplicate
| IRDeleted
| IRStored (event : Event) (replaced : list Event).

(** [struct EventStore]. *)
Record EventStore := mkStore {
  st_index : EventIndex;
  st_config : StoreConfig;
  st_eviction : EvictionState;
  st_wal : option Wal;
  cached_rss_bytes : Z;
  amplification_milli : Z;
}.

Definition with_index (ix : EventIndex) (st : EventStore) : EventStore :=
  mkStore ix (st_config st) (st_eviction st) (st_wal st) (cached_rss_bytes st)
    (amplification_milli st).
Definition with_eviction (v : EvictionState) (st : EventStore) : EventStore :=
  mkStore (st_index st) (st_config st) v (st_wal st) (cached_rss_bytes st)
    (amplification_milli st).
Definition with_wal (w : option Wal) (st : EventStore) : EventStore :=
  mkStore (st_index st) (st_config st) (st_eviction st) w (cached_rss_bytes st)
    (amplification_milli st).
Definition with_rss (rss : Z) (st : EventStore) : EventStore :=
  mkStore (st_index st) (st_config st) (st_eviction st) (st_wal st) rss
    (amplification_milli st).
Definition with_amplification (a : Z) (st : EventStore) : EventStore :=
  mkStore (st_index st) (st_config st) (st_eviction st) (st_wal st)
    (cached_rss_bytes st) a.

(** [EventStore::new] on a data directory that holds the log segments [log] and
    [old], with a first memory reading [rss]. *)
Definition store_new (fl : Faults) (config : StoreConfig) (log old : option Seg)
    (rss : Z) : EventStore :=
  let wal :=
    if bool_decide (is_Some (persistence_path config)) && use_wal config then
      match wal_open fl log old with
      | Ok wal => Some wal
      | Err _ => None
      end
    else None in
  mkStore index_new config (mkEviction 10 0) wal rss DEFAULT_AMPLIFICATION_MILLI.

(** * The payload budget *)

(** [EventStore::sample_amplification]. The [u64]s are cast to [i64]; both are
    clamped far below [2^63]. Rust's signed division truncates. *)
Definition sample_amplification (st : EventStore) (rss : Z) : EventStore :=
  let payload := memory_bytes (st_index st) in
  if (payload <? MIN_AMPLIFICATION_SAMPLE_BYTES)%Z || (rss =? 0)%Z then st else
  let observed := clamp 1000 16000 (sat_mul64 rss 1000 / payload) in
  let previous := amplification_milli st in
  let smoothed := clamp 1000 16000 (previous + Z.quot (observed - previous) 8) in
  with_amplification smoothed st.

(** One turn of the RSS sampler of [start_eviction_task]. *)
Definition rss_tick (st : EventStore) (rss : Z) : EventStore :=
  sample_amplification (with_rss rss st) rss.

(** [EventStore::payload_budget]; [u64] multiplication wraps. *)
Definition payload_budget (st : EventStore) : Z :=
  let max := max_bytes (st_config st) in
  if (max =? 0)%Z then 0%Z else
  let amp := Z.max (amplification_milli st) 1000 in
  (wrap64 (max * 1000) / amp)%Z.

(** * Eviction *)

Definition EVICT_CHUNK : nat := 100.

(** [slice::chunks]; the list's length bounds the number of chunks. *)
Fixpoint chunks_loop {A} (fuel n : nat) (l : list A) : list (list A) :=
  match fuel with
  | O => []
  | S fuel =>
      match l with
      | [] => []
      | _ => take n l :: chunks_loop fuel n (drop n l)
      end
  end.
Definition chunks {A} (n : nat) (l : list A) : list (list A) :=
  chunks_loop (length l) n l.

Section Operations.
Context `{HexCrate}.

(** Remove every event of a chunk; counts the removals. *)
Fixpoint evict_chunk (ix : EventIndex) (refs : list EventRef) (removed : Z)
    : EventIndex * Z :=
  match refs with
  | [] => (ix, removed)
  | event_ref :: refs =>
      evict_chunk (index_remove ix (er_id event_ref)).1 refs (removed + 1)
  end.

(** The loop over chunks, with the re-check after each. *)
Fixpoint evict_chunks (ix : EventIndex) (cs : list (list EventRef)) (removed : Z)
    (enough : EventIndex -> bool) : EventIndex * Z :=
  match cs with
  | [] => (ix, removed)
  | c :: cs =>
      let '(ix1, removed1) := evict_chunk ix c removed in
      if enough ix1 then (ix1, removed1) else evict_chunks ix1 cs removed1 enough
  end.

(** [EventStore::maybe_evict]. *)
Definition maybe_evict (st : EventStore) : panicky EventStore :=
  let current_mem := memory_bytes (st_index st) in
  let max := max_bytes (st_config st) in
  if (max =? 0)%Z
  then Ret (with_eviction (mkEviction (interval_seconds (st_eviction st)) 0) st) else
  let process_mem := cached_rss_bytes st in
  let budget := payload_budget st in
  let new_interval :=
    if (current_mem >=? wrap64 (budget * 90) / 100)%Z || (process_mem >=? max)%Z then 1%Z
    else if (current_mem >=? wrap64 (budget * 70) / 100)%Z then 2%Z
    else 5%Z in
  let st1 := with_eviction
               (mkEviction new_interval (consecutive_evictions (st_eviction st))) st in
  let target := (wrap64 (budget * 90) / 100)%Z in
  if (current_mem >? target)%Z || (process_mem >? max)%Z then
    let batch_size := if (process_mem >? max)%Z then 5000%Z else 1000%Z in
    let! oldest := get_oldest (st_index st1) batch_size in
    let '(ix, removed) :=
      evict_chunks (st_index st1) (chunks EVICT_CHUNK oldest) 0
        (fun ix => (memory_bytes ix <=? target)%Z && (process_mem <=? max)%Z) in
    let st2 := with_index ix st1 in
    Ret (if (removed >? 0)%Z
         then with_eviction
                (mkEviction new_interval
                   (fetch_add (consecutive_evictions (st_eviction st1)) 1)) st2
         else st2)
  else Ret st1.

(** * Insertion and deletion *)

(** The WAL records written for a stored event. *)
Definition log_insert (w : option Wal) (event : Event) (replaced : option Event)
    : option Wal :=
  match w with
  | None => None
  | Some wal =>
      let wal1 := wal_insert wal event in
      Some (match replaced with
            | Some old => wal_delete wal1 (ev_id old)
            | None => wal1
            end)
  end.

(** [EventStore::insert]. *)
Definition store_insert (st : EventStore) (event : Event) : EventStore * InsertResult :=
  if is_ephemeral event then (st, IREphemeral) else
  let '(ix, outcome) := index_insert (st_index st) event in
  let st1 := with_index ix st in
  match outcome with
  | Duplicate | LostRace => (st1, IRDuplicate)
  | Deleted => (st1, IRDeleted)
  | Inserted replaced =>
      (with_wal (log_insert (st_wal st1) event replaced) st1,
       IRStored event (option_list replaced))
  end.

(** [EventStore::insert_batch]. *)
Fixpoint insert_batch_loop (st : EventStore) (events : list Event) (inserted : Z)
    (replaced : list Event) : EventStore * (Z * list Event) :=
  match events with
  | [] => (st, (inserted, replaced))
  | event :: events =>
      if is_ephemeral event then insert_batch_loop st events inserted replaced else
      let '(ix, outcome) := index_insert (st_index st) event in
      let st1 := with_index ix st in
      match outcome with
      | Inserted old =>
          let st2 := with_wal (log_insert (st_wal st1) event old) st1 in
          insert_batch_loop st2 events (inserted + 1) (replaced ++ option_list old)
      | Duplicate | LostRace | Deleted => insert_batch_loop st1 events inserted replaced
      end
  end.

Definition insert_batch (st : EventStore) (events : list Event)
    : EventStore * (Z * list Event) := insert_batch_loop st events 0 [].

(** [EventStore::record_deletion]. *)
Definition record_deletion (st : EventStore) (id : bytes) : EventStore :=
  with_wal ((fun w => wal_tombstone w id) <$> st_wal st) st.

Definition outcome_default : DeletionOutcome := mkDeletionOutcome [] 0 0.
Definition add_deleted (id : bytes) (o : DeletionOutcome) : DeletionOutcome :=
  mkDeletionOutcome (do_deleted_ids o ++ [id]) (do_skipped_foreign o)
    (do_unknown_coordinates o).
Definition add_foreign (o : DeletionOutcome) : DeletionOutcome :=
  mkDeletionOutcome (do_deleted_ids o) (S (do_skipped_foreign o)) (do_unknown_coordinates o).
Definition add_unknown (o : DeletionOutcome) : DeletionOutcome :=
  mkDeletionOutcome (do_deleted_ids o) (do_skipped_foreign o) (S (do_unknown_coordinates o)).

(** Log the deletion, then delete. *)
Definition delete_recorded (s : EventStore * DeletionOutcome) (id : bytes)
    : EventStore * DeletionOutcome :=
  let '(st, outcome) := s in
  let st1 := record_deletion st id in
  let '(ix, removed) := delete_by_id (st_index st1) id in
  (with_index ix st1,
   if bool_decide (is_Some removed) then add_deleted id outcome else outcome).

(** The body of the loop over [req.ids]. *)
Definition delete_id (author : bytes) (s : EventStore * DeletionOutcome) (id : bytes)
    : EventStore * DeletionOutcome :=
  match index_get (st_index s.1) id with
  | Some existing =>
      if bool_decide (ev_pubkey existing = author) then delete_recorded s id
      else (s.1, add_foreign s.2)
  | None => s
  end.

(** The body of the loop over [req.coordinates]. *)
Definition delete_coordinate (author : bytes) (until : Z)
    (s : EventStore * DeletionOutcome) (coord : Coordinate) : EventStore * DeletionOutcome :=
  if bool_decide (co_pubkey coord <> author) then (s.1, add_foreign s.2) else
  match coordinate_targets (st_index s.1) coord until with
  | [] => (s.1, add_unknown s.2)
  | targets => foldl delete_recorded s targets
  end.

(** [EventStore::apply_deletion]; [ids] lists [req.ids] in iteration order. *)
Definition apply_deletion (st : EventStore) (ids : list bytes)
    (coordinates : list Coordinate) (author : bytes) (until : Z)
    : EventStore * DeletionOutcome :=
  let s1 := foldl (delete_id author) (st, outcome_default) ids in
  foldl (delete_coordinate author until) s1 coordinates.
End Operations.

(** [EventStore::contains], [get], [is_tombstoned], [len], [is_empty]. *)
Definition store_contains (st : EventStore) (id : bytes) : bool :=
  bool_decide (is_Some (index_get (st_index st) id)).
Definition store_len (st : EventStore) : Z := event_count (st_index st).
Definition store_is_empty (st : EventStore) : bool := (store_len st =? 0)%Z.

(** * Lemmas: the payload budget *)

(** Moving an eighth of the way never overshoots, and shrinks the distance while
    it is at least 8. *)
Lemma eighth_step prev obs :
  let next := (prev + Z.quot (obs - prev) 8)%Z in
  (Z.min prev obs <= next <= Z.max prev obs)%Z
  /\ (Z.abs (obs - next) <= Z.max 7 (Z.abs (obs - prev) - 1))%Z.
Proof. cbv zeta. Z.to_euclidean_division_equations. lia. Qed.

(** What the sampler measures. *)
Definition observed_ratio (st : EventStore) (rss : Z) : Z :=
  clamp 1000 16000 (sat_mul64 rss 1000 / memory_bytes (st_index st)).

Lemma sample_amplification_step st rss :
  (1000 <= amplification_milli st <= 16000)%Z ->
  (MIN_AMPLIFICATION_SAMPLE_BYTES <= memory_bytes (st_index st))%Z -> rss <> 0%Z ->
  amplification_milli (sample_amplification st rss)
  = (amplification_milli st + Z.quot (observed_ratio st rss - amplification_milli st) 8)%Z.
Proof.
  intros Ha Hp Hr. unfold sample_amplification.
  destruct (Z.ltb_spec (memory_bytes (st_index st)) MIN_AMPLIFICATION_SAMPLE_BYTES); [lia|].
  destruct (Z.eqb_spec rss 0); [done|]. cbn [orb]. fold (observed_ratio st rss).
  cbn [with_amplification amplification_milli].
  assert (1000 <= observed_ratio st rss <= 16000)%Z by (apply clamp_range; lia).
  destruct (eighth_step (amplification_milli st) (observed_ratio st rss)) as [Hb _].
  apply clamp_id. lia.
Qed.

Lemma sample_amplification_keeps st rss :
  st_index (sample_amplification st rss) = st_index st
  /\ st_config (sample_amplification st rss) = st_config st.
Proof. unfold sample_amplification. by case_match. Qed.

Lemma payload_budget_range st :
  (1000 <= amplification_milli st <= 16000)%Z ->
  (0 < max_bytes (st_config st))%Z -> u64_ok (max_bytes (st_config st) * 1000) ->
  (max_bytes (st_config st) / 16 <= payload_budget st <= max_bytes (st_config st))%Z.
Proof.
  intros Ha Hm Hw. unfold payload_budget.
  destruct (Z.eqb_spec (max_bytes (st_config st)) 0); [lia|]. cbv zeta.
  rewrite (wrap64_small _ Hw), Z.max_l by lia. split.
  - apply Z.div_le_lower_bound; [lia|].
    pose proof (Z.mul_div_le (max_bytes (st_config st)) 16 ltac:(lia)).
    assert (0 <= max_bytes (st_config st) / 16)%Z by (apply Z.div_pos; lia). nia.
  - apply Z.div_le_upper_bound; [lia|]. nia.
Qed.

Lemma rss_tick_range st rss :
  (1000 <= amplification_milli st <= 16000)%Z ->
  (1000 <= amplification_milli (rss_tick st rss) <= 16000)%Z.
Proof. unfold rss_tick, sample_amplification. case_match; [done|]. intros _. apply clamp_range. lia. Qed.

(** * Properties: the payload budget *)

(** The amplification estimate stays within [1000, 16000] thousandths
    whatever is sampled, and the payload budget derived from it never exceeds
    [max_bytes] and never falls below a sixteenth of it (for any [max_bytes] whose
    product with 1000 fits in 64 bits). *)
Theorem budget_sane st rss :
  (1000 <= amplification_milli st <= 16000)%Z ->
  (0 < max_bytes (st_config st))%Z -> u64_ok (max_bytes (st_config st) * 1000) ->
  let st' := rss_tick st rss in
  (1000 <= amplification_milli st' <= 16000)%Z
  /\ (max_bytes (st_config st) / 16 <= payload_budget st' <= max_bytes (st_config st))%Z.
Proof.
  intros Ha Hm Hw st'. split; [by apply rss_tick_range|].
  assert (st_config st' = st_config st) as Hc
    by exact (proj2 (sample_amplification_keeps (with_rss rss st) rss)).
  rewrite <- Hc in *. apply payload_budget_range; [by apply rss_tick_range|done..].
Qed.

Definition small_store : EventStore :=
  mkStore index_new (mkConfig 4096 None true) (mkEviction 10 0) None 0 4000.

Lemma budget_sane_witness :
  let st' := rss_tick small_store 123456 in
  (1000 <= amplification_milli st' <= 16000)%Z
  /\ (4096 / 16 <= payload_budget st' <= 4096)%Z.
Proof. apply (budget_sane small_store 123456); vm_compute; intuition congruence. Defined.

Fixpoint sample_many (n : nat) (st : EventStore) (rss : Z) : EventStore :=
  match n with O => st | S n => sample_many n (sample_amplification st rss) rss end.

(** With a steady RSS and payload the estimate converges: every sample brings
    it closer to the observed ratio (it never overshoots), and after [n] samples
    it is within [max 7 (d - n)] thousandths of it, [d] being the initial
    distance. *)
Theorem amplification_converges n st rss :
  (1000 <= amplification_milli st <= 16000)%Z ->
  (MIN_AMPLIFICATION_SAMPLE_BYTES <= memory_bytes (st_index st))%Z -> rss <> 0%Z ->
  (Z.abs (observed_ratio st rss - amplification_milli (sample_many n st rss))
   <= Z.max 7 (Z.abs (observed_ratio st rss - amplification_milli st) - Z.of_nat n))%Z.
Proof.
  revert st. induction n as [|n IH]; intros st Ha Hp Hr; [simpl; lia|]. cbn [sample_many].
  destruct (sample_amplification_keeps st rss) as [Hix _].
  pose proof (sample_amplification_step st rss Ha Hp Hr) as Hstep.
  destruct (eighth_step (amplification_milli st) (observed_ratio st rss)) as [Hb Hd].
  assert (1000 <= observed_ratio st rss <= 16000)%Z by (apply clamp_range; lia).
  specialize (IH (sample_amplification st rss)). rewrite Hix in IH.
  assert (observed_ratio (sample_amplification st rss) rss = observed_ratio st rss) as Ho.
  { unfold observed_ratio. by rewrite Hix. }
  rewrite Ho in IH. rewrite Hstep in *. specialize (IH ltac:(lia) Hp Hr). lia.
Qed.

Definition large_store : EventStore :=
  mkStore (with_counters (128 * 1024 * 1024) 1000 index_new) (mkConfig 4096 None true)
    (mkEviction 10 0) None 0 4000.

Lemma amplification_converges_witness :
  (Z.abs (observed_ratio large_store 268435456
          - amplification_milli (sample_many 40 large_store 268435456))
   <= Z.max 7 (Z.abs (observed_ratio large_store 268435456 - 4000) - 40))%Z.
Proof.
  apply (amplification_converges 40 large_store 268435456); vm_compute; intuition congruence.
Defined.

(** * Lemmas: eviction *)

Lemma concat_chunks_loop {A} fuel n (l : list A) :
  0 < n -> length l <= fuel -> concat (chunks_loop fuel n l) = l.
Proof.
  intros Hn. revert l. induction fuel as [|fuel IH]; intros l Hl; simpl.
  { by destruct l; [|simpl in *; lia]. }
  destruct l as [|x l]; [done|]. cbn [concat]. rewrite IH; [by rewrite take_drop|].
  rewrite length_drop. simpl in *. lia.
Qed.

Lemma concat_chunks {A} n (l : list A) : 0 < n -> concat (chunks n l) = l.
Proof. intros Hn. by apply concat_chunks_loop. Qed.

Section Eviction.
Context `{HexCrate} (core_of : bytes -> Core).
Abbreviation wf := (wf_index core_of).

Definition evict_all (ix : EventIndex) (refs : list EventRef) : EventIndex :=
  foldl (fun ix r => (index_remove ix (er_id r)).1) ix refs.

Lemma evict_chunk_eq ix refs removed :
  evict_chunk ix refs removed = (evict_all ix refs, removed + Z.of_nat (length refs))%Z.
Proof.
  revert ix removed. induction refs as [|r refs IH]; intros ix removed; simpl.
  { by rewrite Z.add_0_r. }
  rewrite IH. f_equal. lia.
Qed.

Lemma evict_all_app ix l1 l2 : evict_all ix (l1 ++ l2) = evict_all (evict_all ix l1) l2.
Proof. apply foldl_app. Qed.

(** The loop removes a prefix of what it is given, and stops short of all of it
    only when there is enough memory. *)
Lemma evict_chunks_spec ix cs removed enough :
  exists l rest, concat cs = l ++ rest
  /\ evict_chunks ix cs removed enough = (evict_all ix l, removed + Z.of_nat (length l))%Z
  /\ (enough (evict_all ix l) = true \/ rest = []).
Proof.
  revert ix removed. induction cs as [|c cs IH]; intros ix removed; simpl.
  { exists [], []. split_and!; [done|by rewrite Z.add_0_r|by right]. }
  rewrite evict_chunk_eq. destruct (enough (evict_all ix c)) eqn:He.
  { exists c, (concat cs). split_and!; [done|done|by left]. }
  destruct (IH (evict_all ix c) (removed + Z.of_nat (length c))%Z) as (l & rest & Hc & Hr & Hor).
  exists (c ++ l), rest. rewrite evict_all_app, Hr, length_app.
  split_and!; [by rewrite Hc, app_assoc|f_equal; lia|done].
Qed.

Lemma wf_evict_all ix refs : wf ix -> wf (evict_all ix refs).
Proof.
  intros Hwf. unfold evict_all. apply (foldl_ind wf); [done|].
  intros ix' r _ Hwf'. by apply wf_internal_remove.
Qed.

Lemma evict_all_by_id ix refs id :
  by_id (evict_all ix refs) !! id
  = if decide (id ∈ er_id <$> refs) then None else by_id ix !! id.
Proof using Type.
  revert ix. induction refs as [|r refs IH]; intros ix.
  { by rewrite decide_False by apply not_elem_of_nil. }
  change (evict_all ix (r :: refs)) with (evict_all (index_remove ix (er_id r)).1 refs).
  rewrite IH. unfold index_remove. rewrite internal_remove_by_id.
  destruct (decide (id ∈ er_id <$> refs)) as [Hi|Hi],
    (decide (id ∈ er_id <$> r :: refs)) as [Hj|Hj];
    rewrite fmap_cons, elem_of_cons in Hj; [done|by destruct Hj; right| |].
  - destruct Hj as [->|?]; [|done]. apply lookup_delete_eq.
  - apply lookup_delete_ne. intros Heq. apply Hj. by left.
Qed.

Lemma evict_all_tombstones ix refs : tombstones (evict_all ix refs) = tombstones ix.
Proof.
  unfold evict_all. apply (foldl_ind (fun ix' => tombstones ix' = tombstones ix)); [done|].
  intros ix' r _ <-. apply internal_remove_tombstones.
Qed.

Lemma evict_all_len ix refs :
  NoDup (er_id <$> refs) -> (forall r, r ∈ refs -> is_Some (by_id ix !! er_id r)) ->
  index_len (evict_all ix refs) = index_len ix - length refs.
Proof.
  revert ix. induction refs as [|r refs IH]; intros ix Hnd Hin; [simpl; lia|].
  change (evict_all ix (r :: refs)) with (evict_all (index_remove ix (er_id r)).1 refs).
  rewrite fmap_cons in Hnd. apply NoDup_cons in Hnd as [Hr Hnd].
  rewrite IH; [|done|].
  - unfold index_len, index_remove. rewrite internal_remove_by_id.
    destruct (Hin r ltac:(left)) as [e He]. rewrite (map_size_delete_Some _ _ (ex_intro _ e He)).
    simpl. lia.
  - intros x Hx. unfold index_remove. rewrite internal_remove_by_id, lookup_delete_ne.
    + apply Hin. by right.
    + intros Heq. apply Hr. rewrite Heq. by apply list_elem_of_fmap_2.
Qed.
End Eviction.

(** What an eviction turn aims for. *)
Definition evict_target (st : EventStore) : Z := (wrap64 (payload_budget st * 90) / 100)%Z.
Definition over_limit (st : EventStore) : bool :=
  (memory_bytes (st_index st) >? evict_target st)%Z
  || (cached_rss_bytes st >? max_bytes (st_config st))%Z.
Definition evict_batch (st : EventStore) : nat :=
  Z.to_nat (if (cached_rss_bytes st >? max_bytes (st_config st))%Z then 5000 else 1000).

(** Removing the oldest events of a well-formed index, or a prefix of them. *)
Lemma evict_oldest_prefix `{HexCrate} core_of ix count l rest :
  wf_index core_of ix -> (0 < count)%Z -> get_oldest ix count = Ret (l ++ rest) ->
  let ix' := evict_all ix l in
  index_len ix' = index_len ix - length l
  /\ (forall id e, by_id ix' !! id = Some e -> by_id ix !! id = Some e)
  /\ (forall i e j e', by_id ix !! i = Some e -> by_id ix' !! i = None ->
        by_id ix' !! j = Some e' -> (ev_created_at e <= ev_created_at e')%Z).
Proof.
  intros Hwf Hc Hget. destruct (shards_enumerate core_of ix Hwf) as (_ & Hok & Hnd & Hdom).
  destruct (get_oldest_spec core_of ix count Hwf Hc) as (l0 & out & Hget' & Hp & Hs & Hle & _).
  rewrite Hget in Hget'. injection Hget' as <-. rewrite Hp in Hok, Hnd.
  rewrite !fmap_app in Hnd. rewrite Forall_forall in Hok.
  assert (forall r, r ∈ l -> is_Some (by_id ix !! er_id r)) as Hin.
  { intros r Hr. apply elem_of_dom, Hdom. rewrite Hp. apply list_elem_of_fmap_2.
    rewrite !elem_of_app. auto. }
  cbv zeta. split_and!.
  - apply evict_all_len; [|done]. apply NoDup_app in Hnd as [Hnd _].
    by apply NoDup_app in Hnd as [Hnd _].
  - intros id e. rewrite evict_all_by_id. by case_decide.
  - intros i e j e' Hi Hgone Hj. rewrite evict_all_by_id in Hgone, Hj.
    destruct (decide (i ∈ er_id <$> l)) as [Hil|]; [|congruence]. clear Hgone.
    destruct (decide (j ∈ er_id <$> l)) as [|Hjl]; [done|].
    apply list_elem_of_fmap in Hil as (x & -> & Hx).
    assert (j ∈ er_id <$> concat (by_oldest ix)) as (y & -> & Hy)%list_elem_of_fmap.
    { apply Hdom, elem_of_dom. eauto. }
    rewrite <- (ref_time core_of ix x e), <- (ref_time core_of ix y e'); try done;
      try (apply Hok; rewrite <- Hp; done);
      try (apply Hok; rewrite !elem_of_app; auto).
    rewrite Hp, !elem_of_app in Hy. destruct Hy as [[Hy|Hy]|Hy].
    + destruct Hjl. by apply list_elem_of_fmap_2.
    + apply StronglySorted_app in Hs as (Hall & _). by apply Hall.
    + apply Hle; [|done]. rewrite elem_of_app. auto.
Qed.

(** [maybe_evict], on every branch. *)
Lemma maybe_evict_spec `{HexCrate} core_of st :
  wf_index core_of (st_index st) ->
  exists st', maybe_evict st = Ret st'
  /\ wf_index core_of (st_index st')
  /\ st_wal st' = st_wal st /\ st_config st' = st_config st
  /\ tombstones (st_index st') = tombstones (st_index st)
  /\ (forall id e, by_id (st_index st') !! id = Some e -> by_id (st_index st) !! id = Some e)
  /\ (forall i e j e', by_id (st_index st) !! i = Some e -> by_id (st_index st') !! i = None ->
        by_id (st_index st') !! j = Some e' -> (ev_created_at e <= ev_created_at e')%Z)
  /\ (max_bytes (st_config st) = 0%Z \/ over_limit st = false -> st_index st' = st_index st)
  /\ (max_bytes (st_config st) <> 0%Z -> over_limit st = true ->
        (memory_bytes (st_index st') <= evict_target st
         /\ cached_rss_bytes st <= max_bytes (st_config st))%Z
        \/ index_len (st_index st')
           = index_len (st_index st) - Nat.min (evict_batch st) (index_len (st_index st))).
Proof.
  intros Hwf. unfold maybe_evict. destruct (Z.eqb_spec (max_bytes (st_config st)) 0) as [Hz|Hz].
  { eexists. split; [done|]. simpl. split_and!; try done. intros. congruence. }
  fold (evict_target st). fold (over_limit st). cbv zeta. destruct (over_limit st) eqn:Hover.
  2: { eexists. split; [done|]. simpl. split_and!; try done. intros. congruence. }
  cbn [st_index with_eviction]. set (batch := if (_ >? _)%Z then 5000%Z else 1000%Z).
  assert (0 < batch)%Z as Hb by (unfold batch; by case_match).
  destruct (get_oldest_spec core_of (st_index st) batch Hwf Hb)
    as (oldest & out & Hget & _ & _ & _ & Hlen).
  rewrite Hget. cbn [panicky_bind].
  destruct (evict_chunks_spec (st_index st) (chunks EVICT_CHUNK oldest) 0
    (fun ix => (memory_bytes ix <=? evict_target st)%Z
       && (cached_rss_bytes st <=? max_bytes (st_config st))%Z)) as (l & rest & Hcat & -> & Hor).
  rewrite concat_chunks in Hcat by (unfold EVICT_CHUNK; lia). rewrite Hcat in Hget.
  destruct (evict_oldest_prefix core_of _ _ _ _ Hwf Hb Hget) as (Hsize & Hsub & Hord).
  eexists. split; [done|].
  assert (enough_or_batch : (memory_bytes (evict_all (st_index st) l) <= evict_target st
       /\ cached_rss_bytes st <= max_bytes (st_config st))%Z
     \/ index_len (evict_all (st_index st) l)
        = index_len (st_index st) - Nat.min (evict_batch st) (index_len (st_index st))).
  { destruct Hor as [Hen| ->]; [left; by bool_to_prop|right].
    rewrite app_nil_r in Hcat. subst l. rewrite Hsize. unfold evict_batch. fold batch. lia. }
  pose proof (wf_evict_all core_of _ l Hwf). pose proof (evict_all_tombstones (st_index st) l).
  case_match; cbn [st_index st_wal st_config with_index with_eviction];
    (split_and!; [done|done|done|done|exact Hsub|exact Hord|intros [?|?]; congruence|done]).
Qed.

(** * Properties: eviction *)

(** C28: eviction: on a well-formed index [maybe_evict] never panics; it leaves
    the log, the tombstones and the invariant alone and only ever removes events,
    each no newer than every event it keeps. With [max_bytes = 0] or under the
    limits it removes nothing; over them it either reaches the target or removes
    a full batch (1000 events, 5000 when the process is over its RSS limit, or
    all there are). *)
Theorem maybe_evict_oldest_first `{HexCrate} core_of st :
  wf_index core_of (st_index st) ->
  exists st', maybe_evict st = Ret st'
  /\ wf_index core_of (st_index st')
  /\ st_wal st' = st_wal st /\ st_config st' = st_config st
  /\ tombstones (st_index st') = tombstones (st_index st)
  /\ (forall id e, by_id (st_index st') !! id = Some e -> by_id (st_index st) !! id = Some e)
  /\ (forall i e j e', by_id (st_index st) !! i = Some e -> by_id (st_index st') !! i = None ->
        by_id (st_index st') !! j = Some e' -> (ev_created_at e <= ev_created_at e')%Z)
  /\ (max_bytes (st_config st) = 0%Z \/ over_limit st = false -> st_index st' = st_index st)
  /\ (max_bytes (st_config st) <> 0%Z -> over_limit st = true ->
        (memory_bytes (st_index st') <= evict_target st
         /\ cached_rss_bytes st <= max_bytes (st_config st))%Z
        \/ index_len (st_index st')
           = index_len (st_index st) - Nat.min (evict_batch st) (index_len (st_index st))).
Proof. apply maybe_evict_spec. Qed.

Lemma maybe_evict_oldest_first_witness :
  exists st', maybe_evict (with_index three_ix small_store) = Ret st'
  /\ wf_index (core_table three_notes) (st_index st').
Proof.
  destruct (maybe_evict_oldest_first _ (with_index three_ix small_store) three_ix_wf)
    as (st' & He & Hwf & _).
  exact (ex_intro _ st' (conj He Hwf)).
Defined.

(** * Lemmas: deletion *)

Section DeletionLemmas.
Context `{HexCrate} (core_of : bytes -> Core).
Abbreviation wf := (wf_index core_of).
Implicit Types s : EventStore * DeletionOutcome.

(** What holds between the index before a deletion request and the state during
    it: only events of the author leave, and those are the reported ones. *)
(** The stored version of a replaceable event that a coordinate names, not newer
    than the request. *)
Definition named_version (until : Z) (coord : Coordinate) (e : Event) : Prop :=
  is_replaceable e = true /\ replacement_key e = coordinate_key coord
  /\ (ev_created_at e <= until)%Z.

(** What a request by [author] deletes: the author's own events that it names. *)
Definition due (ids : list bytes) (coords : list Coordinate) (author : bytes) (until : Z)
    (e : Event) : Prop :=
  ev_pubkey e = author
  /\ (ev_id e ∈ ids
      \/ exists coord, coord ∈ coords /\ co_pubkey coord = author /\ named_version until coord e).

Record deletion_inv (may_go : Event -> Prop) (ix0 : EventIndex) (s : EventStore * DeletionOutcome)
    : Prop := {
  di_wf : wf (st_index s.1);
  di_sub : forall id e, by_id (st_index s.1) !! id = Some e -> by_id ix0 !! id = Some e;
  di_gone : forall id, by_id ix0 !! id <> None -> by_id (st_index s.1) !! id = None ->
    id ∈ do_deleted_ids s.2;
  di_mine : forall id, id ∈ do_deleted_ids s.2 ->
    by_id (st_index s.1) !! id = None
    /\ exists e, by_id ix0 !! id = Some e /\ may_go e;
}.

Lemma delete_by_id_by_id ix id : by_id (delete_by_id ix id).1 = delete id (by_id ix).
Proof.
  unfold delete_by_id. pose proof (internal_remove_by_id ix id false).
  by destruct (internal_remove ix id false).
Qed.

Lemma delete_by_id_result ix id : (delete_by_id ix id).2 = by_id ix !! id.
Proof.
  unfold delete_by_id. pose proof (internal_remove_result ix id false).
  by destruct (internal_remove ix id false).
Qed.

Lemma delete_recorded_eq s id :
  delete_recorded s id
  = (with_index (delete_by_id (st_index s.1) id).1 (record_deletion s.1 id),
     match by_id (st_index s.1) !! id with
     | Some _ => add_deleted id s.2 | None => s.2 end).
Proof.
  destruct s as [st o]. unfold delete_recorded. cbn [st_index record_deletion with_wal fst snd].
  rewrite <- (delete_by_id_result (st_index st) id).
  destruct (delete_by_id (st_index st) id) as [ix [e|]]; done.
Qed.

Lemma deletion_inv_start may_go st :
  wf (st_index st) -> deletion_inv may_go (st_index st) (st, outcome_default).
Proof. intros Hwf. split; simpl; [done|done|done|]. intros id ?%elem_of_nil. done. Qed.

Lemma deletion_inv_delete may_go ix0 s id :
  (forall e, by_id (st_index s.1) !! id = Some e -> may_go e) ->
  deletion_inv may_go ix0 s -> deletion_inv may_go ix0 (delete_recorded s id).
Proof.
  intros Hmine [Hwf Hsub Hgone Hdel]. rewrite delete_recorded_eq.
  split; cbn [fst snd st_index with_index].
  - by apply wf_delete_by_id.
  - intros i e. rewrite delete_by_id_by_id. intros [_ ?]%lookup_delete_Some. by apply Hsub.
  - intros i Hi. rewrite delete_by_id_by_id. destruct (decide (i = id)) as [->|Hne].
    + intros _. destruct (by_id (st_index s.1) !! id) eqn:E; [|by apply Hgone].
      cbn. apply elem_of_app. right. apply list_elem_of_singleton. done.
    + rewrite lookup_delete_ne by done. intros Hn. specialize (Hgone i Hi Hn).
      destruct (by_id (st_index s.1) !! id); [|done]. cbn. apply elem_of_app. by left.
  - intros i. rewrite delete_by_id_by_id.
    destruct (by_id (st_index s.1) !! id) as [e|] eqn:E; cbn.
    + intros [Hi| ->%list_elem_of_singleton]%elem_of_app.
      * destruct (Hdel i Hi) as [Hn Hex]. split; [|done]. by rewrite lookup_delete_None; right.
      * rewrite lookup_delete_eq. split; [done|]. exists e. split; [by apply Hsub|by apply Hmine].
    + intros Hi. destruct (Hdel i Hi) as [Hn Hex]. split; [|done].
      by rewrite lookup_delete_None; right.
Qed.

Lemma deletion_inv_outcome may_go ix0 s o :
  do_deleted_ids o = do_deleted_ids s.2 ->
  deletion_inv may_go ix0 s -> deletion_inv may_go ix0 (s.1, o).
Proof. intros Ho [Hwf Hsub Hgone Hdel]. split; simpl; rewrite ?Ho; done. Qed.

Lemma deletion_inv_id (may_go : Event -> Prop) author ix0 s id :
  (forall e, ev_pubkey e = author -> ev_id e = id -> may_go e) ->
  deletion_inv may_go ix0 s -> deletion_inv may_go ix0 (delete_id author s id).
Proof.
  intros Hgo Hi. unfold delete_id, index_get.
  destruct (by_id (st_index s.1) !! id) as [e|] eqn:E; [|done].
  case_bool_decide; [|by apply deletion_inv_outcome].
  apply deletion_inv_delete; [|done]. intros e'. rewrite E. intros [= <-].
  apply Hgo; [done|]. by apply (wf_by_id _ _ (di_wf _ _ _ Hi)).
Qed.

(** The stored version of a coordinate is one that the coordinate names. *)
Lemma coordinate_target_named ix coord until id e :
  wf ix -> id ∈ coordinate_targets ix coord until -> by_id ix !! id = Some e ->
  ev_pubkey e = co_pubkey coord /\ named_version until coord e.
Proof.
  intros Hwf. unfold coordinate_targets. rewrite elem_of_List_filter. intros [Hid Ht] He.
  rewrite He in Ht. apply Z.leb_le in Ht.
  destruct (by_replaceable ix !! coordinate_key coord) as [i|] eqn:Hk;
    [|by apply elem_of_nil in Hid].
  apply list_elem_of_singleton in Hid as ->.
  destruct (wf_by_id _ _ Hwf _ _ He) as [Hei Hg].
  pose proof (proj2 (wf_replaceable _ _ Hwf) _ _ _ Hk Hei Hg) as Hkey.
  split.
  - unfold coordinate_key, replacement_key, replacement_key_of in Hkey.
    by repeat case_match; simplify_eq.
  - split_and!; [|done|done]. destruct (is_replaceable e) eqn:Hr; [done|].
    apply replacement_key_none in Hr. rewrite Hr in Hkey. unfold coordinate_key in Hkey. by case_match.
Qed.

Lemma coordinate_target_found ix coord until id e :
  wf ix -> by_id ix !! id = Some e -> named_version until coord e ->
  coordinate_targets ix coord until = [id].
Proof.
  intros Hwf He (Hr & Hk & Ht). unfold coordinate_targets.
  rewrite <- Hk, (proj1 (wf_replaceable _ _ Hwf) _ _ He Hr). cbn [List.filter].
  by rewrite He, (proj2 (Z.leb_le _ _)).
Qed.

Lemma coordinate_targets_unique ix coord until :
  coordinate_targets ix coord until = [] \/ exists id, coordinate_targets ix coord until = [id].
Proof.
  unfold coordinate_targets. destruct (by_replaceable ix !! coordinate_key coord) as [i|];
    [|by left]. simpl. case_match; [right; by eexists|by left].
Qed.

Lemma deletion_inv_coordinate (may_go : Event -> Prop) author until ix0 s coord :
  (forall e, co_pubkey coord = author -> ev_pubkey e = author -> named_version until coord e -> may_go e) ->
  deletion_inv may_go ix0 s -> deletion_inv may_go ix0 (delete_coordinate author until s coord).
Proof.
  intros Hgo Hi. unfold delete_coordinate. case_bool_decide as Ha; [by apply deletion_inv_outcome|].
  assert (co_pubkey coord = author) as Ha' by by destruct (decide (co_pubkey coord = author)).
  destruct (coordinate_targets_unique (st_index s.1) coord until) as [Ht|[id Ht]].
  { rewrite Ht. by apply deletion_inv_outcome. }
  rewrite Ht. simpl foldl. apply deletion_inv_delete; [|done]. intros e He.
  destruct (coordinate_target_named (st_index s.1) coord until id e) as [Hp Hn];
    [apply Hi|rewrite Ht; left|done|]. apply Hgo; [done|congruence|done].
Qed.

Lemma deletion_inv_apply st ids coords author until :
  wf (st_index st) ->
  deletion_inv (due ids coords author until) (st_index st) (apply_deletion st ids coords author until).
Proof.
  intros Hwf. unfold apply_deletion. set (P := deletion_inv _ (st_index st)).
  apply (foldl_ind P); [apply (foldl_ind P); [by apply deletion_inv_start|]|].
  - intros s id Hid. apply deletion_inv_id. intros e Ha <-. split; [done|by left].
  - intros s coord Hc. apply deletion_inv_coordinate. intros e Hco Ha Hn. split; [done|right].
    by exists coord.
Qed.

(** Once gone, an event stays gone for the rest of the request. *)
Lemma delete_recorded_gone s id i :
  by_id (st_index s.1) !! i = None -> by_id (st_index (delete_recorded s id).1) !! i = None.
Proof.
  rewrite delete_recorded_eq. cbn [fst st_index with_index].
  rewrite delete_by_id_by_id, lookup_delete_None. by right.
Qed.

Lemma delete_id_gone author s id i :
  by_id (st_index s.1) !! i = None -> by_id (st_index (delete_id author s id).1) !! i = None.
Proof.
  intros Hi. unfold delete_id. case_match; [|done]. case_match; [|done].
  by apply delete_recorded_gone.
Qed.

Lemma delete_coordinate_gone author until s coord i :
  by_id (st_index s.1) !! i = None ->
  by_id (st_index (delete_coordinate author until s coord).1) !! i = None.
Proof.
  intros Hi. unfold delete_coordinate. case_match; [done|]. case_match; [done|].
  apply (foldl_ind (fun s => by_id (st_index s.1) !! i = None)); [done|].
  intros s' id _. apply delete_recorded_gone.
Qed.

(** Each requested id of the author is deleted when its turn comes. *)
Lemma delete_ids_complete (may_go : Event -> Prop) author ix0 ids s id e :
  (forall x, ev_pubkey x = author -> ev_id x ∈ ids -> may_go x) ->
  deletion_inv may_go ix0 s -> id ∈ ids -> by_id ix0 !! id = Some e -> ev_pubkey e = author ->
  by_id (st_index (foldl (delete_id author) s ids).1) !! id = None.
Proof.
  revert s. induction ids as [|i ids IH]; intros s Hgo Hinv Hid He Ha; [by apply elem_of_nil in Hid|].
  cbn [foldl]. apply elem_of_cons in Hid as [<-|Hid].
  - apply (foldl_ind (fun s => by_id (st_index s.1) !! id = None)).
    + unfold delete_id, index_get. destruct (by_id (st_index s.1) !! id) as [e'|] eqn:E; [|done].
      rewrite (di_sub _ _ _ Hinv _ _ E) in He. injection He as ->.
      rewrite bool_decide_true by done. rewrite delete_recorded_eq.
      cbn [fst st_index with_index]. by rewrite delete_by_id_by_id, lookup_delete_eq.
    + intros s' j _. apply delete_id_gone.
  - apply IH; [|apply deletion_inv_id; [|done]|done|done|done].
    + intros x Hx Hi. apply Hgo; [done|by right].
    + intros x Hx <-. apply Hgo; [done|left].
Qed.

(** So is each version that a coordinate of the author names. *)
Lemma delete_coordinates_complete (may_go : Event -> Prop) author until ix0 coords s id e coord :
  (forall c x, c ∈ coords -> co_pubkey c = author -> ev_pubkey x = author ->
     named_version until c x -> may_go x) ->
  deletion_inv may_go ix0 s -> by_id ix0 !! id = Some e -> ev_pubkey e = author ->
  coord ∈ coords -> co_pubkey coord = author -> named_version until coord e ->
  by_id (st_index (foldl (delete_coordinate author until) s coords).1) !! id = None.
Proof.
  intros Hgo Hinv He Ha. revert s Hgo Hinv. induction coords as [|c coords IH];
    intros s Hgo Hinv Hc Hco Hn; [by apply elem_of_nil in Hc|].
  cbn [foldl]. apply elem_of_cons in Hc as [<-|Hc].
  - apply (foldl_ind (fun s => by_id (st_index s.1) !! id = None)).
    + unfold delete_coordinate. rewrite bool_decide_false by (intros ?; done).
      destruct (by_id (st_index s.1) !! id) as [e'|] eqn:E.
      * rewrite (di_sub _ _ _ Hinv _ _ E) in He. injection He as ->.
        rewrite (coordinate_target_found _ _ _ _ _ (di_wf _ _ _ Hinv) E Hn). cbn [foldl].
        rewrite delete_recorded_eq. cbn [fst st_index with_index].
        by rewrite delete_by_id_by_id, lookup_delete_eq.
      * case_match; [done|].
        apply (foldl_ind (fun s => by_id (st_index s.1) !! id = None)); [done|].
        intros s' i _. apply delete_recorded_gone.
    + intros s' c _. apply delete_coordinate_gone.
  - apply IH; [|apply deletion_inv_coordinate; [|done]|done|done|done].
    + intros c' x Hc'. apply Hgo. by right.
    + intros x. apply Hgo. left.
Qed.

(** A stored event is gone after the request exactly when it was due. *)
Lemma apply_deletion_exact st ids coords author until id e :
  wf (st_index st) -> by_id (st_index st) !! id = Some e ->
  by_id (st_index (apply_deletion st ids coords author until).1) !! id = None
  <-> due ids coords author until e.
Proof.
  intros Hwf He. pose proof (deletion_inv_apply st ids coords author until Hwf) as Hinv. split.
  - intros Hn. destruct (di_mine _ _ _ Hinv id) as (_ & e' & He' & Hd); [|congruence].
    apply (di_gone _ _ _ Hinv); congruence.
  - intros [Ha Hd]. unfold apply_deletion. set (may_go := due ids coords author until).
    assert (deletion_inv may_go (st_index st) (foldl (delete_id author) (st, outcome_default) ids)) as H1.
    { apply (foldl_ind (deletion_inv may_go (st_index st))); [by apply deletion_inv_start|].
      intros s i Hi. apply deletion_inv_id. intros x Hx <-. split; [done|by left]. }
    destruct Hd as [Hid|(coord & Hc & Hco & Hn)].
    + apply (foldl_ind (fun s => by_id (st_index s.1) !! id = None)).
      * eapply (delete_ids_complete may_go); [|by apply deletion_inv_start| |done|done].
        -- intros x Hx Hi. split; [done|by left].
        -- by rewrite <- (proj1 (wf_by_id _ _ Hwf _ _ He)).
      * intros s c _. apply delete_coordinate_gone.
    + eapply (delete_coordinates_complete may_go); [|exact H1|done..].
      intros c x Hc' Hco' Hx Hn'. split; [done|right]. by exists c.
Qed.
End DeletionLemmas.

(** * Properties: deletion *)

(** Deletion requests: whatever order the ids are visited in, after
    [apply_deletion] the index is well formed, no event appears, every event of
    another author is still there, the reported ids are exactly the stored events
    that left (all of them by [author]), and every requested id that named a
    stored event of [author] is gone. *)
Theorem apply_deletion_author_only `{HexCrate} core_of st ids coords author until :
  wf_index core_of (st_index st) ->
  let '(st', outcome) := apply_deletion st ids coords author until in
  wf_index core_of (st_index st')
  /\ (forall id e, by_id (st_index st') !! id = Some e -> by_id (st_index st) !! id = Some e)
  /\ (forall id e, by_id (st_index st) !! id = Some e -> ev_pubkey e <> author ->
        by_id (st_index st') !! id = Some e)
  /\ (forall id, id ∈ do_deleted_ids outcome <->
        by_id (st_index st) !! id <> None /\ by_id (st_index st') !! id = None)
  /\ (forall id e, id ∈ ids -> by_id (st_index st) !! id = Some e -> ev_pubkey e = author ->
        id ∈ do_deleted_ids outcome).
Proof.
  intros Hwf. pose proof (deletion_inv_apply core_of st ids coords author until Hwf) as Hi.
  pose proof (fun id e => apply_deletion_exact core_of st ids coords author until id e Hwf) as Hx.
  destruct (apply_deletion st ids coords author until) as [st' o].
  destruct Hi as [Hwf' Hsub Hgone Hmine]. cbn [fst snd] in *. split_and!; [done|done| | |].
  - intros id e He Ha. destruct (by_id (st_index st') !! id) as [e'|] eqn:E.
    + by rewrite <- (Hsub _ _ E).
    + by apply (Hx id e He) in E as [? _].
  - intros id. split; [|intros [? ?]; by apply Hgone].
    intros Hid. destruct (Hmine id Hid) as (? & e & ? & _). split; congruence.
  - intros id e Hid He Ha. apply Hgone; [congruence|]. apply (Hx id e He).
    split; [done|left]. by rewrite (proj1 (wf_by_id _ _ Hwf _ _ He)).
Qed.

Lemma apply_deletion_author_only_witness :
  let st := with_index three_ix small_store in
  let '(st', outcome) := apply_deletion st [ev_id (note_at 2 20)] [] (key32 7) 99 in
  wf_index (core_table three_notes) (st_index st').
Proof.
  pose proof (apply_deletion_author_only _ (with_index three_ix small_store)
    [ev_id (note_at 2 20)] [] (key32 7) 99 three_ix_wf) as Hd.
  cbv zeta. destruct (apply_deletion (with_index three_ix small_store)
    [ev_id (note_at 2 20)] [] (key32 7) 99) as [st' o]. exact (proj1 Hd).
Defined.

(** An addressable event with an explicit empty [d] tag, and its coordinate. *)
Definition empty_d_event : Event := sample 9 7 30000 1000 [mkTag (lit "d") [[]]].
Definition empty_d_coordinate : Coordinate := mkCoordinate 30000 (key32 7) [].

(** An addressable event whose [d] tag is the empty string cannot be deleted
    by its coordinate: the index files it under the addressable key with an empty
    identifier, while [coordinate_targets] looks an empty identifier up under the
    plain replaceable key. The author's request reports an unknown coordinate and
    the event stays. *)
Theorem empty_d_tag_not_deletable :
  let st := (store_insert small_store empty_d_event).1 in
  let '(st', outcome) := apply_deletion st [] [empty_d_coordinate] (key32 7) 2000 in
  parse_coordinate (lit "30000:" ++ ref_encode (key32 7) ++ lit ":")
    = Ret (Some empty_d_coordinate)
  /\ ev_pubkey empty_d_event = co_pubkey empty_d_coordinate
  /\ d_tag empty_d_event = Some (co_d_tag empty_d_coordinate)
  /\ store_contains st (ev_id empty_d_event) = true
  /\ store_contains st' (ev_id empty_d_event) = true
  /\ do_deleted_ids outcome = [] /\ do_unknown_coordinates outcome = 1.
Proof. vm_compute. split_and!; reflexivity. Qed.

(** Insertion results: an ephemeral event changes nothing; otherwise the
    store answers as the index does, and the log is written for a stored event
    only: its insert record, followed by a delete record for the event it
    replaced. *)
Theorem store_insert_logged `{HexCrate} st e w :
  st_wal st = Some w ->
  let '(st', r) := store_insert st e in
  match r with
  | IREphemeral => is_ephemeral e = true /\ st' = st
  | IRDuplicate | IRDeleted => is_ephemeral e = false /\ st_wal st' = Some w
  | IRStored e' replaced =>
      e' = e /\ is_ephemeral e = false /\ length replaced <= 1
      /\ st_wal st' = Some (foldl append w
           (WInsert (ev_raw e) :: ((fun old => WDelete (ev_id old)) <$> replaced)))
      /\ index_insert (st_index st) e = (st_index st', Inserted (head replaced))
  end.
Proof.
  intros Hw. unfold store_insert. destruct (is_ephemeral e); [done|].
  destruct (index_insert (st_index st) e) as [ix o].
  destruct o as [[old|]| | |]; simpl; rewrite ?Hw; split_and!; done || lia.
Qed.

Lemma store_insert_logged_witness :
  let st := with_wal (Some open_empty) small_store in
  let '(st', r) := store_insert st list_v1 in
  match r with IRStored e' replaced => st_wal st' =
    Some (foldl append open_empty (WInsert (ev_raw list_v1) :: ((fun old => WDelete (ev_id old)) <$> replaced)))
  | _ => True end.
Proof.
  pose proof (store_insert_logged (with_wal (Some open_empty) small_store) list_v1
    open_empty eq_refl) as Hs.
  cbv zeta. destruct (store_insert (with_wal (Some open_empty) small_store) list_v1) as [st' r].
  destruct r; try exact I. exact (proj1 (proj2 (proj2 (proj2 Hs)))).
Defined.
