(* ===== verification/Recovery.v ===== *)
(** [src/src/store/mod.rs], persistence: the snapshot [events.jsonl], saving,
    checkpointing and loading.

    [System] is the store with the snapshot file; the log segments are in the
    store's [Wal]. The order in which a [DashMap] is iterated is a parameter
    ([iteration_order]), of which only that it is a permutation is used. A
    restart is [store_new] on the segments left on disk followed by
    [load_from_disk]. *)
From S2P Require Import Prelude Collections Event Reference Deletion Tombstones Index IndexInv IndexSpec IndexQuery Wal Store.
Open Scope memlay_scope.

(** * Text files *)

(** UTF-8 validation of a byte string, as [BufRead::lines] performs it. *)
Definition continuation (b : Z) : bool := (128 <=? b)%Z && (b <=? 191)%Z.

Fixpoint valid_utf8_loop (fuel : nat) (bs : bytes) : bool :=
  match fuel with
  | O => true
  | S fuel =>
      match bs with
      | [] => true
      | b :: bs =>
          if (b <=? 127)%Z then valid_utf8_loop fuel bs
          else if (194 <=? b)%Z && (b <=? 223)%Z then
            match bs with
            | c :: bs => continuation c && valid_utf8_loop fuel bs
            | _ => false
            end
          else if (224 <=? b)%Z && (b <=? 239)%Z then
            match bs with
            | c :: d :: bs =>
                continuation c && continuation d
                && (negb (b =? 224)%Z || (160 <=? c)%Z)
                && (negb (b =? 237)%Z || (c <=? 159)%Z)
                && valid_utf8_loop fuel bs
            | _ => false
            end
          else if (240 <=? b)%Z && (b <=? 244)%Z then
            match bs with
            | c :: d :: e :: bs =>
                continuation c && continuation d && continuation e
                && (negb (b =? 240)%Z || (144 <=? c)%Z)
                && (negb (b =? 244)%Z || (c <=? 143)%Z)
                && valid_utf8_loop fuel bs
            | _ => false
            end
          else false
      end
  end.
Definition valid_utf8 (bs : bytes) : bool := valid_utf8_loop (length bs) bs.

Definition newline : Z := 10.
Definition carriage_return : Z := 13.

(** Drop one trailing carriage return. *)
Definition strip_cr (line : bytes) : bytes :=
  match last line with
  | Some c => if (c =? carriage_return)%Z then removelast line else line
  | None => line
  end.

(** The lines of a file: split after each newline, which is dropped together with
    a carriage return before it; a last line without newline is kept as it is. *)
Fixpoint split_lines (acc bs : bytes) : list bytes :=
  match bs with
  | [] => match acc with [] => [] | _ => [acc] end
  | b :: bs =>
      if (b =? newline)%Z then strip_cr acc :: split_lines [] bs
      else split_lines (acc ++ [b]) bs
  end.
Definition file_lines (bs : bytes) : list bytes := split_lines [] bs.

(** The lines that are complete when reading fails. *)
Fixpoint whole_lines (acc bs : bytes) : list bytes :=
  match bs with
  | [] => []
  | b :: bs =>
      if (b =? newline)%Z then strip_cr acc :: whole_lines [] bs
      else whole_lines (acc ++ [b]) bs
  end.

(** The lines of a file, if it is there, that [BufRead::lines] gives before an error. *)
Definition read_lines (r : Reading) (file : option bytes) : list bytes :=
  match r with
  | ReadAll => default [] (file_lines <$> file)
  | NotOpened => []
  | ReadUpTo n => default [] ((fun bs => whole_lines [] (take n bs)) <$> file)
  end.

(** * The snapshot *)

(** A store and its snapshot file. *)
Record System := mkSystem {
  sys_store : EventStore;
  sys_snapshot : option bytes;
}.

(** The bytes [write_snapshot] writes. *)
Definition snapshot_bytes (events : list Event) : bytes :=
  events ≫= fun e => ev_raw e ++ [newline].

Section Persistence.
Context `{HexCrate, EventCrates}.
Variable iteration_order : list Event -> list Event.

(** [EventStore::write_snapshot]: a temporary file, a sync and a rename; the
    snapshot is replaced as a whole or not at all. *)
Definition write_snapshot (fl : Faults) (sys : System) : System * result Z WalError :=
  if fail_open fl || fail_write fl || fail_sync fl || fail_rename fl
  then (sys, Err IoFailure) else
  let events := iteration_order (iter_all (st_index (sys_store sys))) in
  (mkSystem (sys_store sys) (Some (snapshot_bytes events)), Ok (Z.of_nat (length events))).

Definition set_wal (w : Wal) (sys : System) : System :=
  mkSystem (with_wal (Some w) (sys_store sys)) (sys_snapshot sys).

(** [EventStore::save_to_disk]. *)
Definition save_to_disk (fl : Faults) (sys : System) : System * result unit WalError :=
  match persistence_path (st_config (sys_store sys)) with
  | None => (sys, Ok tt)
  | Some _ =>
      if fail_mkdir fl then (sys, Err IoFailure) else
      match st_wal (sys_store sys) with
      | Some wal => let '(wal', r) := flush fl wal in (set_wal wal' sys, r)
      | None =>
          let '(sys', r) := write_snapshot fl sys in
          (sys', match r with Ok _ => Ok tt | Err e => Err e end)
      end
  end.

(** Remove [wal.log.old]; a handle still on it keeps the nameless file. *)
Definition remove_old (w : Wal) : Wal :=
  mkWal (w_log w) None (match w_handle w with AtOld => Unlinked | h => h end)
    (w_dirty w) (w_bytes w).

(** [EventStore::checkpoint]. The faults of the rotation ([flr]) and of the
    snapshot ([fls]) are separate. *)
Definition checkpoint (flr fls : Faults) (sys : System) : System * result unit WalError :=
  match persistence_path (st_config (sys_store sys)) with
  | None => (sys, Ok tt)
  | Some _ =>
      if fail_mkdir flr then (sys, Err IoFailure) else
      match st_wal (sys_store sys) with
      | None =>
          let '(sys', r) := write_snapshot fls sys in
          (sys', match r with Ok _ => Ok tt | Err e => Err e end)
      | Some wal =>
          let '(wal1, r1) := rotate flr wal in
          let sys1 := set_wal wal1 sys in
          match r1 with
          | Err e => (sys1, Err e)
          | Ok _ =>
              let '(sys2, r2) := write_snapshot fls sys1 in
              match r2 with
              | Err e => (sys2, Err e)
              | Ok _ =>
                  (if fail_remove fls then sys2 else set_wal (remove_old wal1) sys2, Ok tt)
              end
          end
      end
  end.

Definition MIN_CHECKPOINT_BYTES : Z := (64 * 1024 * 1024)%Z.

(** [EventStore::maybe_checkpoint]. *)
Definition maybe_checkpoint (flr fls : Faults) (sys : System) : System * result unit WalError :=
  match st_wal (sys_store sys) with
  | None => save_to_disk fls sys
  | Some wal =>
      let live := memory_bytes (st_index (sys_store sys)) in
      let threshold := Z.max MIN_CHECKPOINT_BYTES (sat_mul64 live 2) in
      if (pending_bytes wal >=? threshold)%Z then checkpoint flr fls sys
      else
        let '(wal', r) := group_commit flr wal in
        (set_wal wal' sys, match r with Ok _ => Ok tt | Err e => Err e end)
  end.

(** * Loading *)

(** The counters and the index while loading. *)
Record Load := mkLoad {
  ld_index : EventIndex;
  ld_applied : Z;
  ld_errors : Z;
  ld_evicted : Z;
}.

(** The eviction loop of [ingest]; every turn removes a stored event, so their
    number bounds the turns. *)
Fixpoint ingest_evict (fuel : nat) (target : Z) (ix : EventIndex) (evicted : Z)
    : panicky (EventIndex * Z) :=
  match fuel with
  | O => Ret (ix, evicted)
  | S fuel =>
      if (memory_bytes ix >? target)%Z then
        let! oldest := get_oldest ix 1 in
        match oldest with
        | [] => Ret (ix, evicted)
        | r :: _ => ingest_evict fuel target (index_remove ix (er_id r)).1 (evicted + 1)
        end
      else Ret (ix, evicted)
  end.

Definition eviction_threshold (max : Z) : Z :=
  if (max >? 0)%Z then wrap64 (max * 90) / 100 else 0%Z.
Definition eviction_target (max : Z) : Z :=
  if (max >? 0)%Z then wrap64 (max * 70) / 100 else 0%Z.

(** The closure [ingest]. *)
Definition ingest (max : Z) (ld : Load) (event : Event) : panicky Load :=
  let ix := (index_insert (ld_index ld) event).1 in
  if (eviction_threshold max >? 0)%Z && (memory_bytes ix >? eviction_threshold max)%Z then
    let! r := ingest_evict (S (index_len ix)) (eviction_target max) ix (ld_evicted ld) in
    Ret (mkLoad r.1 (ld_applied ld) (ld_errors ld) r.2)
  else Ret (mkLoad ix (ld_applied ld) (ld_errors ld) (ld_evicted ld)).

Definition count_applied (ld : Load) : Load :=
  mkLoad (ld_index ld) (ld_applied ld + 1) (ld_errors ld) (ld_evicted ld).
Definition count_error (ld : Load) : Load :=
  mkLoad (ld_index ld) (ld_applied ld) (ld_errors ld + 1) (ld_evicted ld).
Definition on_index (f : EventIndex -> EventIndex) (ld : Load) : Load :=
  mkLoad (f (ld_index ld)) (ld_applied ld) (ld_errors ld) (ld_evicted ld).

(** Parse and ingest one event, counting it or the failure. *)
Definition load_event (max : Z) (ld : Load) (json : bytes) : panicky Load :=
  match from_json_unchecked json with
  | Ok event => let! ld' := ingest max ld event in Ret (count_applied ld')
  | Err _ => Ret (count_error ld)
  end.

(** The loop over the lines of the snapshot; a line that is not UTF-8 ends it. *)
Fixpoint load_lines (max : Z) (lines : list bytes) (ld : Load) : panicky Load :=
  match lines with
  | [] => Ret ld
  | line :: lines =>
      if negb (valid_utf8 line) then Ret ld else
      match line with
      | [] => load_lines max lines ld
      | _ => let! ld' := load_event max ld line in load_lines max lines ld'
      end
  end.

(** The closure [replay_op]. *)
Definition replay_op (max : Z) (m : panicky Load) (op : WalOp) : panicky Load :=
  let! ld := m in
  match op with
  | WInsert data => load_event max ld data
  | WDelete id => Ret (count_applied (on_index (fun ix => (index_remove ix id).1) ld))
  | WTombstone id =>
      Ret (count_applied
             (on_index (fun ix => (index_remove (index_tombstone ix id) id).1) ld))
  end.

(** How the files of a load read. *)
Record Reads := mkReads {
  rd_snapshot : Reading;
  rd_old : Reading;
  rd_log : Reading;
}.
Definition all_read : Reads := mkReads ReadAll ReadAll ReadAll.

(** [EventStore::load_from_disk]. A file that cannot be read, or only in part, is
    warned about; the load goes on with the rest. *)
Definition load_from_disk (rd : Reads) (flr fls : Faults) (sys : System)
    : panicky (System * Z) :=
  let st := sys_store sys in
  match persistence_path (st_config st) with
  | None => Ret (sys, 0%Z)
  | Some _ =>
      let max := max_bytes (st_config st) in
      let! ld1 := load_lines max (read_lines (rd_snapshot rd) (sys_snapshot sys))
                    (mkLoad (st_index st) 0 0 0) in
      match st_wal st with
      | None =>
          let sys1 := mkSystem (with_index (ld_index ld1) st) (sys_snapshot sys) in
          Ret (if (ld_applied ld1 >? 0)%Z then (checkpoint flr fls sys1).1 else sys1,
               ld_applied ld1)
      | Some wal =>
          let m2 := match w_old wal with
                    | None => Ret ld1
                    | Some _ => (replay_path (replay_op max) (Ret ld1)
                                   (read_segment (rd_old rd) (w_old wal))).1
                    end in
          let! ld3 := (replay_path (replay_op max) m2 (read_segment (rd_log rd) (w_log wal))).1 in
          let wal' := if fail_remove flr then wal else remove_old wal in
          let sys1 := mkSystem (with_index (ld_index ld3) (with_wal (Some wal') st))
                        (sys_snapshot sys) in
          Ret (if (ld_applied ld3 >? 0)%Z then (checkpoint flr fls sys1).1 else sys1,
               ld_applied ld3)
      end
  end.

(** A restart with the same configuration on what is on disk, the segments and the
    snapshot, all of it readable. *)
Definition restart (flr fls : Faults) (sys : System) : panicky (System * Z) :=
  let st := sys_store sys in
  let log := st_wal st ≫= w_log in
  let old := st_wal st ≫= w_old in
  load_from_disk all_read flr fls
    (mkSystem (store_new no_faults (st_config st) log old (cached_rss_bytes st))
       (sys_snapshot sys)).
End Persistence.
