(* ===== verification/Journal.v ===== *)
(** Why replaying the write-ahead log restores the store: the abstract machine of
    [IndexSpec.v] and its journal.

    The store logs an insert only when it took effect, together with a removal of
    the event it replaced, and a tombstone for each event it deletes. [journal]
    is that list of operations for a run of the abstract machine. The file proves
    that replaying the journal from the state in which the run began, or from the
    state in which it {e ended} (a snapshot taken later, the log not yet removed),
    gives the final events. *)
From S2P Require Import Prelude Event Tombstones Index IndexInv IndexSpec.

Section Journal.
(** The catalog of events: one text per id. *)
Context `{HexCrate} (catalog : bytes -> option Event).

Definition known (e : Event) : Prop := catalog (ev_id e) = Some e.

(** What an event competes for: its replacement slot, or its own id. *)
Definition key_of (e : Event) : ReplacementKey + bytes :=
  if is_replaceable e then inl (replacement_key e) else inr (ev_id e).

Abbreviation state := Abstract.state.
Abbreviation events := Abstract.events.
Abbreviation dead := Abstract.dead.
Abbreviation supersedes := Abstract.supersedes.

Definition holds (s : state) (e : Event) : Prop := events s !! ev_id e = Some e.

Record aok (s : state) : Prop := {
  ao_known : forall i e, events s !! i = Some e -> ev_id e = i /\ known e;
  ao_slot : forall e e', holds s e -> holds s e' -> key_of e = key_of e' -> e = e';
  ao_dead : forall id, id ∈ dead s -> events s !! id = None;
}.

(** Operations the store performs: inserts of known events and deletions. *)
Definition op_known (o : op) : Prop :=
  match o with OpInsert e => known e | _ => True end.

(** * Inserting *)

Lemma known_eq e e' : known e -> known e' -> ev_id e = ev_id e' -> e = e'.
Proof. unfold known. congruence. Qed.

Lemma holds_known s e : aok s -> holds s e -> known e.
Proof. intros Hok Hh. by eapply (ao_known s Hok). Qed.

Lemma key_of_slot e e' :
  is_replaceable e = true -> key_of e' = key_of e <->
  is_replaceable e' = true /\ replacement_key e' = replacement_key e.
Proof.
  unfold key_of. intros ->. destruct (is_replaceable e'); split; intros Hx.
  - by injection Hx as ->.
  - by destruct Hx as [_ ->].
  - done.
  - by destruct Hx.
Qed.

Lemma replaceable_same_key e e' :
  replacement_key e' = replacement_key e -> is_replaceable e = true -> is_replaceable e' = true.
Proof.
  intros Hk He. destruct (is_replaceable e') eqn:E; [done|].
  apply replacement_key_none in E. rewrite Hk in E. apply replacement_key_none in E. congruence.
Qed.

Lemma slot_of_Some s e old :
  aok s -> Abstract.slot_of (events s) e = Some old ->
  is_replaceable e = true /\ holds s old /\ key_of old = key_of e.
Proof.
  intros Hok. unfold Abstract.slot_of. destruct (is_replaceable e) eqn:Hr; [|done].
  intros Hh%head_Some_elem_of. apply list_elem_of_filter in Hh as [Hk Hin].
  apply list_elem_of_fmap in Hin as ([i w] & -> & Hw%elem_of_map_to_list). simpl in *.
  destruct (ao_known s Hok _ _ Hw) as [Hid _]. split_and!; [done| |].
  - unfold holds. by rewrite Hid.
  - apply key_of_slot; [done|]. split; [by eapply replaceable_same_key|done].
Qed.

Lemma slot_of_None s e w :
  aok s -> Abstract.slot_of (events s) e = None -> is_replaceable e = true ->
  holds s w -> key_of w <> key_of e.
Proof.
  intros Hok. unfold Abstract.slot_of. intros Hn Hr. rewrite Hr in Hn. intros Hw Hk.
  apply key_of_slot in Hk as [_ Hk]; [|done].
  apply (not_elem_of_nil w). destruct (filter _ _) as [|x l] eqn:Hf; [|done].
  rewrite <- Hf. apply list_elem_of_filter. split; [done|].
  apply list_elem_of_fmap. exists (ev_id w, w). split; [done|].
  by apply elem_of_map_to_list.
Qed.

(** [x] beats everything it competes with. *)
Definition accepted (s : state) (x : Event) : Prop :=
  forall w, holds s w -> key_of w = key_of x -> supersedes x w = true.

Lemma accepted_other s x w : accepted s x -> holds s w -> key_of w = key_of x -> w <> x.
Proof. intros Ha Hw Hk ->. specialize (Ha x Hw Hk). by rewrite supersedes_irrefl in Ha. Qed.

Lemma regular_key e e' : is_replaceable e = false -> key_of e' = key_of e -> ev_id e' = ev_id e.
Proof. unfold key_of. intros ->. destruct (is_replaceable e'); [done|]. by intros [= ->]. Qed.

(** The two ways an insert of a live id can go. *)
Lemma insert_cases s x :
  aok s -> known x -> (ev_id x ∉ dead s) ->
  (accepted s x
   /\ (exists r, (Abstract.insert s x).2 = Inserted r
       /\ match r with
          | Some old => holds s old /\ key_of old = key_of x /\ supersedes x old = true
          | None => True
          end)
   /\ (forall e, holds (Abstract.insert s x).1 e <-> e = x \/ holds s e /\ key_of e <> key_of x))
  \/ (~ accepted s x /\ (forall r, (Abstract.insert s x).2 <> Inserted r)
      /\ (Abstract.insert s x).1 = s).
Proof.
  intros Hok Hx Hd. unfold Abstract.insert, Spec.contains. rewrite bool_decide_false by done.
  destruct (Abstract.slot_of (events s) x) as [old|] eqn:Hslot.
  - destruct (slot_of_Some s x old Hok Hslot) as (Hr & Hold & Hk).
    destruct (supersedes x old) eqn:Hsup; cbn [fst snd].
    + left. split_and!.
      * intros w Hw Hkw. replace w with old; [done|].
        apply (ao_slot s Hok); [done|done|congruence].
      * eexists. split; [done|]. done.
      * intros e. unfold holds at 1. cbn [events]. destruct (decide (ev_id e = ev_id x)) as [He|He].
        { rewrite He, lookup_insert_eq. split; [intros [= ->]; by left|].
          intros [->|[He' Hne]]; [done|].
          destruct Hne. f_equal. eapply known_eq; [by eapply holds_known|done|done]. }
        rewrite lookup_insert_ne by done. rewrite lookup_delete_Some. split.
        { intros [Hne He']. right. split; [done|]. intros Hke. apply Hne.
          f_equal. apply (ao_slot s Hok); [done|done|congruence]. }
        { intros [->|[He' Hke]]; [done|]. split; [|done]. intros Heq. apply Hke.
          rewrite <- Hk. f_equal. eapply known_eq; [by eapply holds_known..|done]. }
    + right. split_and!; [|done|done].
      intros Ha. specialize (Ha old Hold Hk). congruence.
  - destruct (events s !! ev_id x) as [x'|] eqn:Hin; cbn [fst snd].
    + right. destruct (ao_known s Hok _ _ Hin) as [Hid Hx'].
      assert (x' = x) as -> by by apply known_eq. split_and!; [|done|].
      * intros Ha. specialize (Ha x Hin eq_refl). by rewrite supersedes_irrefl in Ha.
      * rewrite insert_id by done. by destruct s.
    + left. assert (forall w, holds s w -> key_of w <> key_of x) as Hno.
      { intros w Hw. destruct (is_replaceable x) eqn:Hr; [by eapply slot_of_None|].
        intros Hk%regular_key; [|done]. unfold holds in Hw. congruence. }
      split_and!.
      * intros w Hw Hk. by destruct (Hno w Hw).
      * by eexists.
      * intros e. unfold holds at 1. cbn [events].
        destruct (decide (ev_id e = ev_id x)) as [He|He].
        { rewrite He, lookup_insert_eq. split; [intros [= ->]; by left|].
          intros [->|[He' _]]; [done|]. unfold holds in He'. congruence. }
        rewrite lookup_insert_ne by done. split; [intros Hh; right; auto|].
        intros [->|[Hh _]]; done.
Qed.

Lemma insert_dead s x : dead (Abstract.insert s x).1 = dead s.
Proof. unfold Abstract.insert. repeat case_match; done. Qed.

Lemma insert_refused s x : ev_id x ∈ dead s -> Abstract.insert s x = (s, Deleted).
Proof. intros Hd. unfold Abstract.insert, Spec.contains. by rewrite bool_decide_true. Qed.

Lemma insert_keeps_id s x i e :
  events (Abstract.insert s x).1 !! i = Some e ->
  (i = ev_id x /\ e = x) \/ events s !! i = Some e.
Proof.
  unfold Abstract.insert. repeat case_match; cbn [fst events]; intros Hl; auto;
    apply lookup_insert_Some in Hl as [[<- <-]|[_ Hl]]; auto.
  apply lookup_delete_Some in Hl as [_ Hl]. auto.
Qed.

Lemma aok_init : aok Abstract.init.
Proof.
  split; cbn.
  - intros i e. by rewrite lookup_empty.
  - intros e e' Hh. unfold holds in Hh. cbn in Hh. by rewrite lookup_empty in Hh.
  - intros id ?%elem_of_nil. done.
Qed.

Lemma aok_insert s x : aok s -> known x -> aok (Abstract.insert s x).1.
Proof.
  intros Hok Hx. destruct (decide (ev_id x ∈ dead s)) as [Hd|Hd]; [by rewrite insert_refused|].
  destruct (insert_cases s x Hok Hx Hd) as [(Ha & _ & Hh)|(_ & _ & ->)]; [|done]. split.
  - intros i e [[-> ->]|Hi]%insert_keeps_id; [done|]. by apply (ao_known s Hok).
  - intros e e' [->|[He Hke]]%Hh [->|[He' Hke']]%Hh Hk; try done; try congruence.
    by apply (ao_slot s Hok).
  - intros id Hid. rewrite insert_dead in Hid.
    destruct (events (Abstract.insert s x).1 !! id) as [e|] eqn:E; [|done].
    apply insert_keeps_id in E as [[-> ->]|E]; [done|].
    by rewrite (ao_dead s Hok id Hid) in E.
Qed.

Lemma aok_delete s id l :
  aok s -> (forall i, i ∈ l -> i = id \/ i ∈ dead s) ->
  aok (Abstract.mkState (delete id (events s)) l).
Proof.
  intros Hok Hl. split; cbn.
  - intros i e [_ Hi]%lookup_delete_Some. by apply (ao_known s Hok).
  - intros e e' He He'. unfold holds in He, He'. cbn in He, He'.
    apply lookup_delete_Some in He as [_ He], He' as [_ He']. by apply (ao_slot s Hok).
  - intros i [->|Hi]%Hl; [apply lookup_delete_eq|].
    apply lookup_delete_None. right. by apply (ao_dead s Hok).
Qed.

Lemma aok_exec s o : aok s -> op_known o -> aok (Abstract.exec s o).1.
Proof.
  intros Hok. destruct o as [e|id|id|id]; cbn [op_known Abstract.exec].
  - intros He. pose proof (aok_insert s e Hok He). by destruct (Abstract.insert s e).
  - intros _. apply aok_delete; [done|]. auto.
  - intros _. apply aok_delete; [done|]. intros i. apply spec_insert_only.
  - intros _. apply aok_delete; [done|]. intros i. apply spec_insert_only.
Qed.

(** * The journal *)

(** The operations logged for one answered operation. *)
Definition logged (o : op) (a : answer) : list op :=
  match o, a with
  | OpInsert e, AnsInsert (Inserted None) => [OpInsert e]
  | OpInsert e, AnsInsert (Inserted (Some old)) => [OpInsert e; OpRemove (ev_id old)]
  | OpDelete id, _ => [OpReplayTombstone id]
  | _, _ => []
  end.

Fixpoint journal (s : state) (ops : list op) : list op :=
  match ops with
  | [] => []
  | o :: ops =>
      let '(s', a) := Abstract.exec s o in logged o a ++ journal s' ops
  end.

(** The runs of the store: known events are inserted, stored ids are deleted, and
    nothing else happens to the events. *)
Fixpoint store_run (s : state) (ops : list op) : Prop :=
  match ops with
  | [] => True
  | o :: ops =>
      match o with
      | OpInsert e => known e
      | OpDelete id => is_Some (events s !! id)
      | _ => False
      end /\ store_run (Abstract.exec s o).1 ops
  end.

(** * Simulation *)

Definition agree (k : ReplacementKey + bytes) (a b : state) : Prop :=
  forall e, key_of e = k -> holds a e <-> holds b e.

(** [r] replays the journal of a live run that is now in [l] and will end in the
    events of [fin]: for each slot, it has what [l] has or already what [fin]
    will have. It knows at most the most recent tombstones of [l]. *)
Record follows (fin l r : state) : Prop := {
  fo_live : aok l;
  fo_replay : aok r;
  fo_agree : forall k, agree k r l \/ agree k r fin;
  fo_dead : dead r `suffix_of` dead l;
}.

Lemma follows_fresh fin l r id : follows fin l r -> (id ∉ dead l) -> (id ∉ dead r).
Proof.
  intros Hf Hd Hr. apply Hd. destruct (fo_dead _ _ _ Hf) as [p ->].
  apply elem_of_app. by right.
Qed.

(** Removing what the insert replaced changes nothing. *)
Lemma remove_replaced r x old :
  aok r -> known x -> (ev_id x ∉ dead r) -> known old ->
  key_of old = key_of x -> supersedes x old = true ->
  (Abstract.remove (Abstract.insert r x).1 (ev_id old)).1 = (Abstract.insert r x).1.
Proof.
  intros Hok Hx Hd Hold Hk Hsup. unfold Abstract.remove. cbn [fst].
  rewrite delete_id; [by destruct (Abstract.insert r x).1|].
  destruct (events (Abstract.insert r x).1 !! ev_id old) as [w|] eqn:Hw; [|done].
  destruct (ao_known _ (aok_insert r x Hok Hx) _ _ Hw) as [Hid Hwk].
  assert (w = old) as -> by by apply known_eq. clear Hid. exfalso.
  destruct (insert_cases r x Hok Hx Hd) as [(Ha & _ & Hh)|(Hna & _ & Hs)].
  - apply Hh in Hw as [->|[_ Hne]]; [|by apply Hne]. by rewrite supersedes_irrefl in Hsup.
  - apply Hna. rewrite Hs in Hw. intros v Hv Hkv. replace v with old; [done|].
    apply (ao_slot r Hok); [done|done|congruence].
Qed.

Lemma agree_accepted k l r x :
  agree k r l -> key_of x = k -> accepted l x -> accepted r x.
Proof. intros Hag Hk Ha w Hw Hkw. apply Ha; [|done]. apply Hag; [congruence|done]. Qed.

(** An accepted live insert, replayed. *)
Lemma follows_insert fin l r x :
  follows fin l r -> known x -> (ev_id x ∉ dead l) -> accepted l x ->
  follows fin (Abstract.insert l x).1 (Abstract.insert r x).1.
Proof.
  intros Hf Hx Hd Hacc. pose proof (follows_fresh _ _ _ _ Hf Hd) as Hdr.
  destruct Hf as [Hl Hr Hag Hdead]. split; [by apply aok_insert..| |by rewrite !insert_dead].
  destruct (insert_cases l x Hl Hx Hd) as [(_ & _ & Hhl)|[Hna _]]; [|done].
  intros k. destruct (insert_cases r x Hr Hx Hdr) as [(Har & _ & Hhr)|(Hnr & _ & Hsr)].
  - destruct (decide (key_of x = k)) as [Hkx|Hkx].
    + left. intros e He. rewrite Hhl, Hhr. naive_solver congruence.
    + destruct (Hag k) as [Ha|Ha]; [left|right]; intros e He; specialize (Ha e He);
        rewrite ?Hhl, ?Hhr; naive_solver congruence.
  - rewrite Hsr. destruct (decide (key_of x = k)) as [Hkx|Hkx].
    + destruct (Hag k) as [Ha|Ha]; [|by right]. destruct Hnr. by eapply agree_accepted.
    + destruct (Hag k) as [Ha|Ha]; [left|by right]. intros e He. specialize (Ha e He).
      rewrite Hhl. naive_solver congruence.
Qed.

(** The last [m] elements of a suffix are a suffix of the last [m] elements. *)
Lemma suffix_last_n {A} (m : nat) (p q : list A) :
  drop (length q - m) q `suffix_of` drop (length (p ++ q) - m) (p ++ q).
Proof.
  rewrite length_app. destruct (decide (length q <= m)) as [Hm|Hm].
  - replace (length q - m) with 0 by lia. rewrite drop_0, drop_app_le by lia.
    by apply suffix_app_r.
  - rewrite drop_app_ge by lia.
    replace (length p + length q - m - length p) with (length q - m) by lia. done.
Qed.

Lemma spec_insert_suffix (l r : list bytes) id :
  r `suffix_of` l -> (id ∉ l) -> Spec.insert r id `suffix_of` Spec.insert l id.
Proof.
  intros [p ->] Hid. apply not_elem_of_app in Hid as [Hp Hr]. unfold Spec.insert.
  rewrite !bool_decide_false by (rewrite ?elem_of_app; tauto).
  pose proof (suffix_last_n (Z.to_nat MAX_TOMBSTONES) p (r ++ [id])) as Hs.
  rewrite !length_app in Hs. cbn [length] in Hs. rewrite <- app_assoc, length_app.
  by replace (length r + 1) with (S (length r)) in Hs by lia;
    replace (length p + S (length r)) with (S (length p + length r)) in Hs by lia.
Qed.

Lemma holds_dec s x : aok s -> known x -> holds s x \/ ~ holds s x.
Proof.
  intros Hs Hx. unfold holds. destruct (events s !! ev_id x) as [y|] eqn:E; [left|by right].
  destruct (ao_known s Hs _ _ E) as [Hid Hy]. f_equal. by apply known_eq.
Qed.

Lemma holds_kill s id e : holds (Abstract.kill s id).1 e <-> ev_id e <> id /\ holds s e.
Proof. unfold holds. cbn. rewrite lookup_delete_Some. naive_solver. Qed.

Lemma follows_delete fin l r id x :
  follows fin l r -> events l !! id = Some x ->
  follows fin (Abstract.kill l id).1 (Abstract.kill r id).1.
Proof.
  intros [Hl Hr Hag Hdead] Hx. destruct (ao_known l Hl _ _ Hx) as [<- Hxk].
  assert (forall s, aok s -> forall e, holds s e -> ev_id e = ev_id x -> e = x) as Honly.
  { intros s Hs e He Hid. eapply known_eq; [by eapply holds_known|done|done]. }
  split; [apply aok_delete; [done|]; intros i; apply spec_insert_only..| |].
  - intros k. destruct (Hag k) as [Ha|Ha].
    { left. intros e He. rewrite !holds_kill. by rewrite (Ha e He). }
    destruct (decide (key_of x = k)) as [Hk|Hk].
    + destruct (holds_dec r x Hr Hxk) as [Hrx|Hrx].
      * left. intros e He. rewrite !holds_kill. split; intros [Hid Hh]; destruct Hid; f_equal.
        { by apply (ao_slot r Hr); [..|congruence]. }
        { by apply (ao_slot l Hl); [..|congruence]. }
      * right. intros e He. rewrite holds_kill, <- (Ha e He). split; [by intros [_ ?]|].
        intros Hh. split; [|done]. intros Hid. apply Hrx.
        by rewrite <- (Honly r Hr e Hh Hid).
    + right. intros e He. rewrite holds_kill, <- (Ha e He). split; [by intros [_ ?]|].
      intros Hh. split; [|done]. intros Hid. apply Hk. by rewrite <- (Honly r Hr e Hh Hid).
  - cbn. apply spec_insert_suffix; [done|]. intros Hin.
    by rewrite (ao_dead l Hl _ Hin) in Hx.
Qed.

(** One operation of the store and its log records. *)
Lemma follows_exec fin l r o :
  follows fin l r ->
  match o with OpInsert e => known e | OpDelete id => is_Some (events l !! id) | _ => False end ->
  let '(l', a) := Abstract.exec l o in
  follows fin l' (Abstract.exec_all r (logged o a)).1.
Proof.
  intros Hf. destruct o as [x|id|id|id]; try done.
  - intros Hx. cbn [Abstract.exec].
    destruct (decide (ev_id x ∈ dead l)) as [Hd|Hd].
    { rewrite insert_refused by done. done. }
    pose proof (follows_fresh _ _ _ _ Hf Hd) as Hdr.
    destruct (insert_cases l x (fo_live _ _ _ Hf) Hx Hd)
      as [(Ha & (rep & Hout & Hrep) & _)|(_ & Hno & Hs)].
    + pose proof (follows_insert fin l r x Hf Hx Hd Ha) as Hf'.
      destruct (Abstract.insert l x) as [l' out]. cbn [fst snd] in *. subst out.
      destruct rep as [old|]; cbn [logged Abstract.exec_all Abstract.exec].
      * destruct Hrep as (Hold & Hk & Hsup).
        pose proof (remove_replaced r x old (fo_replay _ _ _ Hf) Hx Hdr
          (holds_known _ _ (fo_live _ _ _ Hf) Hold) Hk Hsup) as Hrm.
        destruct (Abstract.insert r x) as [r' out]. cbn [fst snd] in *.
        unfold Abstract.remove in *. cbn [fst] in *. by rewrite Hrm.
      * destruct (Abstract.insert r x) as [r' out]. done.
    + destruct (Abstract.insert l x) as [l' out]. cbn [fst snd] in *. subst l'.
      destruct out as [rep| | |]; [by destruct (Hno rep)|done|done|done].
  - intros [x Hx]. exact (follows_delete fin l r id x Hf Hx).
Qed.

Lemma abstract_exec_all_app s l1 l2 :
  (Abstract.exec_all s (l1 ++ l2)).1
  = (Abstract.exec_all (Abstract.exec_all s l1).1 l2).1.
Proof.
  revert s. induction l1 as [|o l1 IH]; intros s; [done|]. cbn [app Abstract.exec_all].
  destruct (Abstract.exec s o) as [s1 a]. specialize (IH s1).
  destruct (Abstract.exec_all s1 (l1 ++ l2)), (Abstract.exec_all s1 l1). done.
Qed.

Lemma journal_app s l1 l2 :
  journal s (l1 ++ l2) = journal s l1 ++ journal (Abstract.exec_all s l1).1 l2.
Proof.
  revert s. induction l1 as [|o l1 IH]; intros s; [done|]. cbn [app journal Abstract.exec_all].
  destruct (Abstract.exec s o) as [s1 a]. rewrite IH, app_assoc.
  by destruct (Abstract.exec_all s1 l1).
Qed.

Lemma store_run_app s l1 l2 :
  store_run s (l1 ++ l2) <-> store_run s l1 /\ store_run (Abstract.exec_all s l1).1 l2.
Proof.
  revert s. induction l1 as [|o l1 IH]; intros s; cbn [app store_run Abstract.exec_all]; [tauto|].
  rewrite IH. destruct (Abstract.exec s o) as [s1 a]. cbn [fst].
  destruct (Abstract.exec_all s1 l1). tauto.
Qed.

Lemma follows_run fin ops l r :
  follows fin l r -> store_run l ops ->
  follows fin (Abstract.exec_all l ops).1 (Abstract.exec_all r (journal l ops)).1.
Proof.
  revert l r. induction ops as [|o ops IH]; intros l r Hf Hrun; [done|].
  destruct Hrun as [Ho Hrun]. pose proof (follows_exec fin l r o Hf Ho) as Hf1.
  cbn [Abstract.exec_all journal]. destruct (Abstract.exec l o) as [l1 a].
  rewrite abstract_exec_all_app. specialize (IH _ _ Hf1 Hrun).
  by destruct (Abstract.exec_all l1 ops).
Qed.

(** Two states that follow each other to the end hold the same events. *)
Lemma follows_done l r : follows l l r -> events r = events l.
Proof.
  intros [Hl Hr Hag _]. apply map_eq. intros i. apply option_eq. intros e.
  assert (forall s, aok s -> events s !! i = Some e <-> holds s e /\ ev_id e = i) as Hh.
  { intros s Hs. unfold holds. split; [|by intros [? <-]].
    intros He. destruct (ao_known s Hs _ _ He) as [<- _]. done. }
  rewrite (Hh r Hr), (Hh l Hl). destruct (Hag (key_of e)) as [Ha|Ha]; by rewrite (Ha e eq_refl).
Qed.

(** A state that agrees with the live one follows it to any end. *)
Lemma follows_any fin l r : follows l l r -> follows fin l r.
Proof.
  intros [Hl Hr Hag Hd]. split; [done|done| |done]. intros k. left. by destruct (Hag k).
Qed.

(** * Snapshots *)

(** Inserting the events of a state one by one, in any order, rebuilds them. *)
Lemma load_events s l t :
  aok s -> aok t -> dead t = [] -> (forall e, holds t e -> holds s e) ->
  (forall e, e ∈ l -> holds s e) ->
  let t' := (Abstract.exec_all t (OpInsert <$> l)).1 in
  aok t' /\ dead t' = [] /\ (forall e, holds t' e <-> holds t e \/ e ∈ l).
Proof.
  intros Hs. revert t. induction l as [|x l IH]; intros t Ht Hd Hsub Hl; cbv zeta.
  { split_and!; [done|done|]. intros e. rewrite elem_of_nil. cbn. tauto. }
  assert (holds s x) as Hx by (apply Hl; left).
  pose proof (holds_known s x Hs Hx) as Hxk.
  assert (forall e, holds (Abstract.insert t x).1 e <-> holds t e \/ e = x) as Hh.
  { destruct (insert_cases t x Ht Hxk) as [(Ha & _ & Hh)|(Hna & _ & ->)].
    - rewrite Hd. apply not_elem_of_nil.
    - intros e. rewrite Hh. split; [tauto|]. intros [He| ->]; [|by left].
      destruct (decide (key_of e = key_of x)) as [Hk|Hk]; [left|by right].
      apply (ao_slot s Hs); auto.
    - intros e. split; [by left|]. intros [He| ->]; [done|].
      destruct (holds_dec t x Ht Hxk) as [?|Hno]; [done|]. destruct Hna. intros w Hw Hk.
      destruct Hno. replace x with w; [done|]. apply (ao_slot s Hs); auto. }
  cbn [fmap list_fmap Abstract.exec_all Abstract.exec].
  pose proof (aok_insert t x Ht Hxk) as Hok. pose proof (insert_dead t x) as Hdd.
  destruct (Abstract.insert t x) as [t1 out]. cbn [fst] in *.
  destruct (IH t1) as (IH1 & IH2 & IH3); [done|congruence| | |].
  - intros e [He| ->]%Hh; auto.
  - intros e He. apply Hl. by right.
  - destruct (Abstract.exec_all t1 (OpInsert <$> l)) as [t2 outs]. cbn [fst] in *.
    split_and!; [done|done|]. intros e. rewrite IH3, Hh, elem_of_cons. tauto.
Qed.

(** The state a snapshot of [s] is loaded into. *)
Definition loaded (l : list Event) : state :=
  (Abstract.exec_all Abstract.init (OpInsert <$> l)).1.

Lemma loaded_snapshot s l :
  aok s -> (forall e, e ∈ l <-> holds s e) ->
  aok (loaded l) /\ dead (loaded l) = [] /\ (forall e, holds (loaded l) e <-> holds s e).
Proof.
  intros Hs Hl. unfold loaded.
  destruct (load_events s l Abstract.init Hs aok_init) as (Hok & Hd & Hh).
  - done.
  - intros e He. unfold holds in He. cbn in He. by rewrite lookup_empty in He.
  - intros e. apply Hl.
  - split_and!; [done|done|]. intros e. rewrite Hh, Hl. split; [|by right].
    intros [He|?]; [|done]. unfold holds in He. cbn in He. by rewrite lookup_empty in He.
Qed.

(** A snapshot of the final state follows the run that led to it. *)
Lemma follows_snapshot fin l0 l :
  aok l0 -> aok fin -> (forall e, e ∈ l <-> holds fin e) -> follows fin l0 (loaded l).
Proof.
  intros H0 Hf Hl. destruct (loaded_snapshot fin l Hf Hl) as (Hok & Hd & Hh).
  split; [done|done| |rewrite Hd; apply suffix_nil].
  intros k. right. intros e _. apply Hh.
Qed.
End Journal.
