(* ===== verification/Durability.v ===== *)
(** What the persistence of [Recovery.v] guarantees: the link between the store,
    its log and snapshot, and the abstract journal of [Journal.v]; crash safety
    of the checkpoint; and the cases it does not cover. *)
From S2P Require Import Prelude Collections Event Reference Deletion Tombstones Index IndexInv IndexSpec IndexQuery Wal Store Recovery Journal.
Open Scope memlay_scope.

(** * Loading terminates *)

Section Loading.
Context `{HexCrate} (core_of : bytes -> Core).
Abbreviation wf := (wf_index core_of).

Lemma ingest_evict_spec fuel target ix evicted :
  wf ix -> index_len ix < fuel ->
  exists ix' n, ingest_evict fuel target ix evicted = Ret (ix', n)
  /\ wf ix' /\ ((memory_bytes ix' <= target)%Z \/ index_len ix' = 0)
  /\ (forall id e, by_id ix' !! id = Some e -> by_id ix !! id = Some e).
Proof.
  revert ix evicted. induction fuel as [|fuel IH]; intros ix evicted Hwf Hf; [lia|].
  cbn [ingest_evict]. destruct (Z.gtb_spec (memory_bytes ix) target) as [Hm|Hm].
  2: { exists ix, evicted. split_and!; [done|done|left; lia|done]. }
  destruct (get_oldest_spec core_of ix 1 Hwf ltac:(lia)) as (l & rest & -> & Hp & _ & _ & Hlen).
  cbn [panicky_bind]. destruct l as [|r l].
  { exists ix, evicted. split_and!; [done|done| |done]. right. cbn [length] in Hlen. lia. }
  destruct (shards_enumerate core_of ix Hwf) as (_ & _ & _ & Hdom).
  assert (er_id r ∈ dom (by_id ix)) as [e He]%elem_of_dom.
  { apply Hdom. rewrite Hp. apply list_elem_of_fmap_2. apply elem_of_app. left. left. }
  destruct (IH (index_remove ix (er_id r)).1 (evicted + 1)%Z) as (ix' & n & Hrun & Hwf' & Hor & Hsub).
  - by apply wf_internal_remove.
  - unfold index_len, index_remove in *. rewrite internal_remove_by_id.
    rewrite (map_size_delete_Some _ _ (ex_intro _ e He)).
    assert (size (by_id ix) <> 0); [|lia].
    intros Hz%map_size_empty_inv. by rewrite Hz, lookup_empty in He.
  - exists ix', n. split_and!; [done|done|done|]. intros id e' Hid. apply Hsub in Hid.
    unfold index_remove in Hid. rewrite internal_remove_by_id in Hid.
    by apply lookup_delete_Some in Hid as [_ ?].
Qed.

End Loading.

Definition three_load : Load := mkLoad three_ix 0 0 0.


(** * The snapshot as text *)

(** Texts that occupy one line of the snapshot and come back as they are. *)
Definition one_line (bs : bytes) : Prop :=
  bs <> [] /\ (newline ∉ bs) /\ last bs <> Some carriage_return /\ valid_utf8 bs = true.

Lemma split_lines_line acc bs rest :
  newline ∉ bs ->
  split_lines acc (bs ++ newline :: rest) = strip_cr (acc ++ bs) :: split_lines [] rest.
Proof.
  revert acc. induction bs as [|b bs IH]; intros acc Hb; simpl.
  { by rewrite app_nil_r. }
  apply not_elem_of_cons in Hb as [Hb Hbs].
  destruct (Z.eqb_spec b newline); [congruence|]. rewrite IH by done. by rewrite <- app_assoc.
Qed.

Lemma strip_cr_id bs : last bs <> Some carriage_return -> strip_cr bs = bs.
Proof.
  unfold strip_cr. destruct (last bs) as [c|]; [|done]. intros Hc.
  destruct (Z.eqb_spec c carriage_return); [congruence|done].
Qed.

Lemma file_lines_snapshot l :
  Forall (fun e => one_line (ev_raw e)) l -> file_lines (snapshot_bytes l) = ev_raw <$> l.
Proof.
  induction 1 as [|e l (Hne & Hnl & Hcr & _) _ IH]; [done|].
  unfold file_lines, snapshot_bytes in *. cbn [mbind list_bind fmap list_fmap].
  rewrite <- app_assoc. cbn [app]. rewrite split_lines_line by done.
  rewrite app_nil_l, strip_cr_id by done. f_equal. exact IH.
Qed.

(** * Replaying the log *)

Section Replaying.
Context `{HexCrate, EventCrates} (catalog : bytes -> option Event).

(** An event that the log and the snapshot can hold. *)
Record storable (e : Event) : Prop := {
  sb_id : length (ev_id e) = 32;
  sb_parse : from_json_unchecked (ev_raw e) = Ok e;
  sb_size : (Z.of_nat (length (ev_raw e)) <= MAX_WAL_RECORD_SIZE)%Z;
  sb_line : one_line (ev_raw e);
}.

(** Every event of the catalog is storable. *)
Hypothesis catalog_storable : forall e, known catalog e -> storable e.

(** What is determined by an id of the catalog. *)
Definition catalog_core (id : bytes) : Core :=
  match catalog id with Some e => core e | None => mkCore [] 0 0 [] end.

Lemma known_genuine e : known catalog e -> genuine catalog_core e.
Proof. unfold known, genuine, catalog_core. by intros ->. Qed.

(** The log record of an operation. *)
Definition wal_op (o : op) : WalOp :=
  match o with
  | OpInsert e => WInsert (ev_raw e)
  | OpRemove id => WDelete id
  | OpDelete id | OpReplayTombstone id => WTombstone id
  end.

(** The operations found in a log. *)
Definition replayable (o : op) : Prop :=
  match o with
  | OpInsert e => known catalog e
  | OpRemove id | OpReplayTombstone id => length id = 32
  | OpDelete _ => False
  end.

Lemma replayable_ok ops : Forall replayable ops -> Forall op_ok (wal_op <$> ops).
Proof.
  intros Hr. apply Forall_fmap. eapply Forall_impl; [exact Hr|].
  intros [e|id|id|id]; simpl; try done. intros He. by apply catalog_storable.
Qed.

Lemma replayable_genuine ops :
  Forall replayable ops -> Forall (op_genuine catalog_core) ops.
Proof.
  intros Hr. eapply Forall_impl; [exact Hr|]. intros [e|id|id|id]; simpl; try done.
  apply known_genuine.
Qed.

Lemma load_event_unlimited ld e :
  storable e ->
  load_event 0 ld (ev_raw e)
  = Ret (count_applied (on_index (fun ix => (index_insert ix e).1) ld)).
Proof. intros Hs. unfold load_event. by rewrite (sb_parse e Hs). Qed.

Lemma replay_op_exec ld o :
  replayable o ->
  replay_op 0 (Ret ld) (wal_op o)
  = Ret (count_applied (on_index (fun ix => (exec ix o).1) ld)).
Proof.
  destruct o as [e|id|id|id]; cbn [replayable wal_op replay_op panicky_bind];
    intros Hr; [| |done|]; unfold on_index; cbn [exec].
  - rewrite load_event_unlimited by by apply catalog_storable. unfold on_index.
    by destruct (index_insert (ld_index ld) e).
  - by destruct (index_remove (ld_index ld) id).
  - by destruct (index_remove (index_tombstone (ld_index ld) id) id).
Qed.

Lemma exec_all_cons ix o ops : (exec_all ix (o :: ops)).1 = (exec_all (exec ix o).1 ops).1.
Proof. cbn [exec_all]. destruct (exec ix o) as [ix1 a]. simpl. by destruct (exec_all ix1 ops). Qed.

Lemma exec_all_app ix l1 l2 :
  (exec_all ix (l1 ++ l2)).1 = (exec_all (exec_all ix l1).1 l2).1.
Proof.
  revert ix. induction l1 as [|o l1 IH]; intros ix; [done|].
  rewrite <- app_comm_cons, !exec_all_cons. apply IH.
Qed.

(** Without a memory limit the load runs the logged operations. *)
Lemma replay_ops_exec ld ops :
  Forall replayable ops ->
  exists ld', foldl (replay_op 0) (Ret ld) (wal_op <$> ops) = Ret ld'
  /\ ld_index ld' = (exec_all (ld_index ld) ops).1
  /\ ld_applied ld' = (ld_applied ld + Z.of_nat (length ops))%Z.
Proof.
  revert ld. induction ops as [|o ops IH]; intros ld Hr.
  { exists ld. split_and!; [done|done|]. simpl. lia. }
  apply Forall_cons in Hr as [Ho Hr]. cbn [fmap list_fmap foldl].
  rewrite replay_op_exec by done. destruct (IH (count_applied (on_index (fun ix => (exec ix o).1) ld)) Hr)
    as (ld' & Hrun & Hix & Happ).
  exists ld'. split_and!; [done| |].
  - by rewrite Hix, exec_all_cons.
  - rewrite Happ. simpl. lia.
Qed.

Lemma load_lines_exec ld l :
  Forall (known catalog) l ->
  exists ld', load_lines 0 (ev_raw <$> l) ld = Ret ld'
  /\ ld_index ld' = (exec_all (ld_index ld) (OpInsert <$> l)).1
  /\ ld_applied ld' = (ld_applied ld + Z.of_nat (length l))%Z.
Proof.
  revert ld. induction l as [|e l IH]; intros ld Hr.
  { exists ld. split_and!; [done|done|]. simpl. lia. }
  apply Forall_cons in Hr as [He Hr]. cbn [fmap list_fmap load_lines].
  pose proof (catalog_storable e He) as Hs. destruct (sb_line e Hs) as (Hne & _ & _ & Hu).
  rewrite Hu. cbn [negb]. destruct (ev_raw e) as [|b bs] eqn:Hraw; [done|]. rewrite <- Hraw.
  rewrite load_event_unlimited by done. cbn [panicky_bind].
  destruct (IH (count_applied (on_index (fun ix => (index_insert ix e).1) ld)) Hr)
    as (ld' & Hrun & Hix & Happ).
  exists ld'. split_and!; [done| |].
  - rewrite Hix, exec_all_cons. cbn [exec ld_index count_applied on_index].
    by destruct (index_insert (ld_index ld) e).
  - rewrite Happ. simpl. lia.
Qed.

Lemma wf_abs_exec ix ops :
  wf_index catalog_core ix -> Forall (op_genuine catalog_core) ops ->
  wf_index catalog_core (exec_all ix ops).1
  /\ abs (exec_all ix ops).1 = (Abstract.exec_all (abs ix) ops).1.
Proof.
  intros Hwf Hg. destruct (exec_all_refines catalog_core ops ix Hwf Hg) as [Hwf' Heq].
  split; [done|]. by rewrite <- Heq.
Qed.

Lemma store_run_genuine s ops :
  store_run catalog s ops -> Forall (op_genuine catalog_core) ops.
Proof.
  revert s. induction ops as [|o ops IH]; intros s; [constructor|].
  intros [Ho Hrun]. constructor; [|by eapply IH].
  destruct o; simpl in *; try done. by apply known_genuine.
Qed.

Lemma aok_run s ops :
  aok catalog s -> store_run catalog s ops -> aok catalog (Abstract.exec_all s ops).1.
Proof.
  revert s. induction ops as [|o ops IH]; intros s Hs; [done|]. intros [Ho Hrun].
  cbn [Abstract.exec_all].
  assert (aok catalog (Abstract.exec s o).1) as Hs1.
  { apply aok_exec; [done|]. by destruct o. }
  destruct (Abstract.exec s o) as [s1 a]. cbn [fst] in *. specialize (IH _ Hs1 Hrun).
  by destruct (Abstract.exec_all s1 ops).
Qed.

(** The journal of a store's run can be logged. *)
Lemma logged_replayable s o :
  aok catalog s ->
  match o with OpInsert e => known catalog e
  | OpDelete id => is_Some (Abstract.events s !! id) | _ => False end ->
  Forall replayable (logged o (Abstract.exec s o).2).
Proof.
  intros Hs. destruct o as [e|id|id|id]; try done; cbn [Abstract.exec].
  - intros He. destruct (decide (ev_id e ∈ Abstract.dead s)) as [Hd|Hd].
    { rewrite insert_refused by done. constructor. }
    destruct (insert_cases catalog s e Hs He Hd) as [(_ & (r & Hr & Hold) & _)|(_ & Hno & _)];
      destruct (Abstract.insert s e) as [s' out]; simpl in *.
    + subst out. destruct r as [old|]; [|by repeat constructor].
      destruct Hold as [Hold _]. repeat constructor; [done|].
      by apply catalog_storable, (holds_known catalog s).
    + destruct out as [r| | |]; [by destruct (Hno r)|constructor..].
  - intros [e He]. destruct (ao_known catalog s Hs _ _ He) as [<- Hk].
    repeat constructor. by apply catalog_storable.
Qed.

Lemma journal_replayable s ops :
  aok catalog s -> store_run catalog s ops -> Forall replayable (journal s ops).
Proof.
  revert s. induction ops as [|o ops IH]; intros s Hs; [constructor|]. intros [Ho Hrun].
  cbn [journal]. pose proof (logged_replayable s o Hs Ho) as Hl.
  assert (aok catalog (Abstract.exec s o).1) as Hs1.
  { apply aok_exec; [done|]. by destruct o. }
  destruct (Abstract.exec s o) as [s1 a]. apply Forall_app. split; [done|]. by apply IH.
Qed.

(** * Systems whose disk covers their memory *)

Definition old_data (w : Wal) : bytes :=
  match w_old w with Some s => seg_data s | None => [] end.

(** A persistent store with a log and no memory limit. *)
Definition unlimited (c : StoreConfig) : Prop :=
  is_Some (persistence_path c) /\ use_wal c = true /\ max_bytes c = 0%Z.

(** The snapshot, then the rotated segment, then the live log replay to the live
    events: the rotated segment is the journal of a run from [l0], the live log of
    its continuation, and the snapshot is of the state [l0] or of a later one. *)
Definition covers (sys : System) : Prop :=
  exists w snap l0 opsA opsB,
    let lm := (Abstract.exec_all l0 opsA).1 in
    let ix := st_index (sys_store sys) in
    unlimited (st_config (sys_store sys))
    /\ st_wal (sys_store sys) = Some w
    /\ default [] (sys_snapshot sys) = snapshot_bytes snap /\ Forall (known catalog) snap
    /\ old_data w = encode_all (wal_op <$> journal l0 opsA)
    /\ log_holds w (wal_op <$> journal lm opsB)
    /\ follows catalog lm l0 (loaded snap)
    /\ store_run catalog l0 opsA /\ store_run catalog lm opsB
    /\ wf_index catalog_core ix /\ abs ix = (Abstract.exec_all lm opsB).1.

(** Replaying both segments of such a system. *)
Lemma replay_segment ops ld s :
  Forall replayable ops -> seg_data s = encode_all (wal_op <$> ops) ->
  exists ld' n, replay_path (replay_op 0) (Ret ld) (Some s) = (Ret ld', Ok n)
  /\ ld_index ld' = (exec_all (ld_index ld) ops).1
  /\ ld_applied ld' = (ld_applied ld + Z.of_nat (length ops))%Z.
Proof.
  intros Hr Hs. destruct (replay_ops_exec ld ops Hr) as (ld' & Hrun & Hix & Happ).
  assert (replay_path (replay_op 0) (Ret ld) (Some s)
    = replay_path (replay_op 0) (Ret ld) (Some (mkSeg (seg_data s) 0))) as Hsy by done.
  pose proof (replay_log (replay_op 0) (Ret ld)
    (mkWal (Some (mkSeg (seg_data s) 0)) None AtLog false 0) (wal_op <$> ops)) as Hlog'.
  rewrite Hrun in Hlog'. unfold replay in Hlog'. cbn [w_log] in Hlog'.
  rewrite Hsy, Hlog'.
  - by eexists ld', _.
  - split; [done|]. eexists. split; [done|]. simpl. split; [done|lia].
  - by apply replayable_ok.
Qed.

(** The log as reopened by a restart. *)
Definition reopened (w : Wal) (s : Seg) : Wal :=
  mkWal (Some s) (w_old w) AtLog false (Z.of_nat (length (seg_data s))).

(** What a restart loads. *)
Lemma load_index snap opsA opsB l0 w s :
  let lm := (Abstract.exec_all l0 opsA).1 in
  Forall (known catalog) snap ->
  old_data w = encode_all (wal_op <$> journal l0 opsA) ->
  seg_data s = encode_all (wal_op <$> journal lm opsB) ->
  follows catalog lm l0 (loaded snap) ->
  store_run catalog l0 opsA -> store_run catalog lm opsB ->
  exists ld1 ld2 ld3,
    load_lines 0 (ev_raw <$> snap) (mkLoad index_new 0 0 0) = Ret ld1
    /\ match w_old w with
       | None => Ret ld1
       | Some _ => (replay_path (replay_op 0) (Ret ld1) (w_old w)).1
       end = Ret ld2
    /\ (replay (replay_op 0) (Ret ld2) (reopened w s)).1 = Ret ld3
    /\ wf_index catalog_core (ld_index ld3) /\ aok catalog (abs (ld_index ld3))
    /\ by_id (ld_index ld3) = Abstract.events (Abstract.exec_all lm opsB).1
    /\ abs (ld_index ld3) = (Abstract.exec_all
         (Abstract.exec_all (loaded snap) (journal l0 opsA)).1 (journal lm opsB)).1
    /\ ld_applied ld3 = Z.of_nat (length snap + length (journal l0 opsA)
                                  + length (journal lm opsB)).
Proof.
  intros lm Hsnap Hold Hs Hf HA HB.
  assert (aok catalog l0) as Hl0 by apply Hf.
  assert (aok catalog lm) as Hm by by apply aok_run.
  pose proof (journal_replayable _ _ Hl0 HA) as HjA.
  pose proof (journal_replayable _ _ Hm HB) as HjB.
  destruct (load_lines_exec (mkLoad index_new 0 0 0) snap Hsnap) as (ld1 & H1 & Hix1 & Ha1).
  assert (exists ld2, match w_old w with
       | None => Ret ld1
       | Some _ => (replay_path (replay_op 0) (Ret ld1) (w_old w)).1
       end = Ret ld2 /\ ld_index ld2 = (exec_all (ld_index ld1) (journal l0 opsA)).1
       /\ ld_applied ld2 = (ld_applied ld1 + Z.of_nat (length (journal l0 opsA)))%Z)
    as (ld2 & H2 & Hix2 & Ha2).
  { unfold old_data in Hold. destruct (w_old w) as [so|].
    - destruct (replay_segment (journal l0 opsA) ld1 so HjA Hold) as (ld2 & n & -> & ? & ?).
      by exists ld2.
    - exists ld1. pose proof (length_encode_all (wal_op <$> journal l0 opsA)) as Hle.
      rewrite <- Hold, length_fmap in Hle. simpl in Hle.
      destruct (journal l0 opsA); [|simpl in *; lia]. split_and!; [done|done|]. simpl. lia. }
  destruct (replay_segment (journal lm opsB) ld2 s HjB Hs) as (ld3 & n & H3 & Hix3 & Ha3).
  exists ld1, ld2, ld3. unfold replay. cbn [w_log reopened]. rewrite H3.
  assert (Forall (op_genuine catalog_core)
    (OpInsert <$> snap) /\ Forall (op_genuine catalog_core) (journal l0 opsA)
    /\ Forall (op_genuine catalog_core) (journal lm opsB)) as (G1 & G2 & G3).
  { split_and!; [|by apply replayable_genuine..]. apply Forall_fmap.
    eapply Forall_impl; [exact Hsnap|]. apply known_genuine. }
  destruct (wf_abs_exec _ _ (wf_index_new catalog_core) G1) as [W1 A1].
  rewrite Hix1 in Hix2. cbn [ld_index] in Hix2, Hix1.
  destruct (wf_abs_exec _ _ W1 G2) as [W2 A2]. rewrite <- Hix2 in W2, A2.
  destruct (wf_abs_exec _ _ W2 G3) as [W3 A3]. rewrite <- Hix3 in W3, A3.
  assert (abs index_new = Abstract.init) as Hinit by done.
  rewrite Hinit in A1. fold (loaded snap) in A1. rewrite A1 in A2. rewrite A2 in A3.
  pose proof (follows_run catalog lm opsA l0 (loaded snap) Hf HA) as F1. fold lm in F1.
  pose proof (follows_run catalog (Abstract.exec_all lm opsB).1 opsB lm _
    (follows_any catalog _ _ _ F1) HB) as F2.
  split_and!; [done|done|done|done| | |done|].
  - rewrite A3. apply F2.
  - rewrite <- (follows_done catalog _ _ F2), <- A3. done.
  - rewrite Ha3, Ha2, Ha1. simpl ld_applied. lia.
Qed.

Lemma checkpoint_index order flr fls sys :
  st_index (sys_store (checkpoint order flr fls sys).1) = st_index (sys_store sys)
  /\ st_config (sys_store (checkpoint order flr fls sys).1) = st_config (sys_store sys).
Proof.
  unfold checkpoint, write_snapshot. repeat case_match; simplify_eq; done.
Qed.

Definition reopened_store (c : StoreConfig) (w : Wal) (s : Seg) (rss : Z) : EventStore :=
  mkStore index_new c (mkEviction 10 0) (Some (reopened w s)) rss DEFAULT_AMPLIFICATION_MILLI.

Lemma store_new_reopen c w s rss :
  unlimited c -> store_new no_faults c (Some s) (w_old w) rss = reopened_store c w s rss.
Proof.
  intros ((p & Hpath) & Hwal & _). unfold store_new. rewrite Hpath, Hwal.
  by rewrite bool_decide_true by eauto.
Qed.

(** The system a restart has loaded, before its own checkpoint. *)
Definition loaded_system (flr : Faults) (sys : System) (w : Wal) (s : Seg) (ix : EventIndex)
    : System :=
  let w' := reopened w s in
  mkSystem (with_index ix (with_wal (Some (if fail_remove flr then w' else remove_old w'))
      (reopened_store (st_config (sys_store sys)) w s (cached_rss_bytes (sys_store sys)))))
    (sys_snapshot sys).

(** What a restart of a covered system does. *)
Lemma restart_covered order flr fls sys :
  covers sys ->
  exists w s ix n,
    st_wal (sys_store sys) = Some w /\ w_log w = Some s
    /\ seg_synced s <= length (seg_data s)
    /\ restart order flr fls sys
       = Ret (let sys1 := loaded_system flr sys w s ix in
              if (n >? 0)%Z then (checkpoint order flr fls sys1).1 else sys1, n)
    /\ wf_index catalog_core ix /\ aok catalog (abs ix)
    /\ by_id ix = by_id (st_index (sys_store sys))
    /\ (exists ops, seg_data s = encode_all (wal_op <$> ops))
    /\ (n <= 0 -> seg_data s = [] /\ default [] (sys_snapshot sys) = [] /\ by_id ix = ∅)%Z.
Proof.
  intros (w & snap & l0 & opsA & opsB & ((p & Hpath) & Hwal & Hmax) & Hw & Hsn & Hkn & Hold
    & [Hh (s & Hs & Hd & Hle)] & Hf & HA & HB & _ & Habs).
  destruct (load_index snap opsA opsB l0 w s Hkn Hold Hd Hf HA HB)
    as (ld1 & ld2 & ld3 & H1 & H2 & H3 & Hwf & Hok & Hev & Hload & Happ).
  exists w, s, (ld_index ld3), (ld_applied ld3). split_and!; try done.
  - unfold restart. rewrite Hw. cbn [mbind option_bind]. rewrite Hs.
    rewrite (store_new_reopen _ w s _ (conj (ex_intro _ p Hpath) (conj Hwal Hmax))).
    unfold load_from_disk, all_read.
    cbn [sys_store st_config st_wal sys_snapshot st_index reopened_store rd_snapshot rd_old rd_log
      read_lines read_segment].
    rewrite Hpath.
    assert (default [] (file_lines <$> sys_snapshot sys) = ev_raw <$> snap) as ->.
    { rewrite <- file_lines_snapshot.
      - rewrite <- Hsn. by destruct (sys_snapshot sys).
      - eapply Forall_impl; [exact Hkn|]. intros e He. by apply catalog_storable. }
    rewrite Hmax, H1. cbn [panicky_bind]. change (w_old (reopened w s)) with (w_old w).
    unfold replay in H3. rewrite H2, H3. done.
  - by rewrite Hev, <- Habs.
  - by eexists.
  - intros Hn. rewrite Happ in Hn. destruct snap as [|e snap]; [|simpl in Hn; lia].
    destruct (journal l0 opsA); [|simpl in Hn; lia].
    destruct (journal _ opsB); [|simpl in Hn; lia]. split_and!; [done|done|].
    change (by_id (ld_index ld3)) with (Abstract.events (abs (ld_index ld3))).
    by rewrite Hload.
Qed.

(** A restart finds the live events, whatever the faults of its own checkpoint. *)
Lemma restart_recovers order flr fls sys :
  covers sys ->
  exists sys' n, restart order flr fls sys = Ret (sys', n)
  /\ by_id (st_index (sys_store sys')) = by_id (st_index (sys_store sys)).
Proof.
  intros Hcov. destruct (restart_covered order flr fls sys Hcov)
    as (w & s & ix & n & _ & _ & _ & -> & _ & _ & <- & _ & _).
  eexists _, _. split; [done|]. cbv zeta.
  destruct (n >? 0)%Z; [|done]. by rewrite (proj1 (checkpoint_index _ _ _ _)).
Qed.

(** * The store's operations keep the disk in step *)

(** [st'] is reached from [st] by [ops], and the log by their journal. *)
Record logged_run (st st' : EventStore) (ops : list op) : Prop := {
  lr_index : st_index st' = (exec_all (st_index st) ops).1;
  lr_wal : st_wal st' =
    (fun w => foldl append w (wal_op <$> journal (abs (st_index st)) ops)) <$> st_wal st;
  lr_config : st_config st' = st_config st;
  lr_run : store_run catalog (abs (st_index st)) ops;
}.

Lemma logged_run_refl st : logged_run st st [].
Proof. split; try done. simpl. by destruct (st_wal st). Qed.

Lemma logged_run_trans st1 st2 st3 ops1 ops2 :
  wf_index catalog_core (st_index st1) ->
  logged_run st1 st2 ops1 -> logged_run st2 st3 ops2 -> logged_run st1 st3 (ops1 ++ ops2).
Proof.
  intros Hwf [I1 W1 C1 R1] [I2 W2 C2 R2].
  destruct (wf_abs_exec _ _ Hwf (store_run_genuine _ _ R1)) as [_ Ha].
  rewrite I1, Ha in *. split.
  - by rewrite exec_all_app.
  - rewrite W2, W1, journal_app, fmap_app. destruct (st_wal st1); [|done]. simpl.
    by rewrite foldl_app.
  - congruence.
  - apply store_run_app. done.
Qed.

Lemma logged_run_wf st st' ops :
  wf_index catalog_core (st_index st) -> logged_run st st' ops ->
  wf_index catalog_core (st_index st').
Proof.
  intros Hwf [I _ _ R]. rewrite I. by apply wf_abs_exec; [|eapply store_run_genuine].
Qed.

Lemma insert_logged_run st e :
  wf_index catalog_core (st_index st) -> known catalog e ->
  exists ops, logged_run st (store_insert st e).1 ops.
Proof.
  intros Hwf He. unfold store_insert. destruct (is_ephemeral e).
  { exists []. apply logged_run_refl. }
  exists [OpInsert e].
  pose proof (exec_refines catalog_core (st_index st) (OpInsert e) Hwf (known_genuine e He)) as Hr.
  cbn [exec] in Hr. destruct (index_insert (st_index st) e) as [ix out] eqn:Hi.
  cbn [fst snd] in Hr.
  assert (journal (abs (st_index st)) [OpInsert e] = logged (OpInsert e) (AnsInsert out)) as Hj.
  { cbn [journal]. rewrite <- Hr. apply app_nil_r. }
  destruct out as [[old|]| | |]; (split;
    [cbn [exec_all exec]; rewrite Hi; done
    |rewrite Hj; destruct (st_wal st) as [w|] eqn:Hw; simpl; rewrite ?Hw; done
    |done|by split]).
Qed.

Lemma delete_logged_run s id :
  is_Some (by_id (st_index s.1) !! id) ->
  logged_run s.1 (delete_recorded s id).1 [OpDelete id].
Proof.
  intros Hid. rewrite delete_recorded_eq. cbn [fst]. split.
  - cbn [exec_all exec]. by destruct (delete_by_id (st_index s.1) id).
  - cbn. by destruct (st_wal s.1).
  - done.
  - by split.
Qed.

Lemma deletion_logged_run st ids coords author until :
  wf_index catalog_core (st_index st) ->
  exists ops, logged_run st (apply_deletion st ids coords author until).1 ops.
Proof.
  intros Hwf. set (P := fun s : EventStore * DeletionOutcome => exists ops, logged_run st s.1 ops).
  assert (forall s id, P s -> is_Some (by_id (st_index s.1) !! id) -> P (delete_recorded s id))
    as Hdel.
  { intros s id [ops Hs] Hid. exists (ops ++ [OpDelete id]).
    eapply logged_run_trans; [done|done|]. by apply delete_logged_run. }
  change (P (apply_deletion st ids coords author until)). unfold apply_deletion.
  apply (foldl_ind P); [apply (foldl_ind P)|].
  - exists []. apply logged_run_refl.
  - intros s id _ Hs. unfold delete_id, index_get.
    destruct (by_id (st_index s.1) !! id) as [e|] eqn:He; [|done].
    case_bool_decide; [|done]. apply Hdel; [done|]. by rewrite He.
  - intros s coord _ Hs. unfold delete_coordinate. case_bool_decide; [done|].
    destruct (coordinate_targets_unique (st_index s.1) coord until) as [Ht|[id Ht]];
      rewrite Ht; [done|]. simpl foldl. apply Hdel; [done|].
    assert (id ∈ coordinate_targets (st_index s.1) coord until) as Hin by (rewrite Ht; left).
    unfold coordinate_targets in Hin. apply elem_of_List_filter in Hin as [_ Hin].
    by destruct (by_id (st_index s.1) !! id).
Qed.

Lemma append_all_old w ops : w_handle w = AtLog -> w_old (foldl append w ops) = w_old w.
Proof.
  revert w. induction ops as [|o ops IH]; intros w Hh; [done|]. cbn [foldl]. rewrite IH.
  - unfold append, on_handle. by rewrite Hh.
  - unfold append, on_handle. by rewrite Hh.
Qed.

Lemma covers_run sys st' ops :
  covers sys -> logged_run (sys_store sys) st' ops -> covers (mkSystem st' (sys_snapshot sys)).
Proof.
  intros (w & snap & l0 & opsA & opsB & Hu & Hw & Hsn & Hkn & Hold & Hlog & Hf & HA & HB
    & Hwf & Habs) Hrun.
  pose proof (logged_run_wf _ _ _ Hwf Hrun) as Hwf'. destruct Hrun as [I W C R].
  destruct (wf_abs_exec _ _ Hwf (store_run_genuine _ _ R)) as [_ Ha].
  rewrite Habs in W, R, Ha. rewrite Hw in W. simpl in W.
  eexists _, snap, l0, opsA, (opsB ++ ops). cbn [sys_store sys_snapshot]. rewrite C.
  split_and!; [apply Hu..|exact W|done|done| | |done|done| |done|].
  - unfold old_data. rewrite append_all_old by apply Hlog. exact Hold.
  - rewrite journal_app, fmap_app. by apply log_holds_append_all.
  - apply store_run_app. done.
  - by rewrite I, Ha, abstract_exec_all_app.
Qed.

(** ** Commits and checkpoints *)

Lemma log_holds_sync w ops d :
  log_holds w ops ->
  log_holds (set_dirty d (on_handle seg_sync w)) ops
  /\ w_old (set_dirty d (on_handle seg_sync w)) = w_old w.
Proof.
  intros [Hh (s & Hs & Hd & Hle)]. unfold log_holds, on_handle. rewrite Hh. simpl. rewrite Hs.
  split; [|done]. split; [done|]. eexists. split; [done|]. simpl. auto.
Qed.

Lemma log_holds_dirty w ops d : log_holds w ops -> log_holds (set_dirty d w) ops.
Proof. done. Qed.

Lemma group_commit_keeps fl w ops :
  log_holds w ops ->
  log_holds (group_commit fl w).1 ops /\ w_old (group_commit fl w).1 = w_old w.
Proof.
  intros Hw. unfold group_commit. case_match; [done|]. case_match; [done|].
  replace (on_handle seg_sync (set_dirty false w)) with (set_dirty false (on_handle seg_sync w)).
  - by apply log_holds_sync.
  - unfold on_handle. simpl. by destruct (w_handle w).
Qed.

Lemma flush_keeps fl w ops :
  log_holds w ops -> log_holds (flush fl w).1 ops /\ w_old (flush fl w).1 = w_old w.
Proof. intros Hw. unfold flush. case_match; [done|]. by apply log_holds_sync. Qed.

Lemma rotate_log w ops :
  log_holds w ops -> exists s, w_log w = Some s /\ seg_data s = encode_all ops
  /\ rotate no_faults w = (mkWal (Some seg_empty) (Some (seg_sync s)) AtLog false 0, Ok tt).
Proof.
  intros [Hh (s & Hs & Hd & _)]. exists s. split_and!; [done|done|].
  unfold rotate, rename_log, on_handle. simpl. by rewrite Hh, Hs.
Qed.

(** The log may be replaced by one with the same contents. *)
Lemma covers_wal sys w w' :
  covers sys -> st_wal (sys_store sys) = Some w ->
  (forall ops, log_holds w ops -> log_holds w' ops) -> w_old w' = w_old w ->
  covers (set_wal w' sys).
Proof.
  intros (w0 & snap & l0 & opsA & opsB & Hu & Hw0 & Hsn & Hkn & Hold & Hlog & Hrest) Hw Hl Ho.
  rewrite Hw in Hw0. injection Hw0 as <-.
  exists w', snap, l0, opsA, opsB. cbn [set_wal sys_store sys_snapshot with_wal st_config st_wal st_index].
  destruct Hrest as (? & ? & ? & ? & ?).
  split_and!; [apply Hu..|done|done|done| |by apply Hl|done|done|done|done|done].
  unfold old_data. rewrite Ho. exact Hold.
Qed.

Context (iteration_order : list Event -> list Event)
  (iteration_order_perm : forall l, iteration_order l ≡ₚ l).

Lemma elem_iter_all ix e :
  aok catalog (abs ix) -> e ∈ iter_all ix <-> holds (abs ix) e.
Proof.
  intros Hok. unfold iter_all, holds. split.
  - intros ([i x] & -> & Hx%elem_of_map_to_list)%list_elem_of_fmap. simpl.
    by destruct (ao_known catalog _ Hok i x Hx) as [-> _].
  - intros He. apply list_elem_of_fmap. exists (ev_id e, e). split; [done|].
    by apply elem_of_map_to_list.
Qed.

(** The system's events, as a snapshot lists them. *)
Definition snapshot_list (sys : System) : list Event :=
  iteration_order (iter_all (st_index (sys_store sys))).

Lemma snapshot_list_holds sys :
  aok catalog (abs (st_index (sys_store sys))) ->
  forall e, e ∈ snapshot_list sys <-> holds (abs (st_index (sys_store sys))) e.
Proof.
  intros Hok e. unfold snapshot_list. rewrite iteration_order_perm. by apply elem_iter_all.
Qed.

Lemma covers_aok sys : covers sys -> aok catalog (abs (st_index (sys_store sys))).
Proof.
  intros (w & snap & l0 & opsA & opsB & _ & _ & _ & _ & _ & _ & Hf & HA & HB & _ & ->).
  apply aok_run; [|done]. apply aok_run; [|done]. apply Hf.
Qed.

Lemma snapshot_list_known sys :
  aok catalog (abs (st_index (sys_store sys))) -> Forall (known catalog) (snapshot_list sys).
Proof.
  intros Hok. apply Forall_forall. intros e He%snapshot_list_holds; [|done].
  by eapply holds_known.
Qed.

(** A snapshot of the live state with empty segments covers it. *)
Lemma covers_fresh sys w :
  unlimited (st_config (sys_store sys)) -> st_wal (sys_store sys) = Some w ->
  default [] (sys_snapshot sys) = snapshot_bytes (snapshot_list sys) ->
  old_data w = [] -> log_holds w [] ->
  wf_index catalog_core (st_index (sys_store sys)) ->
  aok catalog (abs (st_index (sys_store sys))) -> covers sys.
Proof.
  intros Hu Hw Hsn Hold Hlog Hwf Hok.
  exists w, (snapshot_list sys), (abs (st_index (sys_store sys))), [], [].
  split_and!; [apply Hu..|done|done|by apply snapshot_list_known|done|done| |done|done|done|done].
  apply follows_snapshot; [done|done|]. by apply snapshot_list_holds.
Qed.

(** The disk after the first [n] steps of a checkpoint: rotate the log, write the
    snapshot, remove the rotated segment. *)
Definition checkpoint_steps (n : nat) (sys : System) : System :=
  match st_wal (sys_store sys) with
  | None => sys
  | Some wal =>
      let wal1 := (rotate no_faults wal).1 in
      let sys1 := set_wal wal1 sys in
      let sys2 := (write_snapshot iteration_order no_faults sys1).1 in
      match n with
      | 0 => sys
      | 1 => sys1
      | 2 => sys2
      | _ => set_wal (remove_old wal1) sys2
      end
  end.

(** Between operations there is no rotated segment. *)
Definition settled (sys : System) : Prop :=
  covers sys /\ exists w, st_wal (sys_store sys) = Some w /\ w_old w = None.

Lemma settled_unlimited sys : settled sys -> unlimited (st_config (sys_store sys)).
Proof. intros [(w & snap & l0 & opsA & opsB & Hu & _) _]. exact Hu. Qed.

Lemma checkpoint_is_steps sys :
  settled sys -> (checkpoint iteration_order no_faults no_faults sys).1 = checkpoint_steps 3 sys.
Proof.
  intros Hset. destruct (settled_unlimited sys Hset) as ((p & Hp) & _).
  destruct Hset as [(w & snap & l0 & opsA & opsB & _ & Hw & _ & _ & _ & Hlog & _) _].
  destruct (rotate_log w _ Hlog) as (s & _ & _ & Hrot).
  unfold checkpoint, checkpoint_steps. rewrite Hp, Hw. cbn [fail_mkdir no_faults]. by rewrite Hrot.
Qed.

(** A settled system's log is the journal of a run from the snapshot's state. *)
Lemma settled_log sys w :
  settled sys -> st_wal (sys_store sys) = Some w ->
  exists snap lm opsB,
    default [] (sys_snapshot sys) = snapshot_bytes snap /\ Forall (known catalog) snap
    /\ log_holds w (wal_op <$> journal lm opsB)
    /\ follows catalog lm lm (loaded snap) /\ store_run catalog lm opsB
    /\ wf_index catalog_core (st_index (sys_store sys))
    /\ abs (st_index (sys_store sys)) = (Abstract.exec_all lm opsB).1.
Proof.
  intros [(w0 & snap & l0 & opsA & opsB & Hu & Hw0 & Hsn & Hkn & Hold & Hlog & Hf
    & HA & HB & Hwf & Habs) (w1 & Hw1 & Hnone)] Hw.
  rewrite Hw in Hw0, Hw1. injection Hw0 as <-. injection Hw1 as <-.
  assert (journal l0 opsA = []) as HjA.
  { unfold old_data in Hold. rewrite Hnone in Hold.
    pose proof (length_encode_all (wal_op <$> journal l0 opsA)) as Hle.
    rewrite <- Hold, length_fmap in Hle. by destruct (journal l0 opsA); [|simpl in *; lia]. }
  exists snap, (Abstract.exec_all l0 opsA).1, opsB. split_and!; try done.
  pose proof (follows_run catalog _ opsA l0 _ Hf HA) as Hf1. by rewrite HjA in Hf1.
Qed.

(** Crash safety: every stage of a checkpoint covers the live state. *)
Lemma checkpoint_steps_cover n sys : settled sys -> covers (checkpoint_steps n sys).
Proof.
  intros Hset. pose proof (settled_unlimited sys Hset) as Hu.
  pose proof (covers_aok sys (proj1 Hset)) as Hok.
  pose proof Hset as [Hcov (w & Hw & Hnone)].
  destruct (settled_log sys w Hset Hw) as (snap & lm & opsB & Hsn & Hkn & Hlog & Hf & HB & Hwf & Habs).
  unfold checkpoint_steps. rewrite Hw.
  destruct (rotate_log w _ Hlog) as (s & Hs & Hd & ->). cbn [fst].
  assert (Hempty : log_holds (mkWal (Some seg_empty) (Some (seg_sync s)) AtLog false 0) []).
  { split; [done|]. by exists seg_empty. }
  destruct n as [|[|[|n]]]; [done| | |].
  - eexists _, snap, lm, opsB, []. cbn [set_wal sys_store sys_snapshot with_wal st_config st_wal st_index].
    split_and!; [apply Hu..|done|done|done|done|done| |done|done|done|done].
    by apply follows_any.
  - eexists _, (snapshot_list sys), lm, opsB, [].
    cbn [write_snapshot no_faults fail_open fail_write fail_sync fail_rename orb fst
      set_wal sys_store sys_snapshot with_wal st_config st_wal st_index default].
    split_and!; [apply Hu..|done|done|by apply snapshot_list_known|done|done| |done|done|done|done].
    rewrite <- Habs. apply follows_snapshot; [apply Hf|done|]. by apply snapshot_list_holds.
  - eapply covers_fresh; [exact Hu|done|done|done| |done|done].
    split; [done|]. by exists seg_empty.
Qed.

Lemma checkpoint_settled sys :
  settled sys -> settled (checkpoint iteration_order no_faults no_faults sys).1.
Proof.
  intros Hset. rewrite checkpoint_is_steps by done. split; [by apply checkpoint_steps_cover|].
  destruct Hset as [_ (w & Hw & _)]. unfold checkpoint_steps. rewrite Hw. by eexists.
Qed.

Lemma settled_wal sys w w' :
  settled sys -> st_wal (sys_store sys) = Some w ->
  (forall ops, log_holds w ops -> log_holds w' ops) -> w_old w' = w_old w ->
  settled (set_wal w' sys).
Proof.
  intros [Hcov (w1 & Hw1 & Hnone)] Hw Hl Ho. rewrite Hw in Hw1. injection Hw1 as <-.
  split; [by eapply covers_wal|]. exists w'. split; [done|]. congruence.
Qed.

Lemma maybe_checkpoint_settled sys :
  settled sys -> settled (maybe_checkpoint iteration_order no_faults no_faults sys).1.
Proof.
  intros Hset. pose proof Hset as [_ (w & Hw & _)]. unfold maybe_checkpoint. rewrite Hw.
  case_match; [by apply checkpoint_settled|].
  destruct (group_commit no_faults w) as [w' r] eqn:Hg.
  replace w' with (group_commit no_faults w).1 by by rewrite Hg.
  apply (settled_wal sys w); [done|done| |].
  - intros ops Hl. by apply group_commit_keeps.
  - pose proof (settled_log sys w Hset Hw) as (? & ? & ? & _ & _ & Hl & _).
    by apply (group_commit_keeps no_faults w _ Hl).
Qed.

Lemma run_settled sys st' ops :
  settled sys -> logged_run (sys_store sys) st' ops -> settled (mkSystem st' (sys_snapshot sys)).
Proof.
  intros Hset Hrun. pose proof Hset as [Hcov (w & Hw & Hnone)].
  split; [by eapply covers_run|]. pose proof (lr_wal _ _ _ Hrun) as Hw'. rewrite Hw in Hw'.
  simpl in Hw'. eexists. split; [exact Hw'|].
  pose proof (settled_log sys w Hset Hw) as (? & ? & ? & _ & _ & [Hh _] & _).
  by rewrite append_all_old.
Qed.

Lemma iteration_order_nil : iteration_order [] = [].
Proof. apply Permutation_nil. symmetry. apply iteration_order_perm. Qed.

(** A restart without faults ends in a settled system again. *)
Lemma restart_settled sys :
  covers sys ->
  exists sys' n, restart iteration_order no_faults no_faults sys = Ret (sys', n)
  /\ settled sys' /\ by_id (st_index (sys_store sys')) = by_id (st_index (sys_store sys)).
Proof.
  intros Hcov. pose proof Hcov as (_ & _ & _ & _ & _ & Hu & _).
  destruct (restart_covered iteration_order no_faults no_faults sys Hcov)
    as (w & s & ix & n & Hw & Hs & Hle & -> & Hwf & Hok & Hby & (ops & Hops) & Hzero).
  eexists _, _. split; [done|]. cbv zeta. cbn [loaded_system fail_remove no_faults].
  set (sys1 := loaded_system no_faults sys w s ix).
  assert (Hlog : log_holds (remove_old (reopened w s)) (wal_op <$> ops)).
  { split; [done|]. by exists s. }
  destruct (Z.gtb_spec n 0) as [Hn|Hn].
  - rewrite (proj1 (checkpoint_index _ _ _ _)). split; [|done].
    destruct Hu as ((p & Hp) & Hu). destruct (rotate_log _ _ Hlog) as (s' & _ & _ & Hrot).
    unfold checkpoint. cbn [sys1 loaded_system sys_store st_config with_index with_wal
      reopened_store st_wal fail_remove no_faults fail_mkdir].
    rewrite Hp, Hrot. split; [|by eexists].
    eapply covers_fresh; [by split; [eexists|]|done|done|done| |done|done].
    split; [done|]. by exists seg_empty.
  - destruct (Hzero Hn) as (Hdata & Hsnap & Hemp). split; [|done]. split; [|by eexists].
    eapply covers_fresh; [exact Hu|done| |done| |done|done].
    + cbn [sys_snapshot sys1 loaded_system]. rewrite Hsnap. unfold snapshot_list, iter_all.
      cbn [sys_store st_index sys1 loaded_system with_index]. rewrite Hemp, map_to_list_empty.
      cbn. by rewrite iteration_order_nil.
    + split; [done|]. exists s. split_and!; done.
Qed.

(** * Runs of the whole system *)

(** What happens to a running relay: an insert, a deletion request, a
    maintenance tick, a forced checkpoint, or a crash [n] steps into a checkpoint
    followed by a restart. *)
Inductive action :=
| ActInsert (e : Event)
| ActDelete (ids : list bytes) (coords : list Coordinate) (author : bytes) (until : Z)
| ActMaintain
| ActCheckpoint
| ActCrash (n : nat).

Definition on_store (f : EventStore -> EventStore) (sys : System) : System :=
  mkSystem (f (sys_store sys)) (sys_snapshot sys).

Definition act (m : panicky System) (a : action) : panicky System :=
  let! sys := m in
  match a with
  | ActInsert e => Ret (on_store (fun st => (store_insert st e).1) sys)
  | ActDelete ids coords author until =>
      Ret (on_store (fun st => (apply_deletion st ids coords author until).1) sys)
  | ActMaintain => Ret (maybe_checkpoint iteration_order no_faults no_faults sys).1
  | ActCheckpoint => Ret (checkpoint iteration_order no_faults no_faults sys).1
  | ActCrash n =>
      let! r := restart iteration_order no_faults no_faults (checkpoint_steps n sys) in
      Ret r.1
  end.

Definition action_known (a : action) : Prop :=
  match a with ActInsert e => known catalog e | _ => True end.

(** A first start on an empty data directory. *)
Definition first_start (path : str) (rss : Z) : System :=
  mkSystem (store_new no_faults (mkConfig 0 (Some path) true) None None rss) None.

Lemma first_start_settled path rss : settled (first_start path rss).
Proof.
  split; [|by eexists].
  eapply covers_fresh; [|done| |done|apply log_holds_open|apply wf_index_new|apply aok_init].
  - split_and!; [by eexists|done|done].
  - change (snapshot_list (first_start path rss)) with (iteration_order []).
    by rewrite iteration_order_nil.
Qed.

Lemma settled_wf sys : settled sys -> wf_index catalog_core (st_index (sys_store sys)).
Proof.
  intros Hset. pose proof Hset as [_ (w & Hw & _)].
  by destruct (settled_log sys w Hset Hw) as (? & ? & ? & _ & _ & _ & _ & _ & ? & _).
Qed.

Lemma act_settled sys a :
  settled sys -> action_known a -> exists sys', act (Ret sys) a = Ret sys' /\ settled sys'.
Proof.
  intros Hset Ha. destruct a as [e|ids coords author until| | |n]; cbn [act panicky_bind].
  - eexists. split; [done|]. destruct (insert_logged_run (sys_store sys) e) as [ops Hrun];
      [by apply settled_wf|done|]. by eapply run_settled.
  - eexists. split; [done|].
    destruct (deletion_logged_run (sys_store sys) ids coords author until) as [ops Hrun];
      [by apply settled_wf|]. by eapply run_settled.
  - eexists. split; [done|]. by apply maybe_checkpoint_settled.
  - eexists. split; [done|]. by apply checkpoint_settled.
  - destruct (restart_settled (checkpoint_steps n sys)) as (sys' & k & -> & Hs & _);
      [by apply checkpoint_steps_cover|]. by eexists.
Qed.

Lemma act_panic acts : foldl act Panic acts = Panic.
Proof. induction acts as [|a acts IH]; [done|]. exact IH. Qed.

Lemma acts_settled sys acts :
  settled sys -> Forall action_known acts ->
  exists sys', foldl act (Ret sys) acts = Ret sys' /\ settled sys'.
Proof.
  intros Hset Hk. revert sys Hset. induction Hk as [|a acts Ha Hk IH]; intros sys Hset.
  { by exists sys. }
  destruct (act_settled sys a Hset Ha) as (sys1 & H1 & Hset1). cbn [foldl]. rewrite H1.
  by apply IH.
Qed.

Lemma checkpoint_steps_index n sys :
  st_index (sys_store (checkpoint_steps n sys)) = st_index (sys_store sys).
Proof. unfold checkpoint_steps. repeat case_match; done. Qed.

(** C1: crash safety of the persistence, in a life whose file operations all succeed
    and without a memory limit, for events whose id determines their text, on one
    line and at most 16 MiB long: start on an empty directory and let any sequence of
    inserts, deletion requests, maintenance ticks, checkpoints and crash-restarts
    happen, one after the other; if the process then crashes, before, during (after the
    rotation, or after the snapshot) or after a checkpoint, a restart that can read
    its files succeeds and holds exactly the events that were in memory: nothing
    acknowledged is lost and nothing replaced or deleted comes back.
    ([failed_checkpoint_loses_segment], [line_break_lost_by_snapshot],
    [recovery_drops_segment_too_early] and [unread_segment_removed] show what each
    of the conditions keeps out.) *)
Theorem crash_recovers_events path rss acts n :
  Forall action_known acts ->
  exists sys sys' k,
    foldl act (Ret (first_start path rss)) acts = Ret sys
    /\ restart iteration_order no_faults no_faults (checkpoint_steps n sys) = Ret (sys', k)
    /\ by_id (st_index (sys_store sys')) = by_id (st_index (sys_store sys)).
Proof.
  intros Hk. destruct (acts_settled _ acts (first_start_settled path rss) Hk) as (sys & Hrun & Hset).
  destruct (restart_recovers iteration_order no_faults no_faults (checkpoint_steps n sys))
    as (sys' & k & Hr & Hby); [by apply checkpoint_steps_cover|].
  exists sys, sys', k. rewrite checkpoint_steps_index in Hby. done.
Qed.
End Replaying.

(** * Closed runs *)

Definition sample_catalog (id : bytes) : option Event :=
  if bool_decide (id = key32 1) then Some sample_event else None.

Lemma sample_catalog_storable e : known sample_catalog e -> storable e.
Proof.
  unfold known, sample_catalog. case_bool_decide; [|done]. intros [= <-].
  split; [done|vm_compute; reflexivity|vm_compute; congruence|].
  split_and!; [done| |vm_compute; congruence|vm_compute; reflexivity].
  apply (bool_decide_eq_false (newline ∈ sample_json)). vm_compute. reflexivity.
Qed.

Definition keep_order (l : list Event) : list Event := l.

Lemma crash_recovers_events_witness :
  exists sys sys' k,
    foldl (act keep_order) (Ret (first_start (lit "/data") 0))
      [ActInsert sample_event; ActCheckpoint; ActCrash 1] = Ret sys
    /\ restart keep_order no_faults no_faults (checkpoint_steps keep_order 2 sys) = Ret (sys', k)
    /\ by_id (st_index (sys_store sys')) = by_id (st_index (sys_store sys)).
Proof.
  apply (crash_recovers_events sample_catalog sample_catalog_storable keep_order).
  - intros l. reflexivity.
  - repeat constructor.
Defined.

(** The delete request of the sample event's author. *)
Definition sample_delete : action := ActDelete [key32 1] [] (key32 2) 2000.

Definition run_system (acts : list action) : panicky System :=
  foldl (act keep_order) (Ret (first_start (lit "/data") 0)) acts.

(** What a system answers about the sample event: stored, tombstoned, and whether
    offering it again stores it. *)
Definition probe (m : panicky System) : option (bool * bool * bool) :=
  match m with
  | Ret sys =>
      let st := sys_store sys in
      Some (store_contains st (key32 1), is_tombstoned (st_index st) (key32 1),
            match (store_insert st sample_event).2 with IRStored _ _ => true | _ => false end)
  | Panic => None
  end.

(** Tombstones are not durable: a deleted event is refused while the process
    lives and after a first restart, which replays the tombstone record; but every
    checkpoint (and each restart makes one) writes the live events only and drops
    the log, so that after a second restart, or a checkpoint and a restart, the
    tombstone is gone and the deleted event is accepted and stored again. *)
Theorem checkpoint_forgets_tombstones :
  probe (run_system [ActInsert sample_event; sample_delete]) = Some (false, true, false)
  /\ probe (run_system [ActInsert sample_event; sample_delete; ActCrash 0])
     = Some (false, true, false)
  /\ probe (run_system [ActInsert sample_event; sample_delete; ActCrash 0; ActCrash 0])
     = Some (false, false, true)
  /\ probe (run_system [ActInsert sample_event; sample_delete; ActCheckpoint; ActCrash 0])
     = Some (false, false, true).
Proof. vm_compute. split_and!; reflexivity. Qed.

Definition snapshot_fails : Faults := mkFaults false false false false true false.
Definition sync_fails : Faults := mkFaults false false true false false false.

(** Is the sample event stored after a restart? *)
Definition survives (flr fls : Faults) (sys : System) : option (System * bool) :=
  match restart keep_order flr fls sys with
  | Ret (sys', _) => Some (sys', store_contains (sys_store sys') (key32 1))
  | Panic => None
  end.

(** A checkpoint that fails after the rotation is not recovered from by the
    next one: when the snapshot cannot be written, the events are in
    [wal.log.old]; the next checkpoint renames the new log over that segment, and
    a crash before its snapshot is complete loses them, although they were logged
    and synced. *)
Theorem failed_checkpoint_loses_segment :
  match run_system [ActInsert sample_event] with
  | Panic => False
  | Ret sys =>
      let '(sys1, r1) := checkpoint keep_order no_faults snapshot_fails sys in
      let sys2 := checkpoint_steps keep_order 1 sys1 in
      r1 = Err IoFailure
      /\ snd <$> survives no_faults no_faults sys1 = Some true
      /\ snd <$> survives no_faults no_faults sys2 = Some false
      /\ store_contains (sys_store sys2) (key32 1) = true
  end.
Proof. vm_compute. split_and!; reflexivity. Qed.

(** Recovery itself is not crash safe: [load_from_disk] removes
    [wal.log.old] as soon as it has been replayed, before its own checkpoint has
    written a snapshot. After a crash in the middle of a checkpoint, a restart
    whose checkpoint fails (or that crashes before it) holds the events in memory,
    but they are no longer on disk: the next restart comes up without them. *)
Theorem recovery_drops_segment_too_early :
  match run_system [ActInsert sample_event] with
  | Panic => False
  | Ret sys =>
      match survives sync_fails no_faults (checkpoint_steps keep_order 1 sys) with
      | None => False
      | Some (sys1, stored) =>
          stored = true
          /\ snd <$> survives no_faults no_faults sys1 = Some false
      end
  end.
Proof. vm_compute. split_and!; reflexivity. Qed.

(** A rotated segment that cannot be read is removed all the same: the failed replay
    is only warned about, and the events that a crashed checkpoint has left in
    [wal.log.old] alone are gone for every later restart, which could have read
    them. *)
Theorem unread_segment_removed :
  match run_system [ActInsert sample_event] with
  | Panic => False
  | Ret sys =>
      let sys1 := checkpoint_steps keep_order 1 sys in
      let reopened := store_new no_faults (st_config (sys_store sys1))
        (st_wal (sys_store sys1) ≫= w_log) (st_wal (sys_store sys1) ≫= w_old) 0 in
      match load_from_disk keep_order (mkReads ReadAll NotOpened ReadAll) no_faults no_faults
              (mkSystem reopened (sys_snapshot sys1)) with
      | Panic => False
      | Ret (sys2, _) =>
          snd <$> survives no_faults no_faults sys1 = Some true
          /\ snd <$> survives no_faults no_faults sys2 = Some false
      end
  end.
Proof. vm_compute. split_and!; reflexivity. Qed.

(** The sample event as a client may send it, with a line break between two
    fields of its JSON. *)
Definition pretty_json : bytes := as_bytes (lit "{pretty") ++ [10%Z] ++ as_bytes (lit "sample}").

Definition pretty_crates : EventCrates := {|
  serde_error := unit;
  serde_from_slice json :=
    if bool_decide (json = pretty_json) then Ok sample_raw else Err tt;
  serde_to_vec zero pk at_ kind tags content := Ok [zero; at_; kind];
  sha256_digest v := key32 1;
  XOnlyPublicKey := bytes;
  xonly_from_byte_array pk := Some pk;
  verify_schnorr sig id pk := bool_decide (length sig = 64);
|}.

(** The snapshot is line based, but the JSON of an event is stored as the
    client sent it: an accepted event whose text contains a line break is replayed
    from the log, but is split over two lines by the checkpoint, neither of which
    parses, so that it is lost at the second restart. *)
Theorem line_break_lost_by_snapshot :
  let crates := pretty_crates in
  let reload := fun sys => match restart keep_order no_faults no_faults sys with
                | Ret (sys', _) => Some sys' | Panic => None end in
  let stored := fun sys => store_contains (sys_store sys) (key32 1) in
  match from_json pretty_json with
  | Err _ => False
  | Ok e =>
      let sys0 := on_store (fun st => (store_insert st e).1) (first_start (lit "/data") 0) in
      let sys1 := reload sys0 in
      stored sys0 = true /\ stored <$> sys1 = Some true
      /\ stored <$> (sys1 ≫= reload) = Some false
  end.
Proof. vm_compute. split_and!; reflexivity. Qed.
