(* ===== verification/Writers.v ===== *)
(** [src/src/store/mod.rs] under concurrency: [EventStore::insert], the deletion of
    one event and [EventStore::checkpoint] as threads over one store.

    Connections insert and delete while the persistence task takes checkpoints, and
    no lock spans an index operation and the log append that belongs to it. Here an
    [insert] is three accesses (the index, the insert record, the delete record of
    what it replaced), a deletion two (the tombstone record, the index) and a
    checkpoint a rotation, a scan, the renaming of the snapshot and the removal of
    the rotated segment. The append and the rotation hold the lock of the log's
    writer, so each is one access. The scan iterates over [by_id], a [DashMap], one
    locked shard after the other, and sees each shard in another state; the number
    of shards and the shard of an id are parameters. An operation of the index is
    one access ([Threads.v] cuts those). *)
From S2P Require Import Prelude Collections Event Reference Deletion Tombstones Index IndexInv IndexSpec IndexQuery Wal Store Recovery Journal Durability.
Open Scope memlay_scope.

(** * Lists gathered piece by piece *)

Section Pieces.
Context {A B : Type}.
Implicit Types (l : list A) (f g : A -> list B).

Lemma bind_perm_ext l f g : (forall x, f x ≡ₚ g x) -> (l ≫= f) ≡ₚ (l ≫= g).
Proof.
  intros Hfg. induction l as [|x l IH]; [done|]. cbn [mbind list_bind]. by rewrite Hfg, IH.
Qed.

Lemma bind_split l f g : (l ≫= fun x => f x ++ g x) ≡ₚ (l ≫= f) ++ (l ≫= g).
Proof.
  induction l as [|x l IH]; [done|]. cbn [mbind list_bind] in *. rewrite IH.
  rewrite <- !app_assoc. apply Permutation_app_head. rewrite !app_assoc.
  apply Permutation_app_tail, Permutation_app_comm.
Qed.
End Pieces.

Lemma bind_once {B} n i (y : B) :
  i < n -> (seq 0 n ≫= fun k => if Nat.eqb i k then [y] else []) = [y].
Proof.
  intros Hi. replace n with (i + S (n - S i)) by lia. rewrite seq_app. cbn [Nat.add seq].
  rewrite bind_app. cbn [mbind list_bind]. rewrite Nat.eqb_refl.
  assert (forall a m, (forall k, a <= k < a + m -> k <> i) ->
    (seq a m ≫= fun k => if Nat.eqb i k then [y] else []) = []) as Hno.
  { intros a m. revert a. induction m as [|m IH]; intros a Hk; [done|].
    cbn [seq mbind list_bind]. rewrite (proj2 (Nat.eqb_neq i a)) by (specialize (Hk a); lia).
    apply IH. intros k Hr. apply Hk. lia. }
  pose proof (Hno 0 i) as H1. pose proof (Hno (S i) (n - S i)) as H2.
  unfold mbind in *. rewrite H1 by lia. by rewrite H2 by lia.
Qed.

(** * Threads *)

(** Where a thread is inside [insert] ([W..]) or the deletion of an event ([D..]). *)
Inductive task :=
| WStart (e : Event)
| WLog (e : Event) (replaced : option Event)
| WLogDelete (e old : Event)
| DRecord (id : bytes)
| DDelete (id : bytes)
| WDone (result : InsertResult)
| DDone (removed : option Event).

(** Where the persistence task is inside [checkpoint]. *)
Inductive saving :=
| CIdle
| CScan (next : nat) (seen : list Event)
| CClean.

Section Writers.
Context `{HexCrate, EventCrates}.
Context (shards : nat) (shard : bytes -> nat) (shard_order : list Event -> list Event).

(** A record appended to the store's log, if it has one. *)
Definition logging (op : WalOp) (st : EventStore) : EventStore :=
  with_wal ((fun w => append w op) <$> st_wal st) st.

(** One access of a thread to the store. *)
Definition task_step (st : EventStore) (t : task) : option (EventStore * task) :=
  match t with
  | WStart e =>
      if is_ephemeral e then Some (st, WDone IREphemeral) else
      let '(ix, outcome) := index_insert (st_index st) e in
      Some (with_index ix st,
            match outcome with
            | Duplicate | LostRace => WDone IRDuplicate
            | Deleted => WDone IRDeleted
            | Inserted replaced => WLog e replaced
            end)
  | WLog e replaced =>
      Some (logging (WInsert (ev_raw e)) st,
            match replaced with
            | Some old => WLogDelete e old
            | None => WDone (IRStored e [])
            end)
  | WLogDelete e old => Some (logging (WDelete (ev_id old)) st, WDone (IRStored e [old]))
  | DRecord id => Some (record_deletion st id, DDelete id)
  | DDelete id =>
      let '(ix, removed) := delete_by_id (st_index st) id in
      Some (with_index ix st, DDone removed)
  | WDone _ | DDone _ => None
  end.

(** The events of one shard of [by_id]. *)
Definition in_shard (k : nat) (st : EventStore) : list Event :=
  shard_order (snd <$> List.filter (fun p => Nat.eqb (shard p.1) k)
                         (map_to_list (by_id (st_index st)))).

(** One access of the checkpoint. It starts with the rotation; a snapshot whose
    shards have all been scanned replaces the one on disk; the rotated segment is
    removed last. *)
Definition save_step (sys : System) (c : saving) : option (System * saving) :=
  match c with
  | CIdle =>
      wal ← st_wal (sys_store sys);
      match rotate no_faults wal with
      | (wal', Ok _) => Some (set_wal wal' sys, CScan 0 [])
      | (wal', Err _) => Some (set_wal wal' sys, CIdle)
      end
  | CScan k seen =>
      if k <? shards
      then Some (sys, CScan (S k) (seen ++ in_shard k (sys_store sys)))
      else Some (mkSystem (sys_store sys) (Some (snapshot_bytes seen)), CClean)
  | CClean =>
      wal ← st_wal (sys_store sys);
      Some (set_wal (remove_old wal) sys, CIdle)
  end.

(** The store on its directory, the threads working on it and the persistence
    task. *)
Record Shared := mkShared {
  sh_sys : System;
  sh_tasks : list task;
  sh_saving : saving;
}.

(** What can happen: a thread takes its next access, the persistence task takes
    its next access (or begins a checkpoint), a new call is made. *)
Inductive move :=
| MTask (i : nat)
| MSave
| MInsert (e : Event)
| MDelete (id : bytes).

Definition shared_step (w : Shared) (m : move) : option Shared :=
  match m with
  | MTask i =>
      t ← sh_tasks w !! i;
      '(st, t') ← task_step (sys_store (sh_sys w)) t;
      Some (mkShared (mkSystem st (sys_snapshot (sh_sys w))) (<[i := t']> (sh_tasks w))
              (sh_saving w))
  | MSave =>
      '(sys, c) ← save_step (sh_sys w) (sh_saving w);
      Some (mkShared sys (sh_tasks w) c)
  | MInsert e => Some (mkShared (sh_sys w) (sh_tasks w ++ [WStart e]) (sh_saving w))
  | MDelete id => Some (mkShared (sh_sys w) (sh_tasks w ++ [DRecord id]) (sh_saving w))
  end.

Definition run_moves (w : Shared) (ms : list move) : option Shared :=
  foldl (fun w m => w ← w; shared_step w m) (Some w) ms.

(** * Alone, the accesses are the methods of [Store.v] and [Recovery.v] *)

Fixpoint run_task (fuel : nat) (st : EventStore) (t : task) : EventStore * task :=
  match fuel with
  | O => (st, t)
  | S fuel =>
      match task_step st t with
      | Some (st', t') => run_task fuel st' t'
      | None => (st, t)
      end
  end.

Fixpoint run_saving (fuel : nat) (sys : System) (c : saving) : System * saving :=
  match fuel with
  | O => (sys, c)
  | S fuel =>
      match save_step sys c with
      | Some (sys', c') => run_saving fuel sys' c'
      | None => (sys, c)
      end
  end.

Lemma insert_alone st e :
  run_task 3 st (WStart e)
  = ((store_insert st e).1, WDone (store_insert st e).2).
Proof.
  unfold store_insert. cbn [run_task task_step]. destruct (is_ephemeral e); [done|].
  destruct (index_insert (st_index st) e) as [ix out].
  destruct out as [[old|]| | |]; cbn [run_task task_step fst snd option_list]; [..|done|done|done];
    unfold logging; cbn [with_index st_wal with_wal]; by destruct (st_wal st).
Qed.

Lemma delete_alone st id o :
  (run_task 2 st (DRecord id)).1 = (delete_recorded (st, o) id).1.
Proof.
  rewrite delete_recorded_eq. cbn [run_task task_step fst].
  change (st_index (record_deletion st id)) with (st_index st).
  by destruct (delete_by_id (st_index st) id).
Qed.

(** The events in the order of the scan. *)
Definition scanned (st : EventStore) : list Event :=
  seq 0 shards ≫= fun k => in_shard k st.

Lemma scan_alone n fuel sys k seen :
  k + n = shards ->
  run_saving (S (n + fuel)) sys (CScan k seen)
  = run_saving fuel
      (mkSystem (sys_store sys)
         (Some (snapshot_bytes (seen ++ (seq k n ≫= fun k => in_shard k (sys_store sys))))))
      CClean.
Proof.
  revert k seen. induction n as [|n IH]; intros k seen Hk.
  - cbn [Nat.add run_saving save_step]. rewrite (proj2 (Nat.ltb_ge k shards)) by lia.
    cbn [seq mbind list_bind]. by rewrite app_nil_r.
  - rewrite Nat.add_succ_l. cbn [run_saving]. unfold save_step at 1.
    rewrite (proj2 (Nat.ltb_lt k shards)) by lia.
    change (run_saving (S (n + fuel)) sys (CScan (S k) (seen ++ in_shard k (sys_store sys))) =
      run_saving fuel (mkSystem (sys_store sys) (Some (snapshot_bytes
        (seen ++ (seq k (S n) ≫= fun k => in_shard k (sys_store sys)))))) CClean).
    rewrite IH by lia. cbn [seq mbind list_bind]. by rewrite app_assoc.
Qed.

Lemma checkpoint_alone order sys wal :
  is_Some (persistence_path (st_config (sys_store sys))) ->
  st_wal (sys_store sys) = Some wal -> (rotate no_faults wal).2 = Ok tt ->
  order (iter_all (st_index (sys_store sys))) = scanned (sys_store sys) ->
  run_saving (S (S (shards + 1))) sys CIdle = ((checkpoint order no_faults no_faults sys).1, CIdle).
Proof.
  intros [path Hp] Hw Hr Ho. unfold checkpoint. rewrite Hp, Hw. cbn [no_faults fail_mkdir].
  change (run_saving (S (S (shards + 1))) sys CIdle) with
    (match save_step sys CIdle with
     | Some (sys', c') => run_saving (S (shards + 1)) sys' c' | None => (sys, CIdle) end).
  unfold save_step. rewrite Hw. cbn [mbind option_bind].
  destruct (rotate no_faults wal) as [wal1 r]. cbn [snd] in Hr. subst r.
  rewrite (scan_alone shards 1) by done. unfold write_snapshot.
  cbn [fail_open fail_write fail_sync fail_rename no_faults orb fail_remove set_wal sys_store
    with_wal st_index sys_snapshot].
  rewrite Ho. done.
Qed.

Lemma scanned_perm st :
  (forall id, shard id < shards) -> (forall l, shard_order l ≡ₚ l) ->
  scanned st ≡ₚ iter_all (st_index st).
Proof.
  intros Hs Ho. unfold scanned, in_shard, iter_all.
  rewrite (bind_perm_ext _ _ (fun k => snd <$> List.filter (fun p => Nat.eqb (shard p.1) k)
    (map_to_list (by_id (st_index st))))) by (intros k; apply Ho).
  induction (map_to_list (by_id (st_index st))) as [|x l IH]; [by induction (seq 0 shards)|].
  rewrite (bind_perm_ext _ _ (fun k => (if Nat.eqb (shard x.1) k then [x.2] else [])
    ++ (snd <$> List.filter (fun p => Nat.eqb (shard p.1) k) l))).
  - rewrite bind_split, IH, (bind_once _ _ _ (Hs x.1)). done.
  - intros k. cbn [List.filter]. by destruct (Nat.eqb (shard x.1) k).
Qed.
End Writers.
