(* ===== verification/WritersProps.v ===== *)
(** What a crash can cost while inserts, deletions and checkpoints run beside each
    other ([Writers.v]): an invariant of every reachable state, recovery from each of
    them, and the runs with a deletion or with two checkpoints in which events come
    back or are lost. *)
From S2P Require Import Prelude Collections Event Reference Deletion Tombstones Index IndexInv IndexSpec IndexQuery Wal Store Recovery Journal Durability Writers.
Open Scope memlay_scope.

Section Safety.
Context `{HexCrate, EventCrates} (catalog : bytes -> option Event).
Hypothesis catalog_storable : forall e, known catalog e -> storable e.
Context (shards : nat) (shard : bytes -> nat) (shard_order : list Event -> list Event).
(** The slots of the events whose deletion is requested in this life. *)
Context (touched : list (ReplacementKey + bytes)).
Hypothesis shard_lt : forall id, shard id < shards.
Hypothesis shard_order_perm : forall l, shard_order l ≡ₚ l.

Abbreviation state := Abstract.state.
Abbreviation dead := Abstract.dead.
Abbreviation supersedes := Abstract.supersedes.
Implicit Types (L s : state) (x m : Event).

(** * Events and what beats them *)

(** [x] is stored, or a stored event of its slot beats it; about the slots that
    deletions touch nothing is said. *)
Definition below L x : Prop :=
  known catalog x /\ (key_of x ∈ touched
    \/ exists m, holds L m /\ key_of m = key_of x /\ (m = x \/ supersedes m x = true)).

(** [id] is an event that a stored event of its slot beats. *)
Definition beaten L (id : bytes) : Prop :=
  exists old, ev_id old = id /\ known catalog old /\ (key_of old ∈ touched
    \/ exists m, holds L m /\ key_of m = key_of old /\ supersedes m old = true).

(** [id] is an event whose deletion is requested. *)
Definition doomed (id : bytes) : Prop :=
  exists x, ev_id x = id /\ known catalog x /\ key_of x ∈ touched.

(** A record of the log that replaying may meet. *)
Definition fits L (o : op) : Prop :=
  match o with
  | OpInsert x => below L x
  | OpRemove id => beaten L id
  | OpReplayTombstone id => doomed id
  | OpDelete _ => False
  end.

(** [L'] has an event at least as good wherever [L] has one. *)
Definition improves L L' : Prop := forall m, holds L m -> below L' m.

Lemma below_here L m : aok catalog L -> holds L m -> below L m.
Proof. intros Hok Hm. split; [by eapply holds_known|]. right. exists m. auto. Qed.

Lemma improves_refl L : aok catalog L -> improves L L.
Proof. intros Hok m. by apply below_here. Qed.

Lemma improves_insert L x :
  aok catalog L -> known catalog x -> improves L (Abstract.insert L x).1.
Proof.
  intros Hok Hx. destruct (decide (ev_id x ∈ dead L)) as [Hd|Hd].
  { rewrite insert_refused by done. by apply improves_refl. }
  destruct (insert_cases catalog L x Hok Hx Hd) as [(Ha & _ & Hh)|(_ & _ & ->)];
    [|by apply improves_refl].
  intros m Hm. split; [by eapply holds_known|]. right.
  destruct (decide (key_of m = key_of x)) as [Hk|Hk].
  - exists x. split_and!; [by apply Hh; left|done|right; by apply Ha].
  - exists m. split_and!; [apply Hh; by right|done|by left].
Qed.

Lemma improves_kill L id : aok catalog L -> doomed id -> improves L (Abstract.kill L id).1.
Proof.
  intros Hok (x & <- & Hx & Ht) m Hm. pose proof (holds_known catalog L m Hok Hm) as Hk. split; [done|].
  destruct (decide (ev_id m = ev_id x)) as [He|Hne].
  - left. by rewrite (known_eq catalog m x Hk Hx He).
  - right. exists m. split_and!; [by apply holds_kill|done|by left].
Qed.

Lemma below_improves L L' x : improves L L' -> below L x -> below L' x.
Proof.
  intros Hi (Hx & [Ht|(m & Hm & Hk & Hor)]); [split; [done|by left]|].
  destruct (Hi m Hm) as (_ & [Ht|(m' & Hm' & Hk' & Hor')]); (split; [done|]); [left; congruence|right].
  exists m'. split_and!; [done|congruence|].
  destruct Hor as [->|Hs], Hor' as [->|Hs']; auto. right. by eapply supersedes_trans.
Qed.

Lemma beaten_improves L L' id : improves L L' -> beaten L id -> beaten L' id.
Proof.
  intros Hi (old & Hid & Hold & [Ht|(m & Hm & Hk & Hs)]); exists old; (split; [done|]); (split; [done|]);
    [by left|].
  destruct (Hi m Hm) as (_ & [Ht|(m' & Hm' & Hk' & Hor)]); [left; congruence|right].
  exists m'. split_and!; [done|congruence|].
  destruct Hor as [->|Hs']; [done|]. by eapply supersedes_trans.
Qed.

Lemma fits_improves L L' o : improves L L' -> fits L o -> fits L' o.
Proof. intros Hi. destruct o; cbn; [by apply below_improves|by apply beaten_improves|done..]. Qed.

(** The event that holds its slot is not beaten. *)
Lemma holder_best L m x :
  aok catalog L -> holds L m -> (key_of m ∉ touched) -> below L x -> key_of x = key_of m ->
  x = m \/ supersedes m x = true.
Proof.
  intros Hok Hm Hu (_ & [Ht|(m' & Hm' & Hk & Hor)]) Hkx; [by rewrite Hkx in Ht|].
  assert (m' = m) as -> by (apply (ao_slot _ _ Hok); [done|done|congruence]). naive_solver.
Qed.

Lemma holder_not_beaten L m :
  aok catalog L -> holds L m -> (key_of m ∉ touched) -> ~ beaten L (ev_id m).
Proof.
  intros Hok Hm Hu (old & Hid & Hold & Hor).
  assert (old = m) as -> by (eapply known_eq; [done|by eapply holds_known|done]).
  destruct Hor as [?|(m' & Hm' & Hk & Hs)]; [done|].
  assert (m' = m) as -> by by apply (ao_slot _ _ Hok).
  by rewrite supersedes_irrefl in Hs.
Qed.

Lemma holder_not_doomed L m :
  aok catalog L -> holds L m -> (key_of m ∉ touched) -> ~ doomed (ev_id m).
Proof.
  intros Hok Hm Hu (x & Hid & Hx & Ht). pose proof (holds_known catalog L m Hok Hm) as Hk.
  by rewrite (known_eq catalog x m Hx Hk Hid) in Ht.
Qed.

(** * Replaying *)

(** [s] holds nothing that [L] does not know better. *)
Record replayed L s : Prop := {
  rp_ok : aok catalog s;
  rp_dead : forall id, id ∈ dead s -> doomed id;
  rp_below : forall x, holds s x -> below L x;
}.

(** Replaying a record that fits keeps that, and keeps the event that holds an
    untouched slot, which its own record stores. *)
Lemma replayed_insert L s x :
  replayed L s -> below L x -> replayed L (Abstract.insert s x).1.
Proof.
  intros [Hok Hd Hb] Hx. pose proof (proj1 Hx) as Hxk.
  destruct (decide (ev_id x ∈ dead s)) as [Hdx|Hnd]; [by rewrite insert_refused|].
  split; [by apply aok_insert|by rewrite insert_dead|].
  destruct (insert_cases catalog s x Hok Hxk Hnd) as [(_ & _ & Hh)|(_ & _ & ->)]; [|done].
  intros y [->|[Hy _]]%Hh; auto.
Qed.

Lemma insert_keeps L m s x :
  aok catalog L -> holds L m -> (key_of m ∉ touched) -> replayed L s -> below L x ->
  holds s m \/ x = m -> holds (Abstract.insert s x).1 m.
Proof.
  intros HL Hm Hu [Hok Hd Hb] Hx Hor. pose proof (proj1 Hx) as Hxk.
  destruct (decide (ev_id x ∈ dead s)) as [Hdx|Hnd].
  { rewrite insert_refused by done. destruct Hor as [?| ->]; [done|].
    by destruct (holder_not_doomed L m HL Hm Hu); apply Hd. }
  destruct (insert_cases catalog s x Hok Hxk Hnd) as [(Ha & _ & Hh)|(Hna & _ & ->)].
  - apply Hh. destruct (decide (key_of m = key_of x)) as [Hk|Hk].
    2: { right. split; [|done]. by destruct Hor as [?| ->]. }
    left. destruct Hor as [Hor| ->]; [|done].
    destruct (holder_best L m x HL Hm Hu Hx (eq_sym Hk)) as [->|Hs]; [done|].
    pose proof (Ha m Hor Hk) as Hs'. pose proof (supersedes_trans _ _ _ Hs Hs') as Hc.
    by rewrite supersedes_irrefl in Hc.
  - destruct Hor as [Hor| ->]; [done|].
    destruct (holds_dec catalog s m Hok Hxk) as [?|Hno]; [done|]. destruct Hna.
    intros y Hy Hk. destruct (holder_best L m y HL Hm Hu (Hb y Hy) Hk) as [->|]; done.
Qed.

Lemma replayed_delete L s id l :
  replayed L s -> (forall i, i ∈ l -> i = id \/ i ∈ dead s) -> (forall i, i ∈ l -> doomed i) ->
  replayed L (Abstract.mkState (delete id (Abstract.events s)) l).
Proof.
  intros [Hok Hd Hb] Hl Hdl. split; [by apply aok_delete|done|].
  intros y Hy. unfold holds in Hy. cbn in Hy. apply lookup_delete_Some in Hy as [_ Hy]. by apply Hb.
Qed.

Lemma replayed_exec L s o : replayed L s -> fits L o -> replayed L (Abstract.exec s o).1.
Proof.
  intros Hs Ho. destruct o as [x|id|id|id]; cbn [fits Abstract.exec] in *; [|..|done|].
  - pose proof (replayed_insert L s x Hs Ho). by destruct (Abstract.insert s x).
  - apply replayed_delete; [done|auto|apply Hs].
  - apply replayed_delete; [done|intros i; apply spec_insert_only|].
    intros i [->|Hi]%spec_insert_only; [done|by apply (rp_dead L s Hs)].
Qed.

Lemma kept_exec L m s o :
  aok catalog L -> holds L m -> (key_of m ∉ touched) -> replayed L s -> fits L o ->
  holds s m \/ o = OpInsert m -> holds (Abstract.exec s o).1 m.
Proof.
  intros HL Hm Hu Hs Ho Hor.
  assert (forall id, holds s m -> ev_id m <> id ->
    Abstract.events s !! ev_id m = Some m /\ id <> ev_id m) as Hne by (intros id Hsm Hid; split; [done|congruence]).
  destruct o as [x|id|id|id]; cbn [fits Abstract.exec] in *; [|..|done|].
  - pose proof (insert_keeps L m s x HL Hm Hu Hs Ho) as Hk. destruct (Abstract.insert s x). apply Hk.
    destruct Hor as [?|[= ->]]; auto.
  - destruct Hor as [Hor|]; [|done]. apply lookup_delete_Some, and_comm, Hne; [done|].
    intros <-. exact (holder_not_beaten L m HL Hm Hu Ho).
  - destruct Hor as [Hor|]; [|done]. apply lookup_delete_Some, and_comm, Hne; [done|].
    intros <-. exact (holder_not_doomed L m HL Hm Hu Ho).
Qed.

Lemma replayed_run L s ops :
  aok catalog L -> replayed L s -> Forall (fits L) ops ->
  replayed L (Abstract.exec_all s ops).1
  /\ forall m, holds L m -> (key_of m ∉ touched) -> holds s m \/ OpInsert m ∈ ops ->
       holds (Abstract.exec_all s ops).1 m.
Proof.
  intros HL Hs Hops. revert s Hs. induction Hops as [|o ops Ho _ IH]; intros s Hs.
  { split; [done|]. intros m _ _ [?|Hn%elem_of_nil]; done. }
  pose proof (replayed_exec L s o Hs Ho) as Hs1. pose proof (fun m H1 H2 => kept_exec L m s o HL H1 H2 Hs Ho) as Hk.
  cbn [Abstract.exec_all]. destruct (Abstract.exec s o) as [s1 a]. cbn [fst] in *.
  destruct (IH s1 Hs1) as [Hr Hm]. destruct (Abstract.exec_all s1 ops) as [s2 l]. split; [done|].
  intros m Hl Hu. rewrite elem_of_cons. intros Hor. apply Hm; [done|done|].
  destruct Hor as [Hor|[Hor|Hor]]; [left; apply Hk; auto|left; apply Hk; auto|by right].
Qed.

Lemma replayed_all L ops :
  aok catalog L -> Forall (fits L) ops ->
  aok catalog (Abstract.exec_all Abstract.init ops).1
  /\ (forall x, holds (Abstract.exec_all Abstract.init ops).1 x -> below L x)
  /\ (forall m, holds L m -> (key_of m ∉ touched) -> OpInsert m ∈ ops ->
        holds (Abstract.exec_all Abstract.init ops).1 m).
Proof.
  intros HL Hops. destruct (replayed_run L Abstract.init ops HL) as [[Hok _ Hb] Hm]; [|done|].
  - split; [apply aok_init|by intros id Hn%elem_of_nil|].
    intros x Hx. unfold holds in Hx. cbn in Hx. by rewrite lookup_empty in Hx.
  - split_and!; [done|done|]. intros m Hl Hu Hin. apply Hm; auto.
Qed.

(** * What is on disk *)

(** The snapshot, the rotated segment and the live log list these events and
    records. *)
Definition disk (sys : System) (snap : list Event) (A B : list op) : Prop :=
  exists w, unlimited (st_config (sys_store sys)) /\ st_wal (sys_store sys) = Some w
    /\ default [] (sys_snapshot sys) = snapshot_bytes snap /\ Forall (known catalog) snap
    /\ old_data w = encode_all (wal_op <$> A) /\ log_holds w (wal_op <$> B)
    /\ Forall (replayable catalog) A /\ Forall (replayable catalog) B.

(** The log as a crash leaves it when it interrupts an append. *)
Definition torn (bs : bytes) (sys : System) : System :=
  mkSystem (with_wal (on_handle (fun g => seg_append g bs) <$> st_wal (sys_store sys))
              (sys_store sys)) (sys_snapshot sys).

Definition part_of_record (bs : bytes) : Prop :=
  exists op n, op_ok op /\ n < length (encode_op op) /\ bs = take n (encode_op op).

Lemma replay_torn ops ld bs n :
  Forall (replayable catalog) ops -> part_of_record bs ->
  exists ld', (replay_path (replay_op 0) (Ret ld) (Some (mkSeg (encode_all (wal_op <$> ops) ++ bs) n))).1
    = Ret ld'
  /\ ld_index ld' = (exec_all (ld_index ld) ops).1
  /\ ld_applied ld' = (ld_applied ld + Z.of_nat (length ops))%Z.
Proof.
  intros Hr (op & k & Hop & Hk & ->).
  destruct (replay_ops_exec catalog catalog_storable ld ops Hr) as (ld' & Hrun & Hrest).
  exists ld'. split; [|done]. unfold replay_path. cbn [seg_data].
  set (recs := wal_op <$> ops) in *. set (len := length (encode_all recs)).
  assert (encode_all recs ++ take k (encode_op op) = take (len + k) (encode_all (recs ++ [op]))) as Ht.
  { unfold len. rewrite encode_all_app, take_app_add. f_equal. unfold encode_all.
    cbn [mbind list_bind]. by rewrite app_nil_r. }
  assert (whole (len + k) (recs ++ [op]) = recs) as Hwh.
  { rewrite whole_app by lia. fold len. replace (len + k - len) with k by lia. cbn [whole].
    rewrite decide_False by lia. apply app_nil_r. }
  rewrite Ht. edestruct (replay_take (replay_op 0) (recs ++ [op]) (len + k) (Ret ld) 0)
    as (r & Hres & _); [|apply Nat.lt_succ_diag_r|].
  - apply Forall_app. split; [by apply (replayable_ok catalog)|by repeat constructor].
  - rewrite Hres. cbn [fst]. by rewrite Hwh.
Qed.

Lemma no_record : part_of_record [].
Proof. exists (WDelete (replicate 32 0%Z)), 0. split_and!; [done|simpl; lia|done]. Qed.

(** Replaying the rotated segment, if there is one. *)
Lemma replay_old w ld A :
  old_data w = encode_all (wal_op <$> A) -> Forall (replayable catalog) A ->
  exists ld', match w_old w with
       | None => Ret ld
       | Some _ => (replay_path (replay_op 0) (Ret ld) (w_old w)).1
       end = Ret ld' /\ ld_index ld' = (exec_all (ld_index ld) A).1
    /\ ld_applied ld' = (ld_applied ld + Z.of_nat (length A))%Z.
Proof.
  unfold old_data. intros Hold HA. destruct (w_old w) as [[data n]|]; cbn [seg_data] in Hold.
  - subst data. destruct (replay_torn A ld [] n HA no_record) as (ld' & Hr & ? & ?).
    rewrite app_nil_r in Hr. by exists ld'.
  - exists ld. pose proof (length_encode_all (wal_op <$> A)) as Hle.
    rewrite <- Hold, length_fmap in Hle. destruct A; [|simpl in Hle; lia].
    split_and!; [done|done|simpl; lia].
Qed.

(** The system a restart has loaded, before its own checkpoint. *)
Definition loaded_as (sys : System) (w : Wal) (ix : EventIndex) : System :=
  mkSystem (mkStore ix (st_config (sys_store sys)) (mkEviction 10 0) (Some w)
    (cached_rss_bytes (sys_store sys)) DEFAULT_AMPLIFICATION_MILLI) (sys_snapshot sys).

(** A restart runs what is on disk. *)
Lemma restart_disk order sys snap A B bs :
  disk sys snap A B -> part_of_record bs ->
  exists ix w k,
    restart order no_faults no_faults (torn bs sys)
    = Ret (let sys1 := loaded_as sys w ix in
           if (k >? 0)%Z then (checkpoint order no_faults no_faults sys1).1 else sys1, k)
  /\ abs ix = (Abstract.exec_all Abstract.init ((OpInsert <$> snap) ++ A ++ B)).1
  /\ wf_index (catalog_core catalog) ix
  /\ w_handle w = AtLog /\ w_old w = None
  /\ (exists g, w_log w = Some g /\ seg_data g = encode_all (wal_op <$> B) ++ bs
        /\ (bs = [] -> seg_synced g <= length (seg_data g)))
  /\ (k = Z.of_nat (length snap + length A + length B))%Z.
Proof.
  intros (w & ((p & Hpath) & Hwal & Hmax) & Hw & Hsn & Hkn & Hold & [Hh (g & Hg & Hd & Hsy)] & HA & HB) Hbs.
  destruct (load_lines_exec catalog catalog_storable (mkLoad index_new 0 0 0) snap Hkn)
    as (ld1 & H1 & Hix1 & Ha1).
  destruct (replay_old w ld1 A Hold HA) as (ld2 & H2 & Hix2 & Ha2).
  destruct (replay_torn B ld2 bs (seg_synced g) HB Hbs) as (ld3 & H3 & Hix3 & Ha3).
  assert (ld_index ld3 = (exec_all index_new ((OpInsert <$> snap) ++ A ++ B)).1) as Hix.
  { rewrite Hix3, Hix2, Hix1. cbn [ld_index]. by rewrite <- !exec_all_app, app_assoc. }
  assert (Forall (op_genuine (catalog_core catalog)) ((OpInsert <$> snap) ++ A ++ B)) as Hgen.
  { repeat (apply Forall_app; split); [|by apply (replayable_genuine catalog)..].
    apply Forall_fmap. eapply Forall_impl; [exact Hkn|]. apply known_genuine. }
  destruct (wf_abs_exec catalog _ _ (wf_index_new (catalog_core catalog)) Hgen) as [Hwf Habs].
  rewrite <- Hix in Hwf, Habs. change (abs index_new) with Abstract.init in Habs.
  set (g' := mkSeg (encode_all (wal_op <$> B) ++ bs) (seg_synced g)).
  exists (ld_index ld3), (remove_old (reopened w g')), (ld_applied ld3). split_and!;
    [|exact Habs|exact Hwf|done|done| |rewrite Ha3, Ha2, Ha1; simpl; lia].
  2: { exists g'. split_and!; [done|done|]. intros ->. cbn. rewrite app_nil_r, <- Hd. done. }
  unfold restart. cbn [torn sys_store st_wal with_wal sys_snapshot st_config cached_rss_bytes].
  rewrite Hw. cbn [fmap option_fmap option_map mbind option_bind]. unfold on_handle. rewrite Hh, Hg.
  cbn [w_log w_old fmap option_fmap option_map].
  change (w_old w) with (w_old (mkWal None (w_old w) AtLog false 0)).
  rewrite store_new_reopen by (split; [by eexists|by split]).
  unfold load_from_disk, all_read.
  cbn [sys_store st_config st_wal sys_snapshot st_index reopened_store rd_snapshot rd_old rd_log
    read_lines read_segment].
  rewrite Hpath, Hmax.
  assert (default [] (file_lines <$> sys_snapshot sys) = ev_raw <$> snap) as ->.
  { rewrite <- file_lines_snapshot.
    - rewrite <- Hsn. by destruct (sys_snapshot sys).
    - eapply Forall_impl; [exact Hkn|]. intros e He. by apply catalog_storable. }
  rewrite H1. cbn [panicky_bind reopened w_old]. rewrite H2.
  unfold replay in H3. cbn [w_log reopened]. unfold seg_append. rewrite Hd, H3. cbn [panicky_bind].
  done.
Qed.

(** A system as it has just come up: empty segments, and a snapshot of what is
    stored. *)
Definition started (sys : System) : Prop :=
  exists snap, disk sys snap [] []
    /\ wf_index (catalog_core catalog) (st_index (sys_store sys))
    /\ aok catalog (abs (st_index (sys_store sys)))
    /\ forall e, e ∈ snap <-> holds (abs (st_index (sys_store sys))) e.

Lemma disk_emptied sys w snap :
  unlimited (st_config (sys_store sys)) -> st_wal (sys_store sys) = Some w ->
  default [] (sys_snapshot sys) = snapshot_bytes snap -> Forall (known catalog) snap ->
  w_old w = None -> log_holds w [] -> disk sys snap [] [].
Proof.
  intros Hu Hw Hsn Hk Ho Hlog. exists w. unfold old_data. rewrite Ho.
  exact (conj Hu (conj Hw (conj Hsn (conj Hk (conj eq_refl (conj Hlog
    (conj (Forall_nil_2 _) (Forall_nil_2 _)))))))).
Qed.

Lemma started_first path rss : started (first_start path rss).
Proof.
  exists []. split; [|split; [apply wf_index_new|split; [apply aok_init|]]].
  - eapply disk_emptied; [|done|done|constructor|done|apply log_holds_open].
    split_and!; [by eexists|done|done].
  - intros e. rewrite elem_of_nil. split; [done|]. unfold holds. cbn. by rewrite lookup_empty.
Qed.

(** A checkpoint starts the system afresh. *)
Lemma started_snapshot order sys w g :
  (forall l, order l ≡ₚ l) -> unlimited (st_config (sys_store sys)) ->
  wf_index (catalog_core catalog) (st_index (sys_store sys)) ->
  aok catalog (abs (st_index (sys_store sys))) ->
  st_wal (sys_store sys) = Some w -> w_handle w = AtLog -> w_log w = Some g ->
  started (checkpoint order no_faults no_faults sys).1.
Proof.
  intros Hord Hu Hwf Hok Hw Hh Hg. destruct Hu as ((p & Hp) & Hwal & Hmax).
  assert (rotate no_faults w = (mkWal (Some seg_empty) (Some (seg_sync g)) AtLog false 0, Ok tt)) as Hr.
  { unfold rotate, rename_log, on_handle. cbn [no_faults fail_sync fail_rename fail_open orb].
    by rewrite Hh, Hg. }
  unfold checkpoint. rewrite Hp, Hw, Hr. cbn [no_faults fail_mkdir fail_remove].
  unfold write_snapshot.
  cbn [fail_open fail_write fail_sync fail_rename no_faults orb set_wal sys_store with_wal
    st_index sys_snapshot fst st_config st_wal].
  exists (order (iter_all (st_index (sys_store sys)))).
  split; [|split; [exact Hwf|split; [exact Hok|]]].
  - eapply disk_emptied; [by split_and!; [by eexists|..]|done|done| |done|apply log_holds_open].
    apply Forall_forall. intros e He. rewrite Hord in He.
    eapply holds_known; [exact Hok|]. by apply (elem_iter_all catalog).
  - intros e. etransitivity; [|exact (elem_iter_all catalog _ e Hok)].
    by rewrite (Hord (iter_all _)).
Qed.

(** * The invariant *)

(** [m] is stored and its insert record not written yet. *)
Definition pending (ts : list task) m : Prop := exists r, WLog m r ∈ ts.

(** [m] is in [l], in the live log, or on its way there. *)
Definition saved (l : list Event) (B : list op) (ts : list task) m : Prop :=
  m ∈ l \/ OpInsert m ∈ B \/ pending ts m.

(** Stored in a slot that no deletion touches. *)
Definition safe L m : Prop := holds L m /\ (key_of m ∉ touched).

Definition replaced_fits L (r : option Event) : Prop :=
  match r with Some old => beaten L (ev_id old) | None => True end.

(** What a thread is about to do. *)
Definition task_fits L (t : task) : Prop :=
  match t with
  | WStart e => known catalog e
  | WLog e r => below L e /\ replaced_fits L r
  | WLogDelete e old => beaten L (ev_id old)
  | DRecord id | DDelete id => doomed id
  | WDone _ | DDone _ => True
  end.

(** In the slots that no deletion touches, every stored event is in the snapshot, in
    a segment, or about to be logged; what else is on disk is beaten by stored
    events; and a checkpoint has, for the shards it has scanned, what it will not
    find in the rotated segment later. *)
Record guarded L (ts : list task) (c : saving) (snap : list Event) (A B : list op) : Prop := {
  gd_ok : aok catalog L;
  gd_snap : Forall (below L) snap;
  gd_ops : Forall (fits L) (A ++ B);
  gd_tasks : Forall (task_fits L) ts;
  gd_kept : forall m, safe L m -> saved snap (A ++ B) ts m;
  gd_saving :
    match c with
    | CIdle => A = []
    | CScan k seen => Forall (below L) seen
        /\ forall m, safe L m -> shard (ev_id m) < k -> saved seen B ts m
    | CClean => forall m, safe L m -> saved snap B ts m
    end;
}.

Lemma task_fits_improves L L' t : improves L L' -> task_fits L t -> task_fits L' t.
Proof.
  intros Hi. destruct t as [e|e [old|]|e old|id|id|r|r]; cbn; try done.
  - intros [? ?]. split; [by eapply below_improves|by eapply beaten_improves].
  - intros [? ?]. split; [by eapply below_improves|done].
  - by apply beaten_improves.
Qed.

Lemma saved_mono l B ts B' ts' m :
  (OpInsert m ∈ B -> OpInsert m ∈ B') -> (pending ts m -> OpInsert m ∈ B' \/ pending ts' m) ->
  saved l B ts m -> saved l B' ts' m.
Proof. unfold saved. tauto. Qed.

(** [L] improves while a thread moves and the log grows. *)
Lemma guarded_mono L L' ts ts' c snap A B more :
  improves L L' -> aok catalog L' -> Forall (fits L') more -> Forall (task_fits L') ts' ->
  (forall m, holds L' m -> holds L m \/ pending ts' m) ->
  (forall m, pending ts m -> OpInsert m ∈ more \/ pending ts' m) ->
  guarded L ts c snap A B -> guarded L' ts' c snap A (B ++ more).
Proof.
  intros Hi Hok Hmore Hts Hnew Hpend [_ Hsnap Hops _ Hkept Hsav].
  assert (forall l X m, (safe L m -> saved l X ts m) -> safe L' m -> saved l (X ++ more) ts' m)
    as Hsaved.
  { intros l X m Hold [[Hm|Hm]%Hnew Hu]; [|by right; right].
    eapply saved_mono; [| |by apply Hold]; rewrite elem_of_app; [by left|].
    intros [?|?]%Hpend; auto. }
  split; [done| | |done| |].
  - eapply Forall_impl; [exact Hsnap|]. intros x. by apply below_improves.
  - rewrite app_assoc. apply Forall_app. split; [|done].
    eapply Forall_impl; [exact Hops|]. intros o. by apply fits_improves.
  - intros m. rewrite app_assoc. apply Hsaved, Hkept.
  - destruct c as [|k seen|]; [done| |].
    + destruct Hsav as [Hseen Hs]. split.
      * eapply Forall_impl; [exact Hseen|]. intros x. by apply below_improves.
      * intros m Hm Hk. eapply (Hsaved seen B m); [|done]. auto.
    + intros m. apply Hsaved, Hsav.
Qed.

(** ** Threads *)

Lemma pending_insert ts (i : nat) t t' m :
  ts !! i = Some t -> pending ts m -> (exists r, t = WLog m r) \/ pending (<[i := t']> ts) m.
Proof.
  intros Hi [r [j Hj]%list_elem_of_lookup]. destruct (decide (i = j)) as [->|Hij].
  - left. exists r. congruence.
  - right. exists r. apply list_elem_of_lookup. exists j. by rewrite list_lookup_insert_ne.
Qed.

Lemma pending_here ts (i : nat) t e r :
  ts !! i = Some t -> pending (<[i := WLog e r]> ts) e.
Proof.
  intros Hi. exists r. apply list_elem_of_lookup. exists i. apply list_lookup_insert_eq.
  by eapply lookup_lt_Some.
Qed.

Lemma tasks_improve L L' ts (i : nat) t' :
  improves L L' -> Forall (task_fits L) ts -> task_fits L' t' ->
  Forall (task_fits L') (<[i := t']> ts).
Proof.
  intros Hi Hts Ht. apply Forall_insert; [|done].
  eapply Forall_impl; [exact Hts|]. intros t. by apply task_fits_improves.
Qed.

(** Where a thread goes after the index has answered. *)
Definition after_index (e : Event) (out : InsertOutcome) : task :=
  match out with
  | Duplicate | LostRace => WDone IRDuplicate
  | Deleted => WDone IRDeleted
  | Inserted replaced => WLog e replaced
  end.

Lemma guarded_insert L ts c snap A B (i : nat) e :
  ts !! i = Some (WStart e) -> known catalog e -> guarded L ts c snap A B ->
  guarded (Abstract.insert L e).1
    (<[i := after_index e (Abstract.insert L e).2]> ts) c snap A B.
Proof.
  intros Hi He Hg. pose proof (gd_ok _ _ _ _ _ _ Hg) as Hok.
  pose proof (improves_insert L e Hok He) as Himp. pose proof (aok_insert catalog L e Hok He) as Hok'.
  rewrite <- (app_nil_r B). eapply (guarded_mono L); [done|done|constructor| | | |done].
  - eapply tasks_improve; [done|apply Hg|].
    destruct (decide (ev_id e ∈ dead L)) as [Hd|Hd]; [by rewrite insert_refused|].
    destruct (insert_cases catalog L e Hok He Hd) as [(Ha & (r & -> & Hr) & Hh)|(_ & Hno & Hs)].
    + cbn [after_index task_fits]. split.
      * split; [done|]. right. exists e. split_and!; [by apply Hh; left|done|by left].
      * destruct r as [old|]; [|done]. destruct Hr as (Hold & Hk & Hsup). exists old.
        split_and!; [done|exact (holds_known catalog L old Hok Hold)|right; exists e].
        split_and!; [by apply Hh; left|done|done].
    + destruct (Abstract.insert L e).2 as [r| | |]; try done. by destruct (Hno r).
  - destruct (decide (ev_id e ∈ dead L)) as [Hd|Hd]; [rewrite insert_refused by done; by left|].
    destruct (insert_cases catalog L e Hok He Hd) as [(Ha & (r & -> & _) & Hh)|(_ & _ & ->)];
      [|by left].
    intros m [->|[Hm _]]%Hh; [right|by left]. by eapply pending_here.
  - intros m Hm. right. destruct (pending_insert _ _ _ (after_index e (Abstract.insert L e).2) _ Hi Hm)
      as [[r Hr]|]; done.
Qed.

(** A record is appended. *)
Lemma guarded_append L ts c snap A B (i : nat) t t' o :
  ts !! i = Some t -> guarded L ts c snap A B -> fits L o -> task_fits L t' ->
  (forall m r, t = WLog m r -> o = OpInsert m) ->
  guarded L (<[i := t']> ts) c snap A (B ++ [o]).
Proof.
  intros Hi Hg Ho Ht' Hlog. pose proof (gd_ok _ _ _ _ _ _ Hg) as Hok.
  pose proof (improves_refl L Hok) as Himp. eapply (guarded_mono L); [done|done|by constructor| | | |done].
  - eapply tasks_improve; [done|apply Hg|done].
  - by left.
  - intros m Hm. destruct (pending_insert _ _ _ t' _ Hi Hm) as [[r Hr]|]; [left|by right].
    rewrite (Hlog m r Hr). left.
Qed.

Lemma guarded_spawn L ts c snap A B t :
  task_fits L t -> guarded L ts c snap A B -> guarded L (ts ++ [t]) c snap A B.
Proof.
  intros Ht Hg. pose proof (gd_ok _ _ _ _ _ _ Hg) as Hok.
  rewrite <- (app_nil_r B). eapply (guarded_mono L); [by apply improves_refl|done|constructor| | | |done].
  - apply Forall_app. split; [apply Hg|by repeat constructor].
  - by left.
  - intros m [r Hr]. right. exists r. apply elem_of_app. by left.
Qed.

(** The index forgets an event whose deletion was recorded. *)
Lemma guarded_delete L ts c snap A B (i : nat) id removed :
  ts !! i = Some (DDelete id) -> guarded L ts c snap A B ->
  guarded (Abstract.kill L id).1 (<[i := DDone removed]> ts) c snap A B.
Proof.
  intros Hi Hg. pose proof (gd_ok _ _ _ _ _ _ Hg) as Hok.
  pose proof (gd_tasks _ _ _ _ _ _ Hg) as Hts. rewrite Forall_lookup in Hts.
  pose proof (Hts _ _ Hi) as Ht. cbn in Ht. rewrite <- Forall_lookup in Hts.
  pose proof (improves_kill L id Hok Ht) as Himp.
  rewrite <- (app_nil_r B). eapply (guarded_mono L); [done| |constructor| | | |done].
  - apply aok_delete; [done|]. intros j. apply spec_insert_only.
  - by eapply tasks_improve.
  - intros m Hm. left. by apply holds_kill in Hm as [_ ?].
  - intros m Hm. right. by destruct (pending_insert _ _ _ (DDone removed) _ Hi Hm) as [[r Hr]|].
Qed.

(** ** The checkpoint *)

Lemma guarded_rotate L ts snap A B :
  guarded L ts CIdle snap A B -> guarded L ts (CScan 0 []) snap B [].
Proof.
  intros [Hok Hsnap Hops Hts Hkept ->]. rewrite app_nil_l in *.
  split; rewrite ?app_nil_r; try done. split; [constructor|]. intros m _ Hm. lia.
Qed.

Lemma guarded_scan L ts k seen found snap A B :
  (forall m, m ∈ found -> holds L m) ->
  (forall m, holds L m -> shard (ev_id m) = k -> m ∈ found) ->
  guarded L ts (CScan k seen) snap A B -> guarded L ts (CScan (S k) (seen ++ found)) snap A B.
Proof.
  intros Hin Hall [Hok Hsnap Hops Hts Hkept [Hseen Hs]]. split; try done. split.
  - apply Forall_app. split; [done|]. apply Forall_forall. intros m Hm.
    by apply (improves_refl L Hok), Hin.
  - intros m Hm Hk. destruct (decide (shard (ev_id m) = k)) as [He|He].
    + left. apply elem_of_app. right. by apply Hall; [apply Hm|].
    + destruct (Hs m Hm) as [?|[?|?]]; [lia|left|right; by left|right; by right].
      apply elem_of_app. by left.
Qed.

Lemma guarded_publish L ts k seen snap A B :
  shards <= k -> guarded L ts (CScan k seen) snap A B -> guarded L ts CClean seen A B.
Proof.
  intros Hk [Hok Hsnap Hops Hts Hkept [Hseen Hs]].
  assert (forall m, safe L m -> saved seen B ts m) as Hall.
  { intros m Hm. apply Hs; [done|]. pose proof (shard_lt (ev_id m)). lia. }
  split; try done. intros m Hm. destruct (Hall m Hm) as [?|[?|?]]; unfold saved; [tauto| |tauto].
  rewrite elem_of_app. tauto.
Qed.

Lemma guarded_clean L ts snap A B :
  guarded L ts CClean snap A B -> guarded L ts CIdle snap [] B.
Proof.
  intros [Hok Hsnap Hops Hts Hkept Hs]. split; try done.
  by apply Forall_app in Hops as [_ ?].
Qed.

Lemma elem_in_shard k st m :
  aok catalog (abs (st_index st)) ->
  m ∈ in_shard shard shard_order k st <-> holds (abs (st_index st)) m /\ shard (ev_id m) = k.
Proof.
  intros Hok. unfold in_shard. rewrite shard_order_perm, list_elem_of_fmap. split.
  - intros ([i x] & -> & [Hi Hk]%elem_of_List_filter). cbn [fst snd] in *.
    apply elem_of_map_to_list in Hi. apply Nat.eqb_eq in Hk.
    destruct (ao_known _ _ Hok i x Hi) as [Hid _]. unfold holds. cbn. by rewrite Hid.
  - intros [Hm Hk]. exists (ev_id m, m). split; [done|]. apply elem_of_List_filter.
    split; [by apply elem_of_map_to_list|]. cbn [fst]. by apply Nat.eqb_eq.
Qed.

(** ** The disk *)

Lemma disk_index sys snap A B ix :
  disk sys snap A B -> disk (mkSystem (with_index ix (sys_store sys)) (sys_snapshot sys)) snap A B.
Proof. done. Qed.

Lemma disk_append sys snap A B o :
  disk sys snap A B -> replayable catalog o ->
  disk (mkSystem (logging (wal_op o) (sys_store sys)) (sys_snapshot sys)) snap A (B ++ [o]).
Proof.
  intros (w & Hu & Hw & Hsn & Hkn & Hold & Hlog & HA & HB) Ho.
  exists (append w (wal_op o)). cbn [sys_store logging with_wal st_config st_wal sys_snapshot].
  rewrite Hw, fmap_app. split_and!; [apply Hu..|done|done|done| |by apply log_holds_append|done|].
  - unfold old_data, append, on_handle. by rewrite (proj1 Hlog).
  - apply Forall_app. split; [done|by constructor].
Qed.

Lemma disk_rotate sys snap B :
  disk sys snap [] B ->
  exists wal', save_step shards shard shard_order sys CIdle = Some (set_wal wal' sys, CScan 0 [])
  /\ disk (set_wal wal' sys) snap B [].
Proof.
  intros (w & Hu & Hw & Hsn & Hkn & _ & Hlog & _ & HB).
  destruct (rotate_log w _ Hlog) as (g & Hg & Hd & Hrot).
  cbn [save_step]. rewrite Hw. cbn [mbind option_bind]. rewrite Hrot.
  eexists. split; [done|]. eexists. cbn [set_wal sys_store with_wal st_config st_wal sys_snapshot].
  split_and!; [apply Hu..|done|done|done|exact Hd| |done|constructor].
  split; [done|]. by exists seg_empty.
Qed.

Lemma disk_publish sys snap A B seen :
  disk sys snap A B -> Forall (known catalog) seen ->
  disk (mkSystem (sys_store sys) (Some (snapshot_bytes seen))) seen A B.
Proof.
  intros (w & Hu & Hw & _ & _ & Hold & Hlog & HA & HB) Hk. exists w.
  exact (conj Hu (conj Hw (conj eq_refl (conj Hk (conj Hold (conj Hlog (conj HA HB))))))).
Qed.

Lemma disk_clean sys snap A B :
  disk sys snap A B ->
  exists w, st_wal (sys_store sys) = Some w /\ disk (set_wal (remove_old w) sys) snap [] B.
Proof.
  intros (w & Hu & Hw & Hsn & Hkn & _ & Hlog & _ & HB). exists w. split; [done|].
  exists (remove_old w). cbn [set_wal sys_store with_wal st_config st_wal sys_snapshot].
  split_and!; [apply Hu..|done|done|done|done| |constructor|done].
  destruct Hlog as [Hh Hg]. split; [|done]. cbn. by rewrite Hh.
Qed.

(** ** Reachable states *)

Definition shared_ok (w : Shared) : Prop :=
  exists snap A B, disk (sh_sys w) snap A B
    /\ wf_index (catalog_core catalog) (st_index (sys_store (sh_sys w)))
    /\ guarded (abs (st_index (sys_store (sh_sys w)))) (sh_tasks w) (sh_saving w) snap A B.

(** A move of a run: the events inserted are known, and those whose deletion is
    requested are in the slots listed. *)
Definition allowed (m : move) : Prop :=
  match m with MInsert e => known catalog e | MDelete id => doomed id | _ => True end.

Lemma below_replayable L x : below L x -> replayable catalog (OpInsert x).
Proof. by intros [? _]. Qed.

Lemma beaten_replayable L id : beaten L id -> replayable catalog (OpRemove id).
Proof. intros (old & <- & Hold & _). cbn. by apply catalog_storable. Qed.

Lemma doomed_replayable id : doomed id -> replayable catalog (OpReplayTombstone id).
Proof. intros (x & <- & Hx & _). cbn. by apply catalog_storable. Qed.

(** [EventStore::delete]'s record is a record of the log. *)
Lemma record_deletion_logging st id :
  record_deletion st id = logging (wal_op (OpReplayTombstone id)) st.
Proof. by unfold record_deletion, logging; destruct (st_wal st). Qed.

Lemma task_ok sys ts c snap A B (i : nat) t st' t' :
  disk sys snap A B -> wf_index (catalog_core catalog) (st_index (sys_store sys)) ->
  guarded (abs (st_index (sys_store sys))) ts c snap A B ->
  ts !! i = Some t -> task_step (sys_store sys) t = Some (st', t') ->
  shared_ok (mkShared (mkSystem st' (sys_snapshot sys)) (<[i := t']> ts) c).
Proof.
  intros Hd Hwf Hg Hi Hs. pose proof (gd_tasks _ _ _ _ _ _ Hg) as Hts.
  rewrite Forall_lookup in Hts. pose proof (Hts _ _ Hi) as Ht.
  destruct t as [e|e r|e old|id|id|r|r]; cbn [task_step task_fits] in *; try done.
  - destruct (is_ephemeral e).
    { injection Hs as <- <-. exists snap, A, B. split_and!; [by destruct sys|done|].
      pose proof (gd_ok _ _ _ _ _ _ Hg) as Hok. cbn [sh_tasks sh_sys sys_store sh_saving].
      rewrite <- (app_nil_r B). eapply (guarded_mono _ _ ts);
        [by apply improves_refl|done|constructor| | | |done].
      - eapply tasks_improve; [by apply improves_refl|apply Hg|done].
      - by left.
      - intros m Hm. right. destruct (pending_insert _ _ _ (WDone IREphemeral) _ Hi Hm) as [[r Hr]|]; done. }
    pose proof (known_genuine catalog e Ht) as Hgen.
    pose proof (exec_refines (catalog_core catalog) _ (OpInsert e) Hwf Hgen) as Hx. cbn [exec Abstract.exec] in Hx.
    pose proof (wf_index_insert (catalog_core catalog) _ e Hwf Hgen) as Hwf'.
    pose proof (guarded_insert _ _ _ _ _ _ i e Hi Ht Hg) as Hg'.
    destruct (index_insert (st_index (sys_store sys)) e) as [ix out].
    destruct (Abstract.insert (abs (st_index (sys_store sys))) e) as [L' out'].
    cbn [fst snd] in *. injection Hx as <- <-. injection Hs as <- <-.
    exists snap, A, B. split_and!; [by apply disk_index|exact Hwf'|exact Hg'].
  - injection Hs as <- <-. destruct Ht as [He Hr]. exists snap, A, (B ++ [OpInsert e]). split_and!.
    + by apply (disk_append _ _ _ _ (OpInsert e)), (below_replayable _ _ He).
    + done.
    + eapply guarded_append; [done|exact Hg|exact He| |by intros m r' [= -> _]].
      by destruct r.
  - injection Hs as <- <-. exists snap, A, (B ++ [OpRemove (ev_id old)]). split_and!.
    + by apply (disk_append _ _ _ _ (OpRemove (ev_id old))), (beaten_replayable _ _ Ht).
    + done.
    + eapply guarded_append; [done|exact Hg|exact Ht|done|done].
  - injection Hs as <- <-. exists snap, A, (B ++ [OpReplayTombstone id]).
    rewrite record_deletion_logging. split_and!.
    + by apply (disk_append _ _ _ _ (OpReplayTombstone id)), doomed_replayable.
    + done.
    + eapply guarded_append; [done|exact Hg|exact Ht|exact Ht|done].
  - pose proof (doomed_replayable id Ht) as Hr.
    pose proof (exec_refines (catalog_core catalog) _ (OpDelete id) Hwf I) as Hx.
    pose proof (wf_delete_by_id (catalog_core catalog) _ id Hwf) as Hwf'.
    cbn [exec Abstract.exec] in Hx.
    destruct (delete_by_id (st_index (sys_store sys)) id) as [ix removed].
    pose proof (guarded_delete _ _ _ _ _ _ i id removed Hi Hg) as Hg'.
    destruct (Abstract.kill (abs (st_index (sys_store sys))) id) as [L' removed'].
    cbn [fst snd] in *. injection Hx as <- <-. injection Hs as <- <-.
    exists snap, A, B. split_and!; [by apply disk_index|exact Hwf'|exact Hg'].
Qed.

Lemma save_ok sys ts c sys' c' :
  shared_ok (mkShared sys ts c) -> save_step shards shard shard_order sys c = Some (sys', c') ->
  shared_ok (mkShared sys' ts c').
Proof.
  intros (snap & A & B & Hd & Hwf & Hg) Hs. cbn [sh_sys sh_tasks sh_saving] in *.
  destruct c as [|k seen|].
  - pose proof (gd_saving _ _ _ _ _ _ Hg) as HA. cbn in HA. subst A.
    destruct (disk_rotate _ _ _ Hd) as (wal' & He & Hd'). rewrite He in Hs.
    injection Hs as <- <-. exists snap, B, []. split_and!; [exact Hd'|exact Hwf|].
    by eapply guarded_rotate.
  - cbn [save_step] in Hs. destruct (Nat.ltb_spec k shards) as [Hk|Hk]; injection Hs as <- <-.
    + exists snap, A, B. split_and!; [exact Hd|exact Hwf|].
      pose proof (gd_ok _ _ _ _ _ _ Hg) as Hok.
      apply guarded_scan; [|intros m Hm Hsh|exact Hg].
      * intros m Hm. by apply (elem_in_shard k) in Hm as [? _].
      * by apply elem_in_shard.
    + exists seen, A, B. split_and!; [|exact Hwf|by eapply guarded_publish].
      eapply disk_publish; [exact Hd|]. destruct (gd_saving _ _ _ _ _ _ Hg) as [Hseen _].
      eapply Forall_impl; [exact Hseen|]. by intros x [? _].
  - destruct (disk_clean _ _ _ _ Hd) as (wal & Hw & Hd'). cbn [save_step] in Hs.
    rewrite Hw in Hs. injection Hs as <- <-. exists snap, [], B.
    split_and!; [exact Hd'|exact Hwf|by eapply guarded_clean].
Qed.

Lemma move_ok w (mv : move) w' :
  shared_ok w -> allowed mv -> shared_step shards shard shard_order w mv = Some w' ->
  shared_ok w'.
Proof.
  destruct w as [sys ts c]. intros Hw Hm Hs. destruct mv as [i| |e|id]; cbn [shared_step] in Hs.
  - apply bind_Some in Hs as (t & Ht & ([st t'] & Hst & [= <-])%bind_Some).
    destruct Hw as (snap & A & B & Hd & Hwf & Hg). by eapply task_ok.
  - apply bind_Some in Hs as ([sys' c'] & Hs & [= <-]). by eapply save_ok.
  - injection Hs as <-. destruct Hw as (snap & A & B & Hd & Hwf & Hg).
    exists snap, A, B. split_and!; [exact Hd|exact Hwf|by apply guarded_spawn].
  - injection Hs as <-. destruct Hw as (snap & A & B & Hd & Hwf & Hg).
    exists snap, A, B. split_and!; [exact Hd|exact Hwf|by apply guarded_spawn].
Qed.

Lemma moves_ok ms w w' :
  shared_ok w -> Forall allowed ms ->
  run_moves shards shard shard_order w ms = Some w' -> shared_ok w'.
Proof.
  intros Hw Hms. revert w'. unfold run_moves.
  induction ms as [|mv ms IH] using rev_ind; intros w' Hr; [by injection Hr as <-|].
  apply Forall_app in Hms as [Hms Hmv]. rewrite Forall_singleton in Hmv.
  rewrite foldl_snoc in Hr. apply bind_Some in Hr as (w1 & H1 & Hr).
  exact (move_ok w1 mv w' (IH Hms w1 H1) Hmv Hr).
Qed.

Lemma started_ok sys : started sys -> shared_ok (mkShared sys [] CIdle).
Proof.
  intros (snap & Hd & Hwf & Hok & Hin). exists snap, [], []. split_and!; [exact Hd|exact Hwf|].
  split; [done| |constructor|constructor| |done].
  - apply Forall_forall. intros e He%Hin. by apply (improves_refl _ Hok).
  - intros m [Hm%Hin _]. by left.
Qed.

(** ** After a crash *)

(** An event the index has. *)
Definition live (sys : System) (m : Event) : Prop := holds (abs (st_index (sys_store sys))) m.

(** What a restart finds in the slots that no deletion touched: everything that is
    not waiting for its log record, and nothing that is not stored, save what such
    an event replaced. *)
Definition recovers (sys sys' : System) (ts : list task) : Prop :=
  (forall m, live sys m -> (key_of m ∉ touched) -> ~ pending ts m -> live sys' m)
  /\ (forall x, live sys' x -> (key_of x ∉ touched) -> live sys x
       \/ exists m, live sys m /\ pending ts m /\ key_of m = key_of x /\ supersedes m x = true).

Lemma guarded_recovers L ts c snap A B :
  guarded L ts c snap A B ->
  let s := (Abstract.exec_all Abstract.init ((OpInsert <$> snap) ++ A ++ B)).1 in
  aok catalog s /\ (forall m, safe L m -> holds s m \/ pending ts m)
  /\ (forall x, holds s x -> below L x).
Proof.
  intros [Hok Hsnap Hops _ Hkept _].
  destruct (replayed_all L ((OpInsert <$> snap) ++ A ++ B) Hok) as (Hs & Hb & Hm).
  { apply Forall_app. split; [by apply Forall_fmap|done]. }
  split_and!; [done| |done]. intros m Hl.
  destruct (Hkept m Hl) as [?|[?|?]]; [left|left|by right]; (apply Hm; [by apply Hl..|]);
    apply elem_of_app; [left|by right].
  by apply list_elem_of_fmap_2.
Qed.

(** What a restart leaves behind is a system that has just come up, if its log was
    whole or anything was read. *)
Lemma loaded_started order sys w ix k snap A B g bs :
  (forall l, order l ≡ₚ l) -> disk sys snap A B ->
  k = Z.of_nat (length snap + length A + length B) ->
  abs ix = (Abstract.exec_all Abstract.init ((OpInsert <$> snap) ++ A ++ B)).1 ->
  wf_index (catalog_core catalog) ix -> aok catalog (abs ix) ->
  w_handle w = AtLog -> w_old w = None -> w_log w = Some g ->
  seg_data g = encode_all (wal_op <$> B) ++ bs -> (bs = [] -> seg_synced g <= length (seg_data g)) ->
  bs = [] \/ (0 < k)%Z ->
  let sys1 := loaded_as sys w ix in
  started (if (k >? 0)%Z then (checkpoint order no_faults no_faults sys1).1 else sys1).
Proof.
  intros Hord (w0 & Hu & _ & Hsn & _) Hk Habs Hwf Hok Hh Ho Hg Hd Hsy Hor sys1.
  destruct (Z.gtb_spec k 0) as [Hpos|Hz].
  { by apply (started_snapshot order sys1 w g). }
  destruct Hor as [->|?]; [|lia].
  destruct snap, A, B; cbn [length] in Hk; try lia.
  exists []. split; [|split; [done|split; [done|]]].
  - eapply disk_emptied; [exact Hu|done|exact Hsn|constructor|exact Ho|].
    split; [exact Hh|]. exists g. split_and!; [done|exact Hd|by apply Hsy].
  - intros e. cbn [sys1 loaded_as sys_store st_index]. rewrite Habs, elem_of_nil.
    split; [done|]. unfold holds. cbn. by rewrite lookup_empty.
Qed.

Lemma recovery_ok order w bs :
  (forall l, order l ≡ₚ l) -> shared_ok w -> part_of_record bs ->
  exists sys' k,
    restart order no_faults no_faults (torn bs (sh_sys w)) = Ret (sys', k)
    /\ recovers (sh_sys w) sys' (sh_tasks w)
    /\ (bs = [] \/ (0 < k)%Z -> started sys').
Proof.
  intros Hord (snap & A & B & Hd & _ & Hg) Hbs.
  destruct (restart_disk order _ snap A B bs Hd Hbs)
    as (ix & wal & k & Hr & Habs & Hwf & Hh & Ho & (g & Hlog & Hdata & Hsy) & Hk).
  destruct (guarded_recovers _ _ _ _ _ _ Hg) as (Hok & Hall & Hb).
  rewrite <- Habs in Hok, Hall, Hb.
  eexists _, k. split; [exact Hr|]. split.
  - cbn zeta. set (sys' := if (k >? 0)%Z then _ else _).
    assert (abs (st_index (sys_store sys')) = abs ix) as He.
    { unfold sys'. case_match; [|done]. f_equal. apply checkpoint_index. }
    split; unfold live; rewrite He.
    { intros m Hm Hu. by destruct (Hall m (conj Hm Hu)). }
    intros x Hx Hu. destruct (Hb x Hx) as (_ & [?|(m & Hm & Hkey & [->|Hs])]); [done|by left|right].
    exists m. split_and!; [done| |done|done].
    assert (safe (abs (st_index (sys_store (sh_sys w)))) m) as Hsafe by (split; [done|by rewrite Hkey]).
    destruct (Hall m Hsafe) as [Hin|?]; [|done].
    assert (m = x) as -> by by apply (ao_slot _ _ Hok). by rewrite supersedes_irrefl in Hs.
  - intros Hor. by apply (loaded_started order _ wal ix k snap A B g bs).
Qed.

(** C2: crash safety while connections insert and delete and the persistence task
    checkpoints, at every interleaving of their accesses: from a system that has
    just come up, let any calls of [insert] and deletions of events run beside
    checkpoints that follow one another (no two at once:
    [overlapping_checkpoints_lose_segment]), without eviction, memory limit or
    failing file operation, for events whose id determines their text, on one line
    and at most 16 MiB long; stop after any access, possibly in the middle of writing
    a log record, and restart. The restart succeeds. In every replacement slot (or
    id, for an event that is not replaceable) of which no event was asked to be
    deleted: every stored event whose insert record had been written is there, and
    whatever else is there was stored, or is what a stored event whose record was
    still to be written had replaced. And unless a torn record is all that the log
    files hold ([torn_first_record_hides_log]) the system has again just come up, so
    that the statement applies to its next life. *)
Theorem concurrent_crash_recovers order sys0 ms w bs :
  (forall l, order l ≡ₚ l) -> started sys0 -> Forall allowed ms ->
  run_moves shards shard shard_order (mkShared sys0 [] CIdle) ms = Some w ->
  part_of_record bs ->
  exists sys' k,
    restart order no_faults no_faults (torn bs (sh_sys w)) = Ret (sys', k)
    /\ recovers (sh_sys w) sys' (sh_tasks w)
    /\ (bs = [] \/ (0 < k)%Z -> started sys').
Proof.
  intros Hord Hs Hms Hrun. apply (recovery_ok order); [done|].
  eapply moves_ok; [by apply started_ok|exact Hms|exact Hrun].
Qed.
End Safety.

(** * Closed runs *)

(** Two shards, and the sample event in the second. *)
Definition sample_shard (id : bytes) : nat := Nat.b2n (bool_decide (id = key32 1)).

Definition fresh : Shared := mkShared (first_start (lit "/data") 0) [] CIdle.

Definition sample_run (ms : list move) : option Shared :=
  run_moves 2 sample_shard keep_order fresh ms.

(** The event is stored while a checkpoint is between its two shards, and logged
    after the second one. *)
Definition sample_moves : list move :=
  [MInsert sample_event; MSave; MSave; MTask 0; MSave; MTask 0].

(** Two known events; the first is deleted while a checkpoint is under way, and the
    second stored meanwhile. *)
Definition pair_catalog (id : bytes) : option Event :=
  if bool_decide (id = key32 6) then Some deletion_event else sample_catalog id.

Lemma pair_catalog_storable e : known pair_catalog e -> storable e.
Proof.
  unfold known, pair_catalog. case_bool_decide; [|apply sample_catalog_storable]. intros [= <-].
  split; [done|vm_compute; reflexivity|vm_compute; congruence|].
  split_and!; [done| |vm_compute; congruence|vm_compute; reflexivity].
  apply (bool_decide_eq_false (newline ∈ deletion_json)). vm_compute. reflexivity.
Qed.

Definition pair_moves : list move :=
  [MInsert sample_event; MTask 0; MTask 0; MSave; MDelete (key32 1); MInsert deletion_event;
   MSave; MTask 1; MTask 2; MSave; MTask 2; MTask 1; MSave].

Lemma sample_shard_lt id : sample_shard id < 2.
Proof. unfold sample_shard. by case_bool_decide; simpl; lia. Qed.

Lemma concurrent_crash_recovers_witness :
  exists w sys' k, sample_run pair_moves = Some w
    /\ restart keep_order no_faults no_faults (torn [0%Z] (sh_sys w)) = Ret (sys', k)
    /\ recovers [inr (key32 1)] (sh_sys w) sys' (sh_tasks w).
Proof.
  destruct (sample_run pair_moves) as [w|] eqn:Hw; [|vm_compute in Hw; discriminate].
  destruct (concurrent_crash_recovers pair_catalog pair_catalog_storable 2 sample_shard
    keep_order [inr (key32 1)] sample_shard_lt (fun l => Permutation_refl l) keep_order
    (first_start (lit "/data") 0) pair_moves w [0%Z]) as (sys' & k & H1 & H2 & _).
  - intros l. reflexivity.
  - apply started_first.
  - repeat constructor. exists sample_event. repeat constructor.
  - exact Hw.
  - exists (WInsert []), 1. split; [vm_compute; congruence|]. split; [vm_compute; lia|reflexivity].
  - exists w, sys', k. exact (conj eq_refl (conj H1 H2)).
Defined.

(** Is the sample event stored, and is it after a restart, with this much of a
    record torn at the end of the log? *)
Definition before_after (bs : bytes) (w : option Shared) : option (bool * option bool) :=
  (fun w => (store_contains (sys_store (sh_sys w)) (key32 1),
             snd <$> survives no_faults no_faults (torn bs (sh_sys w)))) <$> w.

Example sample_recovered : before_after [0%Z] (sample_run sample_moves) = Some (true, Some true).
Proof. vm_compute. reflexivity. Qed.

(** What is stored after the run with the two events, before a crash and after it. *)
Example pair_recovered :
  (fun w => (ev_id <$> iter_all (st_index (sys_store (sh_sys w))),
             match restart keep_order no_faults no_faults (torn [0%Z] (sh_sys w)) with
             | Ret (sys, _) => Some (ev_id <$> iter_all (st_index (sys_store sys)))
             | Panic => None
             end)) <$> sample_run pair_moves
  = Some ([key32 6], Some [key32 6]).
Proof. vm_compute. reflexivity. Qed.

(** A deletion that races a checkpoint does not survive a restart: the
    tombstone record is written to the segment that the checkpoint rotates out and
    removes, and the scan reads the event before [delete_by_id] takes it away, so
    that the snapshot has it. It is gone from memory, the call has answered, nothing
    failed, and after a crash it is back. *)
Theorem deletion_undone_by_checkpoint :
  before_after [] (sample_run
    [MInsert sample_event; MTask 0; MTask 0; MDelete (key32 1); MTask 1;
     MSave; MSave; MSave; MSave; MTask 1; MSave])
  = Some (false, Some true).
Proof. vm_compute. reflexivity. Qed.

(** The same deletion when no checkpoint runs, or when the scan comes after it. *)
Example deletion_kept :
  before_after [] (sample_run
    [MInsert sample_event; MTask 0; MTask 0; MDelete (key32 1); MTask 1; MTask 1])
  = Some (false, Some false)
  /\ before_after [] (sample_run
    [MInsert sample_event; MTask 0; MTask 0; MDelete (key32 1); MTask 1;
     MSave; MSave; MTask 1; MSave; MSave; MSave])
  = Some (false, Some false).
Proof. vm_compute. split; reflexivity. Qed.

(** Two checkpoints over one store (the periodic one and the one at shutdown):
    each step is one of the first or of the second. *)
Fixpoint two_savings (sys : System) (c1 c2 : saving) (turns : list bool) : option System :=
  match turns with
  | [] => Some sys
  | false :: turns =>
      '(sys, c1) ← save_step 2 sample_shard keep_order sys c1;
      two_savings sys c1 c2 turns
  | true :: turns =>
      '(sys, c2) ← save_step 2 sample_shard keep_order sys c2;
      two_savings sys c1 c2 turns
  end.

Definition logged_sample : option System :=
  sh_sys <$> sample_run [MInsert sample_event; MTask 0; MTask 0].

(** Two checkpoints that overlap can lose what had been logged: the second
    rotation renames the new, empty log over [wal.log.old], and until one of the
    snapshots is complete the events are on disk nowhere. *)
Theorem overlapping_checkpoints_lose_segment :
  (fun sys => snd <$> survives no_faults no_faults sys) <$>
    (sys ← logged_sample; two_savings sys CIdle CIdle [false; true]) = Some (Some false)
  /\ (fun sys => snd <$> survives no_faults no_faults sys) <$>
    (sys ← logged_sample; two_savings sys CIdle CIdle [false]) = Some (Some true).
Proof. vm_compute. split; reflexivity. Qed.

(** A torn record in an otherwise empty log is not removed by the restart, which
    has applied nothing and takes no checkpoint; what the next life appends after
    it cannot be read back: the event is logged and flushed, and lost. *)
Definition second_life (bs : bytes) : option Shared :=
  match restart keep_order no_faults no_faults (torn bs (sh_sys fresh)) with
  | Ret (sys, _) =>
      run_moves 2 sample_shard keep_order (mkShared sys [] CIdle)
        [MInsert sample_event; MTask 0; MTask 0]
  | Panic => None
  end.

Theorem torn_first_record_hides_log :
  before_after [] (second_life [0%Z]) = Some (true, Some false)
  /\ before_after [] (second_life []) = Some (true, Some true).
Proof. vm_compute. split; reflexivity. Qed.

(** Two versions of a replaceable event, the newer in the first shard. *)
Definition version (id : bytes) (at_ : Z) : Event :=
  mkEvent id (key32 2) at_ 10002 [] [] (replicate 64 5%Z) sample_json.

(** A replacement in flight can take both versions with it: the scan passes the
    first shard before the newer version is stored there and the second after the
    older one has left it, and the segment with the older one's record is removed;
    until the newer one's record is written, neither is on disk, although the older
    had been stored and logged. (One more access of the inserting thread, and the
    newer version is.) *)
Theorem replacement_in_flight_loses_both :
  (fun w => (length (iter_all (st_index (sys_store (sh_sys w)))),
             sys_snapshot (sh_sys w), seg_data <$> (st_wal (sys_store (sh_sys w)) ≫= w_log),
             bool_decide (is_Some (st_wal (sys_store (sh_sys w)) ≫= w_old)))) <$>
    sample_run
      [MInsert (version (key32 1) 1000); MTask 0; MTask 0; MSave; MSave;
       MInsert (version (key32 2) 2000); MTask 1; MSave; MSave; MSave]
  = Some (1, Some [], Some [], false).
Proof. vm_compute. reflexivity. Qed.
