(* ===== verification/Text.v ===== *)
(** Text as Rust's standard library handles it: the lossy UTF-8 decoder behind
    [String::from_utf8_lossy], and the [str] methods the message loop uses to peek
    at a frame. *)
From S2P Require Import Prelude.
From Stdlib Require Import ZifyBool ZifyN.
Open Scope memlay_scope.

(** * Lossy UTF-8 decoding *)

(** A Unicode scalar value, what a [char] can be. *)
Definition scalar (c : N) : bool :=
  (c <? 0xD800)%N || ((0xE000 <=? c)%N && (c <? 0x110000)%N).

Definition between (lo hi b : Z) : bool := (lo <=? b)%Z && (b <=? hi)%Z.
Definition cont (b : Z) : bool := between 0x80 0xBF b.
Definition REPLACEMENT_CHARACTER : N := 0xFFFD.

(** The second byte that may follow the first byte of a sequence of three or
    four. *)
Definition second3 (b0 b1 : Z) : bool :=
  if (b0 =? 0xE0)%Z then between 0xA0 0xBF b1
  else if (b0 =? 0xED)%Z then between 0x80 0x9F b1 else cont b1.
Definition second4 (b0 b1 : Z) : bool :=
  if (b0 =? 0xF0)%Z then between 0x90 0xBF b1
  else if (b0 =? 0xF4)%Z then between 0x80 0x8F b1 else cont b1.

Definition char2 (b0 b1 : Z) : N := Z.to_N ((b0 - 0xC0) * 64 + (b1 - 0x80)).
Definition char3 (b0 b1 b2 : Z) : N :=
  Z.to_N ((b0 - 0xE0) * 4096 + (b1 - 0x80) * 64 + (b2 - 0x80)).
Definition char4 (b0 b1 b2 b3 : Z) : N :=
  Z.to_N ((b0 - 0xF0) * 262144 + (b1 - 0x80) * 4096 + (b2 - 0x80) * 64 + (b3 - 0x80)).

(** [String::from_utf8_lossy]: every maximal invalid prefix of a sequence becomes
    one replacement character. Each turn consumes at least one byte. *)
Fixpoint lossy_loop (fuel : nat) (bs : bytes) : str :=
  match fuel, bs with
  | S fuel, b0 :: r0 =>
      if (b0 <? 0x80)%Z then Z.to_N b0 :: lossy_loop fuel r0
      else if between 0xC2 0xDF b0 then
        match r0 with
        | b1 :: r1 =>
            if cont b1 then char2 b0 b1 :: lossy_loop fuel r1
            else REPLACEMENT_CHARACTER :: lossy_loop fuel r0
        | [] => [REPLACEMENT_CHARACTER]
        end
      else if between 0xE0 0xEF b0 then
        match r0 with
        | b1 :: r1 =>
            if second3 b0 b1 then
              match r1 with
              | b2 :: r2 =>
                  if cont b2 then char3 b0 b1 b2 :: lossy_loop fuel r2
                  else REPLACEMENT_CHARACTER :: lossy_loop fuel r1
              | [] => [REPLACEMENT_CHARACTER]
              end
            else REPLACEMENT_CHARACTER :: lossy_loop fuel r0
        | [] => [REPLACEMENT_CHARACTER]
        end
      else if between 0xF0 0xF4 b0 then
        match r0 with
        | b1 :: r1 =>
            if second4 b0 b1 then
              match r1 with
              | b2 :: r2 =>
                  if cont b2 then
                    match r2 with
                    | b3 :: r3 =>
                        if cont b3 then char4 b0 b1 b2 b3 :: lossy_loop fuel r3
                        else REPLACEMENT_CHARACTER :: lossy_loop fuel r2
                    | [] => [REPLACEMENT_CHARACTER]
                    end
                  else REPLACEMENT_CHARACTER :: lossy_loop fuel r1
              | [] => [REPLACEMENT_CHARACTER]
              end
            else REPLACEMENT_CHARACTER :: lossy_loop fuel r0
        | [] => [REPLACEMENT_CHARACTER]
        end
      else REPLACEMENT_CHARACTER :: lossy_loop fuel r0
  | _, _ => []
  end.
Definition from_utf8_lossy (bs : bytes) : str := lossy_loop (length bs) bs.

(** More fuel than bytes makes no difference. *)
Lemma lossy_loop_fuel fuel1 : forall fuel2 bs,
  length bs <= fuel1 -> length bs <= fuel2 -> lossy_loop fuel1 bs = lossy_loop fuel2 bs.
Proof.
  induction fuel1 as [|fuel1 IH]; intros [|fuel2] [|b0 r0]; cbn [length]; try done; try lia.
  intros H1 H2. cbn [lossy_loop].
  repeat case_match; subst; cbn [length] in *; try done; f_equal; apply IH; cbn [length]; lia.
Qed.

(** ** Text survives the encoding *)

Lemma between_true lo hi b : (lo <= b <= hi)%Z -> between lo hi b = true.
Proof. unfold between. intros. apply andb_true_iff. split; lia. Qed.

Lemma between_false lo hi b : (b < lo \/ hi < b)%Z -> between lo hi b = false.
Proof. unfold between. intros. apply andb_false_iff. destruct H; [left|right]; lia. Qed.

Lemma digits64 z k :
  (0 <= z)%Z -> (0 < k)%Z -> (z / k = (z / (k * 64)) * 64 + (z / k) mod 64)%Z
  /\ (0 <= (z / k) mod 64 < 64)%Z.
Proof.
  intros Hz Hk. split; [|apply Z.mod_pos_bound; lia].
  rewrite <- Z.div_div by lia. rewrite Z.mul_comm. apply Z.div_mod. lia.
Qed.

(** One scalar value is read back from its encoding. *)
Lemma lossy_utf8 fuel c rest :
  scalar c = true -> lossy_loop (S fuel) (utf8 c ++ rest) = c :: lossy_loop fuel rest.
Proof.
  unfold scalar, utf8. intros Hc. remember (Z.of_N c) as z eqn:Ez.
  assert ((0 <= z < 0xD800)%Z \/ (0xE000 <= z < 0x110000)%Z) as Hz by lia.
  assert (c = Z.to_N z) as -> by lia. clear Ez Hc.
  destruct (digits64 z 1) as [D0 R0]; [lia..|]. rewrite Z.div_1_r in D0, R0.
  destruct (digits64 z 64) as [D1 R1]; [lia..|]. change (1 * 64)%Z with 64%Z in *.
  destruct (digits64 z 4096) as [D2 R2]; [lia..|]. change (64 * 64)%Z with 4096%Z in *.
  change (4096 * 64)%Z with 262144%Z in *.
  set (q1 := (z / 64)%Z) in *. set (q2 := (z / 4096)%Z) in *. set (q3 := (z / 262144)%Z) in *.
  set (r0 := (z mod 64)%Z) in *. set (r1 := (q1 mod 64)%Z) in *. set (r2 := (q2 mod 64)%Z) in *.
  clearbody q1 q2 q3 r0 r1 r2.
  destruct (Z.ltb_spec z 0x80).
  { cbn [app lossy_loop]. by rewrite (proj2 (Z.ltb_lt z 0x80)) by lia. }
  destruct (Z.ltb_spec z 0x800).
  { cbn [app lossy_loop]. rewrite (proj2 (Z.ltb_ge _ _)) by lia.
    rewrite between_true by lia. unfold cont. rewrite between_true by lia.
    unfold char2. do 2 f_equal. lia. }
  destruct (Z.ltb_spec z 0x10000).
  { cbn [app lossy_loop]. rewrite (proj2 (Z.ltb_ge _ _)) by lia.
    rewrite between_false by lia. rewrite between_true by lia.
    assert (second3 (0xE0 + q2) (0x80 + r1) = true) as ->.
    { unfold second3, cont. destruct (Z.eqb_spec (0xE0 + q2) 0xE0); [apply between_true; lia|].
      destruct (Z.eqb_spec (0xE0 + q2) 0xED); apply between_true; lia. }
    unfold cont. rewrite between_true by lia. unfold char3. do 2 f_equal. lia. }
  cbn [app lossy_loop]. rewrite (proj2 (Z.ltb_ge _ _)) by lia.
  rewrite !between_false by lia. rewrite between_true by lia.
  assert (second4 (0xF0 + q3) (0x80 + r2) = true) as ->.
  { unfold second4, cont. destruct (Z.eqb_spec (0xF0 + q3) 0xF0); [apply between_true; lia|].
    destruct (Z.eqb_spec (0xF0 + q3) 0xF4); apply between_true; lia. }
  unfold cont. rewrite !between_true by lia. unfold char4. do 2 f_equal. lia.
Qed.

Lemma utf8_nonempty c : 1 <= length (utf8 c).
Proof. unfold utf8. repeat case_match; simpl; lia. Qed.

Lemma lossy_loop_as_bytes fuel s :
  forallb scalar s = true -> length (as_bytes s) <= fuel -> lossy_loop fuel (as_bytes s) = s.
Proof.
  revert fuel. induction s as [|c s IH]; intros fuel; [by destruct fuel|].
  cbn [forallb]. intros [Hc Hs]%andb_true_iff. unfold as_bytes. cbn [mbind list_bind].
  rewrite length_app. pose proof (utf8_nonempty c). intros Hf.
  destruct fuel as [|fuel]; [lia|]. rewrite lossy_utf8 by done. f_equal.
  apply IH; [done|]. unfold as_bytes. lia.
Qed.

(** Decoding the bytes of a string gives the string. *)
Lemma from_utf8_lossy_as_bytes s :
  forallb scalar s = true -> from_utf8_lossy (as_bytes s) = s.
Proof. intros Hs. by apply lossy_loop_as_bytes. Qed.

(** * Peeking at text *)

(** [char::is_whitespace]: the characters with the Unicode property
    [White_Space]. *)
Definition is_whitespace (c : N) : bool :=
  ((9 <=? c)%N && (c <=? 13)%N) || (c =? 32)%N || (c =? 0x85)%N || (c =? 0xA0)%N
  || (c =? 0x1680)%N || ((0x2000 <=? c)%N && (c <=? 0x200A)%N) || (c =? 0x2028)%N
  || (c =? 0x2029)%N || (c =? 0x202F)%N || (c =? 0x205F)%N || (c =? 0x3000)%N.

(** [str::trim_start]. *)
Fixpoint trim_start (s : str) : str :=
  match s with
  | [] => []
  | c :: s' => if is_whitespace c then trim_start s' else s
  end.

(** [str::strip_prefix] with a [char]. *)
Definition strip_prefix (p : N) (s : str) : option str :=
  match s with
  | c :: s' => if (c =? p)%N then Some s' else None
  | [] => None
  end.

(** [str::find] with a [char], then the slice before it. *)
Fixpoint before_char (p : N) (s : str) : option str :=
  match s with
  | [] => None
  | c :: s' => if (c =? p)%N then Some [] else cons c <$> before_char p s'
  end.

(** JSON's own whitespace. *)
Definition json_ws (c : N) : bool := (c =? 32)%N || (c =? 9)%N || (c =? 10)%N || (c =? 13)%N.

Lemma json_ws_whitespace c : json_ws c = true -> is_whitespace c = true.
Proof. unfold json_ws, is_whitespace. intros. lia. Qed.

Lemma trim_start_ws ws c s :
  forallb json_ws ws = true -> is_whitespace c = false ->
  trim_start (ws ++ c :: s) = c :: s.
Proof.
  induction ws as [|w ws IH]; simpl.
  - by intros _ ->.
  - intros [Hw Hws]%andb_true_iff Hc. rewrite (json_ws_whitespace _ Hw). by apply IH.
Qed.

Lemma before_char_app p s t : p ∉ s -> before_char p (s ++ p :: t) = Some s.
Proof.
  induction s as [|c s IH]; simpl; intros Hp.
  - by rewrite N.eqb_refl.
  - apply not_elem_of_cons in Hp as [Hc Hp]. destruct (N.eqb_spec c p); [congruence|].
    by rewrite IH.
Qed.
