(* ===== verification/Subscription.v ===== *)
(** [src/src/subscription.rs]: NIP-01 filters, live matching, and the execution of
    a filter against the store.

    A filter's [HashMap] of tag filters is an association list with distinct
    letters, in the map's iteration order: definitions that iterate over the map
    use the list's order, and theorems hold for every list. *)
From S2P Require Import Prelude Collections Event Reference Deletion Tombstones Index IndexInv IndexSpec IndexQuery Wal Store.
Open Scope memlay_scope.

(** * Filters *)

(** [struct Filter]; [Hex32] is its 32 bytes. *)
Record Filter := mkFilter {
  f_ids : option (list bytes);
  f_kinds : option (list Z);
  f_authors : option (list bytes);
  f_tag_filters : list (N * list str);
  f_since : option Z;
  f_until : option Z;
  f_limit : option Z;
  f_e_bytes : option (list bytes);
  f_p_bytes : option (list bytes);
}.

(** [Filter::default]. *)
Definition filter_default : Filter := mkFilter None None None [] None None None None None.

Definition letter_e : N := 101.
Definition letter_p : N := 112.

(** [HashMap::get] and [HashMap::insert]. *)
Fixpoint tag_get (letter : N) (m : list (N * list str)) : option (list str) :=
  match m with
  | [] => None
  | (l, vs) :: m => if bool_decide (l = letter) then Some vs else tag_get letter m
  end.

Fixpoint tag_insert (letter : N) (values : list str) (m : list (N * list str))
    : list (N * list str) :=
  match m with
  | [] => [(letter, values)]
  | (l, vs) :: m =>
      if bool_decide (l = letter) then (l, values) :: m else (l, vs) :: tag_insert letter values m
  end.

(** [Filter::e_tags], [Filter::p_tags]. *)
Definition f_e_tags (f : Filter) : option (list str) := tag_get letter_e (f_tag_filters f).
Definition f_p_tags (f : Filter) : option (list str) := tag_get letter_p (f_tag_filters f).

Section Filters.
Context `{HexCrate}.

(** [hex::decode(val).ok()] restricted to 32 bytes. *)
Definition decode_32 (v : str) : option bytes :=
  match hex_decode v with
  | Some b => if bool_decide (length b = 32) then Some b else None
  | None => None
  end.

(** The two blocks of [Filter::parse_hex_values]. *)
Definition parsed_values (values : option (list str)) (old : option (list bytes))
    : option (list bytes) :=
  match values with
  | None => old
  | Some vals =>
      match omap decode_32 vals with
      | [] => old
      | parsed => Some parsed
      end
  end.

(** [Filter::parse_hex_values]. *)
Definition parse_hex_values (f : Filter) : Filter :=
  mkFilter (f_ids f) (f_kinds f) (f_authors f) (f_tag_filters f) (f_since f) (f_until f)
    (f_limit f) (parsed_values (f_e_tags f) (f_e_bytes f))
    (parsed_values (f_p_tags f) (f_p_bytes f)).
End Filters.

(** [Option::is_none_or]. *)
Definition is_none_or {A} (p : A -> bool) (o : option A) : bool :=
  match o with None => true | Some a => p a end.

Definition mem {A} `{EqDecision A} (x : A) (l : list A) : bool := bool_decide (x ∈ l).

(** Does one of the event's tags have this single-letter name and one of these
    values? *)
Definition tag_hit (letter : N) (values : list str) (tag : Tag) : bool :=
  match tag_name tag with
  | [l] => bool_decide (l = letter)
  | _ => false
  end
  && match tag_value tag with
     | Some v => mem v values
     | None => false
     end.
Definition tag_hits (e : Event) (letter : N) (values : list str) : bool :=
  existsb (tag_hit letter values) (ev_tags e).

(** [FilterMatch::matches_event] for [Filter]. *)
Definition matches_event (f : Filter) (e : Event) : bool :=
  if negb (is_none_or (fun since => negb (ev_created_at e <? since)%Z) (f_since f)) then false else
  if negb (is_none_or (fun until => negb (ev_created_at e >? until)%Z) (f_until f)) then false else
  if negb (is_none_or (fun kinds => mem (ev_kind e) kinds) (f_kinds f)) then false else
  if negb (is_none_or (fun ids => mem (ev_id e) ids) (f_ids f)) then false else
  if negb (is_none_or (fun authors => mem (ev_pubkey e) authors) (f_authors f)) then false else
  forallb (fun '(letter, values) => tag_hits e letter values) (f_tag_filters f).

(** * Reading and writing filters as JSON objects *)

(** What [serde_json] does with the values of a filter object: reading them at the
    type of a field, and writing them. *)
Class FilterJson := {
  json : Type;
  as_kinds : json -> option (list Z);
  as_strings : json -> option (list str);
  as_u64 : json -> option Z;
  of_kinds : list Z -> json;
  of_strings : list str -> json;
  of_u64 : Z -> json;
}.

(** Values written by serde read back. *)
Class FilterJsonLaws `{FilterJson} : Prop := {
  kinds_back : forall v, Forall u32_ok v -> as_kinds (of_kinds v) = Some v;
  strings_back : forall v, as_strings (of_strings v) = Some v;
  u64_back : forall n, u64_ok n -> as_u64 (of_u64 n) = Some n;
}.

Inductive FilterError := BadValue | EmptyTagKey.

Section Serde.
Context `{HexCrate, FilterJson}.

(** [Vec<Hex32>] through [Deserialize] and [Serialize] for [Hex32]. *)
Definition as_hex_list (v : json) : option (list bytes) := as_strings v ≫= mapM decode_32.
Definition of_hex_list (l : list bytes) : json := of_strings (hex_encode <$> l).

Definition with_ids v f := mkFilter (Some v) (f_kinds f) (f_authors f) (f_tag_filters f)
  (f_since f) (f_until f) (f_limit f) (f_e_bytes f) (f_p_bytes f).
Definition with_kinds v f := mkFilter (f_ids f) (Some v) (f_authors f) (f_tag_filters f)
  (f_since f) (f_until f) (f_limit f) (f_e_bytes f) (f_p_bytes f).
Definition with_authors v f := mkFilter (f_ids f) (f_kinds f) (Some v) (f_tag_filters f)
  (f_since f) (f_until f) (f_limit f) (f_e_bytes f) (f_p_bytes f).
Definition with_tag letter v f := mkFilter (f_ids f) (f_kinds f) (f_authors f)
  (tag_insert letter v (f_tag_filters f))
  (f_since f) (f_until f) (f_limit f) (f_e_bytes f) (f_p_bytes f).
Definition with_since v f := mkFilter (f_ids f) (f_kinds f) (f_authors f) (f_tag_filters f)
  (Some v) (f_until f) (f_limit f) (f_e_bytes f) (f_p_bytes f).
Definition with_until v f := mkFilter (f_ids f) (f_kinds f) (f_authors f) (f_tag_filters f)
  (f_since f) (Some v) (f_limit f) (f_e_bytes f) (f_p_bytes f).
Definition with_limit v f := mkFilter (f_ids f) (f_kinds f) (f_authors f) (f_tag_filters f)
  (f_since f) (f_until f) (Some v) (f_e_bytes f) (f_p_bytes f).

Definition read {A} (as_ : json -> option A) (v : json) (k : A -> Filter)
    : result Filter FilterError :=
  match as_ v with Some a => Ok (k a) | None => Err BadValue end.

Definition hash_sign : N := 35.

(** One turn of the loop of [visit_map]. *)
Definition visit_entry (f : Filter) (key : str) (v : json) : result Filter FilterError :=
  if bool_decide (key = lit "ids") then read as_hex_list v (fun x => with_ids x f) else
  if bool_decide (key = lit "kinds") then read as_kinds v (fun x => with_kinds x f) else
  if bool_decide (key = lit "authors") then read as_hex_list v (fun x => with_authors x f) else
  if bool_decide (key = lit "since") then read as_u64 v (fun x => with_since x f) else
  if bool_decide (key = lit "until") then read as_u64 v (fun x => with_until x f) else
  if bool_decide (key = lit "limit") then read as_u64 v (fun x => with_limit x f) else
  match key with
  | c :: rest =>
      if bool_decide (c = hash_sign) then
        match rest with
        | [] => Err EmptyTagKey
        | [letter] => read as_strings v (fun x => with_tag letter x f)
        | _ => Ok f
        end
      else Ok f
  | [] => Ok f
  end.

(** [FilterVisitor::visit_map] on the entries of the object, in order. *)
Fixpoint visit_entries (f : Filter) (entries : list (str * json)) : result Filter FilterError :=
  match entries with
  | [] => Ok f
  | (key, v) :: entries => let? f' := visit_entry f key v in visit_entries f' entries
  end.
Definition visit_map (entries : list (str * json)) : result Filter FilterError :=
  visit_entries filter_default entries.

Definition entry {A} (key : string) (to : A -> json) (o : option A) : list (str * json) :=
  match o with Some v => [(lit key, to v)] | None => [] end.

(** [impl Serialize for Filter]: the entries written, in order. *)
Definition serialize (f : Filter) : list (str * json) :=
  entry "ids" of_hex_list (f_ids f) ++ entry "kinds" of_kinds (f_kinds f)
  ++ entry "authors" of_hex_list (f_authors f)
  ++ ((fun '(letter, values) => ([hash_sign; letter], of_strings values)) <$> f_tag_filters f)
  ++ entry "since" of_u64 (f_since f) ++ entry "until" of_u64 (f_until f)
  ++ entry "limit" of_u64 (f_limit f).
End Serde.

(** * Executing a filter *)

Definition nonempty {A} (o : option (list A)) : bool :=
  match o with Some (_ :: _) => true | _ => false end.

(** The selectivity flags of [query_filter_internal]. *)
Definition use_ids (f : Filter) : bool := nonempty (f_ids f).
Definition use_e_tags (f : Filter) : bool := nonempty (f_e_bytes f) || nonempty (f_e_tags f).
Definition use_p_tags (f : Filter) : bool := nonempty (f_p_bytes f) || nonempty (f_p_tags f).
Definition generic_letter (l : N) : bool :=
  bool_decide (l <> letter_e) && bool_decide (l <> letter_p).
Definition has_generic_tags (f : Filter) : bool :=
  existsb (fun '(l, v) => generic_letter l && nonempty (Some v)) (f_tag_filters f).
Definition use_authors (f : Filter) : bool := nonempty (f_authors f).
Definition use_kinds (f : Filter) : bool := nonempty (f_kinds f).

Definition since_ok (f : Filter) (e : Event) : bool :=
  is_none_or (fun s => (s <=? ev_created_at e)%Z) (f_since f).
Definition until_ok (f : Filter) (e : Event) : bool :=
  is_none_or (fun u => (ev_created_at e <=? u)%Z) (f_until f).

Definition fetch_limit (f : Filter) : Z := default usize_max (f_limit f).

(** The first key of the map that is neither [e] nor [p]. *)
Definition first_generic (f : Filter) : option N :=
  find (fun l => generic_letter l) (fst <$> f_tag_filters f).

Section Query.
Context `{HexCrate}.

(** The candidates, from the most selective index. *)
Definition candidates (st : EventStore) (f : Filter) : panicky (list Event) :=
  let ix := st_index st in
  let limit := fetch_limit f in
  if use_ids f then
    Ret (omap (fun id =>
           match index_get ix id with
           | Some e => if since_ok f e && until_ok f e then Some e else None
           | None => None
           end) (default [] (f_ids f)))
  else if use_e_tags f then
    Ret (match f_e_bytes f with
         | Some e_bytes => e_bytes ≫= fun b => query_by_e_tag ix b limit
         | None => default [] (f_e_tags f) ≫= fun v =>
             match decode_32 v with Some b => query_by_e_tag ix b limit | None => [] end
         end)
  else if use_p_tags f then
    Ret (match f_p_bytes f with
         | Some p_bytes => p_bytes ≫= fun b => query_by_p_tag ix b limit
         | None => default [] (f_p_tags f) ≫= fun v =>
             match decode_32 v with Some b => query_by_p_tag ix b limit | None => [] end
         end)
  else if has_generic_tags f then
    Ret (match first_generic f with
         | Some letter =>
             default [] (tag_get letter (f_tag_filters f)) ≫= fun v =>
               query_by_tag ix letter v limit
         | None => []
         end)
  else if use_authors f then
    Ret (match f_authors f with
         | Some authors => authors ≫= fun a =>
             match f_since f with
             | Some since => query_by_pubkey_since ix a since limit
             | None => query_by_pubkey ix a limit
             end
         | None => default [] (f_p_tags f) ≫= fun v =>
             match decode_32 v with Some b => query_by_pubkey ix b limit | None => [] end
         end)
  else if use_kinds f then
    Ret (default [] (f_kinds f) ≫= fun k => query_by_kind ix k limit)
  else get_newest ix limit.

(** The test of one letter of [tag_filters]; letters served by the primary index
    are skipped. *)
Definition tag_test (f : Filter) (e : Event) (letter : N) (values : list str) : bool :=
  if use_ids f then true else
  if use_e_tags f && bool_decide (letter = letter_e) then true else
  if use_p_tags f && bool_decide (letter = letter_p) then true else
  if has_generic_tags f && generic_letter letter then true else
  tag_hits e letter values.

(** The AND filters. *)
Definition and_filters (f : Filter) (e : Event) : bool :=
  since_ok f e && until_ok f e
  && is_none_or (fun kinds => mem (ev_kind e) kinds) (f_kinds f)
  && is_none_or (fun authors => mem (ev_pubkey e) authors) (f_authors f)
  && forallb (fun '(letter, values) => tag_test f e letter values) (f_tag_filters f).

(** The loop that filters the candidates and drops repeated ids. *)
Fixpoint collect (p : Event -> bool) (seen : gset bytes) (es : list Event) : list Event :=
  match es with
  | [] => []
  | e :: es =>
      if p e && bool_decide (ev_id e ∉ seen) then e :: collect p ({[ev_id e]} ∪ seen) es
      else collect p seen es
  end.

(** [SubscriptionManager::query_filter]. *)
Definition query_filter (st : EventStore) (f : Filter) : panicky (list Event) :=
  let! cs := candidates st f in
  let results := collect (and_filters f) ∅ cs in
  Ret (match f_limit f with Some lim => ztake lim results | None => results end).
End Query.

(** * What a query selects *)

Section Selected.
Context `{HexCrate}.

(** What the primary index contributes, as a predicate on stored events. *)
Definition primary (f : Filter) (e : Event) : Prop :=
  if use_ids f then
    ev_id e ∈ default [] (f_ids f) /\ since_ok f e = true /\ until_ok f e = true
  else if use_e_tags f then
    match f_e_bytes f with
    | Some bs => exists b, b ∈ bs /\ tag_id_hash b ∈ tag_id_hash <$> e_tags e
    | None => exists v, v ∈ default [] (f_e_tags f) /\
        exists b, decode_32 v = Some b /\ tag_id_hash b ∈ tag_id_hash <$> e_tags e
    end
  else if use_p_tags f then
    match f_p_bytes f with
    | Some bs => exists b, b ∈ bs /\ tag_id_hash b ∈ tag_id_hash <$> p_tags e
    | None => exists v, v ∈ default [] (f_p_tags f) /\
        exists b, decode_32 v = Some b /\ tag_id_hash b ∈ tag_id_hash <$> p_tags e
    end
  else if has_generic_tags f then
    exists letter v, first_generic f = Some letter
      /\ v ∈ default [] (tag_get letter (f_tag_filters f))
      /\ (letter, v) ∈ omap generic_tag (ev_tags e)
  else if use_authors f then
    exists a, a ∈ default [] (f_authors f) /\ tag_id_hash (ev_pubkey e) = tag_id_hash a
      /\ is_none_or (fun s => (s <=? ev_created_at e)%Z) (f_since f) = true
  else if use_kinds f then ev_kind e ∈ default [] (f_kinds f)
  else True.

Definition selected (f : Filter) (e : Event) : Prop := primary f e /\ and_filters f e = true.
End Selected.

(** * Lemmas: the query *)

(** [l] lists the stored events that satisfy [P], possibly with repetitions and
    an older text. *)
Definition lists (ix : EventIndex) (P : Event -> Prop) (l : list Event) : Prop :=
  (forall id e, by_id ix !! id = Some e -> P e <-> id ∈ ev_id <$> l)
  /\ (forall e, e ∈ l -> exists e', by_id ix !! ev_id e = Some e' /\ core e = core e').

(** ** The collecting loop *)

Lemma collect_ids p seen es id :
  id ∈ ev_id <$> collect p seen es
  <-> (id ∉ seen) /\ exists e, e ∈ es /\ ev_id e = id /\ p e = true.
Proof.
  revert seen. induction es as [|x es IH]; intros seen; cbn [collect].
  { split; [by intros ?%elem_of_nil|]. intros (_ & e & ?%elem_of_nil & _). done. }
  destruct (p x) eqn:Hp; cbn [andb].
  - case_bool_decide as Hx.
    + rewrite fmap_cons, elem_of_cons, IH. split.
      * intros [->|(Hid & e & He & Hq)].
        { split; [done|]. exists x. split; [left|done]. }
        { split; [set_solver|]. exists e. split; [by right|done]. }
      * intros (Hid & e & [->|He]%elem_of_cons & <- & Hq); [by left|].
        destruct (decide (ev_id e = ev_id x)) as [Heq|Heq]; [by left|right].
        split; [set_solver|]. eauto.
    + rewrite IH. split.
      * intros (Hid & e & He & Hq). split; [done|]. exists e. split; [by right|done].
      * intros (Hid & e & [->|He]%elem_of_cons & <- & Hq); [done|]. split; [done|]. eauto.
  - rewrite IH. split.
    + intros (Hid & e & He & Hq). split; [done|]. exists e. split; [by right|done].
    + intros (Hid & e & [->|He]%elem_of_cons & <- & Hq); [congruence|]. split; [done|]. eauto.
Qed.

Lemma collect_sub p seen es e : e ∈ collect p seen es -> e ∈ es /\ p e = true.
Proof.
  revert seen. induction es as [|x es IH]; intros seen; cbn [collect];
    [by intros ?%elem_of_nil|].
  destruct (p x && bool_decide (ev_id x ∉ seen)) eqn:Hx.
  - apply andb_true_iff in Hx as [Hp _]. intros [->|He]%elem_of_cons; [by split; [left|]|].
    destruct (IH _ He). split; [by right|done].
  - intros He. destruct (IH _ He). split; [by right|done].
Qed.

Lemma collect_NoDup p seen es : NoDup (ev_id <$> collect p seen es).
Proof.
  revert seen. induction es as [|x es IH]; intros seen; cbn [collect]; [constructor|].
  destruct (p x && bool_decide (ev_id x ∉ seen)); [|done].
  rewrite fmap_cons. constructor; [|done]. rewrite collect_ids. set_solver.
Qed.
Section QueryLemmas.
Context `{HexCrate} (core_of : bytes -> Core).
Abbreviation wf := (wf_index core_of).

(** Distinct stored ids are at most the number of stored events. *)
Lemma stored_length ix (l : list Event) :
  NoDup (ev_id <$> l) -> (forall e, e ∈ l -> is_Some (by_id ix !! ev_id e)) ->
  length l <= index_len ix.
Proof.
  intros Hnd Hin. rewrite <- (length_fmap ev_id), <- (size_list_to_set _ Hnd).
  unfold index_len. rewrite <- size_dom. apply subseteq_size. intros id.
  rewrite elem_of_list_to_set. intros (e & -> & He)%list_elem_of_fmap.
  by apply elem_of_dom, Hin.
Qed.

Lemma answers_all ix P limit l :
  answers_exactly ix P limit l -> (Z.of_nat (index_len ix) <= limit)%Z -> lists ix P l.
Proof.
  intros (all & -> & Hs & Hnd & Hm & Hin) Hlim.
  assert (length all <= index_len ix) as Hle.
  { apply stored_length; [done|]. intros e He. destruct (Hin e He) as (e' & ? & _). eauto. }
  rewrite ztake_all by lia. by split.
Qed.

Lemma lists_nil ix (P : Event -> Prop) : (forall e, ~ P e) -> lists ix P [].
Proof.
  intros HP. split.
  - intros id e _. split; [by intros ?%HP|by intros ?%elem_of_nil].
  - by intros e ?%elem_of_nil.
Qed.

Lemma lists_ext ix (P Q : Event -> Prop) l :
  (forall id e, by_id ix !! id = Some e -> P e <-> Q e) -> lists ix P l -> lists ix Q l.
Proof.
  intros HPQ [Hm Hin]. split; [|done]. intros id e He. rewrite <- (HPQ _ _ He). by apply Hm.
Qed.

(** Concatenating the answers for several keys. *)
Lemma lists_bind {A} ix (P : A -> Event -> Prop) (q : A -> list Event) (ks : list A) :
  (forall a, a ∈ ks -> lists ix (P a) (q a)) ->
  lists ix (fun e => exists a, a ∈ ks /\ P a e) (ks ≫= q).
Proof.
  intros Hq. split.
  - intros id e He. split.
    + intros (a & Ha & HP). apply (proj1 (Hq a Ha) _ _ He) in HP.
      apply list_elem_of_fmap in HP as (x & -> & Hx). apply list_elem_of_fmap_2.
      apply list_elem_of_bind. eauto.
    + intros (x & -> & (a & Hx & Ha)%list_elem_of_bind)%list_elem_of_fmap.
      exists a. split; [done|]. apply (proj1 (Hq a Ha) _ _ He). by apply list_elem_of_fmap_2.
  - intros e (a & He & Ha)%list_elem_of_bind. by apply (Hq a Ha).
Qed.

(** All events. *)
Lemma newest_lists ix count :
  wf ix -> (0 < count)%Z -> (Z.of_nat (index_len ix) <= count)%Z ->
  exists l, get_newest ix count = Ret l /\ lists ix (fun _ => True) l.
Proof.
  intros Hwf Hc Hl. destruct (get_newest_spec core_of ix count Hwf Hc)
    as (l & Hg & Hlen & Hnd & Hin & _ & _).
  exists l. split; [done|]. split; [|done]. intros id e He. split; [intros _|done].
  assert ((list_to_set (ev_id <$> l) : gset bytes) = dom (by_id ix)) as Hset.
  { apply set_subseteq_size_eq.
    - intros i. rewrite elem_of_list_to_set. intros (x & -> & Hx)%list_elem_of_fmap.
      apply elem_of_dom. destruct (Hin x Hx) as (e' & ? & _). eauto.
    - rewrite (size_list_to_set _ Hnd), length_fmap, size_dom. unfold index_len in *. lia. }
  assert (id ∈ (list_to_set (ev_id <$> l) : gset bytes)) as Hid.
  { rewrite Hset. apply elem_of_dom. eauto. }
  by apply elem_of_list_to_set in Hid.
Qed.

End QueryLemmas.

Section Exactness.
Context `{HexCrate} (core_of : bytes -> Core).
Abbreviation wf := (wf_index core_of).

(** The filters only look at what the id determines. *)
Lemma and_filters_core f e e' : core e = core e' -> and_filters f e = and_filters f e'.
Proof.
  unfold core. intros [= Hp Ht Hk Htags].
  unfold and_filters, since_ok, until_ok, tag_test, tag_hits. by rewrite Hp, Ht, Hk, Htags.
Qed.

Lemma candidates_ids st f :
  wf (st_index st) -> use_ids f = true ->
  exists cs, candidates st f = Ret cs /\ lists (st_index st) (primary f) cs.
Proof.
  intros Hwf Hu. unfold candidates, primary. rewrite Hu. eexists. split; [done|]. split.
  - intros id e He. destruct (wf_by_id _ _ Hwf _ _ He) as [Hid _]. rewrite list_elem_of_fmap.
    setoid_rewrite elem_of_omap_iff. unfold index_get. split.
    + intros (Hin & Hs & Hu'). exists e. split; [done|]. exists (ev_id e). split; [done|].
      by rewrite Hid, He, Hs, Hu'.
    + intros (x & -> & i & Hi & Hx). destruct (by_id (st_index st) !! i) as [y|] eqn:Hy; [|done].
      destruct (since_ok f y && until_ok f y) eqn:Hsu; [|done]. injection Hx as ->.
      destruct (wf_by_id _ _ Hwf _ _ Hy) as [<- _]. rewrite He in Hy. injection Hy as ->.
      apply andb_true_iff in Hsu as [? ?]. done.
  - intros e. rewrite elem_of_omap_iff. unfold index_get. intros (i & _ & Hx).
    destruct (by_id (st_index st) !! i) as [y|] eqn:Hy; [|done].
    destruct (since_ok f y && until_ok f y); [|done]. injection Hx as ->.
    destruct (wf_by_id _ _ Hwf _ _ Hy) as [<- _]. by exists e.
Qed.

(** Tag values that are looked up by their decoded bytes. *)
Lemma lists_decoded ix (P : bytes -> Event -> Prop) (q : bytes -> list Event) (vs : list str) :
  (forall b, lists ix (P b) (q b)) ->
  lists ix (fun e => exists v, v ∈ vs /\ exists b, decode_32 v = Some b /\ P b e)
    (vs ≫= fun v => match decode_32 v with Some b => q b | None => [] end).
Proof.
  intros Hq. apply lists_bind. intros v _. destruct (decode_32 v) as [b|].
  - eapply lists_ext; [|apply Hq]. intros _ e _. naive_solver.
  - apply lists_nil. naive_solver.
Qed.

Lemma candidates_lists st f :
  wf (st_index st) -> (0 < fetch_limit f)%Z ->
  (Z.of_nat (index_len (st_index st)) <= fetch_limit f)%Z ->
  exists cs, candidates st f = Ret cs /\ lists (st_index st) (primary f) cs.
Proof.
  intros Hwf H0 Hl. destruct (use_ids f) eqn:Hi; [by apply candidates_ids|].
  unfold candidates, primary. rewrite Hi.
  destruct (use_e_tags f).
  { eexists. split; [done|]. destruct (f_e_bytes f) as [bs|].
    - apply lists_bind. intros b _. eapply answers_all; [by eapply query_by_e_tag_answers|done].
    - apply lists_decoded. intros b. eapply answers_all; [by eapply query_by_e_tag_answers|done]. }
  destruct (use_p_tags f).
  { eexists. split; [done|]. destruct (f_p_bytes f) as [bs|].
    - apply lists_bind. intros b _. eapply answers_all; [by eapply query_by_p_tag_answers|done].
    - apply lists_decoded. intros b. eapply answers_all; [by eapply query_by_p_tag_answers|done]. }
  destruct (has_generic_tags f).
  { eexists. split; [done|]. destruct (first_generic f) as [letter|].
    - eapply lists_ext; [|apply (lists_bind _ (fun v e => (letter, v) ∈ omap generic_tag (ev_tags e)))].
      + intros _ e _. naive_solver.
      + intros v _. eapply answers_all; [by eapply query_by_tag_answers|done].
    - apply lists_nil. naive_solver. }
  destruct (use_authors f) eqn:Ha.
  { eexists. split; [done|]. unfold use_authors in Ha.
    destruct (f_authors f) as [authors|]; [|done]. apply lists_bind. intros a _.
    destruct (f_since f) as [since|].
    - eapply answers_all; [by eapply query_since_exact|done].
    - eapply lists_ext; [|eapply answers_all; [by eapply query_by_pubkey_answers|done]].
      intros _ e _. naive_solver. }
  destruct (use_kinds f).
  { eexists. split; [done|].
    eapply lists_ext; [|apply (lists_bind _ (fun k e => ev_kind e = k))].
    - intros _ e _. naive_solver.
    - intros k _. eapply answers_all; [by eapply query_by_kind_answers|done]. }
  by eapply newest_lists.
Qed.

Lemma query_filter_spec st f :
  wf (st_index st) -> (0 < fetch_limit f)%Z ->
  (Z.of_nat (index_len (st_index st)) <= fetch_limit f)%Z ->
  exists l, query_filter st f = Ret l /\ NoDup (ev_id <$> l)
  /\ lists (st_index st) (selected f) l.
Proof.
  intros Hwf H0 Hl. destruct (candidates_lists st f Hwf H0 Hl) as (cs & Hc & Hm & Hin).
  unfold query_filter. rewrite Hc. cbn [panicky_bind]. eexists. split; [done|].
  set (l := collect (and_filters f) ∅ cs).
  assert (forall e, e ∈ l -> exists e', by_id (st_index st) !! ev_id e = Some e' /\ core e = core e')
    as Hst by (intros e [He _]%collect_sub; by apply Hin).
  assert (NoDup (ev_id <$> l)) as Hnd by apply collect_NoDup.
  assert (length l <= index_len (st_index st)) as Hlen.
  { apply stored_length; [done|]. intros e He. destruct (Hst e He) as (e' & ? & _). eauto. }
  assert (match f_limit f with Some lim => ztake lim l | None => l end = l) as ->.
  { unfold fetch_limit in Hl. destruct (f_limit f) as [lim|]; [|done]. apply ztake_all.
    simpl in Hl. lia. }
  split; [done|]. split; [|done]. intros id e He. unfold l. rewrite collect_ids. split.
  - intros [Hp Hand]. split; [set_solver|]. apply (Hm id e He) in Hp.
    apply list_elem_of_fmap in Hp as (x & -> & Hx). exists x. split_and!; [done|done|].
    destruct (Hin x Hx) as (e' & He' & Hcore). rewrite He in He'. injection He' as <-.
    by rewrite (and_filters_core f x e Hcore).
  - intros (_ & x & Hx & <- & Hand). split.
    + apply (Hm _ _ He). by apply list_elem_of_fmap_2.
    + destruct (Hin x Hx) as (e' & He' & Hcore). rewrite He in He'. injection He' as <-.
      by rewrite <- (and_filters_core f x e Hcore).
Qed.
End Exactness.

(** ** Stored and live matching *)

(** A chain of early returns is a conjunction. *)
Lemma guards_true (b1 b2 b3 b4 b5 b6 : bool) :
  (if negb b1 then false else if negb b2 then false else if negb b3 then false else
   if negb b4 then false else if negb b5 then false else b6) = true
  <-> b1 = true /\ b2 = true /\ b3 = true /\ b4 = true /\ b5 = true /\ b6 = true.
Proof.
  destruct b1, b2, b3, b4, b5; simpl; (split; [intros; by split_and!|]);
    by intros (? & ? & ? & ? & ? & ?).
Qed.

Lemma since_until_matches f e :
  matches_event f e = true <->
  since_ok f e = true /\ until_ok f e = true
  /\ is_none_or (fun kinds => mem (ev_kind e) kinds) (f_kinds f) = true
  /\ is_none_or (fun ids => mem (ev_id e) ids) (f_ids f) = true
  /\ is_none_or (fun authors => mem (ev_pubkey e) authors) (f_authors f) = true
  /\ forallb (fun '(letter, values) => tag_hits e letter values) (f_tag_filters f) = true.
Proof.
  unfold matches_event, since_ok, until_ok.
  assert (is_none_or (fun since => negb (ev_created_at e <? since)%Z) (f_since f)
    = is_none_or (fun s => (s <=? ev_created_at e)%Z) (f_since f)) as ->.
  { destruct (f_since f); [|done]. simpl. by rewrite Z.leb_antisym. }
  assert (is_none_or (fun until => negb (ev_created_at e >? until)%Z) (f_until f)
    = is_none_or (fun u => (ev_created_at e <=? u)%Z) (f_until f)) as ->.
  { destruct (f_until f); [|done]. simpl. by rewrite Z.gtb_ltb, Z.leb_antisym. }
  apply guards_true.
Qed.

(** A single-letter tag with one of the values is what the generic index files. *)
Lemma tag_hits_generic e letter values :
  generic_letter letter = true ->
  tag_hits e letter values = true
  <-> exists v, v ∈ values /\ (letter, v) ∈ omap generic_tag (ev_tags e).
Proof.
  unfold generic_letter. intros [He Hp]%andb_true_iff. apply bool_decide_eq_true in He, Hp.
  unfold tag_hits. rewrite existsb_exists. setoid_rewrite elem_of_omap_iff. split.
  - intros (tag & Hin%list_elem_of_In & Hhit). unfold tag_hit, mem in Hhit.
    destruct (tag_name tag) as [|l [|l' name]] eqn:Hn; [done| |done].
    destruct (tag_value tag) as [v|] eqn:Hv; [|by rewrite andb_false_r in Hhit].
    apply andb_true_iff in Hhit as [->%bool_decide_eq_true Hval%bool_decide_eq_true].
    exists v. split; [done|]. exists tag. split; [done|].
    unfold generic_tag. by rewrite Hn, Hv, !bool_decide_true.
  - intros (v & Hv & tag & Hin & Hg). exists tag. split; [by apply list_elem_of_In|].
    unfold generic_tag in Hg. unfold tag_hit, mem.
    destruct (tag_name tag) as [|l [|l' name]]; [done| |done].
    case_match; [|done]. destruct (tag_value tag) as [v'|]; [|done].
    simpl in Hg. injection Hg as -> ->. by rewrite !bool_decide_true.
Qed.

(** The filters on which the stored query and live matching agree: no [#e] or
    [#p], at most one other tag filter and none together with ids, and no empty
    list of ids. *)
Definition simple_filter (f : Filter) : Prop :=
  f_e_bytes f = None /\ f_p_bytes f = None /\ f_ids f <> Some []
  /\ match f_tag_filters f with
     | [] => True
     | [(l, _)] => generic_letter l = true /\ f_ids f = None
     | _ => False
     end.

Section Agreement.
Context `{HexCrate}.

Lemma simple_no_ep f :
  simple_filter f -> use_e_tags f = false /\ use_p_tags f = false.
Proof.
  intros (He & Hp & _ & Ht). unfold use_e_tags, use_p_tags, f_e_tags, f_p_tags.
  rewrite He, Hp. destruct (f_tag_filters f) as [|[l vs] [|]]; [done| |done].
  destruct Ht as [Hl _]. unfold generic_letter in Hl. apply andb_true_iff in Hl as [H1 H2].
  apply bool_decide_eq_true in H1, H2. simpl. by rewrite !bool_decide_false.
Qed.

(** Without ids or a tag index, the primary index asks for nothing that the
    remaining filters do not. *)
Lemma plain_primary f e :
  use_ids f = false -> use_e_tags f = false -> use_p_tags f = false ->
  has_generic_tags f = false -> and_filters f e = true -> primary f e.
Proof.
  intros Hi He Hp Hg Hand. unfold primary. rewrite Hi, He, Hp, Hg.
  unfold and_filters in Hand. rewrite !andb_true_iff in Hand.
  destruct Hand as [[[[Hs _] Hk] Ha] _].
  destruct (use_authors f) eqn:Hua.
  - unfold use_authors in Hua. destruct (f_authors f) as [authors|]; [|done].
    simpl in Ha. unfold mem in Ha. apply bool_decide_eq_true in Ha.
    exists (ev_pubkey e). split_and!; [done|done|exact Hs].
  - destruct (use_kinds f) eqn:Huk; [|done]. unfold use_kinds in Huk.
    destruct (f_kinds f) as [kinds|]; [|done]. simpl in Hk. unfold mem in Hk.
    by apply bool_decide_eq_true in Hk.
Qed.

(** The remaining filters, when no letter is skipped. *)
Lemma and_filters_matches f e :
  use_ids f = false -> use_e_tags f = false -> use_p_tags f = false ->
  has_generic_tags f = false -> f_ids f = None ->
  and_filters f e = true <-> matches_event f e = true.
Proof.
  intros Hi He Hp Hg Hids. rewrite since_until_matches. unfold and_filters, tag_test.
  rewrite Hi, He, Hp, Hg, Hids. simpl andb. rewrite !andb_true_iff.
  split; [intros [[[[? ?] ?] ?] ?]; done|intros (? & ? & ? & _ & ? & ?); done].
Qed.

Lemma selected_matches_ids f e :
  simple_filter f -> use_ids f = true -> selected f e <-> matches_event f e = true.
Proof.
  intros Hf Hi. pose proof Hf as (_ & _ & _ & Ht).
  assert (f_tag_filters f = []) as Hnil.
  { unfold use_ids in Hi. destruct (f_tag_filters f) as [|[l vs] [|]]; [done| |done].
    destruct Ht as [_ Ht]. by rewrite Ht in Hi. }
  rewrite since_until_matches. unfold selected, primary, and_filters. rewrite Hi, Hnil.
  rewrite !andb_true_iff. unfold use_ids in Hi. destruct (f_ids f) as [ids|]; [|done].
  assert (mem (ev_id e) ids = true <-> ev_id e ∈ ids) as Hmem by apply bool_decide_eq_true.
  cbn [is_none_or forallb default id]. rewrite Hmem. unfold since_ok, until_ok. tauto.
Qed.

Lemma selected_matches f e :
  simple_filter f -> selected f e <-> matches_event f e = true.
Proof.
  intros Hf. destruct (use_ids f) eqn:Hi; [by apply selected_matches_ids|].
  destruct (simple_no_ep f Hf) as [He Hp]. pose proof Hf as (_ & _ & Hne & Ht).
  assert (f_ids f = None) as Hids.
  { unfold use_ids in Hi. by destruct (f_ids f) as [[|]|]. }
  destruct (has_generic_tags f) eqn:Hg.
  - destruct (f_tag_filters f) as [|[l vs] [|]] eqn:Htf; [|destruct Ht as [Hl _]|done].
    { unfold has_generic_tags in Hg. by rewrite Htf in Hg. }
    assert (first_generic f = Some l /\ tag_get l (f_tag_filters f) = Some vs) as [Hfg Htg].
    { unfold first_generic. rewrite Htf. cbn [fmap list_fmap find fst tag_get].
      by rewrite Hl, bool_decide_true. }
    assert (primary f e <-> tag_hits e l vs = true) as Hprim.
    { rewrite (tag_hits_generic e l vs Hl). unfold primary. rewrite Hi, He, Hp, Hg, Hfg. split.
      - intros (l' & v & [= <-] & Hv & Hin). rewrite Htg in Hv. eauto.
      - intros (v & Hv & Hin). exists l, v. by rewrite Htg. }
    rewrite since_until_matches. unfold selected, and_filters, tag_test. rewrite Hprim.
    rewrite Hi, He, Hp, Hg, Hids, Htf. cbn [forallb andb is_none_or].
    rewrite Hl, !andb_true_iff. tauto.
  - unfold selected. rewrite <- (and_filters_matches f e) by done. split; [by intros [_ ?]|].
    intros Hand. split; [by apply plain_primary|done].
Qed.
End Agreement.

(** ** Stored queries miss nothing that live matching accepts *)

Lemma tag_get_elem l vs m : tag_get l m = Some vs -> (l, vs) ∈ m.
Proof.
  induction m as [|[l' vs'] m IH]; cbn [tag_get]; [done|]. case_bool_decide; subst.
  - intros [= ->]. left.
  - intros Hg. right. by apply IH.
Qed.

Section Complete.
Context `{HexLaws}.

(** A filter as a REQ registers it: the decoded [#e] and [#p] values are those of
    [parse_hex_values], and every such value is an id. *)
Definition id_values (o : option (list str)) : Prop :=
  forall vs v, o = Some vs -> v ∈ vs -> is_Some (decode_32 v).
Definition decoded_filter (f : Filter) : Prop :=
  f_e_bytes f = parsed_values (f_e_tags f) None /\ f_p_bytes f = parsed_values (f_p_tags f) None
  /\ id_values (f_e_tags f) /\ id_values (f_p_tags f).

Lemma decode_parse_32 v b : decode_32 v = Some b -> parse_hex_32 v = Some b.
Proof.
  unfold decode_32, parse_hex_32. destruct (hex_decode v) as [b'|] eqn:Hd; [|done].
  case_bool_decide as Hl; [|done]. intros [= ->].
  assert (from_hex 32 v = Some b) as Hf by by apply from_hex_decode.
  apply hex_decode_len in Hd. by rewrite Hd, Hl, Hf.
Qed.

(** A hit of a tag [e] or [p] is an id the event is filed under. *)
Lemma tag_hits_ids e letter vs :
  tag_hits e letter vs = true -> id_values (Some vs) ->
  exists v b, v ∈ vs /\ decode_32 v = Some b
    /\ b ∈ omap (fun tag => if bool_decide (tag_name tag = [letter])
                            then tag_value tag ≫= parse_hex_32 else None) (ev_tags e).
Proof.
  unfold tag_hits. rewrite existsb_exists. intros (tag & Hin%list_elem_of_In & Hhit) Hid.
  unfold tag_hit, mem in Hhit. destruct (tag_name tag) as [|l [|]] eqn:Hn; [done| |done].
  destruct (tag_value tag) as [v|] eqn:Hv; [|by rewrite andb_false_r in Hhit].
  apply andb_true_iff in Hhit as [->%bool_decide_eq_true Hval%bool_decide_eq_true].
  destruct (Hid vs v eq_refl Hval) as [b Hb]. exists v, b. split_and!; [done|done|].
  apply elem_of_omap_iff. exists tag. split; [done|].
  rewrite Hn, bool_decide_true, Hv by done. by apply decode_parse_32.
Qed.

Lemma matches_hits f e l vs :
  matches_event f e = true -> tag_get l (f_tag_filters f) = Some vs -> tag_hits e l vs = true.
Proof.
  intros Hm Hg%tag_get_elem. apply since_until_matches in Hm as (_ & _ & _ & _ & _ & Hall).
  rewrite forallb_forall in Hall. by apply (Hall (l, vs)), list_elem_of_In.
Qed.

(** The primary index on ids of tags: [bytes] is the decoded form of the values. *)
Lemma primary_ids f e letter vs bytes (keys : Event -> list (list Z)) :
  matches_event f e = true -> tag_get letter (f_tag_filters f) = vs -> id_values vs ->
  bytes = parsed_values vs None ->
  nonempty bytes || nonempty vs = true ->
  (forall e, keys e = omap (fun tag => if bool_decide (tag_name tag = [letter])
                              then tag_value tag ≫= parse_hex_32 else None) (ev_tags e)) ->
  match bytes with
  | Some bs => exists b, b ∈ bs /\ tag_id_hash b ∈ tag_id_hash <$> keys e
  | None => exists v, v ∈ default [] vs /\
      exists b, decode_32 v = Some b /\ tag_id_hash b ∈ tag_id_hash <$> keys e
  end.
Proof.
  intros Hm Hg Hid -> Hne Hk. destruct vs as [vs|]; [|done].
  destruct (tag_hits_ids e letter vs (matches_hits f e letter vs Hm Hg) Hid)
    as (v & b & Hv & Hb & Hin).
  rewrite <- Hk in Hin. apply (list_elem_of_fmap_2 tag_id_hash) in Hin.
  unfold parsed_values. destruct (omap decode_32 vs) as [|b0 bs] eqn:Ho.
  - exists v. split; [done|]. by exists b.
  - exists b. rewrite <- Ho. split; [|done]. apply elem_of_omap_iff. by exists v.
Qed.

Lemma matches_selected f e :
  decoded_filter f -> matches_event f e = true -> selected f e.
Proof.
  intros (Hbe & Hbp & He & Hp) Hm.
  pose proof Hm as (Hs & Hu & Hk & Hi & Ha & Hall)%since_until_matches.
  assert (and_filters f e = true) as Hand.
  { unfold and_filters. rewrite Hs, Hu, Hk, Ha. cbn [andb].
    rewrite forallb_forall in *. intros [l vs] Hin. specialize (Hall (l, vs) Hin). cbn in Hall.
    unfold tag_test. by repeat case_match. }
  split; [|done]. unfold primary.
  destruct (use_ids f) eqn:Eids.
  { unfold use_ids in Eids. destruct (f_ids f) as [ids|]; [|done]. cbn in Hi.
    unfold mem in Hi. by apply bool_decide_eq_true in Hi. }
  destruct (use_e_tags f) eqn:Ee.
  { by eapply (primary_ids f e letter_e (f_e_tags f) (f_e_bytes f)). }
  destruct (use_p_tags f) eqn:Ep.
  { by eapply (primary_ids f e letter_p (f_p_tags f) (f_p_bytes f)). }
  destruct (has_generic_tags f) eqn:Eg.
  2: { pose proof (plain_primary f e Eids Ee Ep Eg Hand) as Hpl. unfold primary in Hpl.
       by rewrite Eids, Ee, Ep, Eg in Hpl. }
  unfold has_generic_tags in Eg. apply existsb_exists in Eg as ([l0 vs0] & Hin & [Hl0 _]%andb_true_iff).
  assert (exists l, first_generic f = Some l) as [l Hfg].
  { unfold first_generic. destruct (List.find _ _) as [l|] eqn:Hf; [by exists l|].
    pose proof (find_none _ _ Hf l0) as Hno. rewrite Hno in Hl0; [done|].
    apply in_map_iff. by exists (l0, vs0). }
  pose proof Hfg as [Hinl Hl]%find_some. apply in_map_iff in Hinl as ([l' vs'] & [= ->] & Hin').
  assert (is_Some (tag_get l (f_tag_filters f))) as [vs Hvs].
  { clear -Hin'. induction (f_tag_filters f) as [|[l2 vs2] m IH]; [done|]. cbn [tag_get].
    case_bool_decide; [by eexists|]. destruct Hin' as [[= -> ->]|Hin']; [done|by apply IH]. }
  pose proof (matches_hits f e l vs Hm Hvs) as Hh.
  apply (tag_hits_generic e l vs Hl) in Hh as (v & Hv & Hf). exists l, v. by rewrite Hvs.
Qed.

Lemma matches_core f e e' : core e = core e' -> ev_id e = ev_id e' ->
  matches_event f e = matches_event f e'.
Proof.
  unfold core. intros [= Hp Ht Hk Htags] Hid. unfold matches_event, tag_hits.
  by rewrite Hp, Ht, Hk, Htags, Hid.
Qed.

Lemma query_complete core_of st f :
  wf_index core_of (st_index st) -> decoded_filter f -> (0 < fetch_limit f)%Z ->
  (Z.of_nat (index_len (st_index st)) <= fetch_limit f)%Z ->
  exists l, query_filter st f = Ret l
  /\ forall i e, by_id (st_index st) !! i = Some e -> matches_event f e = true ->
       exists e', e' ∈ l /\ ev_id e' = i /\ core e' = core e.
Proof.
  intros Hwf Hf Hpos Hl. destruct (query_filter_spec core_of st f Hwf Hpos Hl)
    as (l & Hq & _ & Hm & Hst).
  exists l. split; [done|]. intros i e He Hmatch.
  assert (i ∈ ev_id <$> l) as (e' & -> & Hin)%list_elem_of_fmap
    by by apply (Hm i e He), matches_selected.
  destruct (Hst e' Hin) as (e2 & He2 & Hc). exists e'. split_and!; [done|done|congruence].
Qed.
End Complete.

(** * Properties *)

(** C21: a query whose limit is no smaller than the store never panics and
    returns, without repetition, exactly the stored events it selects: those the
    primary index yields and that pass the remaining filters. *)
Theorem query_filter_exact `{HexCrate} core_of st f :
  wf_index core_of (st_index st) -> (0 < fetch_limit f)%Z ->
  (Z.of_nat (index_len (st_index st)) <= fetch_limit f)%Z ->
  exists l, query_filter st f = Ret l /\ NoDup (ev_id <$> l)
  /\ (forall id e, by_id (st_index st) !! id = Some e -> selected f e <-> id ∈ ev_id <$> l)
  /\ (forall e, e ∈ l -> exists e', by_id (st_index st) !! ev_id e = Some e' /\ core e = core e').
Proof. apply query_filter_spec. Qed.

Definition three_store : EventStore := with_index three_ix small_store.

Definition kind_filter (kinds : list Z) : Filter :=
  mkFilter None (Some kinds) None [] None None None None None.

Lemma query_filter_exact_witness :
  exists l, query_filter three_store (kind_filter [1%Z]) = Ret l /\ NoDup (ev_id <$> l).
Proof.
  destruct (query_filter_exact (core_table three_notes) three_store (kind_filter [1%Z]))
    as (l & Hq & Hnd & _).
  - exact three_ix_wf.
  - reflexivity.
  - vm_compute. congruence.
  - exact (ex_intro _ l (conj Hq Hnd)).
Defined.

(** C22: the two halves of a subscription agree on simple filters: those without
    [#e] and [#p], with at most one other tag filter, which must not stand beside
    ids, and whose list of ids, if there is one, is not empty. For such a filter,
    with a limit no smaller than the store, the stored events a query returns are
    exactly those that live matching would deliver. *)
Theorem query_agrees_with_live `{HexCrate} core_of st f :
  wf_index core_of (st_index st) -> simple_filter f -> (0 < fetch_limit f)%Z ->
  (Z.of_nat (index_len (st_index st)) <= fetch_limit f)%Z ->
  exists l, query_filter st f = Ret l
  /\ (forall id e, by_id (st_index st) !! id = Some e ->
        id ∈ ev_id <$> l <-> matches_event f e = true).
Proof.
  intros Hwf Hf H0 Hl. destruct (query_filter_spec core_of st f Hwf H0 Hl)
    as (l & Hq & _ & Hm & _).
  exists l. split; [done|]. intros id e He. rewrite <- (Hm id e He). by apply selected_matches.
Qed.

Lemma query_agrees_with_live_witness :
  exists l, query_filter three_store (kind_filter [1%Z]) = Ret l
  /\ (forall id e, by_id (st_index three_store) !! id = Some e ->
        id ∈ ev_id <$> l <-> matches_event (kind_filter [1%Z]) e = true).
Proof.
  apply (query_agrees_with_live (core_table three_notes)).
  - exact three_ix_wf.
  - split_and!; try reflexivity. discriminate.
  - reflexivity.
  - vm_compute. congruence.
Defined.

(** ** Filters as JSON *)

Section RoundTrip.
Context `{HexLaws, FilterJsonLaws}.

(** Values that serde can write and read back. *)
Definition hex32_ok (l : option (list bytes)) : Prop :=
  forall v, l = Some v -> Forall (fun b => length b = 32 /\ Forall u8_ok b) v.
Definition num_ok (o : option Z) : Prop := forall n, o = Some n -> u64_ok n.

Record wire_ok (f : Filter) : Prop := {
  wo_ids : hex32_ok (f_ids f);
  wo_kinds : forall v, f_kinds f = Some v -> Forall u32_ok v;
  wo_authors : hex32_ok (f_authors f);
  wo_letters : NoDup (fst <$> f_tag_filters f);
  wo_since : num_ok (f_since f);
  wo_until : num_ok (f_until f);
  wo_limit : num_ok (f_limit f);
}.

Lemma visit_entries_app f l1 l2 :
  visit_entries f (l1 ++ l2) = result_bind (visit_entries f l1) (fun f' => visit_entries f' l2).
Proof.
  revert f. induction l1 as [|[k v] l1 IH]; intros f; [done|]. cbn [app visit_entries].
  destruct (visit_entry f k v); [|done]. apply IH.
Qed.

Lemma hex_list_back l :
  Forall (fun b => length b = 32 /\ Forall u8_ok b) l -> as_hex_list (of_hex_list l) = Some l.
Proof.
  intros Hl. unfold as_hex_list, of_hex_list. rewrite strings_back. cbn [mbind option_bind].
  apply mapM_Some, Forall2_fmap_l, Forall_Forall2_diag. eapply Forall_impl; [exact Hl|].
  intros b [Hb Hu]. unfold decode_32, compose. rewrite hex_decode_encode by done.
  by rewrite bool_decide_true.
Qed.

Lemma tag_insert_fresh letter values m :
  letter ∉ fst <$> m -> tag_insert letter values m = m ++ [(letter, values)].
Proof.
  induction m as [|[l vs] m IH]; [done|]. rewrite fmap_cons. intros [Hne Hm]%not_elem_of_cons.
  cbn [tag_insert]. simpl in Hne. rewrite bool_decide_false by congruence.
  by rewrite IH.
Qed.

Lemma visit_tag f letter values :
  visit_entry f [hash_sign; letter] (of_strings values) = Ok (with_tag letter values f).
Proof. unfold visit_entry. simpl. unfold read. by rewrite strings_back. Qed.

Definition with_tags (m : list (N * list str)) (f : Filter) : Filter :=
  mkFilter (f_ids f) (f_kinds f) (f_authors f) m (f_since f) (f_until f) (f_limit f)
    (f_e_bytes f) (f_p_bytes f).

Lemma visit_tags f tags :
  NoDup (fst <$> f_tag_filters f ++ tags) ->
  visit_entries f ((fun '(letter, values) => ([hash_sign; letter], of_strings values)) <$> tags)
  = Ok (with_tags (f_tag_filters f ++ tags) f).
Proof.
  revert f. induction tags as [|[l vs] tags IH]; intros f Hnd.
  { simpl. rewrite app_nil_r. by destruct f. }
  rewrite fmap_cons. cbn [visit_entries]. rewrite visit_tag. cbn [result_bind].
  assert (f_tag_filters (with_tag l vs f) = f_tag_filters f ++ [(l, vs)]) as Heq.
  { apply tag_insert_fresh. rewrite fmap_app, fmap_cons in Hnd.
    apply NoDup_app in Hnd as (_ & Hdis & _). intros Hl. apply (Hdis _ Hl). left. }
  rewrite IH.
  - rewrite Heq, <- app_assoc. done.
  - by rewrite Heq, <- app_assoc.
Qed.

(** An optional entry of the object. *)
Lemma visit_opt {A} (key : string) (to : A -> json) (set : A -> Filter -> Filter) o f :
  (forall v, o = Some v -> visit_entry f (lit key) (to v) = Ok (set v f)) ->
  visit_entries f (entry key to o) = Ok (match o with Some v => set v f | None => f end).
Proof. intros Hv. destruct o as [v|]; [|done]. simpl. by rewrite (Hv v eq_refl). Qed.

Lemma visit_hex key set o f :
  hex32_ok o ->
  (forall v, visit_entry f (lit key) v = read as_hex_list v (fun x => set x f)) ->
  visit_entries f (entry key of_hex_list o) = Ok (match o with Some v => set v f | None => f end).
Proof.
  intros Ho Hk. apply visit_opt. intros v ->. rewrite Hk. unfold read.
  by rewrite hex_list_back by by apply Ho.
Qed.

Lemma visit_num key set o f :
  num_ok o -> (forall v, visit_entry f (lit key) v = read as_u64 v (fun x => set x f)) ->
  visit_entries f (entry key of_u64 o) = Ok (match o with Some v => set v f | None => f end).
Proof.
  intros Ho Hk. apply visit_opt. intros v ->. rewrite Hk. unfold read.
  by rewrite u64_back by by apply Ho.
Qed.

(** C36: filters survive the wire: reading back the JSON object a filter is
    written as gives the same filter, without its cache of decoded tag values. *)
Theorem filter_json_round_trip f :
  wire_ok f ->
  visit_map (serialize f)
  = Ok (mkFilter (f_ids f) (f_kinds f) (f_authors f) (f_tag_filters f) (f_since f)
          (f_until f) (f_limit f) None None).
Proof.
  intros [Hids Hkinds Hauth Hlet Hs Hu Hli]. unfold visit_map, serialize. rewrite visit_entries_app.
  rewrite (visit_hex "ids" with_ids) by done. cbn [result_bind]. rewrite visit_entries_app.
  rewrite (visit_opt "kinds" of_kinds with_kinds)
    by (intros v Hv; unfold visit_entry, read; simpl; by rewrite kinds_back by by apply Hkinds).
  cbn [result_bind]. rewrite visit_entries_app, (visit_hex "authors" with_authors) by done.
  cbn [result_bind]. rewrite visit_entries_app.
  rewrite visit_tags by (destruct (f_ids f), (f_kinds f), (f_authors f); exact Hlet).
  cbn [result_bind]. rewrite visit_entries_app, (visit_num "since" with_since) by done.
  cbn [result_bind]. rewrite visit_entries_app, (visit_num "until" with_until) by done.
  cbn [result_bind]. rewrite (visit_num "limit" with_limit) by done.
  by destruct f as [[|] [|] [|] tags [|] [|] [|] eb pb].
Qed.
End RoundTrip.

(** A concrete JSON value type. *)
Inductive ref_value := RStrings (l : list str) | RKinds (l : list Z) | RNum (n : Z).

#[export] Instance ref_json : FilterJson := {|
  json := ref_value;
  as_kinds v := match v with RKinds l => Some l | _ => None end;
  as_strings v := match v with RStrings l => Some l | _ => None end;
  as_u64 v := match v with RNum n => Some n | _ => None end;
  of_kinds := RKinds;
  of_strings := RStrings;
  of_u64 := RNum;
|}.

#[export] Instance ref_json_laws : FilterJsonLaws.
Proof. by split. Qed.

Definition sample_filter : Filter :=
  mkFilter (Some [key32 1]) (Some [1%Z]) None [(116%N, [lit "nostr"])] (Some 5%Z) None
    (Some 10%Z) None None.

Lemma filter_json_round_trip_witness :
  wire_ok sample_filter /\ visit_map (serialize sample_filter) = Ok sample_filter.
Proof.
  assert (wire_ok sample_filter) as Hok.
  { split; simpl; try (intros v; discriminate).
    - intros v [= <-]. repeat constructor; vm_compute; intuition congruence.
    - intros v [= <-]. repeat constructor; vm_compute; intuition congruence.
    - repeat constructor. apply not_elem_of_nil.
    - intros n [= <-]. vm_compute. intuition congruence.
    - intros n [= <-]. vm_compute. intuition congruence. }
  split; [exact Hok|]. exact (filter_json_round_trip sample_filter Hok).
Defined.

(** ** Where stored queries and live matching part *)

Definition by_author (id kind created_at : Z) (tags : list Tag) : Event :=
  sample id 7 kind created_at tags.

Definition store_of (es : list Event) : EventStore :=
  with_index (exec_all index_new (OpInsert <$> es)).1 small_store.

Definition answer_ids (m : panicky (list Event)) : option (list bytes) :=
  match m with Ret l => Some (ev_id <$> l) | Panic => None end.

(** The limit is applied before the AND filters: the author's newest event is
    a reaction, so asking for the author's latest text note with limit 1 returns
    nothing, although a matching note is stored. *)
Theorem limit_applied_before_filters :
  let note := by_author 1 1 10 [] in
  let reaction := by_author 2 7 20 [] in
  let f := mkFilter None (Some [1%Z]) (Some [key32 7]) [] None None (Some 1%Z) None None in
  matches_event f note = true /\ matches_event f reaction = false
  /\ answer_ids (query_filter (store_of [note; reaction]) f) = Some [].
Proof. vm_compute. split_and!; reflexivity. Qed.

(** Tag filters that are not primary are skipped: a query for two generic
    tags returns an event with only the first of them, a query for [#e] and [#p]
    an event with the [e] tag only, and a query for an id and a tag the event
    without the tag; live matching rejects all three. *)
Theorem secondary_tag_filters_ignored :
  let tagged := by_author 1 1 10 [mkTag (lit "t") [lit "a"]] in
  let f1 := mkFilter None None None [(116%N, [lit "a"]); (120%N, [lit "b"])] None None None None None in
  let reply := by_author 2 1 10 [mkTag (lit "e") [ref_encode (key32 9)]] in
  let f2 := parse_hex_values (mkFilter None None None
    [(letter_e, [ref_encode (key32 9)]); (letter_p, [ref_encode (key32 8)])]
    None None None None None) in
  let f3 := mkFilter (Some [key32 2]) None None [(116%N, [lit "a"])] None None None None None in
  matches_event f1 tagged = false /\ matches_event f2 reply = false
  /\ matches_event f3 reply = false
  /\ answer_ids (query_filter (store_of [tagged; reply]) f1) = Some [key32 1]
  /\ answer_ids (query_filter (store_of [tagged; reply]) f2) = Some [key32 2]
  /\ answer_ids (query_filter (store_of [tagged; reply]) f3) = Some [key32 2].
Proof. vm_compute. split_and!; reflexivity. Qed.

(** An empty list of ids: live matching finds every event's id missing from it and
    rejects them all; the stored query takes the list for absent, and the filter for
    one of kinds. *)
Theorem empty_ids_match_stored :
  let note := by_author 1 1 10 [] in
  let f := mkFilter (Some []) (Some [1%Z]) None [] None None None None None in
  matches_event f note = false
  /\ answer_ids (query_filter (store_of [note]) f) = Some [key32 1].
Proof. vm_compute. split_and!; reflexivity. Qed.

Lemma tag_id_hash_app (a b : bytes) :
  length a = 16 -> length b = 16 ->
  tag_id_hash (a ++ b) = Z.lxor (from_be_bytes a) (from_be_bytes b).
Proof.
  intros Ha Hb. unfold tag_id_hash.
  rewrite (take_app_length' a b 16), (drop_app_length' a b 16) by done.
  by rewrite take_ge by lia.
Qed.

(** The folded hash of the tag indexes collides for ids that anyone can write
    down: swapping the halves of any 32-byte id gives the same key, and a query
    for the one returns an event that references the other. *)
Theorem swapped_id_collides a b :
  length a = 16 -> length b = 16 ->
  tag_id_hash (a ++ b) = tag_id_hash (b ++ a)
  /\ (let f := parse_hex_values (mkFilter None None None
         [(letter_e, [ref_encode (key32 9)])] None None None None None) in
      let swapped := drop 16 (key32 9) ++ take 16 (key32 9) in
      let reply := by_author 1 1 10 [mkTag (lit "e") [ref_encode swapped]] in
      matches_event f reply = false
      /\ answer_ids (query_filter (store_of [reply]) f) = Some [key32 1]).
Proof.
  intros Ha Hb. split; [|vm_compute; split; reflexivity].
  rewrite !tag_id_hash_app by done. apply Z.lxor_comm.
Qed.

Lemma swapped_id_collides_witness :
  tag_id_hash (replicate 16 1%Z ++ replicate 16 2%Z)
  = tag_id_hash (replicate 16 2%Z ++ replicate 16 1%Z).
Proof. exact (proj1 (swapped_id_collides (replicate 16 1%Z) (replicate 16 2%Z) eq_refl eq_refl)). Defined.
