(* ===== verification/QueryMeanwhile.v ===== *)
(** Stored queries of [src/src/subscription.rs] beside writers: a REQ's query reads
    one bucket per author, kind or tag value (or looks up one id after the other, or
    scans the shards of [by_oldest]) and locks nothing in between, so that each read
    may find the index in another of the states that concurrent inserts, evictions
    and deletions go through ([Threads.v]). *)
From S2P Require Import Prelude Collections Event Reference Tombstones Index IndexInv IndexSpec IndexQuery Threads ThreadsInv ThreadsProps ThreadsQuery Store Subscription.
Open Scope memlay_scope.

Section Meanwhile.
Context `{HexCrate}.

(** * The query, each read at its own time *)

(** The [n]-th read finds the index [at_ n]. *)
Definition reading {A} (q : EventIndex -> A -> list Event) (at_ : nat -> EventIndex)
    (keys : list A) : list Event :=
  concat (imap (fun n k => q (at_ n) k) keys).

Definition decoded (q : EventIndex -> bytes -> list Event) (ix : EventIndex) (v : str) : list Event :=
  match decode_32 v with Some b => q ix b | None => [] end.

Definition by_id_within (f : Filter) (ix : EventIndex) (id : bytes) : list Event :=
  match index_get ix id with
  | Some e => if since_ok f e && until_ok f e then [e] else []
  | None => []
  end.

(** [EventIndex::get_newest], shard [k] read in the [k]-th state. *)
Definition get_newest_meanwhile (at_ : nat -> EventIndex) (count : Z) : panicky (list Event) :=
  if (count =? 0)%Z then Ret [] else
  let! h := newest_shards count
    ((fun k => bk_get (by_oldest (at_ k)) k) <$> seq 0 (length (by_oldest (at_ 0)))) [] in
  Ret (er_event <$> reverse (unreverse <$> h)).

(** The candidates of [query_filter_internal]. *)
Definition candidates_meanwhile (at_ : nat -> EventIndex) (f : Filter) : panicky (list Event) :=
  let limit := fetch_limit f in
  let e_tag ix b := query_by_e_tag ix b limit in
  let p_tag ix b := query_by_p_tag ix b limit in
  let pubkey ix b := query_by_pubkey ix b limit in
  if use_ids f then Ret (reading (by_id_within f) at_ (default [] (f_ids f)))
  else if use_e_tags f then
    Ret (match f_e_bytes f with
         | Some e_bytes => reading e_tag at_ e_bytes
         | None => reading (decoded e_tag) at_ (default [] (f_e_tags f))
         end)
  else if use_p_tags f then
    Ret (match f_p_bytes f with
         | Some p_bytes => reading p_tag at_ p_bytes
         | None => reading (decoded p_tag) at_ (default [] (f_p_tags f))
         end)
  else if has_generic_tags f then
    Ret (match first_generic f with
         | Some letter => reading (fun ix v => query_by_tag ix letter v limit) at_
                            (default [] (tag_get letter (f_tag_filters f)))
         | None => []
         end)
  else if use_authors f then
    Ret (match f_authors f with
         | Some authors =>
             reading (fun ix a => match f_since f with
                                  | Some since => query_by_pubkey_since ix a since limit
                                  | None => query_by_pubkey ix a limit
                                  end) at_ authors
         | None => reading (decoded pubkey) at_ (default [] (f_p_tags f))
         end)
  else if use_kinds f then
    Ret (reading (fun ix k => query_by_kind ix k limit) at_ (default [] (f_kinds f)))
  else get_newest_meanwhile at_ limit.

(** [SubscriptionManager::query_filter]. *)
Definition query_filter_meanwhile (at_ : nat -> EventIndex) (f : Filter) : panicky (list Event) :=
  let! cs := candidates_meanwhile at_ f in
  let results := collect (and_filters f) ∅ cs in
  Ret (match f_limit f with Some lim => ztake lim results | None => results end).

(** ** Undisturbed, it is the query of [Subscription.v] *)

Lemma reading_still {A} (q : EventIndex -> A -> list Event) ix keys :
  reading q (fun _ => ix) keys = keys ≫= q ix.
Proof.
  unfold reading. change (imap (fun (_ : nat) k => q ix k) keys) with (imap (const (q ix)) keys).
  rewrite imap_const. induction keys as [|k keys IH]; [done|]. cbn. by rewrite IH.
Qed.

Lemma get_newest_still ix count : get_newest_meanwhile (fun _ => ix) count = get_newest ix count.
Proof.
  unfold get_newest_meanwhile, get_newest.
  replace ((fun k => bk_get (by_oldest ix) k) <$> seq 0 (length (by_oldest ix))) with (by_oldest ix);
    [done|].
  apply list_eq. intros k. rewrite list_lookup_fmap.
  destruct (by_oldest ix !! k) as [s|] eqn:Hs.
  - rewrite lookup_seq_lt by (by eapply lookup_lt_Some). simpl. by rewrite Hs.
  - apply lookup_ge_None in Hs. by rewrite lookup_seq_ge.
Qed.

Lemma candidates_still st f : candidates_meanwhile (fun _ => st_index st) f = candidates st f.
Proof.
  unfold candidates_meanwhile, candidates, decoded.
  rewrite get_newest_still. repeat case_match; rewrite ?reading_still; try done.
  f_equal. induction (default [] (f_ids f)) as [|id l IH]; [done|].
  cbn [mbind list_bind omap list_omap]. rewrite IH. unfold by_id_within.
  destruct (index_get (st_index st) id) as [e|]; [|done]. by destruct (since_ok f e && until_ok f e).
Qed.

Lemma query_still st f : query_filter_meanwhile (fun _ => st_index st) f = query_filter st f.
Proof. unfold query_filter_meanwhile, query_filter. by rewrite candidates_still. Qed.
End Meanwhile.

(** * What the reads find *)

Section Found.
Context `{HexCrate} (core_of : bytes -> Core) (ws : nat -> World).
Hypothesis ws_ok : forall n, world_ok core_of (ws n).

Abbreviation at_ := (fun n => w_index (ws n)).

(** [e] is stored or in flight in some of the states; or stored, and no call is
    working on it, in all of them. *)
Definition seen_sometime (e : Event) : Prop :=
  exists n, stored_as (ws n) e \/ in_flight (ws n) (ev_id e).
Definition settled_throughout (e : Event) : Prop :=
  forall n, stored_as (ws n) e /\ ~ in_flight (ws n) (ev_id e).

(** The reads of [l] found only events with [P]; and, if they found fewer than
    [limit], they found every settled one. *)
Record found (P : Event -> Prop) (limit : Z) (l : list Event) : Prop := {
  fd_sound : forall e, e ∈ l -> P e /\ seen_sometime e;
  fd_same : forall e e', e ∈ l -> settled_throughout e' -> ev_id e = ev_id e' -> core e = core e';
  fd_complete : (Z.of_nat (length l) < limit)%Z ->
    forall e, settled_throughout e -> P e -> ev_id e ∈ ev_id <$> l;
}.

Lemma found_ext P Q limit l : (forall e, P e <-> Q e) -> found P limit l -> found Q limit l.
Proof.
  intros HPQ [Hs Hc Hl]. split; [|done|].
  - intros e He. rewrite <- HPQ. by apply Hs.
  - intros Hlen e Hst. rewrite <- HPQ. by apply Hl.
Qed.

Lemma found_nil (P : Event -> Prop) limit : (forall e, ~ P e) -> found P limit [].
Proof.
  intros HP. split; [by intros e ?%elem_of_nil|by intros e e' ?%elem_of_nil|].
  by intros _ e _ ?%HP.
Qed.

Lemma stored_as_core w e e' :
  stored_as w e -> stored_as w e' -> ev_id e = ev_id e' -> core e = core e'.
Proof. intros (x & Hx & ->) (y & Hy & ->) Hid. congruence. Qed.

(** One read of one bucket. *)
Lemma found_answer n (P : Event -> Prop) limit l :
  (forall e e', core e = core e' -> P e -> P e') ->
  answers_meanwhile (ws n) P limit l -> found P limit l.
Proof.
  intros HP (all & -> & _ & _ & Hs & Hc). split.
  - intros e He%elem_of_ztake. destruct (Hs e He) as [? Hor]. split; [done|by exists n].
  - intros e e' He%elem_of_ztake Hst Hid. destruct (Hst n) as [Hst' Hno].
    destruct (Hs e He) as [_ [?|Hfl]]; [by eapply stored_as_core|]. by rewrite Hid in Hfl.
  - intros Hlen e Hst He. destruct (Hst n) as [(x & Hx & Hcore) Hno].
    assert (ztake limit all = all) as Hall.
    { rewrite ztake_take in *. apply take_ge. rewrite length_take in Hlen. lia. }
    rewrite Hall. destruct (Hc (ev_id e) x Hx) as [?|?]; [by apply (HP e)|done|done].
Qed.

(** One read per key. *)
Lemma found_reading {A} (P : A -> Event -> Prop) limit q (keys : list A) :
  (forall n k, found (P k) limit (q (at_ n) k)) ->
  found (fun e => exists k, k ∈ keys /\ P k e) limit (reading q at_ keys).
Proof.
  intros Hq. unfold reading.
  assert (forall e, e ∈ concat (imap (fun n k => q (at_ n) k) keys) ->
    exists n k, keys !! n = Some k /\ e ∈ q (at_ n) k) as Hin.
  { intros e (l & He & (n & Hn)%list_elem_of_lookup)%elem_of_concat.
    rewrite list_lookup_imap in Hn. destruct (keys !! n) as [k|] eqn:Hk; [|done].
    cbn in Hn. injection Hn as <-. by exists n, k. }
  split.
  - intros e (n & k & Hk & He)%Hin. destruct (fd_sound _ _ _ (Hq n k) e He) as [HP Hs].
    split; [|done]. exists k. split; [by eapply list_elem_of_lookup_2|done].
  - intros e e' (n & k & Hk & He)%Hin. by apply (fd_same _ _ _ (Hq n k)).
  - intros Hlen e Hst (k & [n Hn]%list_elem_of_lookup & HP).
    assert (q (at_ n) k `sublist_of` concat (imap (fun n k => q (at_ n) k) keys)) as Hsub.
    { assert (imap (fun n k => q (at_ n) k) keys !! n = Some (q (at_ n) k)) as Hl
        by (by rewrite list_lookup_imap, Hn).
      apply list_elem_of_split_length in Hl as (l1 & l2 & -> & _).
      rewrite concat_app. cbn [concat]. by apply sublist_inserts_l, sublist_inserts_r. }
    pose proof (sublist_length _ _ Hsub) as Hle.
    apply (fd_complete _ _ _ (Hq n k)) in HP as (x & -> & Hx)%list_elem_of_fmap; [|lia|done].
    apply list_elem_of_fmap_2. by eapply elem_of_sublist.
Qed.

Lemma found_decoded (P : bytes -> Event -> Prop) limit q vs :
  (forall n b, found (P b) limit (q (at_ n) b)) ->
  found (fun e => exists v, v ∈ vs /\ exists b, decode_32 v = Some b /\ P b e) limit
    (reading (decoded q) at_ vs).
Proof.
  intros Hq. apply found_reading. intros n v. unfold decoded. destruct (decode_32 v) as [b|].
  - eapply found_ext; [|apply Hq]. naive_solver.
  - apply found_nil. naive_solver.
Qed.

(** ** The branches of the query *)

Lemma found_ids f limit :
  found (fun e => ev_id e ∈ default [] (f_ids f) /\ since_ok f e = true /\ until_ok f e = true) limit
    (reading (by_id_within f) at_ (default [] (f_ids f))).
Proof.
  eapply found_ext; [|apply (found_reading (fun id e => ev_id e = id
    /\ since_ok f e = true /\ until_ok f e = true))]; [naive_solver|].
  assert (forall e e', core e = core e' -> since_ok f e = since_ok f e' /\ until_ok f e = until_ok f e') as Hcore.
  { unfold core, since_ok, until_ok. by intros e e' [= _ -> _ _]. }
  intros n id. unfold by_id_within, index_get.
  assert (forall x, by_id (at_ n) !! id = Some x -> ev_id x = id /\ stored_as (ws n) x) as Hid.
  { intros x Hx. destruct (to_by_id _ _ _ (ws_ok n) _ _ Hx) as [Hi _]. split; [done|].
    exists x. by rewrite Hi. }
  destruct (by_id (w_index (ws n)) !! id) as [x|] eqn:Hx.
  2: { split; [by intros e ?%elem_of_nil|by intros e e' ?%elem_of_nil|].
       intros _ e Hst (<- & _). destruct (Hst n) as [(y & Hy & _) _]. cbn in *. congruence. }
  destruct (Hid x eq_refl) as [Hxi Hxs].
  destruct (since_ok f x && until_ok f x) eqn:Hb.
  - apply andb_true_iff in Hb as [Hb1 Hb2]. split.
    + intros e ->%list_elem_of_singleton. split; [done|]. exists n. by left.
    + intros e e' ->%list_elem_of_singleton Hst Hi. destruct (Hst n) as [Hs _]. by eapply stored_as_core.
    + intros _ e _ (<- & _). change (ev_id <$> [x]) with [ev_id x]. rewrite Hxi. left.
  - split; [by intros e ?%elem_of_nil|by intros e e' ?%elem_of_nil|].
    intros _ e Hst (<- & H1 & H2). destruct (Hst n) as [Hs _].
    assert (core e = core x) as Hc by by eapply stored_as_core.
    destruct (Hcore e x Hc) as [E1 E2]. by rewrite <- E1, <- E2, H1, H2 in Hb.
Qed.

(** The scan of the shards. *)
Lemma found_newest count :
  (0 < count)%Z ->
  exists l, get_newest_meanwhile at_ count = Ret l /\ found (fun _ => True) count l
    /\ (Z.of_nat (length l) <= count)%Z.
Proof.
  intros Hc. unfold get_newest_meanwhile. destruct (Z.eqb_spec count 0) as [?|_]; [lia|].
  set (n := length (by_oldest (at_ 0))).
  assert ((fun k => bk_get (by_oldest (at_ k)) k) <$> seq 0 n = shards_read (ws <$> seq 0 n)) as ->.
  { unfold shards_read. rewrite imap_fmap. apply list_eq. intros k.
    rewrite list_lookup_fmap, list_lookup_imap. destruct (seq 0 n !! k) as [j|] eqn:Hj; [|done].
    by apply lookup_seq in Hj as [-> _]. }
  assert (Forall (world_ok core_of) (ws <$> seq 0 n)) as Hok.
  { apply Forall_fmap, Forall_forall. intros k _. apply ws_ok. }
  destruct (newest_shards_spec count (shards_read (ws <$> seq 0 n)) [] [] Hc
    (shards_read_sorted core_of _ Hok)) as (h & -> & _ & Hlen & (rest & Hp) & _).
  { split_and!; [constructor|simpl; lia|by exists []|set_solver]. }
  cbn [panicky_bind app] in *. eexists. split; [done|].
  set (refs := reverse (unreverse <$> h)).
  assert (concat (shards_read (ws <$> seq 0 n)) ≡ₚ refs ++ rest) as Hpl
    by (unfold refs; by rewrite reverse_Permutation).
  assert (length refs = length h) as Hlr by (unfold refs; by rewrite length_reverse, length_fmap).
  assert (forall er, er ∈ refs -> exists w, (ws <$> seq 0 n) !! oldest_shard (er_id er) = Some w
    /\ er_id er = ev_id (er_event er) /\ (stored_as w (er_event er) \/ in_flight w (er_id er))) as Hk.
  { intros er Her. apply (scanned_known core_of _ er Hok). rewrite Hpl. apply elem_of_app. by left. }
  assert (forall k w, (ws <$> seq 0 n) !! k = Some w -> w = ws k) as Hws.
  { intros k w Hkw. rewrite list_lookup_fmap in Hkw.
    destruct (seq 0 n !! k) as [j|] eqn:Hj; [|done]. apply lookup_seq in Hj as [-> _].
    by injection Hkw as <-. }
  split; [|rewrite length_fmap, Hlr, Hlen; lia]. split.
  - intros e (er & -> & Her)%list_elem_of_fmap. split; [done|].
    destruct (Hk er Her) as (w & Hw & Hid & Hor). apply Hws in Hw as ->.
    exists (oldest_shard (er_id er)). destruct Hor as [?|?]; [by left|right; by rewrite <- Hid].
  - intros e e' (er & -> & Her)%list_elem_of_fmap Hst Hi.
    destruct (Hk er Her) as (w & Hw & Hid & Hor). apply Hws in Hw as ->.
    destruct (Hst (oldest_shard (er_id er))) as [Hs Hno].
    destruct Hor as [?|Hfl]; [by eapply stored_as_core|].
    destruct Hno. by rewrite <- Hi, <- Hid.
  - rewrite length_fmap, Hlr, Hlen. intros Hshort e Hst _.
    assert (rest = []) as ->.
    { apply Permutation_length in Hpl. rewrite length_app, Hlr in Hpl.
      destruct rest; [done|]. cbn [length] in Hpl. lia. }
    rewrite app_nil_r in Hpl. set (k := oldest_shard (ev_id e)). destruct (Hst k) as [(x & Hx & _) Hno].
    destruct (to_by_id _ _ _ (ws_ok k) _ _ Hx) as [Hxi _].
    destruct (scan_complete core_of (ws <$> seq 0 n) (ws k) x Hok) as (er & Her & Hid & _).
    + rewrite Hxi. fold k. rewrite list_lookup_fmap, lookup_seq_lt; [done|].
      apply (to_valid _ _ _ (ws_ok 0) x (SOldest k)). rewrite elem_slots_of. unfold k.
      rewrite <- Hxi. by apply list_elem_of_singleton.
    + by rewrite Hxi.
    + by rewrite Hxi.
    + rewrite Hpl in Her. destruct (Hk er Her) as (_ & _ & He & _).
      rewrite <- Hxi, <- Hid, He. by apply list_elem_of_fmap_2, list_elem_of_fmap_2.
Qed.
End Found.

Section Query.
Context `{HexCrate} (core_of : bytes -> Core) (ws : nat -> World).
Hypothesis ws_ok : forall n, world_ok core_of (ws n).

Abbreviation at_ := (fun n => w_index (ws n)).
Abbreviation found := (found ws).

(** Every way to find candidates. *)
Lemma candidates_found f :
  (0 < fetch_limit f)%Z ->
  exists cs, candidates_meanwhile at_ f = Ret cs /\ found (primary f) (fetch_limit f) cs.
Proof.
  intros Hpos. pose proof (fun n => queries_meanwhile core_of (ws n) (fetch_limit f) (ws_ok n)) as Hq.
  assert (forall e e', core e = core e' -> ev_pubkey e = ev_pubkey e' /\ ev_created_at e = ev_created_at e'
    /\ ev_kind e = ev_kind e' /\ ev_tags e = ev_tags e') as Hcore
    by by unfold core; intros e e' [= -> -> -> ->].
  assert (forall n b, found (fun e => tag_id_hash b ∈ tag_id_hash <$> e_tags e) (fetch_limit f)
    (query_by_e_tag (w_index (ws n)) b (fetch_limit f))) as He.
  { intros n b. apply (found_answer ws n); [|apply Hq]. intros e e' (_ & _ & _ & Ht)%Hcore.
    unfold e_tags. by rewrite Ht. }
  assert (forall n b, found (fun e => tag_id_hash b ∈ tag_id_hash <$> p_tags e) (fetch_limit f)
    (query_by_p_tag (w_index (ws n)) b (fetch_limit f))) as Hp.
  { intros n b. apply (found_answer ws n); [|apply Hq]. intros e e' (_ & _ & _ & Ht)%Hcore.
    unfold p_tags. by rewrite Ht. }
  unfold candidates_meanwhile, primary. destruct (use_ids f).
  { eexists. split; [done|]. by eapply found_ids. }
  destruct (use_e_tags f).
  { eexists. split; [done|]. destruct (f_e_bytes f); [by apply found_reading|by apply found_decoded]. }
  destruct (use_p_tags f).
  { eexists. split; [done|]. destruct (f_p_bytes f); [by apply found_reading|by apply found_decoded]. }
  destruct (has_generic_tags f).
  { eexists. split; [done|]. destruct (first_generic f) as [letter|]; [|by apply found_nil; naive_solver].
    eapply found_ext; [|apply (found_reading ws (fun v e => (letter, v) ∈ omap generic_tag (ev_tags e)))].
    - naive_solver.
    - intros n v. apply (found_answer ws n); [|apply Hq]. by intros e e' (_ & _ & _ & ->)%Hcore. }
  destruct (use_authors f) eqn:Ha.
  { eexists. split; [done|]. unfold use_authors in Ha. destruct (f_authors f) as [authors|]; [|done].
    apply found_reading. intros n a. destruct (f_since f) as [since|]; apply (found_answer ws n).
    - by intros e e' (-> & -> & _)%Hcore.
    - apply Hq.
    - by intros e e' (-> & -> & _)%Hcore.
    - destruct (proj1 (Hq n) a) as (all & -> & Ho & Hn & Hs & Hc). exists all.
      split; [done|]. split_and!; [done|done| |]; [intros e [? ?]%Hs; done|].
      intros i e Hi [Hm _]. by apply (Hc i e). }
  destruct (use_kinds f).
  { eexists. split; [done|].
    eapply found_ext; [|apply (found_reading ws (fun k e => ev_kind e = k))]; [naive_solver|].
    intros n k. apply (found_answer ws n); [|apply Hq]. by intros e e' (_ & _ & -> & _)%Hcore. }
  destruct (found_newest core_of ws ws_ok (fetch_limit f) Hpos) as (l & Hl & Hf & _). by exists l.
Qed.

Lemma query_meanwhile f :
  (0 < fetch_limit f)%Z ->
  exists cs l, candidates_meanwhile at_ f = Ret cs /\ query_filter_meanwhile at_ f = Ret l
  /\ NoDup (ev_id <$> l)
  /\ (forall e, e ∈ l -> selected f e /\ seen_sometime ws e)
  /\ ((Z.of_nat (length cs) < fetch_limit f)%Z ->
      forall e, settled_throughout ws e -> selected f e -> ev_id e ∈ ev_id <$> l).
Proof.
  intros Hpos. destruct (candidates_found f Hpos) as (cs & Hcs & Hf).
  unfold query_filter_meanwhile. rewrite Hcs. cbn [panicky_bind].
  set (results := collect (and_filters f) ∅ cs).
  assert (forall e, e ∈ results -> e ∈ cs /\ and_filters f e = true) as Hres by apply collect_sub.
  assert (NoDup (ev_id <$> results)) as Hnd by apply collect_NoDup.
  exists cs. eexists. split; [done|]. split; [done|]. split_and!.
  - destruct (f_limit f) as [lim|]; [|done]. rewrite ztake_take, fmap_take.
    rewrite <- (take_drop (Z.to_nat lim) (ev_id <$> results)) in Hnd. by apply NoDup_app in Hnd as [? _].
  - intros e He. assert (e ∈ results) as [Hin Hand]%Hres.
    { destruct (f_limit f); [by eapply elem_of_ztake|done]. }
    destruct (fd_sound _ _ _ _ Hf e Hin) as [? ?]. by split.
  - intros Hshort e Hst [Hp Hand].
    assert (length results <= length cs) as Hlen.
    { unfold results. generalize (∅ : gset bytes). clear. induction cs as [|x cs IH]; intros seen; cbn [collect]; [done|].
      destruct (_ && _); cbn [length]; [specialize (IH ({[ev_id x]} ∪ seen))|specialize (IH seen)]; lia. }
    assert (match f_limit f with Some lim => ztake lim results | None => results end = results) as ->.
    { unfold fetch_limit in Hshort. destruct (f_limit f) as [lim|]; [|done].
      apply ztake_all. simpl in Hshort. lia. }
    unfold results. rewrite collect_ids. split; [set_solver|].
    pose proof (fd_complete _ _ _ _ Hf Hshort e Hst Hp) as (x & Hx & Hin)%list_elem_of_fmap.
    exists x. split_and!; [done|done|].
    rewrite <- Hand. apply and_filters_core. by apply (fd_same _ _ _ _ Hf).
Qed.
End Query.

(** C13: a stored query beside writers: while inserts of distinct events that are not
    stored yet, evictions and deletions go on, a query takes its reads (one per
    author, kind, tag value or id, or one per shard) at any times, so that the
    [n]-th finds any state [ws n] that the calls can reach. It does not panic; it
    returns no id twice, and only events that it selects and that were stored, or
    being inserted or removed by a call, at some read; and if its reads found fewer
    candidates than the limit, it returns every event it selects that was stored,
    and worked on by no call, at every read. *)
Theorem concurrent_stored_query `{HexCrate} core_of ix calls (ws : nat -> World) f :
  wf_index core_of ix -> calls_ok core_of ix calls -> (0 < fetch_limit f)%Z ->
  (forall n, rtc cstep (starting ix calls) (ws n)) ->
  exists cs l, candidates_meanwhile (fun n => w_index (ws n)) f = Ret cs
  /\ query_filter_meanwhile (fun n => w_index (ws n)) f = Ret l
  /\ NoDup (ev_id <$> l)
  /\ (forall e, e ∈ l -> selected f e /\ seen_sometime ws e)
  /\ ((Z.of_nat (length cs) < fetch_limit f)%Z ->
      forall e, settled_throughout ws e -> selected f e -> ev_id e ∈ ev_id <$> l).
Proof.
  intros Hwf Hcalls Hpos Hrun. apply (query_meanwhile core_of); [|done].
  intros n. by eapply reached_ok.
Qed.

(** * Closed runs *)

(** The first read finds the first version of a list, the later ones find the index
    after it has been replaced. *)
Definition around (w : World) (n : nat) : World :=
  match n with O => starting (index_of [list_v1]) evict_and_insert | _ => w end.

Definition ids_filter (ids : list bytes) : Filter := with_ids ids filter_default.

Lemma concurrent_stored_query_witness :
  match run_schedule (starting (index_of [list_v1]) evict_and_insert) settle_run with
  | Some w =>
      exists l, query_filter_meanwhile (fun n => w_index (around w n)) (kind_filter [10002%Z; 1%Z]) = Ret l
      /\ NoDup (ev_id <$> l)
      /\ query_filter_meanwhile (fun n => w_index (around w n)) (kind_filter [10002%Z; 1%Z]) = Ret [list_v1]
  | None => False
  end.
Proof.
  destruct (run_schedule _ _) as [w|] eqn:E; [|by vm_compute in E].
  destruct (concurrent_stored_query sample_core (index_of [list_v1]) evict_and_insert (around w)
    (kind_filter [10002%Z; 1%Z])) as (cs & l & _ & Hl & Hn & _).
  - apply wf_index_of. by repeat constructor.
  - apply sample_calls_ok.
  - done.
  - intros [|n]; [done|]. by eapply run_schedule_steps.
  - exists l. split; [exact Hl|]. split; [exact Hn|].
    revert E. vm_compute. by intros [= <-].
Defined.

(** The reads are no snapshot: a query that asks for the second version of the list
    before it is stored, and for the first after it has been replaced, finds neither,
    although one of them was stored at every moment. *)
Example two_reads_miss_both :
  (fun w => match query_filter_meanwhile (fun n => w_index (around w n))
              (ids_filter [ev_id list_v2; ev_id list_v1]) with
            | Ret l => Some (ev_id <$> l)
            | Panic => None
            end) <$>
    run_schedule (starting (index_of [list_v1]) evict_and_insert) settle_run
  = Some (Some []).
Proof. vm_compute. reflexivity. Qed.
