(* ===== verification/Fanout.v ===== *)
(** [src/src/fanout.rs]: live delivery of accepted events.

    A connection's state is shared between its own task and the publishing
    threads through an [Arc]; [Fanout] therefore holds a heap of connection states
    by id, and the index of registered connections refers to them by id. The
    bounded channel to the connection's writer is a parameter ([Channel]); a
    clock reading is an argument of the operations that take one: a publication
    takes the readings of its drops as a function of connection and subscription. Iteration over a [HashSet] is iteration over its elements; the
    theorems say that the order does not matter. *)
From S2P Require Import Prelude Text Collections Event Reference Index IndexSpec IndexQuery Store Subscription.
Open Scope memlay_scope.

(** * Data *)

(** [Duration] and [Instant] in milliseconds. *)
Definition DROP_WINDOW : Z := 10000.
Definition MAX_DROPS_PER_WINDOW : Z := 2048.

(** [tokio::sync::mpsc::Sender<String>]: sending succeeds with the channel's next
    state, or fails. *)
Class Channel := {
  chan : Type;
  try_send : chan -> str -> option chan;
}.

(** [struct BroadcastEvent]. *)
Record BroadcastEvent := mkBroadcast {
  be_event : Event;
  be_json : str;
}.

(** [BroadcastEvent::new]. *)
Definition broadcast_new (event : Event) : BroadcastEvent :=
  mkBroadcast event (from_utf8_lossy (ev_raw event)).

(** [enum KindKey]. *)
Inductive KindKey :=
| KKNone
| KKAny
| KKSome (kinds : gset Z).

#[export] Instance KindKey_eq_dec : EqDecision KindKey.
Proof. solve_decision. Defined.

(** The clock readings of one publication: the one taken when the frame of this
    subscription of this connection is dropped. *)
Abbreviation Clock := (Z -> str -> Z).

Abbreviation SubEntry := (str * list Filter)%type.

Section Fanout.
Context `{Channel}.

(** [struct ConnState]. *)
Record ConnState := mkConn {
  c_id : Z;
  c_tx : chan;
  c_subs : list SubEntry;
  c_kind_key : KindKey;
  c_overflow : list str;
  c_notified : bool;
  c_kill : bool;
  c_sent : Z;
  c_dropped : Z;
  c_drop_window : Z * Z;
}.

(** [struct Index] behind [struct Fanout], with the connection states. *)
Record Fanout := mkFanout {
  fo_states : gmap Z ConnState;
  fo_conns : gset Z;
  fo_by_kind : gmap Z (gset Z);
  fo_any_kind : gset Z;
  fo_next_id : Z;
}.

Definition fanout_new : Fanout := mkFanout ∅ ∅ ∅ ∅ 0.

Definition with_state (id : Z) (c : ConnState) (fo : Fanout) : Fanout :=
  mkFanout (<[id := c]> (fo_states fo)) (fo_conns fo) (fo_by_kind fo) (fo_any_kind fo)
    (fo_next_id fo).

Definition with_key (k : KindKey) (c : ConnState) : ConnState :=
  mkConn (c_id c) (c_tx c) (c_subs c) k (c_overflow c) (c_notified c) (c_kill c)
    (c_sent c) (c_dropped c) (c_drop_window c).
Definition with_subs (s : list SubEntry) (c : ConnState) : ConnState :=
  mkConn (c_id c) (c_tx c) s (c_kind_key c) (c_overflow c) (c_notified c) (c_kill c)
    (c_sent c) (c_dropped c) (c_drop_window c).

(** * Delivery *)

Definition quote : N := 34.

(** The frame built in [deliver]. *)
Definition event_frame (sub_id : str) (json : str) : str :=
  [91%N; quote] ++ lit "EVENT" ++ [quote; 44%N; quote] ++ sub_id
  ++ [quote; 44%N] ++ json ++ [93%N].

(** [ConnState::record_drop] at time [now]. *)
Definition record_drop (now : Z) (sub_id : str) (c : ConnState) : ConnState :=
  let overflow :=
    if bool_decide (sub_id ∈ c_overflow c) then c_overflow c else c_overflow c ++ [sub_id] in
  let '(start, drops) := c_drop_window c in
  let '(window, over_limit) :=
    if (now - start >? DROP_WINDOW)%Z then ((now, 1%Z), false)
    else ((start, (drops + 1)%Z), (drops + 1 >? MAX_DROPS_PER_WINDOW)%Z) in
  mkConn (c_id c) (c_tx c) (c_subs c) (c_kind_key c) overflow true
    (if over_limit then true else c_kill c) (c_sent c) (fetch_add (c_dropped c) 1) window.

Definition record_sent (tx : chan) (c : ConnState) : ConnState :=
  mkConn (c_id c) tx (c_subs c) (c_kind_key c) (c_overflow c) (c_notified c) (c_kill c)
    (fetch_add (c_sent c) 1) (c_dropped c) (c_drop_window c).

(** One turn of the loop of [ConnState::deliver]. *)
Definition deliver_sub (clock : Clock) (ev : BroadcastEvent) (c : ConnState) (sub : SubEntry)
    : ConnState :=
  let '(sub_id, filters) := sub in
  if negb (existsb (fun f => matches_event f (be_event ev)) filters) then c else
  match try_send (c_tx c) (event_frame sub_id (be_json ev)) with
  | Some tx => record_sent tx c
  | None => record_drop (clock (c_id c) sub_id) sub_id c
  end.

(** [ConnState::deliver]. *)
Definition deliver (clock : Clock) (ev : BroadcastEvent) (c : ConnState) : ConnState :=
  foldl (deliver_sub clock ev) c (c_subs c).

(** [ConnState::take_overflowed]. *)
Definition take_overflowed (c : ConnState) : ConnState * list str :=
  (mkConn (c_id c) (c_tx c) (c_subs c) (c_kind_key c) [] (c_notified c) (c_kill c)
     (c_sent c) (c_dropped c) (c_drop_window c), c_overflow c).

(** * The kind index *)

(** [Index::index]. *)
Definition index (id : Z) (key : KindKey) (fo : Fanout) : Fanout :=
  match key with
  | KKNone => fo
  | KKAny => mkFanout (fo_states fo) (fo_conns fo) (fo_by_kind fo) ({[id]} ∪ fo_any_kind fo)
               (fo_next_id fo)
  | KKSome kinds =>
      mkFanout (fo_states fo) (fo_conns fo)
        (foldl (fun m k => <[k := {[id]} ∪ default ∅ (m !! k)]> m) (fo_by_kind fo)
           (elements kinds))
        (fo_any_kind fo) (fo_next_id fo)
  end.

(** The removal of a connection from the set of one kind; an emptied set is
    dropped. *)
Definition deindex_kind (id : Z) (m : gmap Z (gset Z)) (k : Z) : gmap Z (gset Z) :=
  match m !! k with
  | None => m
  | Some set =>
      let set' := set ∖ {[id]} in
      if bool_decide (set' = ∅) then delete k m else <[k := set']> m
  end.

(** [Index::deindex]. *)
Definition deindex (id : Z) (key : KindKey) (fo : Fanout) : Fanout :=
  match key with
  | KKNone => fo
  | KKAny => mkFanout (fo_states fo) (fo_conns fo) (fo_by_kind fo) (fo_any_kind fo ∖ {[id]})
               (fo_next_id fo)
  | KKSome kinds =>
      mkFanout (fo_states fo) (fo_conns fo)
        (foldl (deindex_kind id) (fo_by_kind fo) (elements kinds))
        (fo_any_kind fo) (fo_next_id fo)
  end.

(** The nested loop of [reindex] over the filters of all subscriptions: [None]
    when it breaks out with [any]. *)
Fixpoint collect_kinds (filters : list Filter) (kinds : gset Z) : option (gset Z) :=
  match filters with
  | [] => Some kinds
  | f :: filters =>
      match f_kinds f with
      | Some (k :: ks) => collect_kinds filters (kinds ∪ list_to_set (k :: ks))
      | _ => None
      end
  end.

(** The key computed by [Fanout::reindex]. *)
Definition subs_key (subs : list SubEntry) : KindKey :=
  match subs with
  | [] => KKNone
  | _ =>
      match collect_kinds (subs ≫= snd) ∅ with
      | Some kinds => KKSome kinds
      | None => KKAny
      end
  end.

(** [Fanout::reindex]. *)
Definition reindex (id : Z) (fo : Fanout) : Fanout :=
  match fo_states fo !! id with
  | None => fo
  | Some conn =>
      let new_key := subs_key (c_subs conn) in
      if bool_decide (c_kind_key conn = new_key) then fo else
      let fo1 := deindex id (c_kind_key conn) fo in
      let fo2 := index id new_key fo1 in
      with_state id (with_key new_key conn) fo2
  end.

(** * Operations *)

(** [Fanout::register]. *)
Definition register (tx : chan) (now : Z) (fo : Fanout) : Fanout * Z :=
  let id := (fo_next_id fo + 1)%Z in
  let state := mkConn id tx [] KKNone [] false false 0 0 (now, 0%Z) in
  (mkFanout (<[id := state]> (fo_states fo)) ({[id]} ∪ fo_conns fo) (fo_by_kind fo)
     (fo_any_kind fo) id, id).

(** [Fanout::unregister]. *)
Definition unregister (id : Z) (fo : Fanout) : Fanout :=
  match fo_states fo !! id with
  | None => fo
  | Some conn =>
      let fo1 := mkFanout (fo_states fo) (fo_conns fo ∖ {[id]}) (fo_by_kind fo)
                   (fo_any_kind fo) (fo_next_id fo) in
      with_state id (with_key KKNone conn) (deindex id (c_kind_key conn) fo1)
  end.

(** Replace the filters of a subscription, or add it. *)
Fixpoint put_sub (sub_id : str) (filters : list Filter) (subs : list SubEntry)
    : list SubEntry :=
  match subs with
  | [] => [(sub_id, filters)]
  | (id, fs) :: subs =>
      if bool_decide (id = sub_id) then (id, filters) :: subs
      else (id, fs) :: put_sub sub_id filters subs
  end.

(** [Fanout::set_sub]. *)
Definition set_sub (id : Z) (sub_id : str) (filters : list Filter) (fo : Fanout) : Fanout :=
  match fo_states fo !! id with
  | None => fo
  | Some conn =>
      reindex id (with_state id (with_subs (put_sub sub_id filters (c_subs conn)) conn) fo)
  end.

(** [Fanout::remove_sub]. *)
Definition remove_sub (id : Z) (sub_id : str) (fo : Fanout) : Fanout * bool :=
  match fo_states fo !! id with
  | None => (fo, false)
  | Some conn =>
      let subs := List.filter (fun s => bool_decide (fst s <> sub_id)) (c_subs conn) in
      let removed := negb (Nat.eqb (length subs) (length (c_subs conn))) in
      let fo1 := with_state id (with_subs subs conn) fo in
      (if removed then reindex id fo1 else fo1, removed)
  end.

(** [Fanout::sub_count], [has_sub], [conn_count]. *)
Definition sub_count (c : ConnState) : nat := length (c_subs c).
Definition has_sub (c : ConnState) (sub_id : str) : bool :=
  existsb (fun s => bool_decide (fst s = sub_id)) (c_subs c).
Definition conn_count (fo : Fanout) : nat := size (fo_conns fo).

(** The connections an event is routed to, in iteration order. *)
Definition targets (kind : Z) (fo : Fanout) : list Z :=
  if bool_decide (fo_any_kind fo = ∅) && bool_decide (fo_by_kind fo !! kind = None) then [] else
  List.filter (fun id => bool_decide (id ∈ fo_conns fo))
    (elements (fo_any_kind fo) ++ elements (default ∅ (fo_by_kind fo !! kind))).

Definition deliver_to (clock : Clock) (ev : BroadcastEvent) (fo : Fanout) (id : Z) : Fanout :=
  match fo_states fo !! id with
  | Some conn => with_state id (deliver clock ev conn) fo
  | None => fo
  end.

(** [Fanout::publish]. *)
Definition publish (clock : Clock) (ev : BroadcastEvent) (fo : Fanout) : Fanout :=
  foldl (deliver_to clock ev) fo (targets (ev_kind (be_event ev)) fo).

(** * Specification: every registered connection is offered every event *)

Definition broadcast_all (clock : Clock) (ev : BroadcastEvent) (fo : Fanout) : Fanout :=
  mkFanout (map_imap (fun id c =>
      Some (if bool_decide (id ∈ fo_conns fo) then deliver clock ev c else c)) (fo_states fo))
    (fo_conns fo) (fo_by_kind fo) (fo_any_kind fo) (fo_next_id fo).
End Fanout.

(** * Lemmas: the kind index *)

Lemma deindex_kind_lookup id m k k' :
  default ∅ (deindex_kind id m k !! k') =
    if decide (k' = k) then default ∅ (m !! k) ∖ {[id]} else default ∅ (m !! k').
Proof.
  unfold deindex_kind. destruct (m !! k) as [s|] eqn:Hk.
  - case_bool_decide as He; destruct (decide (k' = k)) as [->|Hne]; simpl.
    + by rewrite lookup_delete_eq, He.
    + by rewrite lookup_delete_ne.
    + by rewrite lookup_insert_eq.
    + by rewrite lookup_insert_ne.
  - destruct (decide (k' = k)) as [->|Hne]; [|done]. rewrite Hk. simpl. set_solver.
Qed.

Definition no_empty (m : gmap Z (gset Z)) : Prop := forall k s, m !! k = Some s -> s <> ∅.

Lemma deindex_kind_no_empty id m k : no_empty m -> no_empty (deindex_kind id m k).
Proof.
  intros Hm. unfold deindex_kind. destruct (m !! k) as [s|] eqn:Hk; [|done].
  case_bool_decide as He; intros k' s'.
  - intros [_ Hs]%lookup_delete_Some. by eapply Hm.
  - intros [[<- <-]|[_ Hs]]%lookup_insert_Some; [done|]. by eapply Hm.
Qed.

Lemma deindex_fold id m ks k :
  default ∅ (foldl (deindex_kind id) m ks !! k) =
    if decide (k ∈ ks) then default ∅ (m !! k) ∖ {[id]} else default ∅ (m !! k).
Proof.
  revert m. induction ks as [|k0 ks IH]; intros m; cbn [foldl].
  { by rewrite decide_False by apply not_elem_of_nil. }
  rewrite IH, deindex_kind_lookup.
  destruct (decide (k ∈ ks)) as [Hk|Hk], (decide (k = k0)) as [Heq|Hne],
    (decide (k ∈ k0 :: ks)) as [Hc|Hc]; rewrite elem_of_cons in Hc; try tauto;
    rewrite ?Heq; try done; set_solver.
Qed.

Lemma deindex_fold_no_empty id m ks : no_empty m -> no_empty (foldl (deindex_kind id) m ks).
Proof.
  intros Hm. apply (foldl_ind no_empty); [done|]. intros m' k _. apply deindex_kind_no_empty.
Qed.

Definition index_kind (id : Z) (m : gmap Z (gset Z)) (k : Z) : gmap Z (gset Z) :=
  <[k := {[id]} ∪ default ∅ (m !! k)]> m.

Lemma index_fold id m ks k :
  default ∅ (foldl (index_kind id) m ks !! k) =
    if decide (k ∈ ks) then {[id]} ∪ default ∅ (m !! k) else default ∅ (m !! k).
Proof.
  revert m. induction ks as [|k0 ks IH]; intros m; cbn [foldl].
  { by rewrite decide_False by apply not_elem_of_nil. }
  rewrite IH. unfold index_kind at 1 2.
  destruct (decide (k = k0)) as [Heq|Hne].
  - subst k0. rewrite lookup_insert_eq. simpl. rewrite (decide_True (P := k ∈ k :: ks)) by left.
    case_decide; set_solver.
  - rewrite lookup_insert_ne by done.
    destruct (decide (k ∈ ks)) as [Hk|Hk], (decide (k ∈ k0 :: ks)) as [Hc|Hc];
      rewrite elem_of_cons in Hc; try done; tauto.
Qed.

Lemma index_fold_no_empty id m ks : no_empty m -> no_empty (foldl (index_kind id) m ks).
Proof.
  intros Hm. apply (foldl_ind no_empty); [done|]. intros m' k _ Hm' k' s.
  unfold index_kind. intros [[<- <-]|[_ Hs]]%lookup_insert_Some; [set_solver|by eapply Hm'].
Qed.

Lemma filter_length_eq {A} (p : A -> bool) (l : list A) :
  length (List.filter p l) = length l -> List.filter p l = l.
Proof.
  induction l as [|x l IH]; [done|]. simpl. destruct (p x); simpl; intros Hl.
  - f_equal. apply IH. lia.
  - pose proof (List.filter_length_le p l). lia.
Qed.

Lemma NoDup_List_filter {A} (p : A -> bool) (l : list A) : NoDup l -> NoDup (List.filter p l).
Proof.
  induction 1 as [|x l Hx _ IH]; [constructor|]. simpl. destruct (p x); [|done].
  constructor; [|done]. intros [Hin _]%elem_of_List_filter. done.
Qed.

Section Invariant.
Context `{Channel}.

(** The index is that of the keys recorded in the connection states. *)
Record index_ok (fo : Fanout) : Prop := {
  ik_any : forall id, id ∈ fo_any_kind fo <->
    exists c, fo_states fo !! id = Some c /\ c_kind_key c = KKAny;
  ik_kind : forall k id, id ∈ default ∅ (fo_by_kind fo !! k) <->
    exists c ks, fo_states fo !! id = Some c /\ c_kind_key c = KKSome ks /\ k ∈ ks;
  ik_no_empty : no_empty (fo_by_kind fo);
}.

(** A registered connection's key is that of its subscriptions. *)
Record fanout_ok (fo : Fanout) : Prop := {
  fk_index : index_ok fo;
  fk_key : forall id c, id ∈ fo_conns fo -> fo_states fo !! id = Some c ->
    c_kind_key c = subs_key (c_subs c);
  fk_state : forall id, id ∈ fo_conns fo -> is_Some (fo_states fo !! id);
  fk_fresh : forall id, is_Some (fo_states fo !! id) -> (id <= fo_next_id fo)%Z;
}.

Definition key_has (key : KindKey) (k : Z) : Prop :=
  match key with KKSome ks => k ∈ ks | _ => False end.

Lemma index_any id key fo i :
  i ∈ fo_any_kind (index id key fo) <-> (i = id /\ key = KKAny) \/ i ∈ fo_any_kind fo.
Proof.
  destruct key as [| |ks]; cbn [index fo_any_kind];
    rewrite ?elem_of_union, ?elem_of_singleton; naive_solver.
Qed.

Lemma deindex_any id key fo i :
  i ∈ fo_any_kind (deindex id key fo) <-> i ∈ fo_any_kind fo /\ ~ (i = id /\ key = KKAny).
Proof.
  destruct key as [| |ks]; cbn [deindex fo_any_kind];
    rewrite ?elem_of_difference, ?elem_of_singleton; naive_solver.
Qed.

Lemma index_kinds id key fo k i :
  i ∈ default ∅ (fo_by_kind (index id key fo) !! k)
  <-> (i = id /\ key_has key k) \/ i ∈ default ∅ (fo_by_kind fo !! k).
Proof.
  destruct key as [| |ks]; cbn [index fo_by_kind key_has]; [naive_solver..|].
  change (fun (m : gmap Z (gset Z)) (k0 : Z) => <[k0:={[id]} ∪ default ∅ (m !! k0)]> m)
    with (index_kind id).
  rewrite index_fold. destruct (decide (k ∈ elements ks)) as [Hk|Hk];
    rewrite elem_of_elements in Hk; rewrite ?elem_of_union, ?elem_of_singleton; naive_solver.
Qed.

Lemma deindex_kinds id key fo k i :
  i ∈ default ∅ (fo_by_kind (deindex id key fo) !! k)
  <-> i ∈ default ∅ (fo_by_kind fo !! k) /\ ~ (i = id /\ key_has key k).
Proof.
  destruct key as [| |ks]; cbn [deindex fo_by_kind key_has]; [naive_solver..|].
  rewrite deindex_fold. destruct (decide (k ∈ elements ks)) as [Hk|Hk];
    rewrite elem_of_elements in Hk; rewrite ?elem_of_difference, ?elem_of_singleton; naive_solver.
Qed.

Lemma index_no_empty id key fo :
  no_empty (fo_by_kind fo) -> no_empty (fo_by_kind (index id key fo)).
Proof. intros Hm. destruct key as [| |ks]; [done|done|]. by apply index_fold_no_empty. Qed.

Lemma deindex_no_empty id key fo :
  no_empty (fo_by_kind fo) -> no_empty (fo_by_kind (deindex id key fo)).
Proof. intros Hm. destruct key as [| |ks]; [done|done|]. by apply deindex_fold_no_empty. Qed.

Lemma index_frame id key fo :
  fo_states (index id key fo) = fo_states fo /\ fo_conns (index id key fo) = fo_conns fo
  /\ fo_next_id (index id key fo) = fo_next_id fo.
Proof. by destruct key. Qed.

Lemma deindex_frame id key fo :
  fo_states (deindex id key fo) = fo_states fo /\ fo_conns (deindex id key fo) = fo_conns fo
  /\ fo_next_id (deindex id key fo) = fo_next_id fo.
Proof. by destruct key. Qed.

Lemma some_key (c : ConnState) k :
  (exists c0 ks, Some c = Some c0 /\ c_kind_key c0 = KKSome ks /\ k ∈ ks)
  <-> key_has (c_kind_key c) k.
Proof.
  split.
  - by intros (c0 & ks & [= <-] & -> & Hin).
  - destruct (c_kind_key c) as [| |ks] eqn:E; [done|done|]. intros Hin. by exists c, ks.
Qed.

(** The index in terms of the recorded keys. *)
Lemma ik_any_key fo id c :
  index_ok fo -> fo_states fo !! id = Some c -> id ∈ fo_any_kind fo <-> c_kind_key c = KKAny.
Proof. intros Hi Hc. rewrite (ik_any fo Hi id), Hc. naive_solver. Qed.

Lemma ik_kind_key fo id c k :
  index_ok fo -> fo_states fo !! id = Some c ->
  id ∈ default ∅ (fo_by_kind fo !! k) <-> key_has (c_kind_key c) k.
Proof.
  intros Hi Hc. rewrite (ik_kind fo Hi k id), Hc. apply some_key.
Qed.

(** Moving a connection from its key to another. *)
Lemma index_ok_rekey fo id c c' :
  index_ok fo -> fo_states fo !! id = Some c ->
  index_ok (with_state id c' (index id (c_kind_key c') (deindex id (c_kind_key c) fo))).
Proof.
  intros Hi Hc. destruct (index_frame id (c_kind_key c') (deindex id (c_kind_key c) fo)) as [Hs _].
  destruct (deindex_frame id (c_kind_key c) fo) as [Hs' _]. rewrite Hs' in Hs.
  split; cbn [with_state fo_any_kind fo_by_kind fo_states]; rewrite ?Hs.
  - intros i. rewrite index_any, deindex_any. destruct (decide (i = id)) as [->|Hne].
    + rewrite lookup_insert_eq, (ik_any_key fo id c Hi Hc). naive_solver.
    + rewrite lookup_insert_ne by done. rewrite (ik_any fo Hi i). naive_solver.
  - intros k i. rewrite index_kinds, deindex_kinds. destruct (decide (i = id)) as [->|Hne].
    + rewrite lookup_insert_eq, (ik_kind_key fo id c k Hi Hc).
      rewrite (some_key c' k). naive_solver.
    + rewrite lookup_insert_ne by done. rewrite (ik_kind fo Hi k i). naive_solver.
  - by apply index_no_empty, deindex_no_empty, Hi.
Qed.

(** Changing a state without changing its key. *)
Lemma index_ok_same_key fo id c c' :
  index_ok fo -> fo_states fo !! id = Some c -> c_kind_key c' = c_kind_key c ->
  index_ok (with_state id c' fo).
Proof.
  intros Hi Hc Hk. split; cbn [with_state fo_any_kind fo_by_kind fo_states]; [| |apply Hi].
  - intros i. destruct (decide (i = id)) as [->|Hne].
    + rewrite lookup_insert_eq, (ik_any_key fo id c Hi Hc). naive_solver congruence.
    + rewrite lookup_insert_ne by done. apply Hi.
  - intros k i. destruct (decide (i = id)) as [->|Hne].
    + rewrite lookup_insert_eq, (ik_kind_key fo id c k Hi Hc), <- Hk.
      by rewrite (some_key c' k).
    + rewrite lookup_insert_ne by done. apply Hi.
Qed.

(** ** The operations preserve the invariant *)

(** Everything but the key of [id]. *)
Record almost_ok (id : Z) (fo : Fanout) : Prop := {
  al_index : index_ok fo;
  al_key : forall i c, i <> id -> i ∈ fo_conns fo -> fo_states fo !! i = Some c ->
    c_kind_key c = subs_key (c_subs c);
  al_state : forall i, i ∈ fo_conns fo -> is_Some (fo_states fo !! i);
  al_fresh : forall i, is_Some (fo_states fo !! i) -> (i <= fo_next_id fo)%Z;
}.

Lemma fanout_almost id fo : fanout_ok fo -> almost_ok id fo.
Proof. intros [Hi Hk Hs Hf]. split; try done. intros i c _. apply Hk. Qed.

(** Updating the state of [id]. *)
Lemma almost_with_state id c c' fo :
  almost_ok id fo -> fo_states fo !! id = Some c -> c_kind_key c' = c_kind_key c ->
  almost_ok id (with_state id c' fo).
Proof.
  intros [Hi Hk Hs Hf] Hc Hkey. split; cbn [with_state fo_states fo_conns fo_next_id].
  - by eapply index_ok_same_key.
  - intros i x Hne. rewrite lookup_insert_ne by done. by apply Hk.
  - intros i Hin. apply lookup_insert_is_Some'. right. by apply Hs.
  - intros i [->|Hin]%lookup_insert_is_Some'; [apply Hf; eauto|by apply Hf].
Qed.

Lemma reindex_ok id fo : almost_ok id fo -> fanout_ok (reindex id fo).
Proof.
  intros [Hi Hk Hs Hf]. unfold reindex. destruct (fo_states fo !! id) as [c|] eqn:Hc.
  2: { split; try done. intros i x Hin Hx. apply (Hk i x); [|done|done]. congruence. }
  case_bool_decide as Hkey.
  { split; try done. intros i x Hin Hx. destruct (decide (i = id)) as [->|Hne]; [|by eapply Hk].
    congruence. }
  set (c' := with_key (subs_key (c_subs c)) c).
  destruct (index_frame id (c_kind_key c') (deindex id (c_kind_key c) fo)) as (S1 & C1 & N1).
  destruct (deindex_frame id (c_kind_key c) fo) as (S2 & C2 & N2).
  change (subs_key (c_subs c)) with (c_kind_key c') at 1.
  split; cbn [with_state fo_states fo_conns fo_next_id]; rewrite ?S1, ?S2, ?C1, ?C2, ?N1, ?N2.
  - by eapply index_ok_rekey.
  - intros i x Hin [[<- <-]|[Hne Hx]]%lookup_insert_Some; [done|].
    apply (Hk i x); [congruence|done|done].
  - intros i Hin. apply lookup_insert_is_Some'. right. by apply Hs.
  - intros i [->|Hin]%lookup_insert_is_Some'; [apply Hf; eauto|by apply Hf].
Qed.

Lemma fanout_ok_new : fanout_ok fanout_new.
Proof.
  split; cbn [fanout_new fo_conns fo_states fo_next_id].
  - split; cbn; [intros id|intros k id|intros k s]; rewrite ?lookup_empty; cbn;
      try (split; [by intros ?%elem_of_empty|]); try naive_solver;
      by intros (c & Hc & _); rewrite lookup_empty in Hc.
  - by intros id c ?%elem_of_empty.
  - by intros id ?%elem_of_empty.
  - intros id [c Hc]. by rewrite lookup_empty in Hc.
Qed.

Lemma register_ok tx now fo : fanout_ok fo -> fanout_ok (register tx now fo).1.
Proof.
  intros [Hi Hk Hs Hf]. unfold register. cbn [fst]. set (id := (fo_next_id fo + 1)%Z).
  assert (fo_states fo !! id = None) as Hnew.
  { destruct (fo_states fo !! id) as [c|] eqn:E; [|done].
    specialize (Hf id ltac:(eauto)). unfold id in Hf. lia. }
  split; cbn [fo_states fo_conns fo_next_id].
  - split; cbn [fo_any_kind fo_by_kind fo_states]; [| |apply Hi].
    + intros i. rewrite (ik_any fo Hi i). destruct (decide (i = id)) as [->|Hne].
      * rewrite lookup_insert_eq, Hnew. naive_solver.
      * by rewrite lookup_insert_ne.
    + intros k i. rewrite (ik_kind fo Hi k i). destruct (decide (i = id)) as [->|Hne].
      * rewrite lookup_insert_eq, Hnew. naive_solver.
      * by rewrite lookup_insert_ne.
  - intros i c Hin [[<- <-]|[Hne Hc]]%lookup_insert_Some; [done|].
    apply elem_of_union in Hin as [?%elem_of_singleton|Hin]; [congruence|by eapply Hk].
  - intros i [->%elem_of_singleton|Hin]%elem_of_union; apply lookup_insert_is_Some'; [by left|].
    right. by apply Hs.
  - intros i [->|Hin]%lookup_insert_is_Some'; [lia|]. specialize (Hf i Hin). unfold id. lia.
Qed.

Lemma set_sub_ok id sub_id filters fo : fanout_ok fo -> fanout_ok (set_sub id sub_id filters fo).
Proof.
  intros Hok. unfold set_sub. destruct (fo_states fo !! id) as [c|] eqn:Hc; [|done].
  apply reindex_ok. eapply almost_with_state; [by apply fanout_almost|done|done].
Qed.

Lemma remove_sub_ok id sub_id fo : fanout_ok fo -> fanout_ok (remove_sub id sub_id fo).1.
Proof.
  intros Hok. unfold remove_sub. destruct (fo_states fo !! id) as [c|] eqn:Hc; [|done].
  cbn [fst]. set (subs := List.filter _ _).
  assert (almost_ok id (with_state id (with_subs subs c) fo)) as Hal.
  { eapply almost_with_state; [by apply fanout_almost|done|done]. }
  destruct (Nat.eqb_spec (length subs) (length (c_subs c))) as [Hlen|Hlen]; cbn [negb];
    [|by apply reindex_ok].
  assert (subs = c_subs c) as Heq.
  { apply filter_length_eq. exact Hlen. }
  rewrite Heq in *. clear Heq. destruct Hal as [Hi Hk Hs Hf]. split; try done.
  intros i x Hin. cbn [with_state fo_states].
  intros [[<- <-]|[Hne Hx]]%lookup_insert_Some.
  - cbn [c_kind_key with_subs c_subs]. by apply (fk_key fo Hok id).
  - by apply (fk_key fo Hok i).
Qed.

Lemma unregister_ok id fo : fanout_ok fo -> fanout_ok (unregister id fo).
Proof.
  intros Hok. pose proof Hok as [Hi Hk Hs Hf]. unfold unregister.
  destruct (fo_states fo !! id) as [c|] eqn:Hc; [|done].
  set (fo1 := mkFanout _ _ _ _ _). set (c' := with_key KKNone c).
  assert (index_ok fo1) as Hi1 by (destruct Hi; by split).
  destruct (deindex_frame id (c_kind_key c) fo1) as (S1 & C1 & N1).
  split; cbn [with_state fo_states fo_conns fo_next_id]; rewrite ?S1, ?C1, ?N1;
    cbn [fo1 fo_states fo_conns fo_next_id].
  - apply (index_ok_rekey fo1 id c c' Hi1 Hc).
  - intros i x [Hin Hne]%elem_of_difference. rewrite elem_of_singleton in Hne.
    intros [[<- _]|[_ Hx]]%lookup_insert_Some; [done|]. by eapply Hk.
  - intros i [Hin _]%elem_of_difference. apply lookup_insert_is_Some'. right. by apply Hs.
  - intros i [->|Hin]%lookup_insert_is_Some'; [apply Hf; eauto|by apply Hf].
Qed.
End Invariant.

(** * Lemmas: delivery *)

Section Delivery.
Context `{Channel}.

Lemma deliver_sub_frame now ev c sub :
  c_subs (deliver_sub now ev c sub) = c_subs c
  /\ c_kind_key (deliver_sub now ev c sub) = c_kind_key c.
Proof.
  unfold deliver_sub, record_drop, record_sent. destruct sub as [sub_id filters].
  repeat case_match; done.
Qed.

Lemma deliver_frame now ev c :
  c_subs (deliver now ev c) = c_subs c /\ c_kind_key (deliver now ev c) = c_kind_key c.
Proof.
  unfold deliver. apply (foldl_ind (fun c' => c_subs c' = c_subs c /\ c_kind_key c' = c_kind_key c));
    [done|]. intros c' sub _ [H1 H2]. destruct (deliver_sub_frame now ev c' sub). split; congruence.
Qed.

(** Does a subscription want the event? *)
Definition wants (e : Event) (sub : SubEntry) : bool :=
  existsb (fun f => matches_event f e) sub.2.

Lemma deliver_none now ev c :
  (forall sub, sub ∈ c_subs c -> wants (be_event ev) sub = false) -> deliver now ev c = c.
Proof.
  unfold deliver. generalize (c_subs c) as subs. intros subs Hw.
  induction subs as [|[sid fs] subs IH]; [done|]. cbn [foldl].
  pose proof (Hw (sid, fs) ltac:(left)) as Hno. unfold wants in Hno. cbn [snd] in Hno.
  unfold deliver_sub at 2. rewrite Hno. cbn [negb].
  apply IH. intros sub Hs. apply Hw. by right.
Qed.

(** ** The key covers what the subscriptions can match *)

Lemma collect_kinds_spec fs acc ks :
  collect_kinds fs acc = Some ks ->
  acc ⊆ ks /\ forall f, f ∈ fs -> exists l, f_kinds f = Some l /\ forall k, k ∈ l -> k ∈ ks.
Proof.
  revert acc. induction fs as [|f fs IH]; intros acc; cbn [collect_kinds].
  { intros [= ->]. split; [done|]. by intros f ?%elem_of_nil. }
  destruct (f_kinds f) as [[|k l]|] eqn:Hf; [done| |done]. intros Hc.
  destruct (IH _ Hc) as [Hsub Hall]. split; [set_solver|].
  intros f' [->|Hin]%elem_of_cons; [|by apply Hall]. exists (k :: l). split; [done|].
  intros k' Hk'. apply Hsub, elem_of_union. right. by apply elem_of_list_to_set.
Qed.

Lemma matches_kind f e : matches_event f e = true -> forall l, f_kinds f = Some l -> ev_kind e ∈ l.
Proof.
  intros (_ & _ & Hk & _)%since_until_matches l Hl. rewrite Hl in Hk. simpl in Hk.
  by apply bool_decide_eq_true in Hk.
Qed.

Lemma unrouted_not_wanted subs e :
  subs_key subs <> KKAny -> ~ key_has (subs_key subs) (ev_kind e) ->
  forall sub, sub ∈ subs -> wants e sub = false.
Proof.
  intros Hany Hhas sub Hsub. unfold wants. apply not_true_iff_false.
  rewrite existsb_exists. intros (f & Hf%list_elem_of_In & Hm).
  destruct subs as [|s0 subs']; [by apply elem_of_nil in Hsub|]. unfold subs_key in *.
  destruct (collect_kinds ((s0 :: subs') ≫= snd) ∅) as [ks|] eqn:Hc; [|done].
  destruct (collect_kinds_spec _ _ _ Hc) as [_ Hall].
  destruct (Hall f) as (l & Hl & Hks).
  { apply list_elem_of_bind. eauto. }
  apply Hhas. cbn [key_has]. apply Hks. by eapply matches_kind.
Qed.

(** ** Routing *)

Lemma elem_of_targets kind fo id :
  id ∈ targets kind fo <->
  id ∈ fo_conns fo /\ (id ∈ fo_any_kind fo \/ id ∈ default ∅ (fo_by_kind fo !! kind)).
Proof.
  unfold targets. destruct (bool_decide (fo_any_kind fo = ∅)) eqn:Ha;
    [destruct (bool_decide (fo_by_kind fo !! kind = None)) eqn:Hb|]; cbn [andb].
  1: { apply bool_decide_eq_true in Ha, Hb. rewrite Ha, Hb. cbn. split; [by intros ?%elem_of_nil|].
       intros [_ [?%elem_of_empty|?%elem_of_empty]]; done. }
  all: rewrite elem_of_List_filter, elem_of_app, !elem_of_elements, bool_decide_eq_true; tauto.
Qed.

Lemma targets_NoDup kind fo : index_ok fo -> NoDup (targets kind fo).
Proof.
  intros Hi. unfold targets. destruct (_ && _); [constructor|].
  apply (NoDup_List_filter (fun id => bool_decide (id ∈ fo_conns fo))).
  apply NoDup_app. split_and!; [apply NoDup_elements| |apply NoDup_elements].
  intros id Ha Hk. rewrite elem_of_elements in Ha, Hk.
  apply (ik_any fo Hi) in Ha as (c & Hc & Hkey).
  apply (ik_kind_key fo id c kind Hi Hc) in Hk. by rewrite Hkey in Hk.
Qed.

Lemma deliver_all_states now ev l fo :
  NoDup l ->
  let fo' := foldl (deliver_to now ev) fo l in
  (forall i, fo_states fo' !! i =
     if decide (i ∈ l) then deliver now ev <$> fo_states fo !! i else fo_states fo !! i)
  /\ fo_conns fo' = fo_conns fo /\ fo_by_kind fo' = fo_by_kind fo
  /\ fo_any_kind fo' = fo_any_kind fo /\ fo_next_id fo' = fo_next_id fo.
Proof.
  revert fo. induction l as [|id l IH]; intros fo Hnd; cbv zeta; cbn [foldl].
  { by split_and!. }
  apply NoDup_cons in Hnd as [Hid Hnd]. destruct (IH (deliver_to now ev fo id) Hnd) as (Hs & Hrest).
  assert (fo_conns (deliver_to now ev fo id) = fo_conns fo
    /\ fo_by_kind (deliver_to now ev fo id) = fo_by_kind fo
    /\ fo_any_kind (deliver_to now ev fo id) = fo_any_kind fo
    /\ fo_next_id (deliver_to now ev fo id) = fo_next_id fo) as (E1 & E2 & E3 & E4).
  { unfold deliver_to. by destruct (fo_states fo !! id). }
  rewrite E1, E2, E3, E4 in Hrest. split; [|done]. intros i. rewrite Hs.
  unfold deliver_to. destruct (decide (i = id)) as [->|Hne].
  - rewrite decide_False by done. rewrite decide_True by left.
    destruct (fo_states fo !! id) as [c|] eqn:Hc; [|done].
    cbn [with_state fo_states]. by rewrite lookup_insert_eq.
  - destruct (fo_states fo !! id) as [c|] eqn:Hc; cbn [with_state fo_states];
      rewrite ?lookup_insert_ne by done;
      destruct (decide (i ∈ l)) as [Hi|Hi], (decide (i ∈ id :: l)) as [Hj|Hj];
      rewrite elem_of_cons in Hj; try done; tauto.
Qed.

Lemma publish_broadcasts now ev fo :
  fanout_ok fo -> publish now ev fo = broadcast_all now ev fo.
Proof.
  intros [Hi Hk Hs _]. unfold publish.
  destruct (deliver_all_states now ev (targets (ev_kind (be_event ev)) fo) fo
    (targets_NoDup _ _ Hi)) as (Hst & Hc & Hb & Ha & Hn).
  destruct (foldl (deliver_to now ev) fo (targets (ev_kind (be_event ev)) fo)) as [st cs bk an nx].
  cbn in Hst, Hc, Hb, Ha, Hn. subst. unfold broadcast_all. f_equal.
  apply map_eq. intros i. rewrite Hst, map_lookup_imap.
  destruct (fo_states fo !! i) as [c|] eqn:Hi'; cbn [mbind option_bind fmap option_fmap option_map];
    [|by case_decide].
  destruct (decide (i ∈ targets (ev_kind (be_event ev)) fo)) as [Ht|Ht];
    rewrite elem_of_targets in Ht.
  - rewrite bool_decide_true by tauto. done.
  - case_bool_decide as Hreg; [|done]. f_equal. symmetry. apply deliver_none.
    rewrite (ik_any_key fo i c Hi Hi'), (ik_kind_key fo i c _ Hi Hi'), (Hk i c Hreg Hi') in Ht.
    apply unrouted_not_wanted; tauto.
Qed.
End Delivery.

(** * Runs *)

Section Runs.
Context `{Channel}.

Inductive fop :=
| FRegister (tx : chan) (now : Z)
| FUnregister (id : Z)
| FSetSub (id : Z) (sub_id : str) (filters : list Filter)
| FRemoveSub (id : Z) (sub_id : str)
| FPublish (now : Clock) (ev : BroadcastEvent).

Definition fstep (fo : Fanout) (o : fop) : Fanout :=
  match o with
  | FRegister tx now => (register tx now fo).1
  | FUnregister id => unregister id fo
  | FSetSub id sub_id filters => set_sub id sub_id filters fo
  | FRemoveSub id sub_id => (remove_sub id sub_id fo).1
  | FPublish now ev => publish now ev fo
  end.

Lemma broadcast_ok now ev fo : fanout_ok fo -> fanout_ok (broadcast_all now ev fo).
Proof.
  intros [Hi Hk Hs Hf]. unfold broadcast_all.
  set (st := map_imap _ _).
  assert (forall i, st !! i = (fun c =>
    if bool_decide (i ∈ fo_conns fo) then deliver now ev c else c) <$> fo_states fo !! i) as Hst.
  { intros i. unfold st. rewrite map_lookup_imap. by destruct (fo_states fo !! i). }
  assert (forall i c', st !! i = Some c' -> exists c, fo_states fo !! i = Some c
    /\ c_kind_key c' = c_kind_key c /\ c_subs c' = c_subs c) as Hback.
  { intros i c'. rewrite Hst. destruct (fo_states fo !! i) as [c|]; [|done].
    intros [= <-]. exists c. destruct (deliver_frame now ev c). by case_bool_decide. }
  assert (forall i c, fo_states fo !! i = Some c -> exists c', st !! i = Some c'
    /\ c_kind_key c' = c_kind_key c) as Hforth.
  { intros i c Hc. rewrite Hst, Hc. simpl. eexists. split; [done|].
    destruct (deliver_frame now ev c). by case_bool_decide. }
  split; cbn [fo_states fo_conns fo_next_id].
  - split; cbn [fo_any_kind fo_by_kind fo_states]; [| |apply Hi].
    + intros i. rewrite (ik_any fo Hi i). split.
      * intros (c & Hc & Hkey). destruct (Hforth i c Hc) as (c' & ? & ?). exists c'. split; congruence.
      * intros (c' & (c & Hc & Hkey & _)%Hback & ?). exists c. split; congruence.
    + intros k i. rewrite (ik_kind fo Hi k i). split.
      * intros (c & ks & Hc & Hkey & ?). destruct (Hforth i c Hc) as (c' & ? & ?).
        exists c', ks. split_and!; congruence.
      * intros (c' & ks & (c & Hc & Hkey & _)%Hback & ? & ?). exists c, ks. split_and!; congruence.
  - intros i c' Hin (c & Hc & Hkey & Hsub)%Hback. rewrite Hkey, Hsub. by eapply Hk.
  - intros i Hin. destruct (Hs i Hin) as [c Hc]. destruct (Hforth i c Hc) as (c' & -> & _). eauto.
  - intros i [c' (c & Hc & _)%Hback]. apply Hf. eauto.
Qed.

Lemma fstep_ok fo o : fanout_ok fo -> fanout_ok (fstep fo o).
Proof.
  intros Hok. destruct o; cbn [fstep].
  - by apply register_ok.
  - by apply unregister_ok.
  - by apply set_sub_ok.
  - by apply remove_sub_ok.
  - rewrite publish_broadcasts by done. by apply broadcast_ok.
Qed.

Lemma frun_ok ops : fanout_ok (foldl fstep fanout_new ops).
Proof.
  apply (foldl_ind fanout_ok); [apply fanout_ok_new|]. intros fo o _. apply fstep_ok.
Qed.

(** * Properties *)

(** C19: routing by kind loses nothing and repeats nothing: after any sequence of
    registrations, (re)subscriptions, closings, disconnections and publications,
    publishing an event through the inverted index has exactly the effect of
    offering it once to every registered connection. *)
Theorem publish_is_broadcast ops now ev :
  let fo := foldl fstep fanout_new ops in
  publish now ev fo = broadcast_all now ev fo.
Proof. apply publish_broadcasts, frun_ok. Qed.

(** Offer the frames of these subscriptions to a channel one by one: its final
    state, the subscriptions whose frame it took and those it refused. *)
Fixpoint offers (json : str) (tx : chan) (subs : list SubEntry)
    : chan * list SubEntry * list SubEntry :=
  match subs with
  | [] => (tx, [], [])
  | sub :: subs =>
      match try_send tx (event_frame sub.1 json) with
      | Some tx' =>
          let '(t, sent, dropped) := offers json tx' subs in (t, sub :: sent, dropped)
      | None =>
          let '(t, sent, dropped) := offers json tx subs in (t, sent, sub :: dropped)
      end
  end.

Lemma record_drop_fields now sid c :
  let c' := record_drop now sid c in
  c_tx c' = c_tx c /\ c_sent c' = c_sent c /\ c_dropped c' = fetch_add (c_dropped c) 1
  /\ c_notified c' = true
  /\ forall s, s ∈ c_overflow c' <-> s ∈ c_overflow c \/ s = sid.
Proof.
  unfold record_drop. destruct (c_drop_window c) as [start drops].
  destruct (if (now - start >? DROP_WINDOW)%Z then _ else _) as [win over].
  cbn. split_and!; try done. intros s. case_bool_decide as Hin.
  - split; [by left|]. by intros [?| ->].
  - rewrite elem_of_app, list_elem_of_singleton. done.
Qed.

(** What the accounts of a connection say after offering its frames. *)
Definition accounts (c c' : ConnState) (r : chan * list SubEntry * list SubEntry) : Prop :=
  let '(tx, sent, dropped) := r in
  c_tx c' = tx
  /\ wrap64 (c_sent c') = wrap64 (c_sent c + Z.of_nat (length sent))
  /\ wrap64 (c_dropped c') = wrap64 (c_dropped c + Z.of_nat (length dropped))
  /\ (forall s, s ∈ c_overflow c' <-> s ∈ c_overflow c \/ s ∈ fst <$> dropped)
  /\ (dropped <> [] \/ c_notified c = true -> c_notified c' = true).

Lemma deliver_subs_accounts now ev subs c :
  accounts c (foldl (deliver_sub now ev) c subs)
    (offers (be_json ev) (c_tx c) (List.filter (wants (be_event ev)) subs)).
Proof.
  revert c. induction subs as [|[sid fs] subs IH]; intros c; cbn [foldl].
  { cbn. rewrite !Z.add_0_r. split_and!; try done.
    - intros s. rewrite elem_of_nil. tauto.
    - by intros [?|?]. }
  unfold deliver_sub at 2. cbn [List.filter]. unfold wants at 1. cbn [snd].
  destruct (existsb (fun f => matches_event f (be_event ev)) fs) eqn:Hw; cbn [negb]; [|apply IH].
  cbn [offers fst]. destruct (try_send (c_tx c) (event_frame sid (be_json ev))) as [tx|].
  - specialize (IH (record_sent tx c)). cbn [record_sent c_tx] in IH.
    destruct (offers _ tx _) as [[t sent] dropped]. destruct IH as (Ht & Hs & Hd & Ho & Hn).
    unfold accounts. rewrite Hs, Hd. cbn [record_sent c_sent c_dropped length].
    unfold fetch_add, wrap64. rewrite Zplus_mod_idemp_l. split_and!; try done. f_equal. lia.
  - specialize (IH (record_drop (now (c_id c) sid) sid c)).
    destruct (record_drop_fields (now (c_id c) sid) sid c) as (E0 & E1 & E2 & E3 & E4). rewrite E0 in IH.
    destruct (offers _ (c_tx c) _) as [[t sent] dropped]. destruct IH as (Ht & Hs & Hd & Ho & Hn).
    unfold accounts. rewrite Hs, Hd, E1, E2. cbn [length]. unfold fetch_add, wrap64.
    rewrite Zplus_mod_idemp_l. split_and!; try done.
    + f_equal. lia.
    + intros s. rewrite Ho, E4, fmap_cons, elem_of_cons. cbn [fst]. tauto.
    + intros _. apply Hn. by right.
Qed.

(** Delivery accounts for every match: the frames of exactly the subscriptions
    that match are offered to the connection's channel, in order; the two counters
    grow by the numbers of frames taken and refused, every refused subscription is
    queued to be closed, and the connection task is then woken. *)
Theorem deliver_accounts now ev c :
  let c' := deliver now ev c in
  let '(tx, sent, dropped) :=
    offers (be_json ev) (c_tx c) (List.filter (wants (be_event ev)) (c_subs c)) in
  c_tx c' = tx
  /\ wrap64 (c_sent c') = wrap64 (c_sent c + Z.of_nat (length sent))
  /\ wrap64 (c_dropped c') = wrap64 (c_dropped c + Z.of_nat (length dropped))
  /\ (forall s, s ∈ c_overflow c' <-> s ∈ c_overflow c \/ s ∈ fst <$> dropped)
  /\ (dropped <> [] \/ c_notified c = true -> c_notified c' = true).
Proof. apply deliver_subs_accounts. Qed.

Definition record_drops (times : list Z) (sub_id : str) (c : ConnState) : ConnState :=
  foldl (fun c now => record_drop now sub_id c) c times.

(** The drop limit is a rate, and exact: as long as the drops fall into the
    current window, the connection is marked for disconnection when and only when
    more than [MAX_DROPS_PER_WINDOW] of them have been counted in it. *)
Theorem drop_limit_exact times sub_id c start drops :
  c_drop_window c = (start, drops) -> c_kill c = false ->
  (forall t, t ∈ times -> (t - start <= DROP_WINDOW)%Z) -> times <> [] ->
  let c' := record_drops times sub_id c in
  c_drop_window c' = (start, drops + Z.of_nat (length times))%Z
  /\ (c_kill c' = true <-> (drops + Z.of_nat (length times) > MAX_DROPS_PER_WINDOW)%Z).
Proof.
  intros Hw Hk Ht Hne.
  assert (c_drop_window (record_drops times sub_id c) = (start, drops + Z.of_nat (length times))%Z
    /\ (c_kill (record_drops times sub_id c) = true <->
        (times <> [] /\ drops + Z.of_nat (length times) > MAX_DROPS_PER_WINDOW)%Z)) as [H1 H2].
  { clear Hne. induction times as [|t times IH] using rev_ind.
    { cbn. rewrite Hw, Hk, Z.add_0_r. split; [done|]. naive_solver. }
    destruct IH as [IH1 IH2]; [intros u Hu; apply Ht, elem_of_app; by left|].
    unfold record_drops in *. rewrite foldl_app. cbn [foldl]. unfold record_drop at 1 3.
    rewrite IH1. specialize (Ht t ltac:(apply elem_of_app; right; left)).
    destruct (Z.gtb_spec (t - start) DROP_WINDOW); [lia|]. cbn [c_drop_window c_kill].
    rewrite length_app. cbn [length]. split; [f_equal; lia|].
    destruct (Z.gtb_spec (drops + Z.of_nat (length times) + 1) MAX_DROPS_PER_WINDOW) as [Hg|Hg].
    - split; [|done]. intros _. split; [by destruct times|]. lia.
    - rewrite IH2. split; [intros [_ ?]; lia|intros [_ ?]; lia]. }
  split; [done|]. rewrite H2. tauto.
Qed.
End Runs.

(** * Samples *)

(** A channel of two slots. *)
#[export] Instance two_slots : Channel := {|
  chan := list str;
  try_send q m := if bool_decide (length q < 2) then Some (q ++ [m]) else None;
|}.

Definition sample_conn : ConnState :=
  mkConn 1 [] [(lit "a", [kind_filter [1%Z]])] KKNone [] false false 0 0 (0, 2047)%Z.

Lemma drop_limit_exact_witness :
  c_kill (record_drops [1%Z; 2%Z] (lit "a") sample_conn) = true
  <-> (2047 + 2 > MAX_DROPS_PER_WINDOW)%Z.
Proof.
  refine (proj2 (drop_limit_exact [1%Z; 2%Z] (lit "a") sample_conn 0 2047 eq_refl eq_refl _ _)).
  - intros t Ht. unfold DROP_WINDOW. apply elem_of_cons in Ht as [->|Ht]; [lia|].
    apply list_elem_of_singleton in Ht as ->. lia.
  - discriminate.
Defined.
