(* ===== verification/Router.v ===== *)
(** [src/src/fanout.rs] under concurrency: the tasks of the connections and the
    publishing threads over one [Fanout], step by step between their locks.

    [Fanout.v] has every method as one function. Here a step is one critical section
    or one atomic access: [inner] (a reader-writer lock on the index), and for each
    connection [subs] (a reader-writer lock), [kind_key] (a mutex), [overflow],
    [drop_window], the counters, the kill flag and the notification. Three locks are
    held from one step to a later one: [kind_key] by [reindex] while it waits for
    [inner], [inner] by [unregister] while it waits for [kind_key], and [subs], for
    reading, by [deliver] until the last frame of the connection is offered. *)
From S2P Require Import Prelude Text Collections Event Reference Index Subscription Fanout.
Open Scope memlay_scope.

(** * Locks *)

Inductive lock :=
| LInner
| LSubs (id : Z)
| LKey (id : Z).

#[export] Instance lock_eq_dec : EqDecision lock.
Proof. solve_decision. Defined.

(** A lock and how it is taken. *)
Record claim := mkClaim { cl_lock : lock; cl_write : bool }.

(** Two threads cannot have both. *)
Definition conflicts (a b : claim) : bool :=
  bool_decide (cl_lock a = cl_lock b) && (cl_write a || cl_write b).

Definition available (held : list claim) (a : claim) : bool :=
  negb (existsb (conflicts a) held).

(** * Program counters *)

(** What a [remove_sub] returns to: the select loop, or the loop of the notification
    arm with the subscriptions still to close. *)
Abbreviation after := (option (list str)).

(** Where the task of a connection is. *)
Inductive conn_pc :=
| Idle
| SetWrite (sub_id : str) (filters : list Filter)
| RemoveWrite (sub_id : str) (k : after)
| KeyRead (k : after)
| KeyLock (new_key : KindKey) (k : after)
| KeySwap (new_key : KindKey) (k : after)
| TakeOverflow
| CheckKill
| Leave
| LeaveKey
| Gone.

(** Where [deliver] is with a frame: before the next subscription, after a
    [try_send] that succeeded, or inside [record_drop]. *)
Inductive stage :=
| DNext
| DSent
| DDropped (sub_id : str)
| DOverflow (sub_id : str)
| DWindow (sub_id : str)
| DKill
| DNotify.

(** Where a publishing thread is: before the index is read, before the next
    connection, or at one, with the subscriptions [subs] still to offer to. *)
Inductive publish_pc :=
| Route
| Visit (todo : list Z)
| At (id : Z) (subs : list SubEntry) (rest : list Z) (s : stage)
| Published.

Inductive thread :=
| Conn (id : Z) (p : conn_pc)
| Publisher (clock : Clock) (ev : BroadcastEvent) (p : publish_pc).

(** The lock a thread keeps between two steps. *)
Definition keeps (t : thread) : option claim :=
  match t with
  | Conn id (KeySwap _ _) => Some (mkClaim (LKey id) true)
  | Conn _ LeaveKey => Some (mkClaim LInner true)
  | Publisher _ _ (At id _ _ _) => Some (mkClaim (LSubs id) false)
  | _ => None
  end.

(** The lock a thread's next step takes. *)
Definition needs (t : thread) : option claim :=
  match t with
  | Conn id (SetWrite _ _ | RemoveWrite _ _) => Some (mkClaim (LSubs id) true)
  | Conn id (KeyRead _) => Some (mkClaim (LSubs id) false)
  | Conn id (KeyLock _ _ | LeaveKey) => Some (mkClaim (LKey id) true)
  | Conn _ (KeySwap _ _ | Leave) => Some (mkClaim LInner true)
  | Publisher _ _ Route => Some (mkClaim LInner false)
  | Publisher _ _ (Visit (id :: _)) => Some (mkClaim (LSubs id) false)
  | _ => None
  end.

(** * Steps *)

Section Router.
Context `{Channel}.

(** The parts of [record_drop] and [deliver]. *)
Definition count_sent (c : ConnState) : ConnState :=
  mkConn (c_id c) (c_tx c) (c_subs c) (c_kind_key c) (c_overflow c) (c_notified c) (c_kill c)
    (fetch_add (c_sent c) 1) (c_dropped c) (c_drop_window c).
Definition count_dropped (c : ConnState) : ConnState :=
  mkConn (c_id c) (c_tx c) (c_subs c) (c_kind_key c) (c_overflow c) (c_notified c) (c_kill c)
    (c_sent c) (fetch_add (c_dropped c) 1) (c_drop_window c).
Definition push_overflow (sub_id : str) (c : ConnState) : ConnState :=
  mkConn (c_id c) (c_tx c) (c_subs c) (c_kind_key c)
    (if bool_decide (sub_id ∈ c_overflow c) then c_overflow c else c_overflow c ++ [sub_id])
    (c_notified c) (c_kill c) (c_sent c) (c_dropped c) (c_drop_window c).
Definition count_window (now : Z) (c : ConnState) : ConnState * bool :=
  let '(start, drops) := c_drop_window c in
  let '(window, over_limit) :=
    if (now - start >? DROP_WINDOW)%Z then ((now, 1%Z), false)
    else ((start, (drops + 1)%Z), (drops + 1 >? MAX_DROPS_PER_WINDOW)%Z) in
  (mkConn (c_id c) (c_tx c) (c_subs c) (c_kind_key c) (c_overflow c) (c_notified c) (c_kill c)
     (c_sent c) (c_dropped c) window, over_limit).
Definition set_kill (c : ConnState) : ConnState :=
  mkConn (c_id c) (c_tx c) (c_subs c) (c_kind_key c) (c_overflow c) (c_notified c) true
    (c_sent c) (c_dropped c) (c_drop_window c).
Definition set_notified (b : bool) (c : ConnState) : ConnState :=
  mkConn (c_id c) (c_tx c) (c_subs c) (c_kind_key c) (c_overflow c) b (c_kill c)
    (c_sent c) (c_dropped c) (c_drop_window c).
Definition with_tx (tx : chan) (c : ConnState) : ConnState :=
  mkConn (c_id c) tx (c_subs c) (c_kind_key c) (c_overflow c) (c_notified c) (c_kill c)
    (c_sent c) (c_dropped c) (c_drop_window c).

(** A frame offered to a connection's channel: for which subscription, and whether
    the channel took it. *)
Record offer := mkOffer { of_conn : Z; of_sub : str; of_taken : bool }.

(** Back from a [remove_sub] of the notification arm: close the next subscription,
    or go on to [should_disconnect]. *)
Definition resume (k : after) : conn_pc :=
  match k with
  | None => Idle
  | Some [] => CheckKill
  | Some (sub_id :: todo) => RemoveWrite sub_id (Some todo)
  end.

(** One step of a connection's task on its state [c]. *)
Definition conn_step (fo : Fanout) (id : Z) (c : ConnState) (p : conn_pc)
    : option (Fanout * conn_pc) :=
  match p with
  | SetWrite sub_id filters =>
      Some (with_state id (with_subs (put_sub sub_id filters (c_subs c)) c) fo, KeyRead None)
  | RemoveWrite sub_id k =>
      let subs := List.filter (fun s => bool_decide (fst s <> sub_id)) (c_subs c) in
      let removed := negb (Nat.eqb (length subs) (length (c_subs c))) in
      Some (with_state id (with_subs subs c) fo, if removed then KeyRead k else resume k)
  | KeyRead k => Some (fo, KeyLock (subs_key (c_subs c)) k)
  | KeyLock new_key k =>
      Some (fo, if bool_decide (c_kind_key c = new_key) then resume k else KeySwap new_key k)
  | KeySwap new_key k =>
      Some (with_state id (with_key new_key c)
              (index id new_key (deindex id (c_kind_key c) fo)), resume k)
  | TakeOverflow =>
      Some (with_state id (take_overflowed c).1 fo, resume (Some (take_overflowed c).2))
  | CheckKill => Some (fo, if c_kill c then Leave else Idle)
  | Leave =>
      Some (mkFanout (fo_states fo) (fo_conns fo ∖ {[id]}) (fo_by_kind fo) (fo_any_kind fo)
              (fo_next_id fo), LeaveKey)
  | LeaveKey =>
      Some (with_state id (with_key KKNone c) (deindex id (c_kind_key c) fo), Gone)
  | Idle | Gone => None
  end.

(** One step of [deliver] at the connection state [c]. *)
Definition deliver_step (clock : Clock) (ev : BroadcastEvent) (c : ConnState)
    (subs : list SubEntry) (s : stage) : ConnState * list SubEntry * stage * option (str * bool) :=
  match s with
  | DNext =>
      match subs with
      | [] => (c, [], DNext, None)
      | (sub_id, filters) :: subs =>
          if negb (existsb (fun f => matches_event f (be_event ev)) filters)
          then (c, subs, DNext, None)
          else match try_send (c_tx c) (event_frame sub_id (be_json ev)) with
               | Some tx => (with_tx tx c, subs, DSent, Some (sub_id, true))
               | None => (c, subs, DDropped sub_id, Some (sub_id, false))
               end
      end
  | DSent => (count_sent c, subs, DNext, None)
  | DDropped sub_id => (count_dropped c, subs, DOverflow sub_id, None)
  | DOverflow sub_id => (push_overflow sub_id c, subs, DWindow sub_id, None)
  | DWindow sub_id =>
      let '(c', over_limit) := count_window (clock (c_id c) sub_id) c in
      (c', subs, if over_limit then DKill else DNotify, None)
  | DKill => (set_kill c, subs, DNotify, None)
  | DNotify => (set_notified true c, subs, DNext, None)
  end.

(** One step of [publish]. *)
Definition publish_step (clock : Clock) (ev : BroadcastEvent) (fo : Fanout) (p : publish_pc)
    : option (Fanout * publish_pc * list offer) :=
  match p with
  | Route => Some (fo, Visit (targets (ev_kind (be_event ev)) fo), [])
  | Visit [] => Some (fo, Published, [])
  | Visit (id :: rest) =>
      c ← fo_states fo !! id;
      Some (fo, At id (c_subs c) rest DNext, [])
  | At _ [] rest DNext => Some (fo, Visit rest, [])
  | At id subs rest s =>
      c ← fo_states fo !! id;
      let '(c', subs', s', o) := deliver_step clock ev c subs s in
      Some (with_state id c' fo, At id subs' rest s',
            (fun x => mkOffer id x.1 x.2) <$> option_list o)
  | Published => None
  end.

(** One step of a thread, locks aside. *)
Definition take_step (fo : Fanout) (t : thread) : option (Fanout * thread * list offer) :=
  match t with
  | Conn id p =>
      c ← fo_states fo !! id;
      '(fo', p') ← conn_step fo id c p;
      Some (fo', Conn id p', [])
  | Publisher clock ev p =>
      '(fo', p', os) ← publish_step clock ev fo p;
      Some (fo', Publisher clock ev p', os)
  end.

(** ** The router and its threads *)

(** [rt_log] lists, for the statements, the frames offered so far and by whom. *)
Record Router := mkRouter {
  rt_fanout : Fanout;
  rt_threads : list thread;
  rt_log : list (nat * offer);
}.

Definition held (w : Router) : list claim := omap keeps (rt_threads w).

Definition may_take (w : Router) (a : option claim) : bool :=
  match a with Some a => available (held w) a | None => true end.

Definition router_new : Router := mkRouter fanout_new [] [].

(** Thread [i] takes its next step, or waits for a lock. *)
Definition run_thread (w : Router) (i : nat) : option Router :=
  t ← rt_threads w !! i;
  if may_take w (needs t) then
    '(fo, t', os) ← take_step (rt_fanout w) t;
    Some (mkRouter fo (<[i := t']> (rt_threads w)) (rt_log w ++ (pair i <$> os)))
  else None.

(** What the task of a connection can do next ([handle_socket]): a REQ, a CLOSE,
    the notification arm (if it is ready), the end of the loop. *)
Inductive request :=
| Subscribe (sub_id : str) (filters : list Filter)
| Unsubscribe (sub_id : str)
| Notified
| Disconnect.

Definition begin (fo : Fanout) (id : Z) (r : request) : option (Fanout * conn_pc) :=
  match r with
  | Subscribe sub_id filters => Some (fo, SetWrite sub_id filters)
  | Unsubscribe sub_id => Some (fo, RemoveWrite sub_id None)
  | Notified =>
      c ← fo_states fo !! id;
      if c_notified c then Some (with_state id (set_notified false c) fo, TakeOverflow) else None
  | Disconnect => Some (fo, Leave)
  end.

(** What can happen: a thread takes a step; a client connects; the task of a
    connection turns to something new; an event is published; the channel of a
    connection changes (its writer takes a frame, another task sends one). *)
Inductive move :=
| MRun (i : nat)
| MConnect (tx : chan) (now : Z)
| MRequest (i : nat) (r : request)
| MPublish (clock : Clock) (ev : BroadcastEvent)
| MChannel (id : Z) (tx : chan).

Definition router_step (w : Router) (m : move) : option Router :=
  match m with
  | MRun i => run_thread w i
  | MConnect tx now =>
      if available (held w) (mkClaim LInner true) then
        let '(fo, id) := register tx now (rt_fanout w) in
        Some (mkRouter fo (rt_threads w ++ [Conn id Idle]) (rt_log w))
      else None
  | MRequest i r =>
      match rt_threads w !! i with
      | Some (Conn id Idle) =>
          '(fo, p) ← begin (rt_fanout w) id r;
          Some (mkRouter fo (<[i := Conn id p]> (rt_threads w)) (rt_log w))
      | _ => None
      end
  | MPublish clock ev =>
      Some (mkRouter (rt_fanout w) (rt_threads w ++ [Publisher clock ev Route]) (rt_log w))
  | MChannel id tx =>
      c ← fo_states (rt_fanout w) !! id;
      Some (mkRouter (with_state id (with_tx tx c) (rt_fanout w)) (rt_threads w) (rt_log w))
  end.

Definition run_moves (w : Router) (ms : list move) : option Router :=
  foldl (fun w m => w ← w; router_step w m) (Some w) ms.

(** * Alone, the steps are the methods of [Fanout.v] *)

Fixpoint run_alone (fuel : nat) (fo : Fanout) (t : thread) : Fanout * thread :=
  match fuel with
  | O => (fo, t)
  | S fuel =>
      match take_step fo t with
      | Some (fo', t', _) => run_alone fuel fo' t'
      | None => (fo, t)
      end
  end.

Lemma run_alone_add n m fo t fo' t' :
  run_alone n fo t = (fo', t') -> run_alone (n + m) fo t = run_alone m fo' t'.
Proof.
  revert fo t. induction n as [|n IH]; intros fo t; cbn [run_alone Nat.add]; [by intros [= <- <-]|].
  destruct (take_step fo t) as [[[fo1 t1] os]|] eqn:E; [by apply IH|]. intros [= <- <-].
  destruct m as [|m]; cbn [run_alone]; [done|by rewrite E].
Qed.

Lemma state_here id c fo : fo_states (with_state id c fo) !! id = Some c.
Proof. apply lookup_insert_eq. Qed.

Lemma state_twice id c c' fo : with_state id c (with_state id c' fo) = with_state id c fo.
Proof. unfold with_state. cbn. by rewrite insert_insert_eq. Qed.

Lemma state_same id c fo : fo_states fo !! id = Some c -> with_state id c fo = fo.
Proof. intros Hc. unfold with_state. rewrite fin_maps.insert_id by done. by destruct fo. Qed.

Lemma alone_step n fo t fo' t' os :
  take_step fo t = Some (fo', t', os) -> run_alone (S n) fo t = run_alone n fo' t'.
Proof. intros Ha. cbn [run_alone]. by rewrite Ha. Qed.

Lemma conn_access fo id c p fo' p' :
  fo_states fo !! id = Some c -> conn_step fo id c p = Some (fo', p') ->
  take_step fo (Conn id p) = Some (fo', Conn id p', []).
Proof. intros Hc Hp. cbn [take_step]. rewrite Hc. cbn [mbind option_bind]. by rewrite Hp. Qed.

Lemma idle_alone n fo id : run_alone n fo (Conn id Idle) = (fo, Conn id Idle).
Proof. destruct n as [|n]; [done|]. cbn. by destruct (fo_states fo !! id). Qed.

Lemma reindex_alone fo id c :
  fo_states fo !! id = Some c ->
  run_alone 3 fo (Conn id (KeyRead None)) = (reindex id fo, Conn id Idle).
Proof.
  intros Hc. erewrite alone_step by by eapply conn_access.
  erewrite alone_step by by eapply conn_access. unfold reindex. rewrite Hc.
  case_bool_decide as Hk; [apply idle_alone|]. by erewrite alone_step by by eapply conn_access.
Qed.

Lemma set_sub_alone fo id c sub_id filters :
  fo_states fo !! id = Some c ->
  run_alone 4 fo (Conn id (SetWrite sub_id filters))
  = (set_sub id sub_id filters fo, Conn id Idle).
Proof.
  intros Hc. erewrite alone_step by by eapply conn_access.
  rewrite (reindex_alone _ _ _ (state_here _ _ _)). unfold set_sub. by rewrite Hc.
Qed.

Lemma remove_sub_alone fo id c sub_id :
  fo_states fo !! id = Some c ->
  run_alone 4 fo (Conn id (RemoveWrite sub_id None))
  = ((remove_sub id sub_id fo).1, Conn id Idle).
Proof.
  intros Hc. erewrite alone_step by by eapply conn_access. unfold remove_sub. rewrite Hc.
  cbn [fst]. destruct (negb _); [|apply idle_alone].
  apply (reindex_alone _ _ _ (state_here _ _ _)).
Qed.

Lemma unregister_alone fo id c :
  fo_states fo !! id = Some c ->
  run_alone 2 fo (Conn id Leave) = (unregister id fo, Conn id Gone).
Proof.
  intros Hc. erewrite alone_step by by eapply conn_access. unfold unregister. rewrite Hc.
  erewrite alone_step; [|by eapply conn_access]. done.
Qed.

(** [deliver]'s steps on one connection are [record_sent] and [record_drop]. *)
Lemma deliver_access clock ev fo id c subs rest s :
  fo_states fo !! id = Some c -> (s = DNext -> subs <> []) ->
  take_step fo (Publisher clock ev (At id subs rest s))
  = let '(c', subs', s', o) := deliver_step clock ev c subs s in
    Some (with_state id c' fo, Publisher clock ev (At id subs' rest s'),
          (fun x => mkOffer id x.1 x.2) <$> option_list o).
Proof.
  intros Hc Hs. cbn [take_step publish_step].
  destruct s, subs; try (by destruct Hs); rewrite Hc; cbn [mbind option_bind];
    by destruct (deliver_step clock ev c _ _) as [[[c' subs'] s'] o].
Qed.

Lemma deliver_sub_alone clock ev fo id c sub subs rest :
  fo_states fo !! id = Some c ->
  exists n, run_alone n fo (Publisher clock ev (At id (sub :: subs) rest DNext))
  = (with_state id (deliver_sub clock ev c sub) fo, Publisher clock ev (At id subs rest DNext)).
Proof.
  intros Hc. destruct sub as [sid fs]. unfold deliver_sub.
  assert (forall n s c' fo', fo_states fo' !! id = Some c' -> s <> DNext ->
    run_alone (S n) fo' (Publisher clock ev (At id subs rest s))
    = let '(c'', subs', s', o) := deliver_step clock ev c' subs s in
      run_alone n (with_state id c'' fo') (Publisher clock ev (At id subs' rest s'))) as Hstep.
  { intros n s c' fo' Hc' Hs. cbn [run_alone]. rewrite (deliver_access _ _ _ _ c') by done.
    by destruct (deliver_step clock ev c' subs s) as [[[? ?] ?] ?]. }
  destruct (existsb _ fs) eqn:Hm; cbn [negb].
  2: { exists 1. cbn [run_alone]. rewrite (deliver_access _ _ _ _ c) by done.
       cbn [deliver_step]. by rewrite Hm. }
  destruct (try_send (c_tx c) (event_frame sid (be_json ev))) as [tx|] eqn:Ht.
  - exists 2. cbn [run_alone]. rewrite (deliver_access _ _ _ _ c) by done.
    cbn [deliver_step]. rewrite Hm, Ht. cbn [negb].
    change (run_alone 1 (with_state id (with_tx tx c) fo)
      (Publisher clock ev (At id subs rest DSent)) = (with_state id (record_sent tx c) fo,
       Publisher clock ev (At id subs rest DNext))).
    rewrite (Hstep 0 DSent _ _ (state_here _ _ _)) by done.
    cbn [deliver_step run_alone]. by rewrite state_twice.
  - set (late := (count_window (clock (c_id c) sid) (push_overflow sid (count_dropped c))).2).
    exists (if late then 6 else 5).
    replace (if late then 6 else 5) with (S (S (S (S (if late then 2 else 1))))) by by destruct late.
    erewrite alone_step.
    2: { rewrite (deliver_access _ _ _ _ c) by done. cbn [deliver_step]. by rewrite Hm, Ht. }
    rewrite (state_same id c fo Hc).
    rewrite (Hstep _ (DDropped sid) c fo Hc) by done. cbn [deliver_step].
    rewrite (Hstep _ (DOverflow sid) _ _ (state_here _ _ _)) by done. cbn [deliver_step].
    rewrite state_twice.
    rewrite (Hstep _ (DWindow sid) _ _ (state_here _ _ _)) by done. cbn [deliver_step].
    change (c_id (push_overflow sid (count_dropped c))) with (c_id c).
    unfold late. destruct (count_window _ _) as [c3 over] eqn:Hw. cbn [snd].
    rewrite state_twice.
    assert (record_drop (clock (c_id c) sid) sid c
      = set_notified true (if over then set_kill c3 else c3)) as ->.
    { revert Hw. unfold count_window, record_drop. cbn.
      destruct (c_drop_window c) as [start drops].
      destruct (if (_ >? DROP_WINDOW)%Z then _ else _) as [win ov].
      intros [= <- <-]. by destruct ov. }
    destruct over.
    + rewrite (Hstep _ DKill _ _ (state_here _ _ _)) by done. cbn [deliver_step].
      rewrite state_twice, (Hstep _ DNotify _ _ (state_here _ _ _)) by done.
      cbn [deliver_step run_alone]. by rewrite state_twice.
    + rewrite (Hstep _ DNotify _ _ (state_here _ _ _)) by done.
      cbn [deliver_step run_alone]. by rewrite state_twice.
Qed.

Lemma deliver_alone clock ev subs rest fo id c :
  fo_states fo !! id = Some c ->
  exists n, run_alone n fo (Publisher clock ev (At id subs rest DNext))
  = (with_state id (foldl (deliver_sub clock ev) c subs) fo, Publisher clock ev (Visit rest)).
Proof.
  revert fo c. induction subs as [|sub subs IH]; intros fo c Hc; cbn [foldl].
  - exists 1. cbn. by rewrite (state_same id c fo Hc).
  - destruct (deliver_sub_alone clock ev fo id c sub subs rest Hc) as [n Hn].
    destruct (IH _ _ (state_here id (deliver_sub clock ev c sub) fo)) as [m Hm].
    exists (n + m). rewrite (run_alone_add _ m _ _ _ _ Hn), Hm. by rewrite state_twice.
Qed.

Lemma publish_alone clock ev fo :
  (forall id, id ∈ targets (ev_kind (be_event ev)) fo -> is_Some (fo_states fo !! id)) ->
  exists n, run_alone n fo (Publisher clock ev Route)
  = (publish clock ev fo, Publisher clock ev Published).
Proof.
  intros Hall. set (l := targets (ev_kind (be_event ev)) fo) in *.
  assert (exists n, run_alone n fo (Publisher clock ev (Visit l))
    = (foldl (deliver_to clock ev) fo l, Publisher clock ev Published)) as [n Hn].
  { clearbody l. revert fo Hall. induction l as [|id l IH]; intros fo Hall; cbn [foldl]; [by exists 1|].
    destruct (Hall id ltac:(left)) as [c Hc]. unfold deliver_to at 2. rewrite Hc.
    destruct (deliver_alone clock ev (c_subs c) l fo id c Hc) as [n Hn].
    destruct (IH (with_state id (deliver clock ev c) fo)) as [m Hm].
    { intros i Hi. apply lookup_insert_is_Some'. right. apply Hall. by right. }
    exists (S (n + m)). erewrite alone_step.
    2: { cbn [take_step publish_step]. rewrite Hc. done. }
    by rewrite (run_alone_add _ m _ _ _ _ Hn). }
  exists (S n). by erewrite alone_step.
Qed.
End Router.
