(* ===== verification/RouterCalls.v ===== *)
(** Every call of the router returns ([Router.v]): whatever the connections and the
    publishing threads are doing, some thread can take its next step, even if
    readers queue behind waiting writers, and no run of steps goes on for ever. The
    two places where locks nest take them in opposite orders ([reindex] the key and
    then the index, [unregister] the index and then the key); they cannot meet
    because a connection's calls are those of its one task. *)
From S2P Require Import Prelude Text Collections Event Reference Index Subscription Fanout Router RouterProps.
From Stdlib Require Import Relations.Relation_Operators Wellfounded.Lexicographic_Product Wellfounded.Inverse_Image.
Open Scope memlay_scope.

Section Calls.
Context `{Channel}.
Implicit Types (fo : Fanout) (c : ConnState) (t : thread) (w : Router).

(** The thread is inside a call. *)
Definition active t : bool :=
  match t with
  | Conn _ (Idle | Gone) | Publisher _ _ Published => false
  | _ => true
  end.

(** The next step of [t] need not wait: nobody keeps its lock and, if it only reads,
    nobody is waiting to write. *)
Definition unhindered w t : Prop :=
  match needs t with
  | None => True
  | Some a => available (held w) a = true
      /\ (cl_write a = false -> forall u, u ∈ rt_threads w -> needs u <> Some (mkClaim (cl_lock a) true))
  end.

(** * Progress *)

Lemma take_step_some fo t : thread_ok fo t -> active t = true -> is_Some (take_step fo t).
Proof.
  intros Ht Ha. destruct t as [id p|clock ev [|[|id todo]|id [|sub subs] rest s|]]; cbn [take_step]; try done.
  - destruct Ht as [(c & Hc & _) _]. rewrite Hc. cbn [mbind option_bind]. by destruct p.
  - destruct Ht as [_ [[c Hc] _]%Forall_cons]. cbn [publish_step]. by rewrite Hc.
  - destruct Ht as (_ & _ & c & pre & Hc & _). cbn [publish_step].
    destruct s; try done; rewrite Hc; cbn [mbind option_bind];
      by destruct (deliver_step _ _ _ _ _) as [[[? ?] ?] ?].
  - destruct Ht as (_ & _ & c & pre & Hc & _). cbn [publish_step]. rewrite Hc.
    cbn [mbind option_bind]. by destruct (deliver_step _ _ _ _ _) as [[[? ?] ?] ?].
Qed.

Lemma unhindered_runs w i t :
  router_ok w -> rt_threads w !! i = Some t -> active t = true -> unhindered w t ->
  is_Some (run_thread w i).
Proof.
  intros Hw Hi Ha Hu. destruct (take_step_some _ t (ro_threads w Hw i t Hi) Ha) as [[[fo t'] os] Hx].
  unfold run_thread. rewrite Hi. cbn [mbind option_bind].
  assert (may_take w (needs t) = true) as ->.
  { unfold unhindered in Hu. destruct (needs t); [apply Hu|done]. }
  rewrite Hx. eauto.
Qed.

Lemma available_intro held a :
  (forall b, b ∈ held -> cl_lock b <> cl_lock a) -> available held a = true.
Proof.
  intros Hb. unfold available. apply negb_true_iff, not_true_iff_false.
  rewrite existsb_exists. intros (b & Hin%list_elem_of_In & Hc).
  unfold conflicts in Hc. apply andb_true_iff in Hc as [Hc%bool_decide_eq_true _].
  by destruct (Hb b Hin).
Qed.

Lemma held_from w a : a ∈ held w -> exists j u, rt_threads w !! j = Some u /\ keeps u = Some a.
Proof.
  unfold held. intros (u & [j Hj]%list_elem_of_lookup & Hk)%list_elem_of_omap. by exists j, u.
Qed.

(** The threads that keep a lock, the innermost first. *)
Definition depth t : nat :=
  match t with
  | Publisher _ _ (At _ _ _ _) => 3
  | Conn _ LeaveKey => 2
  | Conn _ (KeySwap _ _) => 1
  | _ => 0
  end.

Lemma deeper_waits_less w i t :
  router_ok w -> rt_threads w !! i = Some t -> 0 < depth t ->
  (forall j u, rt_threads w !! j = Some u -> depth u <= depth t) -> unhindered w t.
Proof.
  intros Hw Hi Hd Hmax. assert (forall a, needs t = Some a -> cl_write a = true ->
    (forall b, b ∈ held w -> cl_lock b <> cl_lock a) -> unhindered w t) as Hgo.
  { intros a Ha Hwr Hb. unfold unhindered. rewrite Ha. split; [by apply available_intro|congruence]. }
  destruct t as [id p|clock ev [| |id subs rest s|]]; cbn in Hd; try lia; [|done].
  destruct p; cbn in Hd; try lia.
  - eapply Hgo; [done|done|]. intros b (j & u & Hj & Hk)%held_from. specialize (Hmax j u Hj).
    destruct u as [cid [| | | | | | | | | |]|? ? []]; cbn in *; try done; try lia. by injection Hk as <-.
  - eapply Hgo; [done|done|]. intros b (j & u & Hj & Hk)%held_from. specialize (Hmax j u Hj).
    destruct u as [cid [| | | | | | | | | |]|? ? []]; cbn in *; try done; try lia;
      injection Hk as <-; [|done]. cbn. intros [= ->].
    pose proof (ro_unique w Hw _ _ _ _ _ Hi Hj) as ->. congruence.
Qed.

Lemma list_max_by {A} (f : A -> nat) (l : list A) x :
  x ∈ l -> exists y, y ∈ l /\ forall z, z ∈ l -> f z <= f y.
Proof.
  revert x. induction l as [|a l IH]; intros x Hx; [by apply elem_of_nil in Hx|].
  destruct l as [|b l].
  { exists a. split; [left|]. by intros z ->%list_elem_of_singleton. }
  destruct (IH b ltac:(left)) as (y & Hy & Hm). destruct (decide (f a <= f y)) as [Hle|Hgt].
  - exists y. split; [by right|]. intros z [->|Hz]%elem_of_cons; auto.
  - exists a. split; [left|]. intros z [->|Hz]%elem_of_cons; [lia|]. specialize (Hm z Hz). lia.
Qed.

(** Nobody keeps a lock: a writer goes first, or else anyone. *)
Definition writer t : bool :=
  match needs t with Some a => cl_write a | None => false end.

Lemma router_progress w i t :
  router_ok w -> rt_threads w !! i = Some t -> active t = true ->
  exists j u w', rt_threads w !! j = Some u /\ active u = true /\ unhindered w u
    /\ run_thread w j = Some w'.
Proof.
  intros Hw Hi Ha.
  assert (forall j u, rt_threads w !! j = Some u -> active u = true -> unhindered w u ->
    exists j u w', rt_threads w !! j = Some u /\ active u = true /\ unhindered w u
      /\ run_thread w j = Some w') as Hrun.
  { intros j u Hj Hu Hun. destruct (unhindered_runs w j u Hw Hj Hu Hun) as [w' Hr]. by exists j, u, w'. }
  destruct (list_max_by depth (rt_threads w) t) as (u & Hin & Hmax); [by eapply list_elem_of_lookup_2|].
  apply list_elem_of_lookup in Hin as [j Hj].
  destruct (decide (0 < depth u)) as [Hd|Hd].
  { apply (Hrun j u Hj); [by destruct u as [? []|? ? []]; cbn in *; try lia|].
    eapply deeper_waits_less; [done|exact Hj|done|].
    intros k v Hk. by apply Hmax, list_elem_of_lookup_2 with k. }
  assert (held w = []) as Hh.
  { destruct (held w) as [|a l] eqn:E; [done|].
    destruct (held_from w a) as (k & v & Hk & Hkv); [rewrite E; left|].
    specialize (Hmax v ltac:(by eapply list_elem_of_lookup_2)).
    by destruct v as [? []|? ? []]; cbn in *; try done; lia. }
  destruct (list_max_by (fun v => Nat.b2n (active v && writer v) + Nat.b2n (active v))
    (rt_threads w) t) as (v & Hv & Hbest); [by eapply list_elem_of_lookup_2|].
  apply list_elem_of_lookup in Hv as [k Hk].
  pose proof (Hbest t ltac:(by eapply list_elem_of_lookup_2)) as Ht. rewrite Ha in Ht.
  destruct (active v) eqn:Hav; cbn in Ht; [|destruct (writer t); cbn in Ht; lia].
  apply (Hrun k v Hk Hav). unfold unhindered. destruct (needs v) as [a|] eqn:Hn; [|done].
  rewrite Hh. split; [done|]. intros Hr x Hx Hnx. specialize (Hbest x Hx).
  assert (writer x = true) as Hwx by (unfold writer; by rewrite Hnx).
  assert (active x = true) as Hax by by destruct x as [? []|? ? []].
  assert (writer v = false) as Hwv by (unfold writer; by rewrite Hn).
  cbv beta in Hbest. rewrite Hwx, Hax, Hwv in Hbest. cbn in Hbest. lia.
Qed.

(** * Termination *)

(** How much of its call a thread has left. *)
Definition behind (k : after) : nat := match k with None => 0 | Some todo => S (length todo) end.

Definition stage_left (s : stage) : nat :=
  match s with
  | DNext => 0 | DSent => 1 | DDropped _ => 6 | DOverflow _ => 5 | DWindow _ => 4
  | DKill => 3 | DNotify => 2
  end.

Definition work t : nat * (nat * nat) :=
  match t with
  | Conn _ p =>
      match p with
      | Idle | Gone => (0, (0, 0))
      | TakeOverflow => (1, (0, 0))
      | SetWrite _ _ => (0, (0, 8))
      | RemoveWrite _ k => (0, (behind k, 8))
      | KeyRead k => (0, (behind k, 7))
      | KeyLock _ k => (0, (behind k, 6))
      | KeySwap _ k => (0, (behind k, 5))
      | CheckKill => (0, (0, 3))
      | Leave => (0, (0, 2))
      | LeaveKey => (0, (0, 1))
      end
  | Publisher _ _ p =>
      match p with
      | Route => (1, (0, 0))
      | Visit todo => (0, (2 * length todo + 1, 0))
      | At _ subs rest s => (0, (2 * length rest + 2, 7 * length subs + stage_left s))
      | Published => (0, (0, 0))
      end
  end.

Definition less_work (t' t : thread) : Prop :=
  slexprod _ _ lt (slexprod _ _ lt lt) (work t') (work t).

Lemma less_work_wf : well_founded less_work.
Proof.
  apply (wf_inverse_image thread _ (slexprod _ _ lt (slexprod _ _ lt lt)) work).
  apply wf_slexprod; [apply lt_wf|]. apply wf_slexprod; apply lt_wf.
Qed.

Lemma work_first t' t (a b n a' b' n' : nat) :
  work t' = (a', (b', n')) -> work t = (a, (b, n)) ->
  a' < a \/ (a' = a /\ (b' < b \/ (b' = b /\ n' < n))) -> less_work t' t.
Proof.
  unfold less_work. intros -> -> [Ha|[-> [Hb|[-> Hn]]]];
    [by apply left_slex|by apply right_slex, left_slex|by apply right_slex, right_slex].
Qed.

Ltac less_first := eapply work_first; [cbn [work behind]; reflexivity..|]; cbn [length]; lia.

Lemma resume_less id k n : 3 < n -> exists a b, work (Conn id (resume k)) = (0, (a, b))
  /\ (a < behind k \/ (a = behind k /\ b < n)).
Proof.
  intros Hn. destruct k as [[|sid todo]|]; cbn [resume work behind length]; eexists _, _;
    (split; [reflexivity|]); lia.
Qed.

Lemma conn_step_less fo id c p fo' p' :
  conn_step fo id c p = Some (fo', p') -> less_work (Conn id p') (Conn id p).
Proof.
  intros Hs. assert (forall k n, 3 < n -> work (Conn id p) = (0, (behind k, n)) ->
    less_work (Conn id (resume k)) (Conn id p)) as Hres.
  { intros k n Hn Hp. destruct (resume_less id k n Hn) as (a & b & He & Hor).
    eapply work_first; [exact He|exact Hp|]. lia. }
  destruct p as [|sid fs|sid k|k|key k|key k| | | | |]; cbn [conn_step] in Hs; try done;
    injection Hs as _ <-.
  - less_first.
  - destruct (negb _); [less_first|]. by apply (Hres k 8); [lia|].
  - less_first.
  - case_bool_decide; [|less_first]. by apply (Hres k 6); [lia|].
  - by apply (Hres k 5); [lia|].
  - destruct (c_overflow c); less_first.
  - destruct (c_kill c); less_first.
  - less_first.
  - less_first.
Qed.

Lemma deliver_step_less clock ev c subs s c' subs' s' o :
  (s = DNext -> subs <> []) -> deliver_step clock ev c subs s = (c', subs', s', o) ->
  7 * length subs' + stage_left s' < 7 * length subs + stage_left s.
Proof.
  intros Hs Hd. destruct s; cbn [deliver_step] in Hd; cbn [stage_left];
    try (injection Hd as _ <- <- _; cbn [stage_left]; lia).
  - destruct subs as [|[sid fs] subs]; [by destruct Hs|].
    destruct (existsb _ fs); cbn [negb] in Hd; [destruct (try_send _ _)|];
      injection Hd as _ <- <- _; cbn [stage_left length]; lia.
  - destruct (count_window _ _) as [c1 [|]]; injection Hd as _ <- <- _; cbn [stage_left]; lia.
Qed.

Lemma take_step_less fo t fo' t' os : take_step fo t = Some (fo', t', os) -> less_work t' t.
Proof.
  destruct t as [id p|clock ev p]; cbn [take_step]; intros Ha.
  - apply bind_Some in Ha as (c & Hc & Ha). apply bind_Some in Ha as ([fo1 p1] & Hs & [= _ <- _]).
    by eapply conn_step_less.
  - apply bind_Some in Ha as ([[fo1 p1] os1] & Hp & [= _ <- _]).
    apply publish_step_cases in Hp as [(-> & -> & _)|[(-> & -> & _)|[(id & rest & c & -> & Hc & -> & _)
      |[(id & rest & -> & -> & _)|(id & subs & rest & s & c & c' & subs' & s' & o & -> & Hs & Hc & Hd & -> & _)]]]].
    1-4: less_first.
    pose proof (deliver_step_less _ _ _ _ _ _ _ _ _ Hs Hd).
    less_first.
Qed.

(** A step of some thread. *)
Definition rstep w w' : Prop := exists i, run_thread w i = Some w'.

Lemma rstep_less w w' : rstep w w' -> one_less less_work (rt_threads w') (rt_threads w).
Proof.
  intros [i Hr]. unfold run_thread in Hr. apply bind_Some in Hr as (t & Hi & Hr).
  destruct (may_take w (needs t)); [|done].
  apply bind_Some in Hr as ([[fo' t'] os] & Ha & [= <-]). exists i, t, t'.
  split_and!; [done|done|by eapply take_step_less].
Qed.

Lemma rstep_wf w : Acc (fun w' w => rstep w w') w.
Proof.
  remember (rt_threads w) as ts eqn:Ets. revert w Ets.
  induction (one_less_wf less_work less_work_wf ts) as [ts _ IH]. intros w ->. constructor.
  intros w' Hs. eapply IH; [by apply rstep_less|done].
Qed.

(** C16: no call of the router waits for ever. In every state that connections,
    disconnections, subscriptions and publications can reach, at any interleaving of
    their critical sections: if some thread is inside a call, then there is one
    whose next lock nobody keeps, nor waits to write if it only reads, and it can
    take its step; and no run of steps is infinite, so that when no new calls come
    all of them return. *)
Theorem router_calls_return ms w i t :
  run_moves router_new ms = Some w -> rt_threads w !! i = Some t -> active t = true ->
  (exists j u w', rt_threads w !! j = Some u /\ active u = true /\ unhindered w u
    /\ run_thread w j = Some w')
  /\ Acc (fun w' w => rstep w w') w.
Proof.
  intros Hr Hi Ha. split; [|apply rstep_wf].
  eapply router_progress; [|exact Hi|exact Ha]. exact (run_moves_ok _ _ _ router_ok_new Hr).
Qed.
End Calls.

(** * Closed runs *)

(** Two connections, the first with a subscription; it is closed while an event is
    published, and the second connection leaves. *)
Definition sample_broadcast : BroadcastEvent := broadcast_new sample_event.
Definition sample_clock : Clock := fun _ _ => 5%Z.

Definition busy_moves : list move :=
  [MConnect [] 0; MConnect [] 0; MRequest 0 (Subscribe (lit "a") [kind_filter [1%Z]]);
   MRun 0; MRun 0; MRun 0; MRun 0; MPublish sample_clock sample_broadcast; MRun 2; MRun 2;
   MRequest 0 (Unsubscribe (lit "a")); MRequest 1 Disconnect; MRun 1].

Definition busy : option Router := run_moves router_new busy_moves.

Lemma router_calls_return_witness :
  exists w, busy = Some w
  /\ (exists j u w', rt_threads w !! j = Some u /\ active u = true /\ unhindered w u
      /\ run_thread w j = Some w')
  /\ Acc (fun w' w => rstep w w') w.
Proof.
  destruct busy as [w|] eqn:E; [|vm_compute in E; discriminate].
  exists w. split; [done|].
  apply (router_calls_return busy_moves w 1 (Conn 2 LeaveKey)); [exact E| |reflexivity].
  vm_compute in E. injection E as <-. reflexivity.
Defined.

(** What the busy threads can do: closing the subscription waits for the delivery
    that is under way. *)
Example busy_waits :
  (fun w => (fun i => bool_decide (is_Some (run_thread w i))) <$> [0; 1; 2]) <$> busy
  = Some [false; true; true].
Proof. vm_compute. reflexivity. Qed.

(** Two tasks that shared one connection could lock each other out: one has the key
    and waits for the index, the other has the index and waits for the key. *)
Definition shared_connection : option Router :=
  w ← run_moves router_new [MConnect [] 0; MRequest 0 (Subscribe (lit "a") [kind_filter [1%Z]])];
  run_moves (mkRouter (rt_fanout w) (rt_threads w ++ [Conn 1 Idle]) [])
    [MRequest 1 Disconnect; MRun 0; MRun 0; MRun 0; MRun 1].

Example shared_connection_deadlocks :
  (fun w => (rt_threads w, (fun i => bool_decide (is_Some (run_thread w i))) <$> [0; 1]))
    <$> shared_connection
  = Some ([Conn 1 (KeySwap (KKSome {[1%Z]}) None); Conn 1 LeaveKey], [false; false]).
Proof. vm_compute. reflexivity. Qed.
