(* ===== verification/RouterDelivery.v ===== *)
(** What reaches the subscriptions while connections and publishing threads run
    beside each other ([Router.v]): a publication is offered exactly once to every
    subscription that was there before it and that no one touches meanwhile, never
    twice to any; a subscription that was closed is offered nothing; what is dropped
    is counted and signalled. *)
From S2P Require Import Prelude Text Collections Event Reference Index IndexSpec IndexQuery Subscription Fanout Router RouterProps.
Open Scope memlay_scope.

Section Delivery.
Context `{Channel}.
Implicit Types (fo : Fanout) (c : ConnState) (t : thread) (w : Router).

(** * The frames a publication has offered *)

(** The subscriptions of connection [id] that thread [j] offered a frame to. *)
Definition offered (j : nat) (id : Z) (log : list (nat * offer)) : list str :=
  omap (fun p => if bool_decide (p.1 = j /\ of_conn p.2 = id) then Some (of_sub p.2) else None) log.

Lemma offered_app j id l1 l2 : offered j id (l1 ++ l2) = offered j id l1 ++ offered j id l2.
Proof. apply omap_app. Qed.

Lemma offered_other j k id os : k <> j -> offered j id (pair k <$> os) = [].
Proof.
  intros Hk. induction os as [|o os IH]; [done|]. cbn [fmap list_fmap]. unfold offered in *.
  cbn [omap list_omap fst]. rewrite bool_decide_false by by intros [? _]. exact IH.
Qed.

Lemma offered_elsewhere j i id (o : option (str * bool)) :
  i <> id -> offered j id (pair j <$> ((fun x => mkOffer i x.1 x.2) <$> option_list o)) = [].
Proof.
  intros Hi. destruct o as [x|]; [|done]. unfold offered. cbn. by rewrite bool_decide_false by by intros [_ ?].
Qed.

Lemma offered_here j id (o : option (str * bool)) :
  offered j id (pair j <$> ((fun x => mkOffer id x.1 x.2) <$> option_list o))
  = fst <$> option_list o.
Proof. destruct o as [x|]; [|done]. unfold offered. cbn. by rewrite bool_decide_true. Qed.

(** The subscriptions that want the event, by name. *)
Definition wanting (ev : BroadcastEvent) (subs : list SubEntry) : list str :=
  fst <$> List.filter (wants (be_event ev)) subs.

Lemma wanting_app ev l1 l2 : wanting ev (l1 ++ l2) = wanting ev l1 ++ wanting ev l2.
Proof. unfold wanting. by rewrite List.filter_app, fmap_app. Qed.

(** A step of [deliver] offers to what it passes, if it is wanted. *)
Lemma deliver_step_offers clock ev c subs s c' subs' s' o :
  deliver_step clock ev c subs s = (c', subs', s', o) ->
  exists pre, subs = pre ++ subs' /\ fst <$> option_list o = wanting ev pre.
Proof.
  intros Hd. destruct s; cbn [deliver_step] in Hd;
    try (injection Hd as _ <- _ <-; by exists []).
  - destruct subs as [|[sid fs] subs]; [injection Hd as _ <- _ <-; by exists []|].
    destruct (existsb _ fs) eqn:Hm; cbn [negb] in Hd; [destruct (try_send _ _)|];
      injection Hd as _ <- _ <-; exists [(sid, fs)]; (split; [done|]);
      unfold wanting; cbn [List.filter]; unfold wants; cbn [snd]; by rewrite Hm.
  - destruct (count_window _ _) as [c1 b]. injection Hd as _ <- _ <-. by exists [].
Qed.

(** * Steps of the other threads *)

(** The subscriptions of [id], and with them its key in the index. *)
Definition subs_of fo (id : Z) : option (list SubEntry) := c_subs <$> fo_states fo !! id.
Definition view_of fo (id : Z) : option (list SubEntry * KindKey) :=
  (fun c => (c_subs c, c_kind_key c)) <$> fo_states fo !! id.

Lemma subs_of_view fo fo' id : view_of fo' id = view_of fo id -> subs_of fo' id = subs_of fo id.
Proof.
  unfold view_of, subs_of. destruct (fo_states fo !! id), (fo_states fo' !! id); cbn; congruence.
Qed.

Lemma view_of_only_at id i fo fo' : only_at i fo fo' -> i <> id -> view_of fo' id = view_of fo id.
Proof. intros Ho Hne. unfold view_of. by rewrite (oa_states _ _ _ Ho id) by done. Qed.

Lemma view_of_same id i fo c c' :
  fo_states fo !! i = Some c -> c_subs c' = c_subs c -> c_kind_key c' = c_kind_key c ->
  view_of (with_state i c' fo) id = view_of fo id.
Proof.
  intros Hc Hs Hk. unfold view_of. cbn [with_state fo_states].
  destruct (decide (i = id)) as [->|Hne]; [by rewrite lookup_insert_eq, Hc; cbn; rewrite Hs, Hk|].
  by rewrite lookup_insert_ne.
Qed.

(** Only the connection's own task changes them. *)
Lemma run_thread_view w k w' i id p :
  router_ok w -> run_thread w k = Some w' -> rt_threads w !! i = Some (Conn id p) -> k <> i ->
  view_of (rt_fanout w') id = view_of (rt_fanout w) id.
Proof.
  intros Hw Hr Hi Hk. unfold run_thread in Hr. apply bind_Some in Hr as (t & Ht & Hr).
  destruct (may_take w (needs t)); [|done].
  apply bind_Some in Hr as ([[fo' t'] os] & Ha & [= <-]). cbn [rt_fanout].
  destruct t as [cid q|clock ev q]; cbn [take_step] in Ha.
  - apply bind_Some in Ha as (c & Hc & Ha). apply bind_Some in Ha as ([fo1 p1] & Hs & [= <- <- <-]).
    destruct (conn_step_ok _ _ _ _ _ _ (ro_index w Hw) (ro_threads w Hw k _ Ht) Hc Hs) as (_ & _ & Ho & _).
    eapply view_of_only_at; [exact Ho|]. intros ->. by destruct Hk; eapply (ro_unique w Hw).
  - apply bind_Some in Ha as ([[fo1 p1] os1] & Hp & [= <- <- <-]).
    destruct (publish_step_ok _ _ _ _ _ _ _ (ro_index w Hw) (ro_conns w Hw) (ro_threads w Hw k _ Ht) Hp)
      as [_ [->|(cid & c & c' & Hc & Hs & Hkey & ->)]]; [done|by eapply view_of_same].
Qed.

(** A thread that does not move stays where it is, and its connection keeps its
    subscriptions and its key. *)
Lemma router_step_conn w m w' i id p :
  router_ok w -> router_step w m = Some w' -> rt_threads w !! i = Some (Conn id p) ->
  m <> MRun i -> (forall r, m <> MRequest i r) ->
  rt_threads w' !! i = Some (Conn id p) /\ view_of (rt_fanout w') id = view_of (rt_fanout w) id.
Proof.
  intros Hw Hs Hi Hm Hr. destruct m as [k|tx now|k r|clock ev|cid tx]; cbn [router_step] in Hs.
  - assert (k <> i) as Hk by congruence. split; [|by eapply run_thread_view].
    unfold run_thread in Hs. apply bind_Some in Hs as (t & Ht & Hs).
    destruct (may_take w (needs t)); [|done].
    apply bind_Some in Hs as ([[fo' t'] os] & Ha & [= <-]). cbn [rt_threads].
    by rewrite list_lookup_insert_ne.
  - destruct (available _ _); [|done].
    destruct (ro_threads w Hw i _ Hi) as [(c & Hc & _) _].
    assert (id <> (fo_next_id (rt_fanout w) + 1)%Z) as Hne.
    { intros ->. pose proof (ro_fresh w Hw _ (ex_intro _ c Hc)). lia. }
    unfold register in Hs. injection Hs as <-. cbn [rt_threads rt_fanout]. split.
    + by apply lookup_app_l_Some.
    + unfold view_of. cbn [fo_states]. by rewrite lookup_insert_ne.
  - assert (k <> i) as Hk by congruence.
    destruct (rt_threads w !! k) as [[cid [| | | | | | | | | |]|]|] eqn:Ht; try done.
    apply bind_Some in Hs as ([fo q] & Hb & [= <-]). cbn [rt_threads rt_fanout].
    rewrite list_lookup_insert_ne by done. split; [done|].
    destruct (ro_threads w Hw k _ Ht) as [(c & Hc & _) _].
    destruct (begin_ok _ _ c _ _ _ Hc (ro_threads w Hw k _ Ht) Hb) as (c' & -> & E & Ekey & _).
    by eapply view_of_same.
  - injection Hs as <-. cbn [rt_threads]. split; [by apply lookup_app_l_Some|done].
  - apply bind_Some in Hs as (c & Hc & [= <-]). split; [done|]. by eapply view_of_same.
Qed.

Lemma router_step_pub w m w' j clock ev p :
  router_step w m = Some w' -> rt_threads w !! j = Some (Publisher clock ev p) -> m <> MRun j ->
  rt_threads w' !! j = Some (Publisher clock ev p)
  /\ forall id, offered j id (rt_log w') = offered j id (rt_log w).
Proof.
  intros Hs Hj Hm. destruct m as [k|tx now|k r|clock' ev'|cid tx]; cbn [router_step] in Hs.
  - assert (k <> j) as Hk by congruence.
    unfold run_thread in Hs. apply bind_Some in Hs as (t & Ht & Hs).
    destruct (may_take w (needs t)); [|done].
    apply bind_Some in Hs as ([[fo' t'] os] & Ha & [= <-]). cbn [rt_threads rt_log].
    rewrite list_lookup_insert_ne by done. split; [done|]. intros id.
    by rewrite offered_app, offered_other, app_nil_r.
  - destruct (available _ _); [|done]. unfold register in Hs. injection Hs as <-.
    split; [by apply lookup_app_l_Some|done].
  - destruct (rt_threads w !! k) as [[cid [| | | | | | | | | |]|]|] eqn:Ht; try done.
    apply bind_Some in Hs as ([fo q] & Hb & [= <-]). cbn [rt_threads rt_log].
    rewrite list_lookup_insert_ne by congruence. done.
  - injection Hs as <-. split; [by apply lookup_app_l_Some|done].
  - by apply bind_Some in Hs as (c & Hc & [= <-]).
Qed.

(** A publishing thread's own step. *)
Lemma run_pub w w' j clock ev p :
  rt_threads w !! j = Some (Publisher clock ev p) -> run_thread w j = Some w' ->
  exists fo p' os, publish_step clock ev (rt_fanout w) p = Some (fo, p', os)
    /\ w' = mkRouter fo (<[j := Publisher clock ev p']> (rt_threads w))
              (rt_log w ++ (pair j <$> os)).
Proof.
  intros Hj Hr. unfold run_thread in Hr. rewrite Hj in Hr. cbn [mbind option_bind] in Hr.
  destruct (may_take w _); [|done].
  apply bind_Some in Hr as ([[fo' t'] os] & Ha & [= <-]). cbn [take_step] in Ha.
  apply bind_Some in Ha as ([[fo1 p1] os1] & Hp & [= <- <- <-]). by exists fo1, p1, os1.
Qed.

Lemma run_idle w i id : rt_threads w !! i = Some (Conn id Idle) -> run_thread w i = None.
Proof.
  intros Hi. unfold run_thread. rewrite Hi. cbn [mbind option_bind needs may_take take_step].
  by destruct (fo_states (rt_fanout w) !! id).
Qed.

(** * One publication, one idle connection *)

Section Tracked.
Context (j i : nat) (id : Z) (subs : list SubEntry) (clock : Clock) (ev : BroadcastEvent).

Definition full : list str := wanting ev subs.

(** What has been offered to [id], by where the publication is. *)
Definition tracked_at (p : publish_pc) (l : list str) : Prop :=
  match p with
  | Route => l = []
  | Visit todo => (id ∈ todo -> l = []) /\ (id ∉ todo -> l = full)
  | At cid later rest _ =>
      if bool_decide (cid = id)
      then exists pre, subs = pre ++ later /\ l = wanting ev pre
      else (id ∈ rest -> l = []) /\ (id ∉ rest -> l = full)
  | Published => l = full
  end.

Record tracked w : Prop := {
  tr_ok : router_ok w;
  tr_task : rt_threads w !! i = Some (Conn id Idle);
  tr_subs : subs_of (rt_fanout w) id = Some subs;
  tr_pub : exists p, rt_threads w !! j = Some (Publisher clock ev p)
    /\ tracked_at p (offered j id (rt_log w));
}.

(** Where the index does not lead to the connection, nothing is wanted. *)
Lemma not_routed w :
  tracked w -> id ∉ targets (ev_kind (be_event ev)) (rt_fanout w) -> full = [].
Proof.
  intros [Hw Hi Hs _]. destruct (ro_threads w Hw i _ Hi) as [(c & Hc & Hf) Hm].
  unfold subs_of in Hs. rewrite Hc in Hs. injection Hs as Hs. cbn in Hf. rewrite Hs in Hf.
  rewrite elem_of_targets, (ik_any_key _ _ _ (ro_index w Hw) Hc),
    (ik_kind_key _ _ _ _ (ro_index w Hw) Hc), Hf. intros Ht.
  assert (id ∈ fo_conns (rt_fanout w)) as Hin by (apply Hm; by intros [?|?]).
  assert (forall sub, sub ∈ subs -> wants (be_event ev) sub = false) as Hall
    by (apply unrouted_not_wanted; tauto).
  unfold full, wanting. clear -Hall. induction subs as [|s l IH]; [done|]. cbn [List.filter].
  rewrite (Hall s) by left. apply IH. intros sub Hsub. apply Hall. by right.
Qed.

Lemma tracked_step w fo' p p' os :
  tracked w -> tracked_at p (offered j id (rt_log w)) -> thread_ok (rt_fanout w) (Publisher clock ev p) ->
  publish_step clock ev (rt_fanout w) p = Some (fo', p', os) ->
  tracked_at p' (offered j id (rt_log w ++ (pair j <$> os))).
Proof.
  intros Htr Hp Ht Hs. set (l := offered j id (rt_log w)) in *. rewrite offered_app. fold l.
  apply publish_step_cases in Hs as [(-> & -> & _ & ->)|[(-> & -> & _ & ->)|[(cid & rest & c & -> & Hc & -> & _ & ->)
    |[(cid & rest & -> & -> & _ & ->)|(cid & later & rest & s & c & c' & later' & s' & o & -> & _ & Hc & Hd & -> & _ & ->)]]]];
    cbn [fmap list_fmap offered omap list_omap]; rewrite ?app_nil_r.
  - cbn in Hp. split; [done|]. intros Hn. rewrite Hp. symmetry. by eapply not_routed.
  - apply Hp, not_elem_of_nil.
  - destruct Hp as [H1 H2]. cbn. case_bool_decide as Hcid.
    + subst cid. exists []. split; [|by apply H1; left].
      pose proof (tr_subs w Htr) as Hsub. unfold subs_of in Hsub. rewrite Hc in Hsub.
      by injection Hsub as ->.
    + split; intros Hr; [apply H1; by right|apply H2]. by intros [->|?]%elem_of_cons.
  - destruct Ht as ([Hnd _]%NoDup_cons & _). cbn in Hp. case_bool_decide as Hcid; [|done].
    subst cid. destruct Hp as (pre & Hpre & Hl). rewrite app_nil_r in Hpre. subst pre. done.
  - destruct (deliver_step_offers _ _ _ _ _ _ _ _ _ Hd) as (mid & -> & Ho). cbn in *.
    case_bool_decide as Hcid.
    + subst cid. destruct Hp as (pre & Hpre & Hl). exists (pre ++ mid). rewrite <- app_assoc.
      split; [done|]. change (l ++ offered j id (pair j <$> ((fun x => mkOffer id x.1 x.2) <$> option_list o))
        = wanting ev (pre ++ mid)). by rewrite offered_here, Ho, wanting_app, Hl.
    + change (omap _ (pair j <$> _)) with
        (offered j id (pair j <$> ((fun x => mkOffer cid x.1 x.2) <$> option_list o))).
      by rewrite offered_elsewhere, app_nil_r.
Qed.

Lemma tracked_move w m w' :
  tracked w -> (forall r, m <> MRequest i r) -> router_step w m = Some w' -> tracked w'.
Proof.
  intros Htr Hm Hs. pose proof Htr as [Hw Hi Hsub (p & Hj & Hp)].
  assert (m <> MRun i) as Hmi.
  { intros ->. cbn in Hs. by rewrite (run_idle w i id Hi) in Hs. }
  pose proof (router_step_ok _ _ _ Hw Hs) as Hw'.
  destruct (router_step_conn _ _ _ _ _ _ Hw Hs Hi Hmi Hm) as [Hi' Hsub'%subs_of_view].
  assert (m = MRun j \/ m <> MRun j) as [->|Hne].
  { destruct m as [k| | | |]; try (by right). destruct (decide (k = j)) as [->|]; [by left|right; congruence]. }
  - split; [done|done|congruence|]. cbn [router_step] in Hs.
    destruct (run_pub _ _ _ _ _ _ Hj Hs) as (fo & p' & os & Hstep & ->). exists p'. split.
    + apply list_lookup_insert_eq. by eapply lookup_lt_Some.
    + eapply tracked_step; [done|done| |exact Hstep]. by eapply (ro_threads w Hw).
  - destruct (router_step_pub _ _ _ _ _ _ _ Hs Hj Hne) as [Hj' Hoff].
    split; [done|done|congruence|]. exists p. split; [done|]. by rewrite Hoff.
Qed.

Lemma tracked_moves w ms w' :
  tracked w -> (forall r, MRequest i r ∉ ms) -> run_moves w ms = Some w' -> tracked w'.
Proof.
  intros Hw Hms. apply run_moves_ind; [done|]. intros w1 m w2 Hin H1. apply tracked_move; [done|].
  intros r ->. by apply (Hms r).
Qed.
End Tracked.

(** ** Nothing is logged for threads to come *)

Lemma run_thread_length w i w' : run_thread w i = Some w' -> length (rt_threads w') = length (rt_threads w).
Proof.
  unfold run_thread. intros (t & _ & Hr)%bind_Some. destruct (may_take w (needs t)); [|done].
  apply bind_Some in Hr as ([[fo' t'] os] & _ & [= <-]). apply length_insert.
Qed.

Definition log_past w : Prop := Forall (fun p => p.1 < length (rt_threads w)) (rt_log w).

Lemma log_past_step w m w' : log_past w -> router_step w m = Some w' -> log_past w'.
Proof.
  unfold log_past. intros Hl Hs.
  assert (forall n, length (rt_threads w) <= n -> Forall (fun p => p.1 < n) (rt_log w)) as Hmore.
  { intros n Hn. eapply Forall_impl; [exact Hl|]. intros x. cbn. lia. }
  destruct m as [k|tx now|k r|clock' ev'|cid tx]; cbn [router_step] in Hs.
  - rewrite (run_thread_length _ _ _ Hs). unfold run_thread in Hs.
    apply bind_Some in Hs as (t & Ht & Hs). destruct (may_take w (needs t)); [|done].
    apply bind_Some in Hs as ([[fo' t'] os] & Ha & [= <-]). cbn [rt_log].
    apply Forall_app. split; [done|]. apply Forall_fmap, Forall_forall. intros o _. cbn.
    by eapply lookup_lt_Some.
  - destruct (available _ _); [|done]. unfold register in Hs. injection Hs as <-.
    cbn [rt_threads rt_log]. apply Hmore. rewrite length_app. lia.
  - destruct (rt_threads w !! k) as [[cid [| | | | | | | | | |]|]|]; try done.
    apply bind_Some in Hs as ([fo q] & Hb & [= <-]). cbn [rt_threads rt_log].
    by rewrite length_insert.
  - injection Hs as <-. cbn [rt_threads rt_log]. apply Hmore. rewrite length_app. lia.
  - by apply bind_Some in Hs as (c & Hc & [= <-]).
Qed.

Lemma log_past_run ms w : run_moves router_new ms = Some w -> log_past w.
Proof. apply run_moves_ind; [constructor|]. intros w1 m w2 _. apply log_past_step. Qed.

Lemma offered_future w id : log_past w -> offered (length (rt_threads w)) id (rt_log w) = [].
Proof.
  unfold log_past. generalize (length (rt_threads w)) as n. intros n Hl.
  induction Hl as [|x l Hx _ IH]; [done|]. unfold offered in *. cbn [omap list_omap].
  rewrite bool_decide_false; [exact IH|]. intros [E _]. cbn in Hx. lia.
Qed.

Lemma tracked_start w i id c clock ev :
  router_ok w -> log_past w -> rt_threads w !! i = Some (Conn id Idle) ->
  fo_states (rt_fanout w) !! id = Some c ->
  tracked (length (rt_threads w)) i id (c_subs c) clock ev
    (mkRouter (rt_fanout w) (rt_threads w ++ [Publisher clock ev Route]) (rt_log w)).
Proof.
  intros Hw Hl Hi Hc. split.
  - by eapply (router_step_ok w (MPublish clock ev)).
  - by apply lookup_app_l_Some.
  - unfold subs_of. cbn [rt_fanout]. by rewrite Hc.
  - exists Route. cbn [rt_log]. split; [|by apply offered_future]. cbn [rt_threads].
    by rewrite lookup_app_r, Nat.sub_diag by lia.
Qed.

(** Live delivery under concurrency: let an event be published when the task of
    a connection is between two requests, and let anything happen until that
    publication has returned, except that the task begins another request: other
    connections come, subscribe and leave, other events are published, the channels
    fill and drain, in any interleaving of the critical sections. Then the
    publication has offered the connection exactly one frame for each of its
    subscriptions that match the event, in their order, and no other. *)
Theorem publication_reaches_subscribers ms w i id c clock ev ms' w' :
  run_moves router_new ms = Some w -> rt_threads w !! i = Some (Conn id Idle) ->
  fo_states (rt_fanout w) !! id = Some c -> (forall r, MRequest i r ∉ ms') ->
  run_moves w (MPublish clock ev :: ms') = Some w' ->
  let j := length (rt_threads w) in
  rt_threads w' !! j = Some (Publisher clock ev Published) ->
  offered j id (rt_log w') = fst <$> List.filter (wants (be_event ev)) (c_subs c).
Proof.
  intros Hr Hi Hc Hms Hr' j Hj.
  pose proof (tracked_start w i id c clock ev (run_moves_ok _ _ _ router_ok_new Hr)
    (log_past_run _ _ Hr) Hi Hc) as Hstart.
  pose proof (tracked_moves _ _ _ _ _ _ _ ms' w' Hstart Hms Hr') as [_ _ _ (p & Hp & Ht)].
  fold j in Hp, Ht. rewrite Hj in Hp. injection Hp as <-. exact Ht.
Qed.

(** * Never twice *)

(** How a step changes the subscriptions of a connection. *)
Inductive resubscribed (l : list SubEntry) : list SubEntry -> Prop :=
| re_same : resubscribed l l
| re_put sub_id filters : resubscribed l (put_sub sub_id filters l)
| re_drop sub_id : resubscribed l (List.filter (fun s => bool_decide (fst s <> sub_id)) l).

Lemma same_resubscribed fo i c c' id x' :
  fo_states fo !! i = Some c -> c_subs c' = c_subs c ->
  fo_states (with_state i c' fo) !! id = Some x' ->
  exists x, fo_states fo !! id = Some x /\ resubscribed (c_subs x) (c_subs x').
Proof.
  intros Hc Hs. cbn [with_state fo_states].
  intros [[<- <-]|[_ Hx]]%lookup_insert_Some; [exists c; rewrite Hs|exists x']; (split; [done|constructor]).
Qed.

Lemma take_step_resubscribed fo t fo' t' os id x' :
  index_ok fo -> (forall id, id ∈ fo_conns fo -> has_state fo id) -> thread_ok fo t ->
  take_step fo t = Some (fo', t', os) -> fo_states fo' !! id = Some x' ->
  exists x, fo_states fo !! id = Some x /\ resubscribed (c_subs x) (c_subs x').
Proof.
  intros Hi Hm Ht Ha Hx. destruct t as [cid p|clock ev p]; cbn [take_step] in Ha.
  - apply bind_Some in Ha as (c & Hc & Ha). apply bind_Some in Ha as ([fo1 p1] & Hs & [= <- <- <-]).
    destruct (conn_step_ok _ _ _ _ _ _ Hi Ht Hc Hs) as (_ & _ & Ho & Hsub).
    destruct (decide (id = cid)) as [->|Hne].
    2: { exists x'. rewrite (oa_states _ _ _ Ho) in Hx by done. split; [done|constructor]. }
    destruct (writes p) eqn:Hw.
    2: { destruct (Hsub eq_refl) as (c' & Hc' & He). exists c. split; [done|].
         assert (x' = c') as -> by congruence. rewrite He. constructor. }
    exists c. split; [done|]. destruct p; try done; cbn [conn_step] in Hs; injection Hs as <- _;
      rewrite state_here in Hx; injection Hx as <-; cbn [with_subs c_subs]; constructor.
  - apply bind_Some in Ha as ([[fo1 p1] os1] & Hp & [= <- <- <-]).
    destruct (publish_step_ok _ _ _ _ _ _ _ Hi Hm Ht Hp) as [_ [->|(cid & c & c' & Hc & Hs & _ & ->)]].
    + exists x'. split; [done|constructor].
    + by eapply same_resubscribed.
Qed.

Lemma router_step_resubscribed w m w' id x' :
  router_ok w -> router_step w m = Some w' -> fo_states (rt_fanout w') !! id = Some x' ->
  c_subs x' = []
  \/ exists x, fo_states (rt_fanout w) !! id = Some x /\ resubscribed (c_subs x) (c_subs x').
Proof.
  intros Hw Hs Hx. destruct m as [k|tx now|k r|clock' ev'|cid tx]; cbn [router_step] in Hs.
  - right. unfold run_thread in Hs. apply bind_Some in Hs as (t & Ht & Hs).
    destruct (may_take w (needs t)); [|done].
    apply bind_Some in Hs as ([[fo' t'] os] & Ha & [= <-]).
    eapply take_step_resubscribed; [apply Hw|apply Hw|by eapply (ro_threads w Hw)|exact Ha|exact Hx].
  - destruct (available _ _); [|done]. unfold register in Hs. injection Hs as <-.
    cbn [rt_fanout fo_states] in Hx. apply lookup_insert_Some in Hx as [[_ <-]|[_ Hx]]; [by left|].
    right. exists x'. split; [done|constructor].
  - right. destruct (rt_threads w !! k) as [[cid [| | | | | | | | | |]|]|] eqn:Ht; try done.
    apply bind_Some in Hs as ([fo q] & Hb & [= <-]).
    destruct (ro_threads w Hw k _ Ht) as [(c & Hc & _) _].
    destruct (begin_ok _ _ c _ _ _ Hc (ro_threads w Hw k _ Ht) Hb) as (c' & -> & E & _).
    by eapply same_resubscribed.
  - right. injection Hs as <-. exists x'. split; [exact Hx|constructor].
  - right. apply bind_Some in Hs as (c & Hc & [= <-]).
    by eapply same_resubscribed; [exact Hc| |exact Hx].
Qed.

(** A connection's subscriptions have different names. *)
Definition names_ok fo : Prop :=
  forall id c, fo_states fo !! id = Some c -> NoDup (c_subs c).*1.

Lemma put_sub_in sub_id filters l s : s ∈ (put_sub sub_id filters l).*1 -> s = sub_id \/ s ∈ l.*1.
Proof.
  induction l as [|[id fs] l IH]; cbn [put_sub].
  { intros ->%list_elem_of_singleton. by left. }
  case_bool_decide as Hid; rewrite !fmap_cons, !elem_of_cons; cbn [fst]; [tauto|].
  intros [?|?%IH]; tauto.
Qed.

Lemma resubscribed_names l l' : resubscribed l l' -> NoDup l.*1 -> NoDup l'.*1.
Proof.
  intros [|sid fs|sid] Hl; [done| |].
  - induction l as [|[id gs] l IH]; cbn [put_sub]; [apply NoDup_singleton|].
    apply NoDup_cons in Hl as [Hn Hl]. case_bool_decide as Hid; rewrite fmap_cons; (apply NoDup_cons; split; [|auto]).
    + done.
    + cbn [fst] in *. intros [?|?]%put_sub_in; [congruence|done].
  - induction l as [|[id gs] l IH]; cbn [List.filter]; [done|].
    apply NoDup_cons in Hl as [Hn Hl]. case_bool_decide as Hid; [|auto].
    rewrite fmap_cons. apply NoDup_cons. split; [|auto]. contradict Hn. cbn [fst] in *.
    apply list_elem_of_fmap in Hn as (y & Hy & [Hin _]%elem_of_List_filter).
    rewrite Hy. by apply list_elem_of_fmap_2.
Qed.

Lemma names_step w m w' :
  router_ok w -> names_ok (rt_fanout w) -> router_step w m = Some w' -> names_ok (rt_fanout w').
Proof.
  intros Hw Hn Hs id c' Hc'.
  destruct (router_step_resubscribed w m w' id c' Hw Hs Hc') as [->|(c & Hc & Hr)]; [constructor|].
  by eapply resubscribed_names; [exact Hr|eapply Hn].
Qed.

(** What has been offered to [id], by where the publication is. *)
Definition once_at (id : Z) (p : publish_pc) (l : list str) : Prop :=
  match p with
  | Route => l = []
  | Visit todo => (id ∈ todo -> l = []) /\ NoDup l
  | At cid later rest _ =>
      if bool_decide (cid = id) then NoDup (l ++ later.*1)
      else (id ∈ rest -> l = []) /\ NoDup l
  | Published => NoDup l
  end.

Record once w : Prop := {
  on_ok : router_ok w;
  on_past : log_past w;
  on_names : names_ok (rt_fanout w);
  on_pub : forall j clock ev p, rt_threads w !! j = Some (Publisher clock ev p) ->
    forall id, once_at id p (offered j id (rt_log w));
}.

Lemma wanting_sublist ev l : wanting ev l `sublist_of` l.*1.
Proof.
  unfold wanting. induction l as [|s l IH]; [done|]. cbn [List.filter].
  destruct (wants (be_event ev) s); by constructor.
Qed.

Lemma once_own w j clock ev p fo' p' os id :
  once w -> rt_threads w !! j = Some (Publisher clock ev p) ->
  publish_step clock ev (rt_fanout w) p = Some (fo', p', os) ->
  once_at id p' (offered j id (rt_log w ++ (pair j <$> os))).
Proof.
  intros [Hw _ Hn Hp] Hj Hs. specialize (Hp j clock ev p Hj id).
  pose proof (ro_threads w Hw j _ Hj) as Ht. rewrite offered_app.
  set (l := offered j id (rt_log w)) in *.
  apply publish_step_cases in Hs as [(-> & -> & _ & ->)|[(-> & -> & _ & ->)|[(cid & rest & c & -> & Hc & -> & _ & ->)
    |[(cid & rest & -> & -> & _ & ->)|(cid & later & rest & s & c & c' & later' & s' & o & -> & _ & Hc & Hd & -> & _ & ->)]]]].
  1-4: change (offered j id (pair j <$> [])) with (@nil str); rewrite app_nil_r.
  - cbn in Hp. rewrite Hp. split; [done|constructor].
  - apply Hp.
  - destruct Hp as [H1 H2]. cbn. case_bool_decide as Hcid.
    + subst cid. rewrite H1 by left. by eapply Hn.
    + split; [|done]. intros Hr. apply H1. by right.
  - destruct Ht as ([Hnd _]%NoDup_cons & _). cbn in Hp. case_bool_decide as Hcid; [|done].
    subst cid. rewrite app_nil_r in Hp. by split.
  - destruct (deliver_step_offers _ _ _ _ _ _ _ _ _ Hd) as (mid & -> & Ho).
    cbn [once_at] in *. case_bool_decide as Hcid.
    + subst cid. rewrite offered_here, Ho, <- app_assoc. eapply sublist_NoDup; [exact Hp|].
      rewrite fmap_app. by apply sublist_app, sublist_app; [|apply wanting_sublist|].
    + by rewrite offered_elsewhere, app_nil_r.
Qed.

(** A thread that publishes now did so before, or has just been started. *)
Lemma router_step_pub_back w m w' j clock ev p' :
  router_step w m = Some w' -> rt_threads w' !! j = Some (Publisher clock ev p') ->
  (exists p, rt_threads w !! j = Some (Publisher clock ev p))
  \/ (j = length (rt_threads w) /\ p' = Route /\ rt_log w' = rt_log w).
Proof.
  intros Hs Hj. destruct m as [k|tx now|k r|clock' ev'|cid tx]; cbn [router_step] in Hs.
  - unfold run_thread in Hs. apply bind_Some in Hs as (t & Ht & Hs).
    destruct (may_take w (needs t)); [|done].
    apply bind_Some in Hs as ([[fo' t'] os] & Ha & [= <-]). cbn [rt_threads] in Hj.
    apply list_lookup_insert_Some in Hj as [(-> & -> & _)|[_ Hj]]; [left|left; by exists p'].
    destruct t as [cid q|clock0 ev0 q]; cbn [take_step] in Ha.
    + apply bind_Some in Ha as (c & _ & Ha). by apply bind_Some in Ha as ([fo1 p1] & _ & [=]).
    + apply bind_Some in Ha as ([[fo1 p1] os1] & _ & Ha). injection Ha as _ -> -> _ _. by exists q.
  - destruct (available _ _); [|done]. unfold register in Hs. injection Hs as <-. left.
    apply lookup_app_Some in Hj as [Hj|[_ [_ Hj]%list_lookup_singleton_Some]]; [by exists p'|done].
  - left. destruct (rt_threads w !! k) as [[cid [| | | | | | | | | |]|]|] eqn:Ht; try done.
    apply bind_Some in Hs as ([fo q] & Hb & [= <-]). cbn [rt_threads] in Hj.
    apply list_lookup_insert_Some in Hj as [(_ & [=] & _)|[_ Hj]]. by exists p'.
  - injection Hs as <-. cbn [rt_threads] in Hj.
    apply lookup_app_Some in Hj as [Hj|[Hle [Hj [= _ _ <-]]%list_lookup_singleton_Some]];
      [left; by exists p'|right]. split; [lia|done].
  - left. apply bind_Some in Hs as (c & Hc & [= <-]). by exists p'.
Qed.

Lemma once_step w m w' : once w -> router_step w m = Some w' -> once w'.
Proof.
  intros Ho Hs. pose proof Ho as [Hw Hl Hn Hp]. split.
  - by eapply router_step_ok.
  - by eapply log_past_step.
  - by eapply names_step.
  - intros j clock ev p' Hj id.
    destruct (router_step_pub_back _ _ _ _ _ _ _ Hs Hj) as [[p Hj0]|(-> & -> & ->)].
    2: { cbn. by apply offered_future. }
    assert (m = MRun j \/ m <> MRun j) as [->|Hne].
    { destruct m as [k| | | |]; try (by right).
      destruct (decide (k = j)) as [->|]; [by left|right; congruence]. }
    + destruct (run_pub _ _ _ _ _ _ Hj0 Hs) as (fo & p1 & os & Hstep & ->).
      cbn [rt_threads rt_log] in *. rewrite list_lookup_insert_eq in Hj by by eapply lookup_lt_Some.
      injection Hj as <-. by eapply once_own.
    + destruct (router_step_pub _ _ _ _ _ _ _ Hs Hj0 Hne) as [Hj1 Hoff].
      rewrite Hj1 in Hj. injection Hj as <-. rewrite Hoff. by eapply Hp.
Qed.

Lemma once_run ms w : run_moves router_new ms = Some w -> once w.
Proof.
  apply run_moves_ind; [|intros w1 m w2 _; apply once_step]. split.
  - apply router_ok_new.
  - constructor.
  - intros id c Hc. unfold router_new, fanout_new in Hc. cbn [rt_fanout fo_states] in Hc.
    by rewrite lookup_empty in Hc.
  - done.
Qed.

(** Nothing is delivered twice: at any moment of any run, a publication has offered
    no subscription of any connection more than one frame. *)
Theorem offered_at_most_once ms w j clock ev p id :
  run_moves router_new ms = Some w -> rt_threads w !! j = Some (Publisher clock ev p) ->
  NoDup (offered j id (rt_log w)).
Proof.
  intros Hr Hj. pose proof (on_pub w (once_run _ _ Hr) j clock ev p Hj id) as Ho.
  destruct p as [|todo|cid later rest s|]; cbn in Ho.
  - rewrite Ho. constructor.
  - apply Ho.
  - case_bool_decide; [by apply NoDup_app in Ho as [? _]|apply Ho].
  - exact Ho.
Qed.

(** * Closed is closed *)

(** The offers to a subscription, by anyone. *)
Definition offers_to (id : Z) (sub_id : str) (log : list (nat * offer)) : list (nat * offer) :=
  List.filter (fun p => bool_decide (of_conn p.2 = id /\ of_sub p.2 = sub_id)) log.

Lemma offers_to_none id sub_id k os :
  (forall o, o ∈ os -> of_conn o = id -> of_sub o <> sub_id) ->
  offers_to id sub_id (pair k <$> os) = [].
Proof.
  intros Hos. induction os as [|o os IH]; [done|]. rewrite fmap_cons. unfold offers_to in *.
  cbn [List.filter snd]. rewrite bool_decide_false.
  - apply IH. intros o' Ho'. apply Hos. by right.
  - intros [? ?]. by apply (Hos o); [left|..].
Qed.

(** Frames are offered to subscriptions the connection has. *)
Lemma offers_to_own fo t fo' t' os id c :
  thread_ok fo t -> take_step fo t = Some (fo', t', os) -> fo_states fo !! id = Some c ->
  forall o, o ∈ os -> of_conn o = id -> of_sub o ∈ (c_subs c).*1.
Proof.
  intros Ht Ha Hc o Ho Hid. destruct t as [cid p|clock ev p]; cbn [take_step] in Ha.
  { apply bind_Some in Ha as (c0 & _ & Ha). apply bind_Some in Ha as ([fo1 p1] & _ & [= _ _ <-]).
    by apply elem_of_nil in Ho. }
  apply bind_Some in Ha as ([[fo1 p1] os1] & Hp & [= _ _ <-]).
  apply publish_step_cases in Hp as [(_ & _ & _ & ->)|[(_ & _ & _ & ->)|[(? & ? & ? & _ & _ & _ & _ & ->)
    |[(? & ? & _ & _ & _ & ->)|(cid & later & rest & s & c1 & c' & later' & s' & o' & -> & _ & Hc1 & Hd & _ & _ & ->)]]]];
    try by apply elem_of_nil in Ho.
  apply list_elem_of_fmap in Ho as (x & -> & Hx). cbn in Hid |- *. subst cid.
  destruct Ht as (_ & _ & c2 & pre & Hc2 & Hpre). assert (c2 = c) as -> by congruence.
  destruct (deliver_step_offers _ _ _ _ _ _ _ _ _ Hd) as (mid & -> & Hm).
  assert (x.1 ∈ wanting ev mid) as Hin by (rewrite <- Hm; by apply list_elem_of_fmap_2).
  rewrite Hpre, !fmap_app, !elem_of_app. right; left.
  eapply elem_of_sublist; [exact Hin|apply wanting_sublist].
Qed.

Record silent (i : nat) (id : Z) (sub_id : str) (log : list (nat * offer)) w : Prop := {
  si_ok : router_ok w;
  si_task : rt_threads w !! i = Some (Conn id Idle);
  si_subs : exists subs, subs_of (rt_fanout w) id = Some subs /\ sub_id ∉ subs.*1;
  si_log : offers_to id sub_id (rt_log w) = offers_to id sub_id log;
}.

Lemma silent_move i id sub_id log w m w' :
  silent i id sub_id log w -> (forall r, m <> MRequest i r) -> router_step w m = Some w' ->
  silent i id sub_id log w'.
Proof.
  intros [Hw Hi (subs & Hsub & Hno) Hl] Hm Hs. assert (m <> MRun i) as Hmi.
  { intros ->. cbn in Hs. by rewrite (run_idle w i id Hi) in Hs. }
  destruct (router_step_conn _ _ _ _ _ _ Hw Hs Hi Hmi Hm) as [Hi' Hsub'%subs_of_view].
  split; [by eapply router_step_ok|done|exists subs; split; [congruence|done]|]. rewrite <- Hl.
  destruct m as [k|tx now|k r|clock' ev'|cid tx]; cbn [router_step] in Hs.
  - unfold run_thread in Hs. apply bind_Some in Hs as (t & Ht & Hs).
    destruct (may_take w (needs t)); [|done].
    apply bind_Some in Hs as ([[fo' t'] os] & Ha & [= <-]). cbn [rt_log].
    unfold subs_of in Hsub. destruct (fo_states (rt_fanout w) !! id) as [c|] eqn:Hc; [|done].
    injection Hsub as <-. unfold offers_to at 1. rewrite List.filter_app.
    change (offers_to id sub_id (rt_log w) ++ offers_to id sub_id (pair k <$> os)
      = offers_to id sub_id (rt_log w)).
    rewrite offers_to_none, app_nil_r; [done|]. intros o Ho Hid Hsid. apply Hno. rewrite <- Hsid.
    by eapply offers_to_own; [eapply (ro_threads w Hw)|exact Ha|exact Hc|..].
  - destruct (available _ _); [|done]. unfold register in Hs. by injection Hs as <-.
  - destruct (rt_threads w !! k) as [[cid [| | | | | | | | | |]|]|]; try done.
    by apply bind_Some in Hs as ([fo q] & Hb & [= <-]).
  - by injection Hs as <-.
  - by apply bind_Some in Hs as (c & Hc & [= <-]).
Qed.

(** After a CLOSE has been handled nothing more is delivered: when the task of a
    connection is between two requests and the connection has no subscription of
    some name, then until that task begins another request no publication, not even
    one that had already found the connection in the index, offers it a frame for
    that name, whatever else happens. *)
Theorem closed_subscription_silent ms w i id c sub_id ms' w' :
  run_moves router_new ms = Some w -> rt_threads w !! i = Some (Conn id Idle) ->
  fo_states (rt_fanout w) !! id = Some c -> sub_id ∉ (c_subs c).*1 ->
  (forall r, MRequest i r ∉ ms') -> run_moves w ms' = Some w' ->
  offers_to id sub_id (rt_log w') = offers_to id sub_id (rt_log w).
Proof.
  intros Hr Hi Hc Hno Hms Hr'. apply (si_log i id sub_id (rt_log w) w').
  revert Hr'. apply run_moves_ind.
  - split; [exact (run_moves_ok _ _ _ router_ok_new Hr)|done| |done].
    exists (c_subs c). unfold subs_of. by rewrite Hc.
  - intros w1 m w2 Hin H1. apply silent_move; [done|]. intros r ->. by apply (Hms r).
Qed.
End Delivery.

(** * Closed runs *)

(** A connection subscribes; while its event is on the way, another connection comes
    and subscribes. *)
Definition two_readers : list move :=
  [MConnect [] 0; MRequest 0 (Subscribe (lit "a") [kind_filter [1%Z]]); MRun 0; MRun 0; MRun 0; MRun 0;
   MRequest 0 (Subscribe (lit "b") [kind_filter [7%Z]]); MRun 0; MRun 0; MRun 0; MRun 0].

Definition meanwhile : list move :=
  [MConnect [] 0; MRequest 2 (Subscribe (lit "c") [kind_filter [1%Z]]); MRun 2; MRun 1; MRun 2; MRun 1;
   MRun 2; MRun 1; MRun 2; MRun 1; MRun 1; MRun 1; MRun 1].

Definition five : Clock := fun _ _ => 5%Z.

Definition publication : move := MPublish five (broadcast_new sample_event).

Definition first_reader : list SubEntry :=
  [(lit "a", [kind_filter [1%Z]]); (lit "b", [kind_filter [7%Z]])].

Example two_readers_run :
  (fun w => (rt_threads w, subs_of (rt_fanout w) 1)) <$> run_moves router_new two_readers
  = Some ([Conn 1 Idle], Some first_reader).
Proof. vm_compute. reflexivity. Qed.

Example two_readers_published :
  (fun w => rt_threads w !! 1) <$> (w ← run_moves router_new two_readers; run_moves w (publication :: meanwhile))
  = Some (Some (Publisher five (broadcast_new sample_event) Published)).
Proof. vm_compute. reflexivity. Qed.

Lemma publication_reaches_subscribers_witness :
  exists w w', run_moves router_new two_readers = Some w
    /\ run_moves w (publication :: meanwhile) = Some w'
    /\ offered 1 1 (rt_log w') = [lit "a"].
Proof.
  pose proof two_readers_run as H1. pose proof two_readers_published as H2.
  destruct (run_moves router_new two_readers) as [w|] eqn:E1; [|discriminate].
  cbn [fmap option_fmap option_map mbind option_bind] in H1, H2.
  destruct (run_moves w (publication :: meanwhile)) as [w'|] eqn:E2; [|discriminate].
  injection H1 as Ht Hs. unfold subs_of in Hs.
  destruct (fo_states (rt_fanout w) !! 1%Z) as [c|] eqn:Ec; [|discriminate].
  injection Hs as Hs. injection H2 as H2. exists w, w'. split; [done|]. split; [done|].
  transitivity (fst <$> List.filter (wants sample_event) first_reader); [|vm_compute; reflexivity].
  rewrite <- Hs. replace 1 with (length (rt_threads w)) by by rewrite Ht.
  refine (publication_reaches_subscribers two_readers w 0 1 c five (broadcast_new sample_event)
    meanwhile w' E1 _ Ec _ E2 _).
  - by rewrite Ht.
  - intros r Hin. unfold meanwhile in Hin.
    repeat (apply elem_of_cons in Hin as [Hin|Hin]; [discriminate|]). by apply elem_of_nil in Hin.
  - by rewrite Ht.
Defined.
