(* ===== verification/RouterOpen.v ===== *)
(** What reaches one subscription of a connection that goes on working
    ([src/src/fanout.rs], [src/src/relay.rs]). [RouterDelivery.v] follows a publication
    past a connection whose task is idle; here the task opens and closes other
    subscriptions, handles notifications and recomputes its key meanwhile, and the
    subscription that is followed only has to be there in the end. *)
From S2P Require Import Prelude Text Collections Event Reference Index IndexSpec IndexQuery Subscription Fanout Router RouterProps RouterDelivery.
Open Scope memlay_scope.

(** * One subscription and its connection *)

Section Open.
Context `{Channel}.
Context (i : nat) (id : Z) (sid : str) (fs : list Filter).
Implicit Types (fo : Fanout) (c : ConnState) (w : Router).

(** A connection with this key is offered every event the subscription wants. *)
Definition covers (key : KindKey) : Prop :=
  forall e, wants e (sid, fs) = true -> key = KKAny \/ key_has key (ev_kind e).

Lemma subs_key_covers subs : (sid, fs) ∈ subs -> covers (subs_key subs).
Proof.
  intros Hin e Hw. pose proof (unrouted_not_wanted subs e) as Hno.
  destruct (subs_key subs) as [| |ks]; [|by left|].
  - specialize (Hno ltac:(done) ltac:(by intros ?) _ Hin). congruence.
  - destruct (decide (ev_kind e ∈ ks)) as [?|Hn]; [by right|].
    specialize (Hno ltac:(done) Hn _ Hin). congruence.
Qed.

(** Where the task is, the connection's subscriptions, and its key in the index. *)
Definition closed_at (p : conn_pc) (subs : list SubEntry) : Prop := departed p \/ sid ∉ subs.*1.
Definition open_at (p : conn_pc) (subs : list SubEntry) (key : KindKey) : Prop :=
  ~ departed p /\ (sid, fs) ∈ subs /\ covers key.

(** The task is not about to write this name. *)
Definition no_rewrite (p : conn_pc) : Prop := forall gs, p <> SetWrite sid gs.

Record at_place w (P : conn_pc -> list SubEntry -> KindKey -> Prop) : Prop := {
  ap_holds : exists p subs key, rt_threads w !! i = Some (Conn id p)
    /\ view_of (rt_fanout w) id = Some (subs, key) /\ no_rewrite p /\ P p subs key;
}.

Definition closed w : Prop := at_place w (fun p subs _ => closed_at p subs).
Definition opened w : Prop := at_place w open_at.

Lemma closed_not_opened w : closed w -> opened w -> False.
Proof.
  intros [(p & subs & key & Hp & Hv & _ & Hc)] [(p' & subs' & key' & Hp' & Hv' & _ & Hd & Hin & _)].
  rewrite Hp in Hp'. injection Hp' as <-. rewrite Hv in Hv'. injection Hv' as <- <-.
  destruct Hc as [?|Hn]; [done|]. apply Hn. exact (list_elem_of_fmap_2 fst _ _ Hin).
Qed.

(** ** The task's own steps *)

Lemma resume_no_rewrite k : no_rewrite (resume k).
Proof. by destruct k as [[|? ?]|]; intros gs. Qed.

Lemma put_sub_other s gs subs : s <> sid -> (sid, fs) ∈ subs -> (sid, fs) ∈ put_sub s gs subs.
Proof.
  intros Hne. induction subs as [|[x fx] subs IH]; intros Hin; [by apply elem_of_nil in Hin|].
  cbn [put_sub]. apply elem_of_cons in Hin as [[= <- <-]|Hin].
  - rewrite bool_decide_false by done. left.
  - case_bool_decide; [by right|]. right. by apply IH.
Qed.

Lemma dropped_names s subs :
  sid ∉ subs.*1 -> sid ∉ (List.filter (fun x : SubEntry => bool_decide (x.1 <> s)) subs).*1.
Proof.
  intros Hn (y & Hy & [Hin _]%elem_of_List_filter)%list_elem_of_fmap. apply Hn. rewrite Hy.
  by apply list_elem_of_fmap_2.
Qed.

Lemma conn_step_follows fo c p fo' p' :
  thread_ok fo (Conn id p) -> fo_states fo !! id = Some c -> no_rewrite p ->
  conn_step fo id c p = Some (fo', p') ->
  exists c', fo_states fo' !! id = Some c' /\ no_rewrite p'
  /\ (closed_at p (c_subs c) -> closed_at p' (c_subs c'))
  /\ (open_at p (c_subs c) (c_kind_key c) ->
      closed_at p' (c_subs c') \/ open_at p' (c_subs c') (c_kind_key c')).
Proof.
  intros [(c0 & Hc0 & Hf) _] Hc Hp Hs. assert (c0 = c) as -> by congruence. clear Hc0.
  assert (forall p', ~ departed p' -> no_rewrite p' -> forall c',
    (sid ∉ (c_subs c).*1 -> sid ∉ (c_subs c').*1) -> ~ departed p ->
    ((sid, fs) ∈ c_subs c -> covers (c_kind_key c) ->
      sid ∉ (c_subs c').*1 \/ (sid, fs) ∈ c_subs c' /\ covers (c_kind_key c')) ->
    no_rewrite p' /\ (closed_at p (c_subs c) -> closed_at p' (c_subs c'))
    /\ (open_at p (c_subs c) (c_kind_key c) ->
        closed_at p' (c_subs c') \/ open_at p' (c_subs c') (c_kind_key c'))) as Hstay.
  { intros p1 Hd1 Hn1 c1 H1 Hd H2. split; [done|]. unfold closed_at, open_at. split.
    - intros [?|?]; [done|right; auto].
    - intros (_ & Hin & Hcov). destruct (H2 Hin Hcov) as [?|[? ?]]; [left; by right|by right]. }
  assert (forall q, q <> LeaveKey -> q <> Gone -> ~ departed q) as Hnd by by intros q ? ? [?|?].
  pose proof (fun k => resume_here k) as Hrh. pose proof resume_no_rewrite as Hrn.
  destruct p as [|s gs|s k|k|key k|key k| | | | |]; cbn [conn_step] in Hs; try done;
    injection Hs as <- <-.
  - assert (s <> sid) as Hne by (intros ->; by apply (Hp gs)).
    eexists. split; [apply state_here|]. apply Hstay; [by apply Hnd|by intros ?| |by apply Hnd|].
    + cbn. intros Hn [->|?]%put_sub_in; done.
    + cbn. intros Hin Hcov. right. split; [by apply put_sub_other|done].
  - eexists. split; [apply state_here|]. apply Hstay; [..|by apply Hnd|].
    + destruct (negb _); [by apply Hnd|apply Hrh].
    + destruct (negb _); [by intros ?|apply Hrn].
    + cbn. apply dropped_names.
    + cbn. intros Hin Hcov. destruct (decide (s = sid)) as [->|Hne]; [left|right].
      * intros (y & Hy & [_ Hb]%elem_of_List_filter)%list_elem_of_fmap.
        apply bool_decide_eq_true in Hb. by apply Hb.
      * split; [|done]. apply elem_of_List_filter. split; [done|]. by apply bool_decide_eq_true.
  - exists c. split; [done|]. apply Hstay; [by apply Hnd|by intros ?|done|by apply Hnd|auto].
  - exists c. split; [done|]. case_bool_decide.
    + apply Hstay; [apply Hrh|apply Hrn|done|by apply Hnd|auto].
    + apply Hstay; [by apply Hnd|by intros ?|done|by apply Hnd|auto].
  - eexists. split; [apply state_here|]. apply Hstay; [apply Hrh|apply Hrn|done|by apply Hnd|].
    cbn in Hf |- *. intros Hin _. right. split; [done|]. subst key. by apply subs_key_covers.
  - eexists. split; [apply state_here|]. change (match c_overflow c with [] => _ | _ => _ end)
      with (resume (Some (c_overflow c))).
    apply Hstay; [apply Hrh|apply Hrn|done|by apply Hnd|auto].
  - exists c. split; [done|].
    destruct (c_kill c); (apply Hstay; [by apply Hnd|by intros ?|done|by apply Hnd|auto]).
  - exists c. split; [done|]. split; [by intros ?|]. split; [intros _|intros _; left]; left; by left.
  - eexists. split; [apply state_here|]. split; [by intros ?|].
    split; [intros _|intros _; left]; left; by right.
Qed.

(** ** Every move *)

Definition not_reopened (m : move) : Prop := forall gs, m <> MRequest i (Subscribe sid gs).

(** A move of others leaves both as they are. *)
Lemma place_elsewhere w m w' P :
  router_ok w -> at_place w P -> router_step w m = Some w' -> m <> MRun i ->
  (forall r, m <> MRequest i r) -> at_place w' P.
Proof.
  intros Hw [(p & subs & key & Hp & Hv & Hn & HP)] Hs Hm Hr.
  destruct (router_step_conn _ _ _ _ _ _ Hw Hs Hp Hm Hr) as [Hp' Hv'].
  split. exists p, subs, key. split_and!; [done|congruence|done|done].
Qed.

Lemma place_request w r w' P :
  router_ok w -> at_place w P -> router_step w (MRequest i r) = Some w' ->
  not_reopened (MRequest i r) ->
  (forall p subs key, ~ departed p -> P Idle subs key -> P p subs key) -> at_place w' P.
Proof.
  intros Hw [(p & subs & key & Hp & Hv & Hn & HP)] Hs Hm Hidle. cbn [router_step] in Hs.
  rewrite Hp in Hs. destruct p; try done. apply bind_Some in Hs as ([fo q] & Hb & [= <-]).
  pose proof (ro_threads w Hw i _ Hp) as Ht. pose proof Ht as [(c & Hc & _) _].
  destruct (begin_ok _ _ c _ _ _ Hc Ht Hb) as (c' & -> & E1 & E2 & _).
  split. exists q, subs, key. cbn [rt_threads rt_fanout].
  rewrite list_lookup_insert_eq by by eapply lookup_lt_Some.
  rewrite (view_of_same _ _ _ c c') by done.
  assert (no_rewrite q /\ ~ departed q) as [Hnq Hdq].
  { destruct r as [s gs|s| |]; cbn [begin] in Hb.
    - injection Hb as _ <-. split; [|by intros [?|?]]. intros gs' [= -> _]. by apply (Hm gs).
    - injection Hb as _ <-. split; [by intros ?|by intros [?|?]].
    - apply bind_Some in Hb as (c1 & _ & Hb). destruct (c_notified c1); [|done].
      injection Hb as _ <-. split; [by intros ?|by intros [?|?]].
    - injection Hb as _ <-. split; [by intros ?|by intros [?|?]]. }
  split_and!; [done|done|done|by apply Hidle].
Qed.

Lemma place_run w w' :
  router_ok w -> router_step w (MRun i) = Some w' ->
  (closed w -> closed w') /\ (opened w -> closed w' \/ opened w').
Proof.
  intros Hw Hs. cbn [router_step] in Hs. unfold run_thread in Hs.
  apply bind_Some in Hs as (t & Ht & Hs). destruct (may_take w (needs t)); [|done].
  apply bind_Some in Hs as ([[fo' t'] os] & Ha & [= <-]).
  assert (forall P, at_place w P -> exists p c, t = Conn id p /\ no_rewrite p
    /\ fo_states (rt_fanout w) !! id = Some c /\ P p (c_subs c) (c_kind_key c)) as Hget.
  { intros P [(p & subs & key & Hp & Hv & Hn & HP)]. rewrite Ht in Hp. injection Hp as ->.
    unfold view_of in Hv. destruct (fo_states (rt_fanout w) !! id) as [c|] eqn:Hc; [|done].
    injection Hv as <- <-. by exists p, c. }
  assert (forall p c, t = Conn id p -> no_rewrite p -> fo_states (rt_fanout w) !! id = Some c ->
    let w' := mkRouter fo' (<[i := t']> (rt_threads w)) (rt_log w ++ (pair i <$> os)) in
    (closed_at p (c_subs c) -> closed w')
    /\ (open_at p (c_subs c) (c_kind_key c) -> closed w' \/ opened w')) as Hgo.
  { intros p c -> Hn Hc. cbn [take_step] in Ha. rewrite Hc in Ha. cbn [mbind option_bind] in Ha.
    apply bind_Some in Ha as ([fo1 p1] & Hst & [= <- <- <-]).
    destruct (conn_step_follows _ _ _ _ _ (ro_threads w Hw i _ Ht) Hc Hn Hst)
      as (c' & Hc' & Hn' & H1 & H2).
    assert (forall (P : conn_pc -> list SubEntry -> KindKey -> Prop), P p1 (c_subs c') (c_kind_key c') ->
      at_place (mkRouter fo1 (<[i := Conn id p1]> (rt_threads w)) (rt_log w ++ (pair i <$> []))) P) as Hput.
    { intros P HP. split. exists p1, (c_subs c'), (c_kind_key c'). cbn [rt_threads rt_fanout].
      rewrite list_lookup_insert_eq by by eapply lookup_lt_Some. unfold view_of. by rewrite Hc'. }
    split; [intros Hcl; by apply Hput, H1|].
    intros [?|?]%H2; [left|right]; by apply Hput. }
  split.
  - intros (p & c & E & Hn & Hc & HP)%Hget. by apply (Hgo p c).
  - intros (p & c & E & Hn & Hc & HP)%Hget. by apply (Hgo p c).
Qed.

Lemma place_move w m w' :
  router_ok w -> router_step w m = Some w' -> not_reopened m ->
  (closed w -> closed w') /\ (opened w -> closed w' \/ opened w').
Proof.
  intros Hw Hs Hm.
  assert (m = MRun i \/ (exists r, m = MRequest i r) \/ (m <> MRun i /\ forall r, m <> MRequest i r))
    as [->|[[r ->]|[H1 H2]]].
  { destruct m as [k| |k r| |].
    - destruct (decide (k = i)) as [->|]; [by left|right; right; split; congruence].
    - by right; right.
    - destruct (decide (k = i)) as [->|]; [right; left; by exists r|right; right; split; congruence].
    - by right; right.
    - by right; right. }
  - by apply place_run.
  - split.
    + intros Hc. eapply place_request; [done|exact Hc|done|done|].
      intros p subs _ Hd [[?|?]|?]; [done|done|by right].
    + intros Ho. right. eapply place_request; [done|exact Ho|done|done|].
      intros p subs key Hd (_ & ? & ?). by split_and!.
  - split; [intros Hc|intros Ho; right]; by eapply place_elsewhere.
Qed.

(** * The publication *)

Section Reached.
Context (j : nat) (clock : Clock) (ev : BroadcastEvent).

Definition wanted : Prop := wants (be_event ev) (sid, fs) = true.

(** Whether the subscription has been offered the event, by where the publication
    is. *)
Definition reached_at (p : publish_pc) (l : list str) : Prop :=
  match p with
  | Route => sid ∉ l
  | Visit todo => (id ∈ todo -> sid ∉ l) /\ (id ∉ todo -> sid ∈ l <-> wanted)
  | At cid later rest _ =>
      if bool_decide (cid = id) then sid ∈ l <-> wanted /\ sid ∉ later.*1
      else (id ∈ rest -> sid ∉ l) /\ (id ∉ rest -> sid ∈ l <-> wanted)
  | Published => sid ∈ l <-> wanted
  end.

Definition reached w : Prop :=
  exists p, rt_threads w !! j = Some (Publisher clock ev p)
    /\ reached_at p (offered j id (rt_log w)).

Lemma open_routed w :
  router_ok w -> opened w -> wanted -> id ∈ targets (ev_kind (be_event ev)) (rt_fanout w).
Proof.
  intros Hw [(p & subs & key & Hp & Hv & _ & Hd & _ & Hcov)] Hwant.
  destruct (ro_threads w Hw i _ Hp) as [(c & Hc & _) Hm].
  unfold view_of in Hv. rewrite Hc in Hv. injection Hv as _ Hk.
  rewrite elem_of_targets, (ik_any_key _ _ _ (ro_index w Hw) Hc),
    (ik_kind_key _ _ _ _ (ro_index w Hw) Hc), Hk. split; [by apply Hm|].
  exact (Hcov (be_event ev) Hwant).
Qed.

Lemma named_once {A} (l : list (str * A)) x y : NoDup l.*1 -> (sid, x) ∈ l -> (sid, y) ∈ l -> x = y.
Proof.
  induction l as [|[s z] l IH]; intros Hn Hx Hy; [by apply elem_of_nil in Hx|].
  apply NoDup_cons in Hn as [Hno Hn].
  assert (forall a, (sid, a) ∈ l -> sid <> s) as Hne.
  { intros a Ha ->. apply Hno. exact (list_elem_of_fmap_2 fst _ _ Ha). }
  apply elem_of_cons in Hx as [Hx|Hx], Hy as [Hy|Hy]; [congruence|..|by apply IH].
  - injection Hx as -> ->. by destruct (Hne y Hy).
  - injection Hy as -> ->. by destruct (Hne x Hx).
Qed.

(** What [deliver] passes over includes the subscription, or does not. *)
Lemma wanting_here pre mid later :
  NoDup (pre ++ mid ++ later).*1 -> (sid, fs) ∈ pre ++ mid ++ later ->
  sid ∈ wanting ev mid <-> wanted /\ sid ∈ mid.*1.
Proof.
  intros Hn Hin. unfold wanting. rewrite list_elem_of_fmap. split.
  - intros ([s gs] & E & [Hy Hw]%elem_of_List_filter). cbn in E. subst s.
    assert (gs = fs) as -> by (eapply named_once; [exact Hn| |exact Hin]; rewrite !elem_of_app; auto).
    split; [done|]. exact (list_elem_of_fmap_2 fst _ _ Hy).
  - intros [Hw ([s gs] & E & Hy)%list_elem_of_fmap]. cbn in E. subst s.
    assert (gs = fs) as -> by (eapply named_once; [exact Hn| |exact Hin]; rewrite !elem_of_app; auto).
    exists (sid, fs). split; [done|]. by apply elem_of_List_filter.
Qed.

Lemma reached_step w fo' p p' os :
  once w -> opened w -> reached_at p (offered j id (rt_log w)) ->
  rt_threads w !! j = Some (Publisher clock ev p) ->
  publish_step clock ev (rt_fanout w) p = Some (fo', p', os) ->
  reached_at p' (offered j id (rt_log w ++ (pair j <$> os))).
Proof.
  intros Ho Hop Hp Hj Hs. pose proof (on_ok w Ho) as Hw. pose proof (ro_threads w Hw j _ Hj) as Ht.
  pose proof (open_routed w Hw Hop) as Hroute.
  destruct Hop as [(q & subs & key & _ & Hv & _ & _ & Hin & _)].
  assert (forall c, fo_states (rt_fanout w) !! id = Some c ->
    (sid, fs) ∈ c_subs c /\ NoDup (c_subs c).*1) as Hsub.
  { intros c Hc. unfold view_of in Hv. rewrite Hc in Hv. injection Hv as Hv _.
    split; [by rewrite Hv|]. by apply (on_names w Ho id). }
  set (l := offered j id (rt_log w)) in *. rewrite offered_app. fold l.
  apply publish_step_cases in Hs as [(-> & -> & _ & ->)|[(-> & -> & _ & ->)|[(cid & rest & c & -> & Hc & -> & _ & ->)
    |[(cid & rest & -> & -> & _ & ->)|(cid & later & rest & s & c & c' & later' & s' & o & -> & _ & Hc & Hd & -> & _ & ->)]]]].
  1-4: change (offered j id (pair j <$> [])) with (@nil str); rewrite app_nil_r.
  - split; [done|]. intros Hn. cbn in Hp. split; [done|]. by intros ?%Hroute.
  - apply Hp, not_elem_of_nil.
  - destruct Hp as [H1 H2]. cbn. case_bool_decide as Hcid.
    + subst cid. destruct (Hsub c Hc) as [Hin' _]. specialize (H1 ltac:(left)). split; [done|].
      intros [_ Hno]. destruct Hno. exact (list_elem_of_fmap_2 fst _ _ Hin').
    + split; intros Hr; [apply H1; by right|apply H2]. by intros [->|?]%elem_of_cons.
  - destruct Ht as ([Hnd _]%NoDup_cons & _). cbn in Hp. case_bool_decide as Hcid; [|done].
    subst cid. split; [done|]. intros _. rewrite Hp. cbn. split; [by intros [? _]|].
    intros ?. split; [done|apply not_elem_of_nil].
  - destruct (deliver_step_offers _ _ _ _ _ _ _ _ _ Hd) as (mid & -> & Hoff). cbn [reached_at] in *.
    case_bool_decide as Hcid; [|by rewrite offered_elsewhere, app_nil_r].
    subst cid. destruct Ht as (_ & _ & c1 & pre & Hc1 & Hpre).
    assert (c1 = c) as -> by congruence. destruct (Hsub c Hc) as [Hin' Hn'].
    rewrite Hpre in Hin', Hn'. pose proof (wanting_here pre mid later' Hn' Hin') as Hmid.
    rewrite offered_here, Hoff, elem_of_app, Hp, Hmid, fmap_app, elem_of_app.
    rewrite !fmap_app, !NoDup_app in Hn'. destruct Hn' as (_ & _ & _ & Hdis & _).
    destruct (decide (sid ∈ mid.*1)) as [Hm|Hm]; [|tauto]. pose proof (Hdis sid Hm). tauto.
Qed.

(** Either the subscription has been closed, or the publication is on its way to
    it. *)
Definition followed w : Prop := once w /\ (closed w \/ opened w /\ reached w).

Lemma followed_move w m w' :
  followed w -> not_reopened m -> router_step w m = Some w' -> followed w'.
Proof.
  intros [Ho Hf] Hm Hs. pose proof (on_ok w Ho) as Hw. split; [by eapply once_step|].
  destruct (place_move w m w' Hw Hs Hm) as [Hcl Hop]. destruct Hf as [Hc|[Hopen (p & Hj & Hp)]]; [by left; auto|].
  destruct (Hop Hopen) as [?|Hopen']; [by left|right]. split; [done|].
  assert (m = MRun j \/ m <> MRun j) as [->|Hne].
  { destruct m as [k| | | |]; try (by right). destruct (decide (k = j)) as [->|]; [by left|right; congruence]. }
  - cbn [router_step] in Hs. destruct (run_pub _ _ _ _ _ _ Hj Hs) as (fo & p' & os & Hstep & ->).
    exists p'. cbn [rt_threads rt_log]. rewrite list_lookup_insert_eq by by eapply lookup_lt_Some.
    split; [done|]. by eapply reached_step.
  - destruct (router_step_pub _ _ _ _ _ _ _ Hs Hj Hne) as [Hj' Hoff].
    exists p. by rewrite Hoff.
Qed.
End Reached.

(** The subscription is there once its task is between two requests. *)
Lemma opened_idle w c :
  router_ok w -> rt_threads w !! i = Some (Conn id Idle) -> fo_states (rt_fanout w) !! id = Some c ->
  (sid, fs) ∈ c_subs c -> opened w.
Proof.
  intros Hw Hi Hc Hin. destruct (ro_threads w Hw i _ Hi) as [(c0 & Hc0 & Hf) _].
  assert (c0 = c) as -> by congruence. cbn in Hf.
  split. exists Idle, (c_subs c), (c_kind_key c). unfold view_of. rewrite Hc.
  split_and!; [done|done|by intros ?|]. split_and!; [by intros [?|?]|done|].
  rewrite Hf. by apply subs_key_covers.
Qed.

(** The subscription is there. *)
Lemma not_closed w p c :
  rt_threads w !! i = Some (Conn id p) -> ~ departed p -> fo_states (rt_fanout w) !! id = Some c ->
  sid ∈ (c_subs c).*1 -> ~ closed w.
Proof.
  intros Hi Hd Hc Hin [(q & subs & key & Hq & Hv & _ & Hcl)]. destruct Hcl as [?|Hn].
  - rewrite Hi in Hq. injection Hq as <-. done.
  - unfold view_of in Hv. rewrite Hc in Hv. by injection Hv as <- _.
Qed.

(** A publication that begins while the subscription is there. *)
Lemma followed_start w clock ev :
  once w -> opened w ->
  followed (length (rt_threads w)) clock ev
    (mkRouter (rt_fanout w) (rt_threads w ++ [Publisher clock ev Route]) (rt_log w)).
Proof.
  intros Ho Hop. split; [by apply (once_step w (MPublish clock ev))|]. right. split.
  - destruct (place_move w (MPublish clock ev) _ (on_ok w Ho) eq_refl ltac:(by intros ?)) as [_ H2].
    destruct (H2 Hop) as [Hc|?]; [|done]. exfalso.
    destruct Hc as [(p & subs & key & Hp & Hv & _ & Hcl)], Hop as [(p' & subs' & key' & Hp' & Hv' & _ & Hd & Hin & _)].
    apply (lookup_app_l_Some _ [Publisher clock ev Route]) in Hp'. cbn [rt_threads rt_fanout] in *.
    rewrite Hp in Hp'. injection Hp' as <-. rewrite Hv in Hv'. injection Hv' as <- <-.
    destruct Hcl as [?|Hn]; [done|]. apply Hn. exact (list_elem_of_fmap_2 fst _ _ Hin).
  - exists Route. cbn [rt_threads rt_log]. rewrite lookup_app_r, Nat.sub_diag by lia.
    split; [done|]. cbn. rewrite (offered_future w id (on_past w Ho)). apply not_elem_of_nil.
Qed.

Lemma followed_done j clock ev w :
  followed j clock ev w -> ~ closed w ->
  rt_threads w !! j = Some (Publisher clock ev Published) ->
  NoDup (offered j id (rt_log w))
  /\ (sid ∈ offered j id (rt_log w) <-> wants (be_event ev) (sid, fs) = true).
Proof.
  intros [Ho [?|[_ (p & Hj & Hp)]]] Hn Hd; [done|]. rewrite Hj in Hd. injection Hd as ->.
  split; [|exact Hp]. exact (on_pub w Ho j clock ev Published Hj id).
Qed.
End Open.

(** C7: live delivery to a subscription that stays open: let an event be published
    when the task of a connection is between two requests and has a subscription
    [sid], and let anything happen until that publication has returned: the
    connection itself opens and closes other subscriptions, handles its
    notifications and recomputes its key in the index, other connections come and
    go, other events are published, in any interleaving of the critical sections.
    If the subscription was not opened anew meanwhile and is still there in the end,
    then the publication has offered it the event exactly once if one of its filters
    matches, and not at all if none does. *)
Theorem publication_reaches_open_subscription `{Channel} ms w i id c sid fs clock ev ms' w' p' c' :
  run_moves router_new ms = Some w -> rt_threads w !! i = Some (Conn id Idle) ->
  fo_states (rt_fanout w) !! id = Some c -> (sid, fs) ∈ c_subs c ->
  (forall gs, MRequest i (Subscribe sid gs) ∉ ms') ->
  run_moves w (MPublish clock ev :: ms') = Some w' ->
  rt_threads w' !! i = Some (Conn id p') -> ~ departed p' ->
  fo_states (rt_fanout w') !! id = Some c' -> sid ∈ (c_subs c').*1 ->
  let j := length (rt_threads w) in
  rt_threads w' !! j = Some (Publisher clock ev Published) ->
  NoDup (offered j id (rt_log w'))
  /\ (sid ∈ offered j id (rt_log w') <-> wants (be_event ev) (sid, fs) = true).
Proof.
  intros Hr Hi Hc Hin Hms Hr' Hi' Hd' Hc' Hin' j Hj. pose proof (once_run ms w Hr) as Ho.
  pose proof (opened_idle i id sid fs w c (on_ok w Ho) Hi Hc Hin) as Hop.
  apply (followed_done i id sid fs j clock ev w'); [|by eapply not_closed|done].
  revert Hr'. change (run_moves w (MPublish clock ev :: ms')) with
    (run_moves (mkRouter (rt_fanout w) (rt_threads w ++ [Publisher clock ev Route]) (rt_log w)) ms').
  apply run_moves_ind; [by apply followed_start|].
  intros w1 m w2 Hm H1. apply followed_move; [done|]. intros gs ->. by apply (Hms gs).
Qed.

(** * Closed runs *)

(** While its event is on the way the reader closes its second subscription and
    opens a third. *)
Definition busy_reader : list move :=
  [MRequest 0 (Unsubscribe (lit "b")); MRun 0; MRun 1; MRun 0; MRun 0; MRun 0;
   MRequest 0 (Subscribe (lit "c") [kind_filter [3%Z]]); MRun 0; MRun 1; MRun 0; MRun 1; MRun 1;
   MRun 0; MRun 1; MRun 1; MRun 1].

Definition busy_end : option Router :=
  w ← run_moves router_new two_readers; run_moves w (publication :: busy_reader).

Example busy_reader_end :
  (fun w => (rt_threads w, (map fst) <$> subs_of (rt_fanout w) 1)) <$> busy_end
  = Some ([Conn 1 (KeySwap (KKSome {[1%Z; 3%Z]}) None);
           Publisher five (broadcast_new sample_event) Published], Some [lit "a"; lit "c"]).
Proof. vm_compute. reflexivity. Qed.

Lemma publication_reaches_open_subscription_witness :
  exists w w', run_moves router_new two_readers = Some w
    /\ run_moves w (publication :: busy_reader) = Some w'
    /\ NoDup (offered 1 1 (rt_log w')) /\ lit "a" ∈ offered 1 1 (rt_log w').
Proof.
  pose proof two_readers_run as H1. pose proof busy_reader_end as H2. unfold busy_end in H2.
  destruct (run_moves router_new two_readers) as [w|] eqn:E1; [|discriminate].
  cbn [fmap option_fmap option_map mbind option_bind] in H1, H2.
  destruct (run_moves w (publication :: busy_reader)) as [w'|] eqn:E2; [|discriminate].
  injection H1 as Ht Hs. injection H2 as Ht' Hs'. unfold subs_of in Hs, Hs'.
  destruct (fo_states (rt_fanout w) !! 1%Z) as [c|] eqn:Ec; [|discriminate].
  destruct (fo_states (rt_fanout w') !! 1%Z) as [c'|] eqn:Ec'; [|discriminate].
  injection Hs as Hs. injection Hs' as Hs'. exists w, w'. split; [done|]. split; [done|].
  replace 1 with (length (rt_threads w)) by by rewrite Ht.
  destruct (publication_reaches_open_subscription two_readers w 0 1 c (lit "a") [kind_filter [1%Z]]
    five (broadcast_new sample_event) busy_reader w' (KeySwap (KKSome {[1%Z; 3%Z]}) None) c') as [Hn Ho].
  - exact E1.
  - by rewrite Ht.
  - exact Ec.
  - rewrite Hs. left.
  - intros gs Hin. unfold busy_reader in Hin.
    repeat (apply elem_of_cons in Hin as [Hin|Hin]; [discriminate|]). by apply elem_of_nil in Hin.
  - exact E2.
  - by rewrite Ht'.
  - by intros [?|?].
  - exact Ec'.
  - change ((c_subs c').*1) with (map fst (c_subs c')). rewrite Hs'. left.
  - rewrite Ht, Ht'. reflexivity.
  - split; [exact Hn|]. apply Ho. vm_compute. reflexivity.
Defined.
