(* ===== verification/RouterSignals.v ===== *)
(** What the connections and the router count and signal while publishing threads run
    beside each other ([Router.v]): the counters of a connection agree with the frames
    offered to it, up to the deliveries under way; a connection with an overflowed
    subscription, or one that is to be disconnected, has a notification to wake it. *)
From S2P Require Import Prelude Text Collections Event Reference Index IndexSpec IndexQuery Subscription Fanout Router RouterProps RouterDelivery.
Open Scope memlay_scope.

Section Signals.
Context `{Channel}.
Implicit Types (fo : Fanout) (c : ConnState) (t : thread) (w : Router).

(** * Counting threads and offers *)

(** Is the thread delivering to [id], at a stage of this kind? *)
Definition delivering (X : stage -> bool) (id : Z) t : nat :=
  match t with
  | Publisher _ _ (At cid _ _ s) => Nat.b2n (bool_decide (cid = id) && X s)
  | _ => 0
  end.

Definition deliveries (X : stage -> bool) (id : Z) (ts : list thread) : nat :=
  sum_list_with (delivering X id) ts.

Definition after_send (s : stage) : bool := match s with DSent => true | _ => false end.
Definition before_count (s : stage) : bool := match s with DDropped _ => true | _ => false end.
Definition before_notify (s : stage) : bool :=
  match s with DWindow _ | DKill | DNotify => true | _ => false end.
Definition after_kill (s : stage) : bool := match s with DNotify => true | _ => false end.

(** The frames offered to [id] that its channel took, or refused. *)
Definition outcomes (id : Z) (taken : bool) (log : list (nat * offer)) : nat :=
  length (List.filter (fun p => bool_decide (of_conn p.2 = id) && Bool.eqb (of_taken p.2) taken) log).

Lemma outcomes_app id b l1 l2 : outcomes id b (l1 ++ l2) = outcomes id b l1 + outcomes id b l2.
Proof. unfold outcomes. by rewrite List.filter_app, length_app. Qed.

Lemma deliveries_insert X id ts i t t' :
  ts !! i = Some t ->
  deliveries X id (<[i := t']> ts) + delivering X id t = deliveries X id ts + delivering X id t'.
Proof.
  unfold deliveries. generalize (delivering X id) as f. intros f. revert i.
  induction ts as [|u ts IH]; intros [|i] Hi; [done|done| |].
  - injection Hi as ->. cbn. lia.
  - change (<[S i := t']> (u :: ts)) with (u :: <[i := t']> ts). cbn [sum_list_with].
    specialize (IH i Hi). lia.
Qed.

Lemma deliveries_snoc X id ts t : deliveries X id (ts ++ [t]) = deliveries X id ts + delivering X id t.
Proof. unfold deliveries. rewrite sum_list_with_app. cbn. lia. Qed.

Lemma deliveries_pos X id ts i t :
  ts !! i = Some t -> delivering X id t <= deliveries X id ts.
Proof.
  unfold deliveries. generalize (delivering X id) as f. intros f. revert i.
  induction ts as [|u ts IH]; intros [|i] Hi; cbn in *; try done.
  - injection Hi as ->. lia.
  - specialize (IH i Hi). lia.
Qed.

(** * The invariant *)

(** The task is on its way to look at the kill flag, or to leave. *)
Definition heeds (p : conn_pc) : bool :=
  match p with
  | RemoveWrite _ (Some _) | KeyRead (Some _) | KeyLock _ (Some _) | KeySwap _ (Some _)
  | TakeOverflow | CheckKill | Leave | LeaveKey | Gone => true
  | _ => false
  end.

(** The accounts of a connection at state [c] whose task is at [p]. *)
Record accounted (id : Z) c (p : conn_pc) (ts : list thread) (log : list (nat * offer)) : Prop := {
  ac_sent : c_sent c = wrap64 (Z.of_nat (outcomes id true log) - Z.of_nat (deliveries after_send id ts));
  ac_dropped :
    c_dropped c = wrap64 (Z.of_nat (outcomes id false log) - Z.of_nat (deliveries before_count id ts));
  ac_overflow : c_overflow c <> [] ->
    c_notified c = true \/ 0 < deliveries before_notify id ts \/ p = TakeOverflow;
  ac_kill : c_kill c = true ->
    c_notified c = true \/ 0 < deliveries after_kill id ts \/ heeds p = true;
}.

Record signals_ok w : Prop := {
  sg_ok : router_ok w;
  sg_log : Forall (fun p => has_state (rt_fanout w) (of_conn p.2)) (rt_log w);
  sg_accounts : forall id c i p, fo_states (rt_fanout w) !! id = Some c ->
    rt_threads w !! i = Some (Conn id p) -> accounted id c p (rt_threads w) (rt_log w);
}.

(** Nothing that is counted has changed. *)
Definition same_counts c c' : Prop :=
  c_sent c' = c_sent c /\ c_dropped c' = c_dropped c /\ c_overflow c' = c_overflow c
  /\ c_notified c' = c_notified c /\ c_kill c' = c_kill c.

Lemma accounted_ext id c c' p ts ts' log log' :
  same_counts c c' -> (forall X, X DNext = false -> deliveries X id ts' = deliveries X id ts) ->
  (forall b, outcomes id b log' = outcomes id b log) ->
  accounted id c p ts log -> accounted id c' p ts' log'.
Proof.
  intros (E1 & E2 & E3 & E4 & E5) Hd Ho [A1 A2 A3 A4].
  split; rewrite ?E1, ?E2, ?E3, ?E4, ?E5, ?Hd, ?Ho by done; done.
Qed.

(** ** A connection's task *)

Lemma resume_heeds k : k <> None -> heeds (resume k) = true.
Proof. by destruct k as [[|? ?]|]. Qed.

Lemma conn_step_counts fo id c p fo' p' :
  conn_step fo id c p = Some (fo', p') -> fo_states fo !! id = Some c ->
  exists c', fo_states fo' !! id = Some c'
  /\ c_sent c' = c_sent c /\ c_dropped c' = c_dropped c
  /\ c_notified c' = c_notified c /\ c_kill c' = c_kill c
  /\ c_overflow c' = (match p with TakeOverflow => [] | _ => c_overflow c end)
  /\ (c_kill c = true -> heeds p = true -> heeds p' = true).
Proof.
  intros Hs Hc.
  destruct p as [|sid fs|sid k|k|key k|key k| | | | |]; cbn [conn_step] in Hs; try done;
    injection Hs as <- <-; eexists; (split; [by apply state_here || exact Hc|]);
    (split_and!; try done); intros Hk Hh.
  - destruct (negb _); destruct k; done || by apply resume_heeds.
  - case_bool_decide; destruct k; done || by apply resume_heeds.
  - destruct k; done || by apply resume_heeds.
  - by destruct (c_overflow c).
  - by rewrite Hk.
Qed.

Lemma deliveries_conn X id ts i cid p p' :
  ts !! i = Some (Conn cid p) -> deliveries X id (<[i := Conn cid p']> ts) = deliveries X id ts.
Proof. intros Hi. pose proof (deliveries_insert X id ts i _ (Conn cid p') Hi). cbn in *. lia. Qed.

Lemma accounted_conn id c p fo p' fo' ts i log :
  conn_step fo id c p = Some (fo', p') -> fo_states fo !! id = Some c ->
  ts !! i = Some (Conn id p) -> accounted id c p ts log ->
  exists c', fo_states fo' !! id = Some c' /\ accounted id c' p' (<[i := Conn id p']> ts) log.
Proof.
  intros Hs Hc Hi [A1 A2 A3 A4].
  destruct (conn_step_counts _ _ _ _ _ _ Hs Hc) as (c' & Hc' & E1 & E2 & E3 & E4 & E5 & Hh).
  exists c'. split; [done|]. split; rewrite ?E1, ?E2, ?E3, ?E4, ?E5, ?(deliveries_conn _ _ _ _ _ _ _ Hi); try done.
  - intros Ho. destruct p; try done; destruct (A3 Ho) as [?|[?|?]]; auto; done.
  - intros Hk. destruct (A4 Hk) as [?|[?|?]]; auto.
Qed.

(** ** A delivery *)

(** One step of the accounts: what the log gains and where the delivery was and is. *)
Record counted c c' (s s' : stage) (o : option (str * bool)) : Prop := {
  ct_sent : forall x, c_sent c = wrap64 x -> c_sent c' = wrap64 (x
    + (match o with Some (_, true) => 1 | _ => 0 end)
    + Z.of_nat (Nat.b2n (after_send s)) - Z.of_nat (Nat.b2n (after_send s')));
  ct_dropped : forall x, c_dropped c = wrap64 x -> c_dropped c' = wrap64 (x
    + (match o with Some (_, false) => 1 | _ => 0 end)
    + Z.of_nat (Nat.b2n (before_count s)) - Z.of_nat (Nat.b2n (before_count s')));
  ct_overflow : c_overflow c' = c_overflow c \/ before_notify s' = true;
  ct_kill : c_kill c' = c_kill c \/ after_kill s' = true;
  ct_notified : c_notified c' = true \/ (c_notified c' = c_notified c
    /\ (before_notify s = true -> before_notify s' = true)
    /\ (after_kill s = true -> after_kill s' = true));
}.

Ltac by_counting :=
  split;
  cbn [c_sent c_dropped c_overflow c_kill c_notified with_tx count_sent count_dropped push_overflow
    set_kill set_notified after_send before_count before_notify after_kill Nat.b2n Z.of_nat];
  first [ intros x Hx; rewrite Hx, ?fetch_add_wrap; apply (f_equal wrap64); lia | tauto ].

Lemma deliver_step_counted clock ev c subs s c' subs' s' o :
  deliver_step clock ev c subs s = (c', subs', s', o) -> counted c c' s s' o.
Proof.
  intros Hd.
  destruct s; cbn [deliver_step] in Hd.
  - destruct subs as [|[sid fs] subs]; [|destruct (existsb _ fs); cbn [negb] in Hd; [destruct (try_send _ _)|]];
      injection Hd as <- <- <- <-; by_counting.
  - injection Hd as <- <- <- <-. by_counting.
  - injection Hd as <- <- <- <-. by_counting.
  - injection Hd as <- <- <- <-. by_counting.
  - unfold count_window in Hd. destruct (c_drop_window c) as [start drops].
    destruct (if (_ >? DROP_WINDOW)%Z then _ else _) as [win over].
    injection Hd as <- <- <- <-. destruct over; by_counting.
  - injection Hd as <- <- <- <-. by_counting.
  - injection Hd as <- <- <- <-. by_counting.
Qed.

(** A delivery goes from [b] to [b'], and there were [d] such deliveries. *)
Lemma still_there (d d' : nat) (b b' : bool) :
  d' + Nat.b2n b = d + Nat.b2n b' -> (b = true -> b' = true) -> 0 < d -> 0 < d'.
Proof. destruct b, b'; cbn; intros; lia. Qed.

Lemma there_now (d d' : nat) (b b' : bool) :
  d' + Nat.b2n b = d + Nat.b2n b' -> b' = true -> Nat.b2n b <= d -> 0 < d'.
Proof. intros Hd -> Hb. destruct b; cbn in Hd, Hb; lia. Qed.

Lemma delivering_here X id ts j clock ev subs rest s :
  ts !! j = Some (Publisher clock ev (At id subs rest s)) -> Nat.b2n (X s) <= deliveries X id ts.
Proof.
  intros Hj. etransitivity; [|exact (deliveries_pos X id _ j _ Hj)]. cbn [delivering].
  by rewrite bool_decide_true.
Qed.

Lemma accounted_deliver id c p clock ev subs subs' rest s s' c' o ts j log :
  ts !! j = Some (Publisher clock ev (At id subs rest s)) ->
  deliver_step clock ev c subs s = (c', subs', s', o) ->
  accounted id c p ts log ->
  accounted id c' p (<[j := Publisher clock ev (At id subs' rest s')]> ts)
    (log ++ (pair j <$> ((fun x => mkOffer id x.1 x.2) <$> option_list o))).
Proof.
  intros Hj Hd [A1 A2 A3 A4].
  assert (forall X, deliveries X id (<[j := Publisher clock ev (At id subs' rest s')]> ts) + Nat.b2n (X s)
    = deliveries X id ts + Nat.b2n (X s')) as Hn.
  { intros X. pose proof (deliveries_insert X id ts j _ (Publisher clock ev (At id subs' rest s')) Hj) as He.
    cbn [delivering] in He. by rewrite !bool_decide_true in He. }
  pose proof (Hn after_send) as N1. pose proof (Hn before_count) as N2.
  pose proof (Hn before_notify) as N3. pose proof (Hn after_kill) as N4. clear Hn.
  set (ts' := <[j := _]> ts) in *. clearbody ts'.
  assert (forall b, outcomes id b (log ++ (pair j <$> ((fun x => mkOffer id x.1 x.2) <$> option_list o)))
    = outcomes id b log + match o with Some x => Nat.b2n (Bool.eqb x.2 b) | None => 0 end) as Hout.
  { intros b. rewrite outcomes_app. f_equal. destruct o as [x|]; [|done]. unfold outcomes.
    cbn. rewrite bool_decide_true by done. by destruct (Bool.eqb x.2 b). }
  destruct (deliver_step_counted _ _ _ _ _ _ _ _ _ Hd) as [C1 C2 C3 C4 C5].
  split; rewrite ?Hout.
  - rewrite (C1 _ A1). apply (f_equal wrap64). clear -N1. destruct o as [[sid [|]]|]; cbn [snd Bool.eqb Nat.b2n]; lia.
  - rewrite (C2 _ A2). apply (f_equal wrap64). clear -N2. destruct o as [[sid [|]]|]; cbn [snd Bool.eqb Nat.b2n]; lia.
  - intros Ho. destruct C5 as [?|(-> & C5 & _)]; [by left|].
    destruct C3 as [C3|C3]; [rewrite C3 in Ho; destruct (A3 Ho) as [?|[?|?]]; [by left| |by right; right]|];
      right; left; [by eapply still_there; [exact N3|exact C5|]|].
    eapply there_now; [exact N3|exact C3|]. by eapply delivering_here.
  - intros Hk. destruct C5 as [?|(-> & _ & C5)]; [by left|].
    destruct C4 as [C4|C4]; [rewrite C4 in Hk; destruct (A4 Hk) as [?|[?|?]]; [by left| |by right; right]|];
      right; left; [by eapply still_there; [exact N4|exact C5|]|].
    eapply there_now; [exact N4|exact C4|]. by eapply delivering_here.
Qed.

(** ** Every move *)

Lemma same_counts_refl c : same_counts c c.
Proof. done. Qed.

(** What is delivered elsewhere does not count. *)
Lemma outcomes_elsewhere id b k cid (o : option (str * bool)) :
  cid <> id -> outcomes id b (pair k <$> ((fun x => mkOffer cid x.1 x.2) <$> option_list o)) = 0.
Proof. intros Hne. destruct o as [x|]; [|done]. unfold outcomes. cbn. by rewrite bool_decide_false. Qed.

Lemma deliveries_same X id ts i t t' :
  ts !! i = Some t -> delivering X id t' = delivering X id t ->
  deliveries X id (<[i := t']> ts) = deliveries X id ts.
Proof. intros Hi He. pose proof (deliveries_insert X id ts i t t' Hi). lia. Qed.

Lemma signals_conn w k cid p c fo' p' :
  signals_ok w -> rt_threads w !! k = Some (Conn cid p) -> fo_states (rt_fanout w) !! cid = Some c ->
  conn_step (rt_fanout w) cid c p = Some (fo', p') ->
  forall id c' i q, fo_states fo' !! id = Some c' ->
    <[k := Conn cid p']> (rt_threads w) !! i = Some (Conn id q) ->
    accounted id c' q (<[k := Conn cid p']> (rt_threads w)) (rt_log w).
Proof.
  intros [Hw _ Hsg] Hk Hc Hs id c' i q Hc' Hi.
  destruct (conn_step_ok _ _ _ _ _ _ (ro_index w Hw) (ro_threads w Hw k _ Hk) Hc Hs) as (_ & _ & Ho & _).
  apply list_lookup_insert_Some in Hi as [(<- & [= -> ->] & _)|[Hne Hi]].
  - destruct (accounted_conn _ _ _ _ _ _ _ _ _ Hs Hc Hk (Hsg _ _ _ _ Hc Hk)) as (c1 & Hc1 & Ha).
    by assert (c1 = c') as -> by congruence.
  - assert (id <> cid) as Hid by (intros ->; by destruct Hne; eapply (ro_unique w Hw)).
    rewrite (oa_states _ _ _ Ho) in Hc' by done.
    eapply accounted_ext; [apply same_counts_refl| |done|by eapply Hsg].
    intros X _. by eapply deliveries_conn.
Qed.

Lemma signals_pub w k clock ev p fo' p' os :
  signals_ok w -> rt_threads w !! k = Some (Publisher clock ev p) ->
  publish_step clock ev (rt_fanout w) p = Some (fo', p', os) ->
  forall id c' i q, fo_states fo' !! id = Some c' ->
    <[k := Publisher clock ev p']> (rt_threads w) !! i = Some (Conn id q) ->
    accounted id c' q (<[k := Publisher clock ev p']> (rt_threads w)) (rt_log w ++ (pair k <$> os)).
Proof.
  intros [Hw _ Hsg] Hk Hs id c' i q Hc' Hi.
  assert (rt_threads w !! i = Some (Conn id q)) as Hi0.
  { by apply list_lookup_insert_Some in Hi as [(_ & [=] & _)|[_ ?]]. }
  assert (fo' = rt_fanout w -> os = [] ->
    (forall X, X DNext = false -> delivering X id (Publisher clock ev p')
      = delivering X id (Publisher clock ev p)) ->
    accounted id c' q (<[k := Publisher clock ev p']> (rt_threads w)) (rt_log w ++ (pair k <$> os))) as Hplain.
  { intros -> -> Hd. cbn [fmap list_fmap]. rewrite app_nil_r.
    eapply accounted_ext; [apply same_counts_refl| |done|by eapply Hsg].
    intros X HX. eapply deliveries_same; [exact Hk|by apply Hd]. }
  apply publish_step_cases in Hs as [(-> & -> & -> & ->)|[(-> & -> & -> & ->)|[(cid & rest & c & -> & Hc & -> & -> & ->)
    |[(cid & rest & -> & -> & -> & ->)|(cid & subs & rest & s & c & c1 & subs' & s' & o & -> & _ & Hc & Hd & -> & -> & ->)]]]].
  - by apply Hplain.
  - by apply Hplain.
  - apply Hplain; try done. intros X HX. cbn. rewrite HX. by rewrite andb_false_r.
  - apply Hplain; try done. intros X HX. cbn. rewrite HX. by rewrite andb_false_r.
  - destruct (decide (cid = id)) as [->|Hne].
    + rewrite state_here in Hc'. injection Hc' as <-.
      eapply accounted_deliver; [exact Hk|exact Hd|]. by eapply Hsg.
    + cbn [with_state fo_states] in Hc'. rewrite lookup_insert_ne in Hc' by done.
      eapply accounted_ext; [apply same_counts_refl| | |by eapply Hsg].
      * intros X _. eapply deliveries_same; [exact Hk|]. cbn. by rewrite bool_decide_false.
      * intros b. rewrite outcomes_app, outcomes_elsewhere by done. lia.
Qed.

Lemma log_states_mono w fo' log :
  (forall id, has_state (rt_fanout w) id -> has_state fo' id) ->
  Forall (fun p => has_state (rt_fanout w) (of_conn p.2)) log ->
  Forall (fun p : nat * offer => has_state fo' (of_conn p.2)) log.
Proof. intros Hs Hl. eapply Forall_impl; [exact Hl|]. intros p. apply Hs. Qed.

Lemma signals_connect w tx now :
  signals_ok w ->
  signals_ok (mkRouter (register tx now (rt_fanout w)).1
    (rt_threads w ++ [Conn (register tx now (rt_fanout w)).2 Idle]) (rt_log w)).
Proof.
  intros [Hw Hl Hsg]. pose proof (router_ok_connect w tx now Hw) as Hw'.
  set (fo := rt_fanout w) in *. set (id0 := (register tx now fo).2) in *.
  set (fo' := (register tx now fo).1) in *.
  set (c0 := mkConn id0 tx [] KKNone [] false false 0 0 (now, 0%Z)).
  assert (~ has_state fo id0) as Hnew.
  { intros Hs. pose proof (ro_fresh w Hw _ Hs) as Hle. fold fo in Hle. unfold id0 in Hle. cbn in Hle. lia. }
  split; [done| |]; cbn [rt_fanout rt_threads rt_log].
  { apply (log_states_mono w); [|done]. intros id Hs. apply lookup_insert_is_Some'. by right. }
  intros id c i p Hc Hi. change (fo_states fo') with (<[id0 := c0]> (fo_states fo)) in Hc.
  apply lookup_insert_Some in Hc as [[<- <-]|[Hne Hc]].
  - assert (p = Idle) as ->.
    { apply lookup_app_Some in Hi as [Hi|[_ [_ [= ->]]%list_lookup_singleton_Some]]; [|done].
      destruct (ro_threads w Hw i _ Hi) as [(c & Hc & _) _]. destruct Hnew. by exists c. }
    assert (forall X, deliveries X id0 (rt_threads w ++ [Conn id0 Idle]) = 0) as Hd.
    { intros X. rewrite deliveries_snoc. cbn [delivering]. rewrite Nat.add_0_r. unfold deliveries.
      assert (Forall (fun t => delivering X id0 t = 0) (rt_threads w)) as Hz.
      { apply Forall_forall. intros t [j Hj]%list_elem_of_lookup.
        destruct t as [cid q|clock ev [| |cid subs rest s|]]; try done. cbn.
        rewrite bool_decide_false; [done|]. intros ->. apply Hnew.
        destruct (ro_threads w Hw j _ Hj) as (_ & _ & c & _ & Hc & _). by exists c. }
      clear -Hz. induction Hz as [|t ts Ht _ IH]; [done|]. cbn [sum_list_with]. lia. }
    assert (forall b, outcomes id0 b (rt_log w) = 0) as Hout.
    { intros b. unfold outcomes. clear -Hl Hnew. induction Hl as [|x l Hx _ IH]; [done|].
      cbn [List.filter]. rewrite bool_decide_false; [exact IH|]. intros E. by rewrite E in Hx. }
    split; try done; cbn [c_sent c_dropped]; by rewrite Hd, Hout.
  - assert (rt_threads w !! i = Some (Conn id p)) as Hi0.
    { apply lookup_app_Some in Hi as [Hi|[_ [_ [= ? _]]%list_lookup_singleton_Some]]; [done|].
      by destruct Hne. }
    eapply accounted_ext; [apply same_counts_refl| |done|by eapply Hsg].
    intros X _. rewrite deliveries_snoc. cbn [delivering]. lia.
Qed.

Lemma signals_request w i cid r c fo' p :
  signals_ok w -> rt_threads w !! i = Some (Conn cid Idle) ->
  fo_states (rt_fanout w) !! cid = Some c -> begin (rt_fanout w) cid r = Some (fo', p) ->
  forall id c' k q, fo_states fo' !! id = Some c' ->
    <[i := Conn cid p]> (rt_threads w) !! k = Some (Conn id q) ->
    accounted id c' q (<[i := Conn cid p]> (rt_threads w)) (rt_log w).
Proof.
  intros [Hw _ Hsg] Hi Hc Hb id c' k q Hc' Hk.
  destruct (begin_ok _ _ c _ _ _ Hc (ro_threads w Hw i _ Hi) Hb) as (c1 & -> & _).
  apply list_lookup_insert_Some in Hk as [(<- & [= -> ->] & _)|[Hne Hk]].
  - rewrite state_here in Hc'. injection Hc' as <-. destruct (Hsg _ _ _ _ Hc Hi) as [A1 A2 A3 A4].
    assert (c1 = (match r with Notified => set_notified false c | _ => c end) /\
      (match r with Notified => q = TakeOverflow | Disconnect => q = Leave | _ => True end)) as [-> Hq].
    { assert (forall x, with_state id c1 (rt_fanout w) = with_state id x (rt_fanout w) -> c1 = x) as Hinj.
      { intros x E. apply (f_equal (fun fo => fo_states fo !! id)) in E.
        rewrite !state_here in E. by injection E. }
      destruct r; cbn [begin] in Hb.
      - injection Hb as Hfo _. split; [|done]. apply Hinj. by rewrite (state_same id c), <- Hfo.
      - injection Hb as Hfo _. split; [|done]. apply Hinj. by rewrite (state_same id c), <- Hfo.
      - rewrite Hc in Hb. cbn [mbind option_bind] in Hb. destruct (c_notified c); [|done].
        injection Hb as Hfo <-. split; [|done]. apply Hinj. unfold with_state. by rewrite Hfo.
      - injection Hb as Hfo <-. split; [|done]. apply Hinj. by rewrite (state_same id c), <- Hfo. }
    assert (forall X, deliveries X id (<[i := Conn id q]> (rt_threads w))
      = deliveries X id (rt_threads w)) as Hd by (intros X; by eapply deliveries_conn).
    destruct r; try subst q; (split; cbn [set_notified c_sent c_dropped c_overflow c_notified c_kill];
      rewrite ?Hd; [done|done|intros Ho|intros Ho]);
      first [by right; right | destruct (A3 Ho) as [?|[?|?]]; by auto | destruct (A4 Ho) as [?|[?|?]]; by auto].
  - assert (id <> cid) as Hid by (intros ->; by destruct Hne; eapply (ro_unique w Hw)).
    cbn [with_state fo_states] in Hc'. rewrite lookup_insert_ne in Hc' by done.
    eapply accounted_ext; [apply same_counts_refl| |done|by eapply Hsg].
    intros X _. by eapply deliveries_conn.
Qed.

Lemma take_step_has_state w i t fo' t' os :
  router_ok w -> rt_threads w !! i = Some t -> take_step (rt_fanout w) t = Some (fo', t', os) ->
  (forall id, has_state (rt_fanout w) id -> has_state fo' id)
  /\ Forall (fun o => has_state (rt_fanout w) (of_conn o)) os.
Proof.
  intros Hw Hi Ha. pose proof (ro_threads w Hw i t Hi) as Ht.
  destruct t as [cid p|clock ev p]; cbn [take_step] in Ha.
  - apply bind_Some in Ha as (c & Hc & Ha). apply bind_Some in Ha as ([fo1 p1] & Hs & [= <- <- <-]).
    destruct (conn_step_ok _ _ _ _ _ _ (ro_index w Hw) Ht Hc Hs) as (_ & _ & Ho & _).
    split; [|constructor]. intros id. by apply (has_state_only_at cid).
  - apply bind_Some in Ha as ([[fo1 p1] os1] & Hp & [= <- <- <-]).
    apply publish_step_cases in Hp as [(_ & _ & -> & ->)|[(_ & _ & -> & ->)|[(? & ? & ? & _ & _ & _ & -> & ->)
      |[(? & ? & _ & _ & -> & ->)|(cid & subs & rest & s & c & c1 & subs' & s' & o & _ & _ & Hc & _ & _ & -> & ->)]]]];
      [by split; [|constructor]..|]. split.
    + intros id. by apply (has_state_only_at cid _ _ _ (only_at_state cid _ c c1 Hc)).
    + apply Forall_fmap, Forall_forall. intros x _. by exists c.
Qed.

Lemma signals_run_thread w k w' : signals_ok w -> run_thread w k = Some w' -> signals_ok w'.
Proof.
  intros Hsg Hr. pose proof Hsg as [Hw Hl _].
  pose proof (run_thread_ok w k w' Hw Hr) as Hw'. unfold run_thread in Hr.
  apply bind_Some in Hr as (t & Ht & Hr). destruct (may_take w (needs t)); [|done].
  apply bind_Some in Hr as ([[fo' t'] os] & Ha & [= <-]).
  destruct (take_step_has_state _ _ _ _ _ _ Hw Ht Ha) as [Hmono Hos].
  split; [done| |]; cbn [rt_fanout rt_threads rt_log].
  - apply Forall_app. split; [by apply (log_states_mono w)|]. apply Forall_fmap.
    eapply Forall_impl; [exact Hos|]. intros o. apply Hmono.
  - destruct t as [cid p|clock ev p]; cbn [take_step] in Ha.
    + apply bind_Some in Ha as (c & Hc & Ha). apply bind_Some in Ha as ([fo1 p1] & Hs & [= <- <- <-]).
      cbn [fmap list_fmap]. rewrite app_nil_r. by eapply signals_conn.
    + apply bind_Some in Ha as ([[fo1 p1] os1] & Hp & [= <- <- <-]). by eapply signals_pub.
Qed.

Lemma signals_step w m w' : signals_ok w -> router_step w m = Some w' -> signals_ok w'.
Proof.
  intros Hsg Hs. pose proof Hsg as [Hw Hl Hac]. pose proof (router_step_ok _ _ _ Hw Hs) as Hw'.
  destruct m as [i|tx now|i r|clock ev|id tx]; cbn [router_step] in Hs.
  - by eapply signals_run_thread.
  - destruct (available _ _); [|done].
    pose proof (signals_connect w tx now Hsg) as Hok. destruct (register tx now (rt_fanout w)).
    by injection Hs as <-.
  - destruct (rt_threads w !! i) as [[id [| | | | | | | | | |]|]|] eqn:Hi; try done.
    apply bind_Some in Hs as ([fo p] & Hb & [= <-]).
    destruct (ro_threads w Hw i _ Hi) as [(c & Hc & _) _]. split; [done| |].
    + destruct (begin_ok _ _ c _ _ _ Hc (ro_threads w Hw i _ Hi) Hb) as (c1 & -> & _).
      apply (log_states_mono w); [|done]. intros cid.
      by apply (has_state_only_at id _ _ _ (only_at_state id _ c c1 Hc)).
    + by eapply (signals_request w i id r c).
  - injection Hs as <-. split; [done|done|]. cbn [rt_fanout rt_threads rt_log].
    intros id c i p Hc Hi. assert (rt_threads w !! i = Some (Conn id p)) as Hi0.
    { by apply lookup_app_Some in Hi as [Hi|[_ [_ ?]%list_lookup_singleton_Some]]. }
    eapply accounted_ext; [apply same_counts_refl| |done|by eapply Hac].
    intros X _. rewrite deliveries_snoc. cbn [delivering]. lia.
  - apply bind_Some in Hs as (c & Hc & [= <-]). split; [done| |]; cbn [rt_fanout rt_threads rt_log].
    + apply (log_states_mono w); [|done]. intros cid.
      by apply (has_state_only_at id _ _ _ (only_at_state id _ c _ Hc)).
    + intros cid c' i p Hc' Hi. cbn [with_state fo_states] in Hc'.
      apply lookup_insert_Some in Hc' as [[<- <-]|[_ Hc']]; [|by eapply Hac].
      eapply accounted_ext; [| | |by eapply Hac]; done.
Qed.

Lemma signals_run ms w : run_moves router_new ms = Some w -> signals_ok w.
Proof.
  apply run_moves_ind; [|intros w1 m w2 _; apply signals_step].
  split; [apply router_ok_new|constructor|done].
Qed.

Lemma no_deliveries X id ts :
  (forall j clock ev subs rest s, ts !! j <> Some (Publisher clock ev (At id subs rest s))) ->
  deliveries X id ts = 0.
Proof.
  intros Hno. unfold deliveries. induction ts as [|t ts IH]; [done|]. cbn [sum_list_with].
  rewrite IH by (intros j; apply (Hno (S j))).
  destruct t as [cid q|clock ev [| |cid subs rest s|]]; try done. cbn.
  rewrite bool_decide_false; [done|]. intros ->. by apply (Hno 0 clock ev subs rest s).
Qed.

(** C17: no drop is forgotten: whatever connections, requests and publications have
    gone before, at any interleaving, when no delivery to a connection is under way
    its counters are the numbers of frames that its channel has taken and refused;
    and if its task is waiting for something to do while a subscription has
    overflowed, or the connection has dropped so much that it is to be closed, then
    the notification that wakes the task is there. *)
Theorem drops_accounted ms w i id c p :
  run_moves router_new ms = Some w -> fo_states (rt_fanout w) !! id = Some c ->
  rt_threads w !! i = Some (Conn id p) ->
  (forall j clock ev subs rest s,
    rt_threads w !! j <> Some (Publisher clock ev (At id subs rest s))) ->
  c_sent c = wrap64 (Z.of_nat (outcomes id true (rt_log w)))
  /\ c_dropped c = wrap64 (Z.of_nat (outcomes id false (rt_log w)))
  /\ (p = Idle -> c_overflow c <> [] \/ c_kill c = true -> c_notified c = true).
Proof.
  intros Hr Hc Hi Hno. destruct (sg_accounts w (signals_run _ _ Hr) id c i p Hc Hi) as [A1 A2 A3 A4].
  rewrite !no_deliveries, Z.sub_0_r in * by done.
  split_and!; [done|done|]. intros -> [Ho|Hk].
  - by destruct (A3 Ho) as [?|[?%Nat.lt_irrefl|?]].
  - by destruct (A4 Hk) as [?|[?%Nat.lt_irrefl|?]].
Qed.
End Signals.

(** * A closed run *)

(** Three events for a channel of two frames. *)
Definition deliver_one (j : nat) : list move :=
  MPublish five (broadcast_new sample_event) :: replicate 10 (MRun j).

Definition slow_reader : list move :=
  [MConnect [] 0; MRequest 0 (Subscribe (lit "a") [kind_filter [1%Z]]); MRun 0; MRun 0; MRun 0; MRun 0]
  ++ take 7 (deliver_one 1) ++ take 7 (deliver_one 2) ++ take 10 (deliver_one 3).

Definition done_publishing : thread := Publisher five (broadcast_new sample_event) Published.

Example slow_reader_run :
  (fun w => (rt_threads w, c_overflow <$> fo_states (rt_fanout w) !! 1%Z,
             (outcomes 1 true (rt_log w), outcomes 1 false (rt_log w))))
    <$> run_moves router_new slow_reader
  = Some ([Conn 1 Idle; done_publishing; done_publishing; done_publishing], Some [lit "a"], (2, 1)).
Proof. vm_compute. reflexivity. Qed.

Lemma drops_accounted_witness :
  exists w c, run_moves router_new slow_reader = Some w
    /\ fo_states (rt_fanout w) !! 1%Z = Some c
    /\ c_sent c = 2%Z /\ c_dropped c = 1%Z /\ c_notified c = true.
Proof.
  pose proof slow_reader_run as H1.
  destruct (run_moves router_new slow_reader) as [w|] eqn:E1; [|discriminate].
  injection H1 as Ht Ho Hs Hd.
  destruct (fo_states (rt_fanout w) !! 1%Z) as [c|] eqn:Ec; [|discriminate].
  injection Ho as Ho. exists w, c. split; [done|]. split; [done|].
  destruct (drops_accounted slow_reader w 0 1 c Idle E1 Ec) as (A1 & A2 & A3).
  - by rewrite Ht.
  - intros j clock ev subs rest s. rewrite Ht. do 4 (destruct j as [|j]; [discriminate|]). discriminate.
  - rewrite Hs in A1. rewrite Hd in A2. split; [exact A1|]. split; [exact A2|].
    apply A3; [done|]. left. by rewrite Ho.
Defined.
