(* ===== verification/Message.v ===== *)
(** [src/src/message.rs] and [message_type] of [src/src/relay.rs]: the messages of
    the Nostr protocol, as text.

    What [serde_json] does is a parameter ([MessageJson]) with its documented
    behaviour as laws ([MessageJsonLaws]); the array is sliced into the verbatim
    texts of its elements ([RawValue]), which are then read at the type each
    message needs. *)
From S2P Require Import Prelude Text Event Reference EventProps Deletion Index Store Subscription.
Open Scope memlay_scope.

(** * Messages *)

(** [enum NostrMessage]. *)
Inductive NostrMessage :=
| MEvent (sub_id : option str) (event : Event)
| MRequest (id : str) (filters : list Filter)
| MClose (id : str)
| MEndOfStoredEvents (id : str)
| MNotification (message : str)
| MOk (id : str) (accepted : bool) (message : str)
| MClosed (id : str) (message : str).

(** A quote, a comma and the brackets. *)
Definition dquote : N := 34.
Definition comma : N := 44.
Definition lbracket : N := 91.
Definition rbracket : N := 93.
Definition quoted (s : str) : str := [dquote] ++ s ++ [dquote].
Definition bool_text (b : bool) : str := if b then lit "true" else lit "false".

(** [serde_json] as far as messages use it: [from_str] at [Vec<&RawValue>], [&str],
    [String], [bool] and as an object, and [to_string]. *)
Class MessageJson `{EventCrates, FilterJson} := {
  display_error : serde_error -> str;
  filter_error : FilterError -> serde_error;
  raw_array : str -> result (list str) serde_error;
  read_borrowed : str -> option str;
  read_string : str -> option str;
  read_bool : str -> option bool;
  read_object : str -> result (list (str * json)) serde_error;
  write_string : str -> option str;
  write_objects : list (list (str * json)) -> option str;
}.

(** An array literal without whitespace. *)
Fixpoint join_args (args : list str) : str :=
  match args with
  | [] => []
  | [a] => a
  | a :: args => a ++ [comma] ++ join_args args
  end.
Definition array_text (args : list str) : str := [lbracket] ++ join_args args ++ [rbracket].

(** Characters a JSON string carries as they are. *)
Definition unescaped (c : N) : bool :=
  negb (c =? dquote)%N && negb (c =? 92)%N && (32 <=? c)%N.

Section Messages.
Context `{HexCrate, MessageJson}.

(** [Display] for [EventParseError], from its [#[error]] attributes. *)
Definition event_error_text (e : EventParseError) : str :=
  match e with
  | EPJson e => lit "Invalid JSON: " ++ display_error e
  | EPInvalidId => lit "Invalid event id (expected 32-byte hex)"
  | EPInvalidPubkey => lit "Invalid pubkey (expected 32-byte hex)"
  | EPInvalidSignature => lit "Invalid signature (expected 64-byte hex)"
  | EPIdMismatch => lit "Event id does not match content hash"
  | EPBadSignature => lit "Signature verification failed"
  end.

(** [json_str]. *)
Definition json_str (s : str) : str := default (quoted []) (write_string s).

(** [serde_json::from_str::<Filter>]: [deserialize_map] with the filter visitor. *)
Definition filter_of_json (raw : str) : result Filter serde_error :=
  let? entries := read_object raw in
  match visit_map entries with Ok f => Ok f | Err e => Err (filter_error e) end.

(** The loop over the filters of a [REQ]. *)
Fixpoint filters_of_json (raws : list str) : result (list Filter) str :=
  match raws with
  | [] => Ok []
  | raw :: raws =>
      let? f := match filter_of_json raw with
                | Ok f => Ok f
                | Err e => Err (lit "Invalid filter: " ++ display_error e)
                end in
      let? fs := filters_of_json raws in
      Ok (f :: fs)
  end.

(** [NostrMessage::from_json]. *)
Definition msg_from_json (text : str) : result NostrMessage str :=
  let? arr := match raw_array text with
              | Ok arr => Ok arr
              | Err e => Err (lit "JSON parse error: " ++ display_error e)
              end in
  match arr with
  | [] => Err (lit "Empty array")
  | a0 :: args =>
      let? msg_type := ok_or (read_borrowed a0) (lit "Invalid message type") in
      if bool_decide (msg_type = lit "EVENT") then
        match args with
        | a1 :: _ =>
            match from_json (as_bytes a1) with
            | Ok event => Ok (MEvent None event)
            | Err e => Err (event_error_text e)
            end
        | [] => Err (lit "Missing event data")
        end
      else if bool_decide (msg_type = lit "REQ") then
        match args with
        | a1 :: a2 :: rest =>
            let? id := ok_or (read_string a1) (lit "Missing subscription ID") in
            let? filters := filters_of_json (a2 :: rest) in
            Ok (MRequest id filters)
        | _ => Err (lit "Missing filters")
        end
      else if bool_decide (msg_type = lit "CLOSE") then
        match args with
        | a1 :: _ =>
            let? id := ok_or (read_string a1) (lit "Invalid subscription ID") in
            Ok (MClose id)
        | [] => Err (lit "Missing subscription ID")
        end
      else if bool_decide (msg_type = lit "EOSE") then
        match args with
        | a1 :: _ =>
            let? id := ok_or (read_string a1) (lit "Invalid EOSE id") in
            Ok (MEndOfStoredEvents id)
        | [] => Err (lit "Missing EOSE id")
        end
      else if bool_decide (msg_type = lit "NOTICE") then
        match args with
        | a1 :: _ =>
            let? message := ok_or (read_string a1) (lit "Invalid notice message") in
            Ok (MNotification message)
        | [] => Err (lit "Missing notice message")
        end
      else if bool_decide (msg_type = lit "OK") then
        match args with
        | a1 :: a2 :: a3 :: _ =>
            let? id := ok_or (read_string a1) (lit "Invalid OK id") in
            let? accepted := ok_or (read_bool a2) (lit "Invalid OK accepted field") in
            let? message := ok_or (read_string a3) (lit "Invalid OK message") in
            Ok (MOk id accepted message)
        | _ => Err (lit "Missing OK fields")
        end
      else Err (lit "Unknown message type: " ++ msg_type)
  end.

(** [NostrMessage::to_json]. *)
Definition msg_to_json (m : NostrMessage) : str :=
  match m with
  | MEvent sub_id event =>
      match sub_id with
      | Some id =>
          [lbracket] ++ quoted (lit "EVENT") ++ [comma] ++ quoted id ++ [comma]
          ++ from_utf8_lossy (ev_raw event) ++ [rbracket]
      | None => from_utf8_lossy (ev_raw event)
      end
  | MRequest id filters =>
      let filters_json := default [] (write_objects (serialize <$> filters)) in
      array_text [quoted (lit "REQ"); json_str id; filters_json]
  | MClose id => array_text [quoted (lit "CLOSE"); json_str id]
  | MEndOfStoredEvents id => array_text [quoted (lit "EOSE"); json_str id]
  | MNotification message => array_text [quoted (lit "NOTICE"); json_str message]
  | MOk id accepted message =>
      array_text [quoted (lit "OK"); json_str id; bool_text accepted; json_str message]
  | MClosed id message => array_text [quoted (lit "CLOSED"); json_str id; json_str message]
  end.
End Messages.

(** [message_type] of the connection loop: peek at the first element. *)
Definition message_type (text : str) : option str :=
  strip_prefix lbracket (trim_start text) ≫= fun s =>
  strip_prefix dquote (trim_start s) ≫= fun s =>
  before_char dquote s.

(** * What is documented of [serde_json] *)

(** Texts [to_string] produces for the arguments of a reply. *)
Inductive written `{MessageJson} : str -> Prop :=
| written_string s r : write_string s = Some r -> written r
| written_bool b : written (bool_text b).

Class MessageJsonLaws `{MessageJson} : Prop := {
  (** A [RawValue] is a verbatim slice; only whitespace precedes the first one,
      and a string that can be borrowed from it has no escapes. *)
  array_slice : forall text r rs, raw_array text = Ok (r :: rs) ->
    exists ws1 ws2 rest, text = ws1 ++ [lbracket] ++ ws2 ++ r ++ rest
      /\ forallb json_ws ws1 = true /\ forallb json_ws ws2 = true;
  array_substring : forall text rs r, raw_array text = Ok rs -> r ∈ rs ->
    exists before after, text = before ++ r ++ after;
  slice_borrowed : forall text r rs s, raw_array text = Ok (r :: rs) ->
    read_borrowed r = Some s -> r = quoted s /\ (dquote ∉ s);
  (** What is written reads back. *)
  array_written : forall rs, rs <> [] -> Forall written rs -> raw_array (array_text rs) = Ok rs;
  write_total : forall s, is_Some (write_string s);
  string_back : forall s r, write_string s = Some r -> read_string r = Some s;
  bool_back : forall b, read_bool (bool_text b) = Some b;
  unescaped_written : forall s, forallb unescaped s = true -> write_string s = Some (quoted s);
  unescaped_borrowed : forall s, forallb unescaped s = true -> read_borrowed (quoted s) = Some s;
}.

(** * The peek agrees with the parser *)

(** The type element of a message. *)
Definition type_text (m : NostrMessage) : str :=
  match m with
  | MEvent _ _ => lit "EVENT"
  | MRequest _ _ => lit "REQ"
  | MClose _ => lit "CLOSE"
  | MEndOfStoredEvents _ => lit "EOSE"
  | MNotification _ => lit "NOTICE"
  | MOk _ _ _ => lit "OK"
  | MClosed _ _ => lit "CLOSED"
  end.

Lemma message_type_quoted ws1 ws2 s rest :
  forallb json_ws ws1 = true -> forallb json_ws ws2 = true -> dquote ∉ s ->
  message_type (ws1 ++ [lbracket] ++ ws2 ++ quoted s ++ rest) = Some s.
Proof.
  intros H1 H2 Hs. unfold message_type, quoted. cbn [app].
  rewrite trim_start_ws by done. cbn [strip_prefix]. rewrite N.eqb_refl. cbn [mbind option_bind].
  rewrite trim_start_ws by done. cbn [strip_prefix]. rewrite N.eqb_refl. cbn [mbind option_bind].
  rewrite <- app_assoc. by apply before_char_app.
Qed.

Section Peek.
Context `{HexCrate, MessageJsonLaws}.

(** A parsed message comes from an array whose first element is its type. *)
Lemma msg_from_json_type text m :
  msg_from_json text = Ok m ->
  exists a0 args, raw_array text = Ok (a0 :: args) /\ read_borrowed a0 = Some (type_text m).
Proof.
  unfold msg_from_json. destruct (raw_array text) as [[|a0 args]|e]; try discriminate.
  cbn [result_bind]. destruct (read_borrowed a0) as [ty|] eqn:Hty; [|discriminate].
  cbn [ok_or result_bind]. intros Hm. exists a0, args. split; [done|]. rewrite Hty. f_equal.
  repeat (case_bool_decide as Hd; [rewrite Hd; clear Hd|clear Hd]); [..|discriminate].
  - destruct args as [|a1 ?]; [discriminate|]. destruct (from_json (as_bytes a1)); [|discriminate]. by injection Hm as <-.
  - destruct args as [|a1 [|a2 ?]]; [discriminate..|]. destruct (read_string a1); [|discriminate].
    cbn [ok_or result_bind] in Hm. destruct (filters_of_json (a2 :: _)); [|discriminate]. by injection Hm as <-.
  - destruct args as [|a1 ?]; [discriminate|]. destruct (read_string a1); [|discriminate]. by injection Hm as <-.
  - destruct args as [|a1 ?]; [discriminate|]. destruct (read_string a1); [|discriminate]. by injection Hm as <-.
  - destruct args as [|a1 ?]; [discriminate|]. destruct (read_string a1); [|discriminate]. by injection Hm as <-.
  - destruct args as [|a1 [|a2 [|a3 ?]]]; [discriminate..|].
    destruct (read_string a1); [|discriminate]. destruct (read_bool a2); [|discriminate].
    destruct (read_string a3); [|discriminate]. by injection Hm as <-.
Qed.

Lemma message_type_of text m :
  msg_from_json text = Ok m -> message_type text = Some (type_text m).
Proof.
  intros (a0 & args & Ha & Hb)%msg_from_json_type.
  destruct (slice_borrowed text a0 args (type_text m) Ha Hb) as [-> Hq].
  destruct (array_slice text _ args Ha) as (ws1 & ws2 & rest & -> & Hw1 & Hw2).
  by apply message_type_quoted.
Qed.

(** C38: the cheap peek of the connection loop agrees with the full parser: a frame
    that parses is dispatched under the type of the message it parses to, so an
    EVENT frame parses to an event or to an error, and a REQ frame to a request or
    to an error, and never to another message. *)
Theorem peek_agrees_with_parser text m :
  msg_from_json text = Ok m -> message_type text = Some (type_text m).
Proof. apply message_type_of. Qed.

(** An event message comes from the verbatim slice of an authentic event. *)
Lemma event_message_slice text sub_id e :
  msg_from_json text = Ok (MEvent sub_id e) ->
  sub_id = None /\ exists before raw after, text = before ++ raw ++ after
    /\ from_json (as_bytes raw) = Ok e.
Proof.
  intros Hm. destruct (msg_from_json_type _ _ Hm) as (a0 & args & Ha & Hb).
  unfold msg_from_json in Hm. rewrite Ha in Hm. cbn [result_bind] in Hm.
  rewrite Hb in Hm. cbn [ok_or result_bind type_text] in Hm.
  rewrite bool_decide_true in Hm by done. destruct args as [|a1 args]; [discriminate|].
  destruct (from_json (as_bytes a1)) as [e'|] eqn:He; [|discriminate].
  injection Hm as <- <-. split; [done|].
  destruct (array_substring text _ a1 Ha) as (b & a & ->); [right; left|]. by exists b, a1, a.
Qed.
End Peek.

(** * Replies read back *)

(** The replies the protocol defines in both directions. *)
Definition readable (m : NostrMessage) : bool :=
  match m with
  | MClose _ | MEndOfStoredEvents _ | MNotification _ | MOk _ _ _ => true
  | _ => false
  end.

Section Replies.
Context `{HexCrate, MessageJsonLaws}.

Lemma json_str_written s : write_string s = Some (json_str s).
Proof. unfold json_str. by destruct (write_total s) as [r ->]. Qed.

Lemma json_str_back s : read_string (json_str s) = Some s.
Proof. apply string_back, json_str_written. Qed.

(** Parsing the array literal of a type and written arguments. *)
Lemma parse_literal ty args :
  forallb unescaped ty = true -> Forall written args ->
  raw_array (array_text (quoted ty :: args)) = Ok (quoted ty :: args)
  /\ read_borrowed (quoted ty) = Some ty.
Proof.
  intros Hty Hargs. split; [|by apply unescaped_borrowed].
  apply array_written; [done|]. constructor; [|done]. by eapply written_string, unescaped_written.
Qed.

Lemma written_json_str s : written (json_str s).
Proof. eapply written_string, json_str_written. Qed.

(** The relay's replies are well-formed JSON and say what they mean: parsing a
    CLOSE, EOSE, NOTICE or OK message it has written gives the message back,
    whatever characters (quotes, backslashes, line breaks from a client's text or a
    parser's error) its strings contain; a CLOSED message, which only clients
    read, is the array of its three strings. *)
Theorem replies_read_back m :
  (readable m = true -> msg_from_json (msg_to_json m) = Ok m)
  /\ forall id message, m = MClosed id message ->
       exists r1 r2, raw_array (msg_to_json m) = Ok [quoted (lit "CLOSED"); r1; r2]
         /\ read_string r1 = Some id /\ read_string r2 = Some message.
Proof.
  pose proof written_json_str as Hw. split.
  - destruct m; try discriminate; intros _; unfold msg_from_json, msg_to_json.
    + destruct (parse_literal (lit "CLOSE") [json_str id]) as [-> Hb]; [done|by repeat constructor|].
      cbn [result_bind]. rewrite Hb. cbn [ok_or result_bind]. by rewrite json_str_back.
    + destruct (parse_literal (lit "EOSE") [json_str id]) as [-> Hb]; [done|by repeat constructor|].
      cbn [result_bind]. rewrite Hb. cbn [ok_or result_bind]. by rewrite json_str_back.
    + destruct (parse_literal (lit "NOTICE") [json_str message]) as [-> Hb];
        [done|by repeat constructor|].
      cbn [result_bind]. rewrite Hb. cbn [ok_or result_bind]. by rewrite json_str_back.
    + destruct (parse_literal (lit "OK") [json_str id; bool_text accepted; json_str message])
        as [-> Hb]; [done| |].
      { repeat constructor; auto. }
      cbn [result_bind]. rewrite Hb. cbn [ok_or result_bind].
      rewrite !json_str_back, bool_back. done.
  - intros id message ->. exists (json_str id), (json_str message). rewrite !json_str_back.
    destruct (parse_literal (lit "CLOSED") [json_str id; json_str message]) as [Ha _];
      [done|by repeat constructor|]. done.
Qed.
End Replies.

(** * A concrete JSON reader

    Enough of JSON to run the examples: string literals with [\u00XX] escapes,
    booleans, and arrays sliced at their top-level commas. *)

Definition hex2 (c : N) : str := ref_encode [Z.of_N c].

Definition escape (c : N) : str :=
  if unescaped c then [c] else [92; 117; 48; 48]%N ++ hex2 c.

Fixpoint unescape (s : str) : option str :=
  match s with
  | [] => Some []
  | c :: s =>
      if unescaped c then cons c <$> unescape s else
      match s with
      | 117%N :: 48%N :: 48%N :: h1 :: h2 :: s =>
          if (c =? 92)%N then
            match ref_decode [h1; h2] with
            | Some [b] => cons (Z.to_N b) <$> unescape s
            | _ => None
            end
          else None
      | _ => None
      end
  end.

(** The text between the quotes of a literal. *)
Definition unquote (s : str) : option str :=
  match s with
  | c :: s =>
      if (c =? dquote)%N then
        match last s with
        | Some d => if (d =? dquote)%N then Some (removelast s) else None
        | None => None
        end
      else None
  | [] => None
  end.

(** Slice the elements of an array: [instr] inside a string literal, [depth] open
    brackets, [cur] the current element so far. *)
Fixpoint slice (instr : bool) (depth : nat) (cur s : str) : option (list str) :=
  match s with
  | [] => None
  | c :: s =>
      if instr then slice (negb (c =? dquote)%N) depth (cur ++ [c]) s
      else if (c =? dquote)%N then slice true depth (cur ++ [c]) s
      else if (c =? lbracket)%N || (c =? 123)%N then slice false (S depth) (cur ++ [c]) s
      else if (c =? rbracket)%N || (c =? 125)%N then
        match depth with
        | S depth => slice false depth (cur ++ [c]) s
        | O => match s with [] => Some [cur] | _ => None end
        end
      else if (c =? comma)%N && Nat.eqb depth 0 then cons cur <$> slice false 0 [] s
      else slice false depth (cur ++ [c]) s
  end.

#[export] Instance ref_messages : MessageJson := {|
  display_error _ := lit "bad JSON";
  filter_error _ := tt;
  raw_array text :=
    match text with
    | c :: s =>
        if (c =? lbracket)%N then
          match slice false 0 [] s with
          | Some [[]] => Ok []
          | Some rs => Ok rs
          | None => Err tt
          end
        else Err tt
    | [] => Err tt
    end;
  read_borrowed r :=
    unquote r ≫= fun s => if forallb unescaped s then Some s else None;
  read_string r := unquote r ≫= unescape;
  read_bool r :=
    if bool_decide (r = lit "true") then Some true
    else if bool_decide (r = lit "false") then Some false else None;
  read_object r := if bool_decide (r = lit "{}") then Ok [] else Err tt;
  write_string s := Some (quoted (s ≫= escape));
  write_objects _ := None;
|}.

(** ** It has the documented behaviour *)

(** The state of [slice] after a text without a top-level comma or closing
    bracket. *)
Fixpoint scan (instr : bool) (depth : nat) (s : str) : option (bool * nat) :=
  match s with
  | [] => Some (instr, depth)
  | c :: s =>
      if instr then scan (negb (c =? dquote)%N) depth s
      else if (c =? dquote)%N then scan true depth s
      else if (c =? lbracket)%N || (c =? 123)%N then scan false (S depth) s
      else if (c =? rbracket)%N || (c =? 125)%N then
        match depth with S depth => scan false depth s | O => None end
      else if (c =? comma)%N && Nat.eqb depth 0 then None
      else scan false depth s
  end.

Lemma slice_scan r : forall i d cur s i' d',
  scan i d r = Some (i', d') -> slice i d cur (r ++ s) = slice i' d' (cur ++ r) s.
Proof.
  induction r as [|c r IH]; intros i d cur s i' d'; cbn [scan app].
  { intros [= -> ->]. by rewrite app_nil_r. }
  assert (cur ++ c :: r = (cur ++ [c]) ++ r) as -> by by rewrite <- app_assoc.
  cbn [slice]. destruct i; [apply IH|].
  destruct (c =? dquote)%N; [apply IH|].
  destruct ((c =? lbracket)%N || (c =? 123)%N); [apply IH|].
  destruct ((c =? rbracket)%N || (c =? 125)%N); [destruct d; [done|apply IH]|].
  destruct ((c =? comma)%N && Nat.eqb d 0); [done|apply IH].
Qed.

Lemma slice_prefix s : forall i d cur r rs,
  slice i d cur s = Some (r :: rs) -> exists rest, cur ++ s = r ++ rest.
Proof.
  induction s as [|c s IH]; intros i d cur r rs; cbn [slice]; [done|].
  assert (cur ++ c :: s = (cur ++ [c]) ++ s) as -> by by rewrite <- app_assoc.
  destruct i; [apply IH|]. destruct (c =? dquote)%N; [apply IH|].
  destruct ((c =? lbracket)%N || (c =? 123)%N); [apply IH|].
  destruct ((c =? rbracket)%N || (c =? 125)%N).
  { destruct d; [|apply IH]. destruct s; [|done]. intros [= <- <-]. exists [c]. by rewrite app_nil_r. }
  destruct ((c =? comma)%N && Nat.eqb d 0); [|apply IH].
  destruct (slice false 0 [] s); [|done]. intros [= <- <-]. exists (c :: s). by rewrite <- app_assoc.
Qed.

Lemma slice_substring s : forall i d cur rs r,
  slice i d cur s = Some rs -> r ∈ rs -> exists before after, cur ++ s = before ++ r ++ after.
Proof.
  induction s as [|c s IH]; intros i d cur rs r; cbn [slice]; [done|].
  assert (cur ++ c :: s = (cur ++ [c]) ++ s) as -> by by rewrite <- app_assoc.
  destruct i; [apply IH|]. destruct (c =? dquote)%N; [apply IH|].
  destruct ((c =? lbracket)%N || (c =? 123)%N); [apply IH|].
  destruct ((c =? rbracket)%N || (c =? 125)%N).
  { destruct d; [|apply IH]. destruct s; [|done]. intros [= <-] ->%list_elem_of_singleton.
    exists [], [c]. by rewrite app_nil_r. }
  destruct ((c =? comma)%N && Nat.eqb d 0); [|apply IH].
  destruct (slice false 0 [] s) as [l|] eqn:Hs; [|done].
  intros [= <-] [->|Hr]%elem_of_cons.
  - exists [], (c :: s). by rewrite <- app_assoc.
  - destruct (IH _ _ _ _ _ Hs Hr) as (b & a & Heq). cbn in Heq. exists (cur ++ [c] ++ b), a.
    rewrite Heq. by rewrite <- !app_assoc.
Qed.

Lemma unquote_quoted s : unquote (quoted s) = Some s.
Proof.
  unfold unquote, quoted. cbn [app]. rewrite N.eqb_refl, last_snoc, N.eqb_refl.
  by rewrite removelast_last.
Qed.

Lemma unquote_inv r s : unquote r = Some s -> r = quoted s.
Proof.
  unfold unquote, quoted. destruct r as [|c r]; [done|]. destruct (N.eqb_spec c dquote) as [->|]; [|done].
  destruct (last r) as [d|] eqn:Hl; [|done]. destruct (N.eqb_spec d dquote) as [->|]; [|done].
  intros [= <-]. apply last_Some in Hl as [r' ->]. by rewrite removelast_last.
Qed.

Lemma unescaped_not_quote s : forallb unescaped s = true -> dquote ∉ s.
Proof.
  intros Hs Hin. rewrite forallb_forall in Hs.
  specialize (Hs dquote (proj1 (list_elem_of_In _ _) Hin)). discriminate.
Qed.

Lemma escaped_small c : unescaped c = false -> (c < 93)%N.
Proof.
  unfold unescaped, dquote. intros Hc. destruct (N.eqb_spec c 34), (N.eqb_spec c 92); try lia.
Qed.

Lemma hex2_decode c : (c < 93)%N -> exists h1 h2, hex2 c = [h1; h2]
  /\ ref_decode [h1; h2] = Some [Z.of_N c] /\ h1 <> dquote /\ h2 <> dquote.
Proof.
  intros Hc. exists (hex_char (Z.of_N c / 16)), (hex_char (Z.of_N c mod 16)). split; [done|].
  assert (forall d, (0 <= d)%Z -> hex_char d <> dquote) as Hne.
  { intros d Hd. unfold hex_char, dquote. destruct (Z.ltb_spec d 10); lia. }
  split_and!; [|apply Hne, Z.div_pos; lia|apply Hne, Z.mod_pos_bound; lia].
  apply (ref_decode_encode [Z.of_N c]). constructor; [|done]. unfold u8_ok. lia.
Qed.

Lemma escape_no_quote s : dquote ∉ s ≫= escape.
Proof.
  intros (c & Hc & Hin)%list_elem_of_bind. unfold escape in Hc.
  destruct (unescaped c) eqn:Hu.
  - apply list_elem_of_singleton in Hc as <-. discriminate Hu.
  - destruct (hex2_decode c (escaped_small c Hu)) as (h1 & h2 & Hh & _ & ? & ?). rewrite Hh in Hc. cbn [app] in Hc.
    repeat (apply elem_of_cons in Hc as [Hc|Hc]; [first [discriminate Hc|congruence]|]). by apply elem_of_nil in Hc.
Qed.

Lemma unescape_escape s : unescape (s ≫= escape) = Some s.
Proof.
  induction s as [|c s IH]; [done|]. cbn [mbind list_bind]. unfold escape at 1.
  destruct (unescaped c) eqn:Hu.
  - cbn [app unescape]. rewrite Hu, IH. done.
  - destruct (hex2_decode c (escaped_small c Hu)) as (h1 & h2 & -> & Hd & _).
    cbn [app unescape]. rewrite Hd, IH. cbn. by rewrite N2Z.id.
Qed.

Lemma escape_unescaped s : forallb unescaped s = true -> s ≫= escape = s.
Proof.
  induction s as [|c s IH]; [done|]. cbn [forallb mbind list_bind]. intros [Hc Hs]%andb_true_iff.
  unfold escape at 1. rewrite Hc. cbn. f_equal. by apply IH.
Qed.

Lemma scan_instr s : dquote ∉ s -> scan true 0 s = Some (true, 0).
Proof.
  induction s as [|c s IH]; [done|]. intros [Hc Hs]%not_elem_of_cons. cbn [scan].
  destruct (N.eqb_spec c dquote); [congruence|]. by apply IH.
Qed.

Lemma scan_app s t : forall i d i' d', scan i d s = Some (i', d') -> scan i d (s ++ t) = scan i' d' t.
Proof.
  induction s as [|c s IH]; intros i d i' d'; cbn [scan app]; [by intros [= -> ->]|].
  repeat case_match; try done; apply IH.
Qed.

Lemma written_scan r : written r -> scan false 0 r = Some (false, 0) /\ r <> [].
Proof.
  intros [s r' [= <-]|[]]; [|by vm_compute..]. split; [|done]. cbn [quoted app scan].
  rewrite N.eqb_refl, (scan_app _ _ _ _ _ _ (scan_instr _ (escape_no_quote s))). done.
Qed.

Lemma slice_written r rs :
  Forall written (r :: rs) -> slice false 0 [] (join_args (r :: rs) ++ [rbracket]) = Some (r :: rs).
Proof.
  revert r. induction rs as [|r' rs IH]; intros r [[Hr _]%written_scan Hrs]%Forall_cons.
  - cbn [join_args]. by rewrite (slice_scan _ _ _ _ _ _ _ Hr).
  - change (join_args (r :: r' :: rs)) with (r ++ comma :: join_args (r' :: rs)).
    rewrite <- app_assoc, (slice_scan _ _ _ _ _ _ _ Hr).
    cbn -[join_args]. by rewrite IH.
Qed.

#[export] Instance ref_message_laws : MessageJsonLaws.
Proof.
  split.
  - intros text r rs. cbn [raw_array ref_messages]. destruct text as [|c s]; [done|].
    destruct (N.eqb_spec c lbracket) as [->|]; [|done].
    destruct (slice false 0 [] s) as [sl|] eqn:Hs; [|done]. intros Hr.
    assert (sl = r :: rs) as -> by by destruct sl as [|[|] []]; simplify_eq/=.
    destruct (slice_prefix _ _ _ _ _ _ Hs) as [rest Hrest]. cbn in Hrest.
    exists [], [], rest. by rewrite Hrest.
  - intros text rs r. cbn [raw_array ref_messages]. destruct text as [|c s]; [done|].
    destruct (N.eqb_spec c lbracket) as [->|]; [|done].
    destruct (slice false 0 [] s) as [sl|] eqn:Hs; [|done]. intros Hr Hin.
    assert (r ∈ sl) as Hin' by (destruct sl as [|[|] []]; simplify_eq/=; done || set_solver).
    destruct (slice_substring _ _ _ _ _ _ Hs Hin') as (b & a & Heq). cbn in Heq.
    exists (lbracket :: b), a. by rewrite Heq.
  - intros text r rs s _. cbn [read_borrowed ref_messages]. intros (t & Ht & Hs)%bind_Some.
    destruct (forallb unescaped t) eqn:Hu; [|done]. injection Hs as <-.
    split; [by apply unquote_inv|by apply unescaped_not_quote].
  - intros [|r rs] Hne Hw; [done|]. unfold array_text. cbn [raw_array ref_messages app].
    rewrite N.eqb_refl, slice_written by done.
    apply Forall_cons in Hw as [[_ Hr]%written_scan _]. destruct r; [done|]. by destruct rs.
  - intros s. by eexists.
  - intros s r [= <-]. cbn [read_string ref_messages]. rewrite unquote_quoted. cbn.
    apply unescape_escape.
  - by intros [].
  - intros s Hs. cbn [write_string ref_messages]. by rewrite escape_unescaped.
  - intros s Hs. cbn [read_borrowed ref_messages]. rewrite unquote_quoted. cbn. by rewrite Hs.
Qed.

(** * Witnesses *)

(** A client's EVENT frame. *)
Definition sample_frame : str := array_text [quoted (lit "EVENT"); lit "{sample}"].

Lemma sample_frame_parses : msg_from_json sample_frame = Ok (MEvent None sample_event).
Proof. vm_compute. reflexivity. Qed.

Lemma peek_agrees_with_parser_witness :
  msg_from_json sample_frame = Ok (MEvent None sample_event)
  /\ message_type sample_frame = Some (lit "EVENT").
Proof.
  split; [exact sample_frame_parses|].
  exact (peek_agrees_with_parser sample_frame (MEvent None sample_event) sample_frame_parses).
Defined.

Lemma replies_read_back_witness :
  let m := MNotification (quoted (lit "x") ++ [10; 92]%N) in
  msg_from_json (msg_to_json m) = Ok m.
Proof. exact (proj1 (replies_read_back (MNotification (quoted (lit "x") ++ [10; 92]%N))) eq_refl). Defined.
