(* ===== verification/Relay.v ===== *)
(** [src/src/relay.rs]: what the relay does with an EVENT frame (parse, verify,
    store or delete, publish, reply) and with the filters of a REQ.

    The store and the live router are the relay's shared state; each handler is
    one step on it. The order in which the ids of a deletion request are visited
    (a [HashSet]) is a parameter. *)
From stdpp Require Import pretty.
From S2P Require Import Prelude Text Collections Event Reference EventProps Deletion Tombstones Index IndexInv IndexSpec IndexQuery Wal Store Subscription Fanout Message.
Open Scope memlay_scope.

(** * State and handlers *)

(** [CONN_SEND_CAP], [MAX_MESSAGE_BYTES], [MAX_FILTERS_PER_REQ]. *)
Definition CONN_SEND_CAP : Z := 16384.
Definition MAX_MESSAGE_BYTES : Z := (512 * 1024)%Z.
Definition MAX_FILTERS_PER_REQ : nat := 20.

(** [verify_permits], of the number of processors. *)
Definition verify_permits (cpus : Z) : Z := clamp 64 256 (cpus * 32).

(** [format!("{}", n)]. *)
Definition show (n : N) : str := lit (pretty n).

Section Relay.
Context `{HexCrate, MessageJson, Channel}.
Variable set_order : gset bytes -> list bytes.

(** The store and the live router shared by every connection. *)
Record Relay := mkRelay {
  r_store : EventStore;
  r_fanout : Fanout;
}.

(** [prepare_filters]. *)
Definition prepare_filter (max_limit : Z) (f : Filter) : Filter :=
  parse_hex_values
    (with_limit (match f_limit f with None => max_limit | Some l => Z.min l max_limit end) f).
Definition prepare_filters (filters : list Filter) (max_limit : Z) : list Filter :=
  prepare_filter max_limit <$> filters.

Definition ok_reply (event : Event) (accepted : bool) (message : str) : str :=
  msg_to_json (MOk (hex_encode (ev_id event)) accepted message).

Definition deleted_message : str := lit "deleted: this event was removed by a deletion request".
Definition duplicate_message : str := lit "duplicate: already have this event".
Definition ephemeral_message : str := lit "ephemeral: will not be stored".
Definition deleted_count_message (n : nat) : str :=
  lit "deleted " ++ show (N.of_nat n) ++ lit " event(s)".

Definition published (clock : Clock) (event : Event) (r : Relay) : Relay :=
  mkRelay (r_store r) (publish clock (broadcast_new event) (r_fanout r)).

(** [apply_deletion_request]. *)
Definition apply_deletion_request (clock : Clock) (ev : Event) (r : Relay)
    : panicky (Relay * str) :=
  if store_contains (r_store r) (ev_id ev) then Ret (r, ok_reply ev true duplicate_message) else
  if is_tombstoned (st_index (r_store r)) (ev_id ev)
  then Ret (r, ok_reply ev false deleted_message) else
  let! req := deletion_request ev in
  let '(st1, outcome) := apply_deletion (r_store r) (set_order (dr_ids req))
                           (dr_coordinates req) (ev_pubkey ev) (ev_created_at ev) in
  let '(st2, res) := store_insert st1 ev in
  let r2 := mkRelay st2 (r_fanout r) in
  Ret (match res with
       | IRDeleted => (r2, ok_reply ev false deleted_message)
       | IREphemeral | IRDuplicate => (published clock ev r2, ok_reply ev true [])
       | IRStored event _ =>
           (published clock event r2,
            ok_reply ev true (deleted_count_message (length (do_deleted_ids outcome))))
       end).

(** [process_event_message]: the relay and the reply, if any. *)
Definition process_event_message (clock : Clock) (text : str) (r : Relay)
    : panicky (Relay * option str) :=
  match msg_from_json text with
  | Ok (MEvent _ ev) =>
      if is_deletion_request ev then
        let! res := apply_deletion_request clock ev r in Ret (res.1, Some res.2)
      else
        let '(st1, res) := store_insert (r_store r) ev in
        let r1 := mkRelay st1 (r_fanout r) in
        Ret (match res with
             | IREphemeral => (published clock ev r1, Some (ok_reply ev true ephemeral_message))
             | IRDuplicate => (r1, Some (ok_reply ev true duplicate_message))
             | IRDeleted => (r1, Some (ok_reply ev false deleted_message))
             | IRStored event _ => (published clock event r1, Some (ok_reply ev true []))
             end)
  | Ok _ => Ret (r, None)
  | Err e => Ret (r, Some (msg_to_json (MNotification e)))
  end.
End Relay.

(** * Tombstones left by a deletion request *)

(** An id recorded while absent outlives fewer than [MAX_TOMBSTONES] later ones. *)
Lemma spec_insert_bound l id :
  (Z.of_nat (length l) <= MAX_TOMBSTONES)%Z ->
  (Z.of_nat (length (Spec.insert l id)) <= MAX_TOMBSTONES)%Z.
Proof.
  pose proof max_tombstones_pos. unfold Spec.insert. case_bool_decide; [done|].
  rewrite length_drop, length_app. cbn [length]. lia.
Qed.

Lemma spec_insert_recent l id x post pre :
  l = pre ++ x :: post -> (Z.of_nat (length l) <= MAX_TOMBSTONES)%Z ->
  (Z.of_nat (length post) + 1 < MAX_TOMBSTONES)%Z ->
  exists pre' post', Spec.insert l id = pre' ++ x :: post' /\ length post' <= S (length post).
Proof.
  intros -> Hl Hp. unfold Spec.insert. case_bool_decide; [by exists pre, post; split; [|lia]|].
  set (n := S (length (pre ++ x :: post)) - Z.to_nat MAX_TOMBSTONES).
  assert (n <= length pre) as Hn.
  { subst n. rewrite length_app in *. cbn [length] in *. lia. }
  exists (drop n pre), (post ++ [id]). rewrite <- app_assoc. cbn [app].
  rewrite drop_app_le by done. split; [done|]. rewrite length_app. cbn [length]. lia.
Qed.

Lemma spec_inserts_keep ids x l pre post :
  l = pre ++ x :: post -> (Z.of_nat (length l) <= MAX_TOMBSTONES)%Z ->
  (Z.of_nat (length post + length ids) < MAX_TOMBSTONES)%Z ->
  x ∈ foldl Spec.insert l ids.
Proof.
  revert l pre post. induction ids as [|id ids IH]; intros l pre post Hl Hb Hp; cbn [foldl].
  { subst l. set_solver. }
  cbn [length] in Hp.
  destruct (spec_insert_recent l id x post pre Hl Hb) as (pre' & post' & Hl' & Hp'); [lia|].
  eapply IH; [exact Hl'|by apply spec_insert_bound|lia].
Qed.

(** Every id of a batch of fresh ids that fits is remembered. *)
Lemma spec_inserts_all ids l x :
  x ∈ ids -> x ∉ l -> (Z.of_nat (length l) <= MAX_TOMBSTONES)%Z ->
  (Z.of_nat (length ids) <= MAX_TOMBSTONES)%Z -> x ∈ foldl Spec.insert l ids.
Proof.
  revert l. induction ids as [|id ids IH]; intros l Hx Hl Hb Hlen; [by apply elem_of_nil in Hx|].
  cbn [foldl length] in *. pose proof max_tombstones_pos.
  destruct (decide (x = id)) as [->|Hne].
  - unfold Spec.insert at 2. rewrite bool_decide_false by done.
    rewrite drop_app_le by lia. eapply (spec_inserts_keep ids id _ _ []); [done| |cbn; lia].
    rewrite length_app, length_drop. cbn [length]. lia.
  - apply elem_of_cons in Hx as [Hx|Hx]; [congruence|].
    apply IH; [done| |by apply spec_insert_bound|lia].
    intros [?|?]%spec_insert_only; congruence.
Qed.

Lemma spec_inserts_only ids l x : x ∈ foldl Spec.insert l ids -> x ∈ l \/ x ∈ ids.
Proof.
  revert l. induction ids as [|id ids IH]; intros l; cbn [foldl]; [by left|].
  intros [[->|?]%spec_insert_only|?]%IH; [right; left|by left|right; by right].
Qed.

Section Deletion.
Context `{HexCrate} (core_of : bytes -> Core).
Abbreviation wf := (wf_index core_of).
Implicit Types s : EventStore * DeletionOutcome.

(** The tombstones after a request are those before it and the reported ids. *)
Definition tombs_follow (t0 : list bytes) (s : EventStore * DeletionOutcome) : Prop :=
  wf (st_index s.1)
  /\ tombs_abs (tombstones (st_index s.1)) = foldl Spec.insert t0 (do_deleted_ids s.2).

Lemma tombs_follow_delete t0 s id :
  is_Some (by_id (st_index s.1) !! id) -> tombs_follow t0 s -> tombs_follow t0 (delete_recorded s id).
Proof.
  intros [e He] [Hwf Ht]. rewrite delete_recorded_eq. split; cbn [fst snd st_index with_index].
  { by apply wf_delete_by_id. }
  rewrite He. cbn [add_deleted do_deleted_ids]. rewrite foldl_app. cbn [foldl]. rewrite <- Ht.
  unfold delete_by_id. pose proof (internal_remove_tombstones (st_index s.1) id false) as Hr.
  destruct (internal_remove (st_index s.1) id false) as [ix r]. cbn [fst] in *.
  cbn [index_tombstone with_tombstones tombstones]. rewrite Hr.
  apply tombs_insert_spec, Hwf.
Qed.

Lemma coordinate_target_stored ix coord until id :
  id ∈ coordinate_targets ix coord until -> is_Some (by_id ix !! id).
Proof.
  unfold coordinate_targets. rewrite elem_of_List_filter. intros [_ Ht].
  destruct (by_id ix !! id); [by eexists|done].
Qed.

Lemma tombs_follow_apply st ids coords author until :
  wf (st_index st) ->
  tombs_follow (tombs_abs (tombstones (st_index st))) (apply_deletion st ids coords author until).
Proof.
  intros Hwf. unfold apply_deletion. set (t0 := tombs_abs _).
  apply (foldl_ind (tombs_follow t0)); [apply (foldl_ind (tombs_follow t0))|].
  - done.
  - intros s id _ Hs. unfold delete_id, index_get.
    destruct (by_id (st_index s.1) !! id) as [e|] eqn:He; [|done].
    case_bool_decide; [|done]. apply tombs_follow_delete; [by rewrite He|done].
  - intros s coord _ Hs. unfold delete_coordinate. case_bool_decide; [done|].
    destruct (coordinate_targets_unique (st_index s.1) coord until) as [Ht|[id Ht]];
      rewrite Ht; [done|]. cbn [foldl]. apply tombs_follow_delete; [|done].
    eapply coordinate_target_stored. rewrite Ht. left.
Qed.

(** At most one deletion per id and coordinate. *)
Lemma delete_recorded_count s id :
  length (do_deleted_ids (delete_recorded s id).2) <= S (length (do_deleted_ids s.2)).
Proof.
  rewrite delete_recorded_eq. cbn [snd].
  destruct (by_id (st_index s.1) !! id); cbn [add_deleted do_deleted_ids]; [|lia].
  rewrite length_app. cbn [length]. lia.
Qed.

Lemma delete_ids_count author ids s :
  length (do_deleted_ids (foldl (delete_id author) s ids).2)
  <= length (do_deleted_ids s.2) + length ids.
Proof.
  revert s. induction ids as [|id ids IH]; intros s; cbn [foldl length]; [lia|].
  etransitivity; [apply IH|]. unfold delete_id. pose proof (delete_recorded_count s id).
  case_match; [case_match|]; cbn; lia.
Qed.

Lemma delete_coords_count author until coords s :
  length (do_deleted_ids (foldl (delete_coordinate author until) s coords).2)
  <= length (do_deleted_ids s.2) + length coords.
Proof.
  revert s. induction coords as [|c coords IH]; intros s; cbn [foldl length]; [lia|].
  etransitivity; [apply IH|]. unfold delete_coordinate. case_bool_decide; [cbn; lia|].
  destruct (coordinate_targets_unique (st_index s.1) c until) as [Ht|[id Ht]]; rewrite Ht;
    [cbn; lia|]. cbn [foldl]. pose proof (delete_recorded_count s id). lia.
Qed.

Lemma apply_deletion_count st ids coords author until :
  length (do_deleted_ids (apply_deletion st ids coords author until).2)
  <= length ids + length coords.
Proof.
  unfold apply_deletion. etransitivity; [apply delete_coords_count|].
  pose proof (delete_ids_count author ids (st, outcome_default)). cbn in *. lia.
Qed.

(** The number of reported ids is the number of events that left. *)
Definition accounted (s : EventStore * DeletionOutcome) : nat :=
  size (by_id (st_index s.1)) + length (do_deleted_ids s.2).

Lemma delete_recorded_accounted s id : accounted (delete_recorded s id) = accounted s.
Proof.
  unfold accounted. rewrite delete_recorded_eq. cbn [fst snd st_index with_index].
  rewrite delete_by_id_by_id. destruct (by_id (st_index s.1) !! id) as [e|] eqn:He.
  - cbn [add_deleted do_deleted_ids]. rewrite length_app. cbn [length].
    rewrite map_size_delete_Some by by rewrite He.
    assert (size (by_id (st_index s.1)) <> 0); [|lia].
    intros Hz%map_size_empty_inv. by rewrite Hz, lookup_empty in He.
  - by rewrite fin_maps.delete_id by done.
Qed.

Lemma apply_deletion_accounted st ids coords author until :
  accounted (apply_deletion st ids coords author until) = size (by_id (st_index st)).
Proof.
  unfold apply_deletion. set (P := fun s => accounted s = size (by_id (st_index st))).
  apply (foldl_ind P); [apply (foldl_ind P)|]; unfold P.
  - unfold accounted. cbn. lia.
  - intros s id _ Hs. unfold Store.delete_id. case_match; [|done].
    case_match; [by rewrite delete_recorded_accounted|done].
  - intros s coord _ Hs. unfold delete_coordinate. case_bool_decide; [done|].
    destruct (coordinate_targets_unique (st_index s.1) coord until) as [Ht|[id Ht]];
      rewrite Ht; [done|]. cbn [foldl]. by rewrite delete_recorded_accounted.
Qed.

(** What a deletion request does to the index, with its tombstones. *)
Record deletion_left (ids : list bytes) (coords : list Coordinate) (author : bytes) (until : Z)
    (st st1 : EventStore) (o : DeletionOutcome) : Prop := {
  dl_wf : wf (st_index st1);
  dl_dead : abs_no_zombies (abs (st_index st1));
  dl_sub : forall id x, by_id (st_index st1) !! id = Some x -> by_id (st_index st) !! id = Some x;
  dl_exact : forall id x, by_id (st_index st) !! id = Some x ->
    by_id (st_index st1) !! id = None <-> due ids coords author until x;
  dl_gone : (Z.of_nat (length (do_deleted_ids o)) <= MAX_TOMBSTONES)%Z ->
    forall id, is_Some (by_id (st_index st) !! id) -> by_id (st_index st1) !! id = None ->
    id ∈ tombs_abs (tombstones (st_index st1));
  dl_tombs : forall id, id ∈ tombs_abs (tombstones (st_index st1)) ->
    id ∈ tombs_abs (tombstones (st_index st)) \/ is_Some (by_id (st_index st) !! id);
  dl_count : size (by_id (st_index st1)) + length (do_deleted_ids o) = size (by_id (st_index st));
}.

Lemma apply_deletion_left st ids coords author until :
  wf (st_index st) -> abs_no_zombies (abs (st_index st)) ->
  deletion_left ids coords author until st (apply_deletion st ids coords author until).1
    (apply_deletion st ids coords author until).2.
Proof.
  intros Hwf Hz.
  pose proof (deletion_inv_apply core_of st ids coords author until Hwf) as [Hwf' Hsub Hgone Hmine].
  pose proof (tombs_follow_apply st ids coords author until Hwf) as [_ Ht].
  pose proof (apply_deletion_accounted st ids coords author until) as Hacc.
  pose proof (fun id x => apply_deletion_exact core_of st ids coords author until id x Hwf) as Hexact.
  destruct (apply_deletion st ids coords author until) as [st1 o]. cbn [fst snd] in *.
  assert (forall id, id ∈ tombs_abs (tombstones (st_index st1)) ->
    id ∈ tombs_abs (tombstones (st_index st)) \/ id ∈ do_deleted_ids o) as Hdead.
  { intros id. rewrite Ht. apply spec_inserts_only. }
  split; [done| |done|done| | |done].
  - intros id [Hd|Hd]%Hdead; [|by apply Hmine]. cbn.
    destruct (by_id (st_index st1) !! id) as [x|] eqn:Hx; [|done].
    apply Hsub in Hx. specialize (Hz id Hd). cbn in Hz. congruence.
  - intros Hb id [x Hx] Hn. rewrite Ht. apply spec_inserts_all.
    + apply Hgone; [congruence|done].
    + intros Hd. specialize (Hz id Hd). cbn in Hz. congruence.
    + apply (to_cap _ (wf_tombs _ _ Hwf)).
    + done.
  - intros id [?|Hd]%Hdead; [by left|right]. destruct (Hmine id Hd) as (_ & y & -> & _). eauto.
Qed.
End Deletion.

(** The ids and coordinates of a request come from distinct tags. *)
Lemma deletion_request_size `{HexCrate} e req :
  deletion_request e = Ret req ->
  size (dr_ids req) + length (dr_coordinates req) <= length (ev_tags e).
Proof.
  unfold deletion_request.
  assert (forall tags r r', deletion_request_loop r tags = Ret r' ->
    size (dr_ids r') + length (dr_coordinates r')
    <= size (dr_ids r) + length (dr_coordinates r) + length tags) as Hgen.
  { induction tags as [|tag tags IH]; intros r r'; cbn [deletion_request_loop length].
    { intros [= <-]. lia. }
    destruct (deletion_request_tag r tag) as [r1|] eqn:Ht; [|done]. cbn [panicky_bind].
    intros Hr. apply IH in Hr.
    assert (size (dr_ids r1) + length (dr_coordinates r1)
      <= size (dr_ids r) + length (dr_coordinates r) + 1); [|lia].
    unfold deletion_request_tag in Ht. destruct (tag_value tag) as [v|]; [|injection Ht as <-; lia].
    case_bool_decide; [|case_bool_decide].
    - destruct (parse_hex_32_pub v) as [[id|]|]; cbn in Ht; simplify_eq; [|lia]. cbn.
      pose proof (size_union_alt {[id]} (dr_ids r)) as Hu. rewrite size_singleton in Hu.
      pose proof (subseteq_size (dr_ids r ∖ {[id]}) (dr_ids r) ltac:(set_solver)). lia.
    - destruct (parse_coordinate v) as [[c|]|]; cbn in Ht; simplify_eq; [|lia]. cbn.
      rewrite length_app. cbn. lia.
    - injection Ht as <-. lia. }
  intros Hr. apply Hgen in Hr. cbn in Hr. rewrite size_empty in Hr. lia.
Qed.

(** * Specification *)

Section Specification.
Context `{HexCrate, MessageJson, Channel}.

(** What an accepted event that is not a deletion request does to the abstract
    index and to the connections, and the reply: events are offered to every
    registered connection exactly when they are new or ephemeral. *)
Definition spec_event (clock : Clock) (s : Abstract.state) (fo : Fanout) (e : Event)
    : Abstract.state * Fanout * str :=
  let everywhere := broadcast_all clock (broadcast_new e) fo in
  if is_ephemeral e then (s, everywhere, ok_reply e true ephemeral_message) else
  let '(s', outcome) := Abstract.insert s e in
  match outcome with
  | Inserted _ => (s', everywhere, ok_reply e true [])
  | Duplicate | LostRace => (s', fo, ok_reply e true duplicate_message)
  | Deleted => (s', fo, ok_reply e false deleted_message)
  end.

Definition relay_abs (r : Relay) : Abstract.state := abs (st_index (r_store r)).

Record relay_ok (core_of : bytes -> Core) (r : Relay) : Prop := {
  ro_wf : wf_index core_of (st_index (r_store r));
  ro_dead : abs_no_zombies (relay_abs r);
  ro_fanout : fanout_ok (r_fanout r);
}.
End Specification.

(** * Lemmas: the handlers *)

Section Handlers.
Context `{HexCrate, MessageJson, Channel} (core_of : bytes -> Core).
Variable set_order : gset bytes -> list bytes.
Hypothesis order_perm : forall s, set_order s ≡ₚ elements s.
Abbreviation process := (process_event_message set_order).

(** Inserting into the store, seen through the abstract index. *)
Lemma store_insert_abs st e :
  wf_index core_of (st_index st) -> genuine core_of e -> is_ephemeral e = false ->
  let '(st', res) := store_insert st e in
  let '(s', out) := Abstract.insert (abs (st_index st)) e in
  wf_index core_of (st_index st') /\ abs (st_index st') = s'
  /\ res = match out with
           | Inserted replaced => IRStored e (option_list replaced)
           | Duplicate | LostRace => IRDuplicate
           | Deleted => IRDeleted
           end.
Proof.
  intros Hwf He Heph. unfold store_insert. rewrite Heph.
  pose proof (insert_refines core_of (st_index st) e Hwf He) as Hr.
  pose proof (wf_index_insert core_of (st_index st) e Hwf He) as Hwf'.
  destruct (index_insert (st_index st) e) as [ix out]. cbn [fst snd] in *. rewrite <- Hr.
  by destruct out.
Qed.

Lemma abstract_insert_dead s e : abs_no_zombies s -> abs_no_zombies (Abstract.insert s e).1.
Proof.
  intros Hs. pose proof (abs_no_zombies_exec s (OpInsert e) Hs) as Hz. cbn in Hz.
  by destruct (Abstract.insert s e).
Qed.

(** [process_event_message] on an accepted event that is not a deletion request. *)
Lemma process_plain clock text sub_id e r :
  msg_from_json text = Ok (MEvent sub_id e) -> is_deletion_request e = false ->
  genuine core_of e -> relay_ok core_of r ->
  exists r' reply, process clock text r = Ret (r', Some reply) /\ relay_ok core_of r'
    /\ (relay_abs r', r_fanout r', reply) = spec_event clock (relay_abs r) (r_fanout r) e.
Proof.
  intros Hm Hd He [Hwf Hz Hfo]. unfold process_event_message, spec_event. rewrite Hm, Hd.
  pose proof (broadcast_ok clock (broadcast_new e) _ Hfo) as Hb.
  destruct (is_ephemeral e) eqn:Heph.
  - unfold store_insert. rewrite Heph. do 2 eexists. split; [done|].
    unfold published. cbn [r_store r_fanout]. rewrite publish_broadcasts by done.
    split; [by split|done].
  - pose proof (store_insert_abs (r_store r) e Hwf He Heph) as Hi.
    pose proof (abstract_insert_dead (relay_abs r) e Hz) as Hz'. unfold relay_abs in *.
    destruct (store_insert (r_store r) e) as [st' res].
    destruct (Abstract.insert (abs (st_index (r_store r))) e) as [s' out].
    destruct Hi as (Hwf' & <- & ->). cbn [fst] in *.
    destruct out; do 2 eexists; (split; [done|]); unfold published; cbn [r_store r_fanout];
      rewrite ?publish_broadcasts by done; (split; [by split|done]).
Qed.

(** A fresh event that is not replaceable is inserted. *)
Lemma abstract_insert_fresh s e :
  is_replaceable e = false -> ev_id e ∉ Abstract.dead s -> Abstract.events s !! ev_id e = None ->
  Abstract.insert s e
  = (Abstract.mkState (<[ev_id e := e]> (Abstract.events s)) (Abstract.dead s), Inserted None).
Proof.
  intros Hr Hd Hn. unfold Abstract.insert, Spec.contains. rewrite bool_decide_false by done.
  unfold Abstract.slot_of. by rewrite Hr, Hn.
Qed.

Lemma deletion_kind e :
  is_deletion_request e = true -> is_ephemeral e = false /\ is_replaceable e = false.
Proof.
  unfold is_deletion_request, is_ephemeral, is_replaceable, KIND_DELETION.
  intros ->%Z.eqb_eq. done.
Qed.

(** What a request names: events of its own author, by an [e] tag with their id, or
    by an [a] tag with the author's coordinate of a replaceable event of which they
    are a version not newer than the request. *)
Definition requested (e x : Event) : Prop :=
  ev_pubkey x = ev_pubkey e
  /\ (ev_id x ∈ e_tags e
      \/ exists coord tag, tag ∈ ev_tags e /\ tag_coordinate coord tag
           /\ co_pubkey coord = ev_pubkey e /\ named_version (ev_created_at e) coord x).

(** What a deletion request does to the abstract index: the stored events that it
    names are gone and tombstoned, all others are as they were, and the request's
    own event is added. *)
Record deletion_effect (e : Event) (s s' : Abstract.state) (n : nat) : Prop := {
  de_request : Abstract.events s' !! ev_id e = Some e;
  de_only : forall id x, Abstract.events s' !! id = Some x ->
    (id = ev_id e /\ x = e) \/ Abstract.events s !! id = Some x;
  de_exact : forall id x, Abstract.events s !! id = Some x ->
    Abstract.events s' !! id = None <-> requested e x;
  de_kept : forall id x, Abstract.events s !! id = Some x -> ~ requested e x ->
    Abstract.events s' !! id = Some x;
  de_gone : (Z.of_nat n <= MAX_TOMBSTONES)%Z -> forall id, is_Some (Abstract.events s !! id) ->
    Abstract.events s' !! id = None -> id ∈ Abstract.dead s';
  de_count : size (Abstract.events s') + n = S (size (Abstract.events s));
}.

(** Adding the request to what [apply_deletion] leaves. *)
Lemma deletion_left_effect e ids coords st st1 o :
  deletion_left core_of ids coords (ev_pubkey e) (ev_created_at e) st st1 o ->
  (forall x, due ids coords (ev_pubkey e) (ev_created_at e) x <-> requested e x) -> by_id (st_index st) !! ev_id e = None ->
  ev_id e ∉ tombs_abs (tombstones (st_index st)) ->
  let s' := Abstract.mkState (<[ev_id e := e]> (by_id (st_index st1)))
              (tombs_abs (tombstones (st_index st1))) in
  abs_no_zombies s' /\ deletion_effect e (abs (st_index st)) s' (length (do_deleted_ids o)).
Proof.
  intros [Lwf Lz Lsub Lexact Lgone Ltom Lcount] Hdue Hnew Hlive s'.
  assert (by_id (st_index st1) !! ev_id e = None) as Hnew1.
  { destruct (by_id (st_index st1) !! ev_id e) as [x|] eqn:Hx; [|done]. apply Lsub in Hx.
    congruence. }
  assert (forall id, is_Some (by_id (st_index st) !! id) -> id <> ev_id e) as Hne.
  { intros id [x Hx] ->. congruence. }
  assert (forall id x, by_id (st_index st) !! id = Some x ->
    <[ev_id e := e]> (by_id (st_index st1)) !! id = by_id (st_index st1) !! id) as Hs'.
  { intros id x Hx. rewrite lookup_insert_ne; [done|]. intros ?. eapply (Hne id); [by eexists|done]. }
  split.
  - intros id Hd. cbn in *. rewrite lookup_insert_ne; [by apply Lz|].
    intros <-. destruct (Ltom _ Hd) as [?|[x Hx]]; [done|congruence].
  - split; cbn.
    + apply lookup_insert_eq.
    + intros id x [[<- <-]|[_ Hx]]%lookup_insert_Some; [by left|right; by apply Lsub].
    + intros id x Hx. rewrite (Hs' id x Hx), <- Hdue. by apply Lexact.
    + intros id x Hx Hr. rewrite (Hs' id x Hx).
      destruct (by_id (st_index st1) !! id) as [y|] eqn:Hy; [by rewrite <- (Lsub _ _ Hy)|].
      destruct Hr. by apply Hdue, (Lexact id x Hx).
    + intros Hb id Hs Hn. apply lookup_insert_None in Hn as [Hn _]. by apply Lgone.
    + rewrite map_size_insert_None by done. lia.
Qed.

Lemma apply_deletion_request_fresh `{!HexLaws} clock e r :
  is_deletion_request e = true -> genuine core_of e -> relay_ok core_of r ->
  Abstract.events (relay_abs r) !! ev_id e = None -> ev_id e ∉ Abstract.dead (relay_abs r) ->
  exists r' n, apply_deletion_request set_order clock e r
      = Ret (r', ok_reply e true (deleted_count_message n))
    /\ relay_ok core_of r' /\ deletion_effect e (relay_abs r) (relay_abs r') n
    /\ r_fanout r' = broadcast_all clock (broadcast_new e) (r_fanout r)
    /\ n <= length (ev_tags e).
Proof.
  intros Hk He [Hwf Hz Hfo] Hnew Hlive. unfold apply_deletion_request.
  unfold store_contains, index_get. rewrite bool_decide_false
    by (unfold relay_abs in Hnew; cbn in Hnew; rewrite Hnew; by intros []).
  unfold is_tombstoned. rewrite tombs_contains_spec by apply Hwf.
  unfold Spec.contains. rewrite bool_decide_false by done.
  destruct (deletion_request_loop_spec (ev_tags e) (mkDeletionRequest ∅ []))
    as (req & Hreq & Hids & Hcos). fold (deletion_request e) in Hreq.
  pose proof (deletion_request_size e req Hreq) as Hsize. rewrite Hreq. cbn [panicky_bind].
  set (ids := set_order (dr_ids req)).
  assert (length ids = size (dr_ids req)) as Hlen
    by (unfold ids, size, set_size; cbn; by rewrite order_perm).
  assert (forall x, due ids (dr_coordinates req) (ev_pubkey e) (ev_created_at e) x <-> requested e x) as Hdue.
  { intros x. unfold due, requested.
    assert (ev_id x ∈ ids <-> ev_id x ∈ e_tags e) as ->.
    { unfold ids. rewrite order_perm, elem_of_elements, Hids. cbn [dr_ids]. set_solver. }
    setoid_rewrite Hcos. cbn [dr_coordinates]. setoid_rewrite elem_of_nil. naive_solver. }
  pose proof (apply_deletion_left core_of (r_store r) ids (dr_coordinates req) (ev_pubkey e)
    (ev_created_at e) Hwf Hz) as Hleft.
  pose proof (apply_deletion_count core_of (r_store r) ids (dr_coordinates req) (ev_pubkey e)
    (ev_created_at e)) as Hcount.
  destruct (apply_deletion (r_store r) ids (dr_coordinates req) (ev_pubkey e) (ev_created_at e))
    as [st1 o]. cbn [fst snd] in Hleft, Hcount.
  assert (by_id (st_index st1) !! ev_id e = None) as Hnew1.
  { destruct (by_id (st_index st1) !! ev_id e) as [x|] eqn:Hx; [|done].
    apply (dl_sub _ _ _ _ _ _ _ _ Hleft) in Hx. unfold relay_abs in Hnew. cbn in Hnew. congruence. }
  assert (ev_id e ∉ tombs_abs (tombstones (st_index st1))) as Hlive1.
  { intros [?|[x Hx]]%(dl_tombs _ _ _ _ _ _ _ _ Hleft); [done|].
    unfold relay_abs in Hnew. cbn in Hnew. congruence. }
  destruct (deletion_left_effect e ids _ _ _ _ Hleft Hdue Hnew Hlive) as [Hz2 Heff].
  destruct (deletion_kind e Hk) as [Heph Hrep].
  pose proof (store_insert_abs st1 e (dl_wf _ _ _ _ _ _ _ _ Hleft) He Heph) as Hi.
  rewrite abstract_insert_fresh in Hi by done.
  destruct (store_insert st1 e) as [st2 res]. destruct Hi as (Hwf2 & Habs2 & ->).
  cbn [option_list]. exists (published clock e (mkRelay st2 (r_fanout r))), (length (do_deleted_ids o)).
  split; [done|]. unfold published, relay_abs. cbn [r_store r_fanout].
  rewrite publish_broadcasts, Habs2 by done. split; [|split_and!; [done|done|lia]].
  split; cbn [r_store r_fanout]; [done| |by apply broadcast_ok].
  unfold relay_abs. cbn [r_store]. by rewrite Habs2.
Qed.
End Handlers.

(** * Properties *)

Section Properties.
Context `{HexLaws, MessageJsonLaws, Channel} (core_of : bytes -> Core).
Variable set_order : gset bytes -> list bytes.
Hypothesis order_perm : forall s, set_order s ≡ₚ elements s.
(** Ids determine contents: the collision resistance of SHA-256. *)
Hypothesis collision_free : forall raw e, from_json raw = Ok e -> genuine core_of e.
Abbreviation process := (process_event_message set_order).

Lemma event_genuine text sub_id e :
  msg_from_json text = Ok (MEvent sub_id e) -> genuine core_of e.
Proof. intros (_ & b & raw & a & _ & Hr)%event_message_slice. by eapply collision_free. Qed.

(** A deletion request that is stored or tombstoned changes nothing. *)
Lemma apply_deletion_request_known clock e r :
  relay_ok core_of r ->
  (is_Some (Abstract.events (relay_abs r) !! ev_id e) ->
   apply_deletion_request set_order clock e r = Ret (r, ok_reply e true duplicate_message))
  /\ (ev_id e ∈ Abstract.dead (relay_abs r) ->
      apply_deletion_request set_order clock e r = Ret (r, ok_reply e false deleted_message)).
Proof.
  intros [Hwf Hz _]. unfold apply_deletion_request, store_contains, index_get, is_tombstoned.
  rewrite tombs_contains_spec by apply Hwf. unfold Spec.contains. split.
  - intros Hs. by rewrite bool_decide_true.
  - intros Hd. specialize (Hz _ Hd). unfold relay_abs in *. cbn in *.
    rewrite bool_decide_false by (rewrite Hz; by intros []). by rewrite bool_decide_true.
Qed.

(** Every frame is processed without a panic, and keeps the invariants. *)
Lemma process_total clock text r :
  relay_ok core_of r ->
  exists r' o, process clock text r = Ret (r', o) /\ relay_ok core_of r'
    /\ ((exists sub_id e, msg_from_json text = Ok (MEvent sub_id e)) -> o <> None).
Proof.
  intros Hok. destruct (msg_from_json text) as [m|err] eqn:Hm.
  2: { unfold process_event_message. rewrite Hm. do 2 eexists. split; [done|]. by split. }
  destruct m as [sub_id e|id fs|id|id|msg|id acc msg|id msg];
    try by (unfold process_event_message; rewrite Hm; do 2 eexists; split; [done|]; split;
            [done|]; intros (? & ? & [=])).
  pose proof (event_genuine _ _ _ Hm) as He. destruct (is_deletion_request e) eqn:Hd.
  2: { destruct (process_plain core_of set_order clock text sub_id e r Hm Hd He Hok)
         as (r' & reply & -> & Hok' & _). do 2 eexists. split; [done|]. by split. }
  unfold process_event_message. rewrite Hm, Hd.
  destruct (apply_deletion_request_known clock e r Hok) as [Hdup Hdel].
  destruct (Abstract.events (relay_abs r) !! ev_id e) as [x|] eqn:Hx.
  { rewrite Hdup by eauto. do 2 eexists. split; [done|]. by split. }
  destruct (decide (ev_id e ∈ Abstract.dead (relay_abs r))) as [Hin|Hout].
  { rewrite Hdel by done. do 2 eexists. split; [done|]. by split. }
  destruct (apply_deletion_request_fresh core_of set_order order_perm clock e r)
    as (r' & n & -> & Hok' & _); [done..|]. do 2 eexists. split; [done|]. by split.
Qed.

(** C37: every EVENT frame is answered: on any frame [process_event_message] returns
    (no parser, hex decoder or array copy panics) and keeps the invariants of the
    store and of the live router; a frame the connection loop dispatches as EVENT
    always gets a reply; and one that does not parse or whose event is not
    authentic changes nothing and gets a NOTICE carrying the error. *)
Theorem every_event_answered clock text r :
  relay_ok core_of r ->
  exists r' o, process clock text r = Ret (r', o) /\ relay_ok core_of r'
    /\ (message_type text = Some (lit "EVENT") -> o <> None)
    /\ (forall err, msg_from_json text = Err err ->
          r' = r /\ o = Some (msg_to_json (MNotification err))).
Proof.
  intros Hok. destruct (process_total clock text r Hok) as (r' & o & Hp & Hok' & Ho).
  exists r', o. split_and!; [done|done| |].
  - intros Hty. destruct (msg_from_json text) as [m|err] eqn:Hm.
    + pose proof (message_type_of text m Hm) as Ht. rewrite Hty in Ht.
      destruct m as [sub_id e|id fs|id|id|msg|id acc msg|id msg]; try discriminate Ht.
      apply Ho. by exists sub_id, e.
    + unfold process_event_message in Hp. rewrite Hm in Hp. by injection Hp as <- <-.
  - intros err Hm. unfold process_event_message in Hp. rewrite Hm in Hp.
    by injection Hp as <- <-.
Qed.

(** C8: accepted events that are not deletion requests, end to end: an authentic one
    acts on the relay as the specification says: the abstract index takes
    it in (or answers duplicate, superseded or deleted), every registered
    connection is offered it exactly when it is new or ephemeral, the reply says
    which; and subscribers are sent the very text the client sent. (Deletion
    requests: [deletion_end_to_end].) *)
Theorem accepted_event_contract clock text sub_id e r :
  relay_ok core_of r -> msg_from_json text = Ok (MEvent sub_id e) ->
  is_deletion_request e = false -> forallb scalar text = true ->
  exists r' reply, process clock text r = Ret (r', Some reply) /\ relay_ok core_of r'
    /\ (relay_abs r', r_fanout r', reply) = spec_event clock (relay_abs r) (r_fanout r) e
    /\ exists before after, text = before ++ be_json (broadcast_new e) ++ after
         /\ from_json (as_bytes (be_json (broadcast_new e))) = Ok e.
Proof.
  intros Hok Hm Hd Hs. pose proof (event_genuine _ _ _ Hm) as He.
  destruct (process_plain core_of set_order clock text sub_id e r Hm Hd He Hok)
    as (r' & reply & Hp & Hok' & Hspec).
  exists r', reply. split_and!; [done|done|done|].
  destruct (event_message_slice text sub_id e Hm) as (_ & before & raw & after & -> & Hr).
  assert (ev_raw e = as_bytes raw) as Hraw
    by (apply from_json_inv in Hr as (_ & _ & Hu & _); by apply from_json_unchecked_raw in Hu).
  exists before, after. cbn [broadcast_new be_json]. rewrite Hraw, from_utf8_lossy_as_bytes; [done|].
  rewrite !forallb_app in Hs. apply andb_true_iff in Hs as [_ [Hs _]%andb_true_iff]. done.
Qed.

End Properties.

(** * Filters of a request *)

Lemma length_ztake {A} n (l : list A) : (Z.of_nat (length (ztake n l)) <= Z.max 0 n)%Z.
Proof.
  revert n. induction l as [|x l IH]; intros n; cbn [ztake length]; [lia|].
  destruct (Z.leb_spec n 0); cbn [length]; [lia|]. specialize (IH (n - 1)%Z). lia.
Qed.

(** A client cannot ask for more than the configured number of events: after
    [prepare_filters] every filter carries a limit of at most [max_limit], its
    answer from the store has at most that many events, and the preparation
    changes neither what the filter matches live nor, when it asked for no more
    than [max_limit], its limit. *)
Theorem prepared_filters_bounded `{HexCrate} filters max_limit st f l :
  (0 <= max_limit)%Z -> f ∈ prepare_filters filters max_limit ->
  query_filter st f = Ret l ->
  (Z.of_nat (length l) <= max_limit)%Z
  /\ exists f0, f0 ∈ filters /\ (forall e, matches_event f e = matches_event f0 e)
       /\ f_limit f = Some (Z.min (default max_limit (f_limit f0)) max_limit).
Proof.
  intros Hmax (f0 & -> & Hf0)%list_elem_of_fmap Hq.
  assert (f_limit (prepare_filter max_limit f0)
    = Some (Z.min (default max_limit (f_limit f0)) max_limit)) as Hlim.
  { cbn. f_equal. destruct (f_limit f0); cbn; lia. }
  split.
  - unfold query_filter in Hq. destruct (candidates st (prepare_filter max_limit f0)); [|done].
    cbn [panicky_bind] in Hq. rewrite Hlim in Hq. injection Hq as <-.
    etransitivity; [apply length_ztake|]. lia.
  - exists f0. split_and!; [done| |done]. intros e. done.
Qed.

(** * Witnesses *)

Definition sample_core : bytes -> Core := core_table [sample_event; deletion_event].

Lemma sample_collision_free raw e : from_json raw = Ok e -> genuine sample_core e.
Proof.
  intros Hr. assert (raw = sample_json \/ raw = deletion_json) as [->| ->].
  { unfold from_json, serde_from_slice, ref_crates in Hr.
    case_bool_decide; [by left|]. case_bool_decide; [by right|]. discriminate. }
  - rewrite sample_parses in Hr. injection Hr as <-. vm_compute. reflexivity.
  - rewrite deletion_parses in Hr. injection Hr as <-. vm_compute. reflexivity.
Qed.

(** An empty store and one connection subscribed to text notes. *)
Definition note_fanout : Fanout :=
  set_sub 1 (lit "a") [kind_filter [1%Z]] (register [] 0 fanout_new).1.
Definition quiet_relay : Relay := mkRelay (with_index index_new small_store) note_fanout.
Definition noon : Clock := fun _ _ => 0%Z.
Definition deletion_frame : str := array_text [quoted (lit "EVENT"); lit "{delete}"].

Lemma quiet_relay_ok : relay_ok sample_core quiet_relay.
Proof.
  split; cbn.
  - apply wf_index_new.
  - intros id Hid. by apply elem_of_nil in Hid.
  - apply set_sub_ok, register_ok, fanout_ok_new.
Qed.

Lemma deletion_frame_parses : msg_from_json deletion_frame = Ok (MEvent None deletion_event).
Proof. vm_compute. reflexivity. Qed.

Lemma every_event_answered_witness :
  exists r' o, process_event_message elements noon sample_frame quiet_relay = Ret (r', o)
    /\ relay_ok sample_core r'.
Proof.
  destruct (every_event_answered sample_core elements (fun s => Permutation_refl _)
    sample_collision_free noon sample_frame quiet_relay quiet_relay_ok) as (r' & o & Hp & Hok & _).
  exact (ex_intro _ r' (ex_intro _ o (conj Hp Hok))).
Defined.

Lemma accepted_event_contract_witness :
  exists r' reply,
    process_event_message elements noon sample_frame quiet_relay = Ret (r', Some reply)
    /\ (relay_abs r', r_fanout r', reply)
       = spec_event noon (relay_abs quiet_relay) (r_fanout quiet_relay) sample_event.
Proof.
  destruct (accepted_event_contract sample_core elements sample_collision_free noon sample_frame
    None sample_event quiet_relay quiet_relay_ok sample_frame_parses eq_refl eq_refl)
    as (r' & reply & Hp & _ & Hs & _).
  exact (ex_intro _ r' (ex_intro _ reply (conj Hp Hs))).
Defined.

(** The relay after the sample event. *)
Definition noted_relay : Relay :=
  match process_event_message elements noon sample_frame quiet_relay with
  | Ret (r, _) => r
  | Panic => quiet_relay
  end.

Lemma noted_relay_ok : relay_ok sample_core noted_relay.
Proof.
  unfold noted_relay.
  destruct (process_total sample_core elements (fun s => Permutation_refl _)
    sample_collision_free noon sample_frame quiet_relay quiet_relay_ok) as (r' & o & -> & Hok & _).
  exact Hok.
Qed.


(** The sample note is really deleted, and refused afterwards. *)
Example deletion_run :
  match process_event_message elements noon deletion_frame noted_relay with
  | Ret (r', Some reply) =>
      bool_decide (is_Some (by_id (st_index (r_store noted_relay)) !! key32 1)) = true
      /\ bool_decide (by_id (st_index (r_store r')) !! key32 1 = None) = true
      /\ reply = ok_reply deletion_event true (lit "deleted 1 event(s)")
      /\ match process_event_message elements noon sample_frame r' with
         | Ret (_, Some again) => again = ok_reply sample_event false deleted_message
         | _ => False
         end
  | _ => False
  end.
Proof. vm_compute. split_and!; reflexivity. Qed.

Lemma prepared_filters_bounded_witness :
  exists l, query_filter three_store (prepare_filter 2 (kind_filter [1%Z])) = Ret l
    /\ (Z.of_nat (length l) <= 2)%Z.
Proof.
  destruct (query_filter three_store (prepare_filter 2 (kind_filter [1%Z]))) as [l|] eqn:Hq;
    [|vm_compute in Hq; discriminate].
  exact (ex_intro _ l (conj eq_refl (proj1 (prepared_filters_bounded [kind_filter [1%Z]] 2
    three_store _ l ltac:(lia) ltac:(left) Hq)))).
Defined.
