(* ===== verification/Node.v ===== *)
(** The processing of events across components and threads ([src/src/relay.rs],
    [src/src/store/mod.rs], [src/src/store/index.rs], [src/src/fanout.rs]): from the
    call of [EventStore::insert] to the reply, with the index at the grain of its
    shared-memory accesses ([Threads.v]) and the router at the grain of its critical
    sections ([Router.v]).

    A node is the shared index with the threads inside it, the log, the router with
    the tasks of the connections and the publishing threads, and one task per call:
    an EVENT being processed, the eviction of one event, the deletion of one event
    for a NIP-09 request. A task enters the index, appends its records to the log
    and publishes, each as its own step, and everything else may happen in between.
    A deletion request first asks whether it is held or has itself been deleted; its
    reference walk is the deletions it makes, here not ordered with respect to the
    request's own insertion. *)
From S2P Require Import Prelude Text Collections Event Reference Deletion Tombstones Index IndexInv Wal Store Subscription Fanout Message Relay Router RouterProps Threads ThreadsInv ThreadsProps.
Open Scope memlay_scope.

(** * Tasks *)

(** Where [process_event_message] ([apply_deletion_request]), [remove] or
    [delete_recorded] is: in the index ([TInsert], [TIndex]); before the insert
    record, or the delete record of what the event replaced; before [publish]; in
    it, on thread [j] of the router; with the reply ready, after publication [j] or
    none; before the tombstone record; before [contains] and before [is_tombstoned]
    of a deletion request; with the reply ready that one of them gave. *)
Inductive task :=
| TInsert (e : Event)
| TLog (e : Event) (replaced : option Event)
| TLogDelete (e old : Event)
| TAnnounce (e : Event) (res : InsertResult)
| TAnnouncing (e : Event) (res : InsertResult) (j : nat)
| TAnswered (e : Event) (res : InsertResult) (publication : option nat)
| TRecord (id : bytes)
| TIndex
| TContains (e : Event)
| TTombstoned (e : Event)
| TRefused (e : Event) (res : InsertResult).

(** Whether the event is published ([process_event_message],
    [apply_deletion_request]). *)
Definition announces (e : Event) (res : InsertResult) : bool :=
  match res with
  | IREphemeral | IRStored _ _ => true
  | IRDuplicate => is_deletion_request e
  | IRDeleted => false
  end.

(** The publication of a task, once it has begun. *)
Definition published_as (t : task) : option nat :=
  match t with TAnnouncing _ _ j => Some j | TAnswered _ _ pub => pub | _ => None end.

(** Back from [EventStore::insert]. *)
Definition inserted_as (e : Event) (res : InsertResult) : task :=
  if announces e res then TAnnounce e res else TAnswered e res None.

(** [EventStore::insert] is called. *)
Definition enter_insert (e : Event) : task :=
  if is_ephemeral e then inserted_as e IREphemeral else TInsert e.

Definition start_task (c : call) : task :=
  match c with
  | CInsert e => if is_deletion_request e then TContains e else enter_insert e
  | CRemove _ => TIndex
  | CDelete id => TRecord id
  end.

Section Node.
Context `{HexCrate, Channel}.

Record Node := mkNode {
  nd_index : World;
  nd_wal : option Wal;
  nd_router : Router;
  nd_tasks : list task;
}.

Definition node_start (ix : EventIndex) (wal : option Wal) (calls : list call) : Node :=
  mkNode (starting ix calls) wal router_new (start_task <$> calls).

(** * Steps *)

(** A record appended to the log, if the store has one. *)
Definition log_op (op : WalOp) (wal : option Wal) : option Wal := (fun w => append w op) <$> wal.

(** [InsertOutcome] to [InsertResult], with the records to write. *)
Definition after_outcome (e : Event) (o : InsertOutcome) : task :=
  match o with
  | Duplicate | LostRace => inserted_as e IRDuplicate
  | Deleted => inserted_as e IRDeleted
  | Inserted replaced => TLog e replaced
  end.

(** One step of task [k] outside the index and the router. *)
Definition task_step (n : Node) (k : nat) (clock : Clock) (t : task)
    : option (option Wal * Router * task) :=
  let wal := nd_wal n in
  let router := nd_router n in
  match t with
  | TInsert e =>
      match w_threads (nd_index n) !! k with
      | Some (Done (AInsert o)) => Some (wal, router, after_outcome e o)
      | _ => None
      end
  | TLog e replaced =>
      Some (log_op (WInsert (ev_raw e)) wal, router,
            match replaced with
            | Some old => TLogDelete e old
            | None => inserted_as e (IRStored e [])
            end)
  | TLogDelete e old =>
      Some (log_op (WDelete (ev_id old)) wal, router, inserted_as e (IRStored e [old]))
  | TAnnounce e res =>
      router' ← router_step router (MPublish clock (broadcast_new e));
      Some (wal, router', TAnnouncing e res (length (rt_threads router)))
  | TAnnouncing e res j =>
      match rt_threads router !! j with
      | Some (Publisher _ _ Published) => Some (wal, router, TAnswered e res (Some j))
      | _ => None
      end
  | TRecord id => Some (log_op (WTombstone id) wal, router, TIndex)
  | TContains e =>
      Some (wal, router,
            if bool_decide (is_Some (index_get (w_index (nd_index n)) (ev_id e)))
            then TRefused e IRDuplicate else TTombstoned e)
  | TTombstoned e =>
      Some (wal, router,
            if is_tombstoned (w_index (nd_index n)) (ev_id e)
            then TRefused e IRDeleted else enter_insert e)
  | TAnswered _ _ _ | TIndex | TRefused _ _ => None
  end.

(** What can happen: the thread of a task that is in the index takes an access, a
    task takes a step, the router moves (a connection's task or a publishing thread
    steps, a client connects, a connection turns to something new, a channel
    changes); only tasks publish. *)
Inductive node_move :=
| NAccess (k : nat)
| NTask (k : nat) (clock : Clock)
| NRouter (m : move).

Definition in_index (t : task) : bool := match t with TInsert _ | TIndex => true | _ => false end.

Definition node_step (n : Node) (m : node_move) : option Node :=
  match m with
  | NAccess k =>
      t ← nd_tasks n !! k;
      if in_index t
      then w ← Threads.run_thread (nd_index n) k;
           Some (mkNode w (nd_wal n) (nd_router n) (nd_tasks n))
      else None
  | NTask k clock =>
      t ← nd_tasks n !! k;
      '(wal, router, t') ← task_step n k clock t;
      Some (mkNode (nd_index n) wal router (<[k := t']> (nd_tasks n)))
  | NRouter (MPublish _ _) => None
  | NRouter m =>
      router ← router_step (nd_router n) m;
      Some (mkNode (nd_index n) (nd_wal n) router (nd_tasks n))
  end.

Definition run_node (n : Node) (ms : list node_move) : option Node :=
  foldl (fun n m => n ← n; node_step n m) (Some n) ms.

Lemma run_node_app n ms1 ms2 n' :
  run_node n (ms1 ++ ms2) = Some n' <-> exists n1, run_node n ms1 = Some n1 /\ run_node n1 ms2 = Some n'.
Proof.
  unfold run_node. rewrite foldl_app. destruct (foldl _ (Some n) ms1) as [n1|].
  - split; [by exists n1|]. by intros (n2 & [= <-] & ?).
  - split; [|by intros (? & ? & _)]. clear. intros Hf. exfalso. revert Hf. by induction ms2.
Qed.

(** An invariant of the steps is one of the runs. *)
Lemma run_node_ind (P : Node -> Prop) n ms n' :
  P n -> (forall n m n', m ∈ ms -> P n -> node_step n m = Some n' -> P n') ->
  run_node n ms = Some n' -> P n'.
Proof.
  intros Hn Hstep. revert n'. induction ms as [|m ms IH] using rev_ind; intros n' Hr.
  { by injection Hr as <-. }
  apply run_node_app in Hr as (n1 & H1 & H2). cbn in H2.
  eapply Hstep; [by apply elem_of_app; right; left| |exact H2].
  eapply IH; [|exact H1]. intros n2 m2 n3 Hm. apply Hstep, elem_of_app. by left.
Qed.

(** ** A step of the node in each component *)

Lemma node_step_index n m n' :
  node_step n m = Some n' -> nd_index n' = nd_index n \/ cstep (nd_index n) (nd_index n').
Proof.
  intros Hs. destruct m as [k|k clock|m]; cbn [node_step] in Hs.
  - apply bind_Some in Hs as (t & _ & Hs). destruct (in_index t); [|done].
    apply bind_Some in Hs as (w & Hw & [= <-]). right. by exists k.
  - left. apply bind_Some in Hs as (t & _ & Hs). by apply bind_Some in Hs as ([[wal r] t'] & _ & [= <-]).
  - left. destruct m; [..|done|]; by apply bind_Some in Hs as (rt & _ & [= <-]).
Qed.

(** The router's move in a step of the node. *)
Definition router_move (m : node_move) (rm : move) : Prop :=
  m = NRouter rm \/ exists k clock e, m = NTask k clock /\ rm = MPublish clock (broadcast_new e).

Lemma task_step_router n k clock t wal r t' :
  task_step n k clock t = Some (wal, r, t') ->
  r = nd_router n /\ published_as t' = published_as t
  \/ exists e res, t = TAnnounce e res /\ t' = TAnnouncing e res (length (rt_threads (nd_router n)))
       /\ wal = nd_wal n
       /\ router_step (nd_router n) (MPublish clock (broadcast_new e)) = Some r.
Proof.
  intros Hs. assert (forall e res, published_as (inserted_as e res) = None) as Hins.
  { intros e res. unfold inserted_as. by destruct (announces e res). }
  destruct t as [e|e rep|e old|e res|e res j|e res pub|id| |e|e|]; cbn [task_step] in Hs; try done.
  - left. destruct (w_threads _ !! k) as [[| | | | | | | | | | | | | | | | | | | |[o|]]|]; try done.
    injection Hs as _ <- <-. split; [done|]. destruct o; cbn [after_outcome]; by rewrite ?Hins.
  - left. injection Hs as _ <- <-. split; [done|]. destruct rep; [done|]. by rewrite Hins.
  - left. injection Hs as _ <- <-. split; [done|]. by rewrite Hins.
  - right. apply bind_Some in Hs as (r1 & Hr & [= <- <- <-]). by exists e, res.
  - left. by repeat case_match; simplify_eq.
  - left. by injection Hs as _ <- <-.
  - left. injection Hs as _ <- <-. by case_bool_decide.
  - left. injection Hs as _ <- <-. split; [done|]. unfold enter_insert.
    repeat case_match; by rewrite ?Hins.
Qed.

Lemma node_step_router n m n' :
  node_step n m = Some n' ->
  nd_router n' = nd_router n
  \/ exists rm, router_move m rm /\ router_step (nd_router n) rm = Some (nd_router n').
Proof.
  intros Hs. destruct m as [k|k clock|m]; cbn [node_step] in Hs.
  - left. apply bind_Some in Hs as (t & _ & Hs). destruct (in_index t); [|done].
    by apply bind_Some in Hs as (w & Hw & [= <-]).
  - apply bind_Some in Hs as (t & _ & Hs). apply bind_Some in Hs as ([[wal r] t'] & Ht & [= <-]).
    apply task_step_router in Ht as [[-> _]|(e & res & _ & _ & _ & Hr)]; [by left|right].
    exists (MPublish clock (broadcast_new e)). split; [|done]. right. by exists k, clock, e.
  - right. exists m. split; [by left|].
    destruct m; [..|done|]; by apply bind_Some in Hs as (rt & Hr & [= <-]).
Qed.
End Node.

(** * Undisturbed, a task is [process_event_message] *)

Section Alone.
Context `{HexCrate, MessageJson, Channel}.

(** What is reported as stored is the event itself. *)
Lemma store_insert_event st e event replaced :
  (store_insert st e).2 = IRStored event replaced -> event = e.
Proof.
  unfold store_insert. destruct (is_ephemeral e); [done|].
  destruct (index_insert (st_index st) e) as [ix [old| | |]]; cbn; congruence.
Qed.

(** The reply to an EVENT that is not a deletion request. *)
Definition reply (e : Event) (res : InsertResult) : str :=
  match res with
  | IREphemeral => ok_reply e true ephemeral_message
  | IRDuplicate => ok_reply e true duplicate_message
  | IRDeleted => ok_reply e false deleted_message
  | IRStored _ _ => ok_reply e true []
  end.

(** An access of the index, by the thread of a task. *)
Lemma index_alone n k t ts a b :
  k < length ts -> (forall j p, j <> k -> ts !! j = Some p -> holds p = None) ->
  nd_tasks n !! k = Some t -> in_index t = true -> rtc lone_step a b ->
  nd_index n = mkWorld a.1 (<[k := a.2]> ts) ->
  exists ms, run_node n ms
    = Some (mkNode (mkWorld b.1 (<[k := b.2]> ts)) (nd_wal n) (nd_router n) (nd_tasks n)).
Proof.
  intros Hk Hfree Ht Hin Hrun. revert n Ht. induction Hrun as [a|a b c Hs _ IH]; intros n Ht Hw.
  - exists []. cbn. rewrite <- Hw. by destruct n.
  - destruct (IH (mkNode (mkWorld b.1 (<[k := b.2]> ts)) (nd_wal n) (nd_router n) (nd_tasks n)) Ht eq_refl)
      as [ms Hms].
    exists (NAccess k :: ms). change (NAccess k :: ms) with ([NAccess k] ++ ms). apply run_node_app.
    eexists. split; [|exact Hms]. cbn. rewrite Ht. cbn [mbind option_bind]. rewrite Hin, Hw.
    by rewrite (lone_thread ts k a b Hk Hfree Hs).
Qed.

(** A publishing thread beside threads that keep no lock. *)
Lemma publisher_alone m n j clock ev p fo' p' :
  rt_threads (nd_router n) !! j = Some (Publisher clock ev p) ->
  (forall u t, u <> j -> rt_threads (nd_router n) !! u = Some t -> keeps t = None) ->
  run_alone m (rt_fanout (nd_router n)) (Publisher clock ev p) = (fo', Publisher clock ev p') ->
  exists ms log, run_node n ms = Some (mkNode (nd_index n) (nd_wal n)
    (mkRouter fo' (<[j := Publisher clock ev p']> (rt_threads (nd_router n))) log) (nd_tasks n)).
Proof.
  revert n p. induction m as [|m IH]; intros n p Hj Hfree Hr; cbn [run_alone] in Hr.
  { injection Hr as <- <-. exists [], (rt_log (nd_router n)). cbn. rewrite list_insert_id by done.
    by destruct n as [? ? [] ?]. }
  destruct (take_step (rt_fanout (nd_router n)) (Publisher clock ev p)) as [[[fo1 t1] os]|] eqn:Ha.
  2: { injection Hr as <- <-. exists [], (rt_log (nd_router n)). cbn. rewrite list_insert_id by done.
       by destruct n as [? ? [] ?]. }
  assert (exists p1, t1 = Publisher clock ev p1) as [p1 ->].
  { cbn [take_step] in Ha. apply bind_Some in Ha as ([[fo2 p2] os2] & _ & [= _ <- _]). eauto. }
  assert (may_take (nd_router n) (needs (Publisher clock ev p)) = true) as Hm.
  { destruct (needs (Publisher clock ev p)) as [a|] eqn:Hn; [|done]. cbn [may_take].
    assert (held (nd_router n) = []) as ->; [|done].
    unfold held. apply elem_of_nil_inv. intros b (t & [u Hu]%list_elem_of_lookup & Hb)%list_elem_of_omap.
    destruct (decide (u = j)) as [->|Hne]; [|by rewrite (Hfree u t Hne Hu) in Hb].
    rewrite Hj in Hu. injection Hu as <-. by destruct p as [|[]| |]. }
  set (n1 := mkNode (nd_index n) (nd_wal n) (mkRouter fo1 (<[j := Publisher clock ev p1]>
    (rt_threads (nd_router n))) (rt_log (nd_router n) ++ (pair j <$> os))) (nd_tasks n)).
  pose proof (lookup_lt_Some _ _ _ Hj) as Hlt.
  destruct (IH n1 p1) as (ms & log & Hms).
  - by apply list_lookup_insert_eq.
  - intros u t Hu. unfold n1. cbn. rewrite list_lookup_insert_ne by done. by apply Hfree.
  - exact Hr.
  - exists (NRouter (MRun j) :: ms), log. change (NRouter (MRun j) :: ms) with ([NRouter (MRun j)] ++ ms).
    apply run_node_app. exists n1. split.
    + cbn. unfold Router.run_thread. rewrite Hj. cbn [mbind option_bind]. by rewrite Hm, Ha.
    + rewrite Hms. unfold n1. cbn. by rewrite list_insert_insert_eq.
Qed.

(** The part after [EventStore::insert]. *)
Lemma announce_alone n k clock e res :
  nd_tasks n !! k = Some (inserted_as e res) -> router_ok (nd_router n) ->
  (forall u t, rt_threads (nd_router n) !! u = Some t -> keeps t = None) ->
  exists ms n' publication, run_node n ms = Some n'
  /\ nd_index n' = nd_index n /\ nd_wal n' = nd_wal n
  /\ nd_tasks n' !! k = Some (TAnswered e res publication)
  /\ rt_fanout (nd_router n')
     = if announces e res then publish clock (broadcast_new e) (rt_fanout (nd_router n))
       else rt_fanout (nd_router n).
Proof.
  intros Ht Hw Hfree. unfold inserted_as in Ht. destruct (announces e res).
  2: { by exists [], n, None. }
  set (fo := rt_fanout (nd_router n)). set (j := length (rt_threads (nd_router n))).
  set (router := mkRouter fo (rt_threads (nd_router n) ++ [Publisher clock (broadcast_new e) Route])
    (rt_log (nd_router n))).
  set (n1 := mkNode (nd_index n) (nd_wal n) router (<[k := TAnnouncing e res j]> (nd_tasks n))).
  destruct (publish_alone clock (broadcast_new e) fo) as [m Hm].
  { intros id [Hin _]%elem_of_targets. by apply (ro_conns _ Hw). }
  assert (rt_threads (nd_router n1) !! j = Some (Publisher clock (broadcast_new e) Route)) as Hj.
  { unfold n1, router, j. cbn. by rewrite lookup_app_r, Nat.sub_diag by lia. }
  destruct (publisher_alone m n1 j clock (broadcast_new e) Route
    (publish clock (broadcast_new e) fo) Published Hj) as (ms & log & Hms); [|exact Hm|].
  { intros u t Hne [Hu|[Hle Hu]]%lookup_app_Some; [by eapply Hfree|].
    apply list_lookup_singleton_Some in Hu as [Hu _]. unfold j in Hne. lia. }
  pose proof (lookup_lt_Some _ _ _ Ht) as Hlt. pose proof (lookup_lt_Some _ _ _ Hj) as Hlj.
  exists ([NTask k clock] ++ ms ++ [NTask k clock]). eexists. exists (Some j). split.
  - apply run_node_app. exists n1. split; [cbn; by rewrite Ht|].
    apply run_node_app. eexists. split; [exact Hms|]. cbn.
    rewrite list_lookup_insert_eq by done. cbn [mbind option_bind task_step nd_router rt_threads nd_tasks].
    rewrite list_lookup_insert_eq by done. cbn. reflexivity.
  - split_and!; [done|done| |done]. cbn. apply list_lookup_insert_eq. by rewrite length_insert.
Qed.

(** What [EventStore::insert] does with the outcome of the index. *)
Lemma outcome_alone n k (clock : Clock) e o wal :
  nd_tasks n !! k = Some (after_outcome e o) -> nd_wal n = wal ->
  exists ms n' res, run_node n ms = Some n' /\ nd_tasks n' !! k = Some (inserted_as e res)
  /\ nd_index n' = nd_index n /\ nd_router n' = nd_router n
  /\ (nd_wal n', res) = match o with
       | Duplicate | LostRace => (wal, IRDuplicate)
       | Deleted => (wal, IRDeleted)
       | Inserted replaced => (log_insert wal e replaced, IRStored e (option_list replaced))
       end.
Proof.
  intros Ht Hwal. pose proof (lookup_lt_Some _ _ _ Ht) as Hlt.
  destruct o as [[old|]| | |]; cbn [after_outcome] in Ht;
    [| |exists [], n; eexists; split_and!; [done|exact Ht|done|done|by rewrite Hwal]..].
  - exists [NTask k clock; NTask k clock]. eexists. exists (IRStored e [old]). split.
    { cbn. rewrite Ht. cbn. rewrite list_lookup_insert_eq by done. reflexivity. }
    cbn. rewrite list_insert_insert_eq, list_lookup_insert_eq, Hwal by done.
    split_and!; try done. by destruct wal.
  - exists [NTask k clock]. eexists. exists (IRStored e []). split; [cbn; by rewrite Ht|].
    cbn. rewrite list_lookup_insert_eq, Hwal by done.
    by split_and!.
Qed.

Lemma event_alone n k (clock : Clock) e st :
  is_deletion_request e = false ->
  nd_tasks n !! k = Some (start_task (CInsert e)) ->
  w_threads (nd_index n) !! k = Some (start (CInsert e)) ->
  (forall j p, j <> k -> w_threads (nd_index n) !! j = Some p -> Threads.holds p = None) ->
  (forall u t, rt_threads (nd_router n) !! u = Some t -> keeps t = None) ->
  router_ok (nd_router n) -> w_index (nd_index n) = st_index st -> nd_wal n = st_wal st ->
  exists ms n' publication, run_node n ms = Some n'
  /\ w_index (nd_index n') = st_index (store_insert st e).1
  /\ nd_wal n' = st_wal (store_insert st e).1
  /\ nd_tasks n' !! k = Some (TAnswered e (store_insert st e).2 publication)
  /\ rt_fanout (nd_router n')
     = if announces e (store_insert st e).2
       then publish clock (broadcast_new e) (rt_fanout (nd_router n)) else rt_fanout (nd_router n).
Proof.
  intros Hd Ht Hp Hfree Hkeep Hw Hix Hwal. unfold start_task, enter_insert in Ht.
  rewrite Hd in Ht. unfold store_insert.
  destruct (is_ephemeral e).
  { destruct (announce_alone n k clock e IREphemeral Ht Hw Hkeep) as (ms & n' & pub & Hr & E1 & E2 & E3 & E4).
    exists ms, n', pub. split; [done|]. cbn [fst snd]. by rewrite E1, E2. }
  pose proof (lone_run (st_index st) (CInsert e)) as Hrun. cbn [sequential] in Hrun.
  destruct (index_insert (st_index st) e) as [ix o]. cbn in Hrun.
  pose proof (lookup_lt_Some _ _ _ Hp) as Hlt. pose proof (lookup_lt_Some _ _ _ Ht) as Hlt'.
  destruct (index_alone n k (TInsert e) (w_threads (nd_index n)) _ _ Hlt Hfree Ht eq_refl Hrun) as [ms1 R1].
  { cbn. rewrite list_insert_id by done. rewrite <- Hix. by destruct (nd_index n). }
  cbn [fst snd] in R1. set (n1 := mkNode _ _ _ _) in R1.
  set (n2 := mkNode (nd_index n1) (nd_wal n) (nd_router n) (<[k := after_outcome e o]> (nd_tasks n))).
  assert (run_node n (ms1 ++ [NTask k clock]) = Some n2) as R2.
  { apply run_node_app. exists n1. split; [done|]. unfold n2, n1. cbn. rewrite Ht.
    cbn. by rewrite list_lookup_insert_eq. }
  destruct (outcome_alone n2 k clock e o (st_wal st)) as (ms2 & n3 & res & R3 & Ht3 & E1 & E2 & E3);
    [by apply list_lookup_insert_eq|done|].
  destruct (announce_alone n3 k clock e res Ht3) as (ms3 & n4 & pub & R4 & E4 & E5 & E6 & E7);
    [by rewrite E2|by rewrite E2|].
  exists ((ms1 ++ [NTask k clock]) ++ ms2 ++ ms3), n4, pub. split.
  { apply run_node_app. exists n2. split; [done|]. apply run_node_app. by exists n3. }
  rewrite E4, E1, E5, E6, E7, E2. cbn [nd_index n2 n1 w_index].
  destruct o as [replaced| | |]; injection E3 as E3 ->; cbn [fst snd st_index with_index with_wal st_wal];
    by rewrite E3.
Qed.

(** [process_event_message] by what [event_alone] reaches. *)
Lemma process_event_alone set_order clock text sub_id e r :
  msg_from_json text = Ok (MEvent sub_id e) -> is_deletion_request e = false ->
  let '(st, res) := store_insert (r_store r) e in
  process_event_message set_order clock text r
  = Ret (mkRelay st (if announces e res then publish clock (broadcast_new e) (r_fanout r)
                     else r_fanout r), Some (reply e res)).
Proof.
  intros Hm Hd. unfold process_event_message. rewrite Hm, Hd.
  pose proof (store_insert_event (r_store r) e) as He.
  destruct (store_insert (r_store r) e) as [st res]. cbn [snd] in He.
  destruct res; cbn [announces reply]; rewrite ?Hd; try done. by rewrite (He _ _ eq_refl).
Qed.

(** C23: the steps of a task are those of the relay: from any state of the index, the
    log and the router in which no other thread keeps a lock, the task of an EVENT
    frame that is no deletion request, if it is not interfered with, runs to its
    answer, and leaves the index, the log, the router and the reply that
    [process_event_message] computes. (For a deletion request that function also
    removes events, in the same call; here these removals are calls of their own.) *)
Theorem undisturbed_task_is_sequential n k clock set_order text sub_id e st :
  msg_from_json text = Ok (MEvent sub_id e) -> is_deletion_request e = false ->
  nd_tasks n !! k = Some (start_task (CInsert e)) ->
  w_threads (nd_index n) !! k = Some (start (CInsert e)) ->
  (forall j p, j <> k -> w_threads (nd_index n) !! j = Some p -> Threads.holds p = None) ->
  (forall u t, rt_threads (nd_router n) !! u = Some t -> keeps t = None) ->
  router_ok (nd_router n) -> w_index (nd_index n) = st_index st -> nd_wal n = st_wal st ->
  exists ms n' r res publication,
    process_event_message set_order clock text (mkRelay st (rt_fanout (nd_router n)))
      = Ret (r, Some (reply e res))
    /\ run_node n ms = Some n' /\ nd_tasks n' !! k = Some (TAnswered e res publication)
    /\ w_index (nd_index n') = st_index (r_store r) /\ nd_wal n' = st_wal (r_store r)
    /\ rt_fanout (nd_router n') = r_fanout r.
Proof.
  intros Hm Hd Ht Hp Hfree Hkeep Hw Hix Hwal.
  destruct (event_alone n k clock e st Hd Ht Hp Hfree Hkeep Hw Hix Hwal)
    as (ms & n' & pub & Hr & E1 & E2 & E3 & E4).
  pose proof (process_event_alone set_order clock text sub_id e (mkRelay st (rt_fanout (nd_router n))) Hm Hd) as Hpr.
  cbn [r_store r_fanout] in Hpr. destruct (store_insert st e) as [st' res]. cbn [fst snd] in *.
  exists ms, n'. eexists. exists res, pub. split; [exact Hpr|]. by rewrite E4.
Qed.
End Alone.

(** * Closed runs *)

Definition quiet_node : Node :=
  node_start (st_index (r_store quiet_relay)) (st_wal (r_store quiet_relay)) [CInsert sample_event].

Lemma undisturbed_task_is_sequential_witness :
  exists ms n' r res publication,
    process_event_message elements noon sample_frame (mkRelay (r_store quiet_relay) fanout_new)
      = Ret (r, Some (reply sample_event res))
    /\ run_node quiet_node ms = Some n' /\ nd_tasks n' !! 0 = Some (TAnswered sample_event res publication)
    /\ w_index (nd_index n') = st_index (r_store r) /\ nd_wal n' = st_wal (r_store r)
    /\ rt_fanout (nd_router n') = r_fanout r.
Proof.
  apply (undisturbed_task_is_sequential quiet_node 0 noon elements sample_frame None sample_event
    (r_store quiet_relay)).
  - exact sample_frame_parses.
  - reflexivity.
  - reflexivity.
  - reflexivity.
  - intros [|j] p Hj Hp; [done|]. discriminate Hp.
  - intros u t Hu. discriminate Hu.
  - exact router_ok_new.
  - reflexivity.
  - reflexivity.
Defined.
