(* ===== verification/NodeProps.v ===== *)
(** What holds when the processing of events, the index, the log and the router run
    beside each other ([Node.v]): an event accepted while a client's stored query is
    under way is in the answer or delivered live; a reply is given only when the
    record is logged and the publication done; every task returns. *)
From S2P Require Import Prelude Text Collections Event Reference Deletion Tombstones Index IndexInv IndexSpec IndexQuery Wal Store Subscription Fanout Message Relay Router RouterProps RouterCalls RouterDelivery RouterOpen Threads ThreadsInv ThreadsProps ThreadsQuery QueryMeanwhile Node.
Open Scope memlay_scope.

(** * Where what is stored came from *)

Section Origin.
Context `{HexCrate} (core_of : bytes -> Core).
Implicit Types (w : World) (i : bytes).

(** A thread inserts its own event until it is done, and only it stores it. *)
Lemma access_inserting ix p b :
  access ix p = Some b ->
  (inserting b.2 = inserting p \/ exists o, b.2 = Done (AInsert o))
  /\ forall i x, by_id b.1 !! i = Some x -> by_id ix !! i = Some x \/ (inserting p = Some x /\ ev_id x = i).
Proof.
  intros Ha. assert (forall K r, remove_ctx K -> p = K r ->
    (inserting b.2 = inserting p \/ exists o, b.2 = Done (AInsert o))
    /\ forall i x, by_id b.1 !! i = Some x -> by_id ix !! i = Some x) as Hctx.
  { intros K r HK ->. destruct (access_removing K ix r b HK Ha)
      as [(rem & -> & Eix & Ei & _)|(r' & Er & Hs)].
    - rewrite Eix. split; [by left|done].
    - rewrite Er. split; [left; by destruct HK|].
      destruct r as [id skip|event skip|event skip|event|event [|s todo]|removed];
        cbn [removal_step] in Hs; try done; injection Hs as Hs; try (rewrite <- Hs; done).
      + destruct (by_id ix !! id); injection Hs as Hs _; rewrite <- Hs; [|done].
        cbn. by intros i x [_ ?]%lookup_delete_Some.
      + rewrite <- Hs. by destruct s. }
  destruct p as [e|e|e old|e r|e rep|e rep|e|e rep|e rep|e rep [|s todo]
    |e rep|e rep|e|e|e|e [|s todo] o|r|id r|id rem|id rem|a]; try done;
    try (match type of Hctx with forall K r, _ -> ?x = _ -> _ =>
           match x with
           | InReplace ?e ?r => destruct (Hctx (InReplace e) r ltac:(constructor) eq_refl)
           | Removing ?r => destruct (Hctx Removing r ltac:(constructor) eq_refl)
           | Deleting ?id ?r => destruct (Hctx (Deleting id) r ltac:(constructor) eq_refl)
           end end; split; [done|by left; auto]);
    clear Hctx; injection Ha as <-; cbn [fst snd].
  - split; [|by left]. repeat case_match; eauto.
  - split; [by case_match; left|]. case_match; by left.
  - split; [case_match; eauto|]. case_match; by left.
  - split; [case_match; eauto|]. cbn. intros i x [[<- <-]|[_ ?]]%lookup_insert_Some; auto.
  - split; [case_match; eauto|by left].
  - split; [eauto|]. cbn. intros i x [_ ?]%lookup_delete_Some. by left.
  - split; [by left|by left].
  - split; [by left|by left].
  - split; [by left|by left].
  - split; [by left|]. by destruct s; left.
  - split; [case_match; eauto|by left].
  - split; [case_match; eauto|by left].
  - split; [by case_match; left|]. case_match; [|by left]. cbn. intros i x [_ ?]%lookup_delete_Some. by left.
  - split; [by left|by left].
  - split; [by left|by left].
  - split; [eauto|by left].
  - split; [by left|]. by destruct s; left.
  - split; [case_match; eauto|]. case_match; by left.
  - split; [eauto|by left].
Qed.

Lemma run_thread_at w k w' :
  Threads.run_thread w k = Some w' ->
  exists p p', w_threads w !! k = Some p /\ access (w_index w) p = Some (w_index w', p')
    /\ w_threads w' = <[k := p']> (w_threads w).
Proof.
  unfold Threads.run_thread. intros (p & Hp & (b & Hb & [= <-])%bind_Some)%bind_Some.
  exists p, b.2. split_and!; [done| |done]. cbn. rewrite <- surjective_pairing.
  unfold thread_step in Hb. destruct (wants p); [by case_bool_decide|done].
Qed.

(** Thread [k] runs call [k], and every stored event was there before or is some
    call's. *)
Record origin (ix : EventIndex) (calls : list call) w : Prop := {
  og_thread : forall k p, w_threads w !! k = Some p ->
    exists c, calls !! k = Some c /\ (inserting p = inserted c \/ inserting p = None);
  og_stored : forall i x, by_id (w_index w) !! i = Some x ->
    by_id ix !! i = Some x \/ CInsert x ∈ calls;
}.

Lemma origin_steps ix calls w w' : origin ix calls w -> rtc cstep w w' -> origin ix calls w'.
Proof.
  intros Ho. induction 1 as [|w w1 w2 [k Hk] _ IH]; [done|]. apply IH.
  apply run_thread_at in Hk as (p & p' & Hp & Ha & Ht). destruct Ho as [Hth Hst].
  destruct (access_inserting _ _ _ Ha) as [Hi Hx]. cbn [fst snd] in *. split.
  - intros n q. rewrite Ht. intros [(-> & -> & _)|[_ Hn]]%list_lookup_insert_Some; [|by apply Hth].
    destruct (Hth _ _ Hp) as (c & Hc & Hor). exists c. split; [done|].
    destruct Hi as [->|[o ->]]; [done|by right].
  - intros i x [Hix|[Hins _]]%Hx; [by apply Hst|]. right. destruct (Hth _ _ Hp) as (c & Hc & Hor).
    apply list_elem_of_lookup_2 with k. rewrite Hc. destruct c as [e| |]; cbn in Hor; destruct Hor; congruence.
Qed.

Lemma origin_starting ix calls : origin ix calls (starting ix calls).
Proof.
  split; cbn.
  - intros k p. rewrite list_lookup_fmap. destruct (calls !! k) as [c|]; [|done]. intros [= <-].
    exists c. split; [done|]. left. apply inserting_start.
  - by left.
Qed.

(** ** An id that nobody inserts any more *)

Definition uninserted w i : Prop := forall p, p ∈ w_threads w -> inserting_id p <> Some i.

Lemma uninserted_step w w' i :
  uninserted w i -> cstep w w' -> uninserted w' i /\ (live (w_index w') i -> live (w_index w) i).
Proof.
  intros Hu [k (p & p' & Hp & Ha & Ht)%run_thread_at].
  destruct (access_inserting _ _ _ Ha) as [Hi Hx]. cbn [fst snd] in *.
  pose proof (Hu p ltac:(by eapply list_elem_of_lookup_2)) as Hpu. split.
  - intros q [n Hq]%list_elem_of_lookup. rewrite Ht in Hq.
    apply list_lookup_insert_Some in Hq as [(_ & -> & _)|[_ Hq]].
    + unfold inserting_id in *. by destruct Hi as [->|[o ->]].
    + by eapply Hu, list_elem_of_lookup_2.
  - intros [x Hl]. destruct (Hx i x Hl) as [?|[Hins Hid]]; [by eexists|].
    destruct Hpu. unfold inserting_id. rewrite Hins. cbn. by rewrite Hid.
Qed.

Lemma uninserted_steps w w' i :
  uninserted w i -> rtc cstep w w' -> uninserted w' i /\ (live (w_index w') i -> live (w_index w) i).
Proof.
  intros Hu Hr. induction Hr as [|w w1 w2 Hs _ IH]; [done|].
  destruct (uninserted_step _ _ _ Hu Hs) as [Hu1 Hl1]. destruct (IH Hu1) as [Hu2 Hl2]. auto.
Qed.

(** Such an id, if it is stored, is worked on by no call. *)
Lemma uninserted_settled w e :
  world_ok core_of w -> uninserted w (ev_id e) -> genuine core_of e -> live (w_index w) (ev_id e) ->
  stored_as w e /\ ~ in_flight w (ev_id e).
Proof.
  intros Hok Hu Hg Hl. split; [by eapply live_stored|].
  intros (p & Hp & [Hi|Hc])%Exists_exists; [by apply (Hu p)|].
  by apply (to_gone _ _ _ Hok p (ev_id e)).
Qed.

(** No event is inserted by two calls. *)
Lemma inserted_once calls n k e e' :
  NoDup (ev_id <$> omap inserted calls) -> calls !! n = Some (CInsert e') ->
  calls !! k = Some (CInsert e) -> ev_id e' = ev_id e -> n = k.
Proof.
  revert n k. induction calls as [|c calls IH]; intros n k Hd Hc Hk Hi; [done|].
  assert (forall m x, calls !! m = Some (CInsert x) -> ev_id x ∈ ev_id <$> omap inserted calls) as Hin.
  { intros m x Hm. apply list_elem_of_fmap_2, list_elem_of_omap. exists (CInsert x).
    split; [by eapply list_elem_of_lookup_2|done]. }
  destruct n as [|n], k as [|k]; cbn in *; [done|..].
  - injection Hc as ->. cbn in Hd. apply NoDup_cons in Hd as [Hn _]. destruct Hn. rewrite Hi. by eapply Hin.
  - injection Hk as ->. cbn in Hd. apply NoDup_cons in Hd as [Hn _]. destruct Hn. rewrite <- Hi. by eapply Hin.
  - f_equal. apply IH; [|done..]. destruct c; cbn in Hd; [by apply NoDup_cons in Hd as [_ ?]|done..].
Qed.

(** A call that is done inserts no more, and no other call inserts its event. *)
Lemma done_uninserted ix calls w k e a :
  calls_ok core_of ix calls -> origin ix calls w -> calls !! k = Some (CInsert e) ->
  w_threads w !! k = Some (Done a) -> uninserted w (ev_id e).
Proof.
  intros [_ Hd _] Ho Hk Hp q [n Hq]%list_elem_of_lookup Hi.
  destruct (og_thread _ _ _ Ho n q Hq) as (c & Hc & Hor). unfold inserting_id in Hi.
  destruct (inserting q) as [e'|] eqn:Eq; [|done]. injection Hi as Hi.
  destruct Hor as [Hor|?]; [|done]. destruct c as [e0| |]; cbn in Hor; [|done..]. injection Hor as <-.
  assert (n = k) as -> by by eapply inserted_once.
  rewrite Hp in Hq. by injection Hq as <-.
Qed.

(** Nor is an event that was stored from the start inserted by any. *)
Lemma old_uninserted ix calls w i x :
  calls_ok core_of ix calls -> origin ix calls w -> by_id ix !! i = Some x -> uninserted w i.
Proof.
  intros [_ _ Hf] Ho Hx q [n Hq]%list_elem_of_lookup Hi.
  destruct (og_thread _ _ _ Ho n q Hq) as (c & Hc & Hor). unfold inserting_id in Hi.
  destruct (inserting q) as [e'|] eqn:Eq; [|done]. injection Hi as <-.
  destruct Hor as [Hor|?]; [|done]. rewrite Forall_forall in Hf. rewrite (Hf e') in Hx; [done|].
  apply list_elem_of_omap. exists c. split; [by eapply list_elem_of_lookup_2|done].
Qed.
End Origin.

(** * The invariant of a node *)

Section Invariant.
Context `{HexCrate, Channel}.
Implicit Types (n : Node) (t : task) (p : pc).

(** The result [EventStore::insert] makes of an outcome. *)
Definition insert_result (e : Event) (o : InsertOutcome) : InsertResult :=
  match o with
  | Duplicate | LostRace => IRDuplicate
  | Deleted => IRDeleted
  | Inserted replaced => IRStored e (option_list replaced)
  end.

Definition answer_of (e : Event) p (res : InsertResult) : Prop :=
  if is_ephemeral e then res = IREphemeral /\ p = start (CInsert e)
  else exists o, p = Done (AInsert o) /\ res = insert_result e o.

(** Thread [j] of the router publishes the event, or has. *)
Definition publishes (router : Router) (j : nat) (e : Event) : Prop :=
  exists clock q, rt_threads router !! j = Some (Publisher clock (broadcast_new e) q).
Definition has_published (router : Router) (j : nat) (e : Event) : Prop :=
  exists clock, rt_threads router !! j = Some (Publisher clock (broadcast_new e) Published).

(** What a task's place says of its thread in the index and of its publication. *)
Definition task_fits (router : Router) (c : call) t p : Prop :=
  match c, t with
  | CInsert e, TInsert e' =>
      e' = e /\ is_ephemeral e = false /\ (inserting p = Some e \/ exists o, p = Done (AInsert o))
  | CInsert e, TLog e' replaced =>
      e' = e /\ is_ephemeral e = false /\ p = Done (AInsert (Inserted replaced))
  | CInsert e, TLogDelete e' old =>
      e' = e /\ is_ephemeral e = false /\ p = Done (AInsert (Inserted (Some old)))
  | CInsert e, TAnnounce e' res => e' = e /\ answer_of e p res /\ announces e res = true
  | CInsert e, TAnnouncing e' res j =>
      e' = e /\ answer_of e p res /\ announces e res = true /\ publishes router j e
  | CInsert e, TAnswered e' res pub =>
      e' = e /\ answer_of e p res
      /\ match pub with
         | Some j => announces e res = true /\ has_published router j e
         | None => announces e res = false
         end
  | CRemove _, TIndex | CDelete _, TIndex => True
  | CDelete id, TRecord id' => id' = id /\ p = start c
  | CInsert e, (TContains e' | TTombstoned e' | TRefused e' _) => e' = e /\ p = start c
  | _, _ => False
  end.

(** The records a task has appended. *)
Definition records (c : call) t : list WalOp :=
  match c, t with
  | _, TLogDelete e _ => [WInsert (ev_raw e)]
  | _, (TAnnounce e res | TAnnouncing e res _ | TAnswered e res _) =>
      match res with
      | IRStored _ olds => WInsert (ev_raw e) :: ((fun old => WDelete (ev_id old)) <$> olds)
      | _ => []
      end
  | CDelete id, TIndex => [WTombstone id]
  | _, _ => []
  end.

Definition log_ops (ops : list WalOp) (wal : option Wal) : option Wal :=
  (fun w => foldl append w ops) <$> wal.

Lemma log_ops_snoc op ops wal : log_op op (log_ops ops wal) = log_ops (ops ++ [op]) wal.
Proof. destruct wal; [|done]. unfold log_op, log_ops. cbn. by rewrite foldl_snoc. Qed.

Record node_ok (ix : EventIndex) (wal : option Wal) (calls : list call) n : Prop := {
  no_index : rtc cstep (starting ix calls) (nd_index n);
  no_router : once (nd_router n);
  no_tasks : forall k t, nd_tasks n !! k = Some t -> exists c p, calls !! k = Some c
    /\ w_threads (nd_index n) !! k = Some p /\ task_fits (nd_router n) c t p;
  no_length : length (nd_tasks n) = length calls;
  no_log : exists ops, nd_wal n = log_ops ops wal
    /\ forall k c t, calls !! k = Some c -> nd_tasks n !! k = Some t -> records c t `sublist_of` ops;
}.

(** ** Publications go on *)

Lemma pub_persists router m router' j clock ev q :
  router_step router m = Some router' -> rt_threads router !! j = Some (Publisher clock ev q) ->
  exists q', rt_threads router' !! j = Some (Publisher clock ev q') /\ (q = Published -> q' = Published).
Proof.
  intros Hs Hj.
  assert (m = MRun j \/ m <> MRun j) as [->|Hne].
  { destruct m as [k| | | |]; try (by right). destruct (decide (k = j)) as [->|]; [by left|right; congruence]. }
  - cbn [router_step] in Hs. destruct (run_pub _ _ _ _ _ _ Hj Hs) as (fo & q' & os & Hst & ->).
    exists q'. cbn. rewrite list_lookup_insert_eq by by eapply lookup_lt_Some. split; [done|].
    intros ->. done.
  - destruct (router_step_pub _ _ _ _ _ _ _ Hs Hj Hne) as [Hj' _]. by exists q.
Qed.

Lemma fits_router router m router' c t p :
  router_step router m = Some router' -> task_fits router c t p -> task_fits router' c t p.
Proof.
  intros Hs. destruct c as [e| |], t as [e'|e' rep|e' old|e' res|e' res j|e' res [j|]|id'| |e'|e'|e' res]; cbn; try done.
  - intros (-> & Ha & Hb & clock & q & Hj).
    destruct (pub_persists _ _ _ _ _ _ _ Hs Hj) as (q' & Hj' & _). split_and!; [done..|]. by exists clock, q'.
  - intros (-> & Ha & Hb & clock & Hj).
    destruct (pub_persists _ _ _ _ _ _ _ Hs Hj) as (q' & Hj' & Hq). rewrite (Hq eq_refl) in Hj'.
    split_and!; [done..|]. by exists clock.
Qed.

Lemma fits_inserted_as router e res p :
  answer_of e p res -> task_fits router (CInsert e) (inserted_as e res) p.
Proof.
  intros Ha. unfold inserted_as. destruct (announces e res) eqn:E; by cbn.
Qed.

Lemma records_inserted_as c e res :
  records c (inserted_as e res) = match res with
      | IRStored _ olds => WInsert (ev_raw e) :: ((fun old => WDelete (ev_id old)) <$> olds)
      | _ => [] end.
Proof. unfold inserted_as. by destruct (announces e res), c, res. Qed.

Lemma fits_enter_insert router e :
  task_fits router (CInsert e) (enter_insert e) (start (CInsert e)).
Proof.
  unfold enter_insert. destruct (is_ephemeral e) eqn:He; [|by split_and!; [..|left]].
  apply fits_inserted_as. unfold answer_of. by rewrite He.
Qed.

Lemma records_enter_insert c e : records c (enter_insert e) = [].
Proof. unfold enter_insert. destruct (is_ephemeral e); [by rewrite records_inserted_as|by destruct c]. Qed.

(** ** Steps *)

(** A task's own step: it fits as before, and has its records in the log. *)
Lemma task_step_fits n k clock t c p wal router t' :
  task_fits (nd_router n) c t p -> w_threads (nd_index n) !! k = Some p ->
  task_step n k clock t = Some (wal, router, t') ->
  task_fits router c t' p
  /\ exists new, (forall w ops, nd_wal n = log_ops ops w -> wal = log_ops (ops ++ new) w)
       /\ forall ops, records c t `sublist_of` ops -> records c t' `sublist_of` ops ++ new.
Proof.
  intros Hf Hp Hs.
  assert (forall op w ops, nd_wal n = log_ops ops w -> log_op op (nd_wal n) = log_ops (ops ++ [op]) w) as Hop.
  { intros op w ops ->. apply log_ops_snoc. }
  assert (forall wal, wal = nd_wal n -> forall w ops, nd_wal n = log_ops ops w -> wal = log_ops (ops ++ []) w) as Hno.
  { intros ? -> w ops ->. by rewrite app_nil_r. }
  destruct t as [e|e rep|e old|e res|e res j|e res pub|id| |e|e|]; cbn [task_step] in Hs; try done;
    destruct c as [e0|id0|id0]; try done; cbn [task_fits] in Hf.
  - destruct Hf as (-> & He & _). rewrite Hp in Hs. destruct p as [| | | | | | | | | | | | | | | | | | | |[o|]]; try done.
    injection Hs as <- <- <-. split.
    + destruct o as [rep| | |]; cbn [after_outcome]; [done|..]; apply fits_inserted_as;
        unfold answer_of; rewrite He; eauto.
    + exists []. split; [by apply Hno|]. intros ops _.
      destruct o as [rep| | |]; cbn [after_outcome]; rewrite ?records_inserted_as; apply sublist_nil_l.
  - destruct Hf as (-> & He & ->). injection Hs as <- <- <-. split.
    + destruct rep as [old|]; [done|]. apply fits_inserted_as. unfold answer_of. rewrite He. eauto.
    + exists [WInsert (ev_raw e0)]. split; [apply Hop|]. intros ops _.
      destruct rep as [old|]; [|rewrite records_inserted_as]; cbn; by apply sublist_inserts_l.
  - destruct Hf as (-> & He & ->). injection Hs as <- <- <-. split.
    + apply fits_inserted_as. unfold answer_of. rewrite He. eauto.
    + exists [WDelete (ev_id old)]. split; [apply Hop|]. intros ops Hsub.
      rewrite records_inserted_as. cbn in *.
      change [WInsert (ev_raw e0); WDelete (ev_id old)] with ([WInsert (ev_raw e0)] ++ [WDelete (ev_id old)]).
      by apply sublist_app.
  - destruct Hf as (-> & Ha & Hb). injection Hs as <- <- <-. split.
    + split_and!; [done..|]. exists clock, Route. cbn. by rewrite lookup_app_r, Nat.sub_diag by lia.
    + exists []. split; [by apply Hno|]. intros ops. by rewrite app_nil_r.
  - destruct Hf as (-> & Ha & Hb & clock' & q & Hj). rewrite Hj in Hs. destruct q; try done.
    injection Hs as <- <- <-. split.
    + split_and!; [done..|]. by exists clock'.
    + exists []. split; [by apply Hno|]. intros ops. by rewrite app_nil_r.
  - injection Hs as <- <- <-. split; [done|]. exists [WTombstone id]. split; [apply Hop|].
    intros ops _. cbn. destruct Hf as [-> _]. by apply sublist_inserts_l.
  - destruct Hf as [-> ->]. injection Hs as <- <- <-. split; [by case_bool_decide|].
    exists []. split; [by apply Hno|]. intros ops _. case_bool_decide; apply sublist_nil_l.
  - destruct Hf as [-> ->]. injection Hs as <- <- <-. destruct (is_tombstoned _ _).
    + split; [done|]. exists []. split; [by apply Hno|]. intros ops _. apply sublist_nil_l.
    + split; [apply fits_enter_insert|]. exists []. split; [by apply Hno|]. intros ops _.
      rewrite records_enter_insert. apply sublist_nil_l.
Qed.

Lemma node_ok_step ix wal calls n m n' :
  node_ok ix wal calls n -> node_step n m = Some n' -> node_ok ix wal calls n'.
Proof.
  intros [Hix Hro Hta Hlen (ops & Hwal & Hrec)] Hs. split.
  - destruct (node_step_index _ _ _ Hs) as [->|?]; [done|]. by eapply rtc_r.
  - destruct (node_step_router _ _ _ Hs) as [->|(rm & _ & Hr)]; [done|]. by eapply once_step.
  - intros k t' Hk. destruct m as [k0|k0 clock|rm]; cbn [node_step] in Hs.
    + apply bind_Some in Hs as (t & Ht & Hs). destruct (in_index t) eqn:Hin; [|done].
      apply bind_Some in Hs as (w & Hw & [= <-]). cbn in Hk |- *.
      apply run_thread_at in Hw as (p & p' & Hp & Ha & ->).
      destruct (Hta _ _ Hk) as (c & q & Hc & Hq & Hf). exists c.
      destruct (decide (k0 = k)) as [->|Hne].
      * exists p'. rewrite list_lookup_insert_eq by by eapply lookup_lt_Some. split_and!; [done..|].
        assert (t' = t) as -> by congruence. assert (q = p) as -> by congruence.
        destruct c, t; try done. destruct Hf as (-> & He & Hor). split_and!; [done..|].
        destruct Hor as [Hi|[o ->]]; [|done].
        destruct (access_inserting _ _ _ Ha) as [[Hi'|?] _]; cbn [snd] in *; [left; congruence|by right].
      * exists q. by rewrite list_lookup_insert_ne.
    + apply bind_Some in Hs as (t & Ht & Hs). apply bind_Some in Hs as ([[wal' r] t1] & Hst & [= <-]).
      cbn in Hk |- *. destruct (Hta _ _ Ht) as (c & p & Hc & Hp & Hf).
      destruct (task_step_fits _ _ _ _ _ _ _ _ _ Hf Hp Hst) as [Hf' _].
      apply list_lookup_insert_Some in Hk as [(-> & -> & _)|[_ Hk]]; [by exists c, p|].
      destruct (Hta _ _ Hk) as (c2 & p2 & Hc2 & Hp2 & Hf2). exists c2, p2. split_and!; [done..|].
      destruct (task_step_router _ _ _ _ _ _ _ Hst) as [[-> _]|(e & res & _ & _ & _ & Hr)]; [done|].
      by eapply fits_router.
    + assert (exists r, router_step (nd_router n) rm = Some r /\ n' = mkNode (nd_index n) (nd_wal n) r (nd_tasks n))
        as (r & Hr & ->) by (destruct rm; [..|done|]; apply bind_Some in Hs as (r1 & ? & [= <-]); by exists r1).
      cbn in Hk |- *. destruct (Hta _ _ Hk) as (c & p & Hc & Hp & Hf). exists c, p.
      split_and!; [done..|]. by eapply fits_router.
  - destruct m as [k0|k0 clock|rm]; cbn [node_step] in Hs.
    + apply bind_Some in Hs as (t & Ht & Hs). destruct (in_index t) eqn:Hin; [|done].
      by apply bind_Some in Hs as (w & Hw & [= <-]).
    + apply bind_Some in Hs as (t & Ht & Hs). apply bind_Some in Hs as ([[wal' r] t1] & Hst & [= <-]).
      cbn. by rewrite length_insert.
    + by destruct rm; [..|done|]; apply bind_Some in Hs as (rt & _ & [= <-]).
  - destruct m as [k0|k0 clock|rm]; cbn [node_step] in Hs.
    + apply bind_Some in Hs as (t & Ht & Hs). destruct (in_index t) eqn:Hin; [|done].
      apply bind_Some in Hs as (w & Hw & [= <-]). by exists ops.
    + apply bind_Some in Hs as (t & Ht & Hs). apply bind_Some in Hs as ([[wal' r] t1] & Hst & [= <-]).
      cbn. destruct (Hta _ _ Ht) as (c & p & Hc & Hp & Hf).
      destruct (task_step_fits _ _ _ _ _ _ _ _ _ Hf Hp Hst) as (_ & new & Hw & Hnew).
      exists (ops ++ new). split; [by apply Hw|]. intros k c2 t2 Hc2.
      intros [(-> & -> & _)|[_ Hk]]%list_lookup_insert_Some.
      * assert (c2 = c) as -> by congruence. by eapply Hnew, Hrec.
      * apply sublist_inserts_r. by eapply Hrec.
    + exists ops. by destruct rm; [..|done|]; apply bind_Some in Hs as (rt & _ & [= <-]).
Qed.

Lemma once_new : once router_new.
Proof. by apply (once_run [] router_new). Qed.

Lemma node_ok_start ix wal calls : node_ok ix wal calls (node_start ix wal calls).
Proof.
  split; cbn.
  - done.
  - apply once_new.
  - intros k t. rewrite list_lookup_fmap. destruct (calls !! k) as [c|] eqn:Hc; [|done]. intros [= <-].
    exists c, (start c). rewrite list_lookup_fmap, Hc. split_and!; [done..|].
    destruct c as [e| |]; [|done..]. cbn [start_task]. destruct (is_deletion_request e); [done|].
    apply fits_enter_insert.
  - by rewrite length_fmap.
  - exists []. split; [by destruct wal|]. intros k c t Hc. rewrite list_lookup_fmap, Hc. intros [= <-].
    destruct c as [e| |]; cbn [start_task]; [|done..]. destruct (is_deletion_request e); [done|].
    by rewrite records_enter_insert.
Qed.

Lemma node_ok_run ix wal calls n ms n' :
  node_ok ix wal calls n -> run_node n ms = Some n' -> node_ok ix wal calls n'.
Proof. intros Hn. apply run_node_ind; [done|]. intros n1 m n2 _. apply node_ok_step. Qed.

Lemma run_node_index n ms n' : run_node n ms = Some n' -> rtc cstep (nd_index n) (nd_index n').
Proof.
  apply (run_node_ind (fun x => rtc cstep (nd_index n) (nd_index x))); [done|].
  intros n1 m n2 _ Hr [->|?]%node_step_index; [done|]. by eapply rtc_r.
Qed.
End Invariant.

(** * One task and one subscription *)

Section Watched.
Context `{HexCrate, Channel} (ix : EventIndex) (wal : option Wal) (calls : list call).
Context (k : nat) (e : Event) (i : nat) (id : Z) (sid : str) (fs : list Filter).
Hypothesis call_k : calls !! k = Some (CInsert e).
Implicit Types (n : Node).

Abbreviation ok := (node_ok ix wal calls).

(** The publication of task [k] has not begun and the subscription is there or has
    been closed; or the publication is on its way to it. *)
Definition watched n : Prop :=
  exists t, nd_tasks n !! k = Some t /\
  ((published_as t = None
    /\ (closed i id sid (nd_router n) \/ opened i id sid fs (nd_router n)))
   \/ exists j clock, published_as t = Some j
        /\ followed i id sid fs j clock (broadcast_new e) (nd_router n)).

Lemma watched_router n rm r' n' :
  ok n -> watched n -> router_step (nd_router n) rm = Some r' -> not_reopened i sid rm ->
  nd_router n' = r' -> nd_tasks n' !! k = nd_tasks n !! k -> watched n'.
Proof.
  intros Hn (t & Ht & Hw) Hr Hm <- Htk. exists t. split; [congruence|].
  destruct Hw as [[Hp Hw]|(j & clock & Hp & Hw)].
  - left. split; [done|]. pose proof (on_ok _ (no_router _ _ _ _ Hn)) as Hok.
    destruct (place_move i id sid fs _ _ _ Hok Hr Hm) as [H1 H2]. destruct Hw; [by left; auto|by apply H2].
  - right. exists j, clock. split; [done|]. by eapply followed_move.
Qed.

(** Task [k]'s own step. *)
Lemma watched_own n clock t wal' r t' n' :
  ok n -> watched n -> nd_tasks n !! k = Some t -> task_step n k clock t = Some (wal', r, t') ->
  nd_router n' = r -> nd_tasks n' !! k = Some t' -> watched n'.
Proof.
  intros Hn (t0 & Ht0 & Hw) Ht Hst Hr Ht'. assert (t0 = t) as -> by congruence. exists t'.
  split; [done|]. destruct (no_tasks _ _ _ _ Hn k t Ht) as (c & p & Hc & _ & Hf).
  rewrite call_k in Hc. injection Hc as <-.
  destruct (task_step_router _ _ _ _ _ _ _ Hst) as [[-> Hp]|(e' & res & -> & -> & _ & Hstep)].
  - by rewrite Hp, Hr.
  - cbn in Hf. destruct Hf as (-> & _ & _). cbn [published_as] in *.
    pose proof (no_router _ _ _ _ Hn) as Ho. destruct Hw as [[_ Hw]|(j & ? & [=] & _)].
    right. exists (length (rt_threads (nd_router n))), clock. split; [done|]. rewrite Hr.
    cbn [router_step] in Hstep. injection Hstep as <-. destruct Hw as [Hc|Hop].
    + split; [by apply (once_step (nd_router n) (MPublish clock (broadcast_new e)))|]. left.
      by apply (place_move i id sid fs (nd_router n) (MPublish clock (broadcast_new e)) _ (on_ok _ Ho)).
    + by apply followed_start.
Qed.

Lemma watched_step n m n' :
  ok n -> watched n -> node_step n m = Some n' ->
  (forall gs, m <> NRouter (MRequest i (Subscribe sid gs))) -> watched n'.
Proof.
  intros Hn Hw Hs Hm. destruct m as [k0|k0 clock|rm]; cbn [node_step] in Hs.
  - apply bind_Some in Hs as (t & Ht & Hs). destruct (in_index t); [|done].
    by apply bind_Some in Hs as (w & _ & [= <-]).
  - apply bind_Some in Hs as (t & Ht & Hs). apply bind_Some in Hs as ([[wal' r] t'] & Hst & [= <-]).
    destruct (decide (k0 = k)) as [->|Hne].
    + eapply watched_own; [done|done|exact Ht|exact Hst|done|]. cbn.
      apply list_lookup_insert_eq. by eapply lookup_lt_Some.
    + assert (<[k0 := t']> (nd_tasks n) !! k = nd_tasks n !! k) as Hk by by rewrite list_lookup_insert_ne.
      destruct (task_step_router _ _ _ _ _ _ _ Hst) as [[-> _]|(e' & res & _ & _ & _ & Hr)].
      * destruct Hw as (t0 & Ht0 & Hw). exists t0. cbn. by rewrite Hk.
      * by eapply watched_router.
  - assert (exists r, router_step (nd_router n) rm = Some r /\ n' = mkNode (nd_index n) (nd_wal n) r (nd_tasks n))
      as (r & Hr & ->) by (destruct rm; [..|done|]; apply bind_Some in Hs as (r1 & ? & [= <-]); by exists r1).
    eapply watched_router; [done|done|exact Hr| |done|done]. intros gs ->. by apply (Hm gs).
Qed.

Lemma watched_run n ms n' :
  ok n -> watched n -> run_node n ms = Some n' ->
  (forall gs, NRouter (MRequest i (Subscribe sid gs)) ∉ ms) -> watched n'.
Proof.
  intros Hn Hw Hr Hm. apply (run_node_ind (fun x => ok x /\ watched x) n ms n'); [done| |done].
  intros n1 m n2 Hin [Hn1 Hw1] Hs. split; [by eapply node_ok_step|].
  eapply watched_step; [exact Hn1|exact Hw1|exact Hs|]. intros gs ->. by apply (Hm gs).
Qed.

(** Answered with a publication, it has offered the event. *)
Lemma watched_answered n res j :
  ok n -> watched n -> nd_tasks n !! k = Some (TAnswered e res (Some j)) ->
  ~ closed i id sid (nd_router n) ->
  NoDup (offered j id (rt_log (nd_router n)))
  /\ (sid ∈ offered j id (rt_log (nd_router n)) <-> Fanout.wants e (sid, fs) = true).
Proof.
  intros Hn (t & Ht & Hw) Ht' Hc. assert (t = TAnswered e res (Some j)) as -> by congruence.
  destruct (no_tasks _ _ _ _ Hn k _ Ht) as (c & p & Hc' & _ & Hf). rewrite call_k in Hc'. injection Hc' as <-.
  destruct Hf as (_ & _ & _ & clock' & Hj). destruct Hw as [[[=] _]|(j' & clock & [= <-] & Hw)].
  assert (clock' = clock) as ->; [|by apply (followed_done i id sid fs j clock (broadcast_new e))].
  destruct Hw as [_ [?|[_ (q & Hq & _)]]]; [done|]. rewrite Hj in Hq. by injection Hq.
Qed.
End Watched.

(** * Properties *)

Section Properties.
Context `{HexLaws, Channel} (core_of : bytes -> Core).
Context (ix : EventIndex) (wal : option Wal) (calls : list call).
Hypothesis ix_wf : wf_index core_of ix.
Hypothesis calls_fit : calls_ok core_of ix calls.
Implicit Types (n : Node).

Abbreviation ok := (node_ok ix wal calls).

Lemma node_world n : ok n -> world_ok core_of (nd_index n) /\ origin ix calls (nd_index n).
Proof.
  intros [Hr _ _ _ _]. split; [by eapply reached_ok|].
  eapply origin_steps; [apply origin_starting|done].
Qed.

(** A task that is publishing, or has, is done with the index. *)
Lemma published_uninserted n n' k e t j olds pub :
  ok n -> ok n' -> calls !! k = Some (CInsert e) -> nd_tasks n !! k = Some t ->
  published_as t = Some j -> nd_tasks n' !! k = Some (TAnswered e (IRStored e olds) pub) ->
  uninserted (nd_index n) (ev_id e).
Proof.
  intros Hn Hn' Hk Ht Hp Ht'.
  destruct (no_tasks _ _ _ _ Hn' k _ Ht') as (c' & p' & Hc' & _ & Hf').
  rewrite Hk in Hc'. injection Hc' as <-. destruct Hf' as (_ & Ha' & _).
  destruct (no_tasks _ _ _ _ Hn k _ Ht) as (c & p & Hc & Hp1 & Hf).
  rewrite Hk in Hc. injection Hc as <-. unfold answer_of in *. destruct (is_ephemeral e) eqn:He; [by destruct Ha'|].
  assert (exists o, p = Done (AInsert o)) as [o ->].
  { destruct t as [| | | |e1 res j1|e1 res pub1| | | | |]; cbn [published_as task_fits] in *; try done;
      unfold answer_of in Hf; rewrite He in Hf; destruct Hf as (_ & (o & -> & _) & _); eauto. }
  eapply done_uninserted; [done|by apply node_world|done|done].
Qed.

(** What is read of an event that nobody inserts any more and that is there in the
    end. *)
Lemma reads_settled n1 n2 ms (r : nat -> Node) e :
  ok n1 -> run_node n1 ms = Some n2 -> uninserted (nd_index n1) (ev_id e) ->
  (forall m, exists before after, ms = before ++ after /\ run_node n1 before = Some (r m)) ->
  by_id (w_index (nd_index n2)) !! ev_id e = Some e ->
  settled_throughout (fun m => nd_index (r m)) e.
Proof.
  intros Hn1 Hr2 Hu Hreads He m. destruct (Hreads m) as (a & b & -> & Ha).
  pose proof (node_ok_run _ _ _ _ _ _ Hn1 Ha) as Hm. pose proof (node_ok_run _ _ _ _ _ _ Hn1 Hr2) as Hn2.
  apply run_node_app in Hr2 as (n & Ha' & Hb). rewrite Ha in Ha'. injection Ha' as <-.
  destruct (uninserted_steps _ _ _ Hu (run_node_index _ _ _ Ha)) as [Hum _].
  destruct (uninserted_steps _ _ _ Hum (run_node_index _ _ _ Hb)) as [_ Hl].
  destruct (node_world _ Hn2) as [Hok2 _]. destruct (to_by_id _ _ _ Hok2 _ _ He) as [_ Hg].
  eapply uninserted_settled; [by apply node_world|done|exact Hg|apply Hl; by exists e].
Qed.

(** An event that is stored at some moment has been there from the start, or one
    task inserts it. *)
Lemma stored_origin n e :
  ok n -> by_id (w_index (nd_index n)) !! ev_id e = Some e ->
  by_id ix !! ev_id e = Some e \/ exists k, calls !! k = Some (CInsert e).
Proof.
  intros Hn He. destruct (og_stored _ _ _ (proj2 (node_world n Hn)) _ _ He) as [?|Hin]; [by left|right].
  by apply list_elem_of_lookup in Hin.
Qed.

(** C5: no event falls between the stored answer and live delivery, at the grain of
    single accesses. A client's REQ has registered its subscription [sid]; then the
    reads of the query that answers one of its filters [f] (its [#e] and [#p] values
    are ids, its limit is positive) are taken, each in some state of a run in which
    events are inserted, logged and published, others are evicted and deleted, and
    clients subscribe, unsubscribe, read and disconnect, all access by access in any
    interleaving. The events inserted in the run are distinct, and none of them is stored when it begins (an event that is sent again
    while it is evicted can be stored and missed, [stored_event_unlisted]). Let [e]
    be an event that is stored when the last read has been taken, that [f] matches,
    and whose insertion, if it is of this run, is answered as stored in the end; let
    the subscription still be there then, and not opened anew. If the reads found
    fewer candidates than the limit, [e] is in the query's result, or its publication
    has offered it to the subscription. *)
Theorem no_event_missed_meanwhile ms1 n1 i id c sid fs ms2 n2 ms3 n3 p' c' r f e :
  run_node (node_start ix wal calls) ms1 = Some n1 ->
  rt_threads (nd_router n1) !! i = Some (Conn id Idle) ->
  fo_states (rt_fanout (nd_router n1)) !! id = Some c -> (sid, fs) ∈ c_subs c ->
  run_node n1 ms2 = Some n2 -> run_node n2 ms3 = Some n3 ->
  (forall gs, NRouter (MRequest i (Subscribe sid gs)) ∉ ms2 ++ ms3) ->
  rt_threads (nd_router n3) !! i = Some (Conn id p') -> ~ departed p' ->
  fo_states (rt_fanout (nd_router n3)) !! id = Some c' -> sid ∈ (c_subs c').*1 ->
  (forall m, exists before after, ms2 = before ++ after /\ run_node n1 before = Some (r m)) ->
  f ∈ fs -> decoded_filter f -> (0 < fetch_limit f)%Z -> matches_event f e = true ->
  by_id (w_index (nd_index n2)) !! ev_id e = Some e ->
  (forall k, calls !! k = Some (CInsert e) ->
     exists olds pub, nd_tasks n3 !! k = Some (TAnswered e (IRStored e olds) pub)) ->
  exists cs l, candidates_meanwhile (fun m => w_index (nd_index (r m))) f = Ret cs
  /\ query_filter_meanwhile (fun m => w_index (nd_index (r m))) f = Ret l
  /\ ((Z.of_nat (length cs) < fetch_limit f)%Z ->
      ev_id e ∈ ev_id <$> l
      \/ exists k olds j, calls !! k = Some (CInsert e)
           /\ nd_tasks n3 !! k = Some (TAnswered e (IRStored e olds) (Some j))
           /\ sid ∈ offered j id (rt_log (nd_router n3))).
Proof.
  intros Hr1 Hi Hc Hin Hr2 Hr3 Hms Hi' Hd' Hc' Hin' Hreads Hf Hdec Hlim Hm He Hans.
  pose proof (node_ok_run _ _ _ _ _ _ (node_ok_start ix wal calls) Hr1) as Hn1.
  pose proof (node_ok_run _ _ _ _ _ _ Hn1 Hr2) as Hn2. pose proof (node_ok_run _ _ _ _ _ _ Hn2 Hr3) as Hn3.
  destruct (query_meanwhile core_of (fun m => nd_index (r m))) with (f := f) as (cs & l & Hcs & Hl & _ & _ & Hcompl).
  { intros m. destruct (Hreads m) as (a & b & _ & Ha). apply node_world. exact (node_ok_run _ _ _ _ _ _ Hn1 Ha). }
  { done. }
  exists cs, l. split; [exact Hcs|]. split; [exact Hl|]. intros Hshort.
  assert (uninserted (nd_index n1) (ev_id e) -> ev_id e ∈ ev_id <$> l) as Hstored.
  { intros Hu. apply Hcompl; [done| |by apply matches_selected].
    exact (reads_settled n1 n2 ms2 r e Hn1 Hr2 Hu Hreads He). }
  destruct (stored_origin n2 e Hn2 He) as [Hold|[k Hk]].
  { left. apply Hstored. eapply old_uninserted; [exact calls_fit|by apply node_world|done]. }
  destruct (Hans k Hk) as (olds & pub & Ht3).
  destruct (nd_tasks n1 !! k) as [t|] eqn:Ht.
  2: { exfalso. apply lookup_ge_None in Ht. apply lookup_lt_Some in Hk. rewrite (no_length _ _ _ _ Hn1) in Ht. lia. }
  destruct (published_as t) as [j|] eqn:Hpub.
  { left. apply Hstored. by eapply (published_uninserted n1 n3). }
  right. pose proof (no_router _ _ _ _ Hn1) as Ho1.
  assert (watched k e i id sid fs n3) as Hw.
  { apply (watched_run ix wal calls k e i id sid fs Hk n1 (ms2 ++ ms3)); [done| |by apply run_node_app; exists n2|done].
    exists t. split; [done|]. left. split; [done|]. right. by eapply opened_idle; [apply Ho1|..]. }
  destruct (no_tasks _ _ _ _ Hn3 k _ Ht3) as (c3 & p3 & Hc3 & _ & Hf3).
  rewrite Hk in Hc3. injection Hc3 as <-. destruct Hf3 as (_ & _ & Hpub3). destruct pub as [j|]; [|done].
  destruct (watched_answered ix wal calls k e i id sid fs Hk n3 _ j Hn3 Hw Ht3) as [_ Hoff].
  { by eapply not_closed. }
  exists k, olds, j. split; [done|]. split; [done|]. apply Hoff.
  unfold Fanout.wants. apply existsb_exists. exists f. split; [by apply list_elem_of_In|done].
Qed.

(** C6: what the reply to an event stands for. When the task of an event is answered
    (unless it is a deletion request that was refused at once, as held or deleted),
    at any interleaving with other events, evictions, deletions and clients: the
    result is the one the index gave; its insert record, and the delete record of
    what it replaced, are in the log in this order; and either the result is not one
    that is published and there was no publication, or its publication has returned
    and has offered the event exactly once to every matching subscription that was
    there when the publication began and still is, and to no other that was. *)
Theorem reply_after_log_and_publication ms1 n1 i id c sid fs ms2 n2 p' c' k e t res pub :
  run_node (node_start ix wal calls) ms1 = Some n1 ->
  rt_threads (nd_router n1) !! i = Some (Conn id Idle) ->
  fo_states (rt_fanout (nd_router n1)) !! id = Some c -> (sid, fs) ∈ c_subs c ->
  calls !! k = Some (CInsert e) -> nd_tasks n1 !! k = Some t -> published_as t = None ->
  run_node n1 ms2 = Some n2 ->
  (forall gs, NRouter (MRequest i (Subscribe sid gs)) ∉ ms2) ->
  rt_threads (nd_router n2) !! i = Some (Conn id p') -> ~ departed p' ->
  fo_states (rt_fanout (nd_router n2)) !! id = Some c' -> sid ∈ (c_subs c').*1 ->
  nd_tasks n2 !! k = Some (TAnswered e res pub) ->
  (exists p, w_threads (nd_index n2) !! k = Some p /\ answer_of e p res)
  /\ (exists ops, nd_wal n2 = log_ops ops wal /\ records (CInsert e) (TAnswered e res pub) `sublist_of` ops)
  /\ match pub with
     | Some j => announces e res = true /\ has_published (nd_router n2) j e
         /\ NoDup (offered j id (rt_log (nd_router n2)))
         /\ (sid ∈ offered j id (rt_log (nd_router n2)) <-> Fanout.wants e (sid, fs) = true)
     | None => announces e res = false
     end.
Proof.
  intros Hr1 Hi Hc Hin Hk Ht Hpub Hr2 Hms Hi' Hd' Hc' Hin' Ht2.
  pose proof (node_ok_run _ _ _ _ _ _ (node_ok_start ix wal calls) Hr1) as Hn1.
  pose proof (node_ok_run _ _ _ _ _ _ Hn1 Hr2) as Hn2.
  destruct (no_tasks _ _ _ _ Hn2 k _ Ht2) as (c2 & p2 & Hc2 & Hp2 & Hf2).
  rewrite Hk in Hc2. injection Hc2 as <-. destruct Hf2 as (_ & Ha & Hp).
  split; [by exists p2|]. split.
  { destruct (no_log _ _ _ _ Hn2) as (ops & Hw & Hrec). exists ops. split; [done|]. by eapply Hrec. }
  destruct pub as [j|]; [|done]. destruct Hp as [Hb Hp]. split; [done|]. split; [done|].
  apply (watched_answered ix wal calls k e i id sid fs Hk n2 res j Hn2); [|done|by eapply not_closed].
  eapply watched_run; [done|exact Hn1| |exact Hr2|exact Hms].
  exists t. split; [done|]. left. split; [done|]. right.
  eapply opened_idle; [apply (no_router _ _ _ _ Hn1)|done..].
Qed.
End Properties.

(** * Termination *)

Section Termination.
Context `{HexCrate, Channel} (ix : EventIndex) (wal : option Wal) (calls : list call).
Implicit Types (n : Node) (t : task).

(** A step of a thread or a task that is at work; clients and channels do
    nothing. *)
Definition working (m : node_move) : Prop :=
  match m with NAccess _ | NTask _ _ | NRouter (MRun _) => True | _ => False end.
Definition nstep n n' : Prop := exists m, working m /\ node_step n m = Some n'.

(** The task has its answer. *)
Definition returned n (k : nat) : Prop :=
  match nd_tasks n !! k with
  | Some (TAnswered _ _ _ | TRefused _ _) => True
  | Some TIndex => exists a, w_threads (nd_index n) !! k = Some (Done a)
  | _ => False
  end.

(** ** Every run of steps ends *)

Definition rank t : nat :=
  match t with
  | TContains _ => 7 | TTombstoned _ => 6 | TInsert _ => 5 | TLog _ _ => 4 | TLogDelete _ _ => 3 | TAnnounce _ _ => 2
  | TAnnouncing _ _ _ | TRecord _ => 1 | TAnswered _ _ _ | TIndex | TRefused _ _ => 0
  end.
Definition lower t' t : Prop := rank t' < rank t.

Lemma lower_wf : well_founded lower.
Proof. apply (Wf_nat.well_founded_ltof task rank). Qed.

Lemma task_step_lower n k clock t wal' r t' :
  task_step n k clock t = Some (wal', r, t') -> lower t' t.
Proof.
  intros Hs. assert (forall e res, rank (inserted_as e res) <= 2) as Hins.
  { intros e res. unfold inserted_as. destruct (announces e res); cbn; lia. }
  unfold lower. destruct t as [e|e rep|e old|e res|e res j|e res pub|id| |e|e|]; cbn [task_step] in Hs; try done.
  - destruct (w_threads _ !! k) as [[| | | | | | | | | | | | | | | | | | | |[o|]]|]; try done.
    injection Hs as _ _ <-. destruct o; cbn [after_outcome rank]; try lia;
      match goal with |- context [inserted_as e ?r] => specialize (Hins e r) end; lia.
  - injection Hs as _ _ <-. destruct rep; cbn [rank]; [lia|]. specialize (Hins e (IRStored e [])). lia.
  - injection Hs as _ _ <-. specialize (Hins e (IRStored e [old])). cbn [rank]. lia.
  - apply bind_Some in Hs as (r1 & _ & [= _ _ <-]). cbn. lia.
  - repeat case_match; simplify_eq. cbn. lia.
  - injection Hs as _ _ <-. cbn. lia.
  - injection Hs as _ _ <-. case_bool_decide; cbn; lia.
  - injection Hs as _ _ <-. cbn [rank]. destruct (is_tombstoned _ _); [cbn; lia|].
    unfold enter_insert. destruct (is_ephemeral e); [|cbn; lia]. specialize (Hins e IREphemeral). lia.
Qed.

Lemma nstep_parts ts w r :
  Acc (one_less lower) ts -> Acc (fun w' w => cstep w w') w -> Acc (fun r' r => rstep r r') r ->
  forall wal, Acc (fun n' n => nstep n n') (mkNode w wal r ts).
Proof.
  intros Hts. revert w r. induction Hts as [ts _ IHts]. intros w r Hw. revert r.
  induction Hw as [w Hw IHw]. intros r Hr. induction Hr as [r Hr IHr]. intros wal0. constructor.
  intros n' (m & Hm & Hs).
  destruct m as [k|k clock|[j|tx now|j q|clock ev|j tx]]; try contradiction; cbn [node_step] in Hs.
  - apply bind_Some in Hs as (t & _ & Hs). destruct (in_index t); [|done].
    apply bind_Some in Hs as (w' & Hw' & [= <-]). apply IHw; [by exists k|by constructor].
  - apply bind_Some in Hs as (t & Ht & Hs). apply bind_Some in Hs as ([[wal' r'] t'] & Hst & [= <-]).
    apply IHts; [|by constructor|apply rstep_wf]. exists k, t, t'. split_and!; [done|done|].
    by eapply task_step_lower.
  - apply bind_Some in Hs as (r' & Hr' & [= <-]). apply IHr. by exists j.
Qed.

Lemma nstep_wf n : Acc (fun n' n => nstep n n') n.
Proof.
  destruct n as [w wal0 r ts]. apply nstep_parts; [|apply cstep_wf|apply rstep_wf].
  apply one_less_wf, lower_wf.
Qed.

(** ** None is stuck *)

(** The thread of a task that waits for the index can go on, or the one it waits
    for. *)
Lemma index_progress n k t p :
  node_ok ix wal calls n -> nd_tasks n !! k = Some t -> in_index t = true ->
  w_threads (nd_index n) !! k = Some p -> finished p = false -> exists n', nstep n n'.
Proof.
  intros Hn Ht Hin Hp Hf.
  assert (Forall no_wait (w_threads (nd_index n))) as Hnw.
  { eapply no_wait_steps; [|apply (no_index _ _ _ _ Hn)]. apply no_wait_starting. }
  destruct (thread_progress _ _ _ Hnw Hp Hf) as (m & q & w' & Hq & Hm & Hr).
  assert (exists u, nd_tasks n !! m = Some u /\ in_index u = true) as (u & Hu & Hui).
  { destruct Hm as [->|Hh]; [by exists t|].
    destruct (nd_tasks n !! m) as [u|] eqn:Hu.
    2: { exfalso. apply lookup_ge_None in Hu. apply lookup_lt_Some in Hq.
         rewrite (no_length _ _ _ _ Hn) in Hu.
         destruct (w_threads (nd_index n) !! m) as [q0|] eqn:E; [|by apply lookup_ge_None in E; lia].
         destruct (og_thread ix calls (nd_index n)) with (k := m) (p := q0) as (c & Hc & _); [|done|].
         - eapply origin_steps; [apply origin_starting|apply (no_index _ _ _ _ Hn)].
         - apply lookup_lt_Some in Hc. lia. }
    exists u. split; [done|]. destruct (no_tasks _ _ _ _ Hn m u Hu) as (c & q' & _ & Hq' & Hfit).
    assert (q' = q) as -> by congruence. unfold answer_of in Hfit.
    destruct c as [e| |], u; cbn in Hfit; try done; unfold answer_of in Hfit;
      try (destruct Hfit as (_ & _ & ->); by destruct Hh);
      try (destruct (is_ephemeral e); destruct Hfit as (_ & Ha & _); [destruct Ha as [_ ->]|destruct Ha as (o & -> & _)];
        by destruct Hh).
    all: destruct Hfit as [_ ->]; by destruct Hh. }
  eexists. exists (NAccess m). split; [done|]. cbn [node_step]. rewrite Hu. cbn [mbind option_bind].
  rewrite Hui, Hr. reflexivity.
Qed.

Lemma node_progress n k t :
  node_ok ix wal calls n -> nd_tasks n !! k = Some t -> ~ returned n k -> exists n', nstep n n'.
Proof.
  intros Hn Ht Hr. unfold returned in Hr. rewrite Ht in Hr.
  destruct (no_tasks _ _ _ _ Hn k t Ht) as (c & p & Hc & Hp & Hf).
  assert (forall wal' r t', task_step n k (fun _ _ => 0%Z) t = Some (wal', r, t') -> exists n', nstep n n') as Htask.
  { intros wal' r t' Hst. eexists. exists (NTask k (fun _ _ => 0%Z)). split; [done|].
    cbn [node_step]. rewrite Ht. cbn [mbind option_bind]. rewrite Hst. reflexivity. }
  destruct t as [e|e rep|e old|e res|e res j|e res pub|id| |e|e|]; try (by destruct Hr).
  - destruct (finished p) eqn:Hfin; [|by eapply (index_progress n k)].
    destruct c as [e0| |]; try done. destruct Hf as (-> & _ & [Hi|[o ->]]); [by destruct p|].
    eapply Htask. cbn [task_step]. rewrite Hp. reflexivity.
  - eapply Htask. reflexivity.
  - eapply Htask. reflexivity.
  - eapply Htask. reflexivity.
  - destruct c as [e0| |]; try done. destruct Hf as (-> & _ & _ & clock & q & Hj).
    destruct (active (Publisher clock (broadcast_new e0) q)) eqn:Ha.
    + destruct (router_progress _ j _ (on_ok _ (no_router _ _ _ _ Hn)) Hj Ha) as (j' & u & r & _ & _ & _ & Hrun).
      eexists. exists (NRouter (MRun j')). split; [done|]. cbn [node_step router_step]. rewrite Hrun. reflexivity.
    + destruct q; try done. eapply Htask. cbn [task_step]. rewrite Hj. reflexivity.
  - eapply Htask. reflexivity.
  - eapply (index_progress n k); [done|exact Ht|done|exact Hp|]. destruct p; try done. destruct Hr. by eexists.
  - eapply Htask. reflexivity.
  - eapply Htask. reflexivity.
Qed.

(** C14: every call is answered: in every state that events, evictions, deletions and
    clients can reach at any interleaving, if some task has no answer yet, then a
    thread or a task can take its next step without waiting for anybody, and no
    run of such steps is infinite. So when the clients pause, every event that was
    sent has been stored or refused, logged, published, and answered. *)
Theorem node_tasks_return ms n k t :
  run_node (node_start ix wal calls) ms = Some n -> nd_tasks n !! k = Some t -> ~ returned n k ->
  (exists n', nstep n n') /\ Acc (fun n' n => nstep n n') n.
Proof.
  intros Hr Ht Hk. split; [|apply nstep_wf]. eapply node_progress; [|exact Ht|exact Hk].
  exact (node_ok_run _ _ _ _ _ _ (node_ok_start ix wal calls) Hr).
Qed.
End Termination.

(** * Closed runs *)

(** A client subscribes to the list of an author; the list is replaced and its first
    version evicted. The query of the client reads the index at the moment at which
    the first version is gone and the second not yet there. *)
Definition list_filter : Filter := kind_filter [10002%Z].

Definition sample_node : Node :=
  node_start (index_of [list_v1]) (Some open_empty) evict_and_insert.
Definition accesses (k n : nat) : list node_move := replicate n (NAccess k).

Definition subscribing : list node_move :=
  [NRouter (MConnect [] 0); NRouter (MRequest 0 (Subscribe (lit "a") [list_filter]));
   NRouter (MRun 0); NRouter (MRun 0); NRouter (MRun 0); NRouter (MRun 0)].
Definition querying : list node_move := accesses 0 11.
Definition storing : list node_move := accesses 0 2.
Definition finishing : list node_move :=
  accesses 1 1 ++ accesses 0 8 ++ replicate 4 (NTask 0 noon) ++ accesses 1 1
  ++ replicate 6 (NRouter (MRun 1)) ++ [NTask 0 noon].

Definition moment (ms : list node_move) : option Node := run_node sample_node ms.

Definition place_of (n : Node) : list task * option thread * option (list str) * list str :=
  (nd_tasks n, rt_threads (nd_router n) !! 0, map fst <$> subs_of (rt_fanout (nd_router n)) 1,
   offered 1 1 (rt_log (nd_router n))).

Example subscribed_place :
  (fun n => (place_of n, subs_of (rt_fanout (nd_router n)) 1)) <$> moment subscribing
  = Some ([TInsert list_v2; TIndex], Some (Conn 1 Idle), Some [lit "a"], [],
          Some [(lit "a", [list_filter])]).
Proof. vm_compute. reflexivity. Qed.

Example queried_empty :
  (fun n => (candidates_meanwhile (fun _ => w_index (nd_index n)) list_filter,
             query_filter_meanwhile (fun _ => w_index (nd_index n)) list_filter))
    <$> moment (subscribing ++ querying)
  = Some (Ret [], Ret []).
Proof. vm_compute. reflexivity. Qed.

Example stored_then :
  (fun n => by_id (w_index (nd_index n)) !! ev_id list_v2)
    <$> moment (subscribing ++ querying ++ storing) = Some (Some list_v2).
Proof. vm_compute. reflexivity. Qed.

Example finished_place :
  place_of <$> moment (subscribing ++ (querying ++ storing) ++ finishing)
  = Some ([TAnswered list_v2 (IRStored list_v2 [list_v1]) (Some 1); TIndex], Some (Conn 1 Idle),
          Some [lit "a"], [lit "a"]).
Proof. vm_compute. reflexivity. Qed.

(** The moments of the run, each reached from the one before. *)
Lemma sample_moments :
  exists n1 nq n2 n3, moment subscribing = Some n1 /\ run_node n1 querying = Some nq
    /\ run_node n1 (querying ++ storing) = Some n2 /\ run_node n2 finishing = Some n3
    /\ place_of n1 = ([TInsert list_v2; TIndex], Some (Conn 1 Idle), Some [lit "a"], [])
    /\ subs_of (rt_fanout (nd_router n1)) 1 = Some [(lit "a", [list_filter])]
    /\ candidates_meanwhile (fun _ => w_index (nd_index nq)) list_filter = Ret []
    /\ by_id (w_index (nd_index n2)) !! ev_id list_v2 = Some list_v2
    /\ place_of n3 = ([TAnswered list_v2 (IRStored list_v2 [list_v1]) (Some 1); TIndex],
         Some (Conn 1 Idle), Some [lit "a"], [lit "a"]).
Proof.
  pose proof subscribed_place as (m1 & M1 & E1)%fmap_Some. pose proof queried_empty as (mq & Mq & E2)%fmap_Some.
  pose proof stored_then as (m2 & M2 & E3)%fmap_Some. pose proof finished_place as (n3 & R3 & E4)%fmap_Some.
  unfold moment in *. pose proof R3 as (n1 & R1 & (n2 & R2 & R23)%run_node_app)%run_node_app.
  pose proof R2 as (nq & Rq & _)%run_node_app.
  pose proof (proj2 (run_node_app sample_node subscribing querying nq) (ex_intro _ n1 (conj R1 Rq))) as Sq.
  pose proof (proj2 (run_node_app sample_node subscribing (querying ++ storing) n2)
    (ex_intro _ n1 (conj R1 R2))) as S2.
  pose proof (eq_trans (eq_sym R1) M1) as [= <-]. pose proof (eq_trans (eq_sym Sq) Mq) as [= <-].
  pose proof (eq_trans (eq_sym S2) M2) as [= <-]. pose proof (f_equal fst E1) as P1.
  pose proof (f_equal snd E1) as S1. pose proof (f_equal fst E2) as C2. cbn [fst snd] in P1, S1, C2.
  exists n1, nq, n2, n3. split; [exact R1|]. split; [exact Rq|].
  split; [exact R2|]. split; [exact R23|]. split; [exact (eq_sym P1)|].
  split; [exact (eq_sym S1)|]. split; [exact (eq_sym C2)|]. split; [exact (eq_sym E3)|exact (eq_sym E4)].
Qed.

Lemma sample_subs n l : subs_of (rt_fanout (nd_router n)) 1 = Some l ->
  exists c, fo_states (rt_fanout (nd_router n)) !! 1%Z = Some c /\ c_subs c = l.
Proof. unfold subs_of. intros (c & Hc & ->)%fmap_Some. by exists c. Qed.

Lemma no_reopening : forall gs, NRouter (MRequest 0 (Subscribe (lit "a") gs)) ∉ (querying ++ storing) ++ finishing.
Proof.
  intros gs Hin. apply list_elem_of_In in Hin.
  cbn [querying storing finishing accesses replicate app In] in Hin.
  repeat (destruct Hin as [Hin|Hin]; [discriminate Hin|]). exact Hin.
Qed.

Lemma sample_fits : wf_index sample_core (index_of [list_v1]) /\ calls_ok sample_core (index_of [list_v1]) evict_and_insert.
Proof. split; [apply wf_index_of; by repeat constructor|apply sample_calls_ok]. Qed.

Lemma no_event_missed_meanwhile_witness :
  exists nq n3 l, moment (subscribing ++ querying) = Some nq
  /\ query_filter_meanwhile (fun _ => w_index (nd_index nq)) list_filter = Ret l
  /\ (ev_id list_v2 ∈ ev_id <$> l
      \/ exists k olds j, evict_and_insert !! k = Some (CInsert list_v2)
           /\ nd_tasks n3 !! k = Some (TAnswered list_v2 (IRStored list_v2 olds) (Some j))
           /\ lit "a" ∈ offered j 1 (rt_log (nd_router n3))).
Proof.
  destruct sample_moments as (n1 & nq & n2 & n3 & R1 & Rq & R2 & R3 & P1 & S1 & C & B & P3).
  destruct sample_fits as [Hwf Hcalls]. unfold place_of in P1, P3. injection P1 as T1 I1 _ _.
  injection P3 as T3 I3 S3 _. destruct (sample_subs n1 _ S1) as (c & Hc & Hs).
  apply fmap_Some in S3 as (l3 & S3 & Hl3). destruct (sample_subs n3 _ S3) as (c3 & Hc3 & Hs3).
  destruct (no_event_missed_meanwhile sample_core (index_of [list_v1]) (Some open_empty) evict_and_insert
    Hwf Hcalls subscribing n1 0 1 c (lit "a") [list_filter] (querying ++ storing) n2 finishing n3 Idle c3
    (fun _ => nq) list_filter list_v2) as (cs & l & Hcs & Hl & Hor).
  - exact R1.
  - exact I1.
  - exact Hc.
  - rewrite Hs. left.
  - exact R2.
  - exact R3.
  - apply no_reopening.
  - exact I3.
  - by intros [?|?].
  - exact Hc3.
  - rewrite Hs3. change (lit "a" ∈ map fst l3). rewrite <- Hl3. left.
  - intros _. exists querying, storing. split; [reflexivity|exact Rq].
  - left.
  - split; [reflexivity|]. split; [reflexivity|]. by split; intros vs v.
  - reflexivity.
  - vm_compute. reflexivity.
  - exact B.
  - intros k Hk. destruct k as [|k]; [|destruct k; discriminate Hk].
    exists [list_v1], (Some 1). rewrite T3. reflexivity.
  - exists nq, n3, l. split; [apply run_node_app; exists n1; exact (conj R1 Rq)|]. split; [exact Hl|].
    apply Hor. rewrite Hcs in C. injection C as ->. reflexivity.
Defined.

Lemma reply_after_log_and_publication_witness :
  exists n3, moment (subscribing ++ (querying ++ storing) ++ finishing) = Some n3
  /\ (exists ops, nd_wal n3 = log_ops ops (Some open_empty)
       /\ [WInsert (ev_raw list_v2); WDelete (ev_id list_v1)] `sublist_of` ops)
  /\ has_published (nd_router n3) 1 list_v2 /\ lit "a" ∈ offered 1 1 (rt_log (nd_router n3)).
Proof.
  destruct sample_moments as (n1 & nq & n2 & n3 & R1 & Rq & R2 & R3 & P1 & S1 & C & B & P3).
  unfold place_of in P1, P3. injection P1 as T1 I1 _ _.
  injection P3 as T3 I3 S3 _. destruct (sample_subs n1 _ S1) as (c & Hc & Hs).
  apply fmap_Some in S3 as (l3 & S3 & Hl3). destruct (sample_subs n3 _ S3) as (c3 & Hc3 & Hs3).
  pose proof (proj2 (run_node_app n1 (querying ++ storing) finishing n3) (ex_intro _ n2 (conj R2 R3))) as R13.
  destruct (reply_after_log_and_publication (index_of [list_v1]) (Some open_empty) evict_and_insert
    subscribing n1 0 1 c (lit "a") [list_filter] ((querying ++ storing) ++ finishing) n3 Idle c3 0 list_v2
    (TInsert list_v2) (IRStored list_v2 [list_v1]) (Some 1)) as (_ & (ops & Hw & Hops) & _ & Hpub & _ & Hoff).
  - exact R1.
  - exact I1.
  - exact Hc.
  - rewrite Hs. left.
  - reflexivity.
  - by rewrite T1.
  - reflexivity.
  - exact R13.
  - exact no_reopening.
  - exact I3.
  - by intros [?|?].
  - exact Hc3.
  - rewrite Hs3. change (lit "a" ∈ map fst l3). rewrite <- Hl3. left.
  - by rewrite T3.
  - exists n3. split; [apply run_node_app; exists n1; exact (conj R1 R13)|].
    split; [exists ops; exact (conj Hw Hops)|]. split; [exact Hpub|]. apply Hoff. vm_compute. reflexivity.
Defined.

Lemma node_tasks_return_witness :
  exists n, moment subscribing = Some n /\ (exists n', nstep n n') /\ Acc (fun n' n => nstep n n') n.
Proof.
  destruct sample_moments as (n1 & _ & _ & _ & R1 & _ & _ & _ & P1 & _).
  unfold place_of in P1. injection P1 as T1 _ _ _. exists n1. split; [exact R1|].
  apply (node_tasks_return (index_of [list_v1]) (Some open_empty) evict_and_insert subscribing n1 0 (TInsert list_v2)).
  - exact R1.
  - by rewrite T1.
  - unfold returned. rewrite T1. by intros [].
Defined.
