(* ===== verification/Config.v ===== *)
(** [src/src/config.rs]: the configuration and its defaults. [Main.v] loads it
    from a file and the environment. *)
From S2P Require Import Prelude.
Open Scope memlay_scope.

(** [struct Config]. *)
Record Config := mkCfg {
  bind_addr : str;
  target_ram_percent : Z;
  cfg_max_bytes : Z;
  max_subscriptions : Z;
  max_limit : Z;
  idle_timeout : Z;
  persistence_path : option str;
  persistence_interval : Z;
  trusted_proxies : list str;
  prometheus_url : option str;
  log_dir : option str;
}.

(** The [default_*] functions. *)
Definition default_bind_addr : str := lit "0.0.0.0:8080".
Definition default_target_ram_percent : Z := 80.
Definition default_max_subscriptions : Z := 300.
Definition default_max_limit : Z := 5000.
Definition default_idle_timeout : Z := 10.
Definition default_persistence_interval : Z := 60.

(** [Config::default]. *)
Definition config_default : Config :=
  mkCfg default_bind_addr default_target_ram_percent 0 default_max_subscriptions
    default_max_limit default_idle_timeout None default_persistence_interval [] None None.
