(* ===== verification/Proxy.v ===== *)
(** [src/src/proxy.rs]: which address a connection is attributed to behind a
    reverse proxy.

    [IpAddr]'s [FromStr] is the standard library's parser, modelled from its
    documented grammar (dotted decimal without leading zeros; up to eight groups
    of hex digits, one [::], a trailing dotted quad). Networks are the [ipnet]
    crate's ([Class IpNets]) and header maps the [http] crate's ([Class Headers]);
    both are parameters, with the laws the code relies on. *)
From S2P Require Import Prelude Text.
Open Scope memlay_scope.

(** * [std::net] *)

(** [enum IpAddr], by its octets: four, or sixteen. *)
Inductive IpAddr :=
| V4 (octets : bytes)
| V6 (octets : bytes).

#[export] Instance IpAddr_eq_dec : EqDecision IpAddr.
Proof. solve_decision. Defined.

(** [enum SocketAddr]; the last two fields are those of a [SocketAddrV6], zero
    otherwise. *)
Record SocketAddr := mkSocketAddr {
  sa_ip : IpAddr;
  sa_port : Z;
  sa_flowinfo : Z;
  sa_scope_id : Z;
}.

(** [SocketAddr::new]. *)
Definition socket_addr_new (ip : IpAddr) (port : Z) : SocketAddr :=
  mkSocketAddr ip port 0 0.

(** [char::to_digit]. *)
Definition to_digit (radix : Z) (c : N) : option Z :=
  let z := Z.of_N c in
  let d :=
    if (48 <=? z)%Z && (z <=? 57)%Z then Some (z - 48)%Z
    else if (97 <=? z)%Z && (z <=? 122)%Z then Some (z - 87)%Z
    else if (65 <=? z)%Z && (z <=? 90)%Z then Some (z - 55)%Z
    else None in
  match d with
  | Some d => if (d <? radix)%Z then Some d else None
  | None => None
  end.

(** The digit loop of [Parser::read_number]: the number, how many digits it has
    and the text after it; [None] once there are more than [max_digits]. *)
Fixpoint read_digits (radix : Z) (room : nat) (acc : Z) (s : str) {struct s}
    : option (Z * nat * str) :=
  match s with
  | c :: s' =>
      match to_digit radix c with
      | Some d =>
          match room with
          | S room =>
              '(n, count, rest) ← read_digits radix room (acc * radix + d) s';
              Some (n, S count, rest)
          | O => None
          end
      | None => Some (acc, 0, s)
      end
  | [] => Some (acc, 0, [])
  end.

(** [Parser::read_number]. *)
Definition read_number (radix : Z) (max_digits : nat) (allow_zero_prefix : bool)
    (max : Z) (s : str) : option (Z * str) :=
  '(n, count, rest) ← read_digits radix max_digits 0 s;
  if bool_decide (count = 0) then None
  else if negb allow_zero_prefix && bool_decide (head s = Some 48%N) && bool_decide (1 < count)
  then None
  else if (n <=? max)%Z then Some (n, rest) else None.

(** [Parser::read_given_char], and the separator of [Parser::read_separator],
    which the first item does without. *)
Definition read_separator (sep : N) (index : nat) (s : str) : option str :=
  match index with O => Some s | S _ => strip_prefix sep s end.

Definition DOT : N := 46.
Definition COLON : N := 58.
Definition COMMA : N := 44.

(** [Parser::read_ipv4_addr]. *)
Definition read_octet (index : nat) (s : str) : option (Z * str) :=
  s ← read_separator DOT index s; read_number 10 3 false 255 s.
Definition read_ipv4_addr (s : str) : option (bytes * str) :=
  '(a, s) ← read_octet 0 s;
  '(b, s) ← read_octet 1 s;
  '(c, s) ← read_octet 2 s;
  '(d, s) ← read_octet 3 s;
  Some ([a; b; c; d], s).

(** The [read_groups] of [Parser::read_ipv6_addr]: groups [i], [i + 1], ... of
    [limit], whether the last two are an embedded IPv4 address, and the rest of
    the text. Groups are kept as pairs of octets. *)
Fixpoint read_groups (fuel i limit : nat) (s : str) : list bytes * bool * str :=
  match fuel with
  | O => ([], false, s)
  | S fuel =>
      let ipv4 :=
        if bool_decide (S i < limit)
        then s ← read_separator COLON i s; read_ipv4_addr s
        else None in
      match ipv4 with
      | Some (quad, s) => ([take 2 quad; drop 2 quad], true, s)
      | None =>
          match s ← read_separator COLON i s; read_number 16 4 true 65535 s with
          | Some (g, s) =>
              let '(groups, v4, rest) := read_groups fuel (S i) limit s in
              ([(g / 256)%Z; (g mod 256)%Z] :: groups, v4, rest)
          | None => ([], false, s)
          end
      end
  end.

(** [Parser::read_ipv6_addr]. *)
Definition read_ipv6_addr (s : str) : option (bytes * str) :=
  let '(head, head_ipv4, s) := read_groups 8 0 8 s in
  if bool_decide (length head = 8) then Some (concat head, s)
  else if head_ipv4 then None
  else
    s ← strip_prefix COLON s;
    s ← strip_prefix COLON s;
    let limit := 8 - (length head + 1) in
    let '(tail, _, s) := read_groups limit 0 limit s in
    Some (concat (head ++ replicate (8 - length head - length tail) [0%Z; 0%Z] ++ tail), s).

(** [<IpAddr as FromStr>::from_str]: IPv4, else IPv6, and nothing after it. *)
Definition parse_ip (s : str) : option IpAddr :=
  match read_ipv4_addr s with
  | Some (quad, []) => Some (V4 quad)
  | Some (_, _ :: _) => None
  | None =>
      match read_ipv6_addr s with
      | Some (octets, []) => Some (V6 octets)
      | _ => None
      end
  end.

(** [Ipv6Addr::to_ipv4_mapped]. *)
Definition to_ipv4_mapped (octets : bytes) : option bytes :=
  if bool_decide (take 12 octets = replicate 10 0%Z ++ [255; 255]%Z)
  then Some (drop 12 octets) else None.

(** [str::trim] and [str::split]. *)
Definition trim (s : str) : str := rev (trim_start (rev (trim_start s))).
Fixpoint split_char (sep : N) (s : str) : list str :=
  match s with
  | [] => [[]]
  | c :: s' =>
      if (c =? sep)%N then [] :: split_char sep s'
      else match split_char sep s' with
           | part :: parts => (c :: part) :: parts
           | [] => [[c]]
           end
  end.

(** [Iterator::find_map]. *)
Fixpoint find_map {A B} (f : A -> option B) (l : list A) : option B :=
  match l with
  | [] => None
  | x :: l => match f x with Some y => Some y | None => find_map f l end
  end.

(** * The crates *)

(** [ipnet::IpNet]: [FromStr], [From<IpAddr>] and [contains]. *)
Class IpNets := {
  IpNet : Type;
  parse_net : str -> option IpNet;
  net_of_ip : IpAddr -> IpNet;
  net_contains : IpNet -> IpAddr -> bool;
}.

(** A network made from one address contains that address and no other. *)
Class IpNetsLaws `{IpNets} : Prop := {
  net_of_ip_contains : forall ip ip', net_contains (net_of_ip ip) ip' = bool_decide (ip' = ip);
}.

(** [http::HeaderMap::get], with the [to_str] of the value it returns. *)
Class Headers := {
  HeaderMap : Type;
  header_get : HeaderMap -> str -> option (option str);
}.

(** * [TrustedProxies] *)

Section Resolution.
Context `{IpNets, Headers}.

(** [struct TrustedProxies]. *)
Record TrustedProxies := mkTrusted { nets : list IpNet }.

(** [TrustedProxies::parse]. *)
Definition trusted_parse (entries : list str) : TrustedProxies :=
  mkTrusted (omap (fun entry =>
    match parse_net entry with
    | Some net => Some net
    | None => net_of_ip <$> parse_ip entry
    end) entries).

(** [TrustedProxies::is_empty]. *)
Definition trusted_is_empty (t : TrustedProxies) : bool :=
  match nets t with [] => true | _ => false end.

(** [unmap]. *)
Definition unmap (ip : IpAddr) : IpAddr :=
  match ip with
  | V6 v6 => default (V6 v6) (V4 <$> to_ipv4_mapped v6)
  | v4 => v4
  end.

(** [TrustedProxies::trusts]. *)
Definition trusts (t : TrustedProxies) (ip : IpAddr) : bool :=
  let ip := unmap ip in existsb (fun net => net_contains net ip) (nets t).

(** [forwarded_ip]. *)
Definition forwarded_ip (headers : HeaderMap) : option IpAddr :=
  let real_ip :=
    v ← header_get headers (lit "x-real-ip"); v ← v; parse_ip (trim v) in
  match real_ip with
  | Some ip => Some ip
  | None =>
      v ← header_get headers (lit "x-forwarded-for"); v ← v;
      find_map (fun part => parse_ip (trim part)) (split_char COMMA v)
  end.

(** [TrustedProxies::client_addr]. *)
Definition client_addr (t : TrustedProxies) (peer : SocketAddr) (headers : HeaderMap)
    : SocketAddr :=
  if trusted_is_empty t || negb (trusts t (sa_ip peer)) then peer
  else match forwarded_ip headers with
       | Some ip => socket_addr_new ip (sa_port peer)
       | None => peer
       end.
End Resolution.

(** * Reading addresses *)

(** [Ipv4Addr]'s [Display]: four decimal numbers. *)
Definition digit (d : Z) : N := Z.to_N (48 + d).
Definition show_octet (z : Z) : str :=
  if (z <? 10)%Z then [digit z]
  else if (z <? 100)%Z then [digit (z / 10); digit (z mod 10)]
  else [digit (z / 100); digit (z / 10 mod 10); digit (z mod 10)].
Definition show_v4 (a b c d : Z) : str :=
  show_octet a ++ DOT :: show_octet b ++ DOT :: show_octet c ++ DOT :: show_octet d.

Lemma to_digit_digit d : (0 <= d < 10)%Z -> to_digit 10 (digit d) = Some d.
Proof.
  intros Hd. unfold to_digit, digit. rewrite Z2N.id by lia.
  rewrite (proj2 (Z.leb_le 48 (48 + d))), (proj2 (Z.leb_le (48 + d) 57)) by lia. simpl.
  replace (48 + d - 48)%Z with d by lia. by rewrite (proj2 (Z.ltb_lt d 10)) by lia.
Qed.

(** Text that ends a number: nothing, or a character that is not a digit. *)
Definition ends_number (radix : Z) (s : str) : Prop :=
  match s with [] => True | c :: _ => to_digit radix c = None end.

Lemma read_digits_end radix room acc s :
  ends_number radix s -> read_digits radix room acc s = Some (acc, 0, s).
Proof. destruct s as [|c s]; cbn [ends_number read_digits]; [done|]. by intros ->. Qed.

Lemma read_number_octet z s :
  u8_ok z -> ends_number 10 s -> read_number 10 3 false 255 (show_octet z ++ s) = Some (z, s).
Proof.
  unfold u8_ok. intros Hz Hs. unfold read_number, show_octet.
  assert (0 <= z / 10 /\ z = 10 * (z / 10) + z mod 10 /\ 0 <= z mod 10 < 10
    /\ z / 100 = z / 10 / 10 /\ z / 10 = 10 * (z / 10 / 10) + z / 10 mod 10
    /\ 0 <= z / 10 mod 10 < 10)%Z as (H1 & H2 & H3 & H4 & H5 & H6).
  { rewrite Z.div_div by lia. split_and!; try done; try apply Z.mod_pos_bound; try lia;
      try (apply Z.div_mod; lia). }
  set (q := (z / 10)%Z) in *. set (r := (z mod 10)%Z) in *.
  set (h := (q / 10)%Z) in *. set (t := (q mod 10)%Z) in *.
  destruct (Z.ltb_spec z 10); [|destruct (Z.ltb_spec z 100)]; rewrite ?H4;
    cbn [app read_digits]; rewrite ?to_digit_digit by lia; rewrite read_digits_end by done;
    cbn [mbind option_bind head negb andb bool_decide];
    rewrite ?(bool_decide_false (_ = 0)) by done.
  - rewrite (bool_decide_false (1 < 1)) by lia. rewrite andb_false_r.
    rewrite (proj2 (Z.leb_le _ _)) by lia. repeat f_equal; lia.
  - rewrite (bool_decide_false (Some _ = Some _)) by (unfold digit; intros [=]; lia). simpl andb.
    cbn match. rewrite (proj2 (Z.leb_le _ _)) by lia. repeat f_equal; lia.
  - rewrite (bool_decide_false (Some _ = Some _)) by (unfold digit; intros [=]; lia). simpl andb.
    cbn match. rewrite (proj2 (Z.leb_le _ _)) by lia. repeat f_equal; lia.
Qed.

Lemma read_octet_first z s :
  u8_ok z -> ends_number 10 s -> read_octet 0 (show_octet z ++ s) = Some (z, s).
Proof. apply read_number_octet. Qed.

Lemma read_octet_next i z s :
  u8_ok z -> ends_number 10 s ->
  read_octet (S i) (DOT :: show_octet z ++ s) = Some (z, s).
Proof. apply read_number_octet. Qed.

Lemma parse_ip_shown a b c d :
  u8_ok a -> u8_ok b -> u8_ok c -> u8_ok d ->
  parse_ip (show_v4 a b c d) = Some (V4 [a; b; c; d]).
Proof.
  intros Ha Hb Hc Hd. unfold parse_ip, read_ipv4_addr, show_v4.
  rewrite read_octet_first by done. cbn [mbind option_bind].
  rewrite read_octet_next by done. cbn [mbind option_bind].
  rewrite read_octet_next by done. cbn [mbind option_bind].
  pose proof (read_octet_next 2 d [] Hd I) as E. rewrite app_nil_r in E. by rewrite E.
Qed.

(** * Whose word is taken *)

Section Trust.
Context `{IpNets, Headers}.

Lemma trusts_iff t ip :
  trusts t ip = true <-> exists net, net ∈ nets t /\ net_contains net (unmap ip) = true.
Proof.
  unfold trusts. rewrite existsb_exists. by setoid_rewrite <- list_elem_of_In.
Qed.

Lemma trusts_empty t ip : trusted_is_empty t = true -> trusts t ip = false.
Proof. unfold trusted_is_empty, trusts. by destruct (nets t). Qed.

Lemma client_addr_cases t peer h :
  client_addr t peer h =
  if trusts t (sa_ip peer) then
    match forwarded_ip h with
    | Some ip => socket_addr_new ip (sa_port peer)
    | None => peer
    end
  else peer.
Proof.
  unfold client_addr. destruct (trusted_is_empty t) eqn:E; simpl.
  - by rewrite trusts_empty.
  - by destruct (trusts t (sa_ip peer)).
Qed.

(** A mapped address is the IPv4 address it stands for. *)
Lemma unmap_mapped a b c d :
  unmap (V6 (replicate 10 0%Z ++ [255; 255; a; b; c; d]%Z)) = V4 [a; b; c; d].
Proof. reflexivity. Qed.

(** No address is a mapped one after [unmap]. *)
Lemma unmap_not_mapped ip a b c d :
  unmap ip <> V6 (replicate 10 0%Z ++ [255; 255; a; b; c; d]%Z).
Proof.
  destruct ip as [o|o]; simpl; [done|]. unfold to_ipv4_mapped.
  case_bool_decide as E; simpl; [done|]. intros [= ->]. by apply E.
Qed.
End Trust.

(** ** A reference instance: networks as a prefix of the octets, header maps as
    lists of pairs. *)

Definition ip_octets (ip : IpAddr) : bytes := match ip with V4 o | V6 o => o end.
Definition same_family (a b : IpAddr) : bool :=
  match a, b with V4 _, V4 _ | V6 _, V6 _ => true | _, _ => false end.

(** Only whole-octet prefixes are needed for the examples: [a.b.c.d/8k]. *)
Definition ref_parse_net (s : str) : option (IpAddr * nat) :=
  match before_char 47 s with
  | Some addr =>
      ip ← parse_ip addr;
      '(bits, rest) ← read_number 10 3 false 128 (drop (S (length addr)) s);
      match rest with [] => Some (ip, Z.to_nat (bits / 8)) | _ => None end
  | None => None
  end.
#[export] Instance ref_nets : IpNets := {|
  IpNet := IpAddr * nat;
  parse_net := ref_parse_net;
  net_of_ip ip := (ip, length (ip_octets ip));
  net_contains net ip :=
    same_family net.1 ip && bool_decide (take net.2 (ip_octets net.1) = take net.2 (ip_octets ip))
    && bool_decide (length (ip_octets net.1) = length (ip_octets ip));
|}.

#[export] Instance ref_nets_laws : IpNetsLaws.
Proof.
  split. intros ip ip'. simpl. symmetry.
  destruct (bool_decide (ip' = ip)) eqn:E; symmetry.
  - apply bool_decide_eq_true in E as ->. rewrite !bool_decide_true by done. by destruct ip.
  - apply bool_decide_eq_false in E. apply not_true_iff_false. intros [[Hf Ht]%andb_true_iff Hl]%andb_true_iff.
    apply bool_decide_eq_true in Ht, Hl. apply E.
    rewrite !take_ge in Ht by lia. by destruct ip, ip'; simpl in *; try done; rewrite Ht.
Qed.

Definition ref_headers : Headers := {|
  HeaderMap := list (str * str);
  header_get h name := (fun v => Some v) <$> (list_to_map h : gmap str str) !! name;
|}.
#[export] Existing Instance ref_headers.

Definition headers (l : list (str * str)) : HeaderMap := l.

(** * Properties *)

(** C27: forwarding headers are believed only from a configured proxy. The
    address a connection is attributed to keeps the peer's port, and it differs
    from the peer's only if a configured network contains the peer's address
    (an IPv4-mapped one taken as IPv4) and the address is the one read from the
    headers; in particular nothing a client sends on a direct connection, or
    with no proxies configured, has any effect. *)
Theorem headers_believed_from_proxies `{IpNets, Headers} t peer h :
  let addr := client_addr t peer h in
  sa_port addr = sa_port peer /\
  (addr <> peer ->
     (exists net, net ∈ nets t /\ net_contains net (unmap (sa_ip peer)) = true) /\
     forwarded_ip h = Some (sa_ip addr)) /\
  (trusts t (sa_ip peer) = false -> addr = peer).
Proof.
  cbv zeta. rewrite client_addr_cases. destruct (trusts t (sa_ip peer)) eqn:E.
  - destruct (forwarded_ip h) as [ip|]; simpl; [|done].
    split_and!; [done| |done]. intros _. split; [by apply trusts_iff|done].
  - done.
Qed.

Lemma headers_believed_from_proxies_witness :
  let t := trusted_parse [lit "10.244.0.0/16"] in
  let peer := socket_addr_new (V4 [203; 0; 113; 7]%Z) 4444 in
  client_addr t peer (headers [(lit "x-forwarded-for", lit "1.2.3.4")]) = peer.
Proof.
  cbv zeta. apply (headers_believed_from_proxies (trusted_parse [lit "10.244.0.0/16"])
    (socket_addr_new (V4 [203; 0; 113; 7]%Z) 4444) (headers [(lit "x-forwarded-for", lit "1.2.3.4")])).
  vm_compute. reflexivity.
Defined.

(** A bare IPv4 address among the configured proxies trusts exactly the peers
    with that address, whether they arrive as IPv4 or as an IPv4-mapped address
    on a dual-stack listener: its text is read back to its octets, and entries
    that are neither networks nor addresses are skipped. *)
Theorem bare_address_trusts_itself `{IpNets, !IpNetsLaws} a b c d peer :
  u8_ok a -> u8_ok b -> u8_ok c -> u8_ok d ->
  parse_net (show_v4 a b c d) = None ->
  trusts (trusted_parse [show_v4 a b c d]) peer = true <->
  peer = V4 [a; b; c; d] \/ peer = V6 (replicate 10 0%Z ++ [255; 255; a; b; c; d]%Z).
Proof.
  intros Ha Hb Hc Hd Hnet. unfold trusts, trusted_parse. simpl.
  rewrite Hnet, parse_ip_shown by done. simpl.
  rewrite net_of_ip_contains, orb_false_r, bool_decide_eq_true.
  destruct peer as [o|o]; simpl; [naive_solver|].
  unfold to_ipv4_mapped. case_bool_decide as E; simpl.
  - split; [|by intros [?|[= ->]]]. intros [= Hdrop]. right. f_equal.
    rewrite <- (take_drop 12 o), E, Hdrop. done.
  - split; [done|]. intros [?|[= ->]]; [done|]. by destruct E.
Qed.

Lemma bare_address_trusts_itself_witness :
  parse_net (show_v4 10 244 0 93) = None /\
  trusts (trusted_parse [show_v4 10 244 0 93])
    (V6 (replicate 10 0 ++ [255; 255; 10; 244; 0; 93])%Z) = true.
Proof.
  assert (parse_net (show_v4 10 244 0 93) = None) as Hn by (vm_compute; reflexivity).
  split; [exact Hn|].
  apply (bare_address_trusts_itself 10 244 0 93); try (unfold u8_ok; lia); [exact Hn|].
  right. reflexivity.
Defined.

(** A configured IPv4-mapped address trusts nobody: peers are unmapped before
    they are compared, the entry is not. *)
Lemma mapped_entry_trusts_nobody `{IpNets, !IpNetsLaws} s a b c d peer :
  parse_net s = None ->
  parse_ip s = Some (V6 (replicate 10 0%Z ++ [255; 255; a; b; c; d]%Z)) ->
  trusts (trusted_parse [s]) peer = false.
Proof.
  intros Hn Hs. unfold trusts, trusted_parse. simpl. rewrite Hn, Hs. simpl.
  rewrite net_of_ip_contains, orb_false_r. apply bool_decide_eq_false, unmap_not_mapped.
Qed.

(** The left-most [X-Forwarded-For] entry that reads as an address is taken, not
    the left-most entry. *)
Lemma unreadable_entries_skipped :
  forwarded_ip (headers [(lit "x-forwarded-for", lit "unknown, 1.2.3.4:80, 5.6.7.8")])
  = Some (V4 [5; 6; 7; 8]%Z).
Proof. reflexivity. Qed.

(** The unit tests of the source. *)
Lemma trusted_peer_headers_are_used :
  client_addr (trusted_parse [lit "10.244.0.0/16"])
    (socket_addr_new (V4 [10; 244; 0; 93]%Z) 4444)
    (headers [(lit "x-forwarded-for", lit "1.2.3.4, 10.244.0.93")])
  = socket_addr_new (V4 [1; 2; 3; 4]%Z) 4444.
Proof. vm_compute. reflexivity. Qed.

Lemma real_ip_wins_over_forwarded_for :
  client_addr (trusted_parse [lit "10.244.0.93"])
    (socket_addr_new (V4 [10; 244; 0; 93]%Z) 4444)
    (headers [(lit "x-real-ip", lit "9.9.9.9"); (lit "x-forwarded-for", lit "1.2.3.4")])
  = socket_addr_new (V4 [9; 9; 9; 9]%Z) 4444.
Proof. vm_compute. reflexivity. Qed.
