(* ===== verification/Socket.v ===== *)
(** [handle_socket] of [src/src/relay.rs]: the connection loop and the tasks it
    spawns, as a step relation on the state of the whole server.

    A step is what happens between two points where a task awaits: the arms of
    the loop's [select!], the stages of a spawned EVENT task (waiting for a permit
    of the verification semaphore, running on the blocking pool, waiting to send
    its reply), the turns of a spawned REQ task (running a query, sending a stored
    event, sending EOSE), and the sender task taking a message from the
    connection's channel. A task that is aborted makes no further step, and the short
    pause of the idle arm between its notice and the disconnection is no step. The
    receiving end of the channel is a parameter like its sending end. *)
From stdpp Require Import pretty.
From S2P Require Import Prelude Text Collections Event Reference Deletion Tombstones Index IndexInv IndexSpec IndexQuery Wal Store Subscription Fanout Message Relay Config.
Open Scope memlay_scope.

(** * State *)

(** A spawned REQ task: the filters still to query, and the frames of the current
    query still to send. *)
Record ReqTask := mkTask {
  rt_filters : list Filter;
  rt_frames : list str;
}.

(** The local variables of [handle_socket]; a finished task keeps its handle. *)
Record ConnLoop := mkLoop {
  k_active : bool;
  k_opened : Z;
  k_closed : Z;
  k_tasks : gmap str (option ReqTask);
}.

(** [Receiver::recv] when a message is queued. *)
Class Receiver `{Channel} := recv : chan -> option (str * chan).

Section Socket.
Context `{HexCrate, MessageJson, Channel}.
Variable set_order : gset bytes -> list bytes.
Variable cfg : Config.

(** The server: the relay, the connection loops by connection id, the EVENT tasks
    by stage (with their connection and frame or reply), the semaphore's free
    permits and the connection counter. *)
Record Server := mkServer {
  sv_relay : Relay;
  sv_loops : gmap Z ConnLoop;
  sv_waiting : list (Z * str);
  sv_running : list (Z * str);
  sv_replying : list (Z * str);
  sv_permits : Z;
  sv_count : Z;
}.

Definition sv_fanout (sv : Server) : Fanout := r_fanout (sv_relay sv).

Definition with_relay (r : Relay) (sv : Server) : Server :=
  mkServer r (sv_loops sv) (sv_waiting sv) (sv_running sv) (sv_replying sv) (sv_permits sv)
    (sv_count sv).
Definition with_fanout (fo : Fanout) (sv : Server) : Server :=
  with_relay (mkRelay (r_store (sv_relay sv)) fo) sv.
Definition with_loop (id : Z) (k : ConnLoop) (sv : Server) : Server :=
  mkServer (sv_relay sv) (<[id := k]> (sv_loops sv)) (sv_waiting sv) (sv_running sv)
    (sv_replying sv) (sv_permits sv) (sv_count sv).

Definition with_tx (tx : chan) (c : ConnState) : ConnState :=
  mkConn (c_id c) tx (c_subs c) (c_kind_key c) (c_overflow c) (c_notified c) (c_kill c)
    (c_sent c) (c_dropped c) (c_drop_window c).

(** [let _ = send_tx.try_send(msg)] on a connection's channel. *)
Definition send_frame (id : Z) (msg : str) (fo : Fanout) : Fanout :=
  match fo_states fo !! id with
  | Some c =>
      match try_send (c_tx c) msg with
      | Some tx => with_state id (with_tx tx c) fo
      | None => fo
      end
  | None => fo
  end.
Definition send_message (id : Z) (m : NostrMessage) (sv : Server) : Server :=
  with_fanout (send_frame id (msg_to_json m) (sv_fanout sv)) sv.

(** * The arms of the loop *)

(** The start of [handle_socket]. *)
Definition connect (tx : chan) (now : Z) (sv : Server) : Server :=
  let '(fo, id) := register tx now (sv_fanout sv) in
  mkServer (mkRelay (r_store (sv_relay sv)) fo) (<[id := mkLoop false 0 0 ∅]> (sv_loops sv))
    (sv_waiting sv) (sv_running sv) (sv_replying sv) (sv_permits sv) (fetch_add (sv_count sv) 1).

(** The end of [handle_socket]: unregister and abort the tasks. *)
Definition disconnect (id : Z) (sv : Server) : Server :=
  mkServer (mkRelay (r_store (sv_relay sv)) (unregister id (sv_fanout sv)))
    (delete id (sv_loops sv)) (sv_waiting sv) (sv_running sv) (sv_replying sv) (sv_permits sv)
    (fetch_sub (sv_count sv) 1).

Definition too_many_filters : str :=
  lit "too many filters (max " ++ show (N.of_nat MAX_FILTERS_PER_REQ) ++ lit ")".
Definition subscription_limit : str :=
  lit "subscription limit reached (max " ++ show (Z.to_N (max_subscriptions cfg)) ++ lit ")".
Definition too_slow : str := lit "error: client too slow, resubscribe to resync".
Definition binary_notice : str := lit "binary messages are not supported".
Definition idle_notice : str :=
  lit "idle: no REQ or EVENT within " ++ show (Z.to_N (idle_timeout cfg)) ++ lit "s, closing".

(** Open a subscription and spawn its task. *)
Definition open_sub (id : Z) (k : ConnLoop) (rid : str) (filters : list Filter) (sv : Server)
    : Server :=
  with_loop id (mkLoop (k_active k) (k_opened k + 1) (k_closed k)
                  (<[rid := Some (mkTask filters [])]> (k_tasks k)))
    (with_fanout (set_sub id rid filters (sv_fanout sv)) sv).

(** Close a subscription and abort its task. *)
Definition close_sub (id : Z) (k : ConnLoop) (rid : str) (sv : Server) : Server :=
  with_loop id (mkLoop (k_active k) (k_opened k) (k_closed k + 1) (delete rid (k_tasks k)))
    (with_fanout (remove_sub id rid (sv_fanout sv)).1 sv).

(** The REQ arm. *)
Definition handle_req (id : Z) (k : ConnLoop) (text : str) (sv : Server) : Server :=
  match msg_from_json text with
  | Ok (MRequest rid filters) =>
      if (MAX_FILTERS_PER_REQ <? length filters)
      then send_message id (MNotification too_many_filters) sv else
      match fo_states (sv_fanout sv) !! id with
      | None => sv
      | Some c =>
          if negb (has_sub c rid) && (max_subscriptions cfg <=? Z.of_nat (sub_count c))%Z
          then send_message id (MNotification subscription_limit) sv
          else open_sub id k rid (prepare_filters filters (max_limit cfg)) sv
      end
  | Ok _ => sv
  | Err e => send_message id (MNotification e) sv
  end.

(** The CLOSE arm: malformed requests are ignored. *)
Definition handle_close (id : Z) (k : ConnLoop) (text : str) (sv : Server) : Server :=
  match msg_from_json text with
  | Ok (MClose rid) => close_sub id k rid sv
  | _ => sv
  end.

(** Other frames are answered only if they do not parse. *)
Definition handle_other (id : Z) (text : str) (sv : Server) : Server :=
  match msg_from_json text with
  | Err e => send_message id (MNotification e) sv
  | Ok _ => sv
  end.

(** The EVENT arm: spawn the task. *)
Definition spawn_event (id : Z) (text : str) (sv : Server) : Server :=
  mkServer (sv_relay sv) (sv_loops sv) (sv_waiting sv ++ [(id, text)]) (sv_running sv)
    (sv_replying sv) (sv_permits sv) (sv_count sv).

(** [Message::Text]. *)
Definition handle_text (id : Z) (text : str) (sv : Server) : Server :=
  match sv_loops sv !! id with
  | None => sv
  | Some k =>
      let k := mkLoop true (k_opened k) (k_closed k) (k_tasks k) in
      let sv := with_loop id k sv in
      if (MAX_MESSAGE_BYTES <? Z.of_nat (str_len text))%Z
      then send_message id (MNotification (lit "message too large")) sv
      else if bool_decide (message_type text = Some (lit "EVENT")) then spawn_event id text sv
      else if bool_decide (message_type text = Some (lit "REQ")) then handle_req id k text sv
      else if bool_decide (message_type text = Some (lit "CLOSE")) then handle_close id k text sv
      else handle_other id text sv
  end.

(** [Message::Binary]. *)
Definition handle_binary (id : Z) (sv : Server) : Server :=
  match sv_loops sv !! id with
  | None => sv
  | Some k =>
      send_message id (MNotification binary_notice)
        (with_loop id (mkLoop true (k_opened k) (k_closed k) (k_tasks k)) sv)
  end.

(** One overflowed subscription: close it and tell the client. *)
Definition close_overflowed (id : Z) (sv : Server) (rid : str) : Server :=
  match sv_loops sv !! id with
  | None => sv
  | Some k => send_message id (MClosed rid too_slow) (close_sub id k rid sv)
  end.

(** Waking up consumes the notification. *)
Definition clear_notified (c : ConnState) : ConnState :=
  mkConn (c_id c) (c_tx c) (c_subs c) (c_kind_key c) (c_overflow c) false (c_kill c)
    (c_sent c) (c_dropped c) (c_drop_window c).

(** The [conn.notified()] arm. *)
Definition handle_notified (id : Z) (sv : Server) : Server :=
  match fo_states (sv_fanout sv) !! id with
  | None => sv
  | Some c =>
      let '(c', overflowed) := take_overflowed (clear_notified c) in
      let sv1 := with_fanout (with_state id c' (sv_fanout sv)) sv in
      let sv2 := foldl (close_overflowed id) sv1 overflowed in
      if c_kill c then disconnect id sv2 else sv2
  end.

(** The idle arm. *)
Definition handle_idle (id : Z) (sv : Server) : Server :=
  disconnect id (send_message id (MNotification idle_notice) sv).

(** * The spawned tasks *)

(** One turn of a REQ task: it queries the next filter, sends the next frame, or
    sends EOSE and ends; it waits ([None]) when the channel is full, and dies
    without EOSE if the query panics. *)
Definition task_turn (st : EventStore) (rid : str) (t : ReqTask) (tx : chan)
    : option (option ReqTask * chan) :=
  match rt_frames t with
  | msg :: frames =>
      match try_send tx msg with
      | Some tx' => Some (Some (mkTask (rt_filters t) frames), tx')
      | None => None
      end
  | [] =>
      match rt_filters t with
      | f :: filters =>
          match query_filter st f with
          | Ret events =>
              Some (Some (mkTask filters
                ((fun e => event_frame rid (from_utf8_lossy (ev_raw e))) <$> events)), tx)
          | Panic => Some (None, tx)
          end
      | [] =>
          match try_send tx (msg_to_json (MEndOfStoredEvents rid)) with
          | Some tx' => Some (None, tx')
          | None => None
          end
      end
  end.

(** Run the task of a subscription for one turn. *)
Definition req_turn (id : Z) (rid : str) (sv : Server) : option Server :=
  match sv_loops sv !! id, fo_states (sv_fanout sv) !! id with
  | Some k, Some c =>
      match k_tasks k !! rid with
      | Some (Some t) =>
          match task_turn (r_store (sv_relay sv)) rid t (c_tx c) with
          | Some (t', tx) =>
              Some (with_loop id (mkLoop (k_active k) (k_opened k) (k_closed k)
                                    (<[rid := t']> (k_tasks k)))
                      (with_fanout (with_state id (with_tx tx c) (sv_fanout sv)) sv))
          | None => None
          end
      | _ => None
      end
  | _, _ => None
  end.

(** An EVENT task gets a permit. *)
Definition acquire (sv : Server) (pre post : list (Z * str)) (task : Z * str) : Server :=
  mkServer (sv_relay sv) (sv_loops sv) (pre ++ post) (sv_running sv ++ [task]) (sv_replying sv)
    (sv_permits sv - 1) (sv_count sv).

(** The blocking part of an EVENT task; without a reply (or after a panic) the task
    ends and gives its permit back. *)
Definition run_event (clock : Clock) (sv : Server) (pre post : list (Z * str)) (id : Z) (text : str)
    : Server :=
  match process_event_message set_order clock text (sv_relay sv) with
  | Ret (r, Some reply) =>
      mkServer r (sv_loops sv) (sv_waiting sv) (pre ++ post) (sv_replying sv ++ [(id, reply)])
        (sv_permits sv) (sv_count sv)
  | Ret (r, None) =>
      mkServer r (sv_loops sv) (sv_waiting sv) (pre ++ post) (sv_replying sv)
        (sv_permits sv + 1) (sv_count sv)
  | Panic =>
      mkServer (sv_relay sv) (sv_loops sv) (sv_waiting sv) (pre ++ post) (sv_replying sv)
        (sv_permits sv + 1) (sv_count sv)
  end.

(** An EVENT task ends after its reply was queued, or after the connection's
    channel was closed. *)
Definition finish_reply (fo : Fanout) (sv : Server) (pre post : list (Z * str)) : Server :=
  mkServer (mkRelay (r_store (sv_relay sv)) fo) (sv_loops sv) (sv_waiting sv) (sv_running sv)
    (pre ++ post) (sv_permits sv + 1) (sv_count sv).
End Socket.
