(* ===== verification/SocketInv.v ===== *)
(** The server as a transition system, and what holds in every reachable state:
    registrations match connection loops, subscriptions stay within their limits,
    stored-event tasks belong to open subscriptions, permits and connections are
    counted exactly, and the relay's own invariants hold. *)
From S2P Require Import Prelude Text Collections Event Reference Deletion Tombstones Index IndexInv IndexSpec IndexQuery Wal Store Subscription Fanout Message Relay Config Socket.
Open Scope memlay_scope.

(** * What the operations of the router do to subscriptions *)

Section Views.
Context `{Channel}.

(** The subscriptions of a connection. *)
Definition subs_of (fo : Fanout) (id : Z) : option (list SubEntry) := c_subs <$> fo_states fo !! id.

(** Same subscriptions and registrations. *)
Definition same_subs (fo fo' : Fanout) : Prop :=
  fo_conns fo' = fo_conns fo /\ forall i, subs_of fo' i = subs_of fo i.

Lemma same_subs_refl fo : same_subs fo fo.
Proof. by split. Qed.

Lemma same_subs_trans fo1 fo2 fo3 : same_subs fo1 fo2 -> same_subs fo2 fo3 -> same_subs fo1 fo3.
Proof. intros [C1 S1] [C2 S2]. split; [congruence|]. intros i. by rewrite S2, S1. Qed.

Lemma with_state_subs id c fo i :
  subs_of (with_state id c fo) i = if decide (i = id) then Some (c_subs c) else subs_of fo i.
Proof.
  unfold subs_of. cbn [with_state fo_states]. destruct (decide (i = id)) as [->|Hne].
  - by rewrite lookup_insert_eq.
  - by rewrite lookup_insert_ne.
Qed.

Lemma with_state_same id c c' fo :
  fo_states fo !! id = Some c -> c_subs c' = c_subs c -> same_subs fo (with_state id c' fo).
Proof.
  intros Hc Hs. split; [done|]. intros i. rewrite with_state_subs.
  case_decide; [subst|done]. unfold subs_of. by rewrite Hc, Hs.
Qed.

(** Updating a state without touching subscriptions and key. *)
Lemma with_state_ok id c c' fo :
  fanout_ok fo -> fo_states fo !! id = Some c -> c_subs c' = c_subs c ->
  c_kind_key c' = c_kind_key c -> fanout_ok (with_state id c' fo).
Proof.
  intros Hok Hc Hs Hk. pose proof (fanout_almost id fo Hok) as Hal.
  destruct (almost_with_state id c c' fo Hal Hc Hk) as [Hi Hkey Hst Hf]. split; try done.
  intros i x Hin. cbn [with_state fo_states]. intros [[<- <-]|[Hne Hx]]%lookup_insert_Some.
  - rewrite Hk, Hs. by apply (fk_key fo Hok id).
  - by apply (fk_key fo Hok i).
Qed.

Lemma reindex_same id fo : same_subs fo (reindex id fo).
Proof.
  unfold reindex. destruct (fo_states fo !! id) as [c|] eqn:Hc; [|apply same_subs_refl].
  case_bool_decide; [apply same_subs_refl|].
  destruct (index_frame id (subs_key (c_subs c)) (deindex id (c_kind_key c) fo)) as (S1 & C1 & _).
  destruct (deindex_frame id (c_kind_key c) fo) as (S2 & C2 & _).
  split; [cbn; congruence|]. intros i. rewrite with_state_subs. unfold subs_of. rewrite S1, S2.
  case_decide; [subst|done]. by rewrite Hc.
Qed.

Lemma set_sub_subs id rid fs fo :
  fo_conns (set_sub id rid fs fo) = fo_conns fo
  /\ forall i, subs_of (set_sub id rid fs fo) i
      = if decide (i = id) then put_sub rid fs <$> subs_of fo i else subs_of fo i.
Proof.
  unfold set_sub. destruct (fo_states fo !! id) as [c|] eqn:Hc.
  - destruct (reindex_same id (with_state id (with_subs (put_sub rid fs (c_subs c)) c) fo)) as [C S].
    split; [by rewrite C|]. intros i. rewrite S, with_state_subs.
    case_decide; [subst|done]. unfold subs_of. by rewrite Hc.
  - split; [done|]. intros i. case_decide; [subst|done]. unfold subs_of. by rewrite Hc.
Qed.

Lemma remove_sub_subs id rid fo :
  fo_conns (remove_sub id rid fo).1 = fo_conns fo
  /\ forall i, subs_of (remove_sub id rid fo).1 i
      = if decide (i = id)
        then List.filter (fun s => bool_decide (fst s <> rid)) <$> subs_of fo i
        else subs_of fo i.
Proof.
  unfold remove_sub. destruct (fo_states fo !! id) as [c|] eqn:Hc; cbn [fst].
  - set (subs := List.filter _ _).
    assert (forall i, subs_of (with_state id (with_subs subs c) fo) i
      = if decide (i = id)
        then List.filter (fun s => bool_decide (fst s <> rid)) <$> subs_of fo i
        else subs_of fo i) as Hv.
    { intros i. rewrite with_state_subs. case_decide; [subst|done]. unfold subs_of. by rewrite Hc. }
    destruct (negb _); [|by split].
    destruct (reindex_same id (with_state id (with_subs subs c) fo)) as [C S].
    split; [by rewrite C|]. intros i. by rewrite S.
  - split; [done|]. intros i. case_decide; [subst|done]. unfold subs_of. by rewrite Hc.
Qed.

Lemma broadcast_same clock ev fo : same_subs fo (broadcast_all clock ev fo).
Proof.
  split; [done|]. intros i. unfold subs_of, broadcast_all. cbn [fo_states].
  rewrite map_lookup_imap. destruct (fo_states fo !! i) as [c|]; [|done]. cbn.
  case_bool_decide; [|done]. by destruct (deliver_frame clock ev c) as [-> _].
Qed.

Lemma unregister_subs id fo :
  (is_Some (fo_states fo !! id) -> fo_conns (unregister id fo) = fo_conns fo ∖ {[id]})
  /\ forall i, subs_of (unregister id fo) i = subs_of fo i.
Proof.
  unfold unregister. destruct (fo_states fo !! id) as [c|] eqn:Hc; [|split; [by intros []|done]].
  set (fo1 := mkFanout _ _ _ _ _).
  destruct (deindex_frame id (c_kind_key c) fo1) as (S & C & _).
  split; [cbn; by rewrite C|]. intros i. rewrite with_state_subs. unfold subs_of. rewrite S.
  case_decide; [subst|done]. by rewrite Hc.
Qed.

Lemma register_subs tx now fo i :
  subs_of (register tx now fo).1 i
  = if decide (i = (register tx now fo).2) then Some [] else subs_of fo i.
Proof.
  unfold subs_of, register. cbn [fst snd fo_states]. destruct (decide _) as [->|Hne].
  - by rewrite lookup_insert_eq.
  - by rewrite lookup_insert_ne.
Qed.

Lemma send_frame_same id msg fo : same_subs fo (send_frame id msg fo).
Proof.
  unfold send_frame. destruct (fo_states fo !! id) as [c|] eqn:Hc; [|apply same_subs_refl].
  destruct (try_send (c_tx c) msg); [|apply same_subs_refl]. by eapply with_state_same.
Qed.

Lemma send_frame_ok id msg fo : fanout_ok fo -> fanout_ok (send_frame id msg fo).
Proof.
  intros Hok. unfold send_frame. destruct (fo_states fo !! id) as [c|] eqn:Hc; [|done].
  destruct (try_send (c_tx c) msg); [|done]. by eapply with_state_ok.
Qed.

Lemma put_sub_ids rid fs subs :
  fst <$> put_sub rid fs subs
  = if decide (rid ∈ fst <$> subs) then fst <$> subs else (fst <$> subs) ++ [rid].
Proof.
  induction subs as [|[i f] subs IH]; cbn [put_sub fmap list_fmap].
  { rewrite decide_False by set_solver. done. }
  case_bool_decide as Hi.
  - subst. rewrite decide_True by (cbn; left). done.
  - cbn [fmap list_fmap fst]. change (list_fmap _ _ fst) with (fmap (M := list) (@fst str (list Filter))).
    rewrite IH. cbn. destruct (decide (rid ∈ fst <$> subs)) as [Hin|Hin].
    + rewrite decide_True by by right. done.
    + rewrite decide_False; [done|]. intros [?|?]%elem_of_cons; [congruence|done].
Qed.

Lemma elem_of_put_sub rid fs subs s : s ∈ put_sub rid fs subs -> s = (rid, fs) \/ s ∈ subs.
Proof.
  induction subs as [|[i f] subs IH]; cbn [put_sub].
  { intros ->%list_elem_of_singleton. by left. }
  case_bool_decide as Hi.
  - subst. intros [->|?]%elem_of_cons; [by left|right; by right].
  - intros [->|Hs]%elem_of_cons; [right; left|]. destruct (IH Hs); [by left|right; by right].
Qed.
End Views.

(** * Steps *)

Section Steps.
Context `{HexCrate, MessageJson, Channel, !Receiver}.
Variable set_order : gset bytes -> list bytes.
Variable cfg : Config.

(** A server with this store and this many verification permits. *)
Definition server_new (st : EventStore) (permits : Z) : Server :=
  mkServer (mkRelay st fanout_new) ∅ [] [] [] permits 0.

Definition live (sv : Server) (id : Z) : Prop := is_Some (sv_loops sv !! id).

Inductive step : Server -> Server -> Prop :=
| step_connect tx now sv : step sv (connect tx now sv)
| step_text id text sv : live sv id -> step sv (handle_text cfg id text sv)
| step_binary id sv : live sv id -> step sv (handle_binary id sv)
(** The stream ended or failed, the client sent Close, or the sender task ended. *)
| step_hangup id sv : live sv id -> step sv (disconnect id sv)
| step_notified id c sv :
    live sv id -> fo_states (sv_fanout sv) !! id = Some c -> c_notified c = true ->
    step sv (handle_notified id sv)
| step_idle id k sv :
    sv_loops sv !! id = Some k -> (0 < idle_timeout cfg)%Z -> k_active k = false ->
    step sv (handle_idle cfg id sv)
| step_acquire pre task post sv :
    sv_waiting sv = pre ++ task :: post -> (0 < sv_permits sv)%Z -> step sv (acquire sv pre post task)
| step_run clock pre id text post sv :
    sv_running sv = pre ++ (id, text) :: post ->
    step sv (run_event set_order clock sv pre post id text)
| step_reply pre id reply post c tx sv :
    sv_replying sv = pre ++ (id, reply) :: post -> live sv id ->
    fo_states (sv_fanout sv) !! id = Some c -> try_send (c_tx c) reply = Some tx ->
    step sv (finish_reply (with_state id (with_tx tx c) (sv_fanout sv)) sv pre post)
| step_reply_closed pre id reply post sv :
    sv_replying sv = pre ++ (id, reply) :: post -> sv_loops sv !! id = None ->
    step sv (finish_reply (sv_fanout sv) sv pre post)
| step_req id rid sv sv' : req_turn id rid sv = Some sv' -> step sv sv'
| step_sender id c msg tx sv :
    live sv id -> fo_states (sv_fanout sv) !! id = Some c -> recv (c_tx c) = Some (msg, tx) ->
    step sv (with_fanout (with_state id (with_tx tx c) (sv_fanout sv)) sv)
| step_evict st sv :
    maybe_evict (r_store (sv_relay sv)) = Ret st ->
    step sv (with_relay (mkRelay st (sv_fanout sv)) sv).

(** Any number of steps. *)
Inductive reach (sv0 : Server) : Server -> Prop :=
| reach_start : reach sv0 sv0
| reach_step sv sv' : reach sv0 sv -> step sv sv' -> reach sv0 sv'.

(** * The invariant *)

(** A filter as [prepare_filters] leaves it. *)
Definition prepared (f : Filter) : Prop := exists f0, f = prepare_filter (max_limit cfg) f0.

(** A connection: its subscriptions are distinct, within the limits and prepared,
    and running tasks are those of open subscriptions. *)
Record conn_ok (k : ConnLoop) (subs : list SubEntry) : Prop := {
  co_nodup : NoDup (fst <$> subs);
  co_count : (Z.of_nat (length subs) <= Z.max 0 (max_subscriptions cfg))%Z;
  co_filters : forall s, s ∈ subs ->
    length s.2 <= MAX_FILTERS_PER_REQ /\ forall f, f ∈ s.2 -> prepared f;
  co_tasks : forall rid t, k_tasks k !! rid = Some (Some t) -> rid ∈ fst <$> subs;
}.

Record server_ok (core_of : bytes -> Core) (permits : Z) (sv : Server) : Prop := {
  so_relay : relay_ok core_of (sv_relay sv);
  so_live : forall id, id ∈ fo_conns (sv_fanout sv) <-> live sv id;
  so_conn : forall id k subs, sv_loops sv !! id = Some k -> subs_of (sv_fanout sv) id = Some subs ->
    conn_ok k subs;
  so_permits : (0 <= sv_permits sv
    /\ sv_permits sv + Z.of_nat (length (sv_running sv) + length (sv_replying sv)) = permits)%Z;
  so_count : sv_count sv = wrap64 (Z.of_nat (size (sv_loops sv)));
}.
End Steps.

(** * Preservation *)

Section Preservation.
Context `{HexLaws, MessageJsonLaws, Channel, !Receiver} (core_of : bytes -> Core) (permits : Z).
Variable set_order : gset bytes -> list bytes.
Variable cfg : Config.
Hypothesis order_perm : forall s, set_order s ≡ₚ elements s.
Hypothesis collision_free : forall raw e, from_json raw = Ok e -> genuine core_of e.
Abbreviation ok := (server_ok cfg core_of permits).

(** What the router part of a step must guarantee when it leaves subscriptions and
    registrations alone. *)
Lemma same_subs_server_ok sv fo :
  ok sv -> fanout_ok fo -> same_subs (sv_fanout sv) fo -> ok (with_fanout fo sv).
Proof.
  intros [[Hwf Hz Hfo] Hlive Hconn Hp Hc] Hok [Hcs Hsub]. split; try done.
  - intros id. cbn. by rewrite Hcs, Hlive.
  - intros id k subs Hk. cbn. rewrite Hsub. by apply Hconn.
Qed.

Lemma send_message_ok id m sv : ok sv -> ok (send_message id m sv).
Proof.
  intros Hok. apply same_subs_server_ok; [done| |apply send_frame_same].
  apply send_frame_ok, (ro_fanout _ _ (so_relay _ _ _ _ Hok)).
Qed.

(** Replacing a loop by one whose tasks are also tasks of open subscriptions. *)
Lemma with_loop_ok id k k' sv :
  ok sv -> sv_loops sv !! id = Some k ->
  (forall subs, subs_of (sv_fanout sv) id = Some subs -> conn_ok cfg k' subs) ->
  ok (with_loop id k' sv).
Proof.
  intros [Hr Hlive Hconn Hp Hc] Hk Hk'. split; try done.
  - intros i. unfold live. cbn [with_loop sv_loops]. rewrite lookup_insert_is_Some'.
    change (i ∈ fo_conns (sv_fanout sv) <-> id = i \/ is_Some (sv_loops sv !! i)).
    rewrite Hlive. unfold live. split; [by right|]. intros [<-|?]; [by eexists|done].
  - intros i x subs. cbn [with_loop sv_loops]. intros [[<- <-]|[_ Hx]]%lookup_insert_Some Hs;
      [by apply Hk'|by eapply Hconn].
  - cbn. by rewrite map_size_insert_Some by by eexists.
Qed.

(** Activity and counters of a loop do not matter. *)
Lemma conn_ok_tasks k k' subs : conn_ok cfg k subs -> k_tasks k' = k_tasks k -> conn_ok cfg k' subs.
Proof. intros [Hn Hc Hf Ht] Hk. split; try done. intros rid t. rewrite Hk. apply Ht. Qed.

Lemma put_sub_conn_ok k k' subs rid fs :
  conn_ok cfg k subs -> length fs <= MAX_FILTERS_PER_REQ -> (forall f, f ∈ fs -> prepared cfg f) ->
  (rid ∈ fst <$> subs \/ Z.of_nat (length subs) < max_subscriptions cfg)%Z ->
  k_tasks k' = <[rid := Some (mkTask fs [])]> (k_tasks k) ->
  conn_ok cfg k' (put_sub rid fs subs).
Proof.
  intros [Hn Hc Hf Ht] Hlen Hprep Hroom Hk.
  assert (length (put_sub rid fs subs) = length (fst <$> put_sub rid fs subs)) as Hl
    by by rewrite length_fmap.
  rewrite put_sub_ids in Hl. split.
  - rewrite put_sub_ids. case_decide; [done|]. apply NoDup_app. split_and!; [done| |apply NoDup_singleton].
    intros x Hx ->%list_elem_of_singleton. done.
  - rewrite Hl. case_decide as Hin; [rewrite length_fmap; lia|].
    rewrite length_app, length_fmap. cbn. destruct Hroom; [done|lia].
  - intros s [->|Hs]%elem_of_put_sub; [done|by apply Hf].
  - intros r t. rewrite Hk. rewrite put_sub_ids. intros [[<- _]|[Hne Hr]]%lookup_insert_Some.
    + case_decide; [done|]. apply elem_of_app. right. left.
    + apply Ht in Hr. case_decide; [done|]. apply elem_of_app. by left.
Qed.

Lemma remove_sub_conn_ok k k' subs rid :
  conn_ok cfg k subs -> k_tasks k' = delete rid (k_tasks k) ->
  conn_ok cfg k' (List.filter (fun s => bool_decide (fst s <> rid)) subs).
Proof.
  intros [Hn Hc Hf Ht] Hk. set (p := fun s : SubEntry => _).
  assert (forall s, s ∈ List.filter p subs <-> s ∈ subs /\ fst s <> rid) as Hin.
  { intros s. rewrite elem_of_List_filter. unfold p. by rewrite bool_decide_eq_true. }
  assert (length (List.filter p subs) <= length subs) as Hl.
  { clear. induction subs as [|s subs IH]; cbn; [done|]. case_match; cbn; lia. }
  split.
  - clear -Hn. induction subs as [|s subs IH]; [done|]. cbn in Hn. apply NoDup_cons in Hn as [Hs Hn].
    cbn [List.filter]. destruct (p s); [|by apply IH]. cbn. constructor; [|by apply IH].
    intros (x & Hx & [Hx' _]%elem_of_List_filter)%list_elem_of_fmap. apply Hs.
    rewrite Hx. by apply list_elem_of_fmap_2.
  - lia.
  - intros s [Hs _]%Hin. by apply Hf.
  - intros r t. rewrite Hk. intros [Hne Hr]%lookup_delete_Some. apply Ht in Hr.
    apply list_elem_of_fmap in Hr as (s & -> & Hs). apply list_elem_of_fmap_2, Hin. done.
Qed.

(** Updating one connection's loop and subscriptions together. *)
Lemma update_conn_ok id k k' g fo sv :
  ok sv -> sv_loops sv !! id = Some k -> fanout_ok fo -> fo_conns fo = fo_conns (sv_fanout sv) ->
  (forall i, subs_of fo i
     = if decide (i = id) then g <$> subs_of (sv_fanout sv) i else subs_of (sv_fanout sv) i) ->
  (forall subs, subs_of (sv_fanout sv) id = Some subs -> conn_ok cfg k' (g subs)) ->
  ok (with_loop id k' (with_fanout fo sv)).
Proof.
  intros [[Hwf Hz Hfo] Hlive Hconn Hp Hc] Hk Hok Hcs Hsub Hk'. split; try done.
  - intros i. unfold live. cbn. rewrite Hcs, Hlive, lookup_insert_is_Some'. unfold live.
    split; [by right|]. intros [<-|?]; [by eexists|done].
  - intros i x subs. cbn. rewrite Hsub. intros [[<- <-]|[Hne Hx]]%lookup_insert_Some.
    + rewrite decide_True by done. destruct (subs_of (sv_fanout sv) id) as [s|] eqn:Hs; [|done].
      intros [= <-]. by apply Hk'.
    + rewrite decide_False by done. by apply Hconn.
  - cbn. by rewrite map_size_insert_Some by by eexists.
Qed.

Lemma open_sub_ok id k rid fs sv :
  ok sv -> sv_loops sv !! id = Some k -> length fs <= MAX_FILTERS_PER_REQ ->
  (forall f, f ∈ fs -> prepared cfg f) ->
  (forall subs, subs_of (sv_fanout sv) id = Some subs ->
     rid ∈ fst <$> subs \/ Z.of_nat (length subs) < max_subscriptions cfg)%Z ->
  ok (open_sub id k rid fs sv).
Proof.
  intros Hok Hk Hlen Hprep Hroom. destruct (set_sub_subs id rid fs (sv_fanout sv)) as [C S].
  eapply (update_conn_ok id k _ (put_sub rid fs)); try done.
  - apply set_sub_ok, (ro_fanout _ _ (so_relay _ _ _ _ Hok)).
  - intros subs Hs. eapply put_sub_conn_ok; try done; [by eapply (so_conn _ _ _ _ Hok)|by apply Hroom].
Qed.

Lemma close_sub_ok id k rid sv : ok sv -> sv_loops sv !! id = Some k -> ok (close_sub id k rid sv).
Proof.
  intros Hok Hk. destruct (remove_sub_subs id rid (sv_fanout sv)) as [C S].
  eapply (update_conn_ok id k); [done|done| |done|exact S|].
  - apply remove_sub_ok, (ro_fanout _ _ (so_relay _ _ _ _ Hok)).
  - intros subs Hs. eapply remove_sub_conn_ok; [|done]. by eapply (so_conn _ _ _ _ Hok).
Qed.

Lemma connect_ok tx now sv : ok sv -> ok (connect tx now sv).
Proof.
  intros [[Hwf Hz Hfo] Hlive Hconn Hp Hc]. unfold connect.
  pose proof (register_ok tx now _ Hfo) as Hreg. pose proof (register_subs tx now (sv_fanout sv)) as Hsub.
  assert (sv_loops sv !! (fo_next_id (sv_fanout sv) + 1)%Z = None) as Hnew.
  { destruct (sv_loops sv !! _) as [k|] eqn:Hk; [|done].
    assert (live sv (fo_next_id (sv_fanout sv) + 1)%Z) as Hl by by eexists.
    apply Hlive in Hl. apply (fk_state _ Hfo) in Hl. apply (fk_fresh _ Hfo) in Hl.
    unfold sv_fanout in Hl. lia. }
  unfold register in *. cbn [fst snd] in *. split; [by split| | |done|].
  - intros i. unfold live. cbn. rewrite elem_of_union, elem_of_singleton, Hlive, lookup_insert_is_Some'.
    unfold live. naive_solver.
  - intros i x subs. cbn. rewrite Hsub. intros [[<- <-]|[Hne Hx]]%lookup_insert_Some.
    + rewrite decide_True by done. intros [= <-]. split; cbn; [constructor|lia| |].
      * intros s Hs. by apply elem_of_nil in Hs.
      * intros rid t. by rewrite lookup_empty.
    + rewrite decide_False by done. by apply Hconn.
  - cbn. rewrite map_size_insert_None, Hc, fetch_add_wrap by done. f_equal. lia.
Qed.

Lemma disconnect_ok id sv : ok sv -> live sv id -> ok (disconnect id sv).
Proof.
  intros [[Hwf Hz Hfo] Hlive Hconn Hp Hc] Hid. destruct (unregister_subs id (sv_fanout sv)) as [C S].
  assert (is_Some (fo_states (sv_fanout sv) !! id)) as Hst by (apply (fk_state _ Hfo), Hlive, Hid).
  specialize (C Hst). split; [split; [done|done|by apply unregister_ok]| | |done|].
  - intros i. unfold live. cbn. rewrite C, elem_of_difference, elem_of_singleton, Hlive.
    rewrite lookup_delete_is_Some. unfold live. naive_solver.
  - intros i x subs. cbn. rewrite S. intros [_ Hx]%lookup_delete_Some. by apply Hconn.
  - cbn. rewrite Hc. destruct Hid as [k Hk]. rewrite map_size_delete_Some by by eexists.
    assert (size (sv_loops sv) <> 0) by (intros Hz0%map_size_empty_inv; by rewrite Hz0, lookup_empty in Hk).
    unfold fetch_sub, wrap64. rewrite Zminus_mod_idemp_l. f_equal. lia.
Qed.

(** ** The arms of the loop *)

Lemma has_sub_spec c rid : has_sub c rid = true <-> rid ∈ fst <$> c_subs c.
Proof.
  unfold has_sub. rewrite existsb_exists, list_elem_of_fmap. split.
  - intros (s & Hs%list_elem_of_In & He%bool_decide_eq_true). by exists s.
  - intros (s & -> & Hs). exists s. split; [by apply list_elem_of_In|by apply bool_decide_eq_true].
Qed.

Lemma handle_req_ok id k text sv :
  ok sv -> sv_loops sv !! id = Some k -> ok (handle_req cfg id k text sv).
Proof.
  intros Hok Hk. unfold handle_req. destruct (msg_from_json text) as [m|err].
  2: by apply send_message_ok.
  destruct m as [| rid filters | | | | | ]; try done.
  destruct (Nat.ltb_spec MAX_FILTERS_PER_REQ (length filters)) as [|Hlen];
    [by apply send_message_ok|].
  destruct (fo_states (sv_fanout sv) !! id) as [c|] eqn:Hc; [|done].
  destruct (negb (has_sub c rid) && _) eqn:Hfull; [by apply send_message_ok|].
  apply open_sub_ok; [done|done| | |].
  - unfold prepare_filters. by rewrite length_fmap.
  - intros f (f0 & -> & _)%list_elem_of_fmap. by exists f0.
  - unfold subs_of. rewrite Hc. intros subs [= <-].
    apply andb_false_iff in Hfull as [Hh|Hn].
    + left. apply has_sub_spec. by destruct (has_sub c rid).
    + right. apply Z.leb_gt in Hn. done.
Qed.

Lemma activate_ok id k sv :
  ok sv -> sv_loops sv !! id = Some k ->
  ok (with_loop id (mkLoop true (k_opened k) (k_closed k) (k_tasks k)) sv).
Proof.
  intros Hok Hk. eapply with_loop_ok; [done|done|]. intros subs Hs.
  eapply conn_ok_tasks; [by eapply (so_conn _ _ _ _ Hok)|done].
Qed.

Lemma spawn_event_ok id text sv : ok sv -> ok (spawn_event id text sv).
Proof. intros [Hr Hl Hc Hp Hn]. by split. Qed.

Lemma handle_text_ok id text sv : ok sv -> ok (handle_text cfg id text sv).
Proof.
  intros Hok. unfold handle_text. destruct (sv_loops sv !! id) as [k|] eqn:Hk; [|done].
  cbv zeta. set (k' := mkLoop _ _ _ _). pose proof (activate_ok id k sv Hok Hk) as Hact.
  fold k' in Hact. set (sv' := with_loop id k' sv) in *.
  assert (sv_loops sv' !! id = Some k') as Hk' by apply lookup_insert_eq.
  destruct (Z.ltb _ _); [by apply send_message_ok|].
  case_bool_decide; [by apply spawn_event_ok|].
  case_bool_decide; [by apply handle_req_ok|].
  case_bool_decide.
  - unfold handle_close. destruct (msg_from_json text) as [[]|]; try done. by apply close_sub_ok.
  - unfold handle_other. destruct (msg_from_json text); [done|by apply send_message_ok].
Qed.

Lemma handle_binary_ok id sv : ok sv -> ok (handle_binary id sv).
Proof.
  intros Hok. unfold handle_binary. destruct (sv_loops sv !! id) as [k|] eqn:Hk; [|done].
  by apply send_message_ok, activate_ok.
Qed.

Lemma close_overflowed_ok id sv rid : ok sv -> ok (close_overflowed id sv rid).
Proof.
  intros Hok. unfold close_overflowed. destruct (sv_loops sv !! id) as [k|] eqn:Hk; [|done].
  by apply send_message_ok, close_sub_ok.
Qed.

Lemma close_overflowed_live id sv rid i : live (close_overflowed id sv rid) i <-> live sv i.
Proof.
  unfold close_overflowed, live. destruct (sv_loops sv !! id) as [k|] eqn:Hk; [|done]. cbn.
  rewrite lookup_insert_is_Some'. split; [|by right]. intros [<-|?]; [by rewrite Hk|done].
Qed.

Lemma handle_notified_ok id sv : ok sv -> live sv id -> ok (handle_notified id sv).
Proof.
  intros Hok Hl. unfold handle_notified.
  destruct (fo_states (sv_fanout sv) !! id) as [c|] eqn:Hc; [|done].
  cbn [take_overflowed clear_notified c_id c_tx c_subs c_kind_key c_notified c_kill c_sent
       c_dropped c_drop_window c_overflow].
  set (sv1 := with_fanout _ sv). set (sv2 := foldl _ sv1 _).
  assert (ok sv2 /\ live sv2 id) as [Hok2 Hl2].
  { unfold sv2. apply (foldl_ind (fun s => ok s /\ live s id)).
    - split; [|done]. apply same_subs_server_ok; [done| |by eapply with_state_same].
      eapply with_state_ok; [apply (so_relay _ _ _ _ Hok)|done..].
    - intros s rid _ [Hs Hls]. split; [by apply close_overflowed_ok|by apply close_overflowed_live]. }
  destruct (c_kill c); [by apply disconnect_ok|done].
Qed.

Lemma handle_idle_ok id sv : ok sv -> live sv id -> ok (handle_idle cfg id sv).
Proof. intros Hok Hl. unfold handle_idle. apply disconnect_ok; [by apply send_message_ok|done]. Qed.

(** ** The tasks *)

Lemma with_tx_ok id c tx sv :
  ok sv -> fo_states (sv_fanout sv) !! id = Some c ->
  ok (with_fanout (with_state id (with_tx tx c) (sv_fanout sv)) sv).
Proof.
  intros Hok Hc. apply same_subs_server_ok; [done| |by eapply with_state_same].
  eapply with_state_ok; [apply (so_relay _ _ _ _ Hok)|done..].
Qed.

Lemma req_turn_ok id rid sv sv' : ok sv -> req_turn id rid sv = Some sv' -> ok sv'.
Proof.
  intros Hok. unfold req_turn. destruct (sv_loops sv !! id) as [k|] eqn:Hk; [|done].
  destruct (fo_states (sv_fanout sv) !! id) as [c|] eqn:Hc; [|done].
  destruct (k_tasks k !! rid) as [[t|]|] eqn:Ht; [|done..].
  destruct (task_turn _ rid t (c_tx c)) as [[t' tx]|]; [|done]. intros [= <-].
  eapply with_loop_ok; [by apply with_tx_ok|done|]. intros subs. cbn.
  rewrite with_state_subs, decide_True by done. intros [= <-].
  assert (conn_ok cfg k (c_subs c)) as [Hn Hco Hf Hta].
  { eapply (so_conn _ _ _ _ Hok); [done|]. unfold subs_of. by rewrite Hc. }
  split; try done. cbn. intros r x [[<- _]|[_ Hr]]%lookup_insert_Some; [by eapply Hta|by eapply Hta].
Qed.

Lemma process_same clock text r r' o :
  relay_ok core_of r -> process_event_message set_order clock text r = Ret (r', o) ->
  same_subs (r_fanout r) (r_fanout r').
Proof.
  intros Hok. pose proof (ro_fanout _ _ Hok) as Hfo.
  assert (forall st ev, same_subs (r_fanout r)
    (r_fanout (published clock ev (mkRelay st (r_fanout r))))) as Hpub.
  { intros st ev. unfold published. cbn. rewrite publish_broadcasts by done. apply broadcast_same. }
  unfold process_event_message, apply_deletion_request.
  destruct (msg_from_json text) as [m|e].
  2: { intros [= <- <-]. apply same_subs_refl. }
  destruct m as [s ev| | | | | | ]; try (intros [= <- <-]; apply same_subs_refl).
  destruct (is_deletion_request ev).
  - destruct (store_contains _ _); [intros [= <- <-]; apply same_subs_refl|].
    destruct (is_tombstoned _ _); [intros [= <- <-]; apply same_subs_refl|].
    destruct (deletion_request ev) as [req|]; [|done]. cbn [panicky_bind].
    destruct (apply_deletion _ _ _ _ _) as [st1 out]. destruct (store_insert st1 ev) as [st2 res].
    destruct res; intros [= <- <-]; done || apply same_subs_refl.
  - destruct (store_insert _ _) as [st1 res].
    destruct res; intros [= <- <-]; done || apply same_subs_refl.
Qed.

Lemma relay_step_ok r sv :
  ok sv -> relay_ok core_of r -> same_subs (sv_fanout sv) (r_fanout r) -> ok (with_relay r sv).
Proof.
  intros [Hr Hlive Hconn Hp Hc] Hok [Hcs Hsub]. split; try done.
  - intros id. change (sv_fanout (with_relay r sv)) with (r_fanout r). by rewrite Hcs, Hlive.
  - intros id k subs Hk. change (sv_fanout (with_relay r sv)) with (r_fanout r).
    rewrite Hsub. by apply Hconn.
Qed.

(** Moving EVENT tasks between their stages. *)
Lemma stages_ok sv waiting running replying p :
  ok sv -> (0 <= p)%Z ->
  (p + Z.of_nat (length running + length replying)
   = sv_permits sv + Z.of_nat (length (sv_running sv) + length (sv_replying sv)))%Z ->
  ok (mkServer (sv_relay sv) (sv_loops sv) waiting running replying p (sv_count sv)).
Proof.
  intros [Hr Hlive Hconn [Hp1 Hp2] Hc] Hp He. split; try done. cbn. lia.
Qed.

Lemma acquire_ok sv pre task post :
  ok sv -> sv_waiting sv = pre ++ task :: post -> (0 < sv_permits sv)%Z -> ok (acquire sv pre post task).
Proof.
  intros Hok _ Hp. apply stages_ok; [done|lia|]. rewrite length_app. cbn. lia.
Qed.

Lemma run_event_ok clock sv pre id text post :
  ok sv -> sv_running sv = pre ++ (id, text) :: post ->
  ok (run_event set_order clock sv pre post id text).
Proof.
  intros Hok Hrun. pose proof (so_relay _ _ _ _ Hok) as Hr.
  destruct (so_permits _ _ _ _ Hok) as [Hp _].
  destruct (process_total core_of set_order order_perm collision_free clock text _ Hr)
    as (r' & o & Hproc & Hr' & _).
  pose proof (process_same _ _ _ _ _ Hr Hproc) as Hsame. unfold run_event. rewrite Hproc.
  pose proof (relay_step_ok r' sv Hok Hr' Hsame) as Hok'.
  destruct o as [reply|]; eapply (stages_ok (with_relay r' sv)); try done; cbn; try lia;
    rewrite ?Hrun, !length_app; cbn; lia.
Qed.

Lemma finish_reply_ok fo sv pre task post :
  ok sv -> sv_replying sv = pre ++ task :: post -> fanout_ok fo -> same_subs (sv_fanout sv) fo ->
  ok (finish_reply fo sv pre post).
Proof.
  intros Hok Hrep Hfo Hsame. pose proof (same_subs_server_ok sv fo Hok Hfo Hsame) as Hok'.
  destruct (so_permits _ _ _ _ Hok) as [Hp _].
  eapply (stages_ok (with_fanout fo sv)); [done|cbn; lia|].
  cbn. rewrite Hrep, !length_app. cbn. lia.
Qed.

Lemma evict_ok st sv :
  ok sv -> maybe_evict (r_store (sv_relay sv)) = Ret st ->
  ok (with_relay (mkRelay st (sv_fanout sv)) sv).
Proof.
  intros Hok Hev. destruct (so_relay _ _ _ _ Hok) as [Hwf Hz Hfo].
  destruct (maybe_evict_spec core_of _ Hwf) as (st' & Hev' & Hwf' & _ & _ & Ht & Hsub & _).
  rewrite Hev in Hev'. injection Hev' as <-.
  apply relay_step_ok; [done| |apply same_subs_refl]. split; [done| |done].
  intros id. unfold relay_abs. cbn. rewrite Ht. intros Hid. specialize (Hz id Hid). cbn in Hz.
  destruct (by_id (st_index st) !! id) as [e|] eqn:He; [|done]. apply Hsub in He.
  unfold relay_abs in Hz. cbn in Hz. congruence.
Qed.

Lemma step_ok sv sv' : ok sv -> step set_order cfg sv sv' -> ok sv'.
Proof.
  intros Hok Hs. destruct Hs.
  - by apply connect_ok.
  - by apply handle_text_ok.
  - by apply handle_binary_ok.
  - by apply disconnect_ok.
  - by apply handle_notified_ok.
  - apply handle_idle_ok; [done|by eexists].
  - by apply acquire_ok.
  - by apply run_event_ok.
  - eapply finish_reply_ok; [done|done| |by eapply with_state_same].
    eapply with_state_ok; [apply (so_relay _ _ _ _ Hok)|done..].
  - eapply finish_reply_ok; [done|done|apply (so_relay _ _ _ _ Hok)|apply same_subs_refl].
  - by eapply req_turn_ok.
  - by apply with_tx_ok.
  - by apply evict_ok.
Qed.

Lemma server_new_ok st :
  (0 <= permits)%Z -> wf_index core_of (st_index st) -> abs_no_zombies (abs (st_index st)) ->
  ok (server_new st permits).
Proof.
  intros Hp Hwf Hz. split; cbn.
  - split; [done|done|apply fanout_ok_new].
  - intros id. unfold live. cbn. rewrite lookup_empty. split; [by intros ?%elem_of_empty|by intros []].
  - intros id k subs. by rewrite lookup_empty.
  - lia.
  - by rewrite map_size_empty.
Qed.

Lemma reach_ok sv0 sv : ok sv0 -> reach set_order cfg sv0 sv -> ok sv.
Proof. intros Hok. induction 1; [done|]. by eapply step_ok. Qed.
End Preservation.
