(* ===== verification/SocketProps.v ===== *)
(** Properties of the connection loop: the server's invariant, the answer to a
    REQ, and the permits of the verification semaphore. *)
From S2P Require Import Prelude Text Collections Event Reference Deletion Tombstones Index IndexInv IndexSpec IndexQuery Wal Store Subscription Fanout Message Relay Config Socket SocketInv.
Open Scope memlay_scope.

(** * Stored queries never panic *)

Lemma query_filter_total `{HexCrate} core_of st f :
  wf_index core_of (st_index st) -> (0 <= fetch_limit f)%Z -> exists l, query_filter st f = Ret l.
Proof.
  intros Hwf Hl. unfold query_filter.
  assert (exists cs, candidates st f = Ret cs) as [cs ->]; [|by eexists].
  unfold candidates. repeat (case_match; try by eexists).
  destruct (decide (fetch_limit f = 0%Z)) as [->|Hne]; [by eexists|].
  destruct (get_newest_spec core_of (st_index st) (fetch_limit f) Hwf) as (l & Hg & _); [lia|].
  by exists l.
Qed.

(** * The answer to a request *)

Section Request.
Context `{HexCrate, MessageJson, Channel}.

(** Successive sends into a channel. *)
Fixpoint sends (tx : chan) (msgs : list str) : option chan :=
  match msgs with
  | [] => Some tx
  | msg :: msgs => try_send tx msg ≫= fun tx => sends tx msgs
  end.

(** [n] turns of a task. *)
Fixpoint task_run (n : nat) (st : EventStore) (rid : str) (t : option ReqTask) (tx : chan)
    : option (option ReqTask * chan) :=
  match n with
  | O => Some (t, tx)
  | S n =>
      match t with
      | None => None
      | Some t => task_turn st rid t tx ≫= fun '(t', tx') => task_run n st rid t' tx'
      end
  end.

(** The frame of a stored event. *)
Definition stored_frame (rid : str) (e : Event) : str :=
  event_frame rid (from_utf8_lossy (ev_raw e)).

Lemma task_run_frames n st rid fs frames tx tx' :
  sends tx frames = Some tx' ->
  task_run (length frames + n) st rid (Some (mkTask fs frames)) tx
  = task_run n st rid (Some (mkTask fs [])) tx'.
Proof.
  revert tx. induction frames as [|msg frames IH]; intros tx; cbn [sends length Nat.add].
  { by intros [= ->]. }
  cbn [task_run]. unfold task_turn at 1. cbn [rt_frames rt_filters].
  destruct (try_send tx msg) as [tx1|]; [|done]. cbn [mbind option_bind]. apply IH.
Qed.

Lemma sends_app tx l1 l2 : sends tx (l1 ++ l2) = sends tx l1 ≫= fun tx => sends tx l2.
Proof.
  revert tx. induction l1 as [|m l1 IH]; intros tx; cbn [app sends]; [done|].
  destruct (try_send tx m); [|done]. cbn [mbind option_bind]. apply IH.
Qed.

(** Running the task through its answers. *)
Lemma task_run_answers st rid fs answers : forall tx tx',
  Forall2 (fun f l => query_filter st f = Ret l) fs answers ->
  sends tx ((stored_frame rid <$> concat answers) ++ [msg_to_json (MEndOfStoredEvents rid)])
    = Some tx' ->
  task_run (length fs + length (concat answers) + 1) st rid (Some (mkTask fs [])) tx
    = Some (None, tx').
Proof.
  revert answers. induction fs as [|f fs IH]; intros answers tx tx' Ha.
  - apply Forall2_nil_inv_l in Ha as ->. cbn.
    destruct (try_send tx _) as [t|]; [|done]. cbn. by intros [= ->].
  - apply Forall2_cons_inv_l in Ha as (l & answers' & Hq & Ha & ->).
    cbn [concat]. rewrite fmap_app, <- app_assoc, sends_app.
    destruct (sends tx (stored_frame rid <$> l)) as [tx1|] eqn:Hs; [|done].
    cbn [mbind option_bind]. intros Hrest. cbn [length Nat.add task_run].
    unfold task_turn at 1. cbn [rt_frames rt_filters]. rewrite Hq. cbn [mbind option_bind].
    fold (stored_frame rid). rewrite length_app.
    replace (length fs + (length l + length (concat answers')) + 1)
      with (length (stored_frame rid <$> l) + (length fs + length (concat answers') + 1))
      by (rewrite length_fmap; lia).
    rewrite (task_run_frames _ st rid fs _ tx tx1 Hs). by apply IH.
Qed.
End Request.

(** C39: a request is answered completely: on a well-formed store every filter has an
    answer, and as soon as the channel has taken the frames of all answers (filter
    by filter, in the order the queries give) followed by one EOSE, the task has
    ended: after one turn per filter, per event and for EOSE it is done, it has
    sent exactly these messages, and EOSE is the last. *)
Theorem request_answered `{HexCrate, MessageJson, Channel} core_of st rid fs :
  wf_index core_of (st_index st) -> (forall f, f ∈ fs -> 0 <= fetch_limit f)%Z ->
  exists answers, Forall2 (fun f l => query_filter st f = Ret l) fs answers
    /\ forall tx tx',
      sends tx ((stored_frame rid <$> concat answers)
                ++ [msg_to_json (MEndOfStoredEvents rid)]) = Some tx' ->
      task_run (length fs + length (concat answers) + 1) st rid (Some (mkTask fs [])) tx
        = Some (None, tx').
Proof.
  intros Hwf Hl. assert (exists answers, Forall2 (fun f l => query_filter st f = Ret l) fs answers)
    as [answers Ha].
  { clear rid. induction fs as [|f fs IH]; [by exists []; constructor|].
    destruct (query_filter_total core_of st f Hwf) as [l Hq]; [apply Hl; left|].
    destruct IH as [answers Ha]; [intros g Hg; apply Hl; by right|].
    exists (l :: answers). by constructor. }
  exists answers. split; [done|]. intros tx tx' Hs. by eapply task_run_answers.
Qed.

(** The server's invariant: starting without connections on a consistent store,
    whatever clients send and however the tasks interleave, in every reachable
    state exactly the connections with a running loop are registered for live
    events; each has distinct subscriptions, no more than [max_subscriptions], of
    at most [MAX_FILTERS_PER_REQ] filters, each limited to [max_limit]; a task
    streaming stored events exists only for an open subscription; the EVENT tasks
    past the semaphore and its free permits add up to the configured number; the
    connection counter is exact; and store and router keep their invariants. *)
Theorem server_invariant `{HexLaws, MessageJsonLaws, Channel, !Receiver} core_of permits set_order
    cfg st sv :
  (forall s, set_order s ≡ₚ elements s) ->
  (forall raw e, from_json raw = Ok e -> genuine core_of e) ->
  (0 <= permits)%Z -> wf_index core_of (st_index st) -> abs_no_zombies (abs (st_index st)) ->
  reach set_order cfg (server_new st permits) sv -> server_ok cfg core_of permits sv.
Proof.
  intros Hord Hcf Hp Hwf Hz Hr. eapply reach_ok; [done|done| |done]. by apply server_new_ok.
Qed.

(** * Permits held by replies *)

Section Channels.
Context `{Channel}.

Definition tx_of (fo : Fanout) (id : Z) : option chan := c_tx <$> fo_states fo !! id.

Lemma with_state_tx i c fo j :
  tx_of (with_state i c fo) j = if decide (j = i) then Some (c_tx c) else tx_of fo j.
Proof.
  unfold tx_of. cbn [with_state fo_states]. destruct (decide (j = i)) as [->|Hne].
  - by rewrite lookup_insert_eq.
  - by rewrite lookup_insert_ne.
Qed.

Lemma with_state_same_tx i c c' fo j :
  fo_states fo !! i = Some c -> c_tx c' = c_tx c -> tx_of (with_state i c' fo) j = tx_of fo j.
Proof.
  intros Hc Ht. rewrite with_state_tx. case_decide; [subst|done]. unfold tx_of. by rewrite Hc, Ht.
Qed.

Lemma reindex_tx i fo j : tx_of (reindex i fo) j = tx_of fo j.
Proof.
  unfold reindex. destruct (fo_states fo !! i) as [c|] eqn:Hc; [|done]. case_bool_decide; [done|].
  destruct (index_frame i (subs_key (c_subs c)) (deindex i (c_kind_key c) fo)) as (S1 & _).
  destruct (deindex_frame i (c_kind_key c) fo) as (S2 & _).
  rewrite (with_state_same_tx i c); [|by rewrite S1, S2|done]. unfold tx_of. by rewrite S1, S2.
Qed.

Lemma set_sub_tx i rid fs fo j : tx_of (set_sub i rid fs fo) j = tx_of fo j.
Proof.
  unfold set_sub. destruct (fo_states fo !! i) as [c|] eqn:Hc; [|done].
  rewrite reindex_tx. by apply (with_state_same_tx i c).
Qed.

Lemma remove_sub_tx i rid fo j : tx_of (remove_sub i rid fo).1 j = tx_of fo j.
Proof.
  unfold remove_sub. destruct (fo_states fo !! i) as [c|] eqn:Hc; [|done]. cbn [fst].
  destruct (negb _); rewrite ?reindex_tx; by apply (with_state_same_tx i c).
Qed.

Lemma unregister_tx i fo j : tx_of (unregister i fo) j = tx_of fo j.
Proof.
  unfold unregister. destruct (fo_states fo !! i) as [c|] eqn:Hc; [|done].
  set (fo1 := mkFanout _ _ _ _ _). destruct (deindex_frame i (c_kind_key c) fo1) as (S1 & _).
  rewrite (with_state_same_tx i c); [|by rewrite S1|done]. unfold tx_of. by rewrite S1.
Qed.

(** A full channel stays as it is when sending to it is tried. *)
Definition full (tx : chan) : Prop := forall msg, try_send tx msg = None.

Lemma send_frame_tx i msg fo j tx :
  full tx -> tx_of fo j = Some tx -> tx_of (send_frame i msg fo) j = Some tx.
Proof.
  intros Hf Hj. unfold send_frame. destruct (fo_states fo !! i) as [c|] eqn:Hc; [|done].
  destruct (try_send (c_tx c) msg) as [tx'|] eqn:Hs; [|done]. rewrite with_state_tx.
  case_decide; [subst|done]. unfold tx_of in Hj. rewrite Hc in Hj. injection Hj as Hj.
  by rewrite Hj, Hf in Hs.
Qed.
End Channels.

Section Permits.
Context `{HexCrate, MessageJson, Channel, !Receiver}.
Variable set_order : gset bytes -> list bytes.
Variable cfg : Config.

(** Every permit is held by a task that waits to reply to connection [id], whose
    channel [tx] is full. *)
Record starved (id : Z) (tx : chan) (sv : Server) : Prop := {
  sd_permits : sv_permits sv = 0%Z;
  sd_running : sv_running sv = [];
  sd_replying : forall t, t ∈ sv_replying sv -> t.1 = id;
  sd_live : live sv id;
  sd_tx : tx_of (sv_fanout sv) id = Some tx;
}.

(** The stages of the EVENT tasks are left alone, and so is [id]'s channel. *)
Definition untouched (id : Z) (tx : chan) (sv sv' : Server) : Prop :=
  sv_permits sv' = sv_permits sv /\ sv_running sv' = sv_running sv
  /\ sv_replying sv' = sv_replying sv
  /\ (forall i, live sv i -> live sv' i)
  /\ (tx_of (sv_fanout sv) id = Some tx -> tx_of (sv_fanout sv') id = Some tx).

Lemma untouched_refl id tx sv : untouched id tx sv sv.
Proof. by split_and!. Qed.

Lemma untouched_trans id tx sv1 sv2 sv3 :
  untouched id tx sv1 sv2 -> untouched id tx sv2 sv3 -> untouched id tx sv1 sv3.
Proof.
  intros (P1 & R1 & Y1 & L1 & T1) (P2 & R2 & Y2 & L2 & T2).
  split_and!; [congruence|congruence|congruence|auto|auto].
Qed.

Lemma starved_untouched id tx sv sv' : starved id tx sv -> untouched id tx sv sv' -> starved id tx sv'.
Proof.
  intros [Hp Hr Hy Hl Ht] (P & R & Y & L & T). split; [congruence|congruence| |auto|auto].
  intros t. rewrite Y. apply Hy.
Qed.

Lemma send_message_untouched id tx i m sv : full tx -> untouched id tx sv (send_message i m sv).
Proof. intros Hf. split_and!; try done. intros Ht. by apply send_frame_tx. Qed.

Lemma with_loop_untouched id tx i k sv : untouched id tx sv (with_loop i k sv).
Proof.
  split_and!; try done. intros j Hj. unfold live. cbn. apply lookup_insert_is_Some'. by right.
Qed.

Lemma fanout_untouched id tx fo sv :
  (forall t, tx_of (sv_fanout sv) id = Some t -> tx_of fo id = Some t) ->
  untouched id tx sv (with_fanout fo sv).
Proof. intros Hfo. split_and!; try done. apply Hfo. Qed.

Lemma open_sub_untouched id tx i k rid fs sv : untouched id tx sv (open_sub i k rid fs sv).
Proof.
  eapply untouched_trans; [|apply with_loop_untouched]. apply fanout_untouched.
  intros t. by rewrite set_sub_tx.
Qed.

Lemma close_sub_untouched id tx i k rid sv : untouched id tx sv (close_sub i k rid sv).
Proof.
  eapply untouched_trans; [|apply with_loop_untouched]. apply fanout_untouched.
  intros t. by rewrite remove_sub_tx.
Qed.

Lemma handle_text_untouched id tx i text sv :
  full tx -> untouched id tx sv (handle_text cfg i text sv).
Proof.
  intros Hf. unfold handle_text. destruct (sv_loops sv !! i) as [k|]; [|apply untouched_refl].
  cbv zeta. set (k' := mkLoop _ _ _ _).
  eapply untouched_trans; [apply (with_loop_untouched _ _ i k')|].
  destruct (Z.ltb _ _); [by apply send_message_untouched|].
  case_bool_decide; [by split_and!|]. case_bool_decide; [|case_bool_decide].
  - unfold handle_req. destruct (msg_from_json text) as [[]|];
      try apply untouched_refl; try by apply send_message_untouched.
    destruct (Nat.ltb _ _); [by apply send_message_untouched|].
    destruct (fo_states _ !! i); [|apply untouched_refl].
    destruct (_ && _); [by apply send_message_untouched|apply open_sub_untouched].
  - unfold handle_close. destruct (msg_from_json text) as [[]|];
      try apply untouched_refl. apply close_sub_untouched.
  - unfold handle_other. destruct (msg_from_json text);
      [apply untouched_refl|by apply send_message_untouched].
Qed.

Lemma close_overflowed_untouched id tx i sv rid :
  full tx -> untouched id tx sv (close_overflowed i sv rid).
Proof.
  intros Hf. unfold close_overflowed. destruct (sv_loops sv !! i) as [k|]; [|apply untouched_refl].
  eapply untouched_trans; [apply close_sub_untouched|by apply send_message_untouched].
Qed.

Lemma disconnect_other id tx i sv : starved id tx sv -> i <> id -> starved id tx (disconnect i sv).
Proof.
  intros [Hp Hr Hy Hl Ht] Hne. split; try done.
  - unfold live. cbn. rewrite lookup_delete_is_Some. by split.
  - cbn. by rewrite unregister_tx.
Qed.

Lemma disconnect_starved id tx i sv :
  starved id tx sv -> starved id tx (disconnect i sv) \/ ~ live (disconnect i sv) id.
Proof.
  intros Hs. destruct (decide (i = id)) as [->|Hne]; [right|left; by apply disconnect_other].
  unfold live. cbn. rewrite lookup_delete_eq. by intros [].
Qed.

Lemma handle_notified_starved id tx i sv :
  full tx -> starved id tx sv ->
  starved id tx (handle_notified i sv) \/ ~ live (handle_notified i sv) id.
Proof.
  intros Hf Hs. unfold handle_notified.
  destruct (fo_states (sv_fanout sv) !! i) as [c|] eqn:Hc; [|by left].
  cbn [take_overflowed clear_notified c_id c_tx c_subs c_kind_key c_notified c_kill c_sent
       c_dropped c_drop_window c_overflow].
  set (sv1 := with_fanout _ sv). set (sv2 := foldl _ sv1 _).
  assert (starved id tx sv2) as Hs2.
  { apply (starved_untouched id tx sv); [done|]. unfold sv2.
    apply (foldl_ind (untouched id tx sv)).
    - apply fanout_untouched. intros t. by rewrite (with_state_same_tx i c).
    - intros s rid _ Hu. eapply untouched_trans; [exact Hu|by apply close_overflowed_untouched]. }
  destruct (c_kill c); [by apply disconnect_starved|by left].
Qed.

Lemma req_turn_untouched id tx i rid sv sv' :
  full tx -> req_turn i rid sv = Some sv' -> untouched id tx sv sv'.
Proof.
  intros Hf. unfold req_turn. destruct (sv_loops sv !! i) as [k|]; [|done].
  destruct (fo_states (sv_fanout sv) !! i) as [c|] eqn:Hc; [|done].
  destruct (k_tasks k !! rid) as [[t|]|]; [|done..].
  destruct (task_turn _ rid t (c_tx c)) as [[t' tx']|] eqn:Ht; [|done]. intros [= <-].
  eapply untouched_trans; [|apply with_loop_untouched].
  split_and!; try done. cbn. rewrite with_state_tx. case_decide; [subst|done].
  unfold tx_of. rewrite Hc. cbn. intros [= Hx]. f_equal. cbn.
  unfold task_turn in Ht. rewrite Hx in Ht. unfold full in Hf.
  repeat (case_match; simplify_eq; try done; try (rewrite Hf in *; simplify_eq)).
Qed.

(** One client that does not read can stop all ingestion: a task keeps its
    verification permit while it waits to send its reply, so when every permit is
    held by replies to a connection whose queue is full, then whatever any client
    or task does, no EVENT frame of anyone is processed (no task holds a permit to
    run, none is free) until that connection ends or its socket takes a message
    from its queue. *)
Theorem full_queue_starves_events core_of permits id tx sv sv' :
  server_ok cfg core_of permits sv -> full tx -> starved id tx sv -> step set_order cfg sv sv' ->
  starved id tx sv' \/ ~ live sv' id
  \/ exists msg tx', recv tx = Some (msg, tx') /\ tx_of (sv_fanout sv') id = Some tx'.
Proof.
  intros Hok Hf Hs Hstep. pose proof Hs as [Hp Hr Hy Hl Ht].
  destruct Hstep as [t now sv|i text sv _|i sv _|i sv _|i c sv _ _ _|i k sv _ _ _|pre task post sv _ Hfree
    |clock pre i text post sv Hrun|pre i reply post c t sv Hrep _ Hc Hsend|pre i reply post sv Hrep Hdead
    |i rid sv sv' Hturn|i c msg t sv _ Hc Hrecv|st sv _].
  - left. split; try done; [by apply lookup_insert_is_Some'; right|].
    cbn. unfold tx_of. cbn. rewrite lookup_insert_ne; [done|]. intros Hid.
    pose proof (ro_fanout _ _ (so_relay _ _ _ _ Hok)) as Hfo. apply (so_live _ _ _ _ Hok) in Hl.
    apply (fk_state _ Hfo), (fk_fresh _ Hfo) in Hl. unfold sv_fanout in *. lia.
  - left. eapply starved_untouched; [done|by apply handle_text_untouched].
  - left. eapply starved_untouched; [done|]. unfold handle_binary.
    destruct (sv_loops sv !! i); [|apply untouched_refl].
    eapply untouched_trans; [apply with_loop_untouched|by apply send_message_untouched].
  - destruct (disconnect_starved id tx i sv Hs); auto.
  - destruct (handle_notified_starved id tx i sv Hf Hs); auto.
  - destruct (disconnect_starved id tx i (send_message i (MNotification (idle_notice cfg)) sv)); auto.
    eapply starved_untouched; [done|by apply send_message_untouched].
  - lia.
  - rewrite Hr in Hrun. by destruct pre.
  - assert (i = id) as -> by (apply (Hy (i, reply)); rewrite Hrep; set_solver).
    unfold tx_of in Ht. rewrite Hc in Ht. injection Ht as Ht. rewrite Ht in Hsend. by rewrite Hf in Hsend.
  - assert (i = id) as -> by (apply (Hy (i, reply)); rewrite Hrep; set_solver).
    unfold live in Hl. rewrite Hdead in Hl. by destruct Hl.
  - left. eapply starved_untouched; [done|by eapply req_turn_untouched].
  - destruct (decide (i = id)) as [->|Hne].
    + right. right. unfold tx_of in Ht. rewrite Hc in Ht. injection Ht as Ht. subst tx.
      exists msg, t. split; [done|]. cbn. by rewrite with_state_tx, decide_True.
    + left. split; try done. cbn. by rewrite with_state_tx, decide_False by congruence.
  - left. by split.
Qed.
End Permits.

(** * Witnesses *)

#[export] Instance queue_head : Receiver := fun q =>
  match q with m :: q => Some (m, q) | [] => None end.

Definition no_messages : chan (Channel := two_slots) := [].

Definition small_config : Config :=
  mkCfg default_bind_addr default_target_ram_percent 0 2 5 default_idle_timeout None
    default_persistence_interval [] None None.

Definition empty_store : EventStore := with_index index_new small_store.

Lemma empty_store_ok :
  wf_index sample_core (st_index empty_store) /\ abs_no_zombies (abs (st_index empty_store)).
Proof. split; [apply wf_index_new|]. intros id Hid. by apply elem_of_nil in Hid. Qed.

(** A client connects and sends the sample event. *)
Definition first_server : Server :=
  handle_text small_config 1 sample_frame (connect no_messages 0 (server_new empty_store 1)).

Lemma first_server_reach :
  reach elements small_config (server_new empty_store 1) first_server.
Proof.
  eapply reach_step; [eapply reach_step; [apply reach_start|]|].
  - apply (step_connect elements small_config no_messages 0).
  - apply step_text. eexists. reflexivity.
Qed.

Lemma server_invariant_witness :
  length (sv_waiting first_server) = 1 /\ server_ok small_config sample_core 1 first_server.
Proof.
  split; [vm_compute; reflexivity|].
  exact (server_invariant sample_core 1 elements small_config empty_store first_server
    (fun s => Permutation_refl _) sample_collision_free ltac:(lia) (proj1 empty_store_ok)
    (proj2 empty_store_ok) first_server_reach).
Defined.

Lemma request_answered_witness :
  exists answers, Forall2 (fun f l => query_filter three_store f = Ret l) [kind_filter [1%Z]] answers.
Proof.
  destruct (request_answered (core_table three_notes) three_store (lit "a") [kind_filter [1%Z]]
    three_ix_wf) as (answers & Ha & _).
  - intros f Hf. apply list_elem_of_singleton in Hf as ->. vm_compute. discriminate.
  - exact (ex_intro _ answers Ha).
Defined.

(** A client whose queue of two is full, and the one permit waiting for it. *)
Definition full_queue : chan (Channel := two_slots) := [lit "x"; lit "y"].
Definition stuck_server : Server :=
  mkServer (mkRelay empty_store (register full_queue 0 fanout_new).1) {[1%Z := mkLoop true 0 0 ∅]}
    [(2%Z, sample_frame)] [] [(1%Z, lit "reply")] 0 1.

Lemma stuck_server_ok : server_ok small_config sample_core 1 stuck_server.
Proof.
  split.
  - split; [apply empty_store_ok|apply empty_store_ok|]. apply register_ok, fanout_ok_new.
  - intros id. unfold live. cbn. rewrite elem_of_union, elem_of_singleton, lookup_singleton_is_Some.
    rewrite elem_of_empty. naive_solver.
  - cbn [stuck_server sv_loops]. intros id k subs [<- <-]%lookup_singleton_Some Hs.
    assert (subs = []) as -> by (vm_compute in Hs; by injection Hs as <-). clear Hs.
    split; [constructor|vm_compute; discriminate| |].
    + intros s Hs. by apply elem_of_nil in Hs.
    + intros rid t Ht. cbn in Ht. by rewrite lookup_empty in Ht.
  - cbn. lia.
  - cbn. by rewrite map_size_singleton.
Qed.

Lemma full_queue_starves_events_witness :
  starved 1 full_queue stuck_server
  /\ (starved 1 full_queue (connect no_messages 0 stuck_server)
      \/ ~ live (connect no_messages 0 stuck_server) 1
      \/ exists msg tx', recv full_queue = Some (msg, tx')
           /\ tx_of (sv_fanout (connect no_messages 0 stuck_server)) 1 = Some tx').
Proof.
  assert (starved 1 full_queue stuck_server) as Hs.
  { split; [reflexivity|reflexivity| |eexists; reflexivity|reflexivity].
    intros t Ht. apply list_elem_of_singleton in Ht as ->. reflexivity. }
  split; [exact Hs|].
  exact (full_queue_starves_events elements small_config sample_core 1 1 full_queue stuck_server
    (connect no_messages 0 stuck_server) stuck_server_ok (fun msg => eq_refl) Hs
    (step_connect elements small_config no_messages 0 stuck_server)).
Defined.
