(* ===== verification/Delivery.v ===== *)
(** Stored answers and live delivery together: between the moment a subscription
    is opened and the end of the answer to its REQ, no event falls through the gap.
    The REQ arm of [handle_socket] registers the subscription before it spawns the
    task that queries the store ([src/src/relay.rs]), so an event is either in an
    answer or was accepted afterwards, and then offered live. *)
From S2P Require Import Prelude Text Collections Event Reference Deletion Tombstones Index IndexInv IndexSpec IndexQuery Wal Store Subscription Fanout Message Relay Config Socket SocketInv SocketProps.
Open Scope memlay_scope.

(** * Accepting an event *)

Section Accepting.
Context `{HexLaws, MessageJsonLaws, Channel} (core_of : bytes -> Core).
Variable set_order : gset bytes -> list bytes.
Hypothesis order_perm : forall s, set_order s ≡ₚ elements s.
Hypothesis collision_free : forall raw e, from_json raw = Ok e -> genuine core_of e.

(** Only the event offered to [insert] can be new in the store, and then it is
    reported as stored. *)
Lemma store_insert_new st e st' res i x :
  wf_index core_of (st_index st) -> genuine core_of e -> store_insert st e = (st', res) ->
  by_id (st_index st) !! i = None -> by_id (st_index st') !! i = Some x ->
  x = e /\ i = ev_id e /\ exists old, res = IRStored e old.
Proof.
  intros Hwf He Hi Hn Hx. destruct (is_ephemeral e) eqn:Heph.
  { unfold store_insert in Hi. rewrite Heph in Hi. injection Hi as <- _. congruence. }
  pose proof (store_insert_abs core_of st e Hwf He Heph) as Habs. rewrite Hi in Habs.
  unfold Abstract.insert in Habs.
  destruct (Spec.contains _ _); [destruct Habs as (_ & Ha & _)|destruct (Abstract.slot_of _ _) as [old|]].
  - injection Ha as Hb _. congruence.
  - destruct (Abstract.supersedes e old); destruct Habs as (_ & Ha & Hr); injection Ha as Hb _; [|congruence].
    rewrite Hb in Hx. apply lookup_insert_Some in Hx as [[<- <-]|[_ Hx]]; [by eauto|].
    apply lookup_delete_Some in Hx as [_ Hx]. unfold abs in Hx. cbn in Hx. congruence.
  - destruct Habs as (_ & Ha & Hr). injection Ha as Hb _. rewrite Hb in Hx.
    apply lookup_insert_Some in Hx as [[<- <-]|[_ Hx]]; [|unfold abs in Hx; cbn in Hx; congruence].
    unfold abs in Hr. cbn [Abstract.events] in Hr. rewrite Hn in Hr. by eauto.
Qed.

(** An event that a frame adds to the store is offered to every registered
    connection. *)
Lemma process_new clock text r r' o i x :
  relay_ok core_of r -> process_event_message set_order clock text r = Ret (r', o) ->
  by_id (st_index (r_store r)) !! i = None -> by_id (st_index (r_store r')) !! i = Some x ->
  ev_id x = i /\ r_fanout r' = broadcast_all clock (broadcast_new x) (r_fanout r).
Proof.
  intros [Hwf Hz Hfo] Hp Hn Hx. unfold process_event_message in Hp.
  destruct (msg_from_json text) as [m|err] eqn:Hm; [|injection Hp as <- _; congruence].
  destruct m as [sub_id e| | | | | |]; try (injection Hp as <- _; congruence).
  pose proof (event_genuine core_of collision_free text sub_id e Hm) as He.
  destruct (is_deletion_request e) eqn:Hd.
  - unfold apply_deletion_request in Hp.
    destruct (store_contains _ _); [injection Hp as <- _; congruence|].
    destruct (is_tombstoned _ _); [injection Hp as <- _; congruence|].
    destruct (deletion_request e) as [req|]; [|done]. cbn [panicky_bind] in Hp.
    pose proof (apply_deletion_left core_of (r_store r) (set_order (dr_ids req)) (dr_coordinates req)
      (ev_pubkey e) (ev_created_at e) Hwf Hz) as Hl.
    destruct (apply_deletion _ _ _ _ _) as [st1 out]. cbn [fst snd] in Hl.
    assert (by_id (st_index st1) !! i = None) as Hn1.
    { destruct (by_id (st_index st1) !! i) as [y|] eqn:Hy; [|done].
      apply (dl_sub _ _ _ _ _ _ _ _ Hl) in Hy. congruence. }
    destruct (store_insert st1 e) as [st2 res] eqn:Hi. cbn [panicky_bind] in Hp.
    assert (r_store r' = st2) as Hst by (destruct res; injection Hp as <- _; done).
    rewrite Hst in Hx.
    destruct (store_insert_new st1 e st2 res i x (dl_wf _ _ _ _ _ _ _ _ Hl) He Hi Hn1 Hx)
      as (-> & -> & old & ->).
    injection Hp as <- _. split; [done|]. unfold published. cbn [r_fanout].
    by rewrite publish_broadcasts.
  - destruct (store_insert (r_store r) e) as [st1 res] eqn:Hi.
    assert (r_store r' = st1) as Hst by (destruct res; injection Hp as <- _; done).
    rewrite Hst in Hx.
    destruct (store_insert_new _ e st1 res i x Hwf He Hi Hn Hx) as (-> & -> & old & ->).
    injection Hp as <- _. split; [done|]. unfold published. cbn [r_fanout].
    by rewrite publish_broadcasts.
Qed.
End Accepting.

(** * What leaves the store alone *)

Section Store_alone.
Context `{HexCrate, MessageJson, Channel}.
Variable cfg : Config.

(** Frames, notifications and tasks of a connection leave the store alone. *)
Lemma close_overflowed_store id sv rid :
  r_store (sv_relay (close_overflowed id sv rid)) = r_store (sv_relay sv).
Proof. unfold close_overflowed. by case_match. Qed.

Lemma handle_notified_store id sv : r_store (sv_relay (handle_notified id sv)) = r_store (sv_relay sv).
Proof.
  unfold handle_notified. case_match; [|done]. destruct (take_overflowed _) as [c' rids].
  assert (forall l sv0, r_store (sv_relay (foldl (close_overflowed id) sv0 l)) = r_store (sv_relay sv0))
    as Hf.
  { induction l as [|rid l IH]; intros sv0; [done|]. cbn [foldl].
    by rewrite IH, close_overflowed_store. }
  case_match; [change (r_store (sv_relay (disconnect ?i ?s))) with (r_store (sv_relay s))|]; by rewrite Hf.
Qed.

Lemma handle_text_store id text sv :
  r_store (sv_relay (handle_text cfg id text sv)) = r_store (sv_relay sv).
Proof.
  unfold handle_text, handle_req, handle_close, handle_other. repeat case_match; done.
Qed.

End Store_alone.

(** * Following a subscription and its task *)

(** Every subscription offered is either sent or dropped. *)
Lemma offers_split `{Channel} json tx subs s :
  s ∈ subs -> s ∈ (offers json tx subs).1.2 \/ s ∈ (offers json tx subs).2.
Proof.
  revert tx. induction subs as [|[sid f] subs IH]; intros tx Hs; [by apply elem_of_nil in Hs|].
  cbn [offers]. destruct (try_send tx _) as [tx'|].
  - specialize (IH tx'). destruct (offers json tx' subs) as [[t sent] dropped]. cbn in *.
    apply elem_of_cons in Hs as [->|Hs]; [left; left|]. destruct (IH Hs); [left; by right|by right].
  - specialize (IH tx). destruct (offers json tx subs) as [[t sent] dropped]. cbn in *.
    apply elem_of_cons in Hs as [->|Hs]; [right; left|]. destruct (IH Hs); [by left|right; by right].
Qed.

Lemma NoDup_fst_eq {A B} (l : list (A * B)) a x y :
  NoDup (fst <$> l) -> (a, x) ∈ l -> (a, y) ∈ l -> x = y.
Proof.
  induction l as [|[b z] l IH]; intros Hnd Hx Hy; [by apply elem_of_nil in Hx|].
  cbn in Hnd. apply NoDup_cons in Hnd as [Hb Hnd].
  apply elem_of_cons in Hx as [Hx|Hx], Hy as [Hy|Hy]; simplify_eq; [done|..|by apply IH];
    exfalso; apply Hb; by apply (list_elem_of_fmap_2 fst) in Hx || apply (list_elem_of_fmap_2 fst) in Hy.
Qed.

Section Following.
Context `{HexLaws, MessageJsonLaws, Channel, !Receiver}.
Variable set_order : gset bytes -> list bytes.
Variable cfg : Config.
Variables (id : Z) (rid : str).

(** The task answering the subscription; [Some None] when it has ended. *)
Definition task_of (sv : Server) : option (option ReqTask) :=
  sv_loops sv !! id ≫= fun k => k_tasks k !! rid.

(** The subscription is open with these filters. *)
Definition is_open (fs : list Filter) (sv : Server) : Prop :=
  live sv id /\ exists subs, subs_of (sv_fanout sv) id = Some subs /\ (rid, fs) ∈ subs.

(** No subscription of this name is open. *)
Definition gone (sv : Server) : Prop :=
  forall subs, live sv id -> subs_of (sv_fanout sv) id = Some subs -> rid ∉ fst <$> subs.

Lemma gone_not_open fs sv : gone sv -> ~ is_open fs sv.
Proof.
  intros Hg (Hl & subs & Hs & Hin). apply (Hg subs Hl Hs).
  by apply (list_elem_of_fmap_2 fst) in Hin.
Qed.

(** What a step may do to the task: nothing, unless the subscription is closed or
    opened anew. *)
Definition followed (sv sv' : Server) : Prop :=
  task_of sv' = task_of sv \/ gone sv'
  \/ exists fs, is_open fs sv' /\ task_of sv' = Some (Some (mkTask fs [])).

Lemma task_with_loop i k sv :
  task_of (with_loop i k sv) = if decide (i = id) then k_tasks k !! rid else task_of sv.
Proof.
  unfold task_of. cbn [with_loop sv_loops]. case_decide as Hi.
  - subst. by rewrite lookup_insert_eq.
  - by rewrite lookup_insert_ne.
Qed.

Lemma task_lookup i k sv :
  sv_loops sv !! i = Some k -> (if decide (i = id) then k_tasks k !! rid else task_of sv) = task_of sv.
Proof. intros Hk. case_decide; [subst|done]. unfold task_of. by rewrite Hk. Qed.

Lemma put_sub_elem r fs subs : (r, fs) ∈ put_sub r fs subs.
Proof.
  induction subs as [|[i f] subs IH]; cbn [put_sub]; [left|].
  case_bool_decide; [subst; left|by right].
Qed.

Lemma open_sub_followed i k r fs sv :
  sv_loops sv !! i = Some k -> is_Some (subs_of (sv_fanout sv) i) ->
  followed sv (open_sub i k r fs sv).
Proof.
  intros Hk [subs Hs]. unfold open_sub. set (sv1 := with_fanout _ sv).
  destruct (decide (i = id /\ r = rid)) as [[-> ->]|Hne].
  - right. right. exists fs. split.
    + split; [eexists; cbn; apply lookup_insert_eq|].
      destruct (set_sub_subs id rid fs (sv_fanout sv)) as [_ S].
      exists (put_sub rid fs subs). split; [|apply put_sub_elem].
      unfold sv_fanout in *. cbn. rewrite S, decide_True by done. by rewrite Hs.
    + rewrite task_with_loop, decide_True by done. cbn. by rewrite lookup_insert_eq.
  - left. rewrite task_with_loop. cbn [k_tasks]. rewrite <- (task_lookup i k sv Hk).
    case_decide; [|done]. subst. rewrite lookup_insert_ne by naive_solver. done.
Qed.

Lemma close_sub_followed i k r sv :
  sv_loops sv !! i = Some k ->
  (task_of (close_sub i k r sv) = task_of sv \/ gone (close_sub i k r sv))
  /\ (gone sv -> gone (close_sub i k r sv)).
Proof.
  intros Hk. destruct (remove_sub_subs i r (sv_fanout sv)) as [_ S].
  assert (forall j, subs_of (sv_fanout (close_sub i k r sv)) j
    = subs_of (remove_sub i r (sv_fanout sv)).1 j) as Hf by done.
  split.
  - destruct (decide (i = id /\ r = rid)) as [[-> ->]|Hne].
    + right. intros subs _. rewrite Hf, S, decide_True by done.
      destruct (subs_of (sv_fanout sv) id) as [subs0|]; [|done]. cbn. intros [= <-].
      intros ([r f] & Hr & [_ Hne]%elem_of_List_filter)%list_elem_of_fmap.
      by apply bool_decide_eq_true in Hne.
    + left. unfold close_sub. rewrite task_with_loop. cbn [k_tasks].
      rewrite <- (task_lookup i k sv Hk). case_decide; [|done]. subst.
      rewrite lookup_delete_ne by naive_solver. done.
  - intros Hg subs Hl. rewrite Hf, S.
    assert (live sv id) as Hl0.
    { destruct Hl as [x Hx]. cbn in Hx. apply lookup_insert_Some in Hx as [[<- _]|[_ Hx]]; by eexists. }
    case_decide as Hi.
    + subst. destruct (subs_of (sv_fanout sv) id) as [subs0|] eqn:Hs; [|done]. cbn. intros [= <-] Hin.
      apply (Hg subs0 Hl0 Hs). apply list_elem_of_fmap in Hin as (s & Hr & [Hin _]%elem_of_List_filter).
      rewrite Hr. by apply list_elem_of_fmap_2.
    + intros Hs. by apply (Hg subs Hl0).
Qed.

Lemma handle_text_followed core_of permits i text sv :
  server_ok cfg core_of permits sv -> live sv i -> followed sv (handle_text cfg i text sv).
Proof.
  intros Hok [k Hk]. unfold handle_text. rewrite Hk. cbv zeta. set (k' := mkLoop true _ _ _).
  set (sv1 := with_loop i k' sv).
  assert (task_of sv1 = task_of sv) as Htask.
  { unfold sv1. rewrite task_with_loop. cbn. by apply task_lookup. }
  assert (sv_loops sv1 !! i = Some k') as Hk' by apply lookup_insert_eq.
  assert (forall sv2, followed sv1 sv2 -> followed sv sv2) as Hvia.
  { intros sv2 [He|Hf]; [left; by rewrite He|by right]. }
  destruct (Z.ltb _ _); [by left|]. case_bool_decide; [by left|].
  case_bool_decide; [|case_bool_decide].
  - unfold handle_req. destruct (msg_from_json text) as [[]|]; try by left.
    destruct (Nat.ltb _ _); [by left|]. destruct (fo_states _ !! i) as [c|] eqn:Hc; [|by left].
    destruct (_ && _); [by left|]. apply Hvia, open_sub_followed; [done|].
    unfold subs_of. by rewrite Hc.
  - unfold handle_close. destruct (msg_from_json text) as [[]|]; try by left.
    destruct (close_sub_followed i k' id0 sv1 Hk') as [[He|Hg] _]; [left; by rewrite He|right; by left].
  - unfold handle_other. destruct (msg_from_json text); by left.
Qed.

Lemma disconnect_followed i sv : followed sv (disconnect i sv).
Proof.
  destruct (decide (i = id)) as [->|Hne].
  - right. left. intros subs [k Hk]. cbn in Hk. by rewrite lookup_delete_eq in Hk.
  - left. unfold task_of. cbn. by rewrite lookup_delete_ne.
Qed.

Lemma gone_disconnect i sv : gone sv -> gone (disconnect i sv).
Proof.
  intros Hg subs [k Hk]. cbn in Hk. apply lookup_delete_Some in Hk as [_ Hk].
  destruct (unregister_subs i (sv_fanout sv)) as [_ S].
  change (subs_of (unregister i (sv_fanout sv)) id = Some subs -> rid ∉ fst <$> subs).
  rewrite S. apply Hg. by eexists.
Qed.

Lemma handle_notified_followed i sv : followed sv (handle_notified i sv).
Proof.
  unfold handle_notified. destruct (fo_states (sv_fanout sv) !! i) as [c|]; [|by left].
  destruct (take_overflowed _) as [c' rids]. set (sv1 := with_fanout _ sv).
  assert (task_of (foldl (close_overflowed i) sv1 rids) = task_of sv
    \/ gone (foldl (close_overflowed i) sv1 rids)) as Hf.
  { apply (foldl_ind (fun s => task_of s = task_of sv \/ gone s)); [by left|].
    intros s r _ Hs. unfold close_overflowed. destruct (sv_loops s !! i) as [k|] eqn:Hk; [|done].
    destruct (close_sub_followed i k r s Hk) as [Ht Hg].
    assert (forall m s, task_of (send_message i m s) = task_of s) as Hm by done.
    assert (forall m s, gone s -> gone (send_message i m s)) as Hgm.
    { intros m s0 H0' subs Hl. change (subs_of (send_frame i (msg_to_json m) (sv_fanout s0)) id
        = Some subs -> rid ∉ fst <$> subs).
      rewrite (proj2 (send_frame_same i (msg_to_json m) (sv_fanout s0))). by apply H0'. }
    destruct Hs as [Hs|Hs]; [|right; by apply Hgm, Hg].
    destruct Ht as [Ht|Ht]; [left; by rewrite Hm, Ht|right; by apply Hgm]. }
  destruct (c_kill c); [|destruct Hf; [by left|right; by left]].
  destruct Hf as [Hf|Hf]; [|right; left; by apply gone_disconnect].
  destruct (disconnect_followed i (foldl (close_overflowed i) sv1 rids)) as [Hd|Hd];
    [left; by rewrite Hd|by right].
Qed.

(** A step leaves the task alone, opens or closes the subscription, or is a turn of
    the task. *)
Lemma step_followed core_of permits fs sv sv' :
  server_ok cfg core_of permits sv -> is_open fs sv -> step set_order cfg sv sv' ->
  followed sv sv' \/ req_turn id rid sv = Some sv'.
Proof.
  intros Hok [Hlive _] Hstep.
  destruct Hstep as [tx now s|i text s Hl|i s Hl|i s _|i c s _ _ _|i k s _ _ _|pre task post s _ _
    |clock pre i text post s _|pre i reply post c tx s _ _ _ _|pre i reply post s _ _
    |i r s s' Hr|i c msg tx s _ _ _|st s _]; try by left; left.
  - left. left. unfold task_of. cbn. rewrite lookup_insert_ne; [done|]. intros Hid.
    pose proof (ro_fanout _ _ (so_relay _ _ _ _ Hok)) as Hfo. apply (so_live _ _ _ _ Hok) in Hlive.
    apply (fk_state _ Hfo), (fk_fresh _ Hfo) in Hlive. unfold sv_fanout in *. lia.
  - left. by eapply handle_text_followed.
  - left. left. destruct Hl as [k Hk]. unfold handle_binary. rewrite Hk.
    change (task_of (send_message i (MNotification binary_notice) ?s1)) with (task_of s1).
    rewrite task_with_loop. cbn. by apply task_lookup.
  - left. apply disconnect_followed.
  - left. apply handle_notified_followed.
  - left. unfold handle_idle.
    destruct (disconnect_followed i (send_message i (MNotification (idle_notice cfg)) s)) as [Hd|Hd];
      [left; by rewrite Hd|by right].
  - left. left. unfold run_event. by destruct (process_event_message _ _ _ _) as [[r [o|]]|].
  - destruct (decide (i = id /\ r = rid)) as [[-> ->]|Hne]; [by right|]. left. left.
    unfold req_turn in Hr. destruct (sv_loops s !! i) as [k|] eqn:Hk; [|done].
    destruct (fo_states _ !! i) as [c|]; [|done]. destruct (k_tasks k !! r) as [[t|]|]; [|done..].
    destruct (task_turn _ _ _ _) as [[t' tx]|]; [|done]. injection Hr as <-.
    rewrite task_with_loop. cbn [k_tasks].
    change (task_of (with_fanout ?fo s)) with (task_of s). rewrite <- (task_lookup i k s Hk).
    case_decide; [|done]. subst. rewrite lookup_insert_ne by naive_solver. done.
Qed.
End Following.

(** * The gap between stored and live *)

Section Gap.
Context `{HexLaws, MessageJsonLaws, Channel, !Receiver} (core_of : bytes -> Core) (permits : Z).
Variable set_order : gset bytes -> list bytes.
Variable cfg : Config.
Hypothesis order_perm : forall s, set_order s ≡ₚ elements s.
Hypothesis collision_free : forall raw e, from_json raw = Ok e -> genuine core_of e.
Variables (id : Z) (rid : str) (fs : list Filter).

Definition stored (sv : Server) (i : bytes) : option Event :=
  by_id (st_index (r_store (sv_relay sv))) !! i.

(** The steps of a run, each with the states before and after it. *)
Inductive run (sv0 : Server) : list (Server * Server) -> Server -> Prop :=
| run_start : run sv0 [] sv0
| run_step l sv sv' :
    run sv0 l sv -> step set_order cfg sv sv' -> run sv0 (l ++ [(sv, sv')]) sv'.

(** In this step the subscription's task queries [f], finds an event with id [i]
    and takes its frame among those to send. *)
Definition answered (f : Filter) (i : bytes) (st : Server * Server) : Prop :=
  exists rest events e,
    task_of id rid st.1 = Some (Some (mkTask (f :: rest) []))
    /\ query_filter (r_store (sv_relay st.1)) f = Ret events /\ e ∈ events /\ ev_id e = i
    /\ task_of id rid st.2 = Some (Some (mkTask rest (stored_frame rid <$> events))).

(** In this step the event [i] is accepted and offered to the connection: its frame
    for this subscription is queued, or the subscription is marked to be closed and
    its connection woken. *)
Definition offered (i : bytes) (st : Server * Server) : Prop :=
  exists clock e c tx sent dropped,
    stored st.1 i = None /\ stored st.2 i = Some e
    /\ fo_states (sv_fanout st.1) !! id = Some c
    /\ offers (be_json (broadcast_new e)) (c_tx c) (List.filter (wants e) (c_subs c)) = (tx, sent, dropped)
    /\ let c' := deliver clock (broadcast_new e) c in
       fo_states (sv_fanout st.2) !! id = Some c' /\ c_tx c' = tx
       /\ ((rid, fs) ∈ sent \/ rid ∈ c_overflow c' /\ c_notified c' = true).

(** The task still has [f] to query. *)
Definition pending (f : Filter) (sv : Server) : Prop :=
  exists t, task_of id rid sv = Some (Some t) /\ f ∈ rt_filters t /\ rt_filters t ⊆ fs.

Abbreviation ok := (server_ok cfg core_of permits).

Lemma new_event_offered f i sv sv' e :
  ok sv -> step set_order cfg sv sv' -> is_open id rid fs sv ->
  stored sv i = None -> stored sv' i = Some e -> f ∈ fs -> matches_event f e = true ->
  offered i (sv, sv').
Proof.
  intros Hok Hstep Ho Hn Hx Hf Hm. pose proof Hstep as Hs.
  destruct Hstep as [tx now s|j text s Hl|j s Hl|j s _|j c s _ _ _|j k s _ _ _|pre task post s _ _
    |clock pre j text post s _|pre j reply post c tx s _ _ _ _|pre j reply post s _ _
    |j r s s' Hr|j c msg tx s _ _ _|st s He]; unfold stored in *; try (cbn in Hx; congruence).
  - rewrite handle_text_store in Hx. congruence.
  - unfold handle_binary in Hx. case_match; cbn in Hx; congruence.
  - rewrite handle_notified_store in Hx. congruence.
  - destruct (process_total core_of set_order order_perm collision_free clock text (sv_relay s)
      (so_relay _ _ _ _ Hok)) as (r' & o & Hp & Hok' & _).
    assert (sv_relay (run_event set_order clock s pre post j text) = r') as Hr.
    { unfold run_event. rewrite Hp. by destruct o. }
    rewrite Hr in Hx.
    destruct (process_new core_of set_order collision_free clock text (sv_relay s) r' o i e
      (so_relay _ _ _ _ Hok) Hp Hn Hx) as [Hi Hfo].
    destruct Ho as [Hl (subs & Hsub & Hin)]. unfold subs_of in Hsub.
    destruct (fo_states (sv_fanout s) !! id) as [c|] eqn:Hc; [|done]. cbn in Hsub.
    injection Hsub as <-. apply (so_live _ _ _ _ Hok) in Hl.
    pose proof (deliver_subs_accounts clock (broadcast_new e) (c_subs c) c) as Hacc.
    change (be_event (broadcast_new e)) with e in Hacc.
    destruct (offers (be_json (broadcast_new e)) (c_tx c) (List.filter (wants e) (c_subs c)))
      as [[tx sent] dropped] eqn:Hoff.
    exists clock, e, c, tx, sent, dropped. cbn [fst snd]. unfold stored.
    destruct Hacc as (Htx & _ & _ & Hov & Hno).
    split_and!; [done|by rewrite Hr|done|exact Hoff|..].
    + unfold sv_fanout. rewrite Hr, Hfo. cbn [broadcast_all fo_states].
      rewrite map_lookup_imap. unfold sv_fanout in Hc. rewrite Hc. cbn.
      by rewrite bool_decide_true by exact Hl.
    + exact Htx.
    + assert ((rid, fs) ∈ List.filter (wants e) (c_subs c)) as Hwant.
      { apply elem_of_List_filter. split; [done|]. unfold wants. apply existsb_exists.
        exists f. split; [by apply list_elem_of_In|done]. }
      apply (offers_split (be_json (broadcast_new e)) (c_tx c)) in Hwant. rewrite Hoff in Hwant.
      cbn [fst snd] in Hwant. destruct Hwant as [Hin'|Hin']; [by left|right]. split.
      * apply Hov. right. by apply (list_elem_of_fmap_2 fst) in Hin'.
      * apply Hno. left. intros ->. by apply elem_of_nil in Hin'.
  - unfold req_turn in Hr. repeat case_match; simplify_eq; cbn in Hx; congruence.
  - destruct (maybe_evict_spec core_of (r_store (sv_relay s))) as (st' & He' & _ & _ & _ & _ & Hsub & _);
      [apply (so_relay _ _ _ _ Hok)|]. rewrite He in He'. injection He' as <-.
    apply Hsub in Hx. congruence.
Qed.

(** What the queries of the subscription need: limits that do not cut, and [#e] and
    [#p] values that are ids. *)
Definition unlimited (sv : Server) (f : Filter) : Prop :=
  (0 < fetch_limit f /\ Z.of_nat (index_len (st_index (r_store (sv_relay sv)))) <= fetch_limit f)%Z.

(** A turn of the task: the filter stays to be queried, or is answered. *)
Lemma turn_pending f i e sv sv' :
  ok sv -> req_turn id rid sv = Some sv' -> pending f sv ->
  (forall g, g ∈ fs -> 0 <= fetch_limit g)%Z -> decoded_filter f -> unlimited sv f ->
  stored sv i = Some e -> matches_event f e = true ->
  pending f sv' \/ answered f i (sv, sv').
Proof.
  intros Hok Hr ([fs0 frames] & Ht & Hf & Hsub) Hpos Hdec [Hlim Hroom] He Hm.
  cbn [rt_filters] in *. unfold req_turn in Hr. pose proof Ht as Ht0. unfold task_of in Ht0.
  destruct (sv_loops sv !! id) as [k|] eqn:Hk; [|done]. cbn in Ht0.
  destruct (fo_states (sv_fanout sv) !! id) as [c|]; [|done]. rewrite Ht0 in Hr.
  destruct (task_turn (r_store (sv_relay sv)) rid (mkTask fs0 frames) (c_tx c)) as [[t' tx]|] eqn:Htt;
    [|done].
  injection Hr as <-.
  assert (forall sv1 k1, task_of id rid (with_loop id k1 sv1) = k_tasks k1 !! rid) as Htask.
  { intros sv1 k1. by rewrite task_with_loop, decide_True. }
  unfold task_turn in Htt. cbn [rt_frames rt_filters] in Htt.
  destruct frames as [|msg frames].
  2: { destruct (try_send (c_tx c) msg) as [tx'|]; [|done]. injection Htt as <- <-. left.
       exists (mkTask fs0 frames). rewrite Htask. cbn. by rewrite lookup_insert_eq. }
  destruct fs0 as [|g rest]; [by apply elem_of_nil in Hf|].
  assert (forall x, x ∈ rest -> x ∈ fs) as Hrest by (intros x Hx; apply Hsub; by right).
  apply elem_of_cons in Hf as [<-|Hf].
  - destruct (query_complete core_of (r_store (sv_relay sv)) f
      (ro_wf _ _ (so_relay _ _ _ _ Hok)) Hdec Hlim Hroom) as (events & Hq & Hall).
    rewrite Hq in Htt. injection Htt as <- <-.
    destruct (Hall i e He Hm) as (e' & Hin & Hi & _). right. exists rest, events, e'.
    split_and!; [exact Ht|exact Hq|exact Hin|exact Hi|]. cbn [snd]. rewrite Htask. cbn.
    by rewrite lookup_insert_eq.
  - assert (g ∈ fs) as Hg by (apply Hsub; left).
    destruct (query_filter_total core_of (r_store (sv_relay sv)) g
      (ro_wf _ _ (so_relay _ _ _ _ Hok)) (Hpos g Hg)) as [events Hq].
    rewrite Hq in Htt. injection Htt as <- <-. left. eexists. rewrite Htask. cbn.
    rewrite lookup_insert_eq. by split_and!.
Qed.

Lemma step_pending f i sv sv' :
  ok sv -> step set_order cfg sv sv' -> is_open id rid fs sv -> is_open id rid fs sv' ->
  (forall g, g ∈ fs -> 0 <= fetch_limit g)%Z -> decoded_filter f -> unlimited sv f -> f ∈ fs ->
  (forall x, genuine core_of x -> ev_id x = i -> matches_event f x = true) ->
  pending f sv -> pending f sv' \/ answered f i (sv, sv') \/ offered i (sv, sv')
                \/ stored sv' i = None.
Proof.
  intros Hok Hstep Ho Ho' Hpos Hdec Hlim Hf Hm Hp.
  assert (ok sv') as Hok' by by eapply step_ok.
  destruct (step_followed set_order cfg id rid core_of permits fs sv sv' Hok Ho Hstep)
    as [[Hsame|[Hg|(fs' & Ho2 & Ht2)]]|Hturn].
  - left. destruct Hp as (t & Ht & Hin). exists t. by rewrite Hsame.
  - exfalso. by eapply gone_not_open.
  - left. destruct Ho' as ([k Hk] & subs & Hs & Hin), Ho2 as (_ & subs2 & Hs2 & Hin2).
    rewrite Hs in Hs2. injection Hs2 as <-.
    assert (fs' = fs) as -> by (eapply NoDup_fst_eq;
      [apply (co_nodup _ _ _ (so_conn _ _ _ _ Hok' id k subs Hk Hs))|done|done]).
    exists (mkTask fs []). by split_and!.
  - destruct (stored sv i) as [e|] eqn:He.
    + pose proof (wf_by_id _ _ (ro_wf _ _ (so_relay _ _ _ _ Hok)) i e He) as [Hi Hgen].
      destruct (turn_pending f i e sv sv' Hok Hturn Hp Hpos Hdec Hlim He (Hm e Hgen Hi));
        [by left|by right; left].
    + right. right. right. unfold stored, req_turn in *. repeat case_match; simplify_eq; done.
Qed.

Lemma run_ok sv1 l sv2 : ok sv1 -> run sv1 l sv2 -> ok sv2.
Proof. intros Hok. induction 1; [done|]. by eapply step_ok. Qed.

(** Along a run with the subscription open: unless the event is not stored, it is
    still to be found by the task, was answered, or was offered live. *)
Lemma run_covered f i sv1 l sv2 :
  ok sv1 -> is_open id rid fs sv1 -> pending f sv1 -> run sv1 l sv2 ->
  Forall (fun st => is_open id rid fs st.2 /\ unlimited st.1 f) l ->
  (forall g, g ∈ fs -> 0 <= fetch_limit g)%Z -> decoded_filter f -> f ∈ fs ->
  (forall x, genuine core_of x -> ev_id x = i -> matches_event f x = true) ->
  ok sv2 /\ is_open id rid fs sv2
  /\ (stored sv2 i = None \/ pending f sv2 \/ Exists (fun st => answered f i st \/ offered i st) l).
Proof.
  intros Hok1 Ho1 Hp1 Hrun Hall Hpos Hdec Hf Hm.
  induction Hrun as [|l sv sv' Hrun IH Hstep]; [by auto|].
  apply Forall_app in Hall as [Hall [Hopen Hlim]%Forall_singleton]. cbn [fst snd] in *.
  destruct (IH Hall) as (Hok & Ho & Hcov).
  assert (ok sv') as Hok' by by eapply step_ok. split_and!; [done|done|].
  assert (stored sv i = None -> stored sv' i = None \/ offered i (sv, sv')) as Hnew.
  { intros Hn. destruct (stored sv' i) as [e|] eqn:He; [right|by left].
    pose proof (wf_by_id _ _ (ro_wf _ _ (so_relay _ _ _ _ Hok')) i e He) as [Hi Hgen].
    eapply new_event_offered; [done|done|done|done|exact He|exact Hf|by apply Hm]. }
  rewrite Exists_app, Exists_cons, Exists_nil.
  destruct Hcov as [Hn|[Hp|Hex]]; [| |by auto].
  - destruct (Hnew Hn); tauto.
  - destruct (step_pending f i sv sv' Hok Hstep Ho Hopen Hpos Hdec Hlim Hf Hm Hp)
      as [?|[?|[?|?]]]; tauto.
Qed.
End Gap.

(** * A REQ frame opens a subscription *)

Section Opening.
Context `{HexLaws, MessageJsonLaws, Channel, !Receiver} (core_of : bytes -> Core) (permits : Z).
Variable set_order : gset bytes -> list bytes.
Variable cfg : Config.

(** Filters read from a frame carry no decoded values. *)
Definition undecoded (f : Filter) : Prop := f_e_bytes f = None /\ f_p_bytes f = None.

Lemma visit_entry_undecoded f key v f' :
  undecoded f -> visit_entry f key v = Ok f' -> undecoded f'.
Proof.
  unfold undecoded, visit_entry, read. intros Hu.
  repeat case_match; intros; simplify_eq; try done; by destruct f.
Qed.

Lemma visit_entries_undecoded f entries f' :
  undecoded f -> visit_entries f entries = Ok f' -> undecoded f'.
Proof.
  revert f. induction entries as [|[k v] entries IH]; intros f Hu; cbn [visit_entries].
  { by intros [= <-]. }
  destruct (visit_entry f k v) as [f1|] eqn:Hv; [|done]. cbn [result_bind].
  apply IH. by eapply visit_entry_undecoded.
Qed.

Lemma filters_undecoded raws filters :
  filters_of_json raws = Ok filters -> Forall undecoded filters.
Proof.
  revert filters. induction raws as [|raw raws IH]; intros filters; cbn [filters_of_json].
  { by intros [= <-]. }
  unfold filter_of_json. destruct (read_object raw) as [entries|]; [|done]. cbn [result_bind].
  destruct (visit_map entries) as [f|] eqn:Hv; [|done]. cbn [result_bind].
  destruct (filters_of_json raws) as [fs|]; [|done]. intros [= <-].
  constructor; [|by apply IH]. by eapply visit_entries_undecoded in Hv.
Qed.

Lemma request_undecoded text rid filters :
  msg_from_json text = Ok (MRequest rid filters) -> Forall undecoded filters.
Proof.
  unfold msg_from_json. destruct (raw_array text) as [arr|]; [|done]. cbn [result_bind].
  destruct arr as [|a0 args]; [done|]. destruct (read_borrowed a0) as [ty|]; [|done].
  cbn [ok_or result_bind]. case_bool_decide; [by repeat case_match|].
  case_bool_decide; [|repeat (case_bool_decide || case_match); try done;
    repeat (match goal with |- context [ok_or ?o _] => destruct o end; cbn [ok_or result_bind]); done].
  destruct args as [|a1 [|a2 rest]]; [done..|]. destruct (read_string a1) as [s|]; [|done].
  cbn [ok_or result_bind].
  destruct (filters_of_json (a2 :: rest)) as [fs|] eqn:Hf; [|done]. intros [= _ <-].
  by eapply filters_undecoded.
Qed.

Lemma prepared_decoded f0 :
  undecoded f0 -> id_values (f_e_tags f0) -> id_values (f_p_tags f0) ->
  decoded_filter (prepare_filter (max_limit cfg) f0).
Proof. intros [He Hp] Hie Hip. split_and!; [|by unfold prepare_filter; cbn; rewrite ?He, ?Hp..]. by cbn; rewrite He. Qed.

(** The REQ arm within its limits: the subscription is open, and its task has every
    filter to query. *)
Lemma req_opens id rid text filters subs sv :
  server_ok cfg core_of permits sv -> live sv id -> subs_of (sv_fanout sv) id = Some subs ->
  msg_from_json text = Ok (MRequest rid filters) ->
  (Z.of_nat (str_len text) <= MAX_MESSAGE_BYTES)%Z -> length filters <= MAX_FILTERS_PER_REQ ->
  (rid ∈ fst <$> subs \/ Z.of_nat (length subs) < max_subscriptions cfg)%Z ->
  let fs := prepare_filters filters (max_limit cfg) in
  let sv' := handle_text cfg id text sv in
  is_open id rid fs sv' /\ task_of id rid sv' = Some (Some (mkTask fs [])).
Proof.
  intros Hok [k Hk] Hs Hm Hlen Hmax Hroom fs sv'.
  assert (message_type text = Some (lit "REQ")) as Hty by exact (message_type_of text _ Hm).
  unfold sv', handle_text. rewrite Hk. cbv zeta. set (k' := mkLoop true _ _ _).
  destruct (Z.ltb_spec MAX_MESSAGE_BYTES (Z.of_nat (str_len text))); [lia|].
  rewrite Hty, bool_decide_false, bool_decide_true by done.
  unfold handle_req. rewrite Hm. destruct (Nat.ltb_spec MAX_FILTERS_PER_REQ (length filters)); [lia|].
  unfold subs_of in Hs. destruct (fo_states (sv_fanout sv) !! id) as [c|] eqn:Hc; [|done].
  cbn in Hs. injection Hs as Hs.
  assert (fo_states (sv_fanout (with_loop id k' sv)) !! id = Some c) as -> by exact Hc.
  assert (negb (has_sub c rid) && (max_subscriptions cfg <=? Z.of_nat (sub_count c))%Z = false) as ->.
  { rewrite <- Hs in Hroom. destruct Hroom as [Hin|Hr].
    - apply has_sub_spec in Hin. by rewrite Hin.
    - apply andb_false_intro2, Z.leb_gt. exact Hr. }
  unfold open_sub. split.
  - split; [eexists; cbn; apply lookup_insert_eq|].
    destruct (set_sub_subs id rid fs (sv_fanout sv)) as [_ S].
    exists (put_sub rid fs (c_subs c)). split; [|apply put_sub_elem].
    unfold sv_fanout in *. cbn. rewrite S, decide_True by done. unfold subs_of. by rewrite Hc.
  - rewrite task_with_loop, decide_True by done. cbn. by rewrite lookup_insert_eq.
Qed.
End Opening.

(** * Properties *)

(** C4: no event falls between the stored answer and live delivery. Let a REQ
    frame open a subscription (within the limits of the server: length of the frame,
    number of filters and of subscriptions), and let the server run on in any way
    (other clients, EVENT tasks, eviction, overflows) while the subscription stays
    open. Take a filter whose [#e] and [#p] values are ids and whose limit (the
    client's, or the server's if that is lower) is never below the number of stored
    events. When the task has no more to query for it, every stored event that it
    matches was either found by the task's query of it and taken among the frames to
    send, or was accepted later and offered live: its frame was put in the
    connection's queue, or the subscription was marked to be closed and the
    connection woken. (With a lower limit, [limit_applied_before_filters].) *)
Theorem no_event_missed `{HexLaws, MessageJsonLaws, Channel, !Receiver} core_of permits set_order
    cfg sv0 id rid text filters subs l sv2 f i e :
  (forall s, set_order s ≡ₚ elements s) ->
  (forall raw e, from_json raw = Ok e -> genuine core_of e) ->
  server_ok cfg core_of permits sv0 -> live sv0 id -> subs_of (sv_fanout sv0) id = Some subs ->
  msg_from_json text = Ok (MRequest rid filters) ->
  (Z.of_nat (str_len text) <= MAX_MESSAGE_BYTES)%Z -> length filters <= MAX_FILTERS_PER_REQ ->
  (rid ∈ fst <$> subs \/ Z.of_nat (length subs) < max_subscriptions cfg)%Z ->
  (0 <= max_limit cfg)%Z ->
  (forall f0, f0 ∈ filters -> (0 <= default 0%Z (f_limit f0))%Z
     /\ id_values (f_e_tags f0) /\ id_values (f_p_tags f0)) ->
  let fs := prepare_filters filters (max_limit cfg) in
  run set_order cfg (handle_text cfg id text sv0) l sv2 ->
  Forall (fun st => is_open id rid fs st.2 /\ unlimited st.1 f) l ->
  (forall t, task_of id rid sv2 = Some (Some t) -> f ∉ rt_filters t) ->
  f ∈ fs -> stored sv2 i = Some e -> matches_event f e = true ->
  Exists (fun st => answered id rid f i st \/ offered id rid fs i st) l.
Proof.
  intros Hord Hcf Hok0 Hl Hsubs Hm Hlen Hmax Hroom Hlim Hfilters fs Hrun Hall Hdone Hf He Hmatch.
  set (sv1 := handle_text cfg id text sv0) in *.
  destruct (req_opens core_of permits cfg id rid text filters subs sv0 Hok0 Hl Hsubs Hm Hlen Hmax Hroom)
    as [Hopen Htask]. fold fs sv1 in Hopen, Htask.
  assert (server_ok cfg core_of permits sv1) as Hok1
    by exact (step_ok core_of permits set_order cfg Hord Hcf _ _ Hok0 (step_text _ _ id text sv0 Hl)).
  assert (server_ok cfg core_of permits sv2) as Hok2.
  { by eapply run_ok. }
  pose proof (request_undecoded text rid filters Hm) as Hund. rewrite Forall_forall in Hund.
  pose proof (wf_by_id _ _ (ro_wf _ _ (so_relay _ _ _ _ Hok2)) i e He) as [Hi Hgen].
  assert (forall g, g ∈ fs -> 0 <= fetch_limit g)%Z as Hpos.
  { intros g (f0 & -> & Hin)%list_elem_of_fmap. destruct (Hfilters f0 Hin) as [H0' _].
    unfold fetch_limit, prepare_filter. cbn. destruct (f_limit f0); cbn in *; lia. }
  assert (decoded_filter f) as Hdec.
  { apply list_elem_of_fmap in Hf as (f0 & -> & Hin). destruct (Hfilters f0 Hin) as (_ & ? & ?).
    apply prepared_decoded; [by apply Hund|done|done]. }
  destruct (run_covered core_of permits set_order cfg Hord Hcf id rid fs f i sv1 l sv2)
    as (_ & _ & [Hn|[(t & Ht & Hin & _)|Hex]]); try done.
  - exists (mkTask fs []). by split_and!.
  - intros x Hx Hid. rewrite <- Hmatch. apply matches_core; [|congruence].
    unfold genuine in *. by rewrite Hx, Hgen, Hi, Hid.
  - congruence.
  - by destruct (Hdone t Ht).
Qed.

(** ** A client subscribes to everything, then an event arrives *)

Definition any_request : str := array_text [quoted (lit "REQ"); quoted (lit "a"); lit "{}"].

Definition connected : Server := connect no_messages 0 (server_new empty_store 1).
Definition subscribed : Server := handle_text small_config 1 any_request connected.
Definition turn (sv : Server) : Server := default sv (req_turn 1 (lit "a") sv).
Definition queried : Server := turn subscribed.
Definition replied : Server := turn queried.
Definition received : Server := handle_text small_config 1 sample_frame replied.
Definition permitted : Server := acquire received [] [] (1%Z, sample_frame).
Definition noon : Clock := fun _ _ => 0%Z.
Definition accepted : Server := run_event elements noon permitted [] [] 1 sample_frame.

Definition any_filters : list Filter := prepare_filters [filter_default] 5.

Lemma connected_ok : server_ok small_config sample_core 1 connected.
Proof.
  apply (reach_ok sample_core 1 elements small_config (fun s => Permutation_refl _)
    sample_collision_free (server_new empty_store 1)).
  - apply server_new_ok; [lia|apply empty_store_ok|apply empty_store_ok].
  - eapply reach_step; [apply reach_start|apply step_connect].
Qed.

Definition sample_run : list (Server * Server) :=
  [(subscribed, queried); (queried, replied); (replied, received); (received, permitted);
   (permitted, accepted)].

Lemma sample_run_steps : run elements small_config subscribed sample_run accepted.
Proof.
  unfold sample_run.
  apply (run_step elements small_config subscribed
    [(subscribed, queried); (queried, replied); (replied, received); (received, permitted)]).
  2: { apply (step_run elements small_config noon [] 1 sample_frame [] permitted). vm_compute. reflexivity. }
  apply (run_step elements small_config subscribed
    [(subscribed, queried); (queried, replied); (replied, received)]).
  2: { apply (step_acquire elements small_config [] (1%Z, sample_frame) [] received);
       vm_compute; reflexivity. }
  apply (run_step elements small_config subscribed [(subscribed, queried); (queried, replied)]).
  2: { apply step_text. eexists. vm_compute. reflexivity. }
  apply (run_step elements small_config subscribed [(subscribed, queried)]).
  2: { apply (step_req elements small_config 1 (lit "a")). vm_compute. reflexivity. }
  apply (run_step elements small_config subscribed []).
  2: { apply (step_req elements small_config 1 (lit "a")). vm_compute. reflexivity. }
  apply run_start.
Qed.

Lemma sample_open sv :
  bool_decide (live sv 1) = true -> subs_of (sv_fanout sv) 1 = Some [(lit "a", any_filters)] ->
  is_open 1 (lit "a") any_filters sv.
Proof. intros Hl%bool_decide_eq_true Hs. split; [done|]. eexists. split; [done|]. left. Qed.

Lemma no_event_missed_witness :
  Exists (fun st => answered 1 (lit "a") (prepare_filter 5 filter_default) (key32 1) st
                    \/ offered 1 (lit "a") any_filters (key32 1) st) sample_run.
Proof.
  apply (no_event_missed sample_core 1 elements small_config connected 1 (lit "a") any_request
    [filter_default] [] sample_run accepted (prepare_filter 5 filter_default) (key32 1) sample_event).
  - intros s. reflexivity.
  - exact sample_collision_free.
  - exact connected_ok.
  - eexists. vm_compute. reflexivity.
  - vm_compute. reflexivity.
  - vm_compute. reflexivity.
  - vm_compute. discriminate.
  - vm_compute. lia.
  - right. vm_compute. reflexivity.
  - vm_compute. discriminate.
  - intros f0 ->%list_elem_of_singleton. split; [reflexivity|]. by split.
  - exact sample_run_steps.
  - repeat constructor; cbn [snd fst]; try (apply sample_open; vm_compute; reflexivity);
      vm_compute; try reflexivity; discriminate.
  - intros t Ht. assert (task_of 1 (lit "a") accepted = Some None) as Hnone by (vm_compute; reflexivity).
    congruence.
  - left.
  - vm_compute. reflexivity.
  - vm_compute. reflexivity.
Defined.
