(* ===== verification/Float.v ===== *)
(** [f64] as the binary64 numbers of the Standard Library ([spec_float] with 53
    bits of precision), so that sizes and durations are computed bit by bit as the
    source does. *)
From Stdlib Require Export SpecFloat.
From S2P Require Import Prelude.
Open Scope memlay_scope.

(** [z as f64]. *)
Definition f64_of (z : Z) : spec_float := binary_normalize 53 1024 z 0 false.
Definition f64_mul (a b : spec_float) : spec_float := SFmul 53 1024 a b.
Definition f64_div (a b : spec_float) : spec_float := SFdiv 53 1024 a b.
Definition f64_add (a b : spec_float) : spec_float := SFadd 53 1024 a b.

(** [f as usize]: towards zero, saturating; NaN is zero. *)
Definition f64_as_usize (f : spec_float) : Z :=
  match f with
  | S754_finite false m e => Z.min (Z.shiftl (Zpos m) e) usize_max
  | S754_infinity false => usize_max
  | _ => 0%Z
  end.

(** [Duration::as_secs_f64] of a duration in nanoseconds. *)
Definition as_secs_f64 (d : Z) : spec_float :=
  f64_add (f64_of (d / 1000000000)) (f64_div (f64_of (d mod 1000000000)) (f64_of 1000000000)).

Example half_a_second : as_secs_f64 500000000 = f64_div (f64_of 1) (f64_of 2).
Proof. vm_compute. reflexivity. Qed.
