(* ===== verification/Startup.v ===== *)
(** Start-up, background work and shutdown: [StoreConfig]'s constructors and the
    task starters of [src/src/store/mod.rs], [Relay::new] of [src/src/relay.rs],
    and the end of [main] in [src/src/main.rs].

    What the host answers (memory sizes, file faults, the files left by an earlier
    run) is the argument [Host]; the sizing is computed in [f64] ([Float.v]). A background task is the work of one turn of its loop; when the
    turns happen is left open. *)
From S2P Require Import Prelude Float Text Collections Event Reference EventProps Deletion Tombstones Index IndexInv IndexSpec IndexQuery Wal Store Recovery Journal Durability Subscription Fanout Message Relay Config Socket SocketInv SocketProps.
Open Scope memlay_scope.

(** * Sizing *)

(** What the host answers at start-up, and the files it has. *)
Record Disk := mkDisk {
  dk_log : option Seg;
  dk_old : option Seg;
  dk_snapshot : option bytes;
}.
Record Host := mkHost {
  h_cgroup_limit : option Z;
  h_total_memory : Z;
  h_rss : Z;
  h_reads : Reads;
  h_open : Faults;
  h_rotate : Faults;
  h_write : Faults;
  h_disk : Disk;
}.

(** [get_total_memory]. *)
Definition get_total_memory (h : Host) : Z := default (h_total_memory h) (h_cgroup_limit h).

(** The sizing the two constructors share. *)
Definition target_bytes (total_memory percent : Z) : Z :=
  f64_as_usize (f64_mul (f64_of total_memory) (f64_div (f64_of percent) (f64_of 100))).

(** [StoreConfig::from_target_ram_percent]. *)
Definition from_target_ram_percent (total_memory percent : Z) : StoreConfig :=
  if (percent =? 0)%Z then mkConfig 0 None true
  else mkConfig (target_bytes total_memory percent) None true.

(** [StoreConfig::with_persistence]. *)
Definition with_persistence (total_memory percent : Z) (path : str) : StoreConfig :=
  if (percent =? 0)%Z then mkConfig 0 (Some path) true
  else mkConfig (target_bytes total_memory percent) (Some path) true.

(** * Background tasks *)

Inductive Task :=
| RssSampler
| Eviction
| WalSync
| Persistence
| ConnectionGauge.

#[export] Instance Task_eq_dec : EqDecision Task.
Proof. solve_decision. Defined.

(** [EventStore::start_eviction_task], [start_wal_sync_task] and
    [start_persistence_task]: the tasks each spawns. *)
Definition start_eviction_task : list Task := [RssSampler; Eviction].
Definition start_wal_sync_task (st : EventStore) : list Task :=
  match st_wal st with Some _ => [WalSync] | None => [] end.
Definition start_persistence_task (st : EventStore) : list Task :=
  match Store.persistence_path (st_config st) with Some _ => [Persistence] | None => [] end.

Section Startup.
Context `{HexCrate, EventCrates, Channel}.
Variable iteration_order : list Event -> list Event.

(** What a turn of a task reads from the host. *)
Record Turn := mkTurn {
  tn_rss : Z;
  tn_rotate : Faults;
  tn_write : Faults;
}.

(** One turn of a task's loop; errors are only logged. *)
Definition run_task (t : Task) (n : Turn) (sys : System) : panicky System :=
  match t with
  | RssSampler => Ret (on_store (fun st => rss_tick st (tn_rss n)) sys)
  | Eviction =>
      let! st := maybe_evict (sys_store sys) in Ret (on_store (fun _ => st) sys)
  | WalSync =>
      match st_wal (sys_store sys) with
      | Some wal => Ret (set_wal (group_commit (tn_rotate n) wal).1 sys)
      | None => Ret sys
      end
  | Persistence => Ret (maybe_checkpoint iteration_order (tn_rotate n) (tn_write n) sys).1
  | ConnectionGauge => Ret sys
  end.

(** * [Relay::new] *)

(** [struct Relay], with the store's files and the tasks that run. *)
Record RelayInstance := mkInstance {
  in_events : System;
  in_fanout : Fanout;
  in_config : Config;
  in_connection_count : Z;
  in_tasks : list Task;
}.

Definition store_config (config : Config) (h : Host) : StoreConfig :=
  match Config.persistence_path config with
  | Some path => with_persistence (get_total_memory h) (target_ram_percent config) path
  | None => from_target_ram_percent (get_total_memory h) (target_ram_percent config)
  end.

Definition relay_new (config : Config) (h : Host) : panicky RelayInstance :=
  let disk := h_disk h in
  let events := store_new (h_open h) (store_config config h) (dk_log disk) (dk_old disk) (h_rss h) in
  let! loaded := load_from_disk iteration_order (h_reads h) (h_rotate h) (h_write h)
                   (mkSystem events (dk_snapshot disk)) in
  let store := sys_store loaded.1 in
  let persistence :=
    match Config.persistence_path config with
    | Some _ => start_persistence_task store
    | None => []
    end in
  Ret (mkInstance loaded.1 fanout_new config 0
         (start_eviction_task ++ start_wal_sync_task store ++ persistence ++ [ConnectionGauge])).

(** * The end of [main] *)

(** Persist on shutdown: a checkpoint, or a plain flush when it fails. *)
Definition shutdown (config : Config) (flr fls flush : Faults) (sys : System)
    : System * result unit WalError :=
  match Config.persistence_path config with
  | None => (sys, Ok tt)
  | Some _ =>
      let '(sys1, r) := checkpoint iteration_order flr fls sys in
      match r with
      | Ok _ => (sys1, Ok tt)
      | Err _ => save_to_disk iteration_order flush sys1
      end
  end.

(** What a process leaves behind. *)
Definition disk_of (sys : System) : Disk :=
  mkDisk (st_wal (sys_store sys) ≫= w_log) (st_wal (sys_store sys) ≫= w_old) (sys_snapshot sys).
End Startup.

(** * What is on disk *)

(** The records of a segment that a replay reaches. *)
Fixpoint read_ops (fuel : nat) (bs : bytes) : list WalOp :=
  match fuel with
  | O => []
  | S fuel => match read_record bs with ROp op rest => op :: read_ops fuel rest | _ => [] end
  end.
Definition segment_ops (s : option Seg) : list WalOp :=
  match s with Some s => read_ops (S (length (seg_data s))) (seg_data s) | None => [] end.

Lemma replay_loop_ops {A} fuel (f : A -> WalOp -> A) st bs count :
  (replay_loop fuel f st bs count).1 = foldl f st (read_ops fuel bs).
Proof.
  revert st bs count. induction fuel as [|fuel IH]; intros st bs count; [done|].
  cbn [replay_loop read_ops]. destruct (read_record bs); done || apply IH.
Qed.

Lemma replay_path_ops {A} (f : A -> WalOp -> A) st s :
  (replay_path f st s).1 = foldl f st (segment_ops s).
Proof. destruct s; [apply replay_loop_ops|done]. Qed.

(** The JSON texts a load may parse. *)
Definition insert_texts (ops : list WalOp) : list bytes :=
  omap (fun op => match op with WInsert data => Some data | _ => None end) ops.
Definition disk_texts (d : Disk) : list bytes :=
  default [] (file_lines <$> dk_snapshot d) ++ insert_texts (segment_ops (dk_old d))
  ++ insert_texts (segment_ops (dk_log d)).

(** ** What is read is on disk *)

Lemma read_exact_take m n bs a r :
  read_exact m (take n bs) = Some (a, r) ->
  read_exact m bs = Some (a, drop m bs) /\ r = take (n - m) (drop m bs).
Proof.
  unfold read_exact. rewrite length_take. intros Hr. repeat case_match; simplify_eq; try lia.
  by rewrite take_take, Nat.min_l, skipn_firstn_comm by lia.
Qed.

Lemma read_record_take n bs op r :
  read_record (take n bs) = ROp op r ->
  exists rest k, read_record bs = ROp op rest /\ r = take k rest.
Proof.
  destruct bs as [|b bs], n as [|n]; try done. cbn [take read_record]. intros Hr.
  destruct (b =? 0)%Z.
  - destruct (read_exact 4 (take n bs)) as [[len r1]|] eqn:E1; [|done].
    apply read_exact_take in E1 as [-> ->]. destruct (_ >? _)%Z; [done|].
    destruct (read_exact _ (take _ _)) as [[data r2]|] eqn:E2; [|done].
    apply read_exact_take in E2 as [-> ->]. injection Hr as <- <-. by do 2 eexists.
  - destruct (b =? 1)%Z; [|destruct (b =? 2)%Z; [|done]];
      (destruct (read_exact 32 (take n bs)) as [[id r1]|] eqn:E1; [|done];
       apply read_exact_take in E1 as [-> ->]; injection Hr as <- <-; by do 2 eexists).
Qed.

Lemma read_ops_take fuel n bs : read_ops fuel (take n bs) `prefix_of` read_ops fuel bs.
Proof.
  revert n bs. induction fuel as [|fuel IH]; intros n bs; [done|]. cbn [read_ops].
  destruct (read_record (take n bs)) as [| | |op r] eqn:E; try apply prefix_nil.
  apply read_record_take in E as (rest & k & -> & ->). by apply prefix_cons.
Qed.

Lemma read_ops_more fuel fuel' bs : fuel <= fuel' -> read_ops fuel bs `prefix_of` read_ops fuel' bs.
Proof.
  revert fuel' bs. induction fuel as [|fuel IH]; intros fuel' bs Hf; [apply prefix_nil|].
  destruct fuel' as [|fuel']; [lia|]. cbn [read_ops].
  destruct (read_record bs); try done. apply prefix_cons, IH. lia.
Qed.

Lemma read_segment_ops r s : segment_ops (read_segment r s) `prefix_of` segment_ops s.
Proof.
  destruct r as [| |n]; [done|apply prefix_nil|]. destruct s as [s|]; [|done].
  unfold segment_ops. cbn [read_segment fmap option_fmap option_map seg_data].
  etransitivity; [apply read_ops_take|]. apply read_ops_more. rewrite length_take. lia.
Qed.

Lemma whole_lines_take n acc bs line :
  line ∈ whole_lines acc (take n bs) -> line ∈ split_lines acc bs.
Proof.
  revert n acc. induction bs as [|b bs IH]; intros n acc; destruct n as [|n]; cbn [take whole_lines];
    try by intros ?%elem_of_nil.
  cbn [split_lines]. case_match; [|apply IH]. rewrite !elem_of_cons. intros [->|Hin]; [by left|right].
  by eapply IH.
Qed.

Lemma read_lines_sub r file line :
  line ∈ read_lines r file -> line ∈ default [] (file_lines <$> file).
Proof.
  destruct r as [| |n]; cbn [read_lines]; [done|by intros ?%elem_of_nil|].
  destruct file; [apply whole_lines_take|done].
Qed.

Lemma insert_texts_prefix ops ops' :
  ops `prefix_of` ops' -> forall text, text ∈ insert_texts ops -> text ∈ insert_texts ops'.
Proof.
  intros [k ->] text. unfold insert_texts. rewrite omap_app, elem_of_app. by left.
Qed.

(** Stored text is not re-verified when it is loaded, so that its ids are the
    ids of its contents is an assumption about the files. *)
Definition disk_genuine `{HexCrate, EventCrates} (core_of : bytes -> Core) (d : Disk) : Prop :=
  forall text e, text ∈ disk_texts d -> from_json_unchecked text = Ok e -> genuine core_of e.

(** * Loading establishes the store's invariant *)

Section Loading.
Context `{HexCrate, EventCrates} (core_of : bytes -> Core).

Definition store_ok (st : EventStore) : Prop :=
  wf_index core_of (st_index st) /\ abs_no_zombies (abs (st_index st)).
Definition index_ok (ix : EventIndex) : Prop :=
  wf_index core_of ix /\ abs_no_zombies (abs ix).
Definition text_ok (text : bytes) : Prop :=
  forall e, from_json_unchecked text = Ok e -> genuine core_of e.

Lemma index_ok_exec ix o : index_ok ix -> op_genuine core_of o -> index_ok (exec ix o).1.
Proof.
  intros [Hwf Hz] Ho. split; [by apply wf_exec|].
  pose proof (exec_refines core_of ix o Hwf Ho) as Hr.
  pose proof (abs_no_zombies_exec (abs ix) o Hz) as Hz'. rewrite <- Hr in Hz'. done.
Qed.

Lemma index_ok_insert ix e : index_ok ix -> genuine core_of e -> index_ok (index_insert ix e).1.
Proof.
  intros Hok He. pose proof (index_ok_exec ix (OpInsert e) Hok He) as Hx. cbn [exec] in Hx.
  by destruct (index_insert ix e).
Qed.

Lemma index_ok_remove ix id : index_ok ix -> index_ok (index_remove ix id).1.
Proof.
  intros Hok. pose proof (index_ok_exec ix (OpRemove id) Hok I) as Hx. cbn [exec] in Hx.
  by destruct (index_remove ix id).
Qed.

Lemma index_ok_replay ix id :
  index_ok ix -> index_ok (index_remove (index_tombstone ix id) id).1.
Proof.
  intros Hok. pose proof (index_ok_exec ix (OpReplayTombstone id) Hok I) as Hx. cbn [exec] in Hx.
  by destruct (index_remove (index_tombstone ix id) id).
Qed.

(** Fewer events and the same tombstones. *)
Lemma index_ok_sub ix ix' :
  index_ok ix -> wf_index core_of ix' -> tombstones ix' = tombstones ix ->
  (forall id e, by_id ix' !! id = Some e -> by_id ix !! id = Some e) -> index_ok ix'.
Proof.
  intros [_ Hz] Hwf Ht Hsub. split; [done|]. intros id Hid. cbn in *. rewrite Ht in Hid.
  specialize (Hz id Hid). cbn in Hz.
  destruct (by_id ix' !! id) eqn:E; [|done]. apply Hsub in E. congruence.
Qed.

Lemma ingest_evict_tombstones fuel target ix n ix' n' :
  ingest_evict fuel target ix n = Ret (ix', n') -> tombstones ix' = tombstones ix.
Proof.
  revert ix n. induction fuel as [|fuel IH]; intros ix n; cbn [ingest_evict]; [by intros [= <- _]|].
  destruct (_ >? _)%Z; [|by intros [= <- _]].
  destruct (get_oldest ix 1) as [[|r l]|]; cbn [panicky_bind]; [by intros [= <- _]| |done].
  intros Hr. rewrite (IH _ _ Hr). apply internal_remove_tombstones.
Qed.

Lemma ingest_ok max ld e :
  index_ok (ld_index ld) -> genuine core_of e ->
  exists ld', ingest max ld e = Ret ld' /\ index_ok (ld_index ld').
Proof.
  intros Hok He. pose proof (index_ok_insert _ _ Hok He) as Hok1. unfold ingest.
  set (ix := (index_insert (ld_index ld) e).1) in *.
  destruct (_ && _); [|by eexists].
  destruct (ingest_evict_spec core_of (S (index_len ix)) (eviction_target max) ix (ld_evicted ld))
    as (ix' & n & Hr & Hwf' & _ & Hsub); [apply Hok1|lia|].
  rewrite Hr. eexists. split; [done|]. cbn [ld_index fst].
  eapply index_ok_sub; [exact Hok1|done| |done]. by eapply ingest_evict_tombstones.
Qed.

Lemma load_event_ok max ld text :
  index_ok (ld_index ld) -> text_ok text ->
  exists ld', load_event max ld text = Ret ld' /\ index_ok (ld_index ld').
Proof.
  intros Hok Ht. unfold load_event. destruct (from_json_unchecked text) as [e|] eqn:E; [|by eexists].
  destruct (ingest_ok max ld e Hok) as (ld' & -> & Hok'); [by apply Ht|]. by eexists.
Qed.

Lemma load_lines_ok max lines ld :
  index_ok (ld_index ld) -> Forall text_ok lines ->
  exists ld', load_lines max lines ld = Ret ld' /\ index_ok (ld_index ld').
Proof.
  intros Hok Hl. revert ld Hok. induction Hl as [|line lines Ht _ IH]; intros ld Hok;
    cbn [load_lines]; [by eexists|].
  destruct (negb (valid_utf8 line)); [by eexists|]. destruct line as [|b bs]; [by apply IH|].
  destruct (load_event_ok max ld (b :: bs) Hok Ht) as (ld' & -> & Hok'). by apply IH.
Qed.

Lemma replay_ops_ok max ld ops :
  index_ok (ld_index ld) -> Forall text_ok (insert_texts ops) ->
  exists ld', foldl (replay_op max) (Ret ld) ops = Ret ld' /\ index_ok (ld_index ld').
Proof.
  revert ld. induction ops as [|op ops IH]; intros ld Hok Ht; [by eexists|]. cbn [foldl].
  destruct op as [data|id|id]; cbn [replay_op panicky_bind].
  - apply Forall_cons in Ht as [Hd Ht].
    destruct (load_event_ok max ld data Hok Hd) as (ld' & -> & Hok'). by apply IH.
  - apply IH; [by apply index_ok_remove|done].
  - apply IH; [by apply index_ok_replay|done].
Qed.

Lemma index_ok_new : index_ok index_new.
Proof.
  split; [apply wf_index_new|]. intros id Hid. by apply elem_of_nil in Hid.
Qed.

(** Loading a fresh store never panics, whatever its limits, what of its files can be
    read and the faults of its checkpoint. *)
Lemma load_ok order rd flo flr fls config rss d :
  disk_genuine core_of d ->
  exists sys n,
    load_from_disk order rd flr fls
      (mkSystem (store_new flo config (dk_log d) (dk_old d) rss) (dk_snapshot d)) = Ret (sys, n)
    /\ store_ok (sys_store sys) /\ st_config (sys_store sys) = config.
Proof.
  intros Hd. set (st := store_new flo config (dk_log d) (dk_old d) rss).
  assert (st_config st = config) as Hc by done.
  assert (Forall text_ok (disk_texts d)) as Hall.
  { apply Forall_forall. intros t Ht e. by apply Hd. }
  apply Forall_app in Hall as [Hsnap [Hold Hlog]%Forall_app].
  assert (Forall text_ok (read_lines (rd_snapshot rd) (dk_snapshot d))) as Hsnap'.
  { rewrite Forall_forall in Hsnap |- *. intros t Ht. by eapply Hsnap, read_lines_sub. }
  assert (forall r s, Forall text_ok (insert_texts (segment_ops s)) ->
    Forall text_ok (insert_texts (segment_ops (read_segment r s)))) as Hread.
  { intros r s Hs. rewrite Forall_forall in Hs |- *. intros t Ht.
    eapply Hs, insert_texts_prefix; [apply read_segment_ops|done]. }
  unfold load_from_disk. cbn [sys_store sys_snapshot]. rewrite Hc.
  destruct (Store.persistence_path config) as [path|].
  2: { eexists _, _. split; [done|]. split; [apply index_ok_new|done]. }
  destruct (load_lines_ok (max_bytes config) _ (mkLoad (st_index st) 0 0 0) index_ok_new Hsnap')
    as (ld1 & -> & Hok1). cbn [panicky_bind].
  destruct (st_wal st) as [w|] eqn:Hw.
  2: { eexists _, _. split; [done|]. unfold store_ok. case_match.
       - rewrite (proj1 (checkpoint_index _ _ _ _)), (proj2 (checkpoint_index _ _ _ _)). done.
       - done. }
  assert (exists s, w_log w = Some s /\ segment_ops (Some s) = segment_ops (dk_log d)
    /\ w_old w = dk_old d) as (s & Hs & Hops & Ho).
  { unfold st, store_new in Hw. cbn [st_wal] in Hw. destruct (_ && _); [|done].
    unfold wal_open in Hw. destruct (_ || _); [done|]. injection Hw as <-. cbn [w_log w_old].
    eexists. split_and!; [done| |done]. by destruct (dk_log d). }
  assert (exists ld2, match w_old w with
    | None => Ret ld1
    | Some _ => (replay_path (replay_op (max_bytes config)) (Ret ld1)
                 (read_segment (rd_old rd) (w_old w))).1
    end = Ret ld2 /\ index_ok (ld_index ld2)) as (ld2 & -> & Hok2).
  { rewrite Ho. destruct (dk_old d) as [so|] eqn:Eo; [|by eexists]. rewrite replay_path_ops.
    apply replay_ops_ok; [done|by apply Hread]. }
  rewrite replay_path_ops, Hs.
  assert (Forall text_ok (insert_texts (segment_ops (read_segment (rd_log rd) (Some s))))) as Hlog'
    by (apply Hread; by rewrite Hops).
  destruct (replay_ops_ok (max_bytes config) ld2 _ Hok2 Hlog') as (ld3 & -> & Hok3).
  cbn [panicky_bind]. eexists _, _. split; [done|]. unfold store_ok. case_match.
  - rewrite (proj1 (checkpoint_index _ _ _ _)), (proj2 (checkpoint_index _ _ _ _)). done.
  - done.
Qed.
End Loading.

(** * The life of a process *)

Section Life.
Context `{HexLaws, MessageJsonLaws, Channel, !Receiver} (core_of : bytes -> Core).
Variable iteration_order : list Event -> list Event.
Variable set_order : gset bytes -> list bytes.
Variable cfg : Config.

(** The server and its snapshot file. *)
Definition system_of (sv : Server) (snapshot : option bytes) : System :=
  mkSystem (r_store (sv_relay sv)) snapshot.
Definition with_store (st : EventStore) (sv : Server) : Server :=
  with_relay (mkRelay st (sv_fanout sv)) sv.

(** Clients and connection tasks take steps, and so do the background tasks. *)
Inductive life : Server * option bytes -> Server * option bytes -> Prop :=
| life_step sv sv' snapshot :
    step set_order cfg sv sv' -> life (sv, snapshot) (sv', snapshot)
| life_task t n sv snapshot sys :
    run_task iteration_order t n (system_of sv snapshot) = Ret sys ->
    life (sv, snapshot) (with_store (sys_store sys) sv, sys_snapshot sys).

Lemma store_ok_same_index st st' :
  st_index st' = st_index st -> store_ok core_of st -> store_ok core_of st'.
Proof. unfold store_ok. by intros ->. Qed.

Lemma maybe_checkpoint_index order flr fls sys :
  st_index (sys_store (maybe_checkpoint order flr fls sys).1) = st_index (sys_store sys).
Proof.
  unfold maybe_checkpoint. case_match.
  - case_match; [by apply checkpoint_index|]. by destruct (group_commit _ _).
  - unfold save_to_disk, write_snapshot. repeat case_match; simplify_eq; done.
Qed.

(** No turn of a background task panics or breaks the store. *)
Lemma run_task_ok t n sys :
  store_ok core_of (sys_store sys) ->
  exists sys', run_task iteration_order t n sys = Ret sys' /\ store_ok core_of (sys_store sys').
Proof.
  intros Hok. destruct t; cbn [run_task].
  - eexists. split; [done|]. eapply store_ok_same_index; [|done]. cbn.
    unfold rss_tick, sample_amplification. by case_match.
  - destruct (maybe_evict_spec core_of (sys_store sys)) as (st' & -> & Hwf' & _ & _ & Ht & Hsub & _);
      [apply Hok|]. cbn [panicky_bind]. eexists. split; [done|].
    by apply (index_ok_sub core_of (st_index (sys_store sys))).
  - destruct (st_wal (sys_store sys)); by eexists.
  - eexists. split; [done|]. eapply store_ok_same_index; [|done]. apply maybe_checkpoint_index.
  - by eexists.
Qed.

Lemma with_store_ok permits st sv :
  server_ok cfg core_of permits sv -> store_ok core_of st ->
  server_ok cfg core_of permits (with_store st sv).
Proof. intros [[? ? Hf] ? ? ? ?] [Hwf Hz]. split; try done; by split. Qed.

Lemma server_store_ok permits sv :
  server_ok cfg core_of permits sv -> store_ok core_of (r_store (sv_relay sv)).
Proof. by intros [[? ? ?] ? ? ? ?]. Qed.

Hypothesis order_perm : forall s, set_order s ≡ₚ elements s.
Hypothesis collision_free : forall raw e, from_json raw = Ok e -> genuine core_of e.

Lemma life_ok permits p p' :
  rtc life p p' -> server_ok cfg core_of permits p.1 -> server_ok cfg core_of permits p'.1.
Proof.
  induction 1 as [|p p1 p2 Hstep _ IH]; intros Hok; [done|]. apply IH.
  destruct Hstep as [sv sv' snapshot Hs|t n sv snapshot sys Hr]; cbn [fst] in *.
  - by eapply step_ok.
  - destruct (run_task_ok t n (system_of sv snapshot)) as (sys' & Hr' & Hok');
      [by eapply server_store_ok|]. rewrite Hr in Hr'. injection Hr' as <-.
    by apply with_store_ok.
Qed.

Lemma relay_new_ok h :
  disk_genuine core_of (h_disk h) ->
  exists r, relay_new iteration_order cfg h = Ret r
    /\ store_ok core_of (sys_store (in_events r)) /\ in_fanout r = fanout_new.
Proof.
  intros Hd. unfold relay_new.
  destruct (load_ok core_of iteration_order (h_reads h) (h_open h) (h_rotate h) (h_write h)
    (store_config cfg h) (h_rss h) (h_disk h) Hd) as (sys & n & -> & Hok & _).
  by eexists.
Qed.
End Life.

(** * Shutting down *)

Section Shutdown.
Context `{HexCrate, EventCrates, Channel} (catalog : bytes -> option Event).
Hypothesis catalog_storable : forall e, known catalog e -> storable e.
Variable iteration_order : list Event -> list Event.
Hypothesis iteration_order_perm : forall l, iteration_order l ≡ₚ l.
Abbreviation settled := (settled catalog).
Abbreviation covers := (covers catalog).

(** The next process, on the files this one leaves. *)
Definition load_disk (c : StoreConfig) (rss : Z) (flr fls : Faults) (d : Disk)
    : panicky (System * Z) :=
  load_from_disk iteration_order all_read flr fls
    (mkSystem (store_new no_faults c (dk_log d) (dk_old d) rss) (dk_snapshot d)).

Definition recoverable (sys : System) : Prop :=
  forall c rss flr fls, unlimited c ->
  exists sys' n, load_disk c rss flr fls (disk_of sys) = Ret (sys', n)
    /\ by_id (st_index (sys_store sys')) = by_id (st_index (sys_store sys)).

Definition reconfigured (c : StoreConfig) (rss : Z) (sys : System) : System :=
  let st := sys_store sys in
  mkSystem (mkStore (st_index st) c (st_eviction st) (st_wal st) rss (amplification_milli st))
    (sys_snapshot sys).

Lemma covers_recoverable sys : covers sys -> recoverable sys.
Proof.
  intros (w & snap & l0 & opsA & opsB & _ & Hrest) c rss flr fls Hc.
  destruct (restart_recovers catalog catalog_storable iteration_order flr fls (reconfigured c rss sys))
    as (sys' & n & Hr & Hby); [by exists w, snap, l0, opsA, opsB|].
  by exists sys', n.
Qed.

(** Two systems with the same events whose files open to the same store. *)
Lemma recoverable_same sys sys' :
  recoverable sys -> st_index (sys_store sys') = st_index (sys_store sys) ->
  sys_snapshot sys' = sys_snapshot sys ->
  dk_old (disk_of sys') = dk_old (disk_of sys) ->
  default seg_empty (dk_log (disk_of sys')) = default seg_empty (dk_log (disk_of sys)) ->
  recoverable sys'.
Proof.
  intros Hr Hix Hsn Ho Hl c rss flr fls Hc. destruct (Hr c rss flr fls Hc) as (s & n & Hload & Hby).
  exists s, n. rewrite Hix. split; [|done]. rewrite <- Hload. unfold load_disk.
  assert (store_new no_faults c (dk_log (disk_of sys')) (dk_old (disk_of sys')) rss
    = store_new no_faults c (dk_log (disk_of sys)) (dk_old (disk_of sys)) rss) as ->.
  { unfold store_new, wal_open. cbn [no_faults fail_mkdir fail_open orb]. by rewrite Hl, Ho. }
  cbn [disk_of dk_snapshot]. by rewrite Hsn.
Qed.

Lemma flush_disk fl w :
  w_log w = None -> (forall s, w_old w = Some s -> seg_sync s = s) ->
  w_log (flush fl w).1 = None /\ w_old (flush fl w).1 = w_old w.
Proof.
  intros Hl Ho. unfold flush, on_handle. destruct (fail_sync fl); [done|].
  destruct (w_handle w); cbn; rewrite ?Hl; try done.
  split; [done|]. destruct (w_old w) as [s|] eqn:E; [|done]. simpl. by rewrite (Ho s).
Qed.

(** Saving after a failed checkpoint keeps a covered system covered. *)
Lemma save_covers fl sys : covers sys -> covers (save_to_disk iteration_order fl sys).1.
Proof.
  intros Hcov. pose proof Hcov as (w & snap & l0 & opsA & opsB & ((p & Hp) & _) & Hw & _ & _ & _ & Hlog & _).
  unfold save_to_disk. rewrite Hp, Hw. case_match; [done|].
  destruct (flush fl w) as [w' r] eqn:Hfl. replace w' with (flush fl w).1 by by rewrite Hfl.
  eapply covers_wal; [done|done| |by apply (flush_keeps fl w _ Hlog)].
  intros ops Ho. by apply flush_keeps.
Qed.

Lemma shutdown_index config flr fls flush sys :
  st_index (sys_store (shutdown iteration_order config flr fls flush sys).1)
  = st_index (sys_store sys).
Proof.
  unfold shutdown. case_match; [|done].
  pose proof (checkpoint_index iteration_order flr fls sys) as [Hix _].
  destruct (checkpoint iteration_order flr fls sys) as [sys1 [[]|e]]; [done|].
  cbn [fst] in Hix. rewrite <- Hix. unfold save_to_disk, write_snapshot.
  repeat case_match; simplify_eq; done.
Qed.

Lemma save_index fl sys :
  st_index (sys_store (save_to_disk iteration_order fl sys).1) = st_index (sys_store sys).
Proof. unfold save_to_disk, write_snapshot. repeat case_match; simplify_eq; done. Qed.

(** A rotation that fails either left the live log alone, or renamed it without
    opening a new one. *)
Lemma rotate_failed w w1 s fl e :
  w_handle w = AtLog -> w_log w = Some s -> rotate fl w = (w1, Err e) ->
  ((forall ops, log_holds w ops -> log_holds w1 ops) /\ w_old w1 = w_old w)
  \/ (w_log w1 = None /\ w_old w1 = Some (seg_sync s) /\ w_handle w1 = AtOld).
Proof.
  destruct w as [log old h d b]. cbn [w_handle w_log w_old]. intros -> ->.
  unfold rotate. destruct (fail_sync fl); [intros [= <- _]; by left|]. cbn.
  destruct (fail_rename fl); cbn.
  - intros [= <- _]. left. split; [|done].
    intros ops Hl. exact (proj1 (log_holds_sync (mkWal (Some s) old AtLog d b) ops d Hl)).
  - destruct (fail_open fl); [|done]. intros [= <- _]. by right.
Qed.

Lemma shutdown_recoverable config flr fls flush sys :
  settled sys -> is_Some (Config.persistence_path config) ->
  recoverable (shutdown iteration_order config flr fls flush sys).1
  /\ st_index (sys_store (shutdown iteration_order config flr fls flush sys).1)
     = st_index (sys_store sys).
Proof.
  intros Hset [path Hpath].
  pose proof Hset as [Hcov (w & Hw & Hnone)].
  pose proof (settled_unlimited catalog sys Hset) as ((p & Hp) & _).
  assert (forall n, covers (checkpoint_steps iteration_order n sys)) as Hsteps.
  { intros n. by apply checkpoint_steps_cover. }
  destruct (settled_log catalog sys w Hset Hw) as (snap & lm & opsB & _ & _ & Hlog & _).
  destruct (rotate_log w _ Hlog) as (s & Hs & _ & Hrot). destruct Hlog as [Hh _].
  split; [|by apply shutdown_index].
  unfold shutdown, checkpoint. rewrite Hpath, Hp, Hw.
  assert (forall fl sys', covers sys' -> recoverable (save_to_disk iteration_order fl sys').1)
    as Hsave by (intros; by apply covers_recoverable, save_covers).
  destruct (fail_mkdir flr); [by apply Hsave|].
  destruct (rotate flr w) as [w1 [[]|err]] eqn:Hr.
  - assert (w1 = (rotate no_faults w).1) as ->.
    { unfold rotate in *. cbn in Hr |- *. repeat case_match; by simplify_eq. }
    destruct (write_snapshot iteration_order fls _) as [sys2 [n|e2]] eqn:Hsnap.
    + assert (sys2 = checkpoint_steps iteration_order 2 sys) as ->.
      { unfold checkpoint_steps. rewrite Hw. unfold write_snapshot in *. cbn in *.
        repeat case_match; by simplify_eq. }
      cbn [fst]. destruct (fail_remove fls); apply covers_recoverable; [apply Hsteps|].
      pose proof (Hsteps 3) as H3. unfold checkpoint_steps in *. by rewrite Hw in *.
    + apply Hsave. pose proof (Hsteps 1) as H1'. unfold checkpoint_steps in H1'. rewrite Hw in H1'.
      unfold write_snapshot in Hsnap. repeat case_match; by simplify_eq.
  - destruct (rotate_failed w w1 s flr err Hh Hs Hr) as [Hkeep|(Hl & Ho & Hd)].
    { apply Hsave. eapply covers_wal; [done|done|apply Hkeep|apply Hkeep]. }
    apply (recoverable_same (checkpoint_steps iteration_order 1 sys)).
    + by apply covers_recoverable.
    + unfold checkpoint_steps. rewrite Hw. by rewrite save_index.
    + unfold checkpoint_steps, save_to_disk, set_wal. rewrite Hw. cbn. rewrite Hp. cbn.
      case_match; [done|]. by destruct (Wal.flush _ _).
    + unfold checkpoint_steps, save_to_disk. rewrite Hw, Hrot. cbn. rewrite Hp. cbn.
      case_match; [done|].
      destruct (flush_disk flush w1 Hl) as [_ Hf]; [by intros ? ?; rewrite Ho in *; simplify_eq|].
      destruct (Wal.flush flush w1). cbn in *. by rewrite Hf.
    + unfold checkpoint_steps, save_to_disk. rewrite Hw, Hrot. cbn. rewrite Hp. cbn.
      case_match; [unfold disk_of; simpl; by rewrite Hl|].
      destruct (flush_disk flush w1 Hl) as [Hf _]; [by intros ? ?; rewrite Ho in *; simplify_eq|].
      destruct (Wal.flush flush w1). cbn in *. by rewrite Hf.
Qed.
End Shutdown.

(** * Properties *)

(** C3: the whole life of a process: started on any files whose records are genuine
    (an id determines the contents, also across files; loading does not verify it
    again), with any configuration, host readings and file faults, and whatever part
    of the files can be read, [Relay::new] succeeds;
    from then on, whatever clients send and however connection tasks and
    background turns (RSS sampling, eviction, WAL group commits, checkpoints, with
    any readings and faults) interleave, the server invariant holds, in
    particular the six secondary indexes agree with the stored events and no
    stored event is tombstoned, and no background turn panics. *)
Theorem relay_lifetime_invariant `{HexLaws, MessageJsonLaws, Channel, !Receiver} core_of
    iteration_order set_order cfg h cpus :
  (forall s, set_order s ≡ₚ elements s) ->
  (forall raw e, from_json raw = Ok e -> genuine core_of e) ->
  disk_genuine core_of (h_disk h) ->
  exists r, relay_new iteration_order cfg h = Ret r /\
    forall p, rtc (life iteration_order set_order cfg)
        (server_new (sys_store (in_events r)) (verify_permits cpus), sys_snapshot (in_events r)) p ->
      server_ok cfg core_of (verify_permits cpus) p.1 /\
      forall t n, exists sys, run_task iteration_order t n (system_of p.1 p.2) = Ret sys.
Proof.
  intros Hord Hcf Hd. destruct (relay_new_ok core_of iteration_order cfg h Hd) as (r & Hr & [Hwf Hz] & _).
  exists r. split; [done|]. intros p Hrun.
  assert (server_ok cfg core_of (verify_permits cpus) p.1) as Hok.
  { eapply life_ok; [done|done|exact Hrun|]. apply server_new_ok; [|done|done].
    unfold verify_permits. pose proof (clamp_range 64 256 (cpus * 32)). lia. }
  split; [done|]. intros t n.
  destruct (run_task_ok core_of iteration_order t n (system_of p.1 p.2)) as (sys & Hs & _);
    [by eapply server_store_ok|]. by exists sys.
Qed.

(** C15: a graceful shutdown loses nothing, even when it fails: after a life of any
    sequence of inserts, deletion requests, maintenance, checkpoints and
    crash-restarts from an empty directory in which no file operation failed, with
    persistence on, without a memory limit and for
    events whose id determines their text, on one line and at most 16 MiB long, let
    the process shut down with any faults in its last checkpoint and in the flush
    that replaces a failed one (the log renamed but not reopened included); then
    [Relay::new] on the files left behind, if it can open and read them, with any
    faults in its own checkpoint, comes up with exactly the events that were in
    memory. *)
Theorem graceful_restart `{HexCrate, EventCrates, Channel} catalog iteration_order path rss acts
    config flr fls flush :
  (forall e, known catalog e -> storable e) ->
  (forall l, iteration_order l ≡ₚ l) ->
  Forall (action_known catalog) acts ->
  is_Some (Config.persistence_path config) -> target_ram_percent config = 0%Z ->
  exists sys, foldl (act iteration_order) (Ret (first_start path rss)) acts = Ret sys /\
    forall h, h_open h = no_faults -> h_reads h = all_read ->
     h_disk h = disk_of (shutdown iteration_order config flr fls flush sys).1 ->
     exists r, relay_new iteration_order config h = Ret r /\
       by_id (st_index (sys_store (in_events r))) = by_id (st_index (sys_store sys)).
Proof.
  intros Hst Hperm Hk [p Hp] Hpct.
  destruct (acts_settled catalog Hst iteration_order Hperm _ acts
    (first_start_settled catalog iteration_order Hperm path rss) Hk) as (sys & Hrun & Hset).
  exists sys. split; [done|]. intros h Hopen Hreads Hd.
  destruct (shutdown_recoverable catalog Hst iteration_order Hperm config flr fls flush sys Hset)
    as [Hrec Hix]; [by eexists|].
  destruct (Hrec (store_config config h) (h_rss h) (h_rotate h) (h_write h)) as (sys' & n & Hl & Hby).
  { unfold store_config, with_persistence. rewrite Hp, Hpct. split_and!; [by eexists|done|done]. }
  unfold load_disk in Hl. rewrite <- Hd in Hl. unfold relay_new. rewrite Hopen, Hreads, Hl.
  eexists. split; [done|]. cbn [in_events fst]. by rewrite Hby, Hix.
Qed.

(** ** Sample hosts *)

Definition data_config (percent : Z) : Config :=
  mkCfg default_bind_addr percent 0 default_max_subscriptions default_max_limit
    default_idle_timeout (Some (lit "/data")) default_persistence_interval [] None None.

(** A host of 8 GiB, limited to 1 GiB. *)
Definition sample_host (d : Disk) : Host :=
  mkHost (Some (2 ^ 30))%Z (2 ^ 33)%Z 0 all_read no_faults no_faults no_faults d.

(** The sample event in the snapshot, and its tombstone in the log. *)
Definition sample_disk : Disk :=
  mkDisk (Some (mkSeg (encode_op (WTombstone (key32 1))) 33)) None
    (Some (snapshot_bytes [sample_event])).

Lemma sample_disk_genuine : disk_genuine sample_core sample_disk.
Proof.
  intros text e Ht. assert (disk_texts sample_disk = [sample_json]) as E by (vm_compute; reflexivity).
  rewrite E in Ht. apply list_elem_of_singleton in Ht as ->. vm_compute. by intros [= <-].
Qed.

Lemma relay_lifetime_invariant_witness :
  exists r, relay_new keep_order (data_config 80) (sample_host sample_disk) = Ret r /\
    server_ok (data_config 80) sample_core 64
      (server_new (sys_store (in_events r)) (verify_permits 1)).
Proof.
  destruct (relay_lifetime_invariant sample_core keep_order elements (data_config 80)
    (sample_host sample_disk) 1 (fun s => Permutation_refl _) sample_collision_free
    sample_disk_genuine) as (r & Hr & Hlife).
  exact (ex_intro _ r (conj Hr (proj1 (Hlife _ (rtc_refl _ _))))).
Defined.

(** The log was renamed, but could not be reopened. *)
Definition reopen_fails : Faults := mkFaults false true false false false false.

Lemma graceful_restart_witness :
  exists sys r, run_system [ActInsert sample_event] = Ret sys /\
    relay_new keep_order (data_config 0)
      (sample_host (disk_of (shutdown keep_order (data_config 0) reopen_fails no_faults no_faults sys).1))
    = Ret r /\
    by_id (st_index (sys_store (in_events r))) = by_id (st_index (sys_store sys)).
Proof.
  destruct (graceful_restart sample_catalog keep_order (lit "/data") 0 [ActInsert sample_event]
    (data_config 0) reopen_fails no_faults no_faults sample_catalog_storable
    (fun l => Permutation_refl l)) as (sys & Hrun & Hnext).
  - repeat constructor.
  - by eexists.
  - reflexivity.
  - destruct (Hnext (sample_host (disk_of (shutdown keep_order (data_config 0) reopen_fails
      no_faults no_faults sys).1)) eq_refl eq_refl eq_refl) as (r & Hr & Hby).
    exact (ex_intro _ sys (ex_intro _ r (conj Hrun (conj Hr Hby)))).
Defined.

(** Loading fills the store to as much as 90% of the process limit (and evicts
    down to 70% of it), far past the payload budget, which allows for the indexes. *)
Lemma load_overfills_budget :
  let st := store_new no_faults (mkConfig (2 ^ 33) (Some (lit "/data")) true) None None 0 in
  (payload_budget st * 2 < eviction_target (max_bytes (st_config st)))%Z.
Proof. vm_compute. reflexivity. Qed.
