(* ===== verification/Http.v ===== *)
(** The HTTP side of [src/src/relay.rs]: [Relay::router], the handlers of "/",
    "/stats" and "/metrics", the relay information document (NIP-11) and the
    landing page.

    A request is what a handler's extractors give it: the path of a GET, the
    headers, the peer's address and whether the WebSocket upgrade was granted.
    A response is the headers a handler adds and its body; an upgrade leads to
    [handle_socket] (Socket.v). The page template, the crate's version and the
    Prometheus text are arguments. *)
From stdpp Require Import pretty.
From Stdlib Require Import SpecFloat.
From S2P Require Import Prelude Float Text Collections Event Reference EventProps Deletion Tombstones Index IndexInv IndexSpec IndexQuery Wal Store Recovery Journal Durability Subscription Fanout Message Relay Config Proxy Socket SocketInv SocketProps Delivery Startup.
Open Scope memlay_scope.

(** * Text *)

(** [str::starts_with], [str::contains]. *)
Fixpoint starts_with (pat s : str) : bool :=
  match pat, s with
  | [], _ => true
  | p :: pat, c :: s => N.eqb p c && starts_with pat s
  | _ :: _, [] => false
  end.
Fixpoint contains (pat s : str) : bool :=
  starts_with pat s || match s with [] => false | _ :: s => contains pat s end.

(** [str::replace] for a non-empty pattern: the matches from the left, without
    overlaps; [skip] characters belong to the last match. *)
Fixpoint replace_loop (pat to : str) (skip : nat) (s : str) : str :=
  match s with
  | [] => []
  | c :: rest =>
      match skip with
      | S skip => replace_loop pat to skip rest
      | O => if starts_with pat s then to ++ replace_loop pat to (length pat - 1) rest
             else c :: replace_loop pat to O rest
      end
  end.
Definition replace (s pat to : str) : str := replace_loop pat to O s.

(** * Documents *)

(** A [serde_json::Value] as the [json!] macro builds it. *)
Inductive Json :=
| JNum (n : Z)
| JFloat (f : spec_float)
| JText (s : str)
| JArray (l : list Json)
| JObject (fields : list (str * Json)).

Definition json_get (key : str) (j : Json) : option Json :=
  match j with
  | JObject fields => snd <$> List.find (fun kv => bool_decide (fst kv = key)) fields
  | _ => None
  end.
Definition json_path (path : list str) (j : Json) : option Json :=
  foldl (fun j key => j ≫= json_get key) (Some j) path.

Inductive Body :=
| BJson (j : Json)
| BText (s : str)
(** The connection is upgraded: [handle_socket] runs for this address. *)
| BUpgrade (addr : SocketAddr).
Record Response := mkResponse {
  rs_headers : list (str * str);
  rs_body : Body;
}.

(** [EventStore::amplification]. *)
Definition amplification (st : EventStore) : spec_float :=
  f64_div (f64_of (amplification_milli st)) (f64_of 1000).

(** [EventStore::memory_bytes], [tombstone_count] and [cached_process_memory]. *)
Definition store_memory_bytes (st : EventStore) : Z := memory_bytes (st_index st).
Definition tombstone_count (st : EventStore) : Z := tombstones_len (tombstones (st_index st)).
Definition cached_process_memory (st : EventStore) : Z := cached_rss_bytes st.

Definition SUPPORTED_NIPS : list Z := [1; 9; 11]%Z.

Definition any_origin : str * str := (lit "Access-Control-Allow-Origin", lit "*").

(** [stats_handler]. *)
Definition stats_handler (events : EventStore) : Response :=
  let cfg := st_config events in
  let store_memory := store_memory_bytes events in
  mkResponse [any_origin] (BJson (JObject [
    (lit "events", JNum (store_len events));
    (lit "tombstones", JNum (tombstone_count events));
    (lit "store_bytes", JNum store_memory);
    (lit "max_bytes", JNum (max_bytes cfg));
    (lit "payload_budget", JNum (payload_budget events));
    (lit "amplification", JFloat (amplification events));
    (lit "process_memory", JNum (cached_process_memory events));
    (lit "memory_limit", JNum (max_bytes cfg));
    (lit "memory_used", JNum store_memory)])).

(** [nip11_handler]. *)
Definition nip11_handler (version : str) (config : Config) : Response :=
  mkResponse
    [(lit "Content-Type", lit "application/nostr+json"); any_origin;
     (lit "Access-Control-Allow-Headers", lit "*");
     (lit "Access-Control-Allow-Methods", lit "GET")]
    (BJson (JObject [
      (lit "name", JText (lit "memlay"));
      (lit "description", JText (lit "High-performance in-memory Nostr relay"));
      (lit "software", JText (lit "https://github.com/v0l/memlay"));
      (lit "version", JText version);
      (lit "supported_nips", JArray (JNum <$> SUPPORTED_NIPS));
      (lit "limitation", JObject [
        (lit "max_subscriptions", JNum (max_subscriptions config));
        (lit "max_limit", JNum (max_limit config));
        (lit "max_message_length", JNum MAX_MESSAGE_BYTES);
        (lit "idle_timeout", JNum (idle_timeout config))])])).

Definition QUOTE : str := [34%N].
Definition NL : str := [10%N].

(** A NIP number as [{nip:02}]. *)
Definition two_digits (n : Z) : str :=
  if (n <? 10)%Z then lit "0" ++ show (Z.to_N n) else show (Z.to_N n).
Definition nip_pill (nip : Z) : str :=
  lit "<span class=" ++ QUOTE ++ lit "pill" ++ QUOTE ++ lit ">NIP-" ++ two_digits nip ++ lit "</span>".

Definition metrics_section : str :=
  lit "<section>" ++ NL ++ lit "    <h2>Metrics</h2>" ++ NL
  ++ lit "    <div class=" ++ QUOTE ++ lit "row" ++ QUOTE ++ lit ">" ++ NL
  ++ lit "      <span>Graphs</span>" ++ NL
  ++ lit "      <a href=" ++ QUOTE ++ lit "/metrics" ++ QUOTE ++ lit " target=" ++ QUOTE
  ++ lit "_blank" ++ QUOTE ++ lit ">View Prometheus Metrics</a>" ++ NL
  ++ lit "    </div>" ++ NL ++ lit "  </section>".

(** [landing_page]. *)
Definition landing_page (template version : str) : Response :=
  let html := replace template (lit "{{VERSION}}") version in
  let html := replace html (lit "{{METRICS_SECTION}}") metrics_section in
  let html := replace html (lit "{{NIPS}}") (SUPPORTED_NIPS ≫= nip_pill) in
  mkResponse
    [(lit "Content-Type", lit "text/html; charset=utf-8");
     (lit "Cache-Control", lit "no-cache, no-store, must-revalidate")]
    (BText html).

(** [metrics_handler]. *)
Definition metrics_handler (metrics : str) : Response :=
  mkResponse [(lit "Content-Type", lit "text/plain; version=0.0.4")] (BText metrics).

(** * The router *)

Section Router.
Context `{HexCrate, EventCrates, Channel, IpNets, Headers}.
Variable template version : str.

(** [struct AppState]; the store, the fanout, the connection counter and the
    semaphore are the server's (Socket.v). *)
Record AppState := mkApp {
  app_server : Server;
  app_config : Config;
  app_proxies : TrustedProxies;
}.

(** [Relay::router]. *)
Definition router (r : RelayInstance) (cpus : Z) : AppState :=
  mkApp
    (mkServer (mkRelay (sys_store (in_events r)) (in_fanout r)) ∅ [] [] []
       (verify_permits cpus) (in_connection_count r))
    (in_config r) (trusted_parse (Config.trusted_proxies (in_config r))).

Record Request := mkRequest {
  rq_path : str;
  rq_headers : HeaderMap;
  rq_peer : SocketAddr;
  rq_upgrade : bool;
}.

(** [root_handler]. *)
Definition wants_info (headers : HeaderMap) : bool :=
  match header_get headers (lit "accept") with
  | Some (Some v) => contains (lit "application/nostr+json") v
  | _ => false
  end.
Definition root_handler (app : AppState) (rq : Request) : Response :=
  if wants_info (rq_headers rq) then nip11_handler version (app_config app)
  else
    let addr := client_addr (app_proxies app) (rq_peer rq) (rq_headers rq) in
    if rq_upgrade rq then mkResponse [] (BUpgrade addr)
    else landing_page template version.

(** The routes of [Relay::router]; the text of "/metrics" is an argument. *)
Definition http_get (metrics : str) (app : AppState) (rq : Request) : option Response :=
  if bool_decide (rq_path rq = lit "/stats") then Some (stats_handler (r_store (sv_relay (app_server app))))
  else if bool_decide (rq_path rq = lit "/") then Some (root_handler app rq)
  else if bool_decide (rq_path rq = lit "/metrics") then Some (metrics_handler metrics)
  else None.

(** The application while the server runs: the configuration and the proxies are
    those of the start. *)
Definition with_server (sv : Server) (app : AppState) : AppState :=
  mkApp sv (app_config app) (app_proxies app).
End Router.

(** * The store's settings while the server runs *)

Section Settings.
Context `{HexCrate, EventCrates, MessageJson, Channel, !Receiver}.
Variable iteration_order : list Event -> list Event.
Variable set_order : gset bytes -> list bytes.
Variable cfg : Config.

(** Same configuration and same amplification. *)
Definition same_settings (st st' : EventStore) : Prop :=
  st_config st' = st_config st /\ amplification_milli st' = amplification_milli st.

#[export] Instance same_settings_po : PreOrder same_settings.
Proof. split; [by split|]. intros st1 st2 st3 [C1 A1] [C2 A2]. split; congruence. Qed.

Lemma foldl_settings {A} (f : EventStore * DeletionOutcome -> A -> EventStore * DeletionOutcome) l s :
  (forall s x, same_settings s.1 (f s x).1) -> same_settings s.1 (foldl f s l).1.
Proof.
  intros Hf. revert s. induction l as [|x l IH]; intros s; [done|]. cbn [foldl].
  etransitivity; [apply Hf|apply IH].
Qed.

Lemma delete_recorded_settings s id : same_settings s.1 (delete_recorded s id).1.
Proof. destruct s as [st o]. unfold delete_recorded. by destruct (delete_by_id _ _). Qed.

Lemma apply_deletion_settings st ids coords author until :
  same_settings st (apply_deletion st ids coords author until).1.
Proof.
  unfold apply_deletion.
  etransitivity; [|apply foldl_settings].
  - apply (foldl_settings (delete_id author) ids (st, outcome_default)). intros s id.
    unfold delete_id. repeat case_match; [apply delete_recorded_settings|done..].
  - intros s c. unfold delete_coordinate. repeat case_match; [done..|].
    apply foldl_settings, delete_recorded_settings.
Qed.

Lemma store_insert_settings st e : same_settings st (store_insert st e).1.
Proof. unfold store_insert. repeat case_match; done. Qed.

Lemma process_settings clock text r r' o :
  process_event_message set_order clock text r = Ret (r', o) ->
  same_settings (r_store r) (r_store r').
Proof.
  unfold process_event_message, apply_deletion_request.
  destruct (msg_from_json text) as [[sub ev| | | | | |]|err]; try by intros [= <- _].
  destruct (is_deletion_request ev).
  - case_match; [by intros [= <- _]|]. case_match; [by intros [= <- _]|].
    destruct (deletion_request ev) as [req|]; [|done]. cbn [panicky_bind].
    destruct (apply_deletion _ _ _ _ _) as [st1 out] eqn:Ha.
    destruct (store_insert st1 ev) as [st2 res] eqn:Hi. cbn [panicky_bind].
    assert (same_settings (r_store r) st2) as Hs.
    { transitivity st1.
      - pose proof (apply_deletion_settings (r_store r) (set_order (dr_ids req))
          (dr_coordinates req) (ev_pubkey ev) (ev_created_at ev)) as Hd. by rewrite Ha in Hd.
      - pose proof (store_insert_settings st1 ev) as Hd. by rewrite Hi in Hd. }
    destruct res; by intros [= <- _].
  - destruct (store_insert (r_store r) ev) as [st1 res] eqn:Hi.
    pose proof (store_insert_settings (r_store r) ev) as Hs. rewrite Hi in Hs.
    destruct res; by intros [= <- _].
Qed.

Lemma maybe_evict_settings st st' : maybe_evict st = Ret st' -> same_settings st st'.
Proof.
  unfold maybe_evict. cbv zeta. case_match; [by intros [= <-]|].
  case_match; [|by intros [= <-]]. destruct (get_oldest _ _); [|done]. cbn [panicky_bind].
  destruct (evict_chunks _ _ _ _). intros [= <-]. by case_match.
Qed.

Lemma step_settings sv sv' :
  step set_order cfg sv sv' -> same_settings (r_store (sv_relay sv)) (r_store (sv_relay sv')).
Proof.
  intros [| | | | | | |clock pre i text post sv0 _| | |i rid sv0 sv1 Hr| |st sv0 He]; try done.
  - by rewrite handle_text_store.
  - unfold handle_binary. by case_match.
  - by rewrite handle_notified_store.
  - unfold run_event. destruct (process_event_message _ _ _ _) as [[r [o|]]|] eqn:Hp; [..|done];
      by eapply process_settings in Hp.
  - unfold req_turn in Hr. repeat case_match; simplify_eq; done.
  - by apply maybe_evict_settings.
Qed.

Lemma write_snapshot_store order fl sys :
  sys_store (write_snapshot order fl sys).1 = sys_store sys.
Proof. unfold write_snapshot. by case_match. Qed.

Lemma checkpoint_settings order flr fls sys :
  same_settings (sys_store sys) (sys_store (checkpoint order flr fls sys).1).
Proof.
  unfold checkpoint. destruct (Store.persistence_path _); [|done]. case_match; [done|].
  destruct (st_wal (sys_store sys)) as [w|].
  - destruct (rotate flr w) as [wal1 [?|?]]; [|done].
    pose proof (write_snapshot_store order fls (set_wal wal1 sys)) as Hs.
    destruct (write_snapshot _ _ _) as [sys2 [?|?]]; cbn [fst] in *; [|by rewrite Hs].
    case_match; unfold same_settings; cbn; by rewrite Hs.
  - pose proof (write_snapshot_store order fls sys) as Hs.
    destruct (write_snapshot _ _ _) as [sys2 ?]; cbn [fst] in *. by rewrite Hs.
Qed.

Lemma maybe_checkpoint_settings order flr fls sys :
  same_settings (sys_store sys) (sys_store (maybe_checkpoint order flr fls sys).1).
Proof.
  unfold maybe_checkpoint. case_match.
  - case_match; [apply checkpoint_settings|]. by destruct (group_commit _ _).
  - unfold save_to_disk. destruct (Store.persistence_path _); [|done]. case_match; [done|].
    case_match; [by destruct (flush _ _)|].
    pose proof (write_snapshot_store order fls sys) as Hs.
    destruct (write_snapshot _ _ _) as [sys2 ?]; cbn [fst] in *. by rewrite Hs.
Qed.

Lemma load_settings order rd flr fls sys r :
  load_from_disk order rd flr fls sys = Ret r -> same_settings (sys_store sys) (sys_store r.1).
Proof.
  unfold load_from_disk. cbv zeta. case_match; [|by intros [= <-]].
  destruct (load_lines _ _ _) as [ld1|]; [|done]. cbn [panicky_bind]. case_match.
  - destruct (fst (replay_path _ _ (read_segment (rd_log rd) _))) as [ld3|]; [|done]. cbn [panicky_bind]. intros [= <-]. cbn [fst].
    case_match; [|done]. etransitivity; [|apply checkpoint_settings]. done.
  - intros [= <-]. cbn [fst]. case_match; [|done]. etransitivity; [|apply checkpoint_settings]. done.
Qed.

(** The configuration of the start, and an amplification in its range. *)
Definition settings_ok (c : StoreConfig) (st : EventStore) : Prop :=
  st_config st = c /\ (1000 <= amplification_milli st <= 16000)%Z.

Lemma settings_ok_same c st st' : same_settings st st' -> settings_ok c st -> settings_ok c st'.
Proof. unfold settings_ok. by intros [-> ->]. Qed.

Lemma run_task_settings c t n sys sys' :
  run_task iteration_order t n sys = Ret sys' ->
  settings_ok c (sys_store sys) -> settings_ok c (sys_store sys').
Proof.
  intros Hr Hok. destruct t; cbn [run_task] in Hr.
  - injection Hr as <-. destruct Hok as [Hc Ha]. split; [|by apply rss_tick_range].
    rewrite <- Hc. exact (proj2 (sample_amplification_keeps (with_rss (tn_rss n) _) _)).
  - destruct (maybe_evict _) as [st|] eqn:He; [|done]. injection Hr as <-.
    by eapply settings_ok_same; [apply maybe_evict_settings|].
  - by case_match; injection Hr as <-.
  - injection Hr as <-. eapply settings_ok_same; [apply maybe_checkpoint_settings|done].
  - by injection Hr as <-.
Qed.

Lemma life_settings c p p' :
  rtc (life iteration_order set_order cfg) p p' ->
  settings_ok c (r_store (sv_relay p.1)) -> settings_ok c (r_store (sv_relay p'.1)).
Proof.
  induction 1 as [|p p1 p2 Hstep _ IH]; intros Hok; [done|]. apply IH.
  destruct Hstep as [sv sv' snapshot Hs|t n sv snapshot sys Hr]; cbn [fst] in *.
  - eapply settings_ok_same; [by eapply step_settings|done].
  - by eapply run_task_settings in Hr.
Qed.

Lemma relay_new_settings h r :
  relay_new iteration_order cfg h = Ret r ->
  settings_ok (store_config cfg h) (sys_store (in_events r)) /\ in_config r = cfg
  /\ in_fanout r = fanout_new /\ in_connection_count r = 0%Z.
Proof.
  unfold relay_new. destruct (load_from_disk _ _ _ _ _) as [l|] eqn:Hl; [|done]. intros [= <-].
  split_and!; [|done..]. eapply settings_ok_same; [by eapply load_settings|].
  split; [done|]. cbn. unfold DEFAULT_AMPLIFICATION_MILLI. lia.
Qed.
End Settings.

(** * Reading the documents *)

(** Same store, subscriptions, tasks and counters; at most the connection's queue
    and its activity change. *)
Record only_answered `{HexCrate, MessageJson, Channel} (sv sv' : Server) : Prop := {
  oa_store : r_store (sv_relay sv') = r_store (sv_relay sv);
  oa_subs : forall id, subs_of (sv_fanout sv') id = subs_of (sv_fanout sv) id;
  oa_tasks : forall id, k_tasks <$> sv_loops sv' !! id = k_tasks <$> sv_loops sv !! id;
  oa_waiting : sv_waiting sv' = sv_waiting sv;
}.

Lemma too_large_only_answered `{HexCrate, MessageJson, Channel} cfg id text sv :
  (MAX_MESSAGE_BYTES < Z.of_nat (str_len text))%Z -> only_answered sv (handle_text cfg id text sv).
Proof.
  intros Hlen. unfold handle_text. destruct (sv_loops sv !! id) as [k|] eqn:Hk; [|done].
  destruct (Z.ltb_spec MAX_MESSAGE_BYTES (Z.of_nat (str_len text))); [|lia].
  unfold send_message, with_fanout, with_relay. split; cbn [sv_relay r_store sv_loops sv_waiting sv_fanout r_fanout].
  - done.
  - intros i. unfold sv_fanout. cbn [sv_relay r_fanout with_loop]. by rewrite (proj2 (send_frame_same _ _ _)).
  - intros i. cbn [with_loop sv_loops]. destruct (decide (i = id)) as [->|Hne].
    + by rewrite lookup_insert_eq, Hk.
    + by rewrite lookup_insert_ne by done.
  - done.
Qed.

(** * Properties *)

(** ** The running server *)

Section Running.
Context `{HexLaws, MessageJsonLaws, Channel, !Receiver, IpNets, Headers}.
Variable core_of : bytes -> Core.
Variable iteration_order : list Event -> list Event.
Variable set_order : gset bytes -> list bytes.
Variable cfg : Config.
Variable h : Host.
Variable cpus : Z.
Hypothesis order_perm : forall s, set_order s ≡ₚ elements s.
Hypothesis collision_free : forall raw e, from_json raw = Ok e -> genuine core_of e.
Hypothesis disk_ok : disk_genuine core_of (h_disk h).

(** The application of instance [r], at some time of its life in which the server
    is [sv]. *)
Definition running (r : RelayInstance) (sv : Server) (app : AppState) : Prop :=
  relay_new iteration_order cfg h = Ret r /\ app = with_server sv (router r cpus)
  /\ exists snapshot,
       rtc (life iteration_order set_order cfg)
         (app_server (router r cpus), sys_snapshot (in_events r)) (sv, snapshot).

Lemma running_ok r sv app :
  running r sv app ->
  server_ok cfg core_of (verify_permits cpus) sv
  /\ settings_ok (store_config cfg h) (r_store (sv_relay sv))
  /\ app_server app = sv /\ app_config app = cfg.
Proof.
  intros (Hr & -> & snapshot & Hlife).
  destruct (relay_new_settings iteration_order cfg h r Hr) as (Hset & Hcfg & Hfo & Hcnt).
  destruct (relay_new_ok core_of iteration_order cfg h disk_ok) as (r' & Hr' & [Hwf Hz] & _).
  rewrite Hr in Hr'. injection Hr' as <-.
  assert (app_server (router r cpus) = server_new (sys_store (in_events r)) (verify_permits cpus))
    as Hnew by by unfold router, server_new; cbn; rewrite Hfo, Hcnt.
  split_and!; [| |done|done].
  - eapply (life_ok core_of iteration_order set_order cfg order_perm collision_free _ _ _ Hlife).
    cbn [fst]. rewrite Hnew. apply server_new_ok; [|done|done].
    unfold verify_permits. pose proof (clamp_range 64 256 (cpus * 32)). lia.
  - eapply (life_settings iteration_order set_order cfg _ _ _ Hlife). cbn [fst]. by rewrite Hnew.
Qed.
End Running.

(** C26: the limits the relay advertises are the limits it enforces: whenever a
    client asks for the relay information document, the numbers it reads in
    ["limitation"] bind every connection at that moment. No connection has more
    than [max_subscriptions] subscriptions, no filter of one returns more than
    [max_limit] stored events, and a frame longer than [max_message_length] bytes
    changes neither the store nor any subscription, starts nothing and is answered
    at most by a notice. *)
Theorem advertised_limits_enforced
    `{HexLaws, MessageJsonLaws, Channel, !Receiver, IpNets, Headers} core_of iteration_order
    set_order cfg h cpus template version metrics r sv app rq :
  (forall s, set_order s ≡ₚ elements s) ->
  (forall raw e, from_json raw = Ok e -> genuine core_of e) ->
  disk_genuine core_of (h_disk h) ->
  (0 <= max_subscriptions cfg)%Z -> (0 <= max_limit cfg)%Z ->
  running iteration_order set_order cfg h cpus r sv app ->
  rq_path rq = lit "/" -> wants_info (rq_headers rq) = true ->
  exists resp doc subs_max limit_max length_max,
    http_get template version metrics app rq = Some resp /\ rs_body resp = BJson doc
    /\ json_path [lit "limitation"; lit "max_subscriptions"] doc = Some (JNum subs_max)
    /\ json_path [lit "limitation"; lit "max_limit"] doc = Some (JNum limit_max)
    /\ json_path [lit "limitation"; lit "max_message_length"] doc = Some (JNum length_max)
    /\ (forall id subs, live sv id -> subs_of (sv_fanout sv) id = Some subs ->
          (Z.of_nat (length subs) <= subs_max)%Z
          /\ forall s f events, s ∈ subs -> f ∈ s.2 ->
               query_filter (r_store (sv_relay sv)) f = Ret events ->
               (Z.of_nat (length events) <= limit_max)%Z)
    /\ (forall id text, (length_max < Z.of_nat (str_len text))%Z ->
          only_answered sv (handle_text cfg id text sv)).
Proof.
  intros Hord Hcf Hd Hs Hl Hrun Hp Hw.
  destruct (running_ok core_of iteration_order set_order cfg h cpus Hord Hcf Hd r sv app Hrun)
    as (Hok & _ & _ & Hcfg).
  eexists _, _, (max_subscriptions cfg), (max_limit cfg), MAX_MESSAGE_BYTES. split_and!.
  - unfold http_get. rewrite Hp, bool_decide_false, bool_decide_true by done.
    unfold root_handler. by rewrite Hw, Hcfg.
  - done.
  - done.
  - done.
  - done.
  - intros id subs [k Hk] Hsubs. destruct (so_conn _ _ _ _ Hok id k subs Hk Hsubs) as [_ Hc Hf _].
    split; [lia|]. intros s f events Hin Hfin Hq. destruct (Hf s Hin) as [_ Hprep].
    destruct (Hprep f Hfin) as [f0 ->].
    eapply (prepared_filters_bounded [f0] (max_limit cfg) _ (prepare_filter (max_limit cfg) f0));
      [done|left|exact Hq].
  - intros id text Ht. by apply too_large_only_answered.
Qed.

(** What "/stats" reports is true: at any time the counts are those of the
    store (the event counter, a machine word, wraps at 2^64), at most
    [MAX_TOMBSTONES] deletions are remembered, the memory limit is the one chosen
    at the start, the payload budget lies between a sixteenth of it and all of it
    (or is 0 when there is no limit), and the amplification is a number of
    thousandths between 1000 and 16000, as an [f64]. (For limits whose product with 1000 fits in 64 bits.) *)
Theorem stats_truthful
    `{HexLaws, MessageJsonLaws, Channel, !Receiver, IpNets, Headers} core_of iteration_order
    set_order cfg h cpus template version metrics r sv app rq :
  (forall s, set_order s ≡ₚ elements s) ->
  (forall raw e, from_json raw = Ok e -> genuine core_of e) ->
  disk_genuine core_of (h_disk h) ->
  u64_ok (max_bytes (store_config cfg h) * 1000) ->
  running iteration_order set_order cfg h cpus r sv app ->
  rq_path rq = lit "/stats" ->
  exists resp doc deleted limit budget ratio,
    http_get template version metrics app rq = Some resp /\ rs_body resp = BJson doc
    /\ json_path [lit "events"] doc
       = Some (JNum (wrap64 (Z.of_nat (size (by_id (st_index (r_store (sv_relay sv))))))))
    /\ json_path [lit "tombstones"] doc = Some (JNum deleted)
    /\ deleted = Z.of_nat (size (t_ids (tombstones (st_index (r_store (sv_relay sv))))))
    /\ (deleted <= MAX_TOMBSTONES)%Z
    /\ json_path [lit "max_bytes"] doc = Some (JNum limit)
    /\ limit = max_bytes (store_config cfg h)
    /\ json_path [lit "payload_budget"] doc = Some (JNum budget)
    /\ (limit = 0 /\ budget = 0 \/ 0 < limit /\ limit / 16 <= budget <= limit)%Z
    /\ json_path [lit "amplification"] doc = Some (JFloat (f64_div (f64_of ratio) (f64_of 1000)))
    /\ (1000 <= ratio <= 16000)%Z.
Proof.
  intros Hord Hcf Hd Hw Hrun Hp.
  destruct (running_ok core_of iteration_order set_order cfg h cpus Hord Hcf Hd r sv app Hrun)
    as (Hok & [Hc Ha] & Happ & _).
  set (st := r_store (sv_relay sv)) in *.
  pose proof (ro_wf _ _ (so_relay _ _ _ _ Hok)) as Hwf. fold st in Hwf.
  destruct (wf_tombs _ _ Hwf) as [Hnd Hids _ Hcap].
  exists (stats_handler st). eexists _, _, _, (payload_budget st), (amplification_milli st). split_and!.
  - unfold http_get. rewrite Hp, bool_decide_true by done. by rewrite Happ.
  - done.
  - transitivity (Some (JNum (store_len st))); [done|]. unfold store_len. by rewrite (wf_count _ _ Hwf).
  - done.
  - done.
  - unfold tombstone_count, tombstones_len. rewrite Hids, size_list_to_set by done. done.
  - done.
  - by rewrite <- Hc.
  - done.
  - rewrite <- Hc in *. destruct Hw as [Hw0 Hw1].
    destruct (decide (max_bytes (st_config st) = 0%Z)) as [Hz|Hz].
    + left. split; [done|]. unfold payload_budget. by rewrite Hz.
    + right. split; [lia|]. apply payload_budget_range; [done|lia|by split].
  - done.
  - apply Ha.
  - apply Ha.
Qed.

(** ** Samples *)

Definition info_request : Request :=
  mkRequest (lit "/") (headers [(lit "accept", lit "application/nostr+json, */*")])
    (socket_addr_new (V4 [10; 0; 0; 1]%Z) 5000) false.
Definition stats_request : Request :=
  mkRequest (lit "/stats") (headers []) (socket_addr_new (V4 [10; 0; 0; 1]%Z) 5000) false.

Definition sample_instance : RelayInstance :=
  match relay_new keep_order (data_config 80) (sample_host sample_disk) with
  | Ret r => r
  | Panic => mkInstance (mkSystem empty_store None) fanout_new (data_config 80) 0 []
  end.
Definition sample_server : Server := app_server (router sample_instance 1).
Definition sample_app : AppState := with_server sample_server (router sample_instance 1).

Lemma sample_running :
  running keep_order elements (data_config 80) (sample_host sample_disk) 1 sample_instance
    sample_server sample_app.
Proof.
  split; [|split; [done|]].
  - unfold sample_instance.
    destruct (relay_new_ok sample_core keep_order (data_config 80) (sample_host sample_disk)
      sample_disk_genuine) as (r & -> & _). done.
  - eexists. apply rtc_refl.
Qed.

Lemma advertised_limits_enforced_witness :
  exists resp doc, http_get [] (lit "0.1.0") [] sample_app info_request = Some resp
    /\ rs_body resp = BJson doc.
Proof.
  destruct (advertised_limits_enforced sample_core keep_order elements (data_config 80)
    (sample_host sample_disk) 1 [] (lit "0.1.0") [] sample_instance sample_server sample_app
    info_request (fun s => Permutation_refl _) sample_collision_free sample_disk_genuine
    ltac:(vm_compute; discriminate) ltac:(vm_compute; discriminate) sample_running eq_refl
    ltac:(vm_compute; reflexivity)) as (resp & doc & _ & _ & _ & Hget & Hbody & _).
  exact (ex_intro _ resp (ex_intro _ doc (conj Hget Hbody))).
Defined.

Lemma stats_truthful_witness :
  exists resp doc budget, http_get [] (lit "0.1.0") [] sample_app stats_request = Some resp
    /\ rs_body resp = BJson doc /\ json_path [lit "payload_budget"] doc = Some (JNum budget).
Proof.
  destruct (stats_truthful sample_core keep_order elements (data_config 80)
    (sample_host sample_disk) 1 [] (lit "0.1.0") [] sample_instance sample_server sample_app
    stats_request (fun s => Permutation_refl _) sample_collision_free sample_disk_genuine
    ltac:(split; vm_compute; congruence) sample_running eq_refl)
    as (resp & doc & _ & _ & budget & _ & Hget & Hbody & _ & _ & _ & _ & _ & _ & Hb & _).
  exact (ex_intro _ resp (ex_intro _ doc (ex_intro _ budget (conj Hget (conj Hbody Hb))))).
Defined.

(** A client that asks for the document gets it even on an upgrade request; others
    get the upgrade or the page, with the placeholders filled. *)
Example root_dispatch :
  let ask upgrade h := rs_body (root_handler (lit "v{{VERSION}}|{{NIPS}}") (lit "0.1.0") sample_app
                         (mkRequest (lit "/") (headers h) (socket_addr_new (V4 [9; 9; 9; 9]%Z) 7) upgrade)) in
  (exists doc, ask true [(lit "accept", lit "application/nostr+json")] = BJson doc)
  /\ ask true [(lit "accept", lit "text/html"); (lit "x-real-ip", lit "1.2.3.4")]
     = BUpgrade (socket_addr_new (V4 [9; 9; 9; 9]%Z) 7)
  /\ ask false [] = BText (lit "v0.1.0|" ++ (SUPPORTED_NIPS ≫= nip_pill)).
Proof. split_and!; [eexists|..]; vm_compute; reflexivity. Qed.

(** The information endpoint the README names does not exist. *)
Lemma no_info_endpoint `{HexCrate, EventCrates, Channel, IpNets, Headers} template version metrics
    app rq :
  rq_path rq = lit "/info" -> http_get template version metrics app rq = None.
Proof. intros Hp. unfold http_get. by rewrite Hp, !bool_decide_false. Qed.
