(* ===== verification/Metrics.v ===== *)
(** [src/src/metrics.rs]: the metrics of the process.

    Every metric is a [lazy_static]: its first use creates it and registers it in
    the default registry of the [prometheus] crate, and panics if that fails. The
    crate is a parameter ([Prometheus]); its documented behaviour is stated as laws
    ([PrometheusLaws]): registering a valid, unused name succeeds with a zero,
    counters and gauges hold what was done to them as long as an [f64] holds it
    exactly (below [2 ^ 53]), and [gather] reports what is registered. *)
From S2P Require Import Prelude Float Text Collections Reference Wal Store Recovery.
Open Scope memlay_scope.

(** * The [prometheus] crate *)

Inductive MetricKind :=
| KCounter
| KGauge
| KHistogram (buckets : list spec_float).

(** What a metric shows: its value, or the number of its observations. *)
Class Prometheus := {
  registry : Type;
  default_registry : registry;
  register_metric : MetricKind -> str -> str -> registry -> option registry;
  metric_inc : str -> registry -> registry;
  metric_dec : str -> registry -> registry;
  metric_set : str -> Z -> registry -> registry;
  metric_observe : str -> spec_float -> registry -> registry;
  families : Type;
  gather : registry -> families;
  encode_text : families -> bytes * result unit unit;
  shown : families -> str -> option Z;
}.

(** A name as the exposition format wants it. *)
Definition name_char (c : N) : bool :=
  (N.leb 97 c && N.leb c 122) || (N.leb 48 c && N.leb c 57) || N.eqb c 95.
Definition valid_name (name : str) : bool :=
  match name with
  | [] => false
  | c :: _ => forallb name_char name && negb (N.leb 48 c && N.leb c 57)
  end.

(** Bounds of a histogram: not empty, and increasing. *)
Fixpoint increasing (l : list spec_float) : bool :=
  match l with
  | x :: ((y :: _) as l') => SFltb x y && increasing l'
  | _ => true
  end.
Definition valid_kind (k : MetricKind) : bool :=
  match k with
  | KHistogram buckets => negb (bool_decide (buckets = [])) && increasing buckets
  | _ => true
  end.

(** The integers that an [f64] counts exactly. *)
Definition exact (v : Z) : Prop := (- 2 ^ 53 < v < 2 ^ 53)%Z.

(** What a metric shows in a registry. *)
Definition value `{Prometheus} (r : registry) (name : str) : option Z := shown (gather r) name.

Class PrometheusLaws `{P : Prometheus} := {
  default_registry_empty : forall name, value default_registry name = None;
  register_fresh : forall k name help r,
    value r name = None -> valid_name name = true -> valid_kind k = true -> help <> [] ->
    exists r', register_metric k name help r = Some r'
      /\ forall n, value r' n = if decide (n = name) then Some 0%Z else value r n;
  register_again : forall k name help r,
    is_Some (value r name) -> register_metric k name help r = None;
  inc_exact : forall name v r, value r name = Some v -> exact v -> forall n,
    value (metric_inc name r) n = if decide (n = name) then Some (v + 1)%Z else value r n;
  dec_exact : forall name v r, value r name = Some v -> exact v -> forall n,
    value (metric_dec name r) n = if decide (n = name) then Some (v - 1)%Z else value r n;
  set_exact : forall name v w r, value r name = Some v -> exact w -> forall n,
    value (metric_set name w r) n = if decide (n = name) then Some w else value r n;
  observe_exact : forall name v x r, value r name = Some v -> exact v -> forall n,
    value (metric_observe name x r) n = if decide (n = name) then Some (v + 1)%Z else value r n;
}.

(** * The metrics *)

Inductive Metric :=
| ACTIVE_CONNECTIONS
| EVENTS_SAVED
| EVENTS_OUTPUT
| IDLE_DISCONNECTS
| SUBS_OVERFLOWED
| EVENTS_DROPPED
| EVENTS_DELETED
| DELETION_REQUESTS
| WRITE_DELAY
| TTEOSE
| DISK_PERSISTENCE_TIME.

#[export] Instance Metric_eq_dec : EqDecision Metric.
Proof. solve_decision. Defined.

Definition metric_name (m : Metric) : str :=
  match m with
  | ACTIVE_CONNECTIONS => lit "memlay_active_connections"
  | EVENTS_SAVED => lit "memlay_events_saved_total"
  | EVENTS_OUTPUT => lit "memlay_events_output_total"
  | IDLE_DISCONNECTS => lit "memlay_idle_disconnects_total"
  | SUBS_OVERFLOWED => lit "memlay_subscriptions_overflowed_total"
  | EVENTS_DROPPED => lit "memlay_events_dropped_total"
  | EVENTS_DELETED => lit "memlay_events_deleted_total"
  | DELETION_REQUESTS => lit "memlay_deletion_requests_total"
  | WRITE_DELAY => lit "memlay_write_delay_seconds"
  | TTEOSE => lit "memlay_tteose_seconds"
  | DISK_PERSISTENCE_TIME => lit "memlay_disk_persistence_seconds"
  end.

Definition metric_help (m : Metric) : str :=
  match m with
  | ACTIVE_CONNECTIONS => lit "Number of active WebSocket connections"
  | EVENTS_SAVED => lit "Total number of events saved"
  | EVENTS_OUTPUT => lit "Total number of events output"
  | IDLE_DISCONNECTS => lit "Connections closed for sending no REQ or EVENT within the idle timeout"
  | SUBS_OVERFLOWED =>
      lit "Subscriptions closed because the client could not keep up with live delivery"
  | EVENTS_DROPPED => lit "Live events dropped because a connection's send queue was full"
  | EVENTS_DELETED => lit "Events removed by NIP-09 deletion requests"
  | DELETION_REQUESTS => lit "NIP-09 kind-5 deletion requests accepted"
  | WRITE_DELAY => lit "Histogram of write delay in seconds"
  | TTEOSE => lit "Time To EOSE (End of Stored Events) in seconds"
  | DISK_PERSISTENCE_TIME => lit "Time to persist events to disk in seconds"
  end.

(** Bounds given in units of a tenth of a millisecond. *)
Definition bounds (l : list Z) : MetricKind :=
  KHistogram ((fun z => f64_div (f64_of z) (f64_of 10000)) <$> l).

Definition metric_kind (m : Metric) : MetricKind :=
  match m with
  | ACTIVE_CONNECTIONS => KGauge
  | EVENTS_SAVED | EVENTS_OUTPUT | IDLE_DISCONNECTS | SUBS_OVERFLOWED | EVENTS_DROPPED
  | EVENTS_DELETED | DELETION_REQUESTS => KCounter
  | WRITE_DELAY => bounds [1; 5; 10; 50; 100; 500; 1000; 5000; 10000]%Z
  | TTEOSE => bounds [10; 50; 100; 500; 1000; 5000; 10000; 25000; 50000; 100000]%Z
  | DISK_PERSISTENCE_TIME =>
      bounds [100; 500; 1000; 5000; 10000; 25000; 50000; 100000; 300000]%Z
  end.

Section Metrics.
Context `{Prometheus}.

(** The default registry, and the statics that have been used. *)
Record Metrics := mkMetrics {
  mt_registry : registry;
  mt_used : list Metric;
}.

(** The metrics of a process that has just started. *)
Definition metrics_new : Metrics := mkMetrics default_registry [].

(** [lazy_static]: the first use registers the metric. *)
Definition deref (m : Metric) (s : Metrics) : panicky Metrics :=
  if bool_decide (m ∈ mt_used s) then Ret s else
  match register_metric (metric_kind m) (metric_name m) (metric_help m) (mt_registry s) with
  | Some r => Ret (mkMetrics r (m :: mt_used s))
  | None => Panic
  end.

(** A method of a metric. *)
Definition on_metric (m : Metric) (f : str -> registry -> registry) (s : Metrics)
    : panicky Metrics :=
  let! s := deref m s in
  Ret (mkMetrics (f (metric_name m) (mt_registry s)) (mt_used s)).

Definition inc_events_saved : Metrics -> panicky Metrics := on_metric EVENTS_SAVED metric_inc.
Definition inc_events_output : Metrics -> panicky Metrics := on_metric EVENTS_OUTPUT metric_inc.
Definition inc_idle_disconnects : Metrics -> panicky Metrics :=
  on_metric IDLE_DISCONNECTS metric_inc.
Definition inc_subs_overflowed : Metrics -> panicky Metrics :=
  on_metric SUBS_OVERFLOWED metric_inc.
Definition inc_events_dropped : Metrics -> panicky Metrics := on_metric EVENTS_DROPPED metric_inc.
Definition inc_events_deleted : Metrics -> panicky Metrics := on_metric EVENTS_DELETED metric_inc.
Definition inc_deletion_requests : Metrics -> panicky Metrics :=
  on_metric DELETION_REQUESTS metric_inc.

(** Durations are in nanoseconds. *)
Definition observe_write_delay (d : Z) : Metrics -> panicky Metrics :=
  on_metric WRITE_DELAY (fun n => metric_observe n (as_secs_f64 d)).
Definition observe_tteose (d : Z) : Metrics -> panicky Metrics :=
  on_metric TTEOSE (fun n => metric_observe n (as_secs_f64 d)).
Definition observe_disk_persistence (d : Z) : Metrics -> panicky Metrics :=
  on_metric DISK_PERSISTENCE_TIME (fun n => metric_observe n (as_secs_f64 d)).

(** [ACTIVE_CONNECTIONS.inc()], [dec()] and [set()]. *)
Definition connections_inc : Metrics -> panicky Metrics := on_metric ACTIVE_CONNECTIONS metric_inc.
Definition connections_dec : Metrics -> panicky Metrics := on_metric ACTIVE_CONNECTIONS metric_dec.
Definition connections_set (n : Z) : Metrics -> panicky Metrics :=
  on_metric ACTIVE_CONNECTIONS (fun name => metric_set name n).

Definition all_metrics : list Metric :=
  [ACTIVE_CONNECTIONS; EVENTS_SAVED; EVENTS_OUTPUT; IDLE_DISCONNECTS; SUBS_OVERFLOWED;
   EVENTS_DROPPED; EVENTS_DELETED; DELETION_REQUESTS; WRITE_DELAY; TTEOSE;
   DISK_PERSISTENCE_TIME].

(** [init]. *)
Definition init (s : Metrics) : panicky Metrics :=
  foldl (fun s m => let! s := s in deref m s) (Ret s) all_metrics.

(** [gather_metrics]: what the encoder has written, also when it fails; a buffer
    that is no text is dropped. *)
Definition gather_metrics (s : Metrics) : str :=
  let buffer := (encode_text (gather (mt_registry s))).1 in
  if valid_utf8 buffer then from_utf8_lossy buffer else [].

(** * Calls *)

(** A call of this module, as the rest of the program makes them. *)
Inductive call :=
| IncEventsSaved
| IncEventsOutput
| IncIdleDisconnects
| IncSubsOverflowed
| IncEventsDropped
| IncEventsDeleted
| IncDeletionRequests
| ObserveWriteDelay (d : Z)
| ObserveTteose (d : Z)
| ObserveDiskPersistence (d : Z)
| ConnectionsInc
| ConnectionsDec
| ConnectionsSet (n : Z).

#[export] Instance call_eq_dec : EqDecision call.
Proof. solve_decision. Defined.

Definition perform (c : call) : Metrics -> panicky Metrics :=
  match c with
  | IncEventsSaved => inc_events_saved
  | IncEventsOutput => inc_events_output
  | IncIdleDisconnects => inc_idle_disconnects
  | IncSubsOverflowed => inc_subs_overflowed
  | IncEventsDropped => inc_events_dropped
  | IncEventsDeleted => inc_events_deleted
  | IncDeletionRequests => inc_deletion_requests
  | ObserveWriteDelay d => observe_write_delay d
  | ObserveTteose d => observe_tteose d
  | ObserveDiskPersistence d => observe_disk_persistence d
  | ConnectionsInc => connections_inc
  | ConnectionsDec => connections_dec
  | ConnectionsSet n => connections_set n
  end.

Definition perform_all (cs : list call) (s : Metrics) : panicky Metrics :=
  foldl (fun s c => let! s := s in perform c s) (Ret s) cs.
End Metrics.

(** The metric a call is about, and what it makes of its value. *)
Definition call_metric (c : call) : Metric :=
  match c with
  | IncEventsSaved => EVENTS_SAVED
  | IncEventsOutput => EVENTS_OUTPUT
  | IncIdleDisconnects => IDLE_DISCONNECTS
  | IncSubsOverflowed => SUBS_OVERFLOWED
  | IncEventsDropped => EVENTS_DROPPED
  | IncEventsDeleted => EVENTS_DELETED
  | IncDeletionRequests => DELETION_REQUESTS
  | ObserveWriteDelay _ => WRITE_DELAY
  | ObserveTteose _ => TTEOSE
  | ObserveDiskPersistence _ => DISK_PERSISTENCE_TIME
  | ConnectionsInc | ConnectionsDec | ConnectionsSet _ => ACTIVE_CONNECTIONS
  end.
Definition call_effect (c : call) (v : Z) : Z :=
  match c with
  | ConnectionsDec => (v - 1)%Z
  | ConnectionsSet n => n
  | _ => (v + 1)%Z
  end.

(** Every metric's value after some calls. *)
Definition tally_call (t : Metric -> Z) (c : call) : Metric -> Z :=
  fun m => if decide (m = call_metric c) then call_effect c (t m) else t m.
Definition tally (cs : list call) : Metric -> Z := foldl tally_call (fun _ => 0%Z) cs.

Lemma tally_snoc cs c m :
  tally (cs ++ [c]) m = if decide (m = call_metric c) then call_effect c (tally cs m) else tally cs m.
Proof. unfold tally. by rewrite foldl_snoc. Qed.

(** All values stayed where an [f64] counts exactly. *)
Definition countable (cs : list call) : Prop := forall p m, p `prefix_of` cs -> exact (tally p m).

Lemma countable_prefix cs cs' : cs `prefix_of` cs' -> countable cs' -> countable cs.
Proof. intros Hp Hc p m Hq. apply Hc. by etransitivity. Qed.

Lemma countable_take cs :
  (forall i m, i <= length cs -> exact (tally (take i cs) m)) -> countable cs.
Proof.
  intros Hall p m Hp. pose proof (prefix_length _ _ Hp) as Hl. destruct Hp as [k ->].
  specialize (Hall (length p) m Hl). by rewrite take_app_length in Hall.
Qed.

(** * Lemmas *)

Section Lemmas.
Context `{PrometheusLaws}.

Lemma metric_name_inj m m' : metric_name m = metric_name m' -> m = m'.
Proof. destruct m, m'; intros Hn; (reflexivity || (exfalso; vm_compute in Hn; congruence)). Qed.

Lemma metric_valid m :
  valid_name (metric_name m) = true /\ valid_kind (metric_kind m) = true /\ metric_help m <> [].
Proof. destruct m; (split_and!; [vm_compute; reflexivity..|done]). Qed.

(** The used metrics show these values, the others are not registered. *)
Definition shows (s : Metrics) (t : Metric -> Z) : Prop :=
  forall m, value (mt_registry s) (metric_name m)
    = if decide (m ∈ mt_used s) then Some (t m) else None.

Lemma shows_new : shows metrics_new (fun _ => 0%Z).
Proof. intros m. cbn. by rewrite default_registry_empty. Qed.

Lemma deref_shows m s t :
  shows s t -> (m ∉ mt_used s -> t m = 0%Z) ->
  exists s', deref m s = Ret s' /\ shows s' t
    /\ forall m', m' ∈ mt_used s' <-> m' = m \/ m' ∈ mt_used s.
Proof.
  intros Hs Ht. unfold deref. case_bool_decide as Hm; [exists s; split_and!; [done|done|set_solver]|].
  destruct (metric_valid m) as (Hn & Hk & Hh). pose proof (Hs m) as Hv.
  rewrite decide_False in Hv by done.
  destruct (register_fresh (metric_kind m) (metric_name m) (metric_help m) (mt_registry s) Hv Hn Hk Hh)
    as (r' & -> & Hr').
  eexists. split; [done|]. split; [|intros m'; cbn; rewrite elem_of_cons; done].
  intros m'. cbn. rewrite Hr'. destruct (decide (m' = m)) as [->|Hne].
  - by rewrite !decide_True by (done || by left); rewrite Ht.
  - rewrite decide_False by (by intros ?%metric_name_inj). rewrite Hs.
    destruct (decide (m' ∈ mt_used s)); [by rewrite decide_True by by right|].
    by rewrite decide_False by (rewrite elem_of_cons; naive_solver).
Qed.

Lemma init_all ms s :
  shows s (fun _ => 0%Z) ->
  exists s', foldl (fun s m => let! s := s in deref m s) (Ret s) ms = Ret s'
    /\ shows s' (fun _ => 0%Z) /\ forall m, m ∈ ms \/ m ∈ mt_used s -> m ∈ mt_used s'.
Proof.
  revert s. induction ms as [|m ms IH]; intros s Hs.
  { exists s. split_and!; [done|done|]. intros m [?%elem_of_nil|]; done. }
  cbn [foldl panicky_bind]. destruct (deref_shows m s _ Hs) as (s1 & -> & Hs1 & Hu); [done|].
  destruct (IH s1 Hs1) as (s' & -> & Hs' & Hu'). exists s'. split_and!; [done|done|].
  intros m'. rewrite elem_of_cons. intros Hor. apply Hu'. rewrite Hu. tauto.
Qed.

Lemma all_metrics_all m : m ∈ all_metrics.
Proof. apply (bool_decide_eq_true (m ∈ all_metrics)). by destruct m. Qed.

(** All metrics registered, with these values. *)
Definition exported (s : Metrics) (t : Metric -> Z) : Prop :=
  forall m, value (mt_registry s) (metric_name m) = Some (t m) /\ m ∈ mt_used s.

Lemma init_exported : exists s, init metrics_new = Ret s /\ exported s (tally []).
Proof.
  destruct (init_all all_metrics metrics_new shows_new) as (s & Hi & Hs & Hu).
  exists s. split; [exact Hi|]. intros m. pose proof (Hu m (or_introl (all_metrics_all m))) as Hin.
  split; [|done]. by rewrite Hs, decide_True.
Qed.

Lemma perform_exported c s t :
  exported s t -> exact (t (call_metric c)) -> exact (call_effect c (t (call_metric c))) ->
  exists s', perform c s = Ret s' /\ exported s' (tally_call t c).
Proof.
  intros Hs Hv He.
  assert (forall (f : str -> registry -> registry),
    (forall n, value (f (metric_name (call_metric c)) (mt_registry s)) n
       = if decide (n = metric_name (call_metric c))
         then Some (call_effect c (t (call_metric c))) else value (mt_registry s) n) ->
    exists s', on_metric (call_metric c) f s = Ret s' /\ exported s' (tally_call t c)) as Hon.
  { intros f Hf. unfold on_metric, deref. destruct (Hs (call_metric c)) as [_ Hu].
    rewrite bool_decide_true by done. eexists. split; [done|]. intros m. cbn. rewrite Hf.
    destruct (Hs m) as [Hm ?]. split; [|done]. unfold tally_call. destruct (decide (m = call_metric c)) as [->|Hne].
    - by rewrite decide_True by done.
    - by rewrite decide_False by (by intros ?%metric_name_inj). }
  destruct (Hs (call_metric c)) as [Hval _].
  destruct c; apply Hon; cbn [call_metric call_effect] in *;
    [apply inc_exact..|apply observe_exact|apply observe_exact|apply observe_exact|apply inc_exact
    |apply dec_exact|eapply set_exact]; done.
Qed.

Lemma perform_all_exported cs :
  forall before s, exported s (tally before) -> countable (before ++ cs) ->
  exists s', perform_all cs s = Ret s' /\ exported s' (tally (before ++ cs)).
Proof.
  induction cs as [|c cs IH]; intros before s Hs Hc; [exists s; by rewrite app_nil_r|].
  destruct (perform_exported c s (tally before) Hs) as (s1 & H1 & Hs1).
  - apply Hc. by eexists.
  - replace (call_effect _ _) with (tally (before ++ [c]) (call_metric c))
      by (by rewrite tally_snoc, decide_True).
    apply Hc. exists cs. by rewrite <- app_assoc.
  - destruct (IH (before ++ [c]) s1) as (s' & H' & Hs').
    + intros m. rewrite tally_snoc. apply Hs1.
    + by rewrite <- app_assoc.
    + exists s'. rewrite <- app_assoc in Hs'. split; [|exact Hs'].
      unfold perform_all in *. cbn [foldl panicky_bind]. by rewrite H1.
Qed.

(** The metrics of a process: before [init] none is exported; [init] cannot
    fail and exports all eleven at zero; and from then on no use of a metric
    panics, all eleven stay exported, and each shows exactly what was done to it:
    a counter its increments, a histogram its observations, the gauge the last
    value set with the increments and decrements since (as long as the values stay
    below [2 ^ 53], where an [f64] counts exactly). *)
Theorem metrics_exported :
  (forall m, value (mt_registry metrics_new) (metric_name m) = None)
  /\ exists s0, init metrics_new = Ret s0
    /\ (forall m, value (mt_registry s0) (metric_name m) = Some 0%Z)
    /\ forall cs, countable cs ->
         exists s, perform_all cs s0 = Ret s
           /\ forall m, value (mt_registry s) (metric_name m) = Some (tally cs m).
Proof.
  split; [intros m; apply default_registry_empty|].
  destruct init_exported as (s0 & Hi & Hs0). exists s0. split_and!; [done|apply Hs0|].
  intros cs Hc. destruct (perform_all_exported cs [] s0 Hs0 Hc) as (s & Hp & Hs).
  exists s. split; [done|]. intros m. apply Hs.
Qed.
End Lemmas.

(** * A registry *)

(** Name and value of the registered metrics, in the order of registration; a
    line each when encoded. *)
Definition plain_prometheus : Prometheus := {|
  registry := list (str * Z);
  default_registry := [];
  register_metric k name help r :=
    if bool_decide (name ∈ fst <$> r) then None else Some (r ++ [(name, 0%Z)]);
  metric_inc name r := (fun p => if decide (p.1 = name) then (p.1, (p.2 + 1)%Z) else p) <$> r;
  metric_dec name r := (fun p => if decide (p.1 = name) then (p.1, (p.2 - 1)%Z) else p) <$> r;
  metric_set name w r := (fun p => if decide (p.1 = name) then (p.1, w) else p) <$> r;
  metric_observe name _ r :=
    (fun p => if decide (p.1 = name) then (p.1, (p.2 + 1)%Z) else p) <$> r;
  families := list (str * Z);
  gather r := r;
  encode_text fs := ((fun p => 10%Z) <$> fs, Ok tt);
  shown fs name := snd <$> List.find (fun p => bool_decide (p.1 = name)) fs;
|}.

Lemma find_update (f : Z -> Z) name (r : list (str * Z)) n :
  snd <$> List.find (fun p => bool_decide (p.1 = n))
      ((fun p => if decide (p.1 = name) then (p.1, f p.2) else p) <$> r)
  = if decide (n = name) then f <$> (snd <$> List.find (fun p => bool_decide (p.1 = n)) r)
    else snd <$> List.find (fun p => bool_decide (p.1 = n)) r.
Proof.
  induction r as [|[m v] r IH]; [by destruct (decide _)|]. cbn [fmap list_fmap List.find fst snd].
  destruct (decide (m = name)) as [->|Hm]; cbn [fst].
  - destruct (decide (name = n)) as [->|Hn].
    + by rewrite !bool_decide_true, decide_True by done.
    + by rewrite !bool_decide_false by done.
  - destruct (decide (m = n)) as [->|Hn].
    + by rewrite !bool_decide_true, decide_False by done.
    + by rewrite !bool_decide_false by done.
Qed.

Lemma find_app_new name (r : list (str * Z)) n :
  snd <$> List.find (fun p => bool_decide (p.1 = name)) r = None ->
  snd <$> List.find (fun p => bool_decide (p.1 = n)) (r ++ [(name, 0%Z)])
  = if decide (n = name) then Some 0%Z
    else snd <$> List.find (fun p => bool_decide (p.1 = n)) r.
Proof.
  induction r as [|[m v] r IH]; cbn [app List.find fst].
  - intros _. destruct (decide (n = name)) as [->|Hn].
    + by rewrite bool_decide_true.
    + by rewrite bool_decide_false.
  - destruct (decide (m = name)) as [->|Hm]; [by rewrite bool_decide_true|].
    rewrite (bool_decide_false (m = name)) by done. intros Hr.
    destruct (decide (m = n)) as [->|Hn].
    + by rewrite bool_decide_true, decide_False.
    + rewrite !bool_decide_false by done. by apply IH.
Qed.

Lemma find_names name (r : list (str * Z)) :
  is_Some (snd <$> List.find (fun p => bool_decide (p.1 = name)) r) <-> name ∈ fst <$> r.
Proof.
  induction r as [|[m v] r IH]; cbn [List.find fst fmap list_fmap].
  - split; [by intros [? ?]|by intros ?%elem_of_nil].
  - rewrite elem_of_cons. destruct (decide (m = name)) as [->|Hm].
    + rewrite bool_decide_true by done. split; [by left|by eexists].
    + rewrite bool_decide_false by done. rewrite <- IH. naive_solver.
Qed.

Lemma plain_prometheus_laws : PrometheusLaws (P := plain_prometheus).
Proof.
  assert (forall (f : Z -> Z) name v (r : list (str * Z)),
    value (H := plain_prometheus) r name = Some v -> forall n,
    snd <$> List.find (fun p => bool_decide (p.1 = n))
      ((fun p => if decide (p.1 = name) then (p.1, f p.2) else p) <$> r)
    = if decide (n = name) then Some (f v) else value (H := plain_prometheus) r n) as Hupd.
  { intros f name v r Hv n. rewrite find_update. case_decide; [|done]. subst n.
    unfold value in Hv. cbn in Hv. by rewrite Hv. }
  split; [done|..].
  - intros k name help r Hv _ _ _. unfold value in Hv. cbn in Hv.
    pose proof (find_names name r) as Hn. rewrite Hv in Hn.
    exists (r ++ [(name, 0%Z)]). split; [|intros n; by apply find_app_new].
    cbn. rewrite bool_decide_false; [done|]. intros Hin. by destruct (proj2 Hn Hin).
  - intros k name help r Hv. cbn. apply find_names in Hv. by rewrite bool_decide_true.
  - intros name v r Hv _ n. exact (Hupd (fun v => v + 1)%Z name v r Hv n).
  - intros name v r Hv _ n. exact (Hupd (fun v => v - 1)%Z name v r Hv n).
  - intros name v w r Hv _ n. exact (Hupd (fun _ => w) name v r Hv n).
  - intros name v x r Hv _ n. exact (Hupd (fun v => v + 1)%Z name v r Hv n).
Qed.

Definition sample_calls : list call :=
  [ConnectionsInc; IncEventsSaved; ObserveWriteDelay 1500000; ConnectionsSet 1; ConnectionsDec].

Lemma sample_calls_countable : countable sample_calls.
Proof.
  apply countable_take. intros i m Hi. cbn in Hi. unfold exact.
  do 6 (destruct i as [|i]; [destruct m; vm_compute; split; congruence|]). lia.
Qed.

Lemma metrics_exported_witness :
  exists s0 s, @init plain_prometheus metrics_new = Ret s0
    /\ @perform_all plain_prometheus sample_calls s0 = Ret s
    /\ @value plain_prometheus (mt_registry s) (metric_name WRITE_DELAY) = Some 1%Z.
Proof.
  destruct (@metrics_exported plain_prometheus plain_prometheus_laws) as (_ & s0 & Hi & _ & Hall).
  destruct (Hall sample_calls sample_calls_countable) as (s & Hp & Hs).
  exists s0, s. exact (conj Hi (conj Hp (Hs WRITE_DELAY))).
Defined.
