(* ===== verification/Metered.v ===== *)
(** The metrics of [src/src/metrics.rs] where the rest of the program updates them:
    the functions of the store, the router and the relay that call the module,
    each as in its own file but with the calls it makes. Without the calls they are
    the functions of the other files (the [_plain] lemmas of [MeteredProps.v]), so that
    what is proved there holds of them; [MeteredTruth.v] says what the calls add up
    to. Durations
    are what the clock reads, and arguments here. *)
From S2P Require Import Prelude Float Text Collections Event Reference Deletion Tombstones Index IndexInv IndexSpec IndexQuery Wal Store Recovery Subscription Fanout Message Relay Config Socket SocketInv SocketProps Delivery Startup Metrics.
Open Scope memlay_scope.

(** * Results with calls *)

Abbreviation calls := (list call).

(** Run a loop whose body makes calls. *)
Definition metered_fold {S A} (f : S -> A -> S * calls) (l : list A) (s : S) : S * calls :=
  foldl (fun p a => let '(s', cs) := f p.1 a in (s', p.2 ++ cs)) (s, []) l.

Lemma metered_fold_plain {S A} (f : S -> A -> S * calls) (g : S -> A -> S) l s :
  (forall s a, (f s a).1 = g s a) -> (metered_fold f l s).1 = foldl g s l.
Proof.
  intros Hfg. unfold metered_fold. generalize (@nil call).
  revert s. induction l as [|a l IH]; intros s cs; [done|]. cbn [foldl].
  rewrite <- Hfg. cbn [fst snd]. destruct (f s a). apply IH.
Qed.

(** What holds of every turn and composes holds of the loop. *)
Lemma metered_fold_ind {S A} (P : S -> calls -> S -> Prop) (f : S -> A -> S * calls) l s :
  (forall s, P s [] s) ->
  (forall s1 cs1 s2 cs2 s3, P s1 cs1 s2 -> P s2 cs2 s3 -> P s1 (cs1 ++ cs2) s3) ->
  (forall s a, P s (f s a).2 (f s a).1) ->
  P s (metered_fold f l s).2 (metered_fold f l s).1.
Proof.
  intros Hrefl Htrans Hf. unfold metered_fold.
  apply (foldl_ind (fun p => P s p.2 p.1)); [apply Hrefl|].
  intros [s' cs] a _ Hp. cbn [fst snd] in *. pose proof (Hf s' a) as Ha.
  destruct (f s' a). by eapply Htrans.
Qed.

(** * The index and the store *)

Section Store.
Context `{HexCrate, EventCrates}.

(** [EventIndex::delete_by_id]. *)
Definition delete_by_id_metered (ix : EventIndex) (id : bytes)
    : EventIndex * option Event * calls :=
  let '(ix1, removed) := internal_remove ix id false in
  (index_tombstone ix1 id, removed,
   if bool_decide (is_Some removed) then [IncEventsDeleted] else []).

(** [EventStore::apply_deletion] and its loops. *)
Definition delete_recorded_metered (s : EventStore * DeletionOutcome) (id : bytes)
    : EventStore * DeletionOutcome * calls :=
  let '(st, outcome) := s in
  let st1 := record_deletion st id in
  let '(ix, removed, cs) := delete_by_id_metered (st_index st1) id in
  (with_index ix st1,
   if bool_decide (is_Some removed) then add_deleted id outcome else outcome, cs).

Definition delete_id_metered (author : bytes) (s : EventStore * DeletionOutcome) (id : bytes)
    : EventStore * DeletionOutcome * calls :=
  match index_get (st_index s.1) id with
  | Some existing =>
      if bool_decide (ev_pubkey existing = author) then delete_recorded_metered s id
      else ((s.1, add_foreign s.2), [])
  | None => (s, [])
  end.

Definition delete_coordinate_metered (author : bytes) (until : Z)
    (s : EventStore * DeletionOutcome) (coord : Coordinate)
    : EventStore * DeletionOutcome * calls :=
  if bool_decide (co_pubkey coord <> author) then ((s.1, add_foreign s.2), []) else
  match coordinate_targets (st_index s.1) coord until with
  | [] => ((s.1, add_unknown s.2), [])
  | targets => metered_fold delete_recorded_metered targets s
  end.

Definition apply_deletion_metered (st : EventStore) (ids : list bytes)
    (coordinates : list Coordinate) (author : bytes) (until : Z)
    : EventStore * DeletionOutcome * calls :=
  let '(s1, cs1) := metered_fold (delete_id_metered author) ids (st, outcome_default) in
  let '(s2, cs2) := metered_fold (delete_coordinate_metered author until) coordinates s1 in
  (s2, cs1 ++ cs2).

(** [EventStore::insert], taking [delay]. *)
Definition store_insert_metered (delay : Z) (st : EventStore) (event : Event)
    : EventStore * InsertResult * calls :=
  if is_ephemeral event then (st, IREphemeral, []) else
  let '(ix, outcome) := index_insert (st_index st) event in
  let st1 := with_index ix st in
  match outcome with
  | Duplicate | LostRace => (st1, IRDuplicate, [])
  | Deleted => (st1, IRDeleted, [])
  | Inserted replaced =>
      (with_wal (log_insert (st_wal st1) event replaced) st1,
       IRStored event (option_list replaced), [ObserveWriteDelay delay; IncEventsSaved])
  end.

Variable iteration_order : list Event -> list Event.

(** [EventStore::save_to_disk] and [EventStore::checkpoint], taking [time]. *)
Definition save_to_disk_metered (time : Z) (fl : Faults) (sys : System)
    : System * result unit WalError * calls :=
  match Store.persistence_path (st_config (sys_store sys)) with
  | None => (sys, Ok tt, [])
  | Some _ =>
      if fail_mkdir fl then (sys, Err IoFailure, []) else
      match st_wal (sys_store sys) with
      | Some wal =>
          let '(wal', r) := Wal.flush fl wal in
          (set_wal wal' sys, r, match r with Ok _ => [ObserveDiskPersistence time] | Err _ => [] end)
      | None =>
          let '(sys', r) := write_snapshot iteration_order fl sys in
          match r with
          | Ok _ => (sys', Ok tt, [ObserveDiskPersistence time])
          | Err e => (sys', Err e, [])
          end
      end
  end.

Definition checkpoint_metered (time : Z) (flr fls : Faults) (sys : System)
    : System * result unit WalError * calls :=
  match Store.persistence_path (st_config (sys_store sys)) with
  | None => (sys, Ok tt, [])
  | Some _ =>
      if fail_mkdir flr then (sys, Err IoFailure, []) else
      match st_wal (sys_store sys) with
      | None =>
          let '(sys', r) := write_snapshot iteration_order fls sys in
          (sys', match r with Ok _ => Ok tt | Err e => Err e end, [])
      | Some wal =>
          let '(wal1, r1) := rotate flr wal in
          let sys1 := set_wal wal1 sys in
          match r1 with
          | Err e => (sys1, Err e, [])
          | Ok _ =>
              let '(sys2, r2) := write_snapshot iteration_order fls sys1 in
              match r2 with
              | Err e => (sys2, Err e, [])
              | Ok _ =>
                  (if fail_remove fls then sys2 else set_wal (remove_old wal1) sys2, Ok tt,
                   [ObserveDiskPersistence time])
              end
          end
      end
  end.

(** [EventStore::maybe_checkpoint]. *)
Definition maybe_checkpoint_metered (time : Z) (flr fls : Faults) (sys : System)
    : System * result unit WalError * calls :=
  match st_wal (sys_store sys) with
  | None => save_to_disk_metered time fls sys
  | Some wal =>
      let live := memory_bytes (st_index (sys_store sys)) in
      let threshold := Z.max MIN_CHECKPOINT_BYTES (sat_mul64 live 2) in
      if (pending_bytes wal >=? threshold)%Z then checkpoint_metered time flr fls sys
      else
        let '(wal', r) := group_commit flr wal in
        (set_wal wal' sys, match r with Ok _ => Ok tt | Err e => Err e end, [])
  end.
End Store.

(** * The router *)

Section Router.
Context `{Channel}.

(** [ConnState::record_drop]. *)
Definition record_drop_metered (now : Z) (sub_id : str) (c : ConnState) : ConnState * calls :=
  let '(overflow, cs) :=
    if bool_decide (sub_id ∈ c_overflow c) then (c_overflow c, [])
    else (c_overflow c ++ [sub_id], [IncSubsOverflowed]) in
  let '(start, drops) := c_drop_window c in
  let '(window, over_limit) :=
    if (now - start >? DROP_WINDOW)%Z then ((now, 1%Z), false)
    else ((start, (drops + 1)%Z), (drops + 1 >? MAX_DROPS_PER_WINDOW)%Z) in
  (mkConn (c_id c) (c_tx c) (c_subs c) (c_kind_key c) overflow true
     (if over_limit then true else c_kill c) (c_sent c) (fetch_add (c_dropped c) 1) window,
   IncEventsDropped :: cs).

(** [ConnState::deliver] and one turn of its loop. *)
Definition deliver_sub_metered (clock : Clock) (ev : BroadcastEvent) (c : ConnState)
    (sub : SubEntry) : ConnState * calls :=
  let '(sub_id, filters) := sub in
  if negb (existsb (fun f => matches_event f (be_event ev)) filters) then (c, []) else
  match try_send (c_tx c) (event_frame sub_id (be_json ev)) with
  | Some tx => (record_sent tx c, [IncEventsOutput])
  | None => record_drop_metered (clock (c_id c) sub_id) sub_id c
  end.

Definition deliver_metered (clock : Clock) (ev : BroadcastEvent) (c : ConnState)
    : ConnState * calls := metered_fold (deliver_sub_metered clock ev) (c_subs c) c.

(** [Fanout::publish]. *)
Definition deliver_to_metered (clock : Clock) (ev : BroadcastEvent) (fo : Fanout) (id : Z)
    : Fanout * calls :=
  match fo_states fo !! id with
  | Some conn => let '(c, cs) := deliver_metered clock ev conn in (with_state id c fo, cs)
  | None => (fo, [])
  end.

Definition publish_metered (clock : Clock) (ev : BroadcastEvent) (fo : Fanout) : Fanout * calls :=
  metered_fold (deliver_to_metered clock ev) (targets (ev_kind (be_event ev)) fo) fo.
End Router.

(** * The relay *)

Section Relay.
Context `{HexCrate, MessageJson, Channel}.
Variable set_order : gset bytes -> list bytes.

Definition published_metered (clock : Clock) (event : Event) (r : Relay) : Relay * calls :=
  let '(fo, cs) := publish_metered clock (broadcast_new event) (r_fanout r) in
  (mkRelay (r_store r) fo, cs).

(** [apply_deletion_request]. *)
Definition apply_deletion_request_metered (delay : Z) (clock : Clock) (ev : Event) (r : Relay)
    : panicky (Relay * str * calls) :=
  if store_contains (r_store r) (ev_id ev)
  then Ret (r, ok_reply ev true duplicate_message, []) else
  if is_tombstoned (st_index (r_store r)) (ev_id ev)
  then Ret (r, ok_reply ev false deleted_message, []) else
  let! req := deletion_request ev in
  let '(st1, outcome, cs1) := apply_deletion_metered (r_store r) (set_order (dr_ids req))
                                (dr_coordinates req) (ev_pubkey ev) (ev_created_at ev) in
  let '(st2, res, cs2) := store_insert_metered delay st1 ev in
  let r2 := mkRelay st2 (r_fanout r) in
  let cs := cs1 ++ [IncDeletionRequests] ++ cs2 in
  Ret (match res with
       | IRDeleted => (r2, ok_reply ev false deleted_message, cs)
       | IREphemeral | IRDuplicate =>
           let '(r3, cs3) := published_metered clock ev r2 in
           (r3, ok_reply ev true [], cs ++ cs3)
       | IRStored event _ =>
           let '(r3, cs3) := published_metered clock event r2 in
           (r3, ok_reply ev true (deleted_count_message (length (do_deleted_ids outcome))), cs ++ cs3)
       end).

(** [process_event_message]. *)
Definition process_event_message_metered (delay : Z) (clock : Clock) (text : str) (r : Relay)
    : panicky (Relay * option str * calls) :=
  match msg_from_json text with
  | Ok (MEvent _ ev) =>
      if is_deletion_request ev then
        let! res := apply_deletion_request_metered delay clock ev r in
        Ret (res.1.1, Some res.1.2, res.2)
      else
        let '(st1, res, cs) := store_insert_metered delay (r_store r) ev in
        let r1 := mkRelay st1 (r_fanout r) in
        Ret (match res with
             | IREphemeral =>
                 let '(r2, cs2) := published_metered clock ev r1 in
                 (r2, Some (ok_reply ev true ephemeral_message), cs ++ cs2)
             | IRDuplicate => (r1, Some (ok_reply ev true duplicate_message), cs)
             | IRDeleted => (r1, Some (ok_reply ev false deleted_message), cs)
             | IRStored event _ =>
                 let '(r2, cs2) := published_metered clock event r1 in
                 (r2, Some (ok_reply ev true []), cs ++ cs2)
             end)
  | Ok _ => Ret (r, None, [])
  | Err e => Ret (r, Some (msg_to_json (MNotification e)), [])
  end.

(** * The connections *)

Variable cfg : Config.

(** One turn of a REQ task that has run for [time]. A frame is counted when the
    channel has taken it, the time to EOSE with the EOSE. *)
Definition task_turn_metered (time : Z) (st : EventStore) (rid : str) (t : ReqTask) (tx : chan)
    : option (option ReqTask * chan * calls) :=
  match rt_frames t with
  | msg :: frames =>
      match try_send tx msg with
      | Some tx' => Some (Some (mkTask (rt_filters t) frames), tx', [IncEventsOutput])
      | None => None
      end
  | [] =>
      match rt_filters t with
      | f :: filters =>
          match query_filter st f with
          | Ret events =>
              Some (Some (mkTask filters
                ((fun e => event_frame rid (from_utf8_lossy (ev_raw e))) <$> events)), tx, [])
          | Panic => Some (None, tx, [])
          end
      | [] =>
          match try_send tx (msg_to_json (MEndOfStoredEvents rid)) with
          | Some tx' => Some (None, tx', [ObserveTteose time])
          | None => None
          end
      end
  end.

Definition req_turn_metered (time : Z) (id : Z) (rid : str) (sv : Server)
    : option (Server * calls) :=
  match sv_loops sv !! id, fo_states (sv_fanout sv) !! id with
  | Some k, Some c =>
      match k_tasks k !! rid with
      | Some (Some t) =>
          match task_turn_metered time (r_store (sv_relay sv)) rid t (c_tx c) with
          | Some (t', tx, cs) =>
              Some (with_loop id (mkLoop (k_active k) (k_opened k) (k_closed k)
                                    (<[rid := t']> (k_tasks k)))
                      (with_fanout (with_state id (with_tx tx c) (sv_fanout sv)) sv), cs)
          | None => None
          end
      | _ => None
      end
  | _, _ => None
  end.

(** The blocking part of an EVENT task. *)
Definition run_event_metered (delay : Z) (clock : Clock) (sv : Server) (pre post : list (Z * str))
    (id : Z) (text : str) : Server * calls :=
  match process_event_message_metered delay clock text (sv_relay sv) with
  | Ret (r, Some reply, cs) =>
      (mkServer r (sv_loops sv) (sv_waiting sv) (pre ++ post) (sv_replying sv ++ [(id, reply)])
         (sv_permits sv) (sv_count sv), cs)
  | Ret (r, None, cs) =>
      (mkServer r (sv_loops sv) (sv_waiting sv) (pre ++ post) (sv_replying sv)
         (sv_permits sv + 1) (sv_count sv), cs)
  | Panic =>
      (mkServer (sv_relay sv) (sv_loops sv) (sv_waiting sv) (pre ++ post) (sv_replying sv)
         (sv_permits sv + 1) (sv_count sv), [])
  end.

(** * A process with its metrics *)

Variable iteration_order : list Event -> list Event.
Context `{!Receiver}.

(** What a step does, as far as the metrics are to show it: a connection begins or
    ends, a REQ task sends a stored event, a frame's event is handled; the four
    accesses to the connection gauge that come after or between these; or anything
    else. *)
Inductive work :=
| Connects
| Disconnects
| Streams
| Handles (text : str)
| Enters
| Leaves
| Loads
| Sets
| Works.

(** The REQ task has an event to send. *)
Definition has_frame (id : Z) (rid : str) (sv : Server) : bool :=
  match k_tasks <$> sv_loops sv !! id with
  | Some tasks =>
      match tasks !! rid with
      | Some (Some t) => match rt_frames t with [] => false | _ => true end
      | _ => false
      end
  | None => false
  end.

(** What happens in a process ([life] of [Startup.v]), with the calls it makes, but
    for those of the connection gauge. *)
Inductive metered : Server * option bytes -> calls -> work -> Server * option bytes -> Prop :=
| metered_connect tx now sv snap :
    metered (sv, snap) [] Connects (connect tx now sv, snap)
| metered_text id text sv snap :
    live sv id -> metered (sv, snap) [] Works (handle_text cfg id text sv, snap)
| metered_binary id sv snap :
    live sv id -> metered (sv, snap) [] Works (handle_binary id sv, snap)
| metered_hangup id sv snap :
    live sv id -> metered (sv, snap) [] Disconnects (disconnect id sv, snap)
| metered_notified id c sv snap :
    live sv id -> fo_states (sv_fanout sv) !! id = Some c -> c_notified c = true ->
    metered (sv, snap) [] (if c_kill c then Disconnects else Works) (handle_notified id sv, snap)
| metered_idle id k sv snap :
    sv_loops sv !! id = Some k -> (0 < idle_timeout cfg)%Z -> k_active k = false ->
    metered (sv, snap) [IncIdleDisconnects] Disconnects (handle_idle cfg id sv, snap)
| metered_acquire pre task post sv snap :
    sv_waiting sv = pre ++ task :: post -> (0 < sv_permits sv)%Z ->
    metered (sv, snap) [] Works (acquire sv pre post task, snap)
| metered_event delay clock pre id text post sv snap :
    sv_running sv = pre ++ (id, text) :: post ->
    metered (sv, snap) (run_event_metered delay clock sv pre post id text).2 (Handles text)
      ((run_event_metered delay clock sv pre post id text).1, snap)
| metered_reply pre id reply post c tx sv snap :
    sv_replying sv = pre ++ (id, reply) :: post -> live sv id ->
    fo_states (sv_fanout sv) !! id = Some c -> try_send (c_tx c) reply = Some tx ->
    metered (sv, snap) [] Works
      (finish_reply (with_state id (with_tx tx c) (sv_fanout sv)) sv pre post, snap)
| metered_reply_closed pre id reply post sv snap :
    sv_replying sv = pre ++ (id, reply) :: post -> sv_loops sv !! id = None ->
    metered (sv, snap) [] Works (finish_reply (sv_fanout sv) sv pre post, snap)
| metered_req time id rid sv sv' cs snap :
    req_turn_metered time id rid sv = Some (sv', cs) ->
    metered (sv, snap) cs (if has_frame id rid sv then Streams else Works) (sv', snap)
| metered_sender id c msg tx sv snap :
    live sv id -> fo_states (sv_fanout sv) !! id = Some c -> recv (c_tx c) = Some (msg, tx) ->
    metered (sv, snap) [] Works (with_fanout (with_state id (with_tx tx c) (sv_fanout sv)) sv, snap)
| metered_evict st sv snap :
    maybe_evict (r_store (sv_relay sv)) = Ret st ->
    metered (sv, snap) [] Works (with_relay (mkRelay st (sv_fanout sv)) sv, snap)
| metered_task t n sv snap sys :
    t <> Persistence -> run_task iteration_order t n (system_of sv snap) = Ret sys ->
    metered (sv, snap) [] Works (with_store (sys_store sys) sv, sys_snapshot sys)
| metered_persist time n sv snap sys r cs :
    maybe_checkpoint_metered iteration_order time (tn_rotate n) (tn_write n) (system_of sv snap)
      = (sys, r, cs) ->
    metered (sv, snap) cs Works (with_store (sys_store sys) sv, sys_snapshot sys).

(** The accesses to the connection gauge are steps of their own, after the step that
    changes the relay's counter: [handle_socket] adds to the counter and then to
    the gauge, and takes from the counter and then from the gauge, and the task that
    [Relay::new] starts loads the counter and then sets the gauge. Here are the
    connections that have done the first of the two, and what that task has loaded.
    (Which of the connections goes on is left open, which is more than the program
    does.) *)
Record Gauge := mkGauge {
  g_entering : nat;
  g_leaving : nat;
  g_loaded : option Z;
}.

(** The connections that the counter has and the gauge has not yet. *)
Definition g_between (g : Gauge) : Z := (Z.of_nat (g_entering g) - Z.of_nat (g_leaving g))%Z.

Definition gauge_work (w : work) (g : Gauge) : Gauge :=
  match w with
  | Connects => mkGauge (S (g_entering g)) (g_leaving g) (g_loaded g)
  | Disconnects => mkGauge (g_entering g) (S (g_leaving g)) (g_loaded g)
  | _ => g
  end.

Definition process : Type := Server * option bytes * Gauge.

(** A process that has just started. *)
Definition process_new (sv : Server) (snap : option bytes) : process := (sv, snap, mkGauge 0 0 None).

Inductive process_step : process -> calls -> work -> process -> Prop :=
| process_server p g cs w p' :
    metered p cs w p' -> process_step (p, g) cs w (p', gauge_work w g)
| process_enters p n leaving loaded :
    process_step (p, mkGauge (S n) leaving loaded) [ConnectionsInc] Enters
      (p, mkGauge n leaving loaded)
| process_leaves p entering n loaded :
    process_step (p, mkGauge entering (S n) loaded) [ConnectionsDec] Leaves
      (p, mkGauge entering n loaded)
| process_loads p entering leaving loaded :
    process_step (p, mkGauge entering leaving loaded) [] Loads
      (p, mkGauge entering leaving (Some (sv_count p.1)))
| process_sets p entering leaving v :
    process_step (p, mkGauge entering leaving (Some v)) [ConnectionsSet v] Sets
      (p, mkGauge entering leaving None).

(** * What has happened *)

(** The events stored in a process, and those that one state has and another has
    not. *)
Definition events_of (p : process) : gmap bytes Event := by_id (st_index (r_store (sv_relay p.1.1))).
Definition came (m m' : gmap bytes Event) : Z := Z.of_nat (size (dom m' ∖ dom m)).

(** The stored events that a step sends. *)
Definition sends (w : work) : Z := match w with Streams => 1 | _ => 0 end.

(** The event handled is a deletion request. *)
Definition deletes (w : work) : bool :=
  match w with
  | Handles text =>
      match msg_from_json text with
      | Ok (MEvent _ ev) => is_deletion_request ev
      | _ => false
      end
  | _ => false
  end.

(** A run's history, told by its states and not by its calls: the stored events that
    REQ tasks have sent, the events that the store has gained and lost, those among
    the lost that deletion requests removed; and by how much the gauge is off, and
    will be when the collector sets it. A load that finds [a] connections beginning
    and [b] ending is off by [a - b]; each that enters the gauge before the set is
    one less, each that leaves one more. *)
Record Ledger := mkLedger {
  lg_sent : Z;
  lg_stored : Z;
  lg_lost : Z;
  lg_deleted : Z;
  lg_next : Z;
  lg_drift : Z;
}.

Definition ledger_new : Ledger := mkLedger 0 0 0 0 0 0.

Definition next_of (p : process) (w : work) (next : Z) : Z :=
  match w with
  | Loads => g_between p.2
  | Enters => (next - 1)%Z
  | Leaves => (next + 1)%Z
  | _ => next
  end.

Definition book (l : Ledger) (p : process) (w : work) (p' : process) : Ledger :=
  let gained := came (events_of p) (events_of p') in
  let lost := came (events_of p') (events_of p) in
  mkLedger (lg_sent l + sends w)%Z
    (lg_stored l + gained)%Z (lg_lost l + lost)%Z
    (lg_deleted l + (if deletes w then lost else 0))%Z
    (next_of p w (lg_next l)) (match w with Sets => lg_next l | _ => lg_drift l end).

(** A run, its calls in order and its history. *)
Inductive metered_run p0 : calls -> Ledger -> process -> Prop :=
| metered_start : metered_run p0 [] ledger_new p0
| metered_next cs l p cs' w p' :
    metered_run p0 cs l p -> process_step p cs' w p' ->
    metered_run p0 (cs ++ cs') (book l p w p') p'.
End Relay.
