(* ===== verification/MeteredProps.v ===== *)
(** The operations of [Metered.v] one by one: without their calls they are those of
    the other files, and a process is the one of [Startup.v]; and what their calls
    add up to, against the counters of the connections and the size of the store. *)
From S2P Require Import Prelude Float Text Collections Event Reference EventProps Deletion Tombstones Index IndexInv IndexSpec IndexQuery Wal Store Recovery Journal Durability Subscription Fanout Message Relay Config Socket SocketInv SocketProps Delivery Startup Metrics Metered.
Open Scope memlay_scope.

(** * Without the calls *)

Section Plain.
Context `{HexCrate, EventCrates}.

Lemma delete_by_id_plain ix id : (delete_by_id_metered ix id).1 = delete_by_id ix id.
Proof. unfold delete_by_id_metered, delete_by_id. by destruct (internal_remove ix id false). Qed.

Lemma delete_recorded_plain s id : (delete_recorded_metered s id).1 = delete_recorded s id.
Proof.
  destruct s as [st o]. unfold delete_recorded_metered, delete_recorded.
  rewrite <- delete_by_id_plain. by destruct (delete_by_id_metered _ _) as [[ix removed] cs].
Qed.

Lemma delete_id_plain author s id : (delete_id_metered author s id).1 = delete_id author s id.
Proof.
  unfold delete_id_metered, delete_id. case_match; [|done].
  case_match; [apply delete_recorded_plain|done].
Qed.

Lemma delete_coordinate_plain author until s coord :
  (delete_coordinate_metered author until s coord).1 = delete_coordinate author until s coord.
Proof.
  unfold delete_coordinate_metered, delete_coordinate. case_match; [done|].
  destruct (coordinate_targets _ _ _) as [|id ids]; [done|].
  apply metered_fold_plain, delete_recorded_plain.
Qed.

Lemma apply_deletion_plain st ids coordinates author until :
  (apply_deletion_metered st ids coordinates author until).1
  = apply_deletion st ids coordinates author until.
Proof.
  unfold apply_deletion_metered, apply_deletion.
  rewrite <- (metered_fold_plain (delete_id_metered author)) by apply delete_id_plain.
  destruct (metered_fold _ ids _) as [s1 cs1]. cbn [fst].
  rewrite <- (metered_fold_plain (delete_coordinate_metered author until))
    by apply delete_coordinate_plain.
  by destruct (metered_fold _ coordinates _).
Qed.

Lemma store_insert_plain delay st e : (store_insert_metered delay st e).1 = store_insert st e.
Proof.
  unfold store_insert_metered, store_insert. case_match; [done|].
  destruct (index_insert (st_index st) e) as [ix []]; done.
Qed.

Lemma save_to_disk_plain order time fl sys :
  (save_to_disk_metered order time fl sys).1 = save_to_disk order fl sys.
Proof.
  unfold save_to_disk_metered, save_to_disk. repeat case_match; simplify_eq; done.
Qed.

Lemma checkpoint_plain order time flr fls sys :
  (checkpoint_metered order time flr fls sys).1 = checkpoint order flr fls sys.
Proof.
  unfold checkpoint_metered, checkpoint. repeat case_match; simplify_eq; done.
Qed.

Lemma maybe_checkpoint_plain order time flr fls sys :
  (maybe_checkpoint_metered order time flr fls sys).1 = maybe_checkpoint order flr fls sys.
Proof.
  unfold maybe_checkpoint_metered, maybe_checkpoint. case_match; [|apply save_to_disk_plain].
  case_match; [apply checkpoint_plain|]. by destruct (group_commit _ _).
Qed.
End Plain.

Section PlainRouter.
Context `{Channel}.

Lemma record_drop_plain now sub_id c : (record_drop_metered now sub_id c).1 = record_drop now sub_id c.
Proof.
  unfold record_drop_metered, record_drop. destruct (c_drop_window c).
  do 2 case_match; simplify_eq; repeat case_match; simplify_eq; done.
Qed.

Lemma deliver_sub_plain clock ev c sub :
  (deliver_sub_metered clock ev c sub).1 = deliver_sub clock ev c sub.
Proof.
  unfold deliver_sub_metered, deliver_sub. destruct sub. case_match; [done|].
  case_match; [done|apply record_drop_plain].
Qed.

Lemma deliver_plain clock ev c : (deliver_metered clock ev c).1 = deliver clock ev c.
Proof. apply metered_fold_plain, deliver_sub_plain. Qed.

Lemma deliver_to_plain clock ev fo id :
  (deliver_to_metered clock ev fo id).1 = deliver_to clock ev fo id.
Proof.
  unfold deliver_to_metered, deliver_to. case_match; [|done]. rewrite <- deliver_plain.
  by destruct (deliver_metered _ _ _).
Qed.

Lemma publish_plain clock ev fo : (publish_metered clock ev fo).1 = publish clock ev fo.
Proof. apply metered_fold_plain, deliver_to_plain. Qed.
End PlainRouter.

(** What a panicking call leaves out. *)
Definition panicky_map {A B} (f : A -> B) (m : panicky A) : panicky B := let! x := m in Ret (f x).

Section PlainRelay.
Context `{HexCrate, MessageJson, Channel, !Receiver}.
Variable set_order : gset bytes -> list bytes.

Lemma published_plain clock e r : (published_metered clock e r).1 = published clock e r.
Proof.
  unfold published_metered, published. rewrite <- publish_plain. by destruct (publish_metered _ _ _).
Qed.

Lemma apply_deletion_request_plain delay clock ev r :
  panicky_map fst (apply_deletion_request_metered set_order delay clock ev r)
  = apply_deletion_request set_order clock ev r.
Proof.
  unfold panicky_map, apply_deletion_request_metered, apply_deletion_request.
  case_match; [done|]. case_match; [done|]. destruct (deletion_request ev) as [req|]; [|done].
  cbn [panicky_bind]. rewrite <- apply_deletion_plain.
  destruct (apply_deletion_metered _ _ _ _ _) as [[st1 o] cs1]. cbn [fst].
  rewrite <- (store_insert_plain delay).
  destruct (store_insert_metered _ _ _) as [[st2 res] cs2]. cbn [fst].
  destruct res; cbn [panicky_bind]; rewrite <- ?published_plain;
    by try destruct (published_metered _ _ _).
Qed.

Lemma event_message_plain delay clock text r :
  panicky_map fst (process_event_message_metered set_order delay clock text r)
  = process_event_message set_order clock text r.
Proof.
  unfold process_event_message_metered, process_event_message.
  destruct (msg_from_json text) as [[| | | | | |]|]; try done.
  case_match.
  - rewrite <- (apply_deletion_request_plain delay).
    destruct (apply_deletion_request_metered _ _ _ _ _) as [[[r' s] cs]|]; done.
  - rewrite <- (store_insert_plain delay).
    destruct (store_insert_metered _ _ _) as [[st1 res] cs]. cbn [fst].
    destruct res; unfold panicky_map; cbn [panicky_bind]; rewrite <- ?published_plain;
      by try destruct (published_metered _ _ _).
Qed.

Lemma run_event_plain delay clock sv pre post id text :
  (run_event_metered set_order delay clock sv pre post id text).1
  = run_event set_order clock sv pre post id text.
Proof.
  unfold run_event_metered, run_event. rewrite <- (event_message_plain delay).
  by destruct (process_event_message_metered _ _ _ _ _) as [[[r' [reply|]] cs]|].
Qed.

Lemma task_turn_plain time st rid t tx :
  fst <$> task_turn_metered time st rid t tx = task_turn st rid t tx.
Proof. unfold task_turn_metered, task_turn. by repeat case_match. Qed.

Lemma req_turn_plain time id rid sv : fst <$> req_turn_metered time id rid sv = req_turn id rid sv.
Proof.
  unfold req_turn_metered, req_turn. repeat case_match; try done;
    match goal with
    | H1 : task_turn_metered time ?st _ _ _ = _, H2 : task_turn _ _ _ _ = _ |- _ =>
        rewrite <- (task_turn_plain time), H1 in H2; simplify_eq/=; done
    end.
Qed.
End PlainRelay.

Section PlainLife.
Context `{HexLaws, MessageJsonLaws, Channel, !Receiver}.
Variable set_order : gset bytes -> list bytes.
Variable cfg : Config.
Variable iteration_order : list Event -> list Event.
Abbreviation metered := (metered set_order cfg iteration_order).
Abbreviation life := (life iteration_order set_order cfg).

(** The metrics change nothing. *)
Lemma metered_life p cs w p' : metered p cs w p' -> life p p'.
Proof.
  destruct 1.
  all: try (apply life_step; by econstructor).
  - apply life_step. rewrite run_event_plain. by apply step_run.
  - apply life_step. eapply step_req. rewrite <- (req_turn_plain time).
    match goal with Hr : req_turn_metered _ _ _ _ = _ |- _ => by rewrite Hr end.
  - by eapply life_task.
  - eapply (life_task _ _ _ Persistence n). cbn [run_task]. f_equal.
    rewrite <- (maybe_checkpoint_plain iteration_order time). match goal with Hr : maybe_checkpoint_metered _ _ _ _ _ = _ |- _ => by rewrite Hr end.
Qed.

(** Everything that can happen can be metered. *)
Lemma life_metered p p' : life p p' -> exists cs w, metered p cs w p'.
Proof.
  destruct 1 as [sv sv' snap Hs|t n sv snap sys Hr].
  - destruct Hs; try (eexists _, _; by econstructor).
    + rewrite <- (run_event_plain set_order 0). eexists _, _. by apply metered_event.
    + match goal with Hr : req_turn _ _ _ = _ |- _ => rename Hr into Hr0 end.
      rewrite <- (req_turn_plain 0) in Hr0.
      destruct (req_turn_metered 0 id rid sv) as [[sv1 cs]|] eqn:E; [|done].
      injection Hr0 as <-. eexists _, _. by eapply metered_req.
  - destruct (decide (t = Persistence)) as [->|Ht]; [|eexists _, _; by eapply metered_task].
    cbn [run_task] in Hr. injection Hr as <-.
    rewrite <- (maybe_checkpoint_plain iteration_order 0).
    destruct (maybe_checkpoint_metered _ _ _ _ _) as [[sys r] cs] eqn:E.
    eexists _, _. by eapply metered_persist.
Qed.

Lemma metered_run_life p0 cs l p :
  metered_run set_order cfg iteration_order p0 cs l p -> rtc life p0.1 p.1.
Proof.
  induction 1 as [|cs l p cs' w p' _ IH Hm]; [done|].
  destruct Hm as [p g cs1 w p' Hm| | | |]; [|exact IH..].
  eapply rtc_r; [exact IH|]. by eapply metered_life.
Qed.
End PlainLife.

(** * Counting calls *)

(** How often a metric was called. *)
Definition count (m : Metric) (cs : calls) : Z :=
  Z.of_nat (length (List.filter (fun c => bool_decide (call_metric c = m)) cs)).

Lemma count_nil m : count m [] = 0%Z.
Proof. done. Qed.

Lemma count_app m cs1 cs2 : count m (cs1 ++ cs2) = (count m cs1 + count m cs2)%Z.
Proof. unfold count. rewrite List.filter_app, length_app. lia. Qed.

Lemma count_cons m c cs :
  count m (c :: cs) = ((if decide (call_metric c = m) then 1 else 0) + count m cs)%Z.
Proof.
  unfold count. cbn [List.filter]. destruct (decide (call_metric c = m)).
  - rewrite bool_decide_true by done. cbn [length]. lia.
  - by rewrite bool_decide_false by done.
Qed.

Lemma count_nonneg m cs : (0 <= count m cs)%Z.
Proof. unfold count. lia. Qed.

(** Calls of these metrics only. *)
Definition only (ms : list Metric) (cs : calls) : Prop := Forall (fun c => call_metric c ∈ ms) cs.

Lemma only_app ms cs1 cs2 : only ms cs1 -> only ms cs2 -> only ms (cs1 ++ cs2).
Proof. intros. by apply Forall_app. Qed.

Lemma only_count m ms cs : only ms cs -> m ∉ ms -> count m cs = 0%Z.
Proof.
  intros Ho Hm. induction Ho as [|c cs Hc _ IH]; [done|].
  rewrite count_cons, IH, decide_False; [done|]. by intros <-.
Qed.

Lemma metered_fold_only {S A} ms (f : S -> A -> S * calls) l s :
  (forall s a, only ms (f s a).2) -> only ms (metered_fold f l s).2.
Proof.
  intros Hf. apply (metered_fold_ind (fun _ cs _ => only ms cs)); [constructor| |exact Hf].
  intros. by apply only_app.
Qed.

Definition router_metrics : list Metric := [EVENTS_OUTPUT; EVENTS_DROPPED; SUBS_OVERFLOWED].
Definition store_metrics : list Metric :=
  [EVENTS_SAVED; EVENTS_DELETED; DELETION_REQUESTS; WRITE_DELAY].

(** Membership in a closed list. *)
Ltac metric_in := repeat constructor; cbn; set_solver.

(** Count closed lists of calls. *)
Ltac count_closed :=
  repeat match goal with
  | |- context [count ?m ?l] => let v := eval vm_compute in (count m l) in change (count m l) with v
  end.

(** A counter shows how often it was called. *)
Lemma tally_count m cs : m <> ACTIVE_CONNECTIONS -> tally cs m = count m cs.
Proof.
  intros Hm. induction cs as [|c cs IH] using rev_ind; [done|].
  rewrite tally_snoc, count_app, count_cons, count_nil, IH.
  destruct (decide (m = call_metric c)) as [->|Hne].
  - rewrite decide_True by done. destruct c; done || (cbn [call_effect]; lia).
  - rewrite decide_False by done. lia.
Qed.

(** [a] went up by [n], or by [n] less some wraps of a 64-bit counter. *)
Definition wraps (n d : Z) : Prop := exists k, (0 <= k)%Z /\ d = (n - 2 ^ 64 * k)%Z.

Lemma wraps_refl n : wraps n n.
Proof. exists 0%Z. lia. Qed.

Lemma wraps_add n1 d1 n2 d2 : wraps n1 d1 -> wraps n2 d2 -> wraps (n1 + n2) (d1 + d2).
Proof. intros (k1 & ? & ->) (k2 & ? & ->). exists (k1 + k2)%Z. lia. Qed.

Lemma wraps_exact n d : wraps n d -> (0 <= d)%Z -> exact n -> d = n.
Proof. unfold exact. intros (k & Hk & ->) Hd Hn. assert (k = 0)%Z as -> by nia. lia. Qed.

Lemma fetch_add_wraps a : (0 <= a)%Z -> wraps 1 (fetch_add a 1 - a) /\ (0 <= fetch_add a 1)%Z.
Proof.
  intros Ha. unfold fetch_add, wrap64. split; [|apply Z.mod_pos_bound; lia].
  exists ((a + 1) / 2 ^ 64)%Z. split; [apply Z.div_pos; lia|].
  pose proof (Z.div_mod (a + 1) (2 ^ 64)). lia.
Qed.

(** * Sums over the connections *)

Section Total.
Context {A : Type}.
Implicit Types (m : gmap Z A) (g : A -> Z).

Definition total g m : Z := map_fold (fun _ x acc => (g x + acc)%Z) 0%Z m.

Lemma total_empty g : total g ∅ = 0%Z.
Proof. apply map_fold_empty. Qed.

Lemma total_insert g m i x : m !! i = None -> total g (<[i := x]> m) = (g x + total g m)%Z.
Proof. intros Hi. unfold total. rewrite map_fold_insert_L; [done|intros; lia|done]. Qed.

Lemma total_update g m i x y :
  m !! i = Some x -> total g (<[i := y]> m) = (total g m - g x + g y)%Z.
Proof.
  intros Hi. rewrite <- (insert_delete_id m i x Hi) at 2. rewrite <- insert_delete_eq.
  rewrite !total_insert by apply lookup_delete_eq. lia.
Qed.

Lemma total_nonneg g m : (forall i x, m !! i = Some x -> (0 <= g x)%Z) -> (0 <= total g m)%Z.
Proof.
  induction m as [|i x m Hi IH] using map_ind; intros Hg; [by rewrite total_empty|].
  rewrite total_insert by done. pose proof (Hg i x ltac:(by rewrite lookup_insert_eq)).
  assert (0 <= total g m)%Z; [|lia]. apply IH. intros j y Hj. apply (Hg j).
  rewrite lookup_insert_ne; [done|]. by intros ->; rewrite Hi in Hj.
Qed.
End Total.

Section Router.
Context `{Channel}.
Abbreviation tally3 := (Z * Z * Z)%type.

(** What a connection has been sent and refused, and its overflowed
    subscriptions. *)
Definition view (c : ConnState) : tally3 :=
  (c_sent c, c_dropped c, Z.of_nat (length (c_overflow c))).
Definition views (fo : Fanout) : gmap Z tally3 := view <$> fo_states fo.
Definition totals (fo : Fanout) : tally3 :=
  (total (fun x => x.1.1) (views fo), total (fun x => x.1.2) (views fo),
   total (fun x => x.2) (views fo)).

Definition pos (x : tally3) : Prop := (0 <= x.1.1 /\ 0 <= x.1.2 /\ 0 <= x.2)%Z.
Definition sane (fo : Fanout) : Prop := forall i x, views fo !! i = Some x -> pos x.

(** From [x] to [x'], with these calls. *)
Record grows (x : tally3) (cs : calls) (x' : tally3) : Prop := {
  gr_sent : wraps (count EVENTS_OUTPUT cs) (x'.1.1 - x.1.1);
  gr_dropped : wraps (count EVENTS_DROPPED cs) (x'.1.2 - x.1.2);
  gr_overflow : x'.2 = (x.2 + count SUBS_OVERFLOWED cs)%Z;
  gr_subs : (count SUBS_OVERFLOWED cs <= count EVENTS_DROPPED cs)%Z;
}.

Lemma grows_refl x : grows x [] x.
Proof.
  split; rewrite ?count_nil, ?Z.sub_diag; [apply wraps_refl..|lia|done].
Qed.

Lemma grows_trans x cs1 y cs2 z : grows x cs1 y -> grows y cs2 z -> grows x (cs1 ++ cs2) z.
Proof.
  intros [S1 D1 O1 L1] [S2 D2 O2 L2]. split; rewrite ?count_app; [| |lia|lia].
  - replace (z.1.1 - x.1.1)%Z with (y.1.1 - x.1.1 + (z.1.1 - y.1.1))%Z by lia. by apply wraps_add.
  - replace (z.1.2 - x.1.2)%Z with (y.1.2 - x.1.2 + (z.1.2 - y.1.2))%Z by lia. by apply wraps_add.
Qed.

Lemma record_sent_grows tx c :
  pos (view c) -> pos (view (record_sent tx c)) /\ grows (view c) [IncEventsOutput] (view (record_sent tx c)).
Proof.
  intros (Hs & Hd & Ho). cbn in *. destruct (fetch_add_wraps (c_sent c) Hs) as [Hw Hn].
  split; [by split_and!|]. split; count_closed; cbn; rewrite ?Z.sub_diag; [exact Hw|apply wraps_refl|lia|lia].
Qed.

Lemma record_drop_grows now sub_id c :
  pos (view c) -> let '(c', cs) := record_drop_metered now sub_id c in
  pos (view c') /\ grows (view c) cs (view c').
Proof.
  intros (Hs & Hd & Ho). cbn in *. destruct (fetch_add_wraps (c_dropped c) Hd) as [Hw Hn].
  unfold record_drop_metered. destruct (c_drop_window c) as [start drops].
  destruct (bool_decide (sub_id ∈ c_overflow c));
    destruct (if (_ >? _)%Z then _ else _) as [window over];
    (split; [exact (conj Hs (conj Hn (Nat2Z.is_nonneg _)))|]);
    (split; count_closed; cbn; rewrite ?Z.sub_diag, ?length_app; cbn [length];
      [apply wraps_refl|exact Hw|lia|lia]).
Qed.

Lemma deliver_sub_grows clock ev c sub :
  pos (view c) ->
  pos (view (deliver_sub_metered clock ev c sub).1)
  /\ grows (view c) (deliver_sub_metered clock ev c sub).2 (view (deliver_sub_metered clock ev c sub).1).
Proof.
  intros Hp. unfold deliver_sub_metered. destruct sub as [sub_id filters].
  case_match; [split; [done|apply grows_refl]|].
  case_match; [by apply record_sent_grows|].
  pose proof (record_drop_grows (clock (c_id c) sub_id) sub_id c Hp) as Hg.
  by destruct (record_drop_metered _ _ _).
Qed.

Lemma deliver_grows clock ev c :
  pos (view c) ->
  pos (view (deliver_metered clock ev c).1)
  /\ grows (view c) (deliver_metered clock ev c).2 (view (deliver_metered clock ev c).1).
Proof.
  intros Hp. unfold deliver_metered.
  apply (metered_fold_ind (fun c cs c' => pos (view c) -> pos (view c') /\ grows (view c) cs (view c')));
    [..|done].
  - intros s Hs. split; [done|apply grows_refl].
  - intros s1 cs1 s2 cs2 s3 H12 H23 Hs1. destruct (H12 Hs1) as [Hs2 G12].
    destruct (H23 Hs2) as [Hs3 G23]. split; [done|by eapply grows_trans].
  - intros s sub. apply deliver_sub_grows.
Qed.

Lemma views_with_state id c fo : views (with_state id c fo) = <[id := view c]> (views fo).
Proof. unfold views. cbn. by rewrite fmap_insert. Qed.

Lemma views_lookup fo id c : fo_states fo !! id = Some c -> views fo !! id = Some (view c).
Proof. intros Hc. unfold views. by rewrite lookup_fmap, Hc. Qed.

(** Replacing the state of one connection. *)
Lemma sane_with_state id c fo : sane fo -> pos (view c) -> sane (with_state id c fo).
Proof.
  intros Hs Hp i x. rewrite views_with_state. intros [[<- <-]|[_ Hx]]%lookup_insert_Some; [done|].
  by apply (Hs i).
Qed.

Lemma grows_with_state id c c' cs fo :
  fo_states fo !! id = Some c -> grows (view c) cs (view c') ->
  grows (totals fo) cs (totals (with_state id c' fo)).
Proof.
  intros Hc [Hs Hd Ho Hsub]. pose proof (views_lookup fo id c Hc) as Hv.
  unfold totals. rewrite views_with_state.
  split; cbn [fst snd]; rewrite ?(total_update _ _ _ _ _ Hv); [..|done].
  - replace (_ - _)%Z with ((view c').1.1 - (view c).1.1)%Z by lia. done.
  - replace (_ - _)%Z with ((view c').1.2 - (view c).1.2)%Z by lia. done.
  - rewrite Ho. lia.
Qed.

Lemma publish_grows clock ev fo :
  sane fo -> sane (publish_metered clock ev fo).1
  /\ grows (totals fo) (publish_metered clock ev fo).2 (totals (publish_metered clock ev fo).1).
Proof.
  unfold publish_metered.
  apply (metered_fold_ind (fun fo cs fo' => sane fo -> sane fo' /\ grows (totals fo) cs (totals fo'))).
  - intros s Hs. split; [done|apply grows_refl].
  - intros s1 cs1 s2 cs2 s3 H12 H23 Hs1. destruct (H12 Hs1) as [Hs2 G12].
    destruct (H23 Hs2) as [Hs3 G23]. split; [done|by eapply grows_trans].
  - intros s id Hs. unfold deliver_to_metered.
    destruct (fo_states s !! id) as [c|] eqn:Hc; [|split; [done|apply grows_refl]].
    destruct (deliver_grows clock ev c (Hs id _ (views_lookup s id c Hc))) as [Hp Hg].
    destruct (deliver_metered clock ev c) as [c' cs]. cbn [fst snd] in *.
    split; [by apply sane_with_state|by eapply grows_with_state].
Qed.
End Router.

(** * What the other operations of the router leave alone *)

Section Quiet.
Context `{Channel}.

Lemma views_same id c c' fo :
  fo_states fo !! id = Some c -> view c' = view c -> views (with_state id c' fo) = views fo.
Proof.
  intros Hc Hv. rewrite views_with_state, Hv. apply fin_maps.insert_id. by apply views_lookup.
Qed.

Lemma views_states fo fo' : fo_states fo' = fo_states fo -> views fo' = views fo.
Proof. unfold views. by intros ->. Qed.

Lemma views_reindex id fo : views (reindex id fo) = views fo.
Proof.
  unfold reindex. destruct (fo_states fo !! id) as [c|] eqn:Hc; [|done]. case_bool_decide; [done|].
  destruct (index_frame id (subs_key (c_subs c)) (deindex id (c_kind_key c) fo)) as [S1 _].
  destruct (deindex_frame id (c_kind_key c) fo) as [S2 _].
  rewrite (views_same _ c) by (done || congruence). apply views_states. congruence.
Qed.

Lemma views_set_sub id rid fs fo : views (set_sub id rid fs fo) = views fo.
Proof.
  unfold set_sub. destruct (fo_states fo !! id) as [c|] eqn:Hc; [|done].
  rewrite views_reindex. by eapply views_same.
Qed.

Lemma views_remove_sub id rid fo : views (remove_sub id rid fo).1 = views fo.
Proof.
  unfold remove_sub. destruct (fo_states fo !! id) as [c|] eqn:Hc; [|done]. cbn [fst].
  case_match; rewrite ?views_reindex; by eapply views_same.
Qed.

Lemma views_unregister id fo : views (unregister id fo) = views fo.
Proof.
  unfold unregister. destruct (fo_states fo !! id) as [c|] eqn:Hc; [|done].
  set (fo1 := mkFanout _ _ _ _ _). destruct (deindex_frame id (c_kind_key c) fo1) as [S _].
  rewrite (views_same _ c) by (done || by rewrite S). by apply views_states.
Qed.

Lemma views_send_frame id msg fo : views (send_frame id msg fo) = views fo.
Proof.
  unfold send_frame. destruct (fo_states fo !! id) as [c|] eqn:Hc; [|done].
  case_match; [by eapply views_same|done].
Qed.

Lemma views_register tx now fo :
  views (register tx now fo).1 = <[(register tx now fo).2 := (0, 0, 0)%Z]> (views fo).
Proof. unfold views, register. cbn. by rewrite fmap_insert. Qed.

Lemma views_register_fresh tx now fo :
  fanout_ok fo -> views fo !! (register tx now fo).2 = None.
Proof.
  intros Hok. unfold views. rewrite lookup_fmap. destruct (fo_states fo !! _) as [c|] eqn:Hc; [|done].
  pose proof (fk_fresh fo Hok (register tx now fo).2 ltac:(by eexists)) as Hf. cbn in Hf. lia.
Qed.
End Quiet.

Section QuietServer.
Context `{HexCrate, MessageJson, Channel}.
Variable cfg : Config.

Definition sviews (sv : Server) : gmap Z (Z * Z * Z) := views (sv_fanout sv).

Lemma sviews_send id m sv : sviews (send_message id m sv) = sviews sv.
Proof. apply views_send_frame. Qed.

Lemma sviews_close id k rid sv : sviews (close_sub id k rid sv) = sviews sv.
Proof. apply views_remove_sub. Qed.

Lemma sviews_open id k rid fs sv : sviews (open_sub id k rid fs sv) = sviews sv.
Proof. apply views_set_sub. Qed.

Lemma sviews_text id text sv : sviews (handle_text cfg id text sv) = sviews sv.
Proof.
  unfold handle_text, handle_req, handle_close, handle_other.
  repeat case_match; rewrite ?sviews_send, ?sviews_close, ?sviews_open; done.
Qed.

Lemma sviews_overflowed id rids sv : sviews (foldl (close_overflowed id) sv rids) = sviews sv.
Proof.
  apply (foldl_ind (fun sv' => sviews sv' = sviews sv)); [done|]. intros sv' rid _ IH.
  unfold close_overflowed. case_match; [|done]. by rewrite sviews_send, sviews_close.
Qed.

Lemma sviews_disconnect id sv : sviews (disconnect id sv) = sviews sv.
Proof. apply views_unregister. Qed.

Lemma sviews_binary id sv : sviews (handle_binary id sv) = sviews sv.
Proof. unfold handle_binary. case_match; [|done]. by rewrite sviews_send. Qed.
End QuietServer.

(** * Stored events *)

(** What [came] is, when nothing came, when one event did, and between the sizes. *)
Section Came.
Implicit Types m : gmap bytes Event.

Lemma came_sub m m' : dom m' ⊆ dom m -> came m m' = 0%Z.
Proof.
  intros Hs. unfold came. replace (dom m' ∖ dom m) with (∅ : gset bytes) by set_solver.
  by rewrite size_empty.
Qed.

Lemma came_refl m : came m m = 0%Z.
Proof. by apply came_sub. Qed.

Lemma came_one m m' i : i ∉ dom m -> i ∈ dom m' -> dom m' ⊆ {[i]} ∪ dom m -> came m m' = 1%Z.
Proof.
  intros Hi Hi' Hs. unfold came. replace (dom m' ∖ dom m) with ({[i]} : gset bytes) by set_solver.
  by rewrite size_singleton.
Qed.

Lemma came_sizes m m' : (Z.of_nat (size m') + came m' m = Z.of_nat (size m) + came m m')%Z.
Proof.
  unfold came. rewrite <- !size_dom.
  assert (forall X Y : gset bytes, size X = size (X ∖ Y) + size (X ∩ Y)) as Hsplit.
  { intros X Y. rewrite <- size_union by set_solver. f_equal. apply set_eq. intros x.
    destruct (decide (x ∈ Y)); set_solver. }
  rewrite (Hsplit (dom m') (dom m)), (Hsplit (dom m) (dom m')).
  assert ((dom m' : gset bytes) ∩ dom m = dom m ∩ dom m') as -> by (apply set_eq; set_solver). lia.
Qed.

Lemma came_through m m1 m2 i :
  dom m1 ⊆ dom m -> dom m2 = {[i]} ∪ dom m1 -> i ∉ dom m -> came m2 m = came m1 m.
Proof.
  intros Hs H2 Hi. unfold came. do 2 f_equal. rewrite H2. set_solver.
Qed.

Lemma dom_sub m m' : (forall i x, m' !! i = Some x -> m !! i = Some x) -> dom m' ⊆ dom m.
Proof. intros Hs. by apply subseteq_dom, map_subseteq_spec. Qed.
End Came.

Section Stored.
Context `{HexCrate, EventCrates}.

(** A deletion counts the ids that it reports, and nothing as saved. *)
Definition counted (s : EventStore * DeletionOutcome) (cs : calls)
    (s' : EventStore * DeletionOutcome) : Prop :=
  (Z.of_nat (length (do_deleted_ids s'.2)) = Z.of_nat (length (do_deleted_ids s.2)) + count EVENTS_DELETED cs)%Z
  /\ count EVENTS_SAVED cs = 0%Z.

Lemma counted_nil s s' : do_deleted_ids s'.2 = do_deleted_ids s.2 -> counted s [] s'.
Proof. intros E. unfold counted. rewrite E. count_closed. lia. Qed.

Lemma counted_trans s1 cs1 s2 cs2 s3 :
  counted s1 cs1 s2 -> counted s2 cs2 s3 -> counted s1 (cs1 ++ cs2) s3.
Proof. unfold counted. rewrite !count_app. lia. Qed.

Lemma counted_fold {A} (f : EventStore * DeletionOutcome -> A -> EventStore * DeletionOutcome * calls) l s :
  (forall s a, counted s (f s a).2 (f s a).1) ->
  counted s (metered_fold f l s).2 (metered_fold f l s).1.
Proof.
  apply metered_fold_ind; [intros s'; by apply counted_nil|apply counted_trans].
Qed.

Lemma counted_recorded s id :
  counted s (delete_recorded_metered s id).2 (delete_recorded_metered s id).1.
Proof.
  destruct s as [st o]. unfold counted, delete_recorded_metered, delete_by_id_metered.
  destruct (internal_remove _ _ _) as [ix removed]. cbn [fst snd].
  case_bool_decide; count_closed; cbn; rewrite ?length_app; cbn [length]; split; lia.
Qed.

Lemma apply_deletion_counts st ids coordinates author until :
  let '(_, o, cs) := apply_deletion_metered st ids coordinates author until in
  count EVENTS_DELETED cs = Z.of_nat (length (do_deleted_ids o)) /\ count EVENTS_SAVED cs = 0%Z.
Proof.
  assert (forall s id, counted s (delete_id_metered author s id).2 (delete_id_metered author s id).1)
    as Hid.
  { intros s id. unfold delete_id_metered. case_match; [|by apply counted_nil].
    case_match; [apply counted_recorded|by apply counted_nil]. }
  assert (forall s c, counted s (delete_coordinate_metered author until s c).2
    (delete_coordinate_metered author until s c).1) as Hco.
  { intros s c. unfold delete_coordinate_metered. case_match; [by apply counted_nil|].
    case_match; [by apply counted_nil|]. apply counted_fold, counted_recorded. }
  pose proof (counted_fold _ ids (st, outcome_default) Hid) as H1.
  unfold apply_deletion_metered. destruct (metered_fold _ ids _) as [s1 cs1].
  pose proof (counted_fold _ coordinates s1 Hco) as H2.
  destruct (metered_fold _ coordinates _) as [[st2 o2] cs2]. cbn [fst snd] in *.
  destruct (counted_trans _ _ _ _ _ H1 H2) as [Hd Hs]. cbn in Hd. split; [lia|done].
Qed.

Context (core_of : bytes -> Core).

(** An insertion counts one saved event when it brings one, and never a deletion. *)
Lemma abstract_insert_came ix e :
  wf_index core_of ix -> genuine core_of e ->
  came (by_id ix) (Abstract.events (Abstract.insert (abs ix) e).1)
  = match (Abstract.insert (abs ix) e).2 with Inserted _ => 1%Z | _ => 0%Z end.
Proof.
  intros Hwf He. unfold Abstract.insert. cbn [Abstract.events Abstract.dead abs].
  destruct (Spec.contains _ _); [apply came_refl|].
  destruct (Abstract.slot_of (by_id ix) e) as [old|] eqn:Es.
  - destruct (slot_owner_only core_of _ _ _ Hwf He Es) as [Hold Honly].
    destruct (Abstract.supersedes e old) eqn:Esup; [|apply came_refl].
    assert (ev_id e <> ev_id old) as Hne.
    { intros Heq. destruct (wf_by_id _ _ Hwf _ _ Hold) as [_ Ho].
      unfold genuine in He, Ho. rewrite Heq, <- Ho in He. injection He as _ Hat _ _.
      revert Esup. unfold Abstract.supersedes. rewrite Heq, Hat.
      fold (Abstract.supersedes old old). by rewrite supersedes_irrefl. }
    apply (came_one _ _ (ev_id e)); cbn [fst Abstract.events].
    + apply not_elem_of_dom. by apply Honly.
    + rewrite dom_insert_L. set_solver.
    + rewrite dom_insert_L, dom_delete_L. set_solver.
  - destruct (by_id ix !! ev_id e) as [x|] eqn:Ex; cbn [fst snd Abstract.events].
    + apply came_sub. rewrite dom_insert_L. apply elem_of_dom_2 in Ex. set_solver.
    + apply (came_one _ _ (ev_id e)); [by apply not_elem_of_dom|rewrite dom_insert_L; set_solver..].
Qed.

Lemma store_insert_counts delay st e :
  wf_index core_of (st_index st) -> genuine core_of e ->
  let '(st', _, cs) := store_insert_metered delay st e in
  count EVENTS_SAVED cs = came (by_id (st_index st)) (by_id (st_index st'))
  /\ count EVENTS_DELETED cs = 0%Z.
Proof.
  intros Hwf He. unfold store_insert_metered.
  destruct (is_ephemeral e); [by rewrite came_refl; count_closed|].
  pose proof (abstract_insert_came _ _ Hwf He) as Hc.
  rewrite <- (insert_refines core_of) in Hc by done. cbn [fst snd abs Abstract.events] in Hc.
  destruct (index_insert (st_index st) e) as [ix []]; cbn [fst snd] in *;
    cbn [with_wal with_index st_index]; rewrite Hc; by count_closed.
Qed.
End Stored.

(** * An event, from the store to the subscribers *)

Section Moves.
Context `{HexCrate, MessageJson, Channel}.
Variable set_order : gset bytes -> list bytes.

Lemma publish_only clock ev fo : only router_metrics (publish_metered clock ev fo).2.
Proof.
  apply metered_fold_only. intros fo' id. unfold deliver_to_metered. case_match; [|constructor].
  assert (only router_metrics (deliver_metered clock ev c).2) as Ho; [|by destruct (deliver_metered _ _ _)].
  apply metered_fold_only. intros c' [sub_id filters]. unfold deliver_sub_metered.
  case_match; [constructor|]. case_match; [metric_in|].
  unfold record_drop_metered. destruct (c_drop_window c') as [start drops].
  destruct (bool_decide (sub_id ∈ c_overflow c'));
    destruct (if (_ >? _)%Z then _ else _) as [window over]; metric_in.
Qed.

Lemma apply_deletion_only st ids coordinates author until :
  only store_metrics (apply_deletion_metered st ids coordinates author until).2.
Proof.
  assert (forall s id, only store_metrics (delete_recorded_metered s id).2) as Hrec.
  { intros [st' o] id. unfold delete_recorded_metered, delete_by_id_metered.
    destruct (internal_remove _ _ _) as [ix [e|]]; metric_in. }
  pose proof (metered_fold_only store_metrics (delete_id_metered author) ids (st, outcome_default)) as H1'.
  unfold apply_deletion_metered. destruct (metered_fold _ ids _) as [s1 cs1].
  pose proof (metered_fold_only store_metrics (delete_coordinate_metered author until) coordinates s1) as H2'.
  destruct (metered_fold _ coordinates _) as [s2 cs2]. cbn [fst snd] in *. apply only_app.
  - apply H1'. intros s id. unfold delete_id_metered. case_match; [|constructor].
    case_match; [done|constructor].
  - apply H2'. intros s c. unfold delete_coordinate_metered. case_match; [constructor|].
    case_match; [constructor|]. by apply metered_fold_only.
Qed.

Lemma store_insert_only delay st e : only store_metrics (store_insert_metered delay st e).2.
Proof.
  unfold store_insert_metered. case_match; [constructor|].
  destruct (index_insert (st_index st) e) as [ix [r| | |]]; metric_in.
Qed.

(** What handling an event does to the router's totals. *)
Record moved (r : Relay) (cs : calls) (r' : Relay) : Prop := {
  mv_router : sane (r_fanout r) ->
    sane (r_fanout r') /\ grows (totals (r_fanout r)) cs (totals (r_fanout r'));
  mv_only : only (store_metrics ++ router_metrics) cs;
}.

Lemma moved_trans r1 cs1 r2 cs2 r3 :
  moved r1 cs1 r2 -> moved r2 cs2 r3 -> moved r1 (cs1 ++ cs2) r3.
Proof.
  intros [R1 O1] [R2 O2]. split; [|by apply only_app].
  intros Hs. destruct (R1 Hs) as [Hs2 G1]. destruct (R2 Hs2) as [Hs3 G2].
  split; [done|by eapply grows_trans].
Qed.

Lemma only_weaken ms ms' cs : (forall m, m ∈ ms -> m ∈ ms') -> only ms cs -> only ms' cs.
Proof. intros Hm Ho. eapply Forall_impl; [exact Ho|]. auto. Qed.

Lemma grows_store x cs : only store_metrics cs -> grows x cs x.
Proof.
  intros Ho.
  assert (forall m, m ∈ router_metrics -> count m cs = 0%Z) as Hc.
  { intros m Hm. eapply only_count; [exact Ho|]. set_solver. }
  split; rewrite ?(Hc EVENTS_OUTPUT), ?(Hc EVENTS_DROPPED), ?(Hc SUBS_OVERFLOWED) by set_solver;
    rewrite ?Z.sub_diag; [apply wraps_refl..|lia|done].
Qed.

Lemma moved_store st st' fo cs :
  only store_metrics cs -> moved (mkRelay st fo) cs (mkRelay st' fo).
Proof.
  intros Ho. split.
  - intros Hs. split; [done|]. by apply grows_store.
  - eapply only_weaken; [|done]. intros m. rewrite elem_of_app. by left.
Qed.

Lemma moved_published clock e r :
  moved r (published_metered clock e r).2 (published_metered clock e r).1.
Proof.
  unfold published_metered.
  pose proof (publish_grows clock (broadcast_new e) (r_fanout r)) as Hg.
  pose proof (publish_only clock (broadcast_new e) (r_fanout r)) as Ho.
  destruct (publish_metered _ _ _) as [fo cs]. cbn [fst snd] in *. split; [done|].
  eapply only_weaken; [|done]. intros m. rewrite elem_of_app. by right.
Qed.

Lemma moved_refl r : moved r [] r.
Proof. split; [|constructor]. intros Hs. split; [done|apply grows_refl]. Qed.

(** A publication leaves the store alone, and is counted as neither saved nor
    deleted. *)
Lemma published_counts clock e r :
  let '(r', cs) := published_metered clock e r in
  r_store r' = r_store r /\ count EVENTS_SAVED cs = 0%Z /\ count EVENTS_DELETED cs = 0%Z.
Proof.
  unfold published_metered. pose proof (publish_only clock (broadcast_new e) (r_fanout r)) as Ho.
  destruct (publish_metered _ _ _) as [fo cs].
  split_and!; [done|eapply only_count; [exact Ho|set_solver]..].
Qed.

(** Publish, or not, after what was done to the store. *)
Definition and_published (cs : calls) (r : Relay) (cs' : calls) (r' : Relay) : Prop :=
  (r' = r /\ cs' = cs)
  \/ exists clock e, r' = (published_metered clock e r).1
       /\ cs' = cs ++ (published_metered clock e r).2.

Lemma and_published_moved r0 cs r cs' r' :
  moved r0 cs r -> and_published cs r cs' r' -> moved r0 cs' r'.
Proof.
  intros Hm [[-> ->]|(clock & e & -> & ->)]; [done|].
  eapply moved_trans; [exact Hm|]. apply moved_published.
Qed.

Lemma and_published_counts cs r cs' r' :
  and_published cs r cs' r' ->
  r_store r' = r_store r /\ count EVENTS_SAVED cs' = count EVENTS_SAVED cs
  /\ count EVENTS_DELETED cs' = count EVENTS_DELETED cs.
Proof.
  intros [[-> ->]|(clock & e & -> & ->)]; [done|]. pose proof (published_counts clock e r) as Hp.
  destruct (published_metered clock e r) as [r2 cs2]. destruct Hp as (Hst & Hs & Hd).
  rewrite !count_app. cbn [fst snd]. split_and!; [done|lia..].
Qed.

Lemma deletion_shape delay clock ev r r' reply cs :
  apply_deletion_request_metered set_order delay clock ev r = Ret (r', reply, cs) ->
  (r' = r /\ cs = []) \/
  store_contains (r_store r) (ev_id ev) = false /\ is_tombstoned (st_index (r_store r)) (ev_id ev) = false
  /\ exists ids coordinates st1 o cs1 st2 res cs2,
       apply_deletion_metered (r_store r) ids coordinates (ev_pubkey ev) (ev_created_at ev) = (st1, o, cs1)
       /\ store_insert_metered delay st1 ev = (st2, res, cs2)
       /\ and_published (cs1 ++ [IncDeletionRequests] ++ cs2) (mkRelay st2 (r_fanout r)) cs r'.
Proof.
  unfold apply_deletion_request_metered. case_match; [intros [= <- _ <-]; by left|].
  case_match; [intros [= <- _ <-]; by left|].
  destruct (deletion_request ev) as [req|]; [|done]. cbn [panicky_bind].
  destruct (apply_deletion_metered _ _ _ _ _) as [[st1 o] cs1] eqn:E1.
  destruct (store_insert_metered _ _ _) as [[st2 res] cs2] eqn:E2.
  intros Hr. right. split; [done|]. split; [done|].
  exists (set_order (dr_ids req)), (dr_coordinates req), st1, o, cs1, st2, res, cs2.
  split; [done|]. split; [done|]. unfold and_published.
  destruct res as [| | |event replaced]; try (injection Hr as <- _ <-; by left).
  all: match type of Hr with context [published_metered _ ?e _] =>
         right; exists clock, e end; by destruct (published_metered _ _ _); injection Hr as <- _ <-.
Qed.

Lemma event_shape delay clock text r r' reply cs :
  process_event_message_metered set_order delay clock text r = Ret (r', reply, cs) ->
  (deletes (Handles text) = false /\ r' = r /\ cs = [])
  \/ exists sub_id ev, msg_from_json text = Ok (MEvent sub_id ev) /\
       if is_deletion_request ev
       then exists reply, apply_deletion_request_metered set_order delay clock ev r = Ret (r', reply, cs)
       else exists st1 res cs1, store_insert_metered delay (r_store r) ev = (st1, res, cs1)
              /\ and_published cs1 (mkRelay st1 (r_fanout r)) cs r'.
Proof.
  unfold process_event_message_metered, deletes.
  destruct (msg_from_json text) as [[sub_id ev| | | | | |]|] eqn:Et;
    try (intros [= <- _ <-]; by left).
  intros Hr. right. exists sub_id, ev. split; [done|]. destruct (is_deletion_request ev).
  - destruct (apply_deletion_request_metered _ _ _ _ _) as [[[r1 s] cs1]|] eqn:E; [|done].
    injection Hr as <- _ <-. by eexists.
  - destruct (store_insert_metered _ _ _) as [[st1 res] cs1] eqn:E.
    exists st1, res, cs1. split; [done|]. unfold and_published.
    destruct res as [| | |event replaced]; try (injection Hr as <- _ <-; by left).
    all: match type of Hr with context [published_metered _ ?e _] =>
           right; exists clock, e end; by destruct (published_metered _ _ _); injection Hr as <- _ <-.
Qed.

Lemma moved_event delay clock text r r' reply cs :
  process_event_message_metered set_order delay clock text r = Ret (r', reply, cs) -> moved r cs r'.
Proof.
  intros [(_ & -> & ->)|(sub_id & ev & _ & Hev)]%event_shape; [apply moved_refl|].
  destruct r as [st fo]. cbn [r_store r_fanout] in *. destruct (is_deletion_request ev).
  - destruct Hev as [reply' [[-> ->]|(_ & _ & ids & coords & st1 & o & cs1 & st2 & res & cs2 & E1 & E2 & Hp)]%deletion_shape];
      [apply moved_refl|].
    eapply and_published_moved; [|exact Hp]. apply moved_store. cbn [r_store r_fanout] in *.
    pose proof (apply_deletion_only st ids coords (ev_pubkey ev) (ev_created_at ev)) as O1.
    pose proof (store_insert_only delay st1 ev) as O2. rewrite E1 in O1. rewrite E2 in O2.
    apply only_app; [done|]. apply only_app; [metric_in|done].
  - destruct Hev as (st1 & res & cs1 & E & Hp). eapply and_published_moved; [|exact Hp].
    apply moved_store. pose proof (store_insert_only delay st ev) as O. by rewrite E in O.
Qed.
End Moves.

(** * The events that come and go are those counted *)

Section EventCounts.
Context `{HexLaws, MessageJsonLaws, Channel} (core_of : bytes -> Core).
Variable set_order : gset bytes -> list bytes.
Hypothesis collision_free : forall raw e, from_json raw = Ok e -> genuine core_of e.
Abbreviation stored r := (by_id (st_index (r_store r))).

Lemma deletion_counts delay clock ev r r' reply cs :
  is_deletion_request ev = true -> genuine core_of ev -> relay_ok core_of r ->
  apply_deletion_request_metered set_order delay clock ev r = Ret (r', reply, cs) ->
  count EVENTS_SAVED cs = came (stored r) (stored r')
  /\ count EVENTS_DELETED cs = came (stored r') (stored r).
Proof.
  intros Hk He [Hwf Hz _] [[-> ->]|(Hnew & Hlive & ids & coords & st1 & o & cs1 & st2 & res & cs2 & E1 & E2 & Hp)]%deletion_shape;
    [by rewrite !came_refl|].
  destruct (and_published_counts _ _ _ _ Hp) as (-> & -> & ->). cbn [r_store].
  apply bool_decide_eq_false in Hnew. unfold index_get in Hnew. apply eq_None_not_Some in Hnew.
  unfold is_tombstoned in Hlive. rewrite tombs_contains_spec in Hlive by apply Hwf.
  apply bool_decide_eq_false in Hlive.
  pose proof (apply_deletion_left core_of (r_store r) ids coords (ev_pubkey ev) (ev_created_at ev) Hwf Hz) as HL.
  pose proof (apply_deletion_counts (r_store r) ids coords (ev_pubkey ev) (ev_created_at ev)) as HC.
  pose proof (apply_deletion_plain (r_store r) ids coords (ev_pubkey ev) (ev_created_at ev)) as HP.
  rewrite E1 in HC, HP. cbn [fst] in HP. rewrite <- HP in HL. cbn [fst snd] in HL.
  destruct HL as [Lwf _ Lsub _ _ Ltom Lcount]. destruct HC as [HD HS].
  destruct (deletion_kind ev Hk) as [Heph Hrep].
  assert (by_id (st_index st1) !! ev_id ev = None) as Hnew1.
  { destruct (by_id (st_index st1) !! ev_id ev) as [x|] eqn:Hx; [|done]. apply Lsub in Hx. congruence. }
  assert (ev_id ev ∉ tombs_abs (tombstones (st_index st1))) as Hlive1.
  { intros [?|[x Hx]]%Ltom; [done|congruence]. }
  pose proof (store_insert_counts core_of delay st1 ev Lwf He) as HI.
  pose proof (store_insert_plain delay st1 ev) as HQ.
  pose proof (store_insert_abs core_of st1 ev Lwf He Heph) as HA. rewrite E2 in HI, HQ. cbn [fst] in HQ.
  rewrite <- HQ, abstract_insert_fresh in HA by done. destruct HA as (_ & HA & _).
  apply (f_equal Abstract.events) in HA. cbn in HA. destruct HI as [HIs HId].
  rewrite !count_app, HIs, HId, HS, HD. count_closed.
  assert (dom (by_id (st_index st2)) = {[ev_id ev]} ∪ dom (by_id (st_index st1))) as Hdom
    by by rewrite HA, dom_insert_L.
  pose proof (dom_sub _ _ Lsub) as Hsub.
  apply not_elem_of_dom in Hnew. apply not_elem_of_dom in Hnew1.
  rewrite (came_through _ _ _ _ Hsub Hdom Hnew).
  rewrite (came_one (by_id (st_index st1)) _ (ev_id ev)) by set_solver.
  rewrite (came_one (stored r) _ (ev_id ev)) by set_solver.
  pose proof (came_sizes (stored r) (by_id (st_index st1))) as Hsz. rewrite (came_sub _ _ Hsub) in Hsz. lia.
Qed.

Lemma event_counts delay clock text r r' reply cs :
  relay_ok core_of r ->
  process_event_message_metered set_order delay clock text r = Ret (r', reply, cs) ->
  count EVENTS_SAVED cs = came (stored r) (stored r')
  /\ count EVENTS_DELETED cs = if deletes (Handles text) then came (stored r') (stored r) else 0%Z.
Proof.
  intros Hok [(-> & -> & ->)|(sub_id & ev & Et & Hev)]%event_shape; [by rewrite !came_refl|].
  pose proof (event_genuine core_of collision_free text sub_id ev Et) as He.
  cbn [deletes]. rewrite Et. destruct (is_deletion_request ev) eqn:Hk.
  - destruct Hev as [reply' Hev]. by eapply deletion_counts.
  - destruct Hev as (st1 & res & cs1 & E & Hp).
    destruct (and_published_counts _ _ _ _ Hp) as (-> & -> & ->). cbn [r_store].
    pose proof (store_insert_counts core_of delay (r_store r) ev (ro_wf _ _ Hok) He) as HI.
    by rewrite E in HI.
Qed.
End EventCounts.
