(* ===== verification/MeteredTruth.v ===== *)
(** The metrics of a process agree with its state: an invariant of every run of
    [Metered.v], step by step, and what [/metrics] shows because of it; and the one
    gauge that can be off for a second. *)
From S2P Require Import Prelude Float Text Collections Event Reference EventProps Deletion Tombstones Index IndexInv IndexSpec IndexQuery Wal Store Recovery Journal Durability Subscription Fanout Message Relay Config Socket SocketInv SocketProps Delivery Startup Metrics Metered MeteredProps.
Open Scope memlay_scope.

(** * A process and its metrics *)

Section Truth.
Context `{HexLaws, MessageJsonLaws, Channel, !Receiver} (core_of : bytes -> Core) (permits : Z).
Variable set_order : gset bytes -> list bytes.
Variable cfg : Config.
Variable iteration_order : list Event -> list Event.
Hypothesis order_perm : forall s, set_order s ≡ₚ elements s.
Hypothesis collision_free : forall raw e, from_json raw = Ok e -> genuine core_of e.
Abbreviation metered := (metered set_order cfg iteration_order).
Abbreviation metered_run := (metered_run set_order cfg iteration_order).

Abbreviation stored sv := (by_id (st_index (r_store (sv_relay sv)))).

(** Equal up to wraps of a 64-bit counter. *)
Definition cong (a b : Z) : Prop := exists k, a = (b + 2 ^ 64 * k)%Z.

Lemma cong_refl a : cong a a.
Proof. exists 0%Z. lia. Qed.

Lemma cong_wrap a : cong (wrap64 a) a.
Proof.
  exists (- (a / 2 ^ 64))%Z. unfold wrap64. pose proof (Z.div_mod a (2 ^ 64)). lia.
Qed.

Lemma cong_wrapped a b n : a = wrap64 n -> cong a b -> a = wrap64 b.
Proof.
  intros -> [k Hk]. unfold wrap64 in *. rewrite <- Z.mod_mod, Hk by done.
  by rewrite Z.mul_comm, Z.mod_add.
Qed.

(** A step that handles no event: no connection's counters move, and no event is
    stored. *)
Record quiet (sv sv' : Server) : Prop := {
  q_sane : sane (sv_fanout sv) -> sane (sv_fanout sv');
  q_sent : (totals (sv_fanout sv')).1 = (totals (sv_fanout sv)).1;
  q_over : sane (sv_fanout sv) -> ((totals (sv_fanout sv')).2 <= (totals (sv_fanout sv)).2)%Z;
  q_events : dom (stored sv') ⊆ dom (stored sv);
}.

Lemma quiet_trans sv1 sv2 sv3 : quiet sv1 sv2 -> quiet sv2 sv3 -> quiet sv1 sv3.
Proof.
  intros [S1 T1 O1 E1] [S2 T2 O2 E2]. split; [auto|congruence| |set_solver].
  intros Hs. specialize (O1 Hs). specialize (O2 (S1 Hs)). lia.
Qed.

Lemma quiet_views sv sv' :
  sviews sv' = sviews sv -> dom (stored sv') ⊆ dom (stored sv) -> quiet sv sv'.
Proof.
  unfold sviews. intros Hv He. split; [unfold sane; by rewrite Hv|unfold totals; by rewrite Hv| |done].
  intros _. unfold totals. by rewrite Hv.
Qed.

(** What a step of the server does, as its label and its calls say. *)
Record stepped (sv : Server) (cs : calls) (w : work) (sv' : Server) : Prop := {
  sp_sane : sane (sv_fanout sv) -> sane (sv_fanout sv');
  sp_sent : sane (sv_fanout sv) ->
    wraps (count EVENTS_OUTPUT cs - sends w)
      ((totals (sv_fanout sv')).1.1 - (totals (sv_fanout sv)).1.1);
  sp_streamed : (sends w <= count EVENTS_OUTPUT cs)%Z;
  sp_dropped : sane (sv_fanout sv) ->
    wraps (count EVENTS_DROPPED cs) ((totals (sv_fanout sv')).1.2 - (totals (sv_fanout sv)).1.2);
  sp_overflow : sane (sv_fanout sv) ->
    ((totals (sv_fanout sv')).2 <= (totals (sv_fanout sv)).2 + count SUBS_OVERFLOWED cs)%Z
    /\ (count SUBS_OVERFLOWED cs <= count EVENTS_DROPPED cs)%Z;
  sp_saved : count EVENTS_SAVED cs = came (stored sv) (stored sv');
  sp_deleted : count EVENTS_DELETED cs = if deletes w then came (stored sv') (stored sv) else 0%Z;
  sp_gauge : Forall (fun c => call_metric c <> ACTIVE_CONNECTIONS) cs;
  sp_count : cong (sv_count sv')
    (sv_count sv + match w with Connects => 1 | Disconnects => -1 | _ => 0 end);
  sp_work : match w with Enters | Leaves | Loads | Sets => False | _ => True end;
}.

Definition quiet_metrics : list Metric :=
  [EVENTS_OUTPUT; IDLE_DISCONNECTS; TTEOSE; DISK_PERSISTENCE_TIME].

Lemma only_gauge ms cs :
  ACTIVE_CONNECTIONS ∉ ms -> only ms cs -> Forall (fun c => call_metric c <> ACTIVE_CONNECTIONS) cs.
Proof. intros Hm Ho. eapply Forall_impl; [exact Ho|]. cbn. intros c Hc Heq. by rewrite Heq in Hc. Qed.

Lemma quiet_stepped sv cs w sv' :
  quiet sv sv' -> only quiet_metrics cs -> count EVENTS_OUTPUT cs = sends w ->
  cong (sv_count sv') (sv_count sv + match w with Connects => 1 | Disconnects => -1 | _ => 0 end) ->
  match w with Handles _ | Enters | Leaves | Loads | Sets => False | _ => True end ->
  stepped sv cs w sv'.
Proof.
  intros [S T O E] Ho Hs Hc Hw.
  assert (forall m, m ∉ quiet_metrics -> count m cs = 0%Z) as Hz.
  { intros m. by apply only_count. }
  unfold quiet_metrics in Hz.
  split; rewrite ?T, ?(Hz EVENTS_DROPPED), ?(Hz SUBS_OVERFLOWED), ?(Hz EVENTS_SAVED), ?(Hz EVENTS_DELETED)
    by set_solver; try done.
  - intros _. rewrite Hs, !Z.sub_diag. apply wraps_refl.
  - by rewrite Hs.
  - intros _. rewrite Z.sub_diag. apply wraps_refl.
  - intros Hsane. specialize (O Hsane). lia.
  - by rewrite came_sub.
  - by destruct w.
  - eapply only_gauge; [|exact Ho]. unfold quiet_metrics. set_solver.
  - by destruct w.
Qed.

Lemma silent_stepped sv sv' :
  quiet sv sv' -> sv_count sv' = sv_count sv -> stepped sv [] Works sv'.
Proof.
  intros Hq Hc. apply quiet_stepped; [done|constructor|done| |done].
  rewrite Hc, Z.add_0_r. apply cong_refl.
Qed.

(** A connection that begins, and one that ends. *)
Lemma connect_stepped tx now sv :
  fanout_ok (sv_fanout sv) -> stepped sv [] Connects (connect tx now sv).
Proof.
  intros Hf. pose proof (views_register_fresh tx now _ Hf) as Hn.
  pose proof (views_register tx now (sv_fanout sv)) as Hv.
  assert (views (sv_fanout (connect tx now sv)) = views (register tx now (sv_fanout sv)).1) as Hv'.
  { unfold connect. by destruct (register tx now (sv_fanout sv)). }
  rewrite Hv in Hv'.
  apply quiet_stepped; [|constructor|done| |done].
  - split; [| | |unfold connect; by destruct (register _ _ _)].
    + intros Hs i x. rewrite Hv'. intros [[<- <-]|[_ Hx]]%lookup_insert_Some; [done|by apply (Hs i)].
    + unfold totals. by rewrite Hv', !total_insert by done.
    + intros _. unfold totals. cbn [snd]. rewrite Hv', total_insert by done. cbn. lia.
  - unfold connect. destruct (register _ _ _). apply cong_wrap.
Qed.

Lemma quiet_disconnect id sv : quiet sv (disconnect id sv).
Proof. apply quiet_views; [apply sviews_disconnect|done]. Qed.

Lemma disconnect_stepped sv sv' cs id :
  quiet sv sv' -> sv_count sv' = sv_count sv -> only [IDLE_DISCONNECTS] cs ->
  stepped sv cs Disconnects (disconnect id sv').
Proof.
  intros Hq Hc Ho. apply quiet_stepped; [| | | |done].
  - eapply quiet_trans; [exact Hq|apply quiet_disconnect].
  - eapply only_weaken; [|exact Ho]. unfold quiet_metrics. set_solver.
  - by apply (only_count _ _ _ Ho); set_solver.
  - cbn [disconnect sv_count]. rewrite Hc. apply cong_wrap.
Qed.

Lemma notified_stepped sv id c :
  fo_states (sv_fanout sv) !! id = Some c ->
  stepped sv [] (if c_kill c then Disconnects else Works) (handle_notified id sv).
Proof.
  intros Ec. unfold handle_notified. rewrite Ec. cbn [take_overflowed].
  set (c' := mkConn _ _ _ _ _ _ _ _ _ _). set (sv2 := foldl _ _ _).
  pose proof (views_lookup _ _ _ Ec) as Hl.
  assert (sv_count sv2 = sv_count sv /\ stored sv2 = stored sv) as [Hn Hh].
  { unfold sv2. apply (foldl_ind (fun sv' => sv_count sv' = sv_count sv /\ stored sv' = stored sv));
      [done|]. intros sv' rid _ IH. unfold close_overflowed. destruct (sv_loops sv' !! id); exact IH. }
  assert (views (sv_fanout sv2) = <[id := view c']> (views (sv_fanout sv))) as Hv.
  { change (sviews sv2 = <[id := view c']> (views (sv_fanout sv))). unfold sv2.
    rewrite sviews_overflowed. unfold sviews. apply views_with_state. }
  assert (quiet sv sv2) as Hq.
  { split; [| | |by rewrite Hh].
    - intros Hs i x. rewrite Hv. pose proof (Hs id _ Hl) as (P1 & P2 & P3).
      intros [[<- <-]|[_ Hx]]%lookup_insert_Some; [done|by apply (Hs i)].
    - unfold totals. rewrite Hv, !(total_update _ _ _ _ _ Hl). cbn. f_equal; lia.
    - intros Hs. pose proof (Hs id _ Hl) as (P1 & P2 & P3).
      unfold totals. rewrite Hv. cbn [snd]. rewrite (total_update _ _ _ _ _ Hl). cbn in *. lia. }
  destruct (c_kill c); [by apply disconnect_stepped; [| |constructor]|by apply silent_stepped].
Qed.

(** Neither do the background tasks add events. *)
Lemma run_task_stored t n sys sys' :
  store_ok core_of (sys_store sys) -> run_task iteration_order t n sys = Ret sys' ->
  dom (by_id (st_index (sys_store sys'))) ⊆ dom (by_id (st_index (sys_store sys))).
Proof.
  intros Hok Hr. destruct t; cbn [run_task] in Hr.
  - injection Hr as <-. unfold rss_tick, sample_amplification. cbn. by case_match.
  - destruct (maybe_evict_spec core_of (sys_store sys)) as (st' & E & _ & _ & _ & _ & Hsub & _);
      [apply Hok|]. rewrite E in Hr. injection Hr as <-. by apply dom_sub.
  - destruct (st_wal (sys_store sys)); by injection Hr as <-.
  - injection Hr as <-. by rewrite maybe_checkpoint_index.
  - by injection Hr as <-.
Qed.

Lemma persist_only time flr fls sys :
  only [DISK_PERSISTENCE_TIME] (maybe_checkpoint_metered iteration_order time flr fls sys).2.
Proof.
  unfold maybe_checkpoint_metered, save_to_disk_metered, checkpoint_metered.
  repeat case_match; cbn [snd]; metric_in.
Qed.

Lemma req_turn_facts time id rid sv sv' cs :
  req_turn_metered time id rid sv = Some (sv', cs) ->
  sviews sv' = sviews sv /\ sv_count sv' = sv_count sv /\ stored sv' = stored sv
  /\ if has_frame id rid sv then cs = [IncEventsOutput] else cs = [] \/ cs = [ObserveTteose time].
Proof.
  unfold req_turn_metered, has_frame.
  destruct (sv_loops sv !! id) as [k|]; [|done].
  destruct (fo_states (sv_fanout sv) !! id) as [c|] eqn:Ec; [|done].
  cbn [fmap option_fmap option_map]. destruct (k_tasks k !! rid) as [[t|]|]; [|done..].
  destruct (task_turn_metered _ _ _ _ _) as [[[t' tx] cs']|] eqn:Et; [|done].
  intros [= <- <-]. split_and!; [|done|done|].
  - unfold sviews. cbn. by apply (views_same _ c).
  - unfold task_turn_metered in Et. repeat case_match; simplify_eq; auto.
Qed.

Lemma req_stepped time id rid sv sv' cs :
  req_turn_metered time id rid sv = Some (sv', cs) ->
  stepped sv cs (if has_frame id rid sv then Streams else Works) sv'.
Proof.
  intros (Hv & Hn & Hh & Hcs)%req_turn_facts.
  assert (quiet sv sv') as Hq by (apply quiet_views; [done|by rewrite Hh]).
  destruct (has_frame id rid sv); [rewrite Hcs|destruct Hcs as [->| ->]];
    (apply quiet_stepped; [done|metric_in|done|rewrite Hn, Z.add_0_r; apply cong_refl|done]).
Qed.

Lemma text_counts id text sv :
  sv_count (handle_text cfg id text sv) = sv_count sv
  /\ stored (handle_text cfg id text sv) = stored sv.
Proof.
  unfold handle_text, handle_req, handle_close, handle_other. repeat case_match; done.
Qed.

(** Handling an event. *)
Lemma moved_stepped sv cs text sv' :
  moved (sv_relay sv) cs (sv_relay sv') -> sv_count sv' = sv_count sv ->
  count EVENTS_SAVED cs = came (stored sv) (stored sv') ->
  count EVENTS_DELETED cs = (if deletes (Handles text) then came (stored sv') (stored sv) else 0%Z) ->
  stepped sv cs (Handles text) sv'.
Proof.
  intros [Hr Ho] Hc Hs Hd. unfold sv_fanout in *. split; unfold sv_fanout; try done.
  all: try (intros Hsane; destruct (Hr Hsane) as [S' [Gs Gd Go Gl]]).
  - done.
  - cbn [sends]. by rewrite Z.sub_0_r.
  - apply count_nonneg.
  - done.
  - split; [lia|done].
  - eapply only_gauge; [|exact Ho]. cbn. set_solver.
  - rewrite Hc, Z.add_0_r. apply cong_refl.
Qed.

Lemma event_stepped delay clock sv pre post id text :
  relay_ok core_of (sv_relay sv) ->
  let '(sv', cs) := run_event_metered set_order delay clock sv pre post id text in
  stepped sv cs (Handles text) sv'.
Proof.
  intros Hok. unfold run_event_metered.
  destruct (process_event_message_metered _ _ _ _ _) as [[[r o] cs]|] eqn:E.
  - pose proof (moved_event _ _ _ _ _ _ _ _ E) as Hm.
    destruct (event_counts core_of set_order collision_free _ _ _ _ _ _ _ Hok E) as [Hs Hd].
    destruct o; by apply moved_stepped.
  - apply moved_stepped; cbn [sv_relay sv_count]; rewrite ?came_refl; [apply moved_refl|done|done|].
    by destruct (deletes _).
Qed.

(** Every step of the server. *)
Lemma metered_stepped p cs w p' :
  metered p cs w p' -> server_ok cfg core_of permits p.1 -> stepped p.1 cs w p'.1.
Proof.
  intros Hm Hok. pose proof (server_store_ok core_of cfg permits _ Hok) as Hst.
  pose proof (so_relay _ _ _ _ Hok) as Hrel.
  destruct Hm; cbn [fst] in *.
  - apply connect_stepped, Hrel.
  - destruct (text_counts id text sv) as [Hn Hh].
    apply silent_stepped; [|done]. apply quiet_views; [apply sviews_text|by rewrite Hh].
  - apply silent_stepped; [|unfold handle_binary; by case_match].
    apply quiet_views; [apply sviews_binary|unfold handle_binary; by case_match].
  - apply disconnect_stepped; [by apply quiet_views|done|constructor].
  - by apply notified_stepped.
  - apply disconnect_stepped; [apply quiet_views; [apply sviews_send|done]|done|metric_in].
  - apply silent_stepped; [by apply quiet_views|done].
  - pose proof (event_stepped delay clock sv pre post id text Hrel) as He.
    by destruct (run_event_metered _ _ _ _ _ _ _ _).
  - apply silent_stepped; [|done]. apply quiet_views; [|done].
    unfold sviews. cbn. by apply (views_same _ c).
  - apply silent_stepped; [by apply quiet_views|done].
  - by eapply req_stepped.
  - apply silent_stepped; [|done]. apply quiet_views; [|done].
    unfold sviews. cbn. by apply (views_same _ c).
  - apply silent_stepped; [|done]. apply quiet_views; [done|].
    apply (run_task_stored Eviction (mkTurn 0 no_faults no_faults) (system_of sv snap)
      (on_store (fun _ => st) (system_of sv snap)) Hst). cbn [run_task system_of sys_store].
    by match goal with Hr : maybe_evict _ = _ |- _ => rewrite Hr end.
  - match goal with Hr : run_task _ _ _ _ = _ |- _ =>
      pose proof (run_task_stored _ _ (system_of sv snap) _ Hst Hr) as Hh end.
    apply silent_stepped; [by apply quiet_views|done].
  - match goal with Hr : maybe_checkpoint_metered _ ?a ?b ?c ?d = _ |- _ =>
      pose proof (persist_only a b c d) as Ho; rewrite Hr in Ho;
      pose proof (maybe_checkpoint_plain iteration_order a b c d) as Hp; rewrite Hr in Hp;
      pose proof (maybe_checkpoint_index iteration_order b c d) as Hi; rewrite <- Hp in Hi end.
    cbn [fst snd] in *. apply quiet_stepped; [| | |rewrite Z.add_0_r; apply cong_refl|done].
    + apply quiet_views; [done|]. cbn [with_store with_relay sv_relay r_store]. by rewrite Hi.
    + eapply only_weaken; [|exact Ho]. unfold quiet_metrics. set_solver.
    + apply (only_count _ _ _ Ho). set_solver.
Qed.

(** * The history of a run *)

(** The calls of a run so far and its history, against the process it has reached. *)
Record truthful (len0 : Z) (cs : calls) (l : Ledger) (p : process) : Prop := {
  tr_sane : sane (sv_fanout p.1.1);
  tr_sent : wraps (count EVENTS_OUTPUT cs - lg_sent l) (totals (sv_fanout p.1.1)).1.1;
  tr_streamed : (0 <= lg_sent l <= count EVENTS_OUTPUT cs)%Z;
  tr_dropped : wraps (count EVENTS_DROPPED cs) (totals (sv_fanout p.1.1)).1.2;
  tr_overflow : ((totals (sv_fanout p.1.1)).2 <= count SUBS_OVERFLOWED cs <= count EVENTS_DROPPED cs)%Z;
  tr_saved : count EVENTS_SAVED cs = lg_stored l;
  tr_deleted : count EVENTS_DELETED cs = lg_deleted l;
  tr_held : (Z.of_nat (size (events_of p)) + lg_lost l = len0 + lg_stored l)%Z;
  tr_gauge : cong (sv_count p.1.1)
    (tally cs ACTIVE_CONNECTIONS + g_between p.2 - lg_drift l);
  tr_loaded : forall v, g_loaded p.2 = Some v ->
    cong (sv_count p.1.1) (v + g_between p.2 - lg_next l);
}.

Lemma tally_other cs cs' m :
  Forall (fun c => call_metric c <> m) cs' -> tally (cs ++ cs') m = tally cs m.
Proof.
  intros Ho. induction cs' as [|c cs' IH] using rev_ind; [by rewrite app_nil_r|].
  apply Forall_app in Ho as [Ho Hc]. rewrite Forall_singleton in Hc.
  rewrite app_assoc, tally_snoc, IH by done. by rewrite decide_False.
Qed.

Lemma cong_step a b a' b' d : cong a b -> cong a' (a + d) -> (b' = b + d)%Z -> cong a' b'.
Proof. intros [k ->] [k' ->] ->. exists (k + k')%Z. lia. Qed.

Lemma cong_eq a b b' : cong a b -> b' = b -> cong a b'.
Proof. by intros ? ->. Qed.

(** A step of the server. *)
Lemma truthful_server len0 cs l p g cs' w p' :
  truthful len0 cs l (p, g) -> stepped p.1 cs' w p'.1 ->
  truthful len0 (cs ++ cs') (book l (p, g) w (p', gauge_work w g)) (p', gauge_work w g).
Proof.
  intros [S W N D O Sv De He G L] [S' W' N' D' O' Sv' De' G' C' Hw]. cbn [fst snd] in *.
  specialize (S' S). specialize (W' S). specialize (D' S). specialize (O' S) as [O1 O2].
  assert (book l (p, g) w (p', gauge_work w g) = mkLedger (lg_sent l + sends w)
    (lg_stored l + came (stored p.1) (stored p'.1)) (lg_lost l + came (stored p'.1) (stored p.1))
    (lg_deleted l + (if deletes w then came (stored p'.1) (stored p.1) else 0))
    (lg_next l) (lg_drift l)) as -> by by destruct w.
  split; cbn [lg_sent lg_stored lg_lost lg_deleted lg_next lg_drift fst snd]; rewrite ?count_app.
  - done.
  - replace (totals (sv_fanout p'.1)).1.1 with ((totals (sv_fanout p.1)).1.1
      + ((totals (sv_fanout p'.1)).1.1 - (totals (sv_fanout p.1)).1.1))%Z by lia.
    replace (_ + _ - _)%Z with (count EVENTS_OUTPUT cs - lg_sent l + (count EVENTS_OUTPUT cs' - sends w))%Z by lia.
    by apply wraps_add.
  - destruct w; cbn [sends] in *; lia.
  - replace (totals (sv_fanout p'.1)).1.2 with ((totals (sv_fanout p.1)).1.2
      + ((totals (sv_fanout p'.1)).1.2 - (totals (sv_fanout p.1)).1.2))%Z by lia.
    by apply wraps_add.
  - lia.
  - by rewrite Sv, Sv'.
  - by rewrite De, De'.
  - unfold events_of in *. cbn [fst] in *. pose proof (came_sizes (stored p.1) (stored p'.1)). lia.
  - rewrite (tally_other _ _ _ G'). eapply cong_step; [exact G|exact C'|].
    destruct w; unfold g_between in *; cbn [gauge_work g_entering g_leaving fst snd] in *; lia.
  - intros v Hv. eapply cong_step; [apply (L v)|exact C'|].
    + by destruct w.
    + destruct w; unfold g_between in *; cbn [gauge_work g_entering g_leaving fst snd] in *; lia.
Qed.

(** An access to the gauge. *)
Lemma truthful_access len0 cs l p g cs' w g' :
  truthful len0 cs l (p, g) -> Forall (fun c => call_metric c = ACTIVE_CONNECTIONS) cs' ->
  sends w = 0%Z -> deletes w = false ->
  cong (sv_count p.1) (tally (cs ++ cs') ACTIVE_CONNECTIONS + g_between g'
    - lg_drift (book l (p, g) w (p, g'))) ->
  (forall v, g_loaded g' = Some v ->
    cong (sv_count p.1) (v + g_between g' - lg_next (book l (p, g) w (p, g')))) ->
  truthful len0 (cs ++ cs') (book l (p, g) w (p, g')) (p, g').
Proof.
  intros [S W N D O Sv De He _ _] Ho Hs Hd Hg Hl.
  assert (forall m, m <> ACTIVE_CONNECTIONS -> count m cs' = 0%Z) as Hz.
  { intros m Hm. apply (only_count m [ACTIVE_CONNECTIONS]); [|set_solver].
    eapply Forall_impl; [exact Ho|]. cbn. intros c ->. set_solver. }
  split; [..|exact Hg|exact Hl]; unfold book; cbn [lg_sent lg_stored lg_lost lg_deleted fst snd];
    rewrite ?count_app, ?Hz, ?Hs, ?Hd, ?Z.add_0_r by done; try done.
  - rewrite came_refl. lia.
  - unfold events_of in *. cbn [fst] in *. rewrite !came_refl. lia.
Qed.

Lemma process_truthful len0 cs l p cs' w p' :
  process_step set_order cfg iteration_order p cs' w p' -> server_ok cfg core_of permits p.1.1 ->
  truthful len0 cs l p -> truthful len0 (cs ++ cs') (book l p w p') p'.
Proof.
  intros Hp Hok Ht. destruct Hp as [p g cs' w p' Hm|p n lv ld|p en n ld|p en lv ld|p en lv v].
  - apply truthful_server; [done|]. by eapply metered_stepped.
  - pose proof (tr_gauge _ _ _ _ Ht) as G. pose proof (tr_loaded _ _ _ _ Ht) as L.
    apply truthful_access; [done|by repeat constructor|done|done| |]; unfold g_between in *; cbn in *.
    + rewrite tally_snoc, decide_True by done. cbn [call_effect].
      apply (cong_eq _ _ _ G). lia.
    + intros v Hv. apply (cong_eq _ _ _ (L v Hv)). lia.
  - pose proof (tr_gauge _ _ _ _ Ht) as G. pose proof (tr_loaded _ _ _ _ Ht) as L.
    apply truthful_access; [done|by repeat constructor|done|done| |]; unfold g_between in *; cbn in *.
    + rewrite tally_snoc, decide_True by done. cbn [call_effect].
      apply (cong_eq _ _ _ G). lia.
    + intros v Hv. apply (cong_eq _ _ _ (L v Hv)). lia.
  - apply truthful_access; [done|constructor|done|done| |]; unfold g_between in *; cbn in *.
    + rewrite app_nil_r. apply Ht.
    + intros v [= <-]. exists 0%Z. unfold g_between; cbn; lia.
  - pose proof (tr_loaded _ _ _ _ Ht v eq_refl) as L.
    apply truthful_access; [done|by repeat constructor|done|done| |done]; unfold g_between in *; cbn in *.
    rewrite tally_snoc, decide_True by done. exact L.
Qed.

Lemma metered_run_truthful len0 cs0 p0 cs l p :
  metered_run p0 cs l p -> server_ok cfg core_of permits p0.1.1 -> truthful len0 cs0 ledger_new p0 ->
  truthful len0 (cs0 ++ cs) l p /\ server_ok cfg core_of permits p.1.1.
Proof.
  intros Hrun Hok Ht. assert (server_ok cfg core_of permits p.1.1) as Hok'.
  { eapply life_ok; [done|done| |done]. by eapply metered_run_life. }
  split; [clear Hok'|done]. induction Hrun as [|cs l p cs' w p' Hrun IH Hm]; [by rewrite app_nil_r|].
  rewrite app_assoc. eapply process_truthful; [exact Hm| |exact IH].
  eapply life_ok; [done|done| |done]. by eapply metered_run_life.
Qed.
End Truth.

(** What [load_from_disk] may have observed. *)
Definition load_calls (cs : calls) : Prop := cs = [] \/ exists time, cs = [ObserveDiskPersistence time].

Lemma truthful_new `{HexCrate, EventCrates, MessageJson, Channel} permits st load snap :
  load_calls load ->
  truthful (Z.of_nat (size (by_id (st_index st)))) load ledger_new
    (process_new (server_new st permits) snap).
Proof.
  intros Hl. assert (only [DISK_PERSISTENCE_TIME] load) as Ho.
  { destruct Hl as [->|[time ->]]; [constructor|metric_in]. }
  assert (forall m, m <> DISK_PERSISTENCE_TIME -> count m load = 0%Z) as Hz.
  { intros m Hm. eapply only_count; [exact Ho|]. set_solver. }
  split; rewrite ?Hz by done; cbn [process_new fst snd].
  - intros i x. unfold views. cbn. by rewrite fmap_empty, lookup_empty.
  - apply wraps_refl.
  - done.
  - apply wraps_refl.
  - done.
  - done.
  - done.
  - unfold events_of. cbn. lia.
  - change load with ([] ++ load). rewrite tally_other; [apply cong_refl|].
    eapply (only_gauge [DISK_PERSISTENCE_TIME]); [set_solver|done].
  - done.
Qed.

Lemma total_fmap {A B} (g : B -> Z) (f : A -> B) (m : gmap Z A) :
  total g (f <$> m) = total (fun x => g (f x)) m.
Proof.
  induction m as [|i x m Hi IH] using map_ind; [by rewrite fmap_empty|].
  rewrite fmap_insert, !total_insert by (by rewrite ?lookup_fmap, ?Hi). by rewrite IH.
Qed.

(** C18: the metrics tell the truth, at every moment of a process's life: whatever
    clients, connection tasks, background tasks and the gauge's own accesses do, in
    whatever order, from [Relay::new] on, no metrics call panics, and [/metrics]
    shows, compared with the process's states and their history: as saved events
    exactly those that have entered the store since it was loaded, as deleted
    events exactly those that deletion requests have removed from it (so that the
    store holds the loaded and the saved ones but for those lost, by deletion,
    replacement or eviction); as dropped events the sum of what all connections were
    refused; as events output the live events their channels have taken plus the
    stored events that REQ tasks have sent; between the subscriptions now marked as
    overflowed and the dropped events, the overflowed subscriptions; and as active
    connections a number that with those just counted but not yet in the gauge, and
    without those uncounted but still in it, is the number of connections open, but
    for the drift that the collector caused if its last turn caught connections in
    between (none before its first turn; [gauge_counts_twice]). Values stay
    below [2 ^ 53], the connection counter has 64 bits, and the files' records are
    genuine. *)
Theorem metrics_truthful `{HexLaws, MessageJsonLaws, Channel, !Receiver, PrometheusLaws} core_of
    iteration_order set_order cfg h cpus :
  (forall s, set_order s ≡ₚ elements s) ->
  (forall raw e, from_json raw = Ok e -> genuine core_of e) ->
  disk_genuine core_of (h_disk h) ->
  exists r m0, relay_new iteration_order cfg h = Ret r /\ init metrics_new = Ret m0 /\
    let loaded := sys_store (in_events r) in
    forall load cs l p, load_calls load ->
      metered_run set_order cfg iteration_order
        (process_new (server_new loaded (verify_permits cpus)) (sys_snapshot (in_events r))) cs l p ->
      countable (load ++ cs) ->
      exists s, perform_all (load ++ cs) m0 = Ret s /\
        let shows m := value (mt_registry s) (metric_name m) in
        let sv := p.1.1 in
        let conns := fo_states (sv_fanout sv) in
        shows EVENTS_SAVED = Some (lg_stored l)
        /\ shows EVENTS_DELETED = Some (lg_deleted l)
        /\ (Z.of_nat (size (events_of p)) + lg_lost l
             = Z.of_nat (size (by_id (st_index loaded))) + lg_stored l)%Z
        /\ shows EVENTS_DROPPED = Some (total c_dropped conns)
        /\ shows EVENTS_OUTPUT = Some (total c_sent conns + lg_sent l)%Z
        /\ (exists k, shows SUBS_OVERFLOWED = Some k
             /\ total (fun c => Z.of_nat (length (c_overflow c))) conns <= k <= total c_dropped conns)%Z
        /\ exists gauge, shows ACTIVE_CONNECTIONS = Some gauge
             /\ sv_count sv = wrap64 (Z.of_nat (size (sv_loops sv)))
             /\ sv_count sv = wrap64 (gauge + g_between p.2 - lg_drift l).
Proof.
  intros Hord Hcf Hd. destruct (relay_new_ok core_of iteration_order cfg h Hd) as (r & Hr & [Hwf Hz] & _).
  destruct init_exported as (m0 & Hi & Hm0). exists r, m0. split; [done|]. split; [done|].
  intros loaded load cs l p Hload Hrun Hc.
  destruct (perform_all_exported (load ++ cs) [] m0 Hm0 Hc) as (s & Hp & Hs). cbn [app] in Hs.
  edestruct (metered_run_truthful core_of (verify_permits cpus) set_order cfg iteration_order Hord Hcf
    (Z.of_nat (size (by_id (st_index loaded)))) load) as [[S W N Dr O Sv De B G _] Hok];
    [exact Hrun| |by apply truthful_new|].
  { apply server_new_ok; [|done|done].
    unfold verify_permits. pose proof (clamp_range 64 256 (cpus * 32)). lia. }
  exists s. split; [done|]. cbv beta zeta.
  assert (forall g, (forall x, pos x -> 0 <= g x)%Z -> (0 <= total g (views (sv_fanout p.1.1)))%Z) as Hpos.
  { intros g Hg. apply total_nonneg. intros i x Hx. by apply Hg, (S i). }
  assert (forall m, m <> ACTIVE_CONNECTIONS -> exact (count m (load ++ cs))) as Hex.
  { intros m Hm. rewrite <- tally_count by done. by apply Hc. }
  pose proof (wraps_exact _ _ Dr (Hpos (fun x => x.1.2) ltac:(by intros x (_ & ? & _))) (Hex EVENTS_DROPPED ltac:(done))) as Hdr.
  pose proof (Hex EVENTS_OUTPUT ltac:(done)) as Hout.
  pose proof (wraps_exact _ _ W (Hpos (fun x => x.1.1) ltac:(by intros x (? & _ & _))) ltac:(unfold exact in *; lia)) as Hse.
  unfold totals, views in Hdr, Hse, O. cbn [fst snd] in Hdr, Hse, O. rewrite !total_fmap in Hdr, Hse, O.
  change (total c_dropped (fo_states (sv_fanout p.1.1)) = count EVENTS_DROPPED (load ++ cs)) in Hdr.
  change (total c_sent (fo_states (sv_fanout p.1.1))
    = (count EVENTS_OUTPUT (load ++ cs) - lg_sent l)%Z) in Hse.
  pose proof (fun m => proj1 (Hs m)) as Hv.
  assert (forall m, m <> ACTIVE_CONNECTIONS ->
    value (mt_registry s) (metric_name m) = Some (count m (load ++ cs))) as Hcount.
  { intros m Hm. by rewrite Hv, tally_count. }
  rewrite !Hcount, Hdr, Hse, Sv, De by done. split_and!; [done|done|exact B|done|f_equal; lia| |].
  - eexists. split; [done|exact O].
  - eexists. split; [apply Hv|]. split; [apply (so_count _ _ _ _ Hok)|].
    eapply cong_wrapped; [apply (so_count _ _ _ _ Hok)|exact G].
Qed.

(** ** A run with an event *)

(** A start without files, a connection, and an event that it sends. *)
Definition no_files : Disk := mkDisk None None None.
Lemma no_files_genuine : disk_genuine sample_core no_files.
Proof. intros text e Ht. vm_compute in Ht. by apply elem_of_nil in Ht. Qed.

Definition started : Server * option bytes :=
  match relay_new keep_order (data_config 80) (sample_host no_files) with
  | Ret r => (server_new (sys_store (in_events r)) (verify_permits 1), sys_snapshot (in_events r))
  | Panic => (server_new empty_store 1, None)
  end.
Definition opened : Server := connect no_messages 0 started.1.
Definition sent : Server := handle_text (data_config 80) 1 sample_frame opened.
Definition running : Server := acquire sent [] [] (1%Z, sample_frame).
Definition handled : Server * calls := run_event_metered elements 7 noon running [] [] 1 sample_frame.

Example started_run :
  exists cs l p, metered_run elements (data_config 80) keep_order (process_new started.1 started.2) cs l p
    /\ cs = [ConnectionsInc; ObserveWriteDelay 7; IncEventsSaved] /\ lg_stored l = 1%Z.
Proof.
  do 3 eexists. split.
  - eapply metered_next; [eapply metered_next; [eapply metered_next; [eapply metered_next;
      [eapply metered_next; [apply metered_start|]|]|]|]|].
    + apply process_server, (metered_connect elements (data_config 80) keep_order no_messages 0).
    + apply process_enters.
    + apply process_server, (metered_text elements (data_config 80) keep_order 1 sample_frame opened).
      eexists. vm_compute. reflexivity.
    + apply process_server, (metered_acquire elements (data_config 80) keep_order [] (1%Z, sample_frame) [] sent);
        vm_compute; reflexivity.
    + apply process_server, (metered_event elements (data_config 80) keep_order 7 noon [] 1 sample_frame [] running).
      vm_compute. reflexivity.
  - split; vm_compute; reflexivity.
Qed.

Lemma started_countable : countable ([] ++ [ConnectionsInc; ObserveWriteDelay 7; IncEventsSaved]).
Proof.
  apply countable_take. intros i m Hi. cbn in Hi. unfold exact.
  do 4 (destruct i as [|i]; [destruct m; vm_compute; split; congruence|]). lia.
Qed.

Lemma metrics_truthful_witness :
  exists r m0 s, relay_new keep_order (data_config 80) (sample_host no_files) = Ret r
    /\ @init plain_prometheus metrics_new = Ret m0
    /\ @perform_all plain_prometheus [ConnectionsInc; ObserveWriteDelay 7; IncEventsSaved] m0 = Ret s
    /\ @value plain_prometheus (mt_registry s) (metric_name EVENTS_SAVED) = Some 1%Z.
Proof.
  destruct (@metrics_truthful _ _ _ _ _ _ _ _ plain_prometheus plain_prometheus_laws sample_core
    keep_order elements (data_config 80) (sample_host no_files) 1 (fun s => Permutation_refl _)
    sample_collision_free no_files_genuine) as (r & m0 & Hr & Hi & Hall).
  destruct started_run as (cs & l & p & Hrun & -> & Hl).
  unfold started in Hrun. rewrite Hr in Hrun.
  destruct (Hall [] _ l p (or_introl eq_refl) Hrun started_countable) as (s & Hp & Hs & _).
  rewrite Hl in Hs. exists r, m0, s. exact (conj Hr (conj Hi (conj Hp Hs))).
Defined.

(** * The gauge between two turns *)

(** The gauge is kept in two ways at once, and a turn of the collector between the
    two accesses of a connection counts it twice (or takes it off twice) until the next
    turn: with one connection open, and none halfway, the gauge shows two, and after
    its end minus one. *)
Theorem gauge_counts_twice :
  (exists cs l p, metered_run elements (data_config 80) keep_order (process_new started.1 started.2) cs l p
     /\ size (sv_loops p.1.1) = 1 /\ g_between p.2 = 0%Z /\ tally cs ACTIVE_CONNECTIONS = 2%Z)
  /\ (exists cs l p, metered_run elements (data_config 80) keep_order (process_new started.1 started.2) cs l p
     /\ size (sv_loops p.1.1) = 0 /\ g_between p.2 = 0%Z /\ tally cs ACTIVE_CONNECTIONS = (-1)%Z).
Proof.
  split; do 3 eexists; split.
  - eapply metered_next; [eapply metered_next; [eapply metered_next; [eapply metered_next;
      [apply metered_start|]|]|]|].
    + apply process_server, (metered_connect elements (data_config 80) keep_order no_messages 0).
    + apply process_loads.
    + apply process_sets.
    + apply process_enters.
  - split_and!; vm_compute; reflexivity.
  - eapply metered_next; [eapply metered_next; [eapply metered_next; [eapply metered_next;
      [eapply metered_next; [eapply metered_next; [apply metered_start|]|]|]|]|]|].
    + apply process_server, (metered_connect elements (data_config 80) keep_order no_messages 0).
    + apply process_enters.
    + apply process_server, (metered_hangup elements (data_config 80) keep_order 1 opened).
      eexists. vm_compute. reflexivity.
    + apply process_loads.
    + apply process_sets.
    + apply process_leaves.
  - split_and!; vm_compute; reflexivity.
Qed.

(** A turn that catches no connection in between repairs it. *)
Lemma gauge_repaired l p g p1 p2 :
  g_between g = 0%Z -> lg_drift (book (book l (p, g) Loads p1) p1 Sets p2) = 0%Z.
Proof. done. Qed.
