(* ===== verification/Main.v ===== *)
(** [Config::load] of [src/src/config.rs], and [src/src/main.rs]: what the process
    makes of its command line, its configuration file and its environment, and how
    it comes up. The end of [main] is [shutdown] of [Startup.v].

    The [config] crate is a parameter ([ConfigCrate]): reading a YAML document into
    settings, the key of an environment variable, and the conversions that serde
    asks it for. What the operating system answers is the record [Os]. *)
From S2P Require Import Prelude Float Text Collections Event Reference EventProps Deletion Tombstones Index IndexInv IndexSpec IndexQuery Wal Store Recovery Journal Durability Subscription Fanout Message Relay Config Proxy Socket SocketInv SocketProps Startup Http.
Open Scope memlay_scope.

(** * The configuration *)

Class ConfigCrate := {
  setting : Type;
  load_error : Type;
  file_not_found : str -> load_error;
  read_yaml : bytes -> result (gmap str setting) load_error;
  env_key : str -> str;
  env_setting : str -> setting;
  is_nil : setting -> bool;
  into_str : setting -> result str load_error;
  into_uint : Z -> setting -> result Z load_error;
  into_strs : setting -> result (list str) load_error;
}.

Section Load.
Context `{ConfigCrate}.
Abbreviation settings := (gmap str setting).

(** A field of the derived [Deserialize]: converted if set, else its default. *)
Definition field {A : Type} (s : settings) (name : str) (convert : setting -> result A load_error)
    (dflt : A) : result A load_error :=
  match s !! name with Some v => convert v | None => Ok dflt end.

(** [Option<String>]. *)
Definition into_opt_str (v : setting) : result (option str) load_error :=
  if is_nil v then Ok None else let? s := into_str v in Ok (Some s).

Definition u8_max : Z := 255.
Definition u64_max : Z := (2 ^ 64 - 1)%Z.

(** [Config] as [Deserialize] reads it. *)
Definition config_of (s : settings) : result Config load_error :=
  let? addr := field s (lit "bind_addr") into_str default_bind_addr in
  let? percent := field s (lit "target_ram_percent") (into_uint u8_max) default_target_ram_percent in
  let? bytes := field s (lit "max_bytes") (into_uint usize_max) 0%Z in
  let? subs := field s (lit "max_subscriptions") (into_uint usize_max) default_max_subscriptions in
  let? limit := field s (lit "max_limit") (into_uint usize_max) default_max_limit in
  let? idle := field s (lit "idle_timeout") (into_uint u64_max) default_idle_timeout in
  let? path := field s (lit "persistence_path") into_opt_str None in
  let? interval := field s (lit "persistence_interval") (into_uint u64_max)
                     default_persistence_interval in
  let? proxies := field s (lit "trusted_proxies") into_strs [] in
  let? url := field s (lit "prometheus_url") into_opt_str None in
  let? logs := field s (lit "log_dir") into_opt_str None in
  Ok (mkCfg addr percent bytes subs limit idle path interval proxies url logs).

Definition field_names : list str :=
  [lit "bind_addr"; lit "target_ram_percent"; lit "max_bytes"; lit "max_subscriptions";
   lit "max_limit"; lit "idle_timeout"; lit "persistence_path"; lit "persistence_interval";
   lit "trusted_proxies"; lit "prometheus_url"; lit "log_dir"].

(** The environment as a source: every variable is a setting. *)
Definition add_environment (env : list (str * str)) (s : settings) : settings :=
  foldl (fun s v => <[env_key v.1 := env_setting v.2]> s) s env.

(** [Config::load]: the file must be there; the environment overrides it. *)
Definition config_load (files : str -> option bytes) (env : list (str * str)) (path : str)
    : result Config load_error :=
  let? text := ok_or (files path) (file_not_found path) in
  let? s := read_yaml text in
  config_of (add_environment env s).
End Load.

(** * The log *)

Inductive Layer :=
| StdoutLayer
| FileLayer (path : str).

(** [Path::join] with a file name. *)
Definition path_join (dir name : str) : str :=
  if bool_decide (dir = []) then name
  else if bool_decide (last dir = Some 47%N) then dir ++ name
  else dir ++ [47%N] ++ name.

Definition log_file (dir : str) : str := path_join dir (lit "memlay.log").

(** [init_logging]: the layers, and the log files afterwards. *)
Definition init_logging (log_dir : option str) (create_dir open_file : str -> bool)
    (logs : gmap str bytes) : gmap str bytes * list Layer :=
  match log_dir with
  | None => (logs, [StdoutLayer])
  | Some dir =>
      if negb (create_dir dir) then (logs, [StdoutLayer])
      else if open_file (log_file dir)
      then (<[log_file dir := []]> logs, [StdoutLayer; FileLayer (log_file dir)])
      else (logs, [StdoutLayer])
  end.

(** * [main] *)

(** The soft and hard limits on open files. *)
Abbreviation limits := (Z * Z)%type.

Definition NOFILE_TARGET : Z := 65536.

(** The limits after [main] has tried to raise them. *)
Definition raise_limits (setrlimit : Z -> Z -> limits -> result limits unit)
    (getrlimit : option limits) : option limits :=
  match getrlimit with
  | None => None
  | Some (soft, hard) =>
      if (soft <? NOFILE_TARGET)%Z then
        match setrlimit NOFILE_TARGET hard (soft, hard) with
        | Ok l => Some l
        | Err _ => Some (soft, hard)
        end
      else Some (soft, hard)
  end.

(** What the process finds when it starts. *)
Record Os := mkOs {
  os_config : option str;
  os_files : str -> option bytes;
  os_env : list (str * str);
  os_create_dir : str -> bool;
  os_open_file : str -> bool;
  os_logs : gmap str bytes;
  os_getrlimit : option limits;
  os_setrlimit : Z -> Z -> limits -> result limits unit;
  os_host : Host;
  os_cpus : Z;
  os_bind : str -> bool;
}.

(** [Cli]: the path of the configuration file. *)
Definition cli_config (os : Os) : str := default (lit "config.yaml") (os_config os).

Section Main.
Context `{ConfigCrate, HexCrate, EventCrates, Channel, IpNets, Headers}.
Variable iteration_order : list Event -> list Event.

(** The configuration [main] runs with. *)
Definition main_config (os : Os) : Config :=
  match config_load (os_files os) (os_env os) (cli_config os) with
  | Ok config => config
  | Err _ => config_default
  end.

(** A process that listens. *)
Record Process := mkProcess {
  pr_relay : RelayInstance;
  pr_app : AppState;
  pr_layers : list Layer;
  pr_logs : gmap str bytes;
  pr_limits : option limits;
}.

(** [main] up to [axum::serve]; it panics if the address cannot be bound. *)
Definition main (os : Os) : panicky Process :=
  let config := main_config os in
  let '(logs, layers) :=
    init_logging (log_dir config) (os_create_dir os) (os_open_file os) (os_logs os) in
  let limits := raise_limits (os_setrlimit os) (os_getrlimit os) in
  let! relay := relay_new iteration_order config (os_host os) in
  if os_bind os (bind_addr config)
  then Ret (mkProcess relay (router relay (os_cpus os)) layers logs limits)
  else Panic.

(** [shutdown_signal]: it resolves when [ctrl_c] does, with or without an error,
    or on SIGTERM if its handler could be installed. *)
Definition shutdown_signal (ctrl_c : option (result unit unit)) (installed : result unit unit)
    (sigterm : bool) : bool :=
  match ctrl_c with
  | Some _ => true
  | None => match installed with Ok _ => sigterm | Err _ => false end
  end.

(** [main] after [axum::serve] has ended or a signal has arrived. *)
Definition main_end (p : Process) (flr fls flush : Faults) (sys : System) : System :=
  (shutdown iteration_order (in_config (pr_relay p)) flr fls flush sys).1.
End Main.

(** * Properties of the configuration *)

Section Layers.
Context `{ConfigCrate}.

(** The setting of a name: the environment's last, else the file's. *)
Definition setting_of (s : gmap str setting) (env : list (str * str)) (name : str)
    : option setting :=
  match List.find (fun v => bool_decide (env_key v.1 = name)) (rev env) with
  | Some v => Some (env_setting v.2)
  | None => s !! name
  end.

Lemma add_environment_lookup env s name : add_environment env s !! name = setting_of s env name.
Proof.
  unfold add_environment, setting_of. induction env as [|v env IH] using rev_ind; [done|].
  rewrite foldl_app, rev_app_distr. cbn [foldl rev app List.find].
  destruct (decide (env_key v.1 = name)) as [<-|Hne].
  - by rewrite bool_decide_true, lookup_insert_eq.
  - by rewrite bool_decide_false, lookup_insert_ne.
Qed.

(** [x] is what the setting converts to, or the default. *)
Definition reads {A : Type} (o : option setting) (convert : setting -> result A load_error)
    (dflt x : A) : Prop :=
  match o with Some v => convert v = Ok x | None => x = dflt end.

Lemma field_ok {A : Type} s name convert (dflt x : A) :
  field s name convert dflt = Ok x -> reads (s !! name) convert dflt x.
Proof. unfold field, reads. destruct (s !! name); [done|]. by intros [= ->]. Qed.

(** A conversion fails on this setting. *)
Definition refuses (v : setting) (e : load_error) : Prop :=
  into_str v = Err e \/ (exists max, into_uint max v = Err e) \/ into_strs v = Err e.

Lemma opt_str_refuses v e : into_opt_str v = Err e -> refuses v e.
Proof.
  unfold into_opt_str, refuses. destruct (is_nil v); [done|].
  destruct (into_str v); [done|]. intros [= ->]. by left.
Qed.

Lemma field_err {A : Type} s name convert (dflt : A) e :
  (forall v, convert v = Err e -> refuses v e) -> field s name convert dflt = Err e ->
  exists v, s !! name = Some v /\ refuses v e.
Proof. unfold field. intros Hc. destruct (s !! name) as [v|]; [|done]. intros Hv. eauto. Qed.

(** The next field of [config_of]: read, or refused ([Hbad]). *)
Ltac next_field Hbad :=
  match goal with
  | |- context [field ?s ?name ?c ?d] =>
      let E := fresh "E" in
      destruct (field s name c d) eqn:E; cbn [result_bind];
        [apply field_ok in E
        |eapply Hbad; [| |exact E];
          [unfold field_names; set_solver
          |intros v Hv; first [by apply opt_str_refuses | by left | by right; left; eexists | by right; right]]]
  end.

Lemma config_of_fields s :
  match config_of s with
  | Ok c =>
      reads (s !! lit "bind_addr") into_str default_bind_addr (bind_addr c)
      /\ reads (s !! lit "target_ram_percent") (into_uint u8_max) default_target_ram_percent
           (target_ram_percent c)
      /\ reads (s !! lit "max_bytes") (into_uint usize_max) 0%Z (cfg_max_bytes c)
      /\ reads (s !! lit "max_subscriptions") (into_uint usize_max) default_max_subscriptions
           (max_subscriptions c)
      /\ reads (s !! lit "max_limit") (into_uint usize_max) default_max_limit (max_limit c)
      /\ reads (s !! lit "idle_timeout") (into_uint u64_max) default_idle_timeout (idle_timeout c)
      /\ reads (s !! lit "persistence_path") into_opt_str None (Config.persistence_path c)
      /\ reads (s !! lit "persistence_interval") (into_uint u64_max) default_persistence_interval
           (persistence_interval c)
      /\ reads (s !! lit "trusted_proxies") into_strs [] (trusted_proxies c)
      /\ reads (s !! lit "prometheus_url") into_opt_str None (prometheus_url c)
      /\ reads (s !! lit "log_dir") into_opt_str None (log_dir c)
  | Err e => exists name v, name ∈ field_names /\ s !! name = Some v /\ refuses v e
  end.
Proof.
  assert (forall {A : Type} name (convert : setting -> result A load_error) (dflt : A) e,
    name ∈ field_names -> (forall v, convert v = Err e -> refuses v e) ->
    field s name convert dflt = Err e ->
    exists name v, name ∈ field_names /\ s !! name = Some v /\ refuses v e) as Hbad.
  { intros A name convert dflt e Hn Hc Hf. destruct (field_err _ _ _ _ _ Hc Hf) as (v & Hv & Hr).
    by exists name, v. }
  unfold config_of.
  do 11 next_field Hbad. by split_and!.
Qed.

Lemma config_of_same s s' :
  (forall name, name ∈ field_names -> s !! name = s' !! name) -> config_of s = config_of s'.
Proof. intros Hs. unfold config_of, field. by rewrite !Hs by (unfold field_names; set_solver). Qed.

Lemma setting_of_other s env1 v env2 name :
  env_key v.1 <> name -> setting_of s (env1 ++ v :: env2) name = setting_of s (env1 ++ env2) name.
Proof.
  intros Hv. rewrite <- !add_environment_lookup. unfold add_environment. rewrite !foldl_app.
  cbn [foldl]. set (s1 := foldl _ s env1). 
  change (add_environment env2 (<[env_key v.1 := env_setting v.2]> s1) !! name
    = add_environment env2 s1 !! name).
  rewrite !add_environment_lookup. unfold setting_of. case_match; [done|]. by rewrite lookup_insert_ne.
Qed.

(** C40: where the configuration comes from, field by field: a field is what the
    environment says (the last variable with its name), else what the file says,
    else its default; loading fails exactly when the file is missing or
    unreadable, or a setting that is there does not convert; then [main] takes
    the defaults for every field. And a variable whose name is not a field's has no
    effect: there is no prefix. *)
Theorem config_layers files env path :
  match config_load files env path with
  | Ok c =>
      exists text s, files path = Some text /\ read_yaml text = Ok s /\
      let at_ := setting_of s env in
      reads (at_ (lit "bind_addr")) into_str default_bind_addr (bind_addr c)
      /\ reads (at_ (lit "target_ram_percent")) (into_uint u8_max) default_target_ram_percent
           (target_ram_percent c)
      /\ reads (at_ (lit "max_bytes")) (into_uint usize_max) 0%Z (cfg_max_bytes c)
      /\ reads (at_ (lit "max_subscriptions")) (into_uint usize_max) default_max_subscriptions
           (max_subscriptions c)
      /\ reads (at_ (lit "max_limit")) (into_uint usize_max) default_max_limit (max_limit c)
      /\ reads (at_ (lit "idle_timeout")) (into_uint u64_max) default_idle_timeout (idle_timeout c)
      /\ reads (at_ (lit "persistence_path")) into_opt_str None (Config.persistence_path c)
      /\ reads (at_ (lit "persistence_interval")) (into_uint u64_max) default_persistence_interval
           (persistence_interval c)
      /\ reads (at_ (lit "trusted_proxies")) into_strs [] (trusted_proxies c)
      /\ reads (at_ (lit "prometheus_url")) into_opt_str None (prometheus_url c)
      /\ reads (at_ (lit "log_dir")) into_opt_str None (log_dir c)
  | Err e =>
      (files path = None /\ e = file_not_found path)
      \/ (exists text, files path = Some text /\ read_yaml text = Err e)
      \/ (exists text s name v, files path = Some text /\ read_yaml text = Ok s
            /\ name ∈ field_names /\ setting_of s env name = Some v /\ refuses v e)
  end
  /\ (forall os, main_config os =
        match config_load (os_files os) (os_env os) (cli_config os) with
        | Ok config => config | Err _ => config_default end)
  /\ (forall env1 v env2, env_key v.1 ∉ field_names ->
        config_load files (env1 ++ v :: env2) path = config_load files (env1 ++ env2) path).
Proof.
  split_and!; [|done|].
  - unfold config_load. destruct (files path) as [text|]; [|by left]. cbn [ok_or result_bind].
    destruct (read_yaml text) as [s|e] eqn:Hs; cbn [result_bind]; [|right; left; by exists text].
    pose proof (config_of_fields (add_environment env s)) as Hc.
    destruct (config_of _) as [c|e].
    + exists text, s. cbv zeta. by rewrite <- !add_environment_lookup.
    + destruct Hc as (name & v & Hn & Hv & Hr). right. right. exists text, s, name, v.
      by rewrite <- add_environment_lookup.
  - intros env1 v env2 Hv. unfold config_load. destruct (files path) as [text|]; [|done].
    cbn [ok_or result_bind]. destruct (read_yaml text) as [s|]; [|done]. cbn [result_bind].
    apply config_of_same. intros name Hn. rewrite !add_environment_lookup.
    apply setting_of_other. by intros <-.
Qed.
End Layers.

(** * Properties of the start *)

(** Raising the limit on open files to 65536 works where the hard limit allows
    it; where it does not, the request is above the hard limit and refused, and the
    soft limit is left where it was instead of being raised as far as it may. *)
Lemma raised_limits setrlimit soft hard :
  (forall s h cur, (s > h)%Z -> setrlimit s h cur = Err tt) ->
  (forall s cur, (s <= cur.2)%Z -> setrlimit s cur.2 cur = Ok (s, cur.2)) ->
  raise_limits setrlimit (Some (soft, hard))
  = Some (if (soft <? NOFILE_TARGET)%Z && (NOFILE_TARGET <=? hard)%Z then NOFILE_TARGET else soft, hard).
Proof.
  intros Hbad Hgood. unfold raise_limits. destruct (Z.ltb_spec soft NOFILE_TARGET); [|done].
  destruct (Z.leb_spec NOFILE_TARGET hard); cbn [andb].
  - pose proof (Hgood NOFILE_TARGET (soft, hard)) as Hg. cbn [snd] in Hg. by rewrite Hg.
  - by rewrite Hbad by lia.
Qed.

(** The limits of a process that may open 4096 files but starts with 1024. *)
Lemma low_hard_limit_not_used :
  let setrlimit s h cur := if (s >? h)%Z then Err tt else Ok (s, h) in
  raise_limits setrlimit (Some (1024, 4096)%Z) = Some (1024, 4096)%Z
  /\ raise_limits setrlimit (Some (1024, 524288)%Z) = Some (65536, 524288)%Z.
Proof. split; reflexivity. Qed.

(** Logging starts with an empty file: what an earlier run has written is gone. *)
Lemma log_truncated dir create_dir open_file logs :
  create_dir dir = true -> open_file (log_file dir) = true ->
  init_logging (Some dir) create_dir open_file logs
  = (<[log_file dir := []]> logs, [StdoutLayer; FileLayer (log_file dir)]).
Proof. intros Hc Ho. unfold init_logging. by rewrite Hc, Ho. Qed.

(** Without a usable log directory it goes to the standard output, and no file is
    touched. *)
Lemma log_stdout_only log_dir create_dir open_file logs :
  (forall dir, log_dir = Some dir -> create_dir dir && open_file (log_file dir) = false) ->
  init_logging log_dir create_dir open_file logs = (logs, [StdoutLayer]).
Proof.
  unfold init_logging. destruct log_dir as [dir|]; [|done]. intros Hd. specialize (Hd dir eq_refl).
  destruct (create_dir dir); [|done]. cbn [andb] in Hd. by rewrite Hd.
Qed.

Section Start.
Context `{ConfigCrate, HexLaws, MessageJsonLaws, Channel, IpNets, Headers, !Receiver}.
Context (core_of : bytes -> Core).
Variable iteration_order : list Event -> list Event.

(** [main] comes up on any files of genuine events, with the configuration, the
    instance and the application of the other files, unless it cannot bind. *)
Lemma main_comes_up os :
  disk_genuine core_of (h_disk (os_host os)) ->
  exists r, relay_new iteration_order (main_config os) (os_host os) = Ret r
  /\ main iteration_order os =
       if os_bind os (bind_addr (main_config os)) then
         let '(logs, layers) :=
           init_logging (log_dir (main_config os)) (os_create_dir os) (os_open_file os) (os_logs os) in
         Ret (mkProcess r (router r (os_cpus os)) layers logs
                (raise_limits (os_setrlimit os) (os_getrlimit os)))
       else Panic.
Proof.
  intros Hd. destruct (relay_new_ok core_of iteration_order (main_config os) (os_host os) Hd)
    as (r & Hr & _).
  exists r. split; [done|]. unfold main. rewrite Hr. destruct (init_logging _ _ _ _) as [logs layers].
  done.
Qed.
End Start.

(** * Samples *)

(** Settings are texts, a file sets the address, and the key of a variable is its
    name in lower case. *)
Definition lower (c : N) : N := if N.leb 65 c && N.leb c 90 then (c + 32)%N else c.

Definition plain_config : ConfigCrate := {|
  setting := str;
  load_error := str;
  file_not_found path := path;
  read_yaml text := Ok {[lit "bind_addr" := lit "127.0.0.1:7777"]};
  env_key name := lower <$> name;
  env_setting value := value;
  is_nil v := false;
  into_str v := Ok v;
  into_uint max v := Ok (Z.of_nat (length v));
  into_strs v := Ok [v];
|}.

(** The variable that the README names does nothing; without the prefix it works. *)
Lemma config_layers_witness :
  @config_load plain_config (fun _ => Some []) [(lit "MEMLAY_BIND_ADDR", lit "0.0.0.0:80")] []
  = @config_load plain_config (fun _ => Some []) [] [].
Proof.
  refine (proj2 (proj2 (@config_layers plain_config (fun _ => Some []) [] [])) []
    (lit "MEMLAY_BIND_ADDR", lit "0.0.0.0:80") [] _).
  apply (bool_decide_eq_false (_ ∈ field_names)). vm_compute. reflexivity.
Defined.

Lemma prefix_ignored :
  let load := fun name => @config_load plain_config (fun _ => Some []) [(lit name, lit "0.0.0.0:80")] [] in
  (match load "MEMLAY_BIND_ADDR"%string with Ok c => Some (bind_addr c) | Err _ => None end)
    = Some (lit "127.0.0.1:7777")
  /\ (match load "BIND_ADDR"%string with Ok c => Some (bind_addr c) | Err _ => None end)
    = Some (lit "0.0.0.0:80")
  /\ @main_config plain_config
       (mkOs None (fun _ => None) [(lit "BIND_ADDR", lit "0.0.0.0:80")] (fun _ => true) (fun _ => true)
          ∅ None (fun _ _ _ => Err tt) (sample_host sample_disk) 1 (fun _ => true))
     = config_default.
Proof. vm_compute. split_and!; reflexivity. Qed.
