(* ===== verification/Json.v ===== *)
(** A JSON reader and writer for events, and the crates of [Event.v] built on it.
    The scenarios of the repository's unit tests run on this instance: events are
    written to their real JSON text and read back from it. The digest is not
    SHA-256, only a function with 32 bytes of output that tells the scenarios'
    events apart; no general theorem mentions this file. *)
From stdpp Require Import pretty.
From S2P Require Import Prelude Text Event Reference.
Open Scope memlay_scope.

(** * Values *)

Inductive value :=
| VNum (n : Z)
| VStr (s : str)
| VArr (l : list value)
| VObj (fields : list (str * value)).

Definition c_quote : N := 34.
Definition c_backslash : N := 92.
Definition c_comma : N := 44.
Definition c_colon : N := 58.
Definition c_lbracket : N := 91.
Definition c_rbracket : N := 93.
Definition c_lbrace : N := 123.
Definition c_rbrace : N := 125.

(** * Writing *)

Definition write_char (c : N) : str :=
  if (c =? c_quote)%N || (c =? c_backslash)%N then [c_backslash; c] else [c].
Definition write_str (s : str) : str := [c_quote] ++ (s ≫= write_char) ++ [c_quote].

Definition sep_by (sep : N) (items : list str) : str :=
  match items with
  | [] => []
  | item :: items => item ++ (items ≫= fun i => sep :: i)
  end.
Definition write_num (n : Z) : str := lit (pretty n).
Definition write_arr (items : list str) : str := [c_lbracket] ++ sep_by c_comma items ++ [c_rbracket].
Definition write_obj (fields : list (string * str)) : str :=
  [c_lbrace] ++ sep_by c_comma ((fun '(k, v) => write_str (lit k) ++ [c_colon] ++ v) <$> fields)
  ++ [c_rbrace].
Definition write_tags (tags : list (list str)) : str :=
  write_arr ((fun tag => write_arr (write_str <$> tag)) <$> tags).

(** An event object, with its fields in the order of the struct. *)
Definition write_raw (r : RawEvent) : str :=
  write_obj [("id", write_str (re_id r)); ("pubkey", write_str (re_pubkey r));
    ("created_at", write_num (re_created_at r)); ("kind", write_num (re_kind r));
    ("tags", write_tags (re_tags r)); ("content", write_str (re_content r));
    ("sig", write_str (re_sig r))]%string.

(** * Reading *)

Fixpoint skip_ws (s : str) : str :=
  match s with
  | c :: s' => if json_ws c then skip_ws s' else s
  | [] => []
  end.

(** The rest of a string literal. *)
Fixpoint read_str (s : str) : option (str * str) :=
  match s with
  | [] => None
  | c :: s =>
      if (c =? c_quote)%N then Some ([], s)
      else if (c =? c_backslash)%N then
        match s with
        | d :: s => '(t, rest) ← read_str s; Some (d :: t, rest)
        | [] => None
        end
      else '(t, rest) ← read_str s; Some (c :: t, rest)
  end.

Definition is_digit (c : N) : bool := (48 <=? c)%N && (c <=? 57)%N.
Fixpoint read_digits (acc : Z) (s : str) : Z * str :=
  match s with
  | c :: s' => if is_digit c then read_digits (acc * 10 + Z.of_N c - 48) s' else (acc, s)
  | [] => (acc, [])
  end.

(** A value, and the elements of an array or object up to its closing bracket;
    every call reads at least a character, so the length of the text is enough
    fuel. *)
Fixpoint read_value (fuel : nat) (s : str) {struct fuel} : option (value * str) :=
  match fuel with
  | O => None
  | S fuel =>
      match skip_ws s with
      | c :: s =>
          if (c =? c_quote)%N then '(t, s) ← read_str s; Some (VStr t, s)
          else if (c =? c_lbracket)%N then '(l, s) ← read_items fuel s; Some (VArr l, s)
          else if (c =? c_lbrace)%N then '(l, s) ← read_fields fuel s; Some (VObj l, s)
          else if is_digit c then let '(n, s) := read_digits 0 (c :: s) in Some (VNum n, s)
          else None
      | [] => None
      end
  end
with read_items (fuel : nat) (s : str) {struct fuel} : option (list value * str) :=
  match fuel with
  | O => None
  | S fuel =>
      match skip_ws s with
      | c :: s' =>
          if (c =? c_rbracket)%N then Some ([], s')
          else if (c =? c_comma)%N then read_items fuel s'
          else '(v, s) ← read_value fuel s; '(l, s) ← read_items fuel s; Some (v :: l, s)
      | [] => None
      end
  end
with read_fields (fuel : nat) (s : str) {struct fuel} : option (list (str * value) * str) :=
  match fuel with
  | O => None
  | S fuel =>
      match skip_ws s with
      | c :: s' =>
          if (c =? c_rbrace)%N then Some ([], s')
          else if (c =? c_comma)%N then read_fields fuel s'
          else if (c =? c_quote)%N then
            '(k, s) ← read_str s';
            match skip_ws s with
            | d :: s =>
                if (d =? c_colon)%N then
                  '(v, s) ← read_value fuel s; '(l, s) ← read_fields fuel s; Some ((k, v) :: l, s)
                else None
            | [] => None
            end
          else None
      | [] => None
      end
  end.

Definition as_num (lim : Z) (v : value) : option Z :=
  match v with VNum n => if (0 <=? n)%Z && (n <? lim)%Z then Some n else None | _ => None end.
Definition as_str (v : value) : option str := match v with VStr s => Some s | _ => None end.

Definition as_tag (v : value) : option (list str) :=
  match v with VArr l => mapM as_str l | _ => None end.
Definition as_tags (v : value) : option (list (list str)) :=
  match v with VArr l => mapM as_tag l | _ => None end.
Definition field {A} (as_ : value -> option A) (key : string) (fields : list (str * value))
    : option A :=
  match List.find (fun kv => bool_decide (fst kv = lit key)) fields with
  | Some (_, v) => as_ v
  | None => None
  end.

Definition raw_of_value (v : value) : option RawEvent :=
  match v with
  | VObj fields =>
      id ← field as_str "id" fields; pubkey ← field as_str "pubkey" fields;
      created_at ← field (as_num (2 ^ 64)) "created_at" fields;
      kind ← field (as_num (2 ^ 32)) "kind" fields;
      tags ← field as_tags "tags" fields;
      content ← field as_str "content" fields; sig ← field as_str "sig" fields;
      Some (mkRawEvent id pubkey created_at kind tags content sig)
  | _ => None
  end.

(** [serde_json::from_slice::<RawEvent>]. *)
Definition read_raw (json : bytes) : option RawEvent :=
  let text := from_utf8_lossy json in
  '(v, rest) ← read_value (S (length text)) text;
  if bool_decide (skip_ws rest = []) then raw_of_value v else None.

(** * The crates *)

Definition digest (v : bytes) : bytes :=
  to_le_bytes 32 (foldl (fun h b => Z.land (h * 33 + b + 1) 0xffffffff) 5381 v)%Z.

#[export] Instance json_crates : EventCrates := {|
  serde_error := unit;
  serde_from_slice json := match read_raw json with Some r => Ok r | None => Err tt end;
  serde_to_vec zero pk at_ kind tags content :=
    Ok (as_bytes (write_arr [write_num zero; write_str pk; write_num at_; write_num kind;
                             write_tags tags; write_str content]));
  sha256_digest := digest;
  XOnlyPublicKey := bytes;
  xonly_from_byte_array pk := Some pk;
  verify_schnorr sig id pk := true;
|}.

Lemma field_num lim key fields n :
  field (as_num lim) key fields = Some n -> (0 <= n < lim)%Z.
Proof.
  unfold field. destruct (List.find _ _) as [[k v]|]; [|done]. unfold as_num.
  destruct v; [|done..]. case_match; [|done]. intros [= <-]. bool_to_prop. lia.
Qed.

#[export] Instance json_serde_laws : SerdeLaws.
Proof.
  split. intros json r Hs.
  change (match read_raw json with Some r => Ok r | None => Err tt end = Ok r) in Hs.
  destruct (read_raw json) as [r0|] eqn:Hr; [|done]. injection Hs as <-.
  unfold read_raw in Hr. destruct (read_value _ _) as [[v rest]|]; [|done]. cbn in Hr.
  case_bool_decide; [|done]. destruct v as [| | |fields]; [done..|]. unfold raw_of_value in Hr.
  destruct (field as_str "id" fields), (field as_str "pubkey" fields);
    cbn [mbind option_bind] in Hr; try discriminate.
  destruct (field (as_num (2 ^ 64)) "created_at" fields) as [at_|] eqn:Hat; [|done]. cbn [mbind option_bind] in Hr.
  destruct (field (as_num (2 ^ 32)) "kind" fields) as [kind|] eqn:Hk; [|done]. cbn [mbind option_bind] in Hr.
  apply field_num in Hat, Hk.
  destruct (field as_tags "tags" fields), (field as_str "content" fields), (field as_str "sig" fields);
    cbn in Hr; try discriminate.
  by injection Hr as <-.
Qed.

Example reads_what_it_writes :
  let r := mkRawEvent (lit "ab") (lit "cd") 12 3 [[lit "e"; lit "x"]; []] [104; 34; 92]%N (lit "0") in
  read_raw (as_bytes (write_raw r)) = Some r.
Proof. vm_compute. reflexivity. Qed.
