(* ===== verification/UnitEvent.v ===== *)
(** The unit tests of [src/src/event.rs] and [src/src/deletion.rs], with the event
    builder they share, as executable scenarios. A scenario is a computation that
    must return [true] without panicking; [Conformance] runs them all. *)
From S2P Require Import Prelude Text Event Reference Deletion Json.
Open Scope memlay_scope.

(** * Scenarios *)

Definition scenario : Type := panicky bool.
Definition passes (t : scenario) : bool := match t with Ret b => b | Panic => false end.

(** The assertions of a scenario. *)
Definition asserts (l : list bool) : scenario := Ret (forallb id l).
Definition eqb {A} `{EqDecision A} (x y : A) : bool := bool_decide (x = y).
Definition is_some {A} (o : option A) : bool := match o with Some _ => true | None => false end.
Definition is_none {A} (o : option A) : bool := negb (is_some o).

(** [Option::unwrap], [Result::unwrap] and indexing. *)
Definition unwrap {A} (o : option A) : panicky A := match o with Some a => Ret a | None => Panic end.
Definition unwrap_ok {A E} (r : result A E) : panicky A :=
  match r with Ok a => Ret a | Err _ => Panic end.
Definition at_index {A} (l : list A) (n : nat) : panicky A := unwrap (l !! n).

(** A text written with single quotes for double ones. *)
Definition json_text (s : string) : str := (fun c => if (c =? 39)%N then 34%N else c) <$> lit s.

(** * [EventBuilder] *)

(** [serde_json::to_string] of [struct TestEvent], whose fields are those of
    [RawEvent]. *)
Class TestEventWriter := event_to_string : RawEvent -> str.
#[export] Instance json_writer : TestEventWriter := write_raw.

Record EventBuilder := mkBuilder {
  eb_pubkey : bytes;
  eb_created_at : Z;
  eb_kind : Z;
  eb_tags : list Tag;
  eb_content : str;
}.

(** [EventBuilder::new], [pubkey], [kind], [created_at], [content] and [tag]. *)
Definition builder_new : EventBuilder := mkBuilder (replicate 32 0%Z) 0 0 [] [].
Definition set_pubkey (pubkey : bytes) (b : EventBuilder) : EventBuilder :=
  mkBuilder pubkey (eb_created_at b) (eb_kind b) (eb_tags b) (eb_content b).
Definition set_kind (kind : Z) (b : EventBuilder) : EventBuilder :=
  mkBuilder (eb_pubkey b) (eb_created_at b) kind (eb_tags b) (eb_content b).
Definition set_created_at (created_at : Z) (b : EventBuilder) : EventBuilder :=
  mkBuilder (eb_pubkey b) created_at (eb_kind b) (eb_tags b) (eb_content b).
Definition set_content (content : str) (b : EventBuilder) : EventBuilder :=
  mkBuilder (eb_pubkey b) (eb_created_at b) (eb_kind b) (eb_tags b) content.
Definition add_tag (name value : str) (b : EventBuilder) : EventBuilder :=
  mkBuilder (eb_pubkey b) (eb_created_at b) (eb_kind b) (eb_tags b ++ [mkTag name [value]])
    (eb_content b).

(** [EventBuilder::build]: the id is the digest of the canonical array, the
    signature is a dummy, and the event is what its own JSON parses to. *)
Definition build `{HexCrate, EventCrates, TestEventWriter} (b : EventBuilder) : panicky Event :=
  let tags := (fun t => tag_name t :: tag_values t) <$> eb_tags b in
  let! serialised := unwrap_ok (serde_to_vec 0 (hex_encode (eb_pubkey b)) (eb_created_at b)
                                  (eb_kind b) tags (eb_content b)) in
  let id := sha256_digest serialised in
  let sig := replicate 64 0%Z in
  let json := event_to_string (mkRawEvent (hex_encode id) (hex_encode (eb_pubkey b))
                (eb_created_at b) (eb_kind b) tags (eb_content b) (hex_encode sig)) in
  unwrap_ok (from_json_unchecked (as_bytes json)).

(** * [event.rs] *)

Definition test_parse_event : scenario :=
  let! event := unwrap_ok (from_json_unchecked (as_bytes (json_text "{
    'id': '0000000000000000000000000000000000000000000000000000000000000001',
    'pubkey': '0000000000000000000000000000000000000000000000000000000000000002',
    'created_at': 1234567890,
    'kind': 1,
    'tags': [['e', '0000000000000000000000000000000000000000000000000000000000000003'], ['p', '0000000000000000000000000000000000000000000000000000000000000004']],
    'content': 'hello world',
    'sig': '00000000000000000000000000000000000000000000000000000000000000000000000000000000000000000000000000000000000000000000000000000005'
  }"))) in
  let! e_tag := at_index (e_tags event) 0 in
  let! p_tag := at_index (p_tags event) 0 in
  asserts [
    eqb (ev_id event !! 31) (Some 1%Z);
    eqb (ev_pubkey event !! 31) (Some 2%Z);
    eqb (ev_created_at event) 1234567890%Z;
    eqb (ev_kind event) 1%Z;
    eqb (ev_content event) (lit "hello world");
    eqb (length (ev_tags event)) 2;
    eqb (length (e_tags event)) 1; eqb (e_tag !! 31) (Some 3%Z);
    eqb (length (p_tags event)) 1; eqb (p_tag !! 31) (Some 4%Z)].

(** An event of the zero author at the tests' time. *)
Definition plain (kind : Z) (content : string) : EventBuilder :=
  set_content (lit content) (set_created_at 1234567890 (set_kind kind
    (set_pubkey (replicate 32 0%Z) builder_new))).
Definition profile (b : EventBuilder) : EventBuilder := add_tag (lit "d") (lit "profile") b.

Definition test_is_ephemeral : scenario :=
  let! ephemeral := build (plain 20001 "ephemeral") in
  let! not_ephemeral := build (plain 19999 "not ephemeral") in
  let! not_ephemeral2 := build (plain 30000 "not ephemeral") in
  asserts [is_ephemeral ephemeral; negb (is_ephemeral not_ephemeral);
           negb (is_ephemeral not_ephemeral2)].

Definition test_is_replaceable : scenario :=
  let! replaceable := build (plain 10000 "replaceable") in
  let! replaceable2 := build (plain 19999 "replaceable") in
  let! addressable := build (profile (plain 30000 "addressable")) in
  let! not_replaceable := build (plain 0 "not replaceable") in
  asserts [is_replaceable replaceable; is_replaceable replaceable2; is_replaceable addressable;
           negb (is_replaceable not_replaceable)].

Definition test_is_addressable : scenario :=
  let! addressable := build (profile (plain 30000 "addressable")) in
  let! not_addressable := build (plain 29999 "not addressable") in
  let! not_addressable2 := build (plain 40000 "not addressable") in
  asserts [is_addressable addressable; negb (is_addressable not_addressable);
           negb (is_addressable not_addressable2)].

Definition test_d_tag : scenario :=
  let! addressable := build (profile (plain 30000 "addressable")) in
  let! no_d_tag := build (plain 30000 "no d-tag") in
  let! not_addressable := build (add_tag (lit "d") (lit "ignored") (plain 1 "not addressable")) in
  asserts [eqb (d_tag addressable) (Some (lit "profile")); eqb (d_tag no_d_tag) None;
           eqb (d_tag not_addressable) None].

Definition test_replacement_key : scenario :=
  let! regular := build (plain 1 "regular") in
  let! replaceable := build (plain 10000 "replaceable") in
  let! addressable := build (profile (plain 30000 "addressable")) in
  asserts [
    match replacement_key regular with RKNone => true | _ => false end;
    match replacement_key replaceable with RKReplaceable _ _ => true | _ => false end;
    match replacement_key addressable with RKAddressable _ _ _ => true | _ => false end].

Definition event_tests : list scenario :=
  [test_parse_event; test_is_ephemeral; test_is_replaceable; test_is_addressable; test_d_tag;
   test_replacement_key].

(** * [deletion.rs] *)

Definition deletion_event (tags : list (str * str)) : panicky Event :=
  build (foldl (fun b '(name, value) => add_tag name value b)
           (set_content (lit "reason") (set_kind KIND_DELETION builder_new)) tags).

Definition set_last (arr : bytes) (byte : Z) : bytes := <[31 := byte]> arr.
Definition zeros : bytes := replicate 32 0%Z.

Definition parses_e_tags : scenario :=
  let id1 := set_last zeros 1 in
  let id2 := set_last zeros 2 in
  let! ev := deletion_event [(lit "e", hex_encode id1); (lit "e", hex_encode id2);
                             (lit "k", lit "1")] in
  let! req := deletion_request ev in
  asserts [bool_decide (id1 ∈ dr_ids req); bool_decide (id2 ∈ dr_ids req);
           eqb (size (dr_ids req)) 2; eqb (length (dr_coordinates req)) 0].

Definition parses_a_tags : scenario :=
  let pubkey := set_last zeros 9 in
  let! ev := deletion_event [(lit "a", lit "30023:" ++ hex_encode pubkey ++ lit ":my-identifier")] in
  let! req := deletion_request ev in
  let! coord := at_index (dr_coordinates req) 0 in
  asserts [eqb (length (dr_coordinates req)) 1; eqb (co_kind coord) 30023%Z;
           eqb (co_pubkey coord) pubkey; eqb (co_d_tag coord) (lit "my-identifier")].

Definition coordinate_d_tag_may_contain_colons : scenario :=
  let pubkey := set_last zeros 9 in
  let! ev := deletion_event [(lit "a", lit "30023:" ++ hex_encode pubkey ++ lit ":ns:sub:name")] in
  let! req := deletion_request ev in
  let! coord := at_index (dr_coordinates req) 0 in
  asserts [eqb (co_d_tag coord) (lit "ns:sub:name")].

Definition skips_malformed_values : scenario :=
  let! ev := deletion_event [(lit "e", lit "not-hex"); (lit "e", lit "1234");
                             (lit "a", lit "no-kind-here"); (lit "a", lit "30023:zzzz:tag")] in
  let! req := deletion_request ev in
  asserts [eqb (size (dr_ids req)) 0; eqb (length (dr_coordinates req)) 0].

Definition non_deletion_events_have_empty_request : scenario :=
  let! note := build (set_content (lit "note") (set_kind 1 builder_new)) in
  let! req := deletion_request note in
  asserts [eqb (size (dr_ids req)) 0; eqb (length (dr_coordinates req)) 0].

Definition deletion_tests : list scenario :=
  [parses_e_tags; parses_a_tags; coordinate_d_tag_may_contain_colons; skips_malformed_values;
   non_deletion_events_have_empty_request].
