(* ===== verification/UnitIndex.v ===== *)
(** The unit tests of [src/src/store/index.rs] as executable scenarios. The one that
    fills the tombstones to their cap, 524289 insertions, is proved to pass rather
    than run. *)
From S2P Require Import Prelude Text Event Reference Deletion Tombstones Index IndexInv IndexSpec IndexQuery Wal Json UnitEvent.
Open Scope memlay_scope.

(** * Events written as JSON *)

(** [format!("{:x}")] of a [u8], and [{:0>n}]. *)
Definition lower_hex (n : Z) : str :=
  if (n <? 16)%Z then [hex_char n] else [hex_char (n / 16); hex_char (n mod 16)].
Definition zero_pad (n : nat) (s : str) : str := replicate (n - length s) 48%N ++ s.

Definition event_json (id pubkey kind created_at : Z) (tags content : str) : str :=
  json_text "{'id':'" ++ zero_pad 64 (lower_hex id) ++ json_text "','pubkey':'"
  ++ zero_pad 64 (lower_hex pubkey) ++ json_text "','created_at':" ++ write_num created_at
  ++ json_text ",'kind':" ++ write_num kind ++ json_text ",'tags':[" ++ tags
  ++ json_text "],'content':'" ++ content ++ json_text "','sig':'" ++ zero_pad 128 (lit "0")
  ++ json_text "'}".

Definition make_event_with_content (id pubkey kind created_at : Z) (content : str) : panicky Event :=
  unwrap_ok (from_json_unchecked (as_bytes (event_json id pubkey kind created_at [] content))).
Definition make_event (id pubkey kind created_at : Z) : panicky Event :=
  make_event_with_content id pubkey kind created_at (lit "test").

Definition insert_outcome (ix : EventIndex) (e : Event) : InsertOutcome := (index_insert ix e).2.
Definition insert (ix : EventIndex) (e : Event) : EventIndex := (index_insert ix e).1.
Definition remove (ix : EventIndex) (id : bytes) : EventIndex := (index_remove ix id).1.

(** * Memory accounting *)

Definition test_memory_tracking_on_insert : scenario :=
  let! event := make_event 1 1 1 1000 in
  asserts [eqb (memory_bytes index_new) 0%Z;
           eqb (memory_bytes (insert index_new event)) (Z.of_nat (length (ev_raw event)))].

Definition test_memory_tracking_on_remove : scenario :=
  let! event := make_event 1 1 1 1000 in
  let index := insert index_new event in
  asserts [eqb (memory_bytes index) (Z.of_nat (length (ev_raw event)));
           eqb (memory_bytes (remove index (ev_id event))) 0%Z].

(** The events [lo], ..., [lo + n - 1] of the loop. *)
Fixpoint events_from (lo : Z) (n : nat) : panicky (list Event) :=
  match n with
  | O => Ret []
  | S n => let! e := make_event lo 1 1 (1000 + lo) in let! es := events_from (lo + 1) n in Ret (e :: es)
  end.
Definition raw_total (es : list Event) : Z := Z.of_nat (sum_list_with (fun e => length (ev_raw e)) es).

Definition test_memory_tracking_multiple_events : scenario :=
  let! events := events_from 0 10 in
  let! gone := events_from 0 5 in
  let index := foldl insert index_new events in
  let index2 := foldl (fun ix e => remove ix (ev_id e)) index gone in
  asserts [eqb (memory_bytes index) (raw_total events); eqb (index_len index) 10;
           eqb (memory_bytes index2) (raw_total events - raw_total gone)%Z; eqb (index_len index2) 5].

Definition test_memory_tracking_with_large_content : scenario :=
  let! small_event := make_event_with_content 1 1 1 1000 (lit "small") in
  let! large_event := make_event_with_content 2 1 1 1001 (replicate 1000 120%N) in
  let small_size := Z.of_nat (length (ev_raw small_event)) in
  let large_size := Z.of_nat (length (ev_raw large_event)) in
  let index1 := insert index_new small_event in
  let index2 := insert index1 large_event in
  let index3 := remove index2 (ev_id small_event) in
  let index4 := remove index3 (ev_id large_event) in
  asserts [eqb (memory_bytes index1) small_size; eqb (memory_bytes index2) (small_size + large_size)%Z;
           eqb (memory_bytes index3) large_size; eqb (memory_bytes index4) 0%Z].

Definition test_memory_tracking_with_replaceable_events : scenario :=
  let! event1 := make_event 1 1 10000 1000 in
  let! event2 := make_event 2 1 10000 2000 in
  let index1 := insert index_new event1 in
  let index2 := insert index1 event2 in
  asserts [eqb (memory_bytes index1) (Z.of_nat (length (ev_raw event1)));
           eqb (memory_bytes index2) (Z.of_nat (length (ev_raw event2)));
           eqb (index_len index2) 1].

(** * Contents *)

Definition test_insert_and_get : scenario :=
  let! event := make_event 1 1 1 1000 in
  let index := insert index_new event in
  let! retrieved := unwrap (index_get index (ev_id event)) in
  asserts [eqb (index_len index) 1; eqb (ev_id retrieved) (ev_id event)].

Definition test_remove : scenario :=
  let! event := make_event 1 1 1 1000 in
  let index := insert index_new event in
  let! removed := unwrap (index_remove index (ev_id event)).2 in
  let index2 := remove index (ev_id event) in
  asserts [eqb (index_len index) 1; eqb (ev_id removed) (ev_id event); eqb (index_len index2) 0;
           is_none (index_get index2 (ev_id event))].

Definition is_inserted (o : InsertOutcome) : bool := match o with Inserted _ => true | _ => false end.

Definition test_replaceable_older_does_not_replace_newer : scenario :=
  let! newer := make_event 2 1 10000 2000 in
  let! older := make_event 1 1 10000 1000 in
  let! newest := make_event 3 1 10000 3000 in
  let index1 := insert index_new newer in
  let index2 := insert index1 older in
  let index3 := insert index2 newest in
  asserts [eqb (index_len index1) 1;
           match insert_outcome index1 older with LostRace => true | _ => false end;
           eqb (index_len index2) 1; is_some (index_get index2 (ev_id newer));
           is_none (index_get index2 (ev_id older));
           is_inserted (insert_outcome index2 newest); eqb (index_len index3) 1;
           is_some (index_get index3 (ev_id newest)); is_none (index_get index3 (ev_id newer))].

Definition test_query_ordering : scenario :=
  let! e2 := make_event 2 1 1 2000 in
  let! e1 := make_event 1 1 1 1000 in
  let! e3 := make_event 3 1 1 3000 in
  let results := query_by_kind (foldl insert index_new [e2; e1; e3]) 1 10 in
  asserts [eqb (ev_created_at <$> results) [3000; 2000; 1000]%Z].

(** * Deletion *)

Definition test_delete_by_id_blocks_reinsert_and_clears_replaceable : scenario :=
  let! event := make_event 1 7 10002 5000 in
  let! newer := make_event 2 7 10002 6000 in
  let '(index, removed) := delete_by_id (insert index_new event) (ev_id event) in
  let index2 := insert index event in
  let index3 := insert index2 newer in
  asserts [is_some removed; is_tombstoned index (ev_id event);
           match insert_outcome index event with Deleted => true | _ => false end;
           is_none (index_get index2 (ev_id event));
           is_inserted (insert_outcome index2 newer); is_some (index_get index3 (ev_id newer))].

Definition test_coordinate_targets_spares_newer_versions : scenario :=
  let! event := make_event 1 7 10002 5000 in
  let index := insert index_new event in
  let coord := mkCoordinate 10002 (set_last zeros 7) [] in
  asserts [eqb (coordinate_targets index coord 4999) [];
           eqb (coordinate_targets index coord 5000) [ev_id event]].

Definition index_tests : list scenario :=
  [test_memory_tracking_on_insert; test_memory_tracking_on_remove;
   test_memory_tracking_multiple_events; test_memory_tracking_with_large_content;
   test_memory_tracking_with_replaceable_events; test_insert_and_get; test_remove;
   test_replaceable_older_does_not_replace_newer; test_query_ordering;
   test_delete_by_id_blocks_reinsert_and_clears_replaceable;
   test_coordinate_targets_spares_newer_versions].

(** * The cap of the tombstones *)

Section Capped.
Open Scope Z_scope.

(** The first eight bytes of an id: a number, little-endian. *)
Definition numbered_id (n : Z) : bytes := to_le_bytes 8 n ++ replicate 24 0.
Definition spread (i : Z) : Z := wrap64 (i * 0x9E3779B97F4A7C15).

Definition test_tombstones_are_capped : scenario :=
  let first := numbered_id (2 ^ 64 - 1) in
  let tombstones :=
    foldl (fun t id => tombstones_insert (tombstones_insert t id) id)
      (tombstones_insert tombstones_new first)
      ((fun i => numbered_id (spread i)) <$> seqZ 0 MAX_TOMBSTONES) in
  asserts [eqb (tombstones_len tombstones) MAX_TOMBSTONES;
           negb (tombstones_contains tombstones first)].

(** The factor is odd, so it has an inverse modulo 2 ^ 64. *)
Definition gather (n : Z) : Z := wrap64 (n * 0xf1de83e19937733d).

Lemma gather_spread i : u64_ok i -> gather (spread i) = i.
Proof.
  intros Hi. unfold gather, spread, wrap64. rewrite Zmult_mod_idemp_l, <- Z.mul_assoc.
  assert (Hinv : (0x9E3779B97F4A7C15 * 0xf1de83e19937733d) mod 2 ^ 64 = 1) by (vm_compute; reflexivity).
  rewrite <- Zmult_mod_idemp_r, Hinv, Z.mul_1_r. by apply Z.mod_small.
Qed.

Lemma numbered_id_inj n m :
  u64_ok n -> u64_ok m -> numbered_id n = numbered_id m -> n = m.
Proof.
  intros Hn Hm E. apply app_inj_1 in E as [E _]; [|by rewrite !length_to_le_bytes].
  apply (f_equal from_le_bytes) in E. by rewrite !from_to_le_bytes in E.
Qed.

Lemma spread_ids_nodup :
  NoDup (numbered_id (2 ^ 64 - 1)
    :: ((fun i => numbered_id (spread i)) <$> seqZ 0 MAX_TOMBSTONES)).
Proof.
  assert (forall i, i ∈ seqZ 0 MAX_TOMBSTONES -> 0 <= i < 262144) as Hb
    by (intros i Hi%elem_of_seqZ; unfold MAX_TOMBSTONES in Hi; lia).
  assert (forall i, i ∈ seqZ 0 MAX_TOMBSTONES -> gather (spread i) = i) as Hg.
  { intros i Hi%Hb. apply gather_spread. unfold u64_ok. lia. }
  apply NoDup_cons. split.
  - intros (i & E & Hi)%list_elem_of_fmap.
    apply numbered_id_inj in E; [|done|apply wrap64_range].
    pose proof (Hg _ Hi) as Ei. rewrite <- E in Ei. vm_compute in Ei. apply Hb in Hi. lia.
  - apply NoDup_fmap_2_strong; [|apply NoDup_seqZ].
    intros i j Hi Hj E%numbered_id_inj; [|apply wrap64_range..].
    rewrite <- (Hg i Hi), <- (Hg j Hj). by f_equal.
Qed.

Lemma tombstones_are_capped_passes : passes test_tombstones_are_capped = true.
Proof.
  assert (forall a b, a = true -> b = false -> passes (asserts [a; negb b]) = true) as Ha
    by by intros ? ? -> ->.
  apply Ha; [apply bool_decide_eq_true|];
    apply (tombs_insert_past_cap _ _ spread_ids_nodup); by rewrite length_fmap, length_seqZ.
Qed.
End Capped.
