(* ===== verification/UnitStore.v ===== *)
(** The unit tests of [src/src/store/mod.rs] and [src/src/store/wal.rs] as executable
    scenarios. A temporary directory is the [System]: its segments are in the store's
    [Wal], its snapshot beside the store; opening a second store on the directory takes
    what is on disk. [test_get_total_memory] asks the operating system and has no
    scenario. *)
From S2P Require Import Prelude Collections Text Event Reference Deletion Tombstones Index IndexInv IndexSpec IndexQuery Wal Store Recovery Journal Durability Startup Json UnitEvent.
Open Scope memlay_scope.

(** * Events, stores and directories *)

Definition set_byte (arr : bytes) (byte : Z) : bytes := <[31 := byte]> arr.

Definition test_builder (pubkey kind created_at : Z) : EventBuilder :=
  set_content (lit "test") (set_created_at created_at (set_kind kind
    (set_pubkey (set_byte zeros pubkey) builder_new))).
(** The helpers ignore their [_id]. *)
Definition make_event (_id pubkey kind created_at : Z) : panicky Event :=
  build (test_builder pubkey kind created_at).
Definition make_event_with_d_tag (_id pubkey kind created_at : Z) (d_tag : string)
    : panicky Event :=
  build (add_tag (lit "d") (lit d_tag) (test_builder pubkey kind created_at)).

(** The events of a loop over [i], the [n] values from [lo]. *)
Fixpoint events_of (event : Z -> panicky Event) (lo : Z) (n : nat) : panicky (list Event) :=
  match n with
  | O => Ret []
  | S n => let! e := event lo in let! es := events_of event (lo + 1) n in Ret (e :: es)
  end.

Definition new_store (config : StoreConfig) : EventStore := store_new no_faults config None None 0.
Definition default_store : EventStore := new_store default_config.
Definition store_with_limit (max_bytes : Z) : EventStore :=
  new_store (mkConfig max_bytes None false).

Definition put (st : EventStore) (e : Event) : EventStore := (store_insert st e).1.
Definition put_result (st : EventStore) (e : Event) : InsertResult := (store_insert st e).2.
Definition fetch (st : EventStore) (id : bytes) : option Event := index_get (st_index st) id.
Definition tombstoned (st : EventStore) (id : bytes) : bool := is_tombstoned (st_index st) id.

(** The events a [Stored] result reports replaced; [None] for another result. *)
Definition stored_replaced (r : InsertResult) : option (list bytes) :=
  match r with IRStored _ replaced => Some (ev_id <$> replaced) | _ => None end.
Definition is_stored (r : InsertResult) : bool := is_some (stored_replaced r).

(** [StoreConfig::with_persistence(0, path)] on a directory of any name. *)
Definition on_disk : StoreConfig := with_persistence 0 0 (lit "dir").
Definition empty_dir : System := mkSystem (new_store on_disk) None.
Definition on_store (f : EventStore -> EventStore) (sys : System) : System :=
  mkSystem (f (sys_store sys)) (sys_snapshot sys).
Definition put_all (sys : System) (es : list Event) : System := on_store (fun st => foldl put st es) sys.

(** [wal.log], [wal.log.old] and the length of [wal.log]. *)
Definition log_file (sys : System) : option Seg := st_wal (sys_store sys) ≫= w_log.
Definition old_file (sys : System) : option Seg := st_wal (sys_store sys) ≫= w_old.
Definition file_size (s : option Seg) : Z :=
  match s with Some s => Z.of_nat (length (seg_data s)) | None => 0 end.

(** [EventStore::new] on the same directory. *)
Definition reopen (config : StoreConfig) (sys : System) : System :=
  mkSystem (store_new no_faults config (log_file sys) (old_file sys) 0) (sys_snapshot sys).

(** [save_to_disk().unwrap()] and [checkpoint().unwrap()]. *)
Definition saved (sys : System) : panicky System :=
  let '(sys', r) := save_to_disk keep_order no_faults sys in let! _ := unwrap_ok r in Ret sys'.
Definition checkpointed (sys : System) : panicky System :=
  let '(sys', r) := checkpoint keep_order no_faults no_faults sys in
  let! _ := unwrap_ok r in Ret sys'.
Definition loaded (sys : System) : panicky (System * Z) :=
  load_from_disk keep_order all_read no_faults no_faults sys.

(** * In memory *)

Definition test_insert_and_get : scenario :=
  let! event := make_event 1 1 1 1000 in
  let! retrieved := unwrap (fetch (put default_store event) (ev_id event)) in
  asserts [eqb (ev_id retrieved) (ev_id event)].

Definition test_insert_ephemeral_event : scenario :=
  let! ephemeral := make_event 1 1 20001 1000 in
  asserts [match put_result default_store ephemeral with IREphemeral => true | _ => false end;
           eqb (store_len (put default_store ephemeral)) 0%Z].

Definition test_insert_replaceable_event_replaces_old : scenario :=
  let! event1 := make_event 1 1 10000 1000 in
  let! event2 := make_event 2 1 10000 2000 in
  let store1 := put default_store event1 in
  let store2 := put store1 event2 in
  let! retrieved := unwrap (fetch store2 (ev_id event2)) in
  asserts [is_stored (put_result default_store event1); eqb (store_len store1) 1%Z;
           eqb (stored_replaced (put_result store1 event2)) (Some [ev_id event1]);
           eqb (store_len store2) 1%Z; eqb (ev_id retrieved) (ev_id event2);
           is_none (fetch store2 (ev_id event1))].

Definition test_insert_addressable_event_replaces_by_d_tag : scenario :=
  let! event1 := make_event_with_d_tag 1 1 30000 1000 "profile" in
  let! event2 := make_event_with_d_tag 2 1 30000 2000 "profile" in
  let! event3 := make_event_with_d_tag 3 1 30000 3000 "settings" in
  let store1 := put default_store event1 in
  let store2 := put store1 event2 in
  let store3 := put store2 event3 in
  asserts [is_stored (put_result default_store event1); eqb (store_len store1) 1%Z;
           eqb (stored_replaced (put_result store1 event2)) (Some [ev_id event1]);
           eqb (store_len store2) 1%Z; eqb (stored_replaced (put_result store2 event3)) (Some []);
           eqb (store_len store3) 2%Z].

Definition test_insert_regular_event_no_replacement : scenario :=
  let! event1 := make_event 1 1 1 1000 in
  let! event2 := make_event 2 1 1 2000 in
  let store1 := put default_store event1 in
  let store2 := put store1 event2 in
  asserts [eqb (stored_replaced (put_result default_store event1)) (Some []);
           eqb (store_len store1) 1%Z; eqb (stored_replaced (put_result store1 event2)) (Some []);
           eqb (store_len store2) 2%Z].

Definition test_insert_duplicate_event : scenario :=
  let! event := make_event 1 1 1 1000 in
  let store1 := put default_store event in
  asserts [eqb (store_len store1) 1%Z;
           match put_result store1 event with IRDuplicate => true | _ => false end;
           eqb (store_len (put store1 event)) 1%Z].

Definition test_batch_insert_with_ephemeral_and_replaceable : scenario :=
  let! regular := make_event 1 1 1 1000 in
  let! ephemeral := make_event 2 1 20001 1001 in
  let! replaceable := make_event 3 1 10000 1002 in
  let! another := make_event 4 1 1 1003 in
  let '(store, (inserted, replaced)) :=
    insert_batch default_store [regular; ephemeral; replaceable; another] in
  asserts [eqb inserted 3%Z; eqb (length replaced) 0; eqb (store_len store) 3%Z;
           is_none (fetch store (ev_id ephemeral))].

Definition test_apply_deletion_ignores_foreign_and_unknown : scenario :=
  let! mine := make_event 1 1 1 1000 in
  let! theirs := make_event 2 2 1 1000 in
  let unknown := replicate 32 9%Z in
  let '(store, outcome) :=
    apply_deletion (put (put default_store mine) theirs) [ev_id theirs; unknown] []
      (ev_pubkey mine) 2000 in
  asserts [eqb (do_deleted_ids outcome) []; eqb (do_skipped_foreign outcome) 1;
           is_some (fetch store (ev_id theirs)); negb (tombstoned store unknown)].

(** * The payload budget; amplifications are in thousandths *)

Definition GIB : Z := (1024 * 1024 * 1024)%Z.

Definition payload_budget_discounts_index_overhead : scenario :=
  let store := store_with_limit (8 * GIB) in
  let store2 := with_amplification 2000 store in
  asserts [eqb (amplification_milli store) 4000%Z; eqb (payload_budget store) (2 * GIB)%Z;
           eqb (payload_budget store2) (4 * GIB)%Z; eqb (payload_budget (store_with_limit 0)) 0%Z].

Definition payload_budget_never_exceeds_the_limit : scenario :=
  asserts [eqb (payload_budget (with_amplification 1 (store_with_limit 1024))) 1024%Z].

(** [EventIndex::add_memory_bytes_for_test]. *)
Definition add_memory_bytes_for_test (n : Z) (ix : EventIndex) : EventIndex :=
  with_counters (fetch_add (memory_bytes ix) n) (event_count ix) ix.

Definition amplification_converges_from_both_directions : scenario :=
  let payload := GIB in
  let store0 := store_with_limit (8 * GIB) in
  let store := with_index (add_memory_bytes_for_test payload (st_index store0)) store0 in
  let store1 := sample_many 64 store (payload * 2) in
  let store2 := sample_many 64 store1 (payload * 6) in
  asserts [(Z.abs (amplification_milli store1 - 2000) <? 100)%Z; (payload_budget store1 >? 0)%Z;
           (Z.abs (amplification_milli store2 - 6000) <? 100)%Z].

Definition amplification_ignores_an_empty_store : scenario :=
  let store := sample_amplification (store_with_limit (8 * GIB)) (900 * 1024 * 1024) in
  asserts [eqb (amplification_milli store) 4000%Z].

(** * Persistence *)

Definition test_persistence_save_and_load : scenario :=
  let! events := events_of (fun i => make_event i 1 1 (1000 * i)) 1 3 in
  let sys := put_all empty_dir events in
  let! sys1 := saved sys in
  let! ld := loaded (reopen on_disk sys1) in let '(_, n) := ld in
  asserts [eqb (store_len (sys_store sys)) 3%Z; is_some (log_file sys); is_some (log_file sys1);
           (file_size (log_file sys1) >? 0)%Z; is_none (sys_snapshot sys1); eqb n 3%Z].

Definition test_persistence_no_file_when_disabled : scenario :=
  let! event := make_event 1 1 1 1000 in
  let! _ := saved (mkSystem (put default_store event) None) in asserts [].

Definition test_persistence_load_when_no_file : scenario :=
  let! ld := loaded empty_dir in let '(_, n) := ld in asserts [eqb n 0%Z].

Definition test_wal_persistence_and_replay : scenario :=
  let! event1 := make_event 1 1 1 1000 in
  let! event2 := make_event 2 1 1 2000 in
  let sys := put_all empty_dir [event1; event2] in
  let! sys1 := saved sys in
  let! ld := loaded (reopen on_disk sys1) in let '(sys2, n) := ld in
  asserts [eqb (store_len (sys_store sys)) 2%Z; is_some (log_file sys1);
           is_none (sys_snapshot sys1); eqb n 2%Z; is_some (fetch (sys_store sys2) (ev_id event1));
           is_some (fetch (sys_store sys2) (ev_id event2))].

Definition test_wal_delete_replay : scenario :=
  let! event1 := make_event 1 1 1 1000 in
  let! event2 := make_event 2 1 1 2000 in
  let sys := put_all empty_dir [event1; event2] in
  let! sys1 := saved sys in
  let sys2 := on_store (fun st =>
                with_wal ((fun w => wal_delete w (ev_id event1)) <$> st_wal st) st) sys1 in
  let! sys3 := saved sys2 in
  let! ld := loaded (reopen on_disk sys3) in let '(sys4, n) := ld in
  let store2 := sys_store sys4 in
  asserts [eqb (store_len (sys_store sys)) 2%Z; eqb n 3%Z; eqb (store_len store2) 1%Z;
           is_none (fetch store2 (ev_id event1)); is_some (fetch store2 (ev_id event2));
           negb (tombstoned store2 (ev_id event1)); is_stored (put_result store2 event1)].

Definition test_nip09_tombstone_survives_wal_replay : scenario :=
  let! event := make_event 1 1 1 1000 in
  let! sys1 := saved (put_all empty_dir [event]) in
  let '(st2, outcome) := apply_deletion (sys_store sys1) [ev_id event] [] (ev_pubkey event) 2000 in
  let! sys3 := saved (mkSystem st2 (sys_snapshot sys1)) in
  let! ld := loaded (reopen on_disk sys3) in let '(sys4, _) := ld in
  let store2 := sys_store sys4 in
  asserts [eqb (do_deleted_ids outcome) [ev_id event]; is_none (fetch store2 (ev_id event));
           tombstoned store2 (ev_id event);
           match put_result store2 event with IRDeleted => true | _ => false end].

Definition test_wal_replay_respects_memory_limit : scenario :=
  let! events := events_of (fun i => make_event i 1 1 i) 0 100 in
  let sys := put_all empty_dir events in
  let! sys1 := saved sys in
  let! ld := loaded (reopen (mkConfig 1024 (Some (lit "dir")) true) sys1) in let '(sys2, n) := ld in
  let! newest := make_event 99 1 1 99 in
  let! oldest := make_event 0 1 1 0 in
  let store2 := sys_store sys2 in
  asserts [eqb (store_len (sys_store sys)) 100%Z; eqb n 100%Z; (store_len store2 <? 100)%Z;
           is_some (fetch store2 (ev_id newest)); is_none (fetch store2 (ev_id oldest))].

(** * Checkpoints *)

Definition test_checkpoint_writes_snapshot_and_resets_wal : scenario :=
  let! events := events_of (fun i => make_event i 1 1 (1000 + i)) 0 10 in
  let sys := put_all empty_dir events in
  let! sys1 := checkpointed sys in
  let! ld := loaded (reopen on_disk sys1) in let '(sys2, _) := ld in
  asserts [eqb (store_len (sys_store sys)) 10%Z; (file_size (log_file sys) >? 0)%Z;
           is_some (sys_snapshot sys1); eqb (file_size (log_file sys1)) 0%Z;
           is_none (old_file sys1); eqb (store_len (sys_store sys2)) 10%Z].

Definition test_checkpoint_drops_evicted_events : scenario :=
  let! events := events_of (fun i => make_event i 1 1 (1000 + i)) 0 20 in
  let sys := put_all empty_dir events in
  let! oldest := get_oldest (st_index (sys_store sys)) 10 in
  let sys1 := on_store (fun st => with_index
    (foldl (fun ix er => (index_remove ix (er_id er)).1) (st_index st) oldest) st) sys in
  let! sys2 := checkpointed sys1 in
  let! ld := loaded (reopen on_disk sys2) in let '(sys3, _) := ld in
  let! newest := make_event 19 1 1 1019 in
  let! first := make_event 0 1 1 1000 in
  let store2 := sys_store sys3 in
  asserts [eqb (store_len (sys_store sys)) 20%Z; eqb (store_len (sys_store sys1)) 10%Z;
           eqb (store_len store2) 10%Z; is_some (fetch store2 (ev_id newest));
           is_none (fetch store2 (ev_id first))].

Definition test_recovery_replays_leftover_rotated_wal : scenario :=
  let! events := events_of (fun i => make_event i 1 1 (1000 * i)) 1 4 in
  let! sys1 := checkpointed (put_all empty_dir (take 2 events)) in
  let sys2 := put_all sys1 (take 1 (drop 2 events)) in
  let! wal := unwrap (st_wal (sys_store sys2)) in
  let '(wal', r) := rotate no_faults wal in
  let! _ := unwrap_ok r in
  let sys3 := put_all (set_wal wal' sys2) (drop 3 events) in
  let! ld := loaded (reopen on_disk sys3) in let '(sys4, _) := ld in
  asserts ([is_some (old_file sys3); eqb (store_len (sys_store sys4)) 4%Z]
           ++ ((fun e => is_some (fetch (sys_store sys4) (ev_id e))) <$> events)
           ++ [is_none (old_file sys4)]).

(** * The log alone *)

(** [WriteAheadLog::open(&path).unwrap()] on a directory holding [log]. *)
Definition opened (log : option Seg) : panicky Wal := unwrap_ok (wal_open no_faults log None).

Definition log_event (byte created_at : Z) (content : string) : panicky Event :=
  build (set_content (lit content) (set_created_at created_at (set_kind 1
    (set_pubkey (replicate 32 byte) builder_new)))).

Definition test_wal_truncation_after_checkpoint : scenario :=
  let! wal := opened None in
  let! event := log_event 1 1000 "test" in
  let wal1 := wal_insert wal event in
  let '(wal2, r) := truncate no_faults wal1 in
  let! _ := unwrap_ok r in
  asserts [(file_size (w_log wal1) >? 0)%Z; eqb (file_size (w_log wal2)) 0%Z].

(** The message asserted on is that of the oversized record. *)
Definition test_wal_replay_max_size_validation : scenario :=
  let data := [0%Z] ++ to_le_bytes 4 (1024 * 1024 * 1024) in
  let! wal := opened (Some (mkSeg data 0)) in
  asserts [match (replay (fun st _ => st) tt wal).2 with
           | Err OversizedRecord => true | _ => false end].

(** The inserts, deletes and tombstones seen by a replay. *)
Definition count_op (c : Z * Z * Z) (op : WalOp) : Z * Z * Z :=
  let '(inserts, deletes, tombstones) := c in
  match op with
  | WInsert _ => (inserts + 1, deletes, tombstones)
  | WDelete _ => (inserts, deletes + 1, tombstones)
  | WTombstone _ => (inserts, deletes, tombstones + 1)
  end%Z.
Definition counted (wal : Wal) : panicky (Z * Z * Z) :=
  let '(c, r) := replay count_op (0, 0, 0)%Z wal in let! _ := unwrap_ok r in Ret c.

Definition test_wal_append_and_replay : scenario :=
  let! wal := opened None in
  let! event := log_event 1 1000 "test" in
  let! c := counted (wal_tombstone (wal_delete (wal_insert wal event) (ev_id event)) (ev_id event)) in
  asserts [eqb c (1, 1, 1)%Z].

Definition test_wal_persistence : scenario :=
  let! wal := opened None in
  let! event := log_event 1 1000 "test" in
  let! wal2 := opened (w_log (wal_insert wal event)) in
  let! c := counted wal2 in
  asserts [eqb c.1.1 1%Z].

Definition test_wal_compact_removes_old_entries : scenario :=
  let! wal := opened None in
  let! events := events_of (fun i => log_event i i "test event data that adds some size") 0 50 in
  let wal1 := foldl wal_insert wal events in
  let '(wal2, r) := compact no_faults (list_to_set (ev_id <$> drop 30 events)) wal1 in
  let! removed := unwrap_ok r in
  let! c := counted wal2 in
  asserts [(file_size (w_log wal1) >? 0)%Z; eqb removed 30%Z;
           (file_size (w_log wal2) <? file_size (w_log wal1))%Z; eqb c (20, 0, 0)%Z].

Definition memory_tests : list scenario :=
  [test_insert_and_get; test_insert_ephemeral_event; test_insert_replaceable_event_replaces_old;
   test_insert_addressable_event_replaces_by_d_tag; test_insert_regular_event_no_replacement;
   test_insert_duplicate_event; test_batch_insert_with_ephemeral_and_replaceable;
   test_apply_deletion_ignores_foreign_and_unknown; payload_budget_discounts_index_overhead;
   payload_budget_never_exceeds_the_limit; amplification_converges_from_both_directions;
   amplification_ignores_an_empty_store].

Definition disk_tests : list scenario :=
  [test_persistence_save_and_load; test_persistence_no_file_when_disabled;
   test_persistence_load_when_no_file; test_wal_persistence_and_replay; test_wal_delete_replay;
   test_nip09_tombstone_survives_wal_replay; test_wal_replay_respects_memory_limit;
   test_checkpoint_writes_snapshot_and_resets_wal; test_checkpoint_drops_evicted_events;
   test_recovery_replays_leftover_rotated_wal; test_wal_truncation_after_checkpoint;
   test_wal_replay_max_size_validation; test_wal_append_and_replay; test_wal_persistence;
   test_wal_compact_removes_old_entries].

(** * The host's memory *)

Definition test_get_total_memory (h : Host) : scenario :=
  let memory := get_total_memory h in
  asserts [(memory >? 0)%Z; (memory <=? 2 ^ 64 - 1)%Z].

(** It passes where the operating system reports a [u64], and no limit of zero. *)
Lemma get_total_memory_passes h :
  u64_ok (h_total_memory h) -> from_option u64_ok True (h_cgroup_limit h) ->
  passes (test_get_total_memory h)
  = negb (default (h_total_memory h) (h_cgroup_limit h) =? 0)%Z.
Proof.
  unfold test_get_total_memory, get_total_memory, passes, asserts, u64_ok. cbn [forallb id].
  intros Ht Hc. set (m := default _ _).
  assert (0 <= m < 2 ^ 64)%Z as Hm by (subst m; by destruct (h_cgroup_limit h)).
  clearbody m. unfold id. lia.
Qed.
