(* ===== verification/UnitLive.v ===== *)
(** The unit tests of [src/src/subscription.rs], [src/src/fanout.rs] and
    [src/src/proxy.rs] as executable scenarios. Every publication of a fanout scenario
    happens at time 0, inside one drop window. *)
From S2P Require Import Prelude Collections Text Event Reference Deletion Tombstones Index IndexInv IndexSpec IndexQuery Wal Store Subscription Fanout Proxy Json UnitEvent UnitIndex UnitStore.
Open Scope memlay_scope.

(** * [subscription.rs]: events and filters *)

(** [raw_tags.join(",")]. *)
Fixpoint join_comma (l : list str) : str :=
  match l with [] => [] | [s] => s | s :: l => s ++ lit "," ++ join_comma l end.

Definition make_event_with_raw_tags (id pubkey kind created_at : Z) (raw_tags : list str)
    : panicky Event :=
  unwrap_ok (from_json_unchecked (as_bytes
    (event_json id pubkey kind created_at (join_comma raw_tags) (lit "test")))).
Definition make_event (id pubkey kind created_at : Z) : panicky Event :=
  make_event_with_raw_tags id pubkey kind created_at [].

Definition raw_tag (name : string) (value : str) : str :=
  json_text "['" ++ lit name ++ json_text "','" ++ value ++ json_text "']".
Definition make_event_with_tags (id pubkey kind created_at : Z) (e_tags p_tags : list Z)
    : panicky Event :=
  make_event_with_raw_tags id pubkey kind created_at
    (((fun e => raw_tag "e" (zero_pad 64 (lower_hex e))) <$> e_tags)
     ++ ((fun p => raw_tag "p" (zero_pad 64 (lower_hex p))) <$> p_tags)).

Definition tag_filter (letter : N) (values : list str) : Filter :=
  with_tag letter values filter_default.

(** [From<&str> for Hex32]. *)
Definition hex32_from (s : str) : panicky bytes :=
  match hex_decode s with
  | Some b => if bool_decide (length b = 32) then Ret b else Panic
  | None => Panic
  end.
Definition author_of (byte : Z) : panicky bytes := hex32_from (hex_encode (set_byte zeros byte)).

(** A default store with the events inserted in turn. *)
Fixpoint store_with (events : list (panicky Event)) (st : EventStore) : panicky EventStore :=
  match events with
  | [] => Ret st
  | e :: events => let! e := e in store_with events (put st e)
  end.
Definition queried (events : list (panicky Event)) (f : Filter) : panicky (list Event) :=
  let! st := store_with events default_store in query_filter st f.
Definition last_byte (e : Event) : option Z := ev_id e !! 31.

(** * [subscription.rs]: queries *)

Definition test_query_empty_filter : scenario :=
  let! results := queried [] filter_default in asserts [eqb results []].

Definition test_query_by_kind : scenario :=
  let! results := queried [make_event 1 1 1 1000; make_event 2 1 1 2000; make_event 3 1 2 3000]
                    (with_kinds [1%Z] filter_default) in
  asserts [eqb (ev_created_at <$> results) [2000; 1000]%Z].

Definition test_query_by_author : scenario :=
  let! author := author_of 1 in
  let! results := queried [make_event 1 1 1 1000; make_event 2 1 1 2000; make_event 3 2 1 3000]
                    (with_authors [author] filter_default) in
  asserts [eqb (length results) 2].

Definition test_query_by_id : scenario :=
  let! event1 := make_event 1 1 1 1000 in
  let! id := hex32_from (hex_encode (ev_id event1)) in
  let! results := queried [Ret event1; make_event 2 1 1 2000] (with_ids [id] filter_default) in
  asserts [eqb (ev_id <$> results) [ev_id event1]].

Definition test_query_and_kind_author : scenario :=
  let! author := author_of 1 in
  let! results := queried [make_event 1 1 1 1000; make_event 2 2 1 2000; make_event 3 1 2 3000]
                    (with_authors [author] (with_kinds [1%Z] filter_default)) in
  asserts [eqb (last_byte <$> results) [Some 1%Z]].

Definition test_query_and_kind_author_p_tag : scenario :=
  let! author := author_of 1 in
  let! results := queried [make_event_with_tags 1 1 1 1000 [] [3%Z];
                           make_event_with_tags 2 1 1 2000 [] [4%Z];
                           make_event_with_tags 3 2 1 3000 [] [3%Z]]
                    (with_tag letter_p [hex_encode (set_byte zeros 3)]
                      (with_authors [author] (with_kinds [1%Z] filter_default))) in
  asserts [eqb (last_byte <$> results) [Some 1%Z]].

Definition test_query_since_until : scenario :=
  let! results := queried [make_event 1 1 1 1000; make_event 2 1 1 2000; make_event 3 1 1 3000]
                    (with_until 2500 (with_since 1500 (with_kinds [1%Z] filter_default))) in
  asserts [eqb (ev_created_at <$> results) [2000%Z]].

Definition test_query_e_tag : scenario :=
  let! event1 := make_event 1 1 1 1000 in
  let! event2 := make_event_with_raw_tags 2 1 1 2000 [raw_tag "e" (hex_encode (ev_id event1))] in
  let! results := queried [Ret event1; Ret event2]
                    (tag_filter letter_e [hex_encode (set_byte zeros 1)]) in
  asserts [eqb (ev_id <$> results) [ev_id event2]].

Definition test_query_limit : scenario :=
  let! results := queried [make_event 1 1 1 1000; make_event 2 1 1 2000; make_event 3 1 1 3000]
                    (with_limit 2 (with_kinds [1%Z] filter_default)) in
  asserts [eqb (length results) 2].

Definition test_query_multiple_authors : scenario :=
  let! author1 := author_of 1 in
  let! author2 := author_of 2 in
  let! results := queried [make_event 1 1 1 1000; make_event 2 2 1 2000; make_event 3 3 1 3000]
                    (with_authors [author1; author2] filter_default) in
  asserts [eqb (length results) 2].

Definition test_query_multiple_kinds : scenario :=
  let! results := queried [make_event 1 1 1 1000; make_event 2 1 2 2000; make_event 3 1 3 3000]
                    (with_kinds [1; 2]%Z filter_default) in
  asserts [eqb (length results) 2].

Definition test_query_p_tag : scenario :=
  let! results := queried [make_event_with_tags 1 2 1 1000 [] [1%Z];
                           make_event_with_tags 2 2 1 2000 [] [2%Z]]
                    (tag_filter letter_p [hex_encode (set_byte zeros 1)]) in
  asserts [eqb (last_byte <$> results) [Some 1%Z]].

(** The ids [1] and [3], in either order. *)
Definition test_query_generic_t_tag : scenario :=
  let nostr := raw_tag "t" (lit "nostr") in
  let bitcoin := raw_tag "t" (lit "bitcoin") in
  let! results := queried [make_event_with_raw_tags 1 1 1 1000 [nostr];
                           make_event_with_raw_tags 2 1 1 2000 [bitcoin];
                           make_event_with_raw_tags 3 1 1 3000 [nostr; bitcoin]]
                    (tag_filter 116 [lit "nostr"]) in
  asserts [eqb (length results) 2;
           bool_decide (last_byte <$> results ≡ₚ [Some 1%Z; Some 3%Z])].

Definition test_repeated_query_returns_same_results : scenario :=
  let! st := store_with [make_event 1 1 1 1000; make_event 2 1 1 2000; make_event 3 1 2 3000]
               default_store in
  let f := with_limit 10 (with_kinds [1%Z] filter_default) in
  let! results1 := query_filter st f in
  let! results2 := query_filter st f in
  asserts [eqb (length results1) 2; eqb (ev_id <$> results1) (ev_id <$> results2)].

Definition test_new_event_visible_in_subsequent_query : scenario :=
  let! st := store_with [make_event 1 1 1 1000; make_event 2 1 1 2000] default_store in
  let f := with_limit 10 (with_kinds [1%Z] filter_default) in
  let! results1 := query_filter st f in
  let! new_event := make_event 3 1 1 3000 in
  let! results2 := query_filter (put st new_event) f in
  asserts [eqb (length results1) 2; eqb (length results2) 3;
           bool_decide (ev_id new_event ∈ ev_id <$> results2)].

Definition test_query_respects_varying_limits : scenario :=
  let! st := store_with ((fun i => make_event (i + 1) 1 1 (1000 + i)) <$> [0; 1; 2; 3; 4]%Z)
               default_store in
  let! small := query_filter st (with_limit 2 (with_kinds [1%Z] filter_default)) in
  let! large := query_filter st (with_limit 10 (with_kinds [1%Z] filter_default)) in
  asserts [eqb (length small) 2; eqb (length large) 5].

Definition query_tests : list scenario :=
  [test_query_empty_filter; test_query_by_kind; test_query_by_author; test_query_by_id;
   test_query_and_kind_author; test_query_and_kind_author_p_tag; test_query_since_until;
   test_query_e_tag; test_query_limit; test_query_multiple_authors; test_query_multiple_kinds;
   test_query_p_tag; test_query_generic_t_tag; test_repeated_query_returns_same_results;
   test_new_event_visible_in_subsequent_query; test_query_respects_varying_limits].

(** * [fanout.rs] *)

(** A bounded channel: its capacity and the messages waiting in it. *)
#[export] Instance bounded_channel : Channel := {|
  chan := nat * list str;
  try_send c m := if bool_decide (length c.2 < c.1) then Some (c.1, c.2 ++ [m]) else None;
|}.
Definition channel (capacity : nat) : nat * list str := (capacity, []).

Definition kind_filter (kinds : option (list Z)) : Filter :=
  match kinds with Some ks => with_kinds ks filter_default | None => filter_default end.

(** An event of kind 1 as the tests build it; building is deterministic, so a loop that
    builds one each turn publishes the same event each time. *)
Definition kind_1_event : panicky Event := build (set_kind 1 builder_new).
Definition after_publishing (e : Event) (fo : Fanout) : Fanout :=
  publish (fun _ _ => 0%Z) (broadcast_new e) fo.
(** The connection's state, and whether its [try_recv] would succeed. *)
Definition conn_of (fo : Fanout) (id : Z) : panicky ConnState := unwrap (fo_states fo !! id).
Definition received (fo : Fanout) (id : Z) : panicky bool :=
  let! c := conn_of fo id in Ret (match (c_tx c).2 with [] => false | _ => true end).

Definition idle_connections_receive_nothing : scenario :=
  let '(fanout, conn) := register (channel 8) 0 fanout_new in
  let! ev := kind_1_event in
  let! rx := received (after_publishing ev fanout) conn in
  asserts [negb rx].

Definition kind_index_routes_only_to_interested : scenario :=
  let '(fo1, c1) := register (channel 8) 0 fanout_new in
  let fo2 := set_sub c1 (lit "a") [kind_filter (Some [1%Z])] fo1 in
  let '(fo3, c2) := register (channel 8) 0 fo2 in
  let fo4 := set_sub c2 (lit "b") [kind_filter (Some [7%Z])] fo3 in
  let '(fo5, c3) := register (channel 8) 0 fo4 in
  let fo6 := set_sub c3 (lit "c") [kind_filter None] fo5 in
  let! ev := kind_1_event in
  let fo := after_publishing ev fo6 in
  let! rx1 := received fo c1 in
  let! rx2 := received fo c2 in
  let! rx3 := received fo c3 in
  asserts [rx1; negb rx2; rx3].

Definition removing_subs_deindexes : scenario :=
  let '(fo1, conn) := register (channel 8) 0 fanout_new in
  let fo2 := set_sub conn (lit "a") [kind_filter (Some [1%Z])] fo1 in
  let '(fo3, removed) := remove_sub conn (lit "a") fo2 in
  let! ev := kind_1_event in
  let! rx := received (after_publishing ev fo3) conn in
  asserts [removed; negb rx].

Definition overflow_queues_closed_and_kills_slow_peer : scenario :=
  let '(fo1, conn) := register (channel 1) 0 fanout_new in
  let fo2 := set_sub conn (lit "a") [kind_filter (Some [1%Z])] fo1 in
  let! ev := kind_1_event in
  let fo := Nat.iter (Z.to_nat (MAX_DROPS_PER_WINDOW + 8)) (after_publishing ev) fo2 in
  let! c := conn_of fo conn in
  asserts [(c_dropped c >? 0)%Z; eqb (length (take_overflowed c).2) 1; c_kill c].

Definition fanout_tests : list scenario :=
  [idle_connections_receive_nothing; kind_index_routes_only_to_interested;
   removing_subs_deindexes; overflow_queues_closed_and_kills_slow_peer].

(** * [proxy.rs] *)

(** The address of a literal [ip:port]. *)
Definition addr (ip : string) (port : Z) : panicky SocketAddr :=
  let! ip := unwrap (parse_ip (lit ip)) in Ret (socket_addr_new ip port).
Definition pairs (l : list (string * string)) : HeaderMap :=
  headers ((fun p => (lit p.1, lit p.2)) <$> l).
#[export] Instance SocketAddr_eq_dec : EqDecision SocketAddr.
Proof. solve_decision. Defined.
(** The peer at port 4444, seen through the networks and headers given. *)
Definition client_of (nets : list string) (ip : string) (h : list (string * string))
    : panicky SocketAddr :=
  let! peer := addr ip 4444 in Ret (client_addr (trusted_parse (lit <$> nets)) peer (pairs h)).
Definition attributed (got : panicky SocketAddr) (ip : string) : panicky bool :=
  let! got := got in let! want := addr ip 4444 in Ret (eqb got want).

Definition untrusted_peer_headers_are_ignored : scenario :=
  attributed (client_of ["10.244.0.0/16"%string] "203.0.113.7" [("x-forwarded-for", "1.2.3.4")%string])
    "203.0.113.7".
Definition trusted_peer_headers_are_used : scenario :=
  attributed (client_of ["10.244.0.0/16"%string] "10.244.0.93"
                [("x-forwarded-for", "1.2.3.4, 10.244.0.93")%string]) "1.2.3.4".
Definition real_ip_wins_over_forwarded_for : scenario :=
  attributed (client_of ["10.244.0.93"%string] "10.244.0.93"
                [("x-real-ip", "9.9.9.9"); ("x-forwarded-for", "1.2.3.4")]%string) "9.9.9.9".
Definition ipv4_mapped_peer_matches_ipv4_cidr : scenario :=
  attributed (client_of ["10.244.0.0/16"%string] "::ffff:10.244.0.93"
                [("x-real-ip", "1.2.3.4")%string]) "1.2.3.4".
Definition garbage_header_falls_back_to_peer : scenario :=
  let! garbage := attributed (client_of ["10.244.0.0/16"%string] "10.244.0.93"
                    [("x-forwarded-for", "not-an-ip")%string]) "10.244.0.93" in
  let! absent := attributed (client_of ["10.244.0.0/16"%string] "10.244.0.93" []) "10.244.0.93" in
  asserts [garbage; absent].
Definition no_config_means_peer_only : scenario :=
  let! peer := attributed (client_of [] "10.244.0.93" [("x-real-ip", "1.2.3.4")%string])
                 "10.244.0.93" in
  asserts [trusted_is_empty (trusted_parse []); peer].

Definition proxy_tests : list scenario :=
  [untrusted_peer_headers_are_ignored; trusted_peer_headers_are_used;
   real_ip_wins_over_forwarded_for; ipv4_mapped_peer_matches_ipv4_cidr;
   garbage_header_falls_back_to_peer; no_config_means_peer_only].
