(* ===== verification/Conformance.v ===== *)
(** The repository's own unit tests, run on the model: every scenario of [UnitEvent],
    [UnitIndex], [UnitStore] and [UnitLive]. The one that fills the tombstones to their
    cap is proved where it is stated. *)
From S2P Require Import Prelude Event Index Store Subscription Fanout Proxy UnitEvent UnitIndex UnitStore UnitLive.

Definition unit_tests : list scenario :=
  event_tests ++ deletion_tests ++ index_tests ++ memory_tests ++ disk_tests
  ++ query_tests ++ fanout_tests ++ proxy_tests.

(** The model agrees with every expectation the repository's unit tests state
    (events and deletion requests, the index, the store with its persistence and
    recovery, the log, queries, the fanout and the proxy rules): each scenario runs
    without panicking and all its assertions hold. *)
Theorem unit_tests_pass : Forall (fun t => passes t = true) unit_tests.
Proof.
  apply Forall_forall. intros t Ht. apply list_elem_of_In in Ht.
  revert t Ht. apply forallb_forall. vm_compute. reflexivity.
Qed.
